(* ===== verification/_CoqProject ===== *)
-Q . S2P
Prelude.v
Double.v
StdMap.v
MarketTypes.v
DepthBook.v
Broadcaster.v
Candles.v
RateWindow.v
Outbox.v
Saga.v
TccWallet.v
Queue.v
Spsc.v
Allocator.v
Pool.v
Format.v
Orderbook.v
MatchSpec.v
Matching.v
EngineProofs.v
Arrivals.v
EngineTheorems.v
Clearing.v
ClearingProofs.v
ClearingTheorems.v
Risk.v
RiskProofs.v
RiskTheorems.v
Gateway.v
GatewayProofs.v
GatewayTheorems.v
Strtod.v
Numeral.v
Payload.v
Pipeline.v
PipelineLedger.v
PipelineProofs.v
PipelineTheorems.v
PooledQueue.v
Observability.v
ObservabilityTheorems.v
Toolkit.v
ToolkitTheorems.v
Mpmc.v
MpmcProofs.v
MpmcSteps.v
MpmcTrace.v
MpmcTheorems.v
MpmcProgress.v
MpmcSequential.v
MpmcTokens.v
MpmcStoreBuffer.v
