(* ===== verification/Prelude.v ===== *)
(** * Verification of the exchange collection

    The repository is a spot exchange in C++: four core services, the
    infrastructure they are built from, and a pipeline that runs an order through
    all of them. This development translates the services, the infrastructure and
    the pipeline into executable Rocq definitions, one definition per function, and
    proves what makes each of them correct. This file is the root: after this
    description it holds what all files share (outcomes, machine integers, generic
    lemmas, hints).

    ** The program

    A client's request enters the gateway ([core-exchange/unified-access-gateway]):
    credentials, route, backend health and rate limit are checked, the request is
    queued and a route event is published. The pipeline
    ([integration/exchange-pipeline]) takes it from the queue, parses its payload,
    has it judged by the risk engine ([core-exchange/pre-trade-risk-engine]),
    reserves funds in the clearing system ([core-exchange/account-clearing-system]),
    submits it to the matching engine ([core-exchange/orderbook-matching-engine]),
    settles the trades, releases what is left of the holds of closed orders, and
    feeds balances, resting orders and prices back into the risk engine. The
    services use the infrastructure: queues ([lock-free-structures]), pools
    ([memory-pool]), the depth book, broadcaster and candles
    ([market-data-push-system]), the outbox, saga and TCC wallet
    ([distributed-consistency]).

    ** How the code is modelled

    - A call is a function from the object's state to an [outcome]: it returns a
      result and a new state, throws, or runs into undefined behaviour. Undefined
      behaviour ([Undef]) is a value: signed overflow, a dereferenced end iterator,
      a dangling pointer, an index out of range. Theorems that a call returns
      therefore also say that none of these happens.
    - [double] is IEEE binary64 ([Double]: SpecFloat, rounding to nearest even), with
      NaN, infinities and signed zero; 64-bit unsigned integers wrap ([wrap_u64]),
      signed ones overflow ([checked_i64]).
    - A mutex makes a call one atomic step. Where threads interleave inside a call
      the model is a machine with one step per shared access, in any order
      ([Spsc], [Mpmc]): sequentially consistent, with spurious failures of weak
      exchanges and reuse of freed addresses.
    - [std::map] with a comparator is a sorted association list ([StdMap]); an
      [unordered_map] is a [gmap], and where the code iterates over one the order is
      the parameter [unordered], of which only that it is a permutation is assumed.
    - Pool-allocated objects are reached through addresses into an [ObjectPool], so
      that aliasing and dangling pointers are visible.

    ** The files

    Foundations: [Double] (binary64 and its algebra on integer multiples of
    2^-1074), [Format] (what streams print), [Strtod] (the C library's [strtod]),
    [Numeral] (the grammar of number texts, and that [strtod] reads exactly it),
    [StdMap], [RateWindow] (the request windows of gateway and risk engine).

    Infrastructure, each file with its definitions and properties: [MarketTypes],
    [DepthBook] (depth_book.hpp), [Broadcaster] (broadcaster.hpp), [Candles]
    (candle_aggregator.hpp), [Outbox] (outbox.hpp), [Saga] (saga.hpp), [TccWallet]
    (tcc_wallet.hpp), [Queue] (queue_facade.hpp, and the interface [QueueOps] with
    [QueueLaws] and, for a limited number of calls, [MeteredQueueLaws]), [Spsc] (spsc_ring_queue.hpp, an instance), [Allocator]
    (object_pool.hpp, and the interface [BlockAllocator] with its laws), [Pool]
    (fixed_block_pool.hpp, an instance).

    The multi-producer queue (mpmc_linked_queue.hpp and backoff.hpp): [Mpmc] (heap,
    threads as program counters, and the step functions [acquire_step], [push_step],
    [pop_step], [reclaim_step], one per function of the class), [MpmcProofs] (the
    invariant, and what a step may do to other threads), [MpmcSteps] (each step keeps
    it), [MpmcTrace] (executions and the abstract automaton of a thread),
    [MpmcTheorems], [MpmcProgress], [MpmcSequential] (whole calls of one thread, an
    instance of [MeteredQueueLaws]), [MpmcTokens] (the class [Token], the map of
    [local_token_for] and the lifetime of queues) and [MpmcStoreBuffer] (a run on a
    machine with store buffers).

    Services, each with a file of definitions that follows the source, a file of
    lemmas and a file of theorems: [Orderbook], [Matching] with [MatchSpec] (the
    specification), [EngineProofs], [Arrivals] (the accepted requests in the order of
    the calls, and who is served before whom) and [EngineTheorems]; [Clearing], [ClearingProofs], [ClearingTheorems]; [Risk],
    [RiskProofs], [RiskTheorems]; [Gateway], [GatewayProofs], [GatewayTheorems].
    Their clients' theorems are proved against the interfaces [QueueLaws] and
    [BlockAllocatorLaws] and hold for every queue and allocator that satisfy them.

    The pipeline: [Payload] (the parsing half of exchange_pipeline.cpp),
    [Pipeline], [PipelineLedger] (the calls a submission makes to the clearing
    system), [PipelineProofs], [PipelineTheorems].

    Tooling: [PooledQueue] (lemmas on queues of pool addresses), [Observability]
    (observability_stack.cpp) with [ObservabilityTheorems], [Toolkit]
    (performance_toolkit.cpp) with [ToolkitTheorems].

    Names: a method [m] of class [C] is [C_m] (shortened where the class name is
    long: [Gateway_route], [Clearing_freeze_quote], [Risk_evaluate],
    [Pipeline_submit]); helper functions keep their names; the fields of a record
    are the members in order, with a prefix. A loop of a function is a fixpoint
    named after it ([match_loop], [settle_loop]); the setters [with_x] and [set_x]
    are assignments to one member.

    ** What is proved

    - Matching: [MatchSpec] specifies the engine on two priority lists without
      pointers, maps or events, and every sequence of calls of the engine refines it.
      Makers are served by price and then by the order in which the calls that placed
      them were made; the time-in-force policies, post-only and the error paths hold;
      book, price levels and live-order index agree. Quantity is conserved on a grid of
      powers of two above 1e-9.
    - Clearing: on a tick grid above the tolerance, with named holds and fees between
      zero and the notional, both assets are conserved; replaying the journal since an
      account was last registered gives its balances; a trade settles once; a call
      that is refused changes nothing.
    - Risk and gateway: a request is accepted exactly when it passes every rule (of
      the risk engine, if no number compared is NaN), and the reported reason is a rule
      it breaks; the windows admit no more requests than their limit (of the risk
      engine, if all markets share one window); every decision reaches the audit log;
      accepted requests are delivered once and in order; stale sessions are closed.
    - Pipeline, configured for its own symbol only: every call returns; a refused
      request leaves no effect; an executed one is matched as specified, and the ledger
      changes by its reservation, one settlement per trade at the trade's price, and
      the releases. As long as no settlement was refused, holds are not stranded, the
      risk engine has the resting orders of the book, and users do not trade with
      themselves beyond the price tolerance (if no order id is used twice). Payloads
      are parsed by a grammar stated without reference to the parser.
    - Infrastructure: the ring is a bounded FIFO through counter wrap-around, also
      with a producer and a consumer interleaved; blocks of the pool are never handed
      out twice; what a subscriber polls is, in order and once each, what was published
      on its topic; candles equal their definition; sagas with distinct step names
      and compensations that undo commit or restore the context; the wallet conserves
      its balance on a tick grid.
    - The multi-producer queue: no interleaving follows or frees a freed node, every
      interleaving is linearizable, every reachable state is well formed, a thread
      left alone returns within a stated number of steps, the destructor frees all;
      used by one thread at a time it is an unbounded FIFO list behind the facade,
      from any reachable state; tokens and occupied slots correspond one to one.
      The hypotheses are that a thread ends only while no other is inside a call and
      that there are too few steps to wrap the 64-bit epoch. The facts show that
      without the first, with a token that outlived its queue, or with delayed stores,
      a freed node is followed.
    - Tooling: the metrics are those of the published points, alerts fire exactly at
      the configured run of breaches, the history keeps the newest events; synthetic
      workloads are conserved and the percentiles are nearest-rank.
    - The facts ([Fact]) next to these are concrete runs in which the code does not do
      what it is meant to do (dust holds, tolerance mismatches, zero limits, ambiguous
      keys, stale caches); each names its effect.

    ** Bounds and fuel

    Loops that are not structural take fuel, and the theorems show that the fuel
    given by the definitions suffices: [match_fuel] counts the resting orders of the
    book, [drain_fuel] and the audit flush count the queued elements, the payload
    scan advances with every round and gets one round per character. Printing a
    number searches its decimal exponent in four steps around the estimate. Counters
    that only wrap after 2^64 calls appear as hypotheses on the number of calls, or of
    steps where threads interleave; there loops need no fuel, as each round is a
    sequence of steps, except [run_alone], for which [alone_bound] is shown to suffice.

    ** Parameters

    Queues and allocators (with their laws, instantiated by [Spsc] and [Pool]),
    [std::sort] (any sorting permutation, instantiated by a stable sort), the
    iteration order of unordered containers (any permutation), the actions of a saga.

    ** Not modelled

    Tests, benchmarks, [main] programs and the module summaries, which contain no
    logic. Weak memory: the interleavings of [Spsc] and [Mpmc] are sequentially
    consistent, and [MpmcStoreBuffer] only refutes. In [Mpmc] a thread stands for the
    holder of one token, and recording a retired node does not fail; [MpmcTokens]
    moves tokens, between calls only. Exhaustion of memory elsewhere, which includes
    the exceptions of [reserve] for a limit no vector can hold ([Broadcaster_poll],
    [DepthBook_snapshot], [Outbox_pending_batch]) and of the vector of slots of a
    ring ([Spsc_new]). *)

From stdpp Require Export base tactics list gmap strings sorting pretty.
From Stdlib Require Export ZArith Lia Sorted.

(** ** Outcomes of C++ code

    A call either returns, throws a standard exception, or executes an
    operation whose behaviour C++ leaves undefined ([front()] of an empty
    deque, dereferencing an end iterator or a dead pointer, signed overflow).
    Undefined behaviour is a value of the model, so that its absence can be
    stated and proved. *)
Inductive outcome (A : Type) : Type :=
| Ret (a : A)
| Throw (what : string)
| Undef (why : string).
Arguments Ret {A} a.
Arguments Throw {A} what.
Arguments Undef {A} why.

#[export] Instance outcome_ret : MRet outcome := fun A a => Ret a.
#[export] Instance outcome_bind : MBind outcome := fun A B f m =>
  match m with
  | Ret a => f a
  | Throw e => Throw e
  | Undef w => Undef w
  end.

(** [deref o why]: the value of an optional result the code uses without
    testing it; absence is undefined behaviour. *)
Definition deref {A} (o : option A) (why : string) : outcome A :=
  match o with
  | Some a => Ret a
  | None => Undef why
  end.

(** The call completed normally. *)
Definition returns {A} (m : outcome A) : Prop := exists a, m = Ret a.

(** ** Machine integers

    [std::uint64_t] and [std::size_t] are [Z] values in [0, 2^64) whose
    arithmetic wraps; [std::int64_t] is a [Z] value in [-2^63, 2^63) whose
    overflow is undefined. *)
Definition two64 : Z := 18446744073709551616.
Definition two63 : Z := 9223372036854775808.
Definition wrap_u64 (z : Z) : Z := (z mod two64)%Z.
Definition in_u64 (z : Z) : bool := (0 <=? z)%Z && (z <? two64)%Z.
Definition in_i64 (z : Z) : bool := (- two63 <=? z)%Z && (z <? two63)%Z.
Definition checked_i64 (z : Z) : outcome Z :=
  if in_i64 z then Ret z else Undef "signed integer overflow".
Definition sub_i64 (a b : Z) : outcome Z := checked_i64 (a - b)%Z.
Definition add_i64 (a b : Z) : outcome Z := checked_i64 (a + b)%Z.
(** [static_cast<std::uint64_t>] of a signed value. *)
Definition u64_of_i64 (z : Z) : Z := wrap_u64 z.

(** ** Generic tactics *)

(** Case analysis on every [if] and [match] of the goal, innermost last. *)
Ltac split_cases :=
  repeat (case_match; simplify_eq/=; try done).

(** Invert an equation between outcomes. *)
Ltac outcome_inv H := unfold mbind, outcome_bind, mret, outcome_ret in H; simplify_eq/=.

(** ** Generic lemmas *)

Lemma bind_ret {A B} (a : A) (f : A -> outcome B) : (Ret a ≫= f) = f a.
Proof. done. Qed.

Lemma bind_ret_inv {A B} (m : outcome A) (f : A -> outcome B) (b : B) :
  (m ≫= f) = Ret b -> exists a, m = Ret a /\ f a = Ret b.
Proof. destruct m; intros H; outcome_inv H; eauto. Qed.

Lemma deref_ret {A} (o : option A) (why : string) (a : A) :
  deref o why = Ret a <-> o = Some a.
Proof. destruct o; simpl; split; congruence. Qed.

Lemma wrap_u64_bound (z : Z) : (0 <= wrap_u64 z < two64)%Z.
Proof. apply Z.mod_pos_bound. done. Qed.

Lemma wrap_u64_add (a b : Z) : wrap_u64 (wrap_u64 a + b) = wrap_u64 (a + b).
Proof. unfold wrap_u64. by rewrite Zplus_mod_idemp_l. Qed.

Lemma wrap_u64_id (z : Z) : in_u64 z = true -> wrap_u64 z = z.
Proof.
  unfold in_u64, wrap_u64. rewrite andb_true_iff, Z.leb_le, Z.ltb_lt.
  apply Z.mod_small.
Qed.

Lemma StronglySorted_weaken {A} (R R' : A -> A -> Prop) (l : list A) :
  (forall x y, R x y -> R' x y) -> StronglySorted R l -> StronglySorted R' l.
Proof.
  intros HR Hs. induction Hs as [|x l Hs IH Hx]; constructor; [done|].
  eapply Forall_impl; [exact Hx|]. auto.
Qed.

Lemma forallb_true_Forall {A} (f : A -> bool) (l : list A) :
  forallb f l = true -> Forall (fun x => f x = true) l.
Proof.
  induction l as [|x l IH]; simpl; [constructor|].
  rewrite andb_true_iff. intros [? ?]. constructor; auto.
Qed.

(** A member of a list without duplicates occurs once. *)
Lemma NoDup_filter_one (x : string) (l : list string) :
  NoDup l -> x ∈ l -> length (List.filter (String.eqb x) l) = 1%nat.
Proof.
  intros Hnd. induction Hnd as [|y l Hy Hnd IH]; [by intros ?%not_elem_of_nil|].
  rewrite elem_of_cons. simpl. destruct (String.eqb_spec x y) as [->|Hne]; intros [Hx|Hx]; try done.
  - simpl. f_equal. clear IH Hx. induction l as [|z l IH]; simpl; [done|].
    apply not_elem_of_cons in Hy as [Hz Hy]. apply NoDup_cons in Hnd as [_ Hnd].
    destruct (String.eqb_spec y z); [done|]. by apply IH.
  - by apply IH.
Qed.

Lemma list_filter_none {A} (f : A -> bool) (l : list A) :
  (forall x, In x l -> f x = false) -> List.filter f l = [].
Proof.
  induction l as [|x l IH]; intros Hf; simpl; [done|].
  rewrite (Hf x (or_introl eq_refl)). apply IH. intros y Hy. apply Hf. by right.
Qed.

Lemma checked_i64_ret (z : Z) :
  (- two63 <= z < two63)%Z -> checked_i64 z = Ret z.
Proof.
  intros [Hl Hu]. unfold checked_i64, in_i64.
  apply Z.leb_le in Hl. apply Z.ltb_lt in Hu. by rewrite Hl, Hu.
Qed.

Create Rewrite HintDb outcome.
#[export] Hint Rewrite @bind_ret : outcome.
Create HintDb exchange discriminated.
#[export] Hint Resolve wrap_u64_bound wrap_u64_id checked_i64_ret : exchange.

(** ** Sums over a map *)

Definition map_sum {V} (f : V -> Z) (m : gmap string V) : Z :=
  map_fold (fun _ v acc => (f v + acc)%Z) 0%Z m.

Section MapSum.
Context {V : Type} (f : V -> Z).

Lemma map_sum_empty : map_sum f ∅ = 0%Z.
Proof using Type. apply map_fold_empty. Qed.

Lemma map_sum_insert_new (m : gmap string V) (k : string) (v : V) :
  m !! k = None -> map_sum f (<[k := v]> m) = (f v + map_sum f m)%Z.
Proof using Type.
  intros Hk. unfold map_sum. rewrite map_fold_insert_L; [done|lia|done].
Qed.

Lemma map_sum_delete (m : gmap string V) (k : string) (v : V) :
  m !! k = Some v -> map_sum f (delete k m) = (map_sum f m - f v)%Z.
Proof using Type.
  intros Hk. rewrite <- (insert_delete_id m k v Hk) at 2.
  rewrite map_sum_insert_new by apply lookup_delete_eq. lia.
Qed.

Lemma map_sum_update (m : gmap string V) (k : string) (v v' : V) :
  m !! k = Some v -> map_sum f (<[k := v']> m) = (map_sum f m - f v + f v')%Z.
Proof using Type.
  intros Hk. rewrite <- insert_delete_eq, map_sum_insert_new by apply lookup_delete_eq.
  rewrite (map_sum_delete m k v Hk). lia.
Qed.

Lemma map_sum_nonneg (m : gmap string V) :
  (forall k v, m !! k = Some v -> (0 <= f v)%Z) -> (0 <= map_sum f m)%Z.
Proof using Type.
  induction m as [|k v m Hk IH] using map_ind; intros Hf.
  { by rewrite map_sum_empty. }
  rewrite map_sum_insert_new by done.
  pose proof (Hf k v ltac:(by rewrite lookup_insert_eq)).
  assert (0 <= map_sum f m)%Z; [|lia]. apply IH. intros k' v' Hk'. apply (Hf k').
  rewrite lookup_insert_ne; [done|]. intros ->. by rewrite Hk in Hk'.
Qed.

Lemma map_sum_lookup_le (m : gmap string V) (k : string) (v : V) :
  (forall k v, m !! k = Some v -> (0 <= f v)%Z) -> m !! k = Some v -> (f v <= map_sum f m)%Z.
Proof using Type.
  intros Hf Hk. rewrite <- (insert_delete_id m k v Hk).
  rewrite map_sum_insert_new by apply lookup_delete_eq.
  assert (0 <= map_sum f (delete k m))%Z; [|lia]. apply map_sum_nonneg.
  intros k' v' H'. apply lookup_delete_Some in H' as [_ H']. by apply (Hf k').
Qed.

Lemma map_sum_two_le (m : gmap string V) (i j : string) (v w : V) :
  (forall k v, m !! k = Some v -> (0 <= f v)%Z) -> m !! i = Some v -> m !! j = Some w -> i <> j ->
  (f v + f w <= map_sum f m)%Z.
Proof using Type.
  intros Hf Hi Hj Hne.
  assert (f w <= map_sum f (delete i m))%Z.
  { apply (map_sum_lookup_le _ j); [|by rewrite lookup_delete_ne].
    intros k u [_ Hu]%lookup_delete_Some. by apply (Hf k). }
  rewrite (map_sum_delete m i v Hi) in H. lia.
Qed.
End MapSum.

(** ** What an iteration over an unordered container promises *)

Class UnorderedLaws (unordered : list string -> list string) := {
  unordered_perm : forall l, Permutation (unordered l) l
}.
#[export] Instance in_order : UnorderedLaws (fun l => l).
Proof. by split. Qed.
