(* ===== verification/Double.v ===== *)
(** * IEEE-754 binary64, the [double] of the source

    Every price, quantity and balance of the program is a [double].  The model
    uses the binary64 numbers and operations of the standard library's
    [SpecFloat] (sign, mantissa, exponent; round to nearest, ties to even), so
    NaN, infinities, signed zeros and rounding are those of the C++ code.

    The second half of the file gives the algebra the components need: finite
    doubles are integer multiples of 2^-1074, comparison is comparison of those
    integers, and addition and subtraction are integer addition and subtraction
    followed by one monotone rounding function that fixes every representable
    value. *)

From S2P Require Import Prelude.
From Stdlib Require Import SpecFloat.

Local Open Scope Z_scope.

(** ** The type and its operations *)

Abbreviation double := spec_float.

Definition prec : Z := 53.
Definition emax : Z := 1024.

Definition dadd (x y : double) : double := SFadd prec emax x y.
Definition dsub (x y : double) : double := SFsub prec emax x y.
Definition dmul (x y : double) : double := SFmul prec emax x y.
Definition ddiv (x y : double) : double := SFdiv prec emax x y.
Definition dopp (x : double) : double := SFopp x.
(** [std::fabs], [std::abs]. *)
Definition dabs (x : double) : double := SFabs x.

(** The comparison operators; all are false when an operand is NaN. *)
Definition dlt (x y : double) : bool := SFltb x y.
Definition dle (x y : double) : bool := SFleb x y.
Definition dgt (x y : double) : bool := SFltb y x.
Definition dge (x y : double) : bool := SFleb y x.
Definition deq (x y : double) : bool := SFeqb x y.

(** [std::min] and [std::max] return their first argument unless the second is
    strictly smaller, respectively greater. *)
Definition dmin (x y : double) : double := if dlt y x then y else x.
Definition dmax (x y : double) : double := if dlt x y then y else x.

(** [static_cast<double>] of an integer. *)
Definition double_of_Z (z : Z) : double := binary_normalize prec emax z 0 false.

(** The literal [m * 10^-k]: both operands of the division are exact, so the
    quotient is the correctly rounded literal. *)
Definition dlit (m : Z) (k : Z) : double := ddiv (double_of_Z m) (double_of_Z (10 ^ k)).

Definition dzero : double := S754_zero false.
Definition done_ : double := double_of_Z 1.
(** [1e-9], the tolerance every component uses. *)
Definition eps : double := S754_finite false 4835703278458517 (-82).

Definition is_finite (x : double) : bool :=
  match x with S754_zero _ | S754_finite _ _ _ => true | _ => false end.
Definition is_nan (x : double) : bool :=
  match x with S754_nan => true | _ => false end.

#[export] Instance double_eq_dec : EqDecision double.
Proof. solve_decision. Defined.

Example eps_is_1e_9 : eps = dlit 1 9.
Proof. vm_compute. reflexivity. Qed.

(** ** Values of finite doubles, in units of 2^-1074 *)

(** A finite double in canonical form: what every C++ operation produces. *)
Definition fin (x : double) : bool := is_finite x && valid_binary prec emax x.

Definition val (x : double) : Z :=
  match x with
  | S754_finite s m e => cond_Zopp s (Zpos m * 2 ^ (e + 1074))
  | _ => 0
  end.

(** The first magnitude that does not fit. *)
Definition dbig : Z := 2 ^ (1024 + 1074).

(** Round to nearest even of the integer [n] divided by [2^s]. *)
Definition rne (n s : Z) : Z :=
  let q := n / 2 ^ s in
  let r := n mod 2 ^ s in
  match 2 * r ?= 2 ^ s with
  | Lt => q
  | Eq => if Z.even q then q else q + 1
  | Gt => q + 1
  end.

(** Number of low bits that do not fit in 53 bits. *)
Definition excess (n : Z) : Z := Z.max (Z.log2 n + 1 - prec) 0.

(** Rounding of a value, in units of 2^-1074. *)
Definition rnd_pos (n : Z) : Z := rne n (excess n) * 2 ^ excess n.
Definition rnd (n : Z) : Z := if n <? 0 then - rnd_pos (- n) else rnd_pos n.

(** ** Digits and shifts *)

Lemma digits2_log2 (p : positive) : Zpos (digits2_pos p) = Z.log2 (Zpos p) + 1.
Proof.
  induction p as [p IH|p IH|]; simpl digits2_pos; [| |done].
  - rewrite Pos2Z.inj_succ, IH. rewrite (Pos2Z.inj_xI p).
    rewrite Z.log2_succ_double by lia. lia.
  - rewrite Pos2Z.inj_succ, IH. rewrite (Pos2Z.inj_xO p).
    rewrite Z.log2_double by lia. lia.
Qed.

Lemma iter_xO (p d : positive) : Zpos (Pos.iter xO p d) = Zpos p * 2 ^ Zpos d.
Proof.
  revert p. induction d as [|d IH] using Pos.peano_ind; intros p.
  - simpl. lia.
  - rewrite Pos.iter_succ, Pos2Z.inj_xO, IH, Pos2Z.inj_succ, Z.pow_succ_r by lia. lia.
Qed.

Lemma shl_align_val (m : positive) (e e' : Z) :
  Zpos (fst (shl_align m e e')) = Zpos m * 2 ^ (e - Z.min e e') /\
  snd (shl_align m e e') = Z.min e e'.
Proof.
  unfold shl_align. destruct (e' - e) as [|p|p] eqn:Hd; simpl.
  - rewrite Z.min_l by lia. rewrite Z.sub_diag. split; [simpl|]; lia.
  - rewrite Z.min_l by lia. rewrite Z.sub_diag. split; [simpl|]; lia.
  - rewrite iter_xO. rewrite Z.min_r by lia.
    replace (e - e') with (Zpos p) by lia. done.
Qed.

Lemma iter_pos_nat {A} (f : A -> A) (p : positive) (x : A) :
  iter_pos f p x = Nat.iter (Pos.to_nat p) f x.
Proof.
  revert x. induction p as [p IH|p IH|]; intros x; simpl iter_pos; [| |done].
  - rewrite !IH. rewrite Pos2Nat.inj_xI.
    replace (S (2 * Pos.to_nat p))%nat with (Pos.to_nat p + Pos.to_nat p + 1)%nat by lia.
    rewrite !Nat.iter_add. done.
  - rewrite !IH. rewrite Pos2Nat.inj_xO.
    replace (2 * Pos.to_nat p)%nat with (Pos.to_nat p + Pos.to_nat p)%nat by lia.
    rewrite Nat.iter_add. done.
Qed.

(** What shifting [n] right by [s] bits loses. *)
Definition lost (n s : Z) : location :=
  if n mod 2 ^ s =? 0 then loc_Exact else loc_Inexact (2 * (n mod 2 ^ s) ?= 2 ^ s).

Lemma shr_1_spec (m : Z) (r s : bool) :
  0 <= m ->
  shr_1 (Build_shr_record m r s) = Build_shr_record (m / 2) (Z.odd m) (r || s).
Proof.
  intros Hm. destruct m as [|[p|p|]|p]; try lia; simpl shr_1; try done; f_equal.
  - rewrite Pos2Z.inj_xI. rewrite Z.mul_comm, Z.add_comm, Z.div_add by lia. done.
  - rewrite Pos2Z.inj_xO. rewrite Z.mul_comm, Z.div_mul by lia. done.
Qed.

Lemma shr_iter (m : Z) (k : nat) :
  0 <= m ->
  let rec := Nat.iter k shr_1 (Build_shr_record m false false) in
  shr_m rec = m / 2 ^ Z.of_nat k /\ loc_of_shr_record rec = lost m (Z.of_nat k).
Proof.
  intros Hm. induction k as [|k [IHm IHl]].
  - simpl. rewrite Z.div_1_r. unfold lost. by rewrite Z.mod_1_r.
  - rewrite Nat2Z.inj_succ. simpl Nat.iter. cbv zeta.
    destruct (Nat.iter k shr_1 _) as [q r s]. simpl in IHm.
    assert (0 <= q) by (subst q; apply Z.div_pos; lia).
    rewrite shr_1_spec by done. simpl shr_m.
    set (P := 2 ^ Z.of_nat k) in *.
    assert (HP : 0 < P) by (subst P; lia).
    assert (HPS : 2 ^ Z.succ (Z.of_nat k) = P * 2)
      by (subst P; rewrite Z.pow_succ_r by lia; lia).
    rewrite HPS. split.
    { rewrite IHm. rewrite Z.div_div by lia. done. }
    unfold lost in *. rewrite HPS. fold P in IHl.
    rewrite (Z.rem_mul_r m P 2) by lia. rewrite <- IHm.
    pose proof (Z.mod_pos_bound m P HP) as HB.
    revert IHl HB. generalize (m mod P). intros rm IHl HB.
    assert (Hrs : r || s = negb (rm =? 0)).
    { destruct (Z.eqb_spec rm 0); destruct r, s; simpl in *; congruence. }
    rewrite Hrs. rewrite Zmod_odd. clear IHl Hrs HPS.
    destruct (Z.odd q); destruct (Z.eqb_spec rm 0) as [->|Hn]; simpl.
    + replace (0 + P * 1 =? 0) with false by lia.
      replace (2 * (0 + P * 1) ?= P * 2) with Eq
        by (symmetry; apply Z.compare_eq_iff; lia). done.
    + replace (rm + P * 1 =? 0) with false by lia.
      replace (2 * (rm + P * 1) ?= P * 2) with Gt
        by (symmetry; apply Z.compare_gt_iff; lia). done.
    + rewrite Z.mul_0_r. done.
    + replace (rm + P * 0 =? 0) with false by lia.
      replace (2 * (rm + P * 0) ?= P * 2) with Lt
        by (symmetry; apply Z.compare_lt_iff; lia). done.
Qed.

(** Shifting right by [n >= 0], the loop of [shr]. *)
Lemma shr_spec (m e n : Z) :
  0 <= m -> 0 <= n ->
  let '(rec, e') := shr (Build_shr_record m false false) e n in
  shr_m rec = m / 2 ^ n /\ loc_of_shr_record rec = lost m n /\ e' = e + n.
Proof.
  intros Hm Hn. unfold shr. destruct n as [|p|p]; try lia.
  - simpl. rewrite Z.div_1_r, Z.add_0_r. unfold lost. by rewrite Z.mod_1_r.
  - rewrite iter_pos_nat.
    destruct (shr_iter m (Pos.to_nat p) Hm) as [H1 H2].
    rewrite positive_nat_Z in H1, H2. done.
Qed.

Lemma round_lost (m n : Z) :
  0 <= n -> round_nearest_even (m / 2 ^ n) (lost m n) = rne m n.
Proof.
  intros Hn. unfold lost, rne.
  pose proof (Z.mod_pos_bound m (2 ^ n) ltac:(lia)) as HB.
  destruct (Z.eqb_spec (m mod 2 ^ n) 0) as [->|Hne].
  - replace (2 * 0 ?= 2 ^ n) with Lt by (symmetry; apply Z.compare_lt_iff; lia). done.
  - simpl. destruct (2 * (m mod 2 ^ n) ?= 2 ^ n); done.
Qed.

(** ** The rounding function *)

Lemma rne_0 (n : Z) : rne n 0 = n.
Proof. unfold rne. rewrite Z.pow_0_r, Z.mod_1_r, Z.div_1_r. done. Qed.

Lemma rne_bounds (n s : Z) : 0 <= s -> n / 2 ^ s <= rne n s <= n / 2 ^ s + 1.
Proof.
  intros Hs. unfold rne. destruct (_ ?= _); [case_match|..]; lia.
Qed.

(** Twice the rounding error is at most one unit. *)
Lemma rne_error (n s : Z) :
  0 <= s -> Z.abs (2 * (rne n s * 2 ^ s - n)) <= 2 ^ s.
Proof.
  intros Hs. unfold rne.
  pose proof (Z.mod_pos_bound n (2 ^ s) ltac:(lia)) as HB.
  pose proof (Z.div_mod n (2 ^ s) ltac:(lia)) as HD.
  set (q := n / 2 ^ s) in *. set (r := n mod 2 ^ s) in *. set (P := 2 ^ s) in *.
  clearbody q r P.
  destruct (Z.compare_spec (2 * r) P); [case_match|..]; lia.
Qed.

Lemma rne_mono (n n' s : Z) : 0 <= s -> n <= n' -> rne n s <= rne n' s.
Proof.
  intros Hs Hle.
  destruct (Z.eq_dec (n / 2 ^ s) (n' / 2 ^ s)) as [Heq|Hne].
  - unfold rne. rewrite Heq.
    pose proof (Z.div_mod n (2 ^ s) ltac:(lia)) as H1.
    pose proof (Z.div_mod n' (2 ^ s) ltac:(lia)) as H2.
    rewrite Heq in H1. assert (Hr : n mod 2 ^ s <= n' mod 2 ^ s) by lia.
    destruct (Z.compare_spec (2 * (n mod 2 ^ s)) (2 ^ s));
      destruct (Z.compare_spec (2 * (n' mod 2 ^ s)) (2 ^ s)); repeat case_match; lia.
  - pose proof (Z.div_le_mono n n' (2 ^ s) ltac:(lia) Hle).
    pose proof (rne_bounds n s Hs). pose proof (rne_bounds n' s Hs). lia.
Qed.

Lemma rne_exact (a s : Z) : 0 <= s -> rne (a * 2 ^ s) s = a.
Proof.
  intros Hs. unfold rne. rewrite Z.mod_mul, Z.div_mul by lia.
  replace (2 * 0 ?= 2 ^ s) with Lt by (symmetry; apply Z.compare_lt_iff; lia). done.
Qed.

Lemma excess_nonneg (n : Z) : 0 <= excess n.
Proof. unfold excess. lia. Qed.

Lemma rnd_pos_small (n : Z) : excess n = 0 -> rnd_pos n = n.
Proof. intros H. unfold rnd_pos. rewrite H, rne_0. lia. Qed.

Lemma div_pow_bounds (n s : Z) :
  0 < n -> 0 <= s <= Z.log2 n ->
  2 ^ (Z.log2 n - s) <= n / 2 ^ s < 2 ^ (Z.log2 n - s + 1).
Proof.
  intros Hn Hs. destruct (Z.log2_spec n Hn) as [Hl Hu]. split.
  - apply Z.div_le_lower_bound; [lia|].
    rewrite <- Z.pow_add_r by lia. by replace (s + (Z.log2 n - s)) with (Z.log2 n) by lia.
  - apply Z.div_lt_upper_bound; [lia|].
    rewrite <- Z.pow_add_r by lia.
    by replace (s + (Z.log2 n - s + 1)) with (Z.succ (Z.log2 n)) by lia.
Qed.

Lemma rnd_pos_bounds (n : Z) :
  0 < n -> 2 ^ Z.log2 n <= rnd_pos n <= 2 ^ (Z.log2 n + 1).
Proof.
  intros Hn. destruct (Z.eq_dec (excess n) 0) as [H0|H0].
  - rewrite rnd_pos_small by done. destruct (Z.log2_spec n Hn). lia.
  - assert (Hs : excess n = Z.log2 n - 52) by (unfold excess, prec in *; lia).
    assert (52 <= Z.log2 n) by (unfold excess, prec in *; lia).
    unfold rnd_pos. pose proof (excess_nonneg n).
    pose proof (rne_bounds n (excess n) ltac:(lia)) as HR.
    pose proof (div_pow_bounds n (excess n) Hn ltac:(lia)) as HD.
    replace (Z.log2 n - excess n) with 52 in HD by lia.
    replace (Z.log2 n) with (52 + excess n) by lia.
    replace (52 + excess n + 1) with (53 + excess n) by lia.
    rewrite !Z.pow_add_r by lia.
    change (2 ^ (52 + 1)) with (2 ^ 53) in HD. nia.
Qed.

Lemma rnd_pos_nonneg (n : Z) : 0 <= n -> 0 <= rnd_pos n.
Proof.
  intros Hn. destruct (Z.eq_dec n 0) as [->|Hne]; [done|].
  pose proof (rnd_pos_bounds n ltac:(lia)). pose proof (Z.pow_nonneg 2 (Z.log2 n)). lia.
Qed.

Lemma rnd_pos_mono (n n' : Z) : 0 <= n <= n' -> rnd_pos n <= rnd_pos n'.
Proof.
  intros [Hn Hle]. destruct (Z.eq_dec n 0) as [->|Hne].
  { change (rnd_pos 0) with 0. by apply rnd_pos_nonneg. }
  pose proof (Z.log2_le_mono n n' Hle) as Hl.
  destruct (Z.eq_dec (Z.log2 n) (Z.log2 n')) as [Heq|Hlt].
  - assert (He : excess n = excess n') by (unfold excess; lia).
    unfold rnd_pos. rewrite He.
    pose proof (rne_mono n n' (excess n') (excess_nonneg n') Hle).
    pose proof (Z.pow_nonneg 2 (excess n') ltac:(lia)). nia.
  - pose proof (rnd_pos_bounds n ltac:(lia)) as H1.
    pose proof (rnd_pos_bounds n' ltac:(lia)) as H2.
    pose proof (Z.log2_nonneg n).
    pose proof (Z.pow_le_mono_r 2 (Z.log2 n + 1) (Z.log2 n') ltac:(lia) ltac:(lia)). lia.
Qed.

(** Every multiple [a * 2^k] with a 53-bit [a] is representable. *)
Lemma rnd_pos_exact (a k : Z) :
  0 <= a <= 2 ^ 53 -> 0 <= k -> rnd_pos (a * 2 ^ k) = a * 2 ^ k.
Proof.
  intros Ha Hk. destruct (Z.eq_dec a 0) as [->|Ha0]; [done|].
  assert (Hx : exists b s, excess (a * 2 ^ k) = s /\ 0 <= s /\ a * 2 ^ k = b * 2 ^ s).
  { destruct (Z.eq_dec a (2 ^ 53)) as [->|Hne].
    - exists (2 ^ 52), (k + 1). rewrite <- !Z.pow_add_r by lia. unfold excess.
      rewrite Z.log2_pow2 by lia. unfold prec. split; [lia|]. split; [lia|]. f_equal. lia.
    - assert (Hlog : Z.log2 a < 53) by (apply Z.log2_lt_pow2; lia).
      pose proof (Z.log2_nonneg a).
      exists (a * 2 ^ (k - excess (a * 2 ^ k))), (excess (a * 2 ^ k)).
      split; [done|]. split; [apply excess_nonneg|].
      rewrite <- Z.mul_assoc, <- Z.pow_add_r; [f_equal; f_equal; lia| |apply excess_nonneg].
      unfold excess. rewrite Z.log2_mul_pow2 by lia. unfold prec. lia. }
  destruct Hx as (b & s & He & Hs & Heq).
  unfold rnd_pos. rewrite He, Heq. by rewrite rne_exact.
Qed.

Lemma rnd_opp (n : Z) : rnd (- n) = - rnd n.
Proof.
  unfold rnd. destruct (Z.ltb_spec (- n) 0), (Z.ltb_spec n 0); try lia.
  - by rewrite Z.opp_involutive.
  - assert (n = 0) as -> by lia. done.
Qed.

Lemma rnd_nonneg (n : Z) : 0 <= n -> 0 <= rnd n.
Proof. intros H. unfold rnd. rewrite (proj2 (Z.ltb_ge n 0)) by lia. by apply rnd_pos_nonneg. Qed.

Lemma rnd_mono (n n' : Z) : n <= n' -> rnd n <= rnd n'.
Proof.
  intros Hle. unfold rnd. destruct (Z.ltb_spec n 0), (Z.ltb_spec n' 0); try lia.
  - pose proof (rnd_pos_mono (- n') (- n)). lia.
  - pose proof (rnd_pos_nonneg (- n)). pose proof (rnd_pos_nonneg n'). lia.
  - pose proof (rnd_pos_mono n n'). lia.
Qed.

Lemma rnd_exact (a k : Z) : Z.abs a <= 2 ^ 53 -> 0 <= k -> rnd (a * 2 ^ k) = a * 2 ^ k.
Proof.
  intros Ha Hk. unfold rnd. pose proof (Z.pow_pos_nonneg 2 k ltac:(lia) Hk).
  destruct (Z.ltb_spec (a * 2 ^ k) 0).
  - rewrite <- Z.mul_opp_l, rnd_pos_exact by nia. lia.
  - apply rnd_pos_exact; nia.
Qed.

Lemma rnd_0 : rnd 0 = 0.
Proof. done. Qed.

(** ** Correctness of the rounding of [SpecFloat] *)

Lemma fexp_eq (e : Z) : fexp prec emax e = Z.max (e - 53) (-1074).
Proof. done. Qed.

Lemma shr_nonpos (rec : shr_record) (e n : Z) : n <= 0 -> shr rec e n = (rec, e).
Proof. intros H. unfold shr. destruct n; [done|lia|done]. Qed.

(** The mantissa left by the first rounding fits in 53 bits, and has exactly 53
    unless the number is subnormal. *)
Lemma rounded_mantissa (m : positive) (e : Z) :
  let t := fexp prec emax (Z.log2 (Zpos m) + 1 + e) in
  let M := rne (Zpos m) (t - e) in
  e <= t ->
  0 <= M <= 2 ^ 53 /\ (-1074 < t -> 2 ^ 52 <= M).
Proof.
  intros t M Ht. subst t M. rewrite fexp_eq in *.
  set (n := Z.max _ _ - e). assert (Hn : 0 <= n) by lia.
  pose proof (rne_bounds (Zpos m) n Hn) as HB.
  destruct (Z.log2_spec (Zpos m) ltac:(lia)) as [Hl Hu].
  assert (Zpos m / 2 ^ n < 2 ^ 53).
  { apply Z.div_lt_upper_bound; [lia|]. rewrite <- Z.pow_add_r by lia.
    eapply Z.lt_le_trans; [exact Hu|]. apply Z.pow_le_mono_r; lia. }
  pose proof (Z.div_pos (Zpos m) (2 ^ n) ltac:(lia) ltac:(lia)).
  split; [lia|]. intros Hgt.
  pose proof (Z.log2_nonneg (Zpos m)).
  pose proof (div_pow_bounds (Zpos m) n ltac:(lia) ltac:(lia)) as HD.
  replace (Z.log2 (Zpos m) - n) with 52 in HD by lia. lia.
Qed.

(** What [binary_round_aux] returns for the value [m * 2^e]. *)
Definition rounded_to (x : double) (s : bool) (v : Z) : Prop :=
  valid_binary prec emax x = true /\
  (v < dbig -> is_finite x = true /\ val x = cond_Zopp s v) /\
  (dbig <= v -> x = S754_infinity s).

Lemma rounded_finite (s : bool) (p : positive) (t : Z) :
  Z.log2 (Zpos p) < 53 -> -1074 <= t -> (-1074 < t -> 52 <= Z.log2 (Zpos p)) ->
  rounded_to (if t <=? 971 then S754_finite s p t else S754_infinity s) s
    (Zpos p * 2 ^ (t + 1074)).
Proof.
  intros Hl Ht Hn. pose proof (Z.log2_nonneg (Zpos p)).
  destruct (Z.log2_spec (Zpos p) ltac:(lia)) as [Hlo Hhi].
  unfold rounded_to, dbig. destruct (Z.leb_spec t 971); simpl valid_binary.
  - split.
    + unfold bounded, canonical_mantissa. rewrite digits2_log2, fexp_eq.
      apply andb_true_intro. split; [apply Z.eqb_eq|apply Z.leb_le; unfold emax, prec]; lia.
    + split; [done|]. intros HB. exfalso.
      assert (Zpos p * 2 ^ (t + 1074) < 2 ^ (Z.succ (Z.log2 (Zpos p))) * 2 ^ (t + 1074)).
      { apply Z.mul_lt_mono_pos_r; [lia|done]. }
      rewrite <- Z.pow_add_r in * by lia.
      pose proof (Z.pow_le_mono_r 2 (Z.succ (Z.log2 (Zpos p)) + (t + 1074)) (1024 + 1074)
        ltac:(lia) ltac:(lia)). lia.
  - split; [done|]. split; [|done]. intros HB. exfalso.
    assert (2 ^ 52 * 2 ^ (t + 1074) <= Zpos p * 2 ^ (t + 1074)).
    { apply Z.mul_le_mono_nonneg_r; [lia|]. specialize (Hn ltac:(lia)).
      pose proof (Z.pow_le_mono_r 2 52 (Z.log2 (Zpos p)) ltac:(lia) ltac:(lia)). lia. }
    rewrite <- Z.pow_add_r in * by lia.
    pose proof (Z.pow_le_mono_r 2 (1024 + 1074) (52 + (t + 1074)) ltac:(lia) ltac:(lia)). lia.
Qed.

(** The second rounding of [binary_round_aux]: renormalise a mantissa of at most
    53 bits, or 2^53 itself. *)
Lemma second_rounding (s : bool) (M t : Z) :
  0 <= M <= 2 ^ 53 -> -1074 <= t -> (-1074 < t -> 2 ^ 52 <= M) ->
  rounded_to (let '(r, e) := shr_fexp prec emax M t loc_Exact in
              match shr_m r with
              | Z0 => S754_zero s
              | Zpos m => if e <=? emax - prec then S754_finite s m e else S754_infinity s
              | _ => S754_nan
              end) s (M * 2 ^ (t + 1074)).
Proof.
  intros [HM0 HM1] Ht1 HN. unfold shr_fexp. simpl shr_record_of_loc.
  destruct M as [|p|p]; [| |lia].
  - simpl Zdigits2. rewrite shr_nonpos by (rewrite fexp_eq; lia). simpl.
    split; [done|]. split; [intros _; by destruct s|].
    intros HB. exfalso. revert HB. apply Z.lt_nge. unfold dbig. lia.
  - simpl Zdigits2. rewrite digits2_log2.
    destruct (Z.eq_dec (Zpos p) (2 ^ 53)) as [Hp|Hp].
    + rewrite Hp. rewrite Z.log2_pow2 by lia.
      replace (fexp prec emax (53 + 1 + t) - t) with 1 by (rewrite fexp_eq; lia).
      change (shr (Build_shr_record (2 ^ 53) false false) t 1)
        with (Build_shr_record (2 ^ 52) false false, t + 1).
      simpl shr_m. change (2 ^ 52) with (Zpos 4503599627370496).
      replace (2 ^ 53 * 2 ^ (t + 1074)) with (Zpos 4503599627370496 * 2 ^ (t + 1 + 1074)).
      2: { change (Zpos 4503599627370496) with (2 ^ 52).
           rewrite <- !Z.pow_add_r by lia. f_equal. lia. }
      apply rounded_finite; [done|lia|]. intros _. done.
    + assert (Hl : Z.log2 (Zpos p) < 53) by (apply Z.log2_lt_pow2; lia).
      rewrite shr_nonpos by (rewrite fexp_eq; lia). simpl shr_m.
      change (emax - prec) with 971.
      apply rounded_finite; [done|done|].
      intros Hgt. specialize (HN Hgt).
      apply Z.log2_le_mono in HN. by rewrite Z.log2_pow2 in HN by lia.
Qed.

Lemma round_aux_spec (s : bool) (m : positive) (e : Z) :
  let t := fexp prec emax (Z.log2 (Zpos m) + 1 + e) in
  e <= t ->
  rounded_to (binary_round_aux prec emax s (Zpos m) e loc_Exact) s
    (rne (Zpos m) (t - e) * 2 ^ (t + 1074)).
Proof.
  intros t Ht. unfold binary_round_aux. unfold shr_fexp at 1. simpl Zdigits2. simpl shr_record_of_loc.
  rewrite digits2_log2. fold t.
  pose proof (shr_spec (Zpos m) e (t - e) ltac:(lia) ltac:(lia)) as HS.
  destruct (shr _ e (t - e)) as [rec e']. destruct HS as (H1 & H2 & ->).
  rewrite H1, H2, round_lost by lia.
  replace (e + (t - e)) with t by lia.
  pose proof (rounded_mantissa m e Ht) as [HB HN]. fold t in HB, HN.
  apply second_rounding; [done| |done]. subst t. rewrite fexp_eq. lia.
Qed.

Lemma rne_shift (a s k : Z) : 0 <= s -> 0 <= k -> rne (a * 2 ^ k) (s + k) = rne a s.
Proof.
  intros Hs Hk. unfold rne. rewrite Z.pow_add_r by lia.
  rewrite Z.div_mul_cancel_r by lia.
  rewrite (Z.mul_comm a), (Z.mul_comm (2 ^ s)), Zmult_mod_distr_l.
  replace (2 * (2 ^ k * (a mod 2 ^ s)) ?= 2 ^ k * 2 ^ s) with (2 * (a mod 2 ^ s) ?= 2 ^ s).
  { done. }
  rewrite (Z.mul_assoc 2), (Z.mul_comm 2 (2 ^ k)), <- Z.mul_assoc.
  apply Zmult_compare_compat_l. lia.
Qed.

Lemma round_spec (s : bool) (m : positive) (e : Z) :
  -1074 <= e ->
  rounded_to (binary_round prec emax s m e) s (rnd_pos (Zpos m * 2 ^ (e + 1074))).
Proof.
  intros He. unfold binary_round.
  pose proof (shl_align_val m e (fexp prec emax (Zpos (digits2_pos m) + e))) as [Hm Hz].
  destruct (shl_align m e _) as [mz ez]. simpl in Hm, Hz.
  rewrite digits2_log2 in Hm, Hz. set (t := fexp prec emax (Z.log2 (Zpos m) + 1 + e)) in *.
  assert (Ht : -1074 <= t) by (subst t; rewrite fexp_eq; lia).
  rewrite <- Hz in Hm.
  assert (Hlog : Z.log2 (Zpos mz) = Z.log2 (Zpos m) + (e - ez))
    by (rewrite Hm, Z.log2_mul_pow2 by lia; lia).
  assert (Ht' : fexp prec emax (Z.log2 (Zpos mz) + 1 + ez) = t)
    by (subst t; f_equal; lia).
  pose proof (round_aux_spec s mz ez) as HR. cbv zeta in HR. rewrite Ht' in HR.
  specialize (HR ltac:(lia)).
  replace (rnd_pos (Zpos m * 2 ^ (e + 1074)))
    with (rne (Zpos mz) (t - ez) * 2 ^ (t + 1074)); [done|].
  replace (Zpos m * 2 ^ (e + 1074)) with (Zpos mz * 2 ^ (ez + 1074)).
  2: { rewrite Hm, <- Z.mul_assoc, <- Z.pow_add_r by lia. f_equal. f_equal. lia. }
  unfold rnd_pos.
  assert (Hx : excess (Zpos mz * 2 ^ (ez + 1074)) = t + 1074).
  { unfold excess. rewrite Z.log2_mul_pow2 by lia. subst t. rewrite fexp_eq.
    unfold prec. lia. }
  rewrite Hx. replace (t + 1074) with ((t - ez) + (ez + 1074)) at 2 by lia.
  by rewrite rne_shift by lia.
Qed.

(** The result of a rounded operation with exact value [v]. *)
Definition computes (x : double) (v : Z) : Prop :=
  valid_binary prec emax x = true /\
  (Z.abs (rnd v) < dbig -> fin x = true /\ val x = rnd v) /\
  (dbig <= Z.abs (rnd v) -> x = S754_infinity (v <? 0)).

Lemma normalize_spec (z e : Z) (sz : bool) :
  -1074 <= e -> computes (binary_normalize prec emax z e sz) (z * 2 ^ (e + 1074)).
Proof.
  intros He. unfold computes, fin.
  assert (HP : 0 < 2 ^ (e + 1074)) by lia.
  destruct z as [|p|p]; simpl binary_normalize.
  - split; [done|]. split; [by intros _|]. intros HB. exfalso. revert HB. by apply Z.lt_nge.
  - destruct (round_spec false p e He) as (Hv & Hf & Hi). split; [done|].
    unfold rnd. rewrite (proj2 (Z.ltb_ge _ 0)) by lia.
    pose proof (rnd_pos_nonneg (Zpos p * 2 ^ (e + 1074)) ltac:(lia)).
    rewrite Z.abs_eq by done. split; [|exact Hi]. intros HB.
    destruct (Hf HB) as [Hf1 Hf2]. by rewrite Hf1, Hv.
  - destruct (round_spec true p e He) as (Hv & Hf & Hi). split; [done|].
    unfold rnd. rewrite (proj2 (Z.ltb_lt _ 0)) by lia.
    rewrite <- Z.mul_opp_l. change (- Zneg p) with (Zpos p).
    pose proof (rnd_pos_nonneg (Zpos p * 2 ^ (e + 1074)) ltac:(lia)).
    rewrite Z.abs_neq, Z.opp_involutive by lia. split; [|exact Hi]. intros HB.
    destruct (Hf HB) as [Hf1 Hf2]. by rewrite Hf1, Hv.
Qed.

Lemma fin_inv (x : double) :
  fin x = true ->
  match x with
  | S754_finite _ m e => Z.log2 (Zpos m) < 53 /\ -1074 <= e <= 971 /\
                         (-1074 < e -> Z.log2 (Zpos m) = 52)
  | S754_zero _ => True
  | _ => False
  end.
Proof.
  unfold fin. destruct x as [s|s| |s m e]; try done.
  cbn [is_finite valid_binary andb].
  unfold bounded, canonical_mantissa. rewrite digits2_log2, fexp_eq.
  rewrite andb_true_iff, Z.eqb_eq, Z.leb_le. change (emax - prec) with 971. lia.
Qed.

(** Finite doubles are fixed by rounding and never reach the overflow bound. *)
Lemma fin_repr (x : double) : fin x = true -> rnd (val x) = val x /\ Z.abs (val x) < dbig.
Proof.
  intros Hf. apply fin_inv in Hf. destruct x as [s|s| |s m e]; try done.
  destruct Hf as (Hl & He & _). cbn [val].
  destruct (Z.log2_spec (Zpos m) ltac:(lia)) as [_ Hu].
  pose proof (Z.pow_le_mono_r 2 (Z.succ (Z.log2 (Zpos m))) 53 ltac:(lia) ltac:(lia)).
  split.
  - destruct s; simpl cond_Zopp; [rewrite <- Z.mul_opp_l|]; apply rnd_exact; lia.
  - assert (Zpos m * 2 ^ (e + 1074) < dbig).
    { unfold dbig. apply Z.lt_le_trans with (2 ^ 53 * 2 ^ (e + 1074)).
      - apply Z.mul_lt_mono_pos_r; lia.
      - rewrite <- Z.pow_add_r by lia. apply Z.pow_le_mono_r; lia. }
    destruct s; simpl cond_Zopp; lia.
Qed.

Lemma fin_val_0 (x : double) : fin x = true -> val x = 0 -> exists s, x = S754_zero s.
Proof.
  intros Hf Hv. apply fin_inv in Hf. destruct x as [s|s| |s m e]; try done; [eauto|].
  simpl in Hv. destruct Hf as (_ & He & _).
  pose proof (Z.pow_pos_nonneg 2 (e + 1074) ltac:(lia) ltac:(lia)).
  destruct s; simpl in Hv; lia.
Qed.

Lemma computes_fin (x : double) : fin x = true -> computes x (val x).
Proof.
  intros Hf. destruct (fin_repr x Hf) as [Hr HB]. split.
  - unfold fin in Hf. apply andb_true_iff in Hf. tauto.
  - rewrite Hr. split; [done|]. lia.
Qed.

(** ** Addition and subtraction *)

Lemma val_aligned (s : bool) (m : positive) (e ez : Z) :
  -1074 <= ez <= e ->
  cond_Zopp s (Zpos (fst (shl_align m e ez))) * 2 ^ (ez + 1074) =
  val (S754_finite s m e).
Proof.
  intros He. destruct (shl_align_val m e ez) as [H _]. rewrite H. simpl val.
  rewrite Z.min_r by lia.
  assert (Zpos m * 2 ^ (e - ez) * 2 ^ (ez + 1074) = Zpos m * 2 ^ (e + 1074)).
  { rewrite <- Z.mul_assoc, <- Z.pow_add_r by lia. do 2 f_equal. lia. }
  destruct s; simpl cond_Zopp; [rewrite Z.mul_opp_l|]; lia.
Qed.

Lemma dadd_computes (x y : double) :
  fin x = true -> fin y = true -> computes (dadd x y) (val x + val y).
Proof.
  intros Hx Hy. pose proof (fin_inv x Hx) as Ix. pose proof (fin_inv y Hy) as Iy.
  unfold dadd. destruct x as [sx|sx| |sx mx ex], y as [sy|sy| |sy my ey]; try done.
  - simpl. destruct sx, sy; apply (computes_fin (S754_zero _)); done.
  - apply (computes_fin (S754_finite sy my ey)). done.
  - change (val (S754_zero sy)) with 0. rewrite Z.add_0_r.
    apply (computes_fin (S754_finite sx mx ex)). done.
  - unfold SFadd. pose proof (normalize_spec) as HN.
    rewrite <- (val_aligned sx mx ex (Z.min ex ey)) by lia.
    rewrite <- (val_aligned sy my ey (Z.min ex ey)) by lia.
    rewrite <- Z.mul_add_distr_r. apply normalize_spec. lia.
Qed.

Lemma dopp_fin (x : double) : fin (dopp x) = fin x.
Proof. by destruct x. Qed.

Lemma dopp_val (x : double) : val (dopp x) = - val x.
Proof. destruct x as [| | |[]]; simpl; lia. Qed.

Lemma dsub_dadd (x y : double) : dsub x y = dadd x (dopp y).
Proof.
  unfold dsub, dadd, SFsub, SFadd, dopp, SFopp.
  destruct x as [[]|[]| |sx mx ex], y as [[]|[]| |sy my ey]; try done.
  f_equal. destruct sy; simpl; lia.
Qed.

Lemma dsub_computes (x y : double) :
  fin x = true -> fin y = true -> computes (dsub x y) (val x - val y).
Proof.
  intros Hx Hy. rewrite dsub_dadd, <- Z.add_opp_r, <- dopp_val.
  apply dadd_computes; [done|]. by rewrite dopp_fin.
Qed.

Lemma dabs_spec (x : double) : fin x = true -> fin (dabs x) = true /\ val (dabs x) = Z.abs (val x).
Proof.
  intros Hx. pose proof (fin_inv x Hx) as Ix. destruct x as [[]|[]| |[] m e]; try done;
    (split; [done|]); simpl; destruct Ix as (_ & He & _);
    pose proof (Z.pow_pos_nonneg 2 (e + 1074)); lia.
Qed.

(** Exact cases. *)
Lemma dadd_exact (x y : double) :
  fin x = true -> fin y = true -> rnd (val x + val y) = val x + val y ->
  Z.abs (val x + val y) < dbig ->
  fin (dadd x y) = true /\ val (dadd x y) = val x + val y.
Proof. intros Hx Hy Hr HB. destruct (dadd_computes x y Hx Hy) as (_ & H & _). rewrite Hr in H. auto. Qed.

Lemma dsub_exact (x y : double) :
  fin x = true -> fin y = true -> rnd (val x - val y) = val x - val y ->
  Z.abs (val x - val y) < dbig ->
  fin (dsub x y) = true /\ val (dsub x y) = val x - val y.
Proof. intros Hx Hy Hr HB. destruct (dsub_computes x y Hx Hy) as (_ & H & _). rewrite Hr in H. auto. Qed.

(** [x - x] is exactly zero. *)
Lemma dsub_diag (x : double) : fin x = true -> fin (dsub x x) = true /\ val (dsub x x) = 0.
Proof.
  intros Hx. destruct (dsub_exact x x Hx Hx) as [H1 H2]; rewrite Z.sub_diag in *; try done.
Qed.

(** Subtracting a smaller nonnegative number stays between zero and the
    minuend, whatever the rounding. *)
Lemma dsub_between (x y : double) :
  fin x = true -> fin y = true -> 0 <= val y <= val x ->
  fin (dsub x y) = true /\ 0 <= val (dsub x y) <= val x.
Proof.
  intros Hx Hy Hle. destruct (dsub_computes x y Hx Hy) as (_ & H & _).
  destruct (fin_repr x Hx) as [Hr HB].
  pose proof (rnd_nonneg (val x - val y) ltac:(lia)).
  pose proof (rnd_mono (val x - val y) (val x) ltac:(lia)).
  destruct H as [Hf Hv]; [lia|]. rewrite Hf, Hv. split; [done|]. lia.
Qed.

(** A finite sum is the rounded sum. *)
Lemma computes_val (x : double) (v : Z) : computes x v -> fin x = true -> val x = rnd v.
Proof.
  intros (_ & H & Hi) Hf. destruct (Z.lt_ge_cases (Z.abs (rnd v)) dbig); [by apply H|].
  by rewrite Hi in Hf.
Qed.

(** Adding nonnegative numbers never decreases. *)
Lemma dadd_nonneg (x y : double) :
  fin x = true -> fin y = true -> 0 <= val x -> 0 <= val y ->
  fin (dadd x y) = true -> val x <= val (dadd x y) /\ val y <= val (dadd x y).
Proof.
  intros Hx Hy H1 H2 Hf. rewrite (computes_val _ _ (dadd_computes x y Hx Hy) Hf).
  destruct (fin_repr x Hx) as [Hrx _]. destruct (fin_repr y Hy) as [Hry _].
  pose proof (rnd_mono (val x) (val x + val y) ltac:(lia)).
  pose proof (rnd_mono (val y) (val x + val y) ltac:(lia)). lia.
Qed.

(** ** Comparison *)

Lemma pos_compare_val (m m' : positive) (e e' : Z) :
  fin (S754_finite false m e) = true -> fin (S754_finite false m' e') = true ->
  match e ?= e' with Lt => Lt | Gt => Gt | Eq => Pos.compare_cont Eq m m' end =
  (Zpos m * 2 ^ (e + 1074) ?= Zpos m' * 2 ^ (e' + 1074)).
Proof.
  assert (Hlt : forall m m' e e', fin (S754_finite false m e) = true ->
    fin (S754_finite false m' e') = true -> e < e' ->
    Zpos m * 2 ^ (e + 1074) < Zpos m' * 2 ^ (e' + 1074)).
  { clear. intros m m' e e' H H' Hee. apply fin_inv in H as (Hl & He & _).
    apply fin_inv in H' as (_ & He' & Hn). specialize (Hn ltac:(lia)).
    destruct (Z.log2_spec (Zpos m) ltac:(lia)) as [_ Hu].
    destruct (Z.log2_spec (Zpos m') ltac:(lia)) as [Hlo _]. rewrite Hn in Hlo.
    apply Z.lt_le_trans with (2 ^ 53 * 2 ^ (e + 1074)).
    - apply Z.mul_lt_mono_pos_r; [lia|]. eapply Z.lt_le_trans; [exact Hu|].
      apply Z.pow_le_mono_r; lia.
    - apply Z.le_trans with (2 ^ 52 * 2 ^ (e' + 1074)).
      + rewrite <- !Z.pow_add_r by lia. apply Z.pow_le_mono_r; lia.
      + apply Z.mul_le_mono_nonneg_r; lia. }
  intros H H'. destruct (Z.compare_spec e e') as [Heq|Hee|Hee].
  - subst e'. rewrite (Z.mul_comm (Zpos m)), (Z.mul_comm (Zpos m')).
    apply fin_inv in H as (_ & He & _).
    rewrite <- Zmult_compare_compat_l by lia. done.
  - symmetry. apply Z.compare_lt_iff. by apply Hlt.
  - symmetry. apply Z.compare_gt_iff. by apply Hlt.
Qed.

Lemma compare_val (x y : double) :
  fin x = true -> fin y = true -> SFcompare x y = Some (val x ?= val y).
Proof.
  intros Hx Hy. pose proof (fin_inv x Hx) as Ix. pose proof (fin_inv y Hy) as Iy.
  assert (HP : forall m e, -1074 <= e -> 0 < Zpos m * 2 ^ (e + 1074)) by (intros; lia).
  destruct x as [sx|sx| |sx m e], y as [sy|sy| |sy m' e']; try done; unfold SFcompare; f_equal.
  - specialize (HP m' e' ltac:(lia)). symmetry.
    destruct sy; [apply Z.compare_gt_iff|apply Z.compare_lt_iff]; cbn [val cond_Zopp]; lia.
  - specialize (HP m e ltac:(lia)). symmetry.
    destruct sx; [apply Z.compare_lt_iff|apply Z.compare_gt_iff]; cbn [val cond_Zopp]; lia.
  - pose proof (HP m e ltac:(lia)). pose proof (HP m' e' ltac:(lia)). cbn [val].
    destruct sx, sy; cbn [cond_Zopp].
    + rewrite Z.compare_opp, <- pos_compare_val by done.
      rewrite (Z.compare_antisym e e'). change (Pos.compare_cont Eq) with Pos.compare.
      rewrite (Pos.compare_antisym m m'). by destruct (e ?= e').
    + symmetry. apply Z.compare_lt_iff. lia.
    + symmetry. apply Z.compare_gt_iff. lia.
    + by apply pos_compare_val.
Qed.

Lemma dlt_val (x y : double) : fin x = true -> fin y = true -> dlt x y = (val x <? val y).
Proof. intros Hx Hy. unfold dlt, SFltb. by rewrite compare_val. Qed.

Lemma dle_val (x y : double) : fin x = true -> fin y = true -> dle x y = (val x <=? val y).
Proof. intros Hx Hy. unfold dle, SFleb. rewrite compare_val by done. unfold Z.leb. by case_match. Qed.

Lemma dgt_val (x y : double) : fin x = true -> fin y = true -> dgt x y = (val y <? val x).
Proof. intros Hx Hy. by apply dlt_val. Qed.

Lemma dge_val (x y : double) : fin x = true -> fin y = true -> dge x y = (val y <=? val x).
Proof. intros Hx Hy. by apply dle_val. Qed.

Lemma deq_val (x y : double) : fin x = true -> fin y = true -> deq x y = (val x =? val y).
Proof. intros Hx Hy. unfold deq, SFeqb. rewrite compare_val by done.
  by rewrite Z.eqb_compare.
Qed.

Lemma dmin_fin (x y : double) :
  fin x = true -> fin y = true -> fin (dmin x y) = true /\ val (dmin x y) = Z.min (val x) (val y).
Proof.
  intros Hx Hy. unfold dmin. rewrite dlt_val by done.
  destruct (Z.ltb_spec (val y) (val x)); (split; [done|lia]).
Qed.

Lemma dmax_fin (x y : double) :
  fin x = true -> fin y = true -> fin (dmax x y) = true /\ val (dmax x y) = Z.max (val x) (val y).
Proof.
  intros Hx Hy. unfold dmax. rewrite dlt_val by done.
  destruct (Z.ltb_spec (val x) (val y)); (split; [done|lia]).
Qed.

(** ** Ticks: the doubles on which the program's arithmetic is exact

    [on_grid k x]: [x] is an integer number of ticks of size [2^(k - 1074)],
    at most [2^53] ticks in absolute value. *)
Definition on_grid (k : Z) (x : double) : bool :=
  fin x && (val x mod 2 ^ k =? 0) && (Z.abs (val x) <=? 2 ^ 53 * 2 ^ k).

Lemma on_grid_inv (k : Z) (x : double) :
  0 <= k -> on_grid k x = true ->
  fin x = true /\ exists a, val x = a * 2 ^ k /\ Z.abs a <= 2 ^ 53.
Proof.
  intros Hk. unfold on_grid. rewrite !andb_true_iff, Z.eqb_eq, Z.leb_le.
  intros [[Hf Hm] HB]. split; [done|]. exists (val x / 2 ^ k).
  pose proof (Z.div_mod (val x) (2 ^ k) ltac:(lia)). split; [lia|]. nia.
Qed.

Lemma on_grid_intro (k a : Z) (x : double) :
  0 <= k -> fin x = true -> val x = a * 2 ^ k -> Z.abs a <= 2 ^ 53 -> on_grid k x = true.
Proof.
  intros Hk Hf Hv Ha. unfold on_grid. rewrite Hf, Hv, Z.mod_mul by lia. simpl.
  apply Z.leb_le. nia.
Qed.

Lemma grid_add (k : Z) (x y : double) :
  0 <= k <= 2044 -> on_grid k x = true -> on_grid k y = true ->
  Z.abs (val x + val y) <= 2 ^ 53 * 2 ^ k ->
  on_grid k (dadd x y) = true /\ val (dadd x y) = val x + val y.
Proof.
  intros Hk Hx Hy HB. apply on_grid_inv in Hx as (Hfx & a & Ha & _); [|lia].
  apply on_grid_inv in Hy as (Hfy & b & Hb & _); [|lia].
  assert (Hs : val x + val y = (a + b) * 2 ^ k) by lia.
  assert (Hab : Z.abs (a + b) <= 2 ^ 53) by (rewrite Hs in HB; nia).
  destruct (dadd_exact x y Hfx Hfy) as [Hf Hv].
  - rewrite Hs. apply rnd_exact; lia.
  - eapply Z.le_lt_trans; [exact HB|]. unfold dbig. rewrite <- Z.pow_add_r by lia.
    apply Z.pow_lt_mono_r; lia.
  - split; [|done]. apply (on_grid_intro k (a + b)); [lia|done|lia|done].
Qed.

Lemma on_grid_opp (k : Z) (x : double) : on_grid k x = true -> 0 <= k -> on_grid k (dopp x) = true.
Proof.
  intros Hx Hk. apply on_grid_inv in Hx as (Hf & a & Ha & HB); [|lia].
  apply (on_grid_intro k (- a)); [lia|by rewrite dopp_fin|rewrite dopp_val; lia|lia].
Qed.

Lemma grid_sub (k : Z) (x y : double) :
  0 <= k <= 2044 -> on_grid k x = true -> on_grid k y = true ->
  Z.abs (val x - val y) <= 2 ^ 53 * 2 ^ k ->
  on_grid k (dsub x y) = true /\ val (dsub x y) = val x - val y.
Proof.
  intros Hk Hx Hy HB. rewrite dsub_dadd, <- Z.add_opp_r, <- dopp_val.
  apply grid_add; [lia|done|apply on_grid_opp; [done|lia]|rewrite dopp_val; lia].
Qed.

Lemma on_grid_fin (k : Z) (x : double) : on_grid k x = true -> fin x = true.
Proof. unfold on_grid. rewrite !andb_true_iff. tauto. Qed.

Lemma grid_bound (k : Z) (x : double) : on_grid k x = true -> Z.abs (val x) <= 2 ^ 53 * 2 ^ k.
Proof. unfold on_grid. rewrite !andb_true_iff, Z.leb_le. by intros [_ ?]. Qed.

Lemma on_grid_zero (k : Z) : 0 <= k -> on_grid k dzero = true.
Proof. intros Hk. by apply (on_grid_intro k 0). Qed.

(** On a grid coarser than a tolerance [t], what is within it is zero. *)
Lemma grid_within (k t : Z) (x : double) :
  0 <= k -> t < 2 ^ k -> on_grid k x = true -> 0 <= val x <= t -> val x = 0.
Proof.
  intros Hk Ht Hg H0. destruct (on_grid_inv k x Hk Hg) as (_ & a & E & _).
  assert (0 < 2 ^ k) by lia. assert (a < 1) by nia. assert (0 <= a) by nia. nia.
Qed.

Lemma fin_dzero : fin dzero = true.
Proof. done. Qed.

Lemma fin_eps : fin eps = true.
Proof. vm_compute. reflexivity. Qed.

Lemma eps_pos : 0 < val eps.
Proof. vm_compute. reflexivity. Qed.

#[export] Hint Resolve fin_dzero fin_eps eps_pos : exchange.
#[global] Opaque val eps.

(** ** Comparing the result of a rounded operation *)

Lemma inf_compare (b : bool) (y : double) : fin y = true ->
  dgt (S754_infinity b) y = negb b /\ dge (S754_infinity b) y = negb b /\
  dlt (S754_infinity b) y = b /\ dle (S754_infinity b) y = b.
Proof. intros Hy. destruct b, y as [[]|[]| |[] m e]; done. Qed.

Lemma computes_compare (x y : double) (v : Z) : computes x v -> fin y = true ->
  dgt x y = (val y <? rnd v) /\ dge x y = (val y <=? rnd v) /\
  dlt x y = (rnd v <? val y) /\ dle x y = (rnd v <=? val y).
Proof.
  intros (_ & Hf & Hi) Hy. destruct (fin_repr y Hy) as [_ HB].
  destruct (Z.lt_ge_cases (Z.abs (rnd v)) dbig) as [H|H].
  - destruct (Hf H) as [Hx <-]. by rewrite dgt_val, dge_val, dlt_val, dle_val.
  - rewrite (Hi H). destruct (inf_compare (v <? 0) y Hy) as (-> & -> & -> & ->).
    destruct (Z.ltb_spec v 0) as [Hv|Hv]; simpl.
    + assert (rnd v <= 0).
      { pose proof (rnd_mono v 0 ltac:(lia)). rewrite rnd_0 in *. lia. }
      repeat split; symmetry; rewrite ?Z.ltb_ge, ?Z.leb_gt, ?Z.ltb_lt, ?Z.leb_le; lia.
    + pose proof (rnd_nonneg v Hv).
      repeat split; symmetry; rewrite ?Z.ltb_ge, ?Z.leb_gt, ?Z.ltb_lt, ?Z.leb_le; lia.
Qed.

(** A difference above the tolerance, in either direction of reading. *)
Lemma dsub_gt (a b y : double) : fin a = true -> fin b = true -> fin y = true ->
  dgt (dsub a b) y = (val y <? rnd (val a - val b)).
Proof. intros Ha Hb Hy. by apply computes_compare; [apply dsub_computes|]. Qed.

(** What a sum of positive numbers can be: finite and nonnegative, or infinite. *)
Definition sum_like (x : double) : Prop := (fin x = true /\ 0 <= val x) \/ x = S754_infinity false.

Lemma dadd_sum_like (x y : double) : sum_like x -> fin y = true -> 0 < val y ->
  sum_like (dadd x y) /\ dle (dadd x y) dzero = false.
Proof.
  intros [[Hx Hx0]| ->] Hy Hy0.
  - destruct (computes_compare _ dzero _ (dadd_computes x y Hx Hy) fin_dzero) as (_ & _ & _ & ->).
    change (val dzero) with 0.
    assert (0 < rnd (val x + val y)).
    { pose proof (rnd_mono (val y) (val x + val y) ltac:(lia)).
      destruct (fin_repr y Hy) as [Hr _]. lia. }
    split; [|apply Z.leb_gt; lia].
    destruct (dadd_computes x y Hx Hy) as (_ & Hf & Hi).
    destruct (Z.lt_ge_cases (Z.abs (rnd (val x + val y))) dbig) as [HB|HB].
    + left. destruct (Hf HB) as [-> ->]. split; [done|lia].
    + right. rewrite (Hi HB). by rewrite (proj2 (Z.ltb_ge _ _)) by lia.
  - destruct y as [[]|[]| |[] m e]; try done; (split; [by right|done]).
Qed.

(** ** The tolerance test and its mirror image

    The program asks [a - p > eps] in one place and [p + eps >= a] in another.
    In exact arithmetic one is the negation of the other; in binary64 this needs
    the mantissa of [eps] to be odd (ties then round away from it) and a
    nonnegative [p]. *)

Lemma excess_mono (n n' : Z) : 0 <= n <= n' -> excess n <= excess n'.
Proof. intros H. unfold excess. pose proof (Z.log2_le_mono n n' ltac:(lia)). lia. Qed.

Lemma rnd_pos_of (n : Z) : 0 <= n -> rnd n = rnd_pos n.
Proof. intros H. unfold rnd. by rewrite (proj2 (Z.ltb_ge _ _)). Qed.

Lemma rne_below (A r k : Z) : 1 <= k -> 0 < r < 2 ^ (k - 1) -> rne (A * 2 ^ k - r) k = A.
Proof.
  intros Hk Hr. assert (E2 : 2 ^ k = 2 * 2 ^ (k - 1)).
  { replace k with (Z.succ (k - 1)) at 1 by lia. by rewrite Z.pow_succ_r by lia. }
  unfold rne.
  assert (Hd : (A * 2 ^ k - r) / 2 ^ k = A - 1).
  { symmetry. apply (Z.div_unique _ _ _ (2 ^ k - r)); [left|]; lia. }
  assert (Hm : (A * 2 ^ k - r) mod 2 ^ k = 2 ^ k - r).
  { symmetry. apply (Z.mod_unique _ _ (A - 1)); [left|]; lia. }
  rewrite Hd, Hm. destruct (Z.compare_spec (2 * (2 ^ k - r)) (2 ^ k)); lia.
Qed.

Definition eps_mantissa : Z := 4835703278458517.

Lemma val_eps : val eps = eps_mantissa * 2 ^ 992.
Proof. vm_compute. reflexivity. Qed.

Lemma excess_eps : excess (val eps) = 992.
Proof. vm_compute. reflexivity. Qed.

(** A number above [eps] that rounds to it is less than half a unit above. *)
Lemma rounds_to_eps (d : Z) : val eps < d -> rnd d <= val eps -> d < val eps + 2 ^ 991.
Proof.
  intros Hd Hr. pose proof eps_pos as Hp.
  assert (Hx : excess d = 992).
  { pose proof (excess_mono (val eps) d ltac:(lia)) as Hx. rewrite excess_eps in Hx.
    destruct (Z.eq_dec (excess d) 992) as [|Hne]; [done|]. exfalso.
    assert (Hbig : 2 ^ 1045 <= d).
    { unfold excess, prec in Hx, Hne. apply (Z.le_trans _ (2 ^ Z.log2 d)).
      - apply Z.pow_le_mono_r; lia.
      - apply Z.log2_spec. lia. }
    apply rnd_mono in Hbig. replace (2 ^ 1045) with (1 * 2 ^ 1045) in Hbig by done.
    rewrite rnd_exact in Hbig by done. assert (val eps < 1 * 2 ^ 1045) by (vm_compute; done). lia. }
  rewrite rnd_pos_of in Hr by lia. unfold rnd_pos in Hr. rewrite Hx in Hr.
  rewrite val_eps in *. apply Z.mul_le_mono_pos_r in Hr; [|lia].
  pose proof (Z.div_mod d (2 ^ 992) ltac:(lia)) as HD.
  pose proof (Z.mod_pos_bound d (2 ^ 992) ltac:(lia)) as HM.
  assert (HQ : eps_mantissa <= d / 2 ^ 992).
  { apply Z.div_le_lower_bound; lia. }
  assert (E2 : 2 ^ 992 = 2 * 2 ^ 991) by done.
  unfold rne in Hr. destruct (Z.compare_spec (2 * (d mod 2 ^ 992)) (2 ^ 992)) as [HE|HL|HG].
  - destruct (Z.even (d / 2 ^ 992)) eqn:Hev; [|lia].
    assert (d / 2 ^ 992 = eps_mantissa) as Hq by lia. rewrite Hq in Hev. done.
  - assert (d / 2 ^ 992 = eps_mantissa) as Hq by lia. rewrite Hq in HD. lia.
  - lia.
Qed.

Lemma tolerance_mirror (a p : double) : fin a = true -> fin p = true -> 0 <= val p ->
  rnd (val a - val p) <= val eps -> val a <= rnd (val p + val eps).
Proof.
  intros Ha Hp H0 Hr. destruct (fin_repr a Ha) as [Hra _]. pose proof eps_pos as He.
  destruct (Z.le_gt_cases (val a - val p) (val eps)) as [Hle|Hgt].
  { rewrite <- Hra. apply rnd_mono. lia. }
  pose proof (rounds_to_eps _ Hgt Hr) as Hsmall.
  set (n := val p + val eps) in *. set (k := excess n).
  assert (Hk : 992 <= k). { rewrite <- excess_eps. apply excess_mono. lia. }
  pose proof (excess_mono n (val a) ltac:(lia)) as Hka. fold k in Hka.
  rewrite rnd_pos_of in Hra by lia. unfold rnd_pos in Hra.
  set (A := rne (val a) (excess (val a)) * 2 ^ (excess (val a) - k)).
  assert (HA : val a = A * 2 ^ k).
  { subst A. rewrite <- Z.mul_assoc, <- Z.pow_add_r by lia.
    replace (excess (val a) - k + k) with (excess (val a)) by lia. done. }
  rewrite rnd_pos_of by lia. unfold rnd_pos. fold k.
  replace n with (A * 2 ^ k - (val a - n)) by lia.
  rewrite rne_below; [lia|lia|].
  assert (2 ^ 991 <= 2 ^ (k - 1)) by (apply Z.pow_le_mono_r; lia). lia.
Qed.

(** ** Equality up to the sign of zero *)

Definition deqv (x y : double) : Prop :=
  x = y \/ (exists s s', x = S754_zero s /\ y = S754_zero s').

Infix "≈d" := deqv (at level 70).

#[export] Instance deqv_equiv : Equivalence deqv.
Proof.
  split.
  - intros x. by left.
  - intros x y [->|(s & s' & -> & ->)]; [by left|right; eauto].
  - intros x y z [->|(s & s' & -> & ->)] [<-|(t & t' & E & ->)]; [by left|right; eauto|right; eauto|].
    right. eauto.
Qed.

#[export] Instance dadd_proper : Proper (deqv ==> deqv ==> deqv) dadd.
Proof.
  intros x x' [->|(s & s' & -> & ->)] y y' [->|(t & t' & -> & ->)]; unfold dadd.
  - done.
  - destruct x' as [[]|[]| |[] m e]; destruct t, t'; simpl; (by left) || (right; eauto).
  - destruct y' as [[]|[]| |[] m e]; destruct s, s'; simpl; (by left) || (right; eauto).
  - destruct s, s', t, t'; simpl; (by left) || (right; eauto).
Qed.

Lemma dadd_zero_r (x : double) : dadd x dzero ≈d x.
Proof. destruct x as [[]|[]| |[] m e]; simpl; (by left) || (right; eauto). Qed.

Lemma dopp_involutive (x : double) : dopp (dopp x) = x.
Proof. destruct x as [[]|[]| |[] m e]; done. Qed.

(** ** Comparison without NaN is total *)

Lemma dlt_not_dle (x y : double) : is_nan x = false -> is_nan y = false -> dlt x y = negb (dle y x).
Proof.
  unfold dlt, dle, SFltb, SFleb.
  destruct x as [[]|[]| |[] m e], y as [[]|[]| |[] m' e']; simpl; try done; intros _ _;
    rewrite (Z.compare_antisym e e'); destruct (e ?= e'); simpl; try done;
    assert (Ha : Pos.compare_cont Eq m' m = CompOpp (Pos.compare_cont Eq m m'))
      by (symmetry; apply (Pos.compare_cont_antisym m m' Eq));
    rewrite Ha; by destruct (Pos.compare_cont Eq m m').
Qed.

Lemma dgt_not_dle (x y : double) : is_nan x = false -> is_nan y = false -> dgt x y = negb (dle x y).
Proof. intros Hx Hy. by apply (dlt_not_dle y x). Qed.

Lemma dlt_irrefl (p : double) : dlt p p = false.
Proof.
  unfold dlt, SFltb. destruct p as [[]|[]| |[] m e]; simpl; try done;
    by rewrite Z.compare_refl, Pos.compare_cont_refl.
Qed.
