(* ===== verification/StdMap.v ===== *)
(** * [std::map] with a comparator

    The order book and the depth book are [std::map<double, T, Compare>] with
    [std::less] or [std::greater].  A map is the list of its entries in
    iteration order; [find], [operator[]] and [erase] locate a key by the
    comparator alone, two keys being the same when neither is before the other
    (so [-0.0] and [0.0] are one key, and an existing entry keeps its key).

    The lemmas hold on keys whose comparator is an integer order ([rank]), which
    for finite doubles is the order of [Double.val]. *)

From S2P Require Import Prelude Double.
From Stdlib Require Import Sorted.

(** ** Operations *)

Section Operations.
Context {K V : Type} (comp : K -> K -> bool).

Fixpoint map_find (k : K) (m : list (K * V)) : option V :=
  match m with
  | [] => None
  | (k', v) :: m' =>
      if comp k k' then None
      else if comp k' k then map_find k m'
      else Some v
  end.

(** [f (m[k])] as an update in place; [m[k]] inserts [d] when absent. *)
Fixpoint map_update (k : K) (d : V) (f : V -> V) (m : list (K * V)) : list (K * V) :=
  match m with
  | [] => [(k, f d)]
  | (k', v) :: m' =>
      if comp k k' then (k, f d) :: m
      else if comp k' k then (k', v) :: map_update k d f m'
      else (k', f v) :: m'
  end.

(** [m[k] = v] *)
Definition map_assign (k : K) (v : V) (m : list (K * V)) : list (K * V) :=
  map_update k v (fun _ => v) m.

(** [m.erase(k)] *)
Fixpoint map_erase (k : K) (m : list (K * V)) : list (K * V) :=
  match m with
  | [] => []
  | (k', v) :: m' =>
      if comp k k' then m
      else if comp k' k then (k', v) :: map_erase k m'
      else m'
  end.
End Operations.

(** ** Laws *)

Section Laws.
Context {K V : Type} (comp : K -> K -> bool).
(** The keys the laws cover, and the integer order of the comparator on them. *)
Context (ok : K -> Prop) (rank : K -> Z).
Hypothesis comp_rank : forall a b, ok a -> ok b -> comp a b = (rank a <? rank b)%Z.

Definition keys_ok (m : list (K * V)) : Prop := Forall (fun e => ok e.1) m.
Definition map_sorted (m : list (K * V)) : Prop :=
  StronglySorted (fun a b => (rank a.1 < rank b.1)%Z) m.

Ltac by_rank k :=
  repeat match goal with
  | Hk : ok k, H : ok ?k' |- context [comp k ?k'] => rewrite (comp_rank k k') by done
  | Hk : ok k, H : ok ?k' |- context [comp ?k' k] => rewrite (comp_rank k' k) by done
  end.

Lemma map_find_rank (k k' : K) (m : list (K * V)) :
  ok k -> ok k' -> keys_ok m -> rank k = rank k' -> map_find comp k m = map_find comp k' m.
Proof.
  intros Hk Hk' Hm Hr. induction Hm as [|[q v] m Hq Hm IH]; [done|]. simpl in *.
  rewrite (comp_rank k q), (comp_rank q k), (comp_rank k' q), (comp_rank q k') by done.
  rewrite Hr. rewrite IH. done.
Qed.

(** Lookup is membership under a key of the same rank. *)
Lemma map_find_Some (k : K) (v : V) (m : list (K * V)) :
  ok k -> keys_ok m -> map_sorted m ->
  map_find comp k m = Some v <-> exists k', rank k' = rank k /\ In (k', v) m.
Proof.
  intros Hk Hm Hs. induction Hm as [|[q w] m Hq Hm IH].
  { simpl. split; [done|]. by intros (? & _ & []). }
  apply StronglySorted_inv in Hs as [Hs Hlt]. simpl in *.
  rewrite List.Forall_forall in Hlt.
  assert (Hbelow : forall k', In (k', v) m -> (rank q < rank k')%Z).
  { intros k' Hin. by apply (Hlt (k', v)). }
  by_rank k. destruct (Z.ltb_spec (rank k) (rank q)).
  - split; [done|]. intros (k' & Hr & [?|?]); simplify_eq; [lia|].
    specialize (Hbelow k' ltac:(done)). lia.
  - destruct (Z.ltb_spec (rank q) (rank k)).
    + rewrite IH by done. split; intros (k' & Hr & Hin); exists k'; (split; [done|]); auto.
      destruct Hin; simplify_eq; [lia|done].
    + split.
      * intros [= ->]. exists q. split; [lia|by left].
      * intros (k' & Hr & [?|?]); simplify_eq; [done|].
        specialize (Hbelow k' ltac:(done)). lia.
Qed.

Lemma map_update_keys_ok (k : K) (d : V) (f : V -> V) (m : list (K * V)) :
  ok k -> keys_ok m -> keys_ok (map_update comp k d f m).
Proof.
  intros Hk Hm. unfold keys_ok in *. induction Hm as [|[q w] m Hq Hm IH]; simpl.
  { by constructor. }
  repeat case_match; repeat constructor; done.
Qed.

Lemma map_erase_keys_ok (k : K) (m : list (K * V)) : keys_ok m -> keys_ok (map_erase comp k m).
Proof.
  intros Hm. unfold keys_ok in *. induction Hm as [|[q w] m Hq Hm IH]; simpl; [done|].
  repeat case_match; try done; by constructor.
Qed.

(** Entries of an updated map come from the map or have the key's rank. *)
Lemma map_update_entry (k : K) (d : V) (f : V -> V) (m : list (K * V)) (e : K * V) :
  ok k -> keys_ok m -> In e (map_update comp k d f m) -> In e m \/ rank e.1 = rank k.
Proof.
  intros Hk Hm. induction Hm as [|[q w] m Hq Hm IH]; simpl.
  { intros [<-|[]]. by right. }
  simpl in *. by_rank k. destruct (Z.ltb_spec (rank k) (rank q)).
  - intros [<-|H']; [by right|by left].
  - destruct (Z.ltb_spec (rank q) (rank k)).
    + intros [<-|H']; [by left; left|]. destruct (IH H'); auto.
    + intros [<-|H']; [right; simpl; lia|]. by left; right.
Qed.

Lemma map_update_sorted (k : K) (d : V) (f : V -> V) (m : list (K * V)) :
  ok k -> keys_ok m -> map_sorted m -> map_sorted (map_update comp k d f m).
Proof.
  intros Hk Hm Hs. unfold map_sorted in *. induction Hm as [|[q w] m Hq Hm IH]; simpl.
  { repeat constructor. }
  pose proof (StronglySorted_inv Hs) as [Hs' Hlt]. simpl in *.
  by_rank k. destruct (Z.ltb_spec (rank k) (rank q)).
  - constructor; [done|]. constructor; [done|].
    eapply Forall_impl; [exact Hlt|]. simpl. lia.
  - destruct (Z.ltb_spec (rank q) (rank k)).
    + constructor; [by apply IH|]. apply List.Forall_forall. intros e He.
      apply map_update_entry in He; [|done|done].
      rewrite List.Forall_forall in Hlt. destruct He as [He|He]; [|simpl; lia].
      by apply Hlt.
    + constructor; [done|]. simpl. done.
Qed.

Lemma map_erase_subseteq (k : K) (m : list (K * V)) (e : K * V) :
  In e (map_erase comp k m) -> In e m.
Proof.
  induction m as [|[q w] m IH]; simpl; [done|].
  repeat case_match; simpl; intuition.
Qed.

Lemma map_erase_sorted (k : K) (m : list (K * V)) :
  map_sorted m -> map_sorted (map_erase comp k m).
Proof.
  intros Hs. unfold map_sorted in *. induction m as [|[q w] m IH]; simpl; [done|].
  pose proof (StronglySorted_inv Hs) as [Hs' Hlt].
  repeat case_match; try done. constructor; [by apply IH|].
  rewrite List.Forall_forall in *. intros e He. apply Hlt.
  by eapply map_erase_subseteq.
Qed.

Lemma map_find_update_eq (k k' : K) (d : V) (f : V -> V) (m : list (K * V)) :
  ok k -> ok k' -> keys_ok m -> rank k' = rank k ->
  map_find comp k' (map_update comp k d f m) =
  Some (f (default d (map_find comp k m))).
Proof.
  intros Hk Hk' Hm Hr. induction Hm as [|[q w] m Hq Hm IH]; simpl in *.
  { by_rank k. rewrite Hr. by rewrite Z.ltb_irrefl. }
  by_rank k. destruct (Z.ltb_spec (rank k) (rank q)); simpl.
  { by_rank k. rewrite Hr. by rewrite Z.ltb_irrefl. }
  destruct (Z.ltb_spec (rank q) (rank k)); simpl; by_rank k'; rewrite Hr.
  - rewrite (proj2 (Z.ltb_ge (rank k) (rank q))), (proj2 (Z.ltb_lt (rank q) (rank k))) by lia.
    exact IH.
  - rewrite (proj2 (Z.ltb_ge (rank k) (rank q))), (proj2 (Z.ltb_ge (rank q) (rank k))) by lia.
    done.
Qed.

Lemma map_find_update_ne (k k' : K) (d : V) (f : V -> V) (m : list (K * V)) :
  ok k -> ok k' -> keys_ok m -> map_sorted m -> rank k' <> rank k ->
  map_find comp k' (map_update comp k d f m) = map_find comp k' m.
Proof.
  intros Hk Hk' Hm Hs Hr. induction Hm as [|[q w] m Hq Hm IH]; simpl in *.
  { by_rank k'. repeat case_match; try done. lia. }
  pose proof (StronglySorted_inv Hs) as [Hs' _]. by_rank k.
  destruct (Z.ltb_spec (rank k) (rank q)); simpl.
  - by_rank k'. destruct (Z.ltb_spec (rank k') (rank k)), (Z.ltb_spec (rank k) (rank k'));
      try lia; [|done].
    by rewrite (proj2 (Z.ltb_lt (rank k') (rank q))) by lia.
  - destruct (Z.ltb_spec (rank q) (rank k)); simpl; by_rank k';
      destruct (Z.ltb_spec (rank k') (rank q)); try done;
      destruct (Z.ltb_spec (rank q) (rank k')); try done; [by apply IH|lia].
Qed.

Lemma map_find_above (k : K) (m : list (K * V)) :
  ok k -> keys_ok m -> Forall (fun e => (rank k < rank e.1)%Z) m -> map_find comp k m = None.
Proof.
  intros Hk Hm Hlt. destruct Hm as [|[q w] m Hq Hm]; [done|]. simpl in *.
  apply Forall_inv in Hlt. simpl in Hlt. by_rank k.
  by rewrite (proj2 (Z.ltb_lt (rank k) (rank q))).
Qed.

Lemma map_find_erase_eq (k k' : K) (m : list (K * V)) :
  ok k -> ok k' -> keys_ok m -> map_sorted m -> rank k' = rank k ->
  map_find comp k' (map_erase comp k m) = None.
Proof.
  intros Hk Hk' Hm Hs Hr. induction Hm as [|[q w] m Hq Hm IH]; simpl in *; [done|].
  pose proof (StronglySorted_inv Hs) as [Hs' Hlt]. by_rank k.
  destruct (Z.ltb_spec (rank k) (rank q)); simpl.
  { by_rank k'. by rewrite Hr, (proj2 (Z.ltb_lt (rank k) (rank q))). }
  destruct (Z.ltb_spec (rank q) (rank k)); simpl.
  - by_rank k'. rewrite Hr, (proj2 (Z.ltb_ge (rank k) (rank q))) by lia.
    rewrite (proj2 (Z.ltb_lt (rank q) (rank k))) by lia. by apply IH.
  - apply map_find_above; [done|done|]. eapply Forall_impl; [exact Hlt|]. simpl. lia.
Qed.

Lemma map_find_erase_ne (k k' : K) (m : list (K * V)) :
  ok k -> ok k' -> keys_ok m -> map_sorted m -> rank k' <> rank k ->
  map_find comp k' (map_erase comp k m) = map_find comp k' m.
Proof.
  intros Hk Hk' Hm Hs Hr. induction Hm as [|[q w] m Hq Hm IH]; simpl in *; [done|].
  pose proof (StronglySorted_inv Hs) as [Hs' Hlt]. by_rank k.
  destruct (Z.ltb_spec (rank k) (rank q)); simpl; [done|].
  destruct (Z.ltb_spec (rank q) (rank k)); simpl; by_rank k'.
  - repeat case_match; try done. by apply IH.
  - destruct (Z.ltb_spec (rank k') (rank q)).
    + apply map_find_above; [done|done|]. eapply Forall_impl; [exact Hlt|]. simpl. lia.
    + by rewrite (proj2 (Z.ltb_lt (rank q) (rank k'))) by lia.
Qed.

(** Erasing a key removes exactly its entry. *)
Lemma map_erase_entry (k : K) (m : list (K * V)) (e : K * V) :
  ok k -> keys_ok m -> map_sorted m ->
  In e (map_erase comp k m) <-> In e m /\ rank e.1 <> rank k.
Proof.
  intros Hk Hm Hs. induction Hm as [|[q w] m Hq Hm IH]; simpl in *; [tauto|].
  pose proof (StronglySorted_inv Hs) as [Hs' Hlt]. rewrite List.Forall_forall in Hlt.
  by_rank k.
  destruct (Z.ltb_spec (rank k) (rank q)); simpl.
  { split; [|tauto]. intros He. split; [done|]. destruct He as [<-|He]; simpl; [lia|].
    specialize (Hlt e He). simpl in Hlt. lia. }
  destruct (Z.ltb_spec (rank q) (rank k)); simpl.
  - rewrite IH by done. split; [|tauto]. intros [<-|[H' ?]]; [|tauto]. simpl. split; [tauto|lia].
  - split.
    + intros He. specialize (Hlt e He). simpl in Hlt. split; [tauto|lia].
    + intros [[<-|He] Hne]; [simpl in Hne; lia|done].
Qed.
(** Where a key is, or would go: all operations at once. *)
Lemma map_split (k : K) (m : list (K * V)) :
  ok k -> keys_ok m -> map_sorted m ->
  match map_find comp k m with
  | Some v => exists pre k' post, m = pre ++ (k', v) :: post /\ rank k' = rank k /\
      Forall (fun e => (rank e.1 < rank k)%Z) pre /\ Forall (fun e => (rank k < rank e.1)%Z) post /\
      (forall d f, map_update comp k d f m = pre ++ (k', f v) :: post) /\
      (forall w, map_erase comp k (pre ++ (k', w) :: post) = pre ++ post)
  | None => exists pre post, m = pre ++ post /\
      Forall (fun e => (rank e.1 < rank k)%Z) pre /\ Forall (fun e => (rank k < rank e.1)%Z) post /\
      (forall d f, map_update comp k d f m = pre ++ (k, f d) :: post) /\
      map_erase comp k m = m
  end.
Proof using comp_rank.
  intros Hk Hm Hs. induction Hm as [|[q w] m Hq Hm IH].
  { exists [], []. split_and!; done. }
  pose proof (StronglySorted_inv Hs) as [Hs' Hlt]. specialize (IH Hs'). simpl in *. by_rank k.
  destruct (Z.ltb_spec (rank k) (rank q)) as [H1|H1].
  { exists [], ((q, w) :: m). split_and!; try done. constructor; [done|].
    eapply Forall_impl; [exact Hlt|]. simpl. lia. }
  destruct (Z.ltb_spec (rank q) (rank k)) as [H2|H2].
  - destruct (map_find comp k m) as [v|].
    + destruct IH as (pre & k' & post & -> & Hr & Hpre & Hpost & Hu & He).
      exists ((q, w) :: pre), k', post. split_and!; try done.
      * by constructor.
      * intros d f. simpl. by rewrite Hu.
      * intros w'. simpl. by_rank k.
        rewrite (proj2 (Z.ltb_ge _ _)), (proj2 (Z.ltb_lt _ _)) by lia. by rewrite He.
    + destruct IH as (pre & post & -> & Hpre & Hpost & Hu & He).
      exists ((q, w) :: pre), post. split_and!; try done.
      * by constructor.
      * intros d f. simpl. by rewrite Hu.
      * by rewrite He.
  - exists [], q, m. split_and!; try done.
    + lia.
    + eapply Forall_impl; [exact Hlt|]. simpl. lia.
    + intros w'. simpl. by_rank k. by rewrite !(proj2 (Z.ltb_ge _ _)) by lia.
Qed.
End Laws.

(** ** Maps keyed by price *)

(** The keys the books hold are finite doubles; both comparators order them by
    value. *)
Lemma less_rank (a b : double) : fin a = true -> fin b = true -> dlt a b = (val a <? val b)%Z.
Proof. apply dlt_val. Qed.

Lemma greater_rank (a b : double) :
  fin a = true -> fin b = true -> dgt a b = (- val a <? - val b)%Z.
Proof.
  intros Ha Hb. rewrite dgt_val by done.
  destruct (Z.ltb_spec (val b) (val a)), (Z.ltb_spec (- val a) (- val b)); lia || done.
Qed.
