(* ===== verification/MarketTypes.v ===== *)
(** * Market data types

    The plain data of [infrastructure/market-data-push-system/market_types.hpp],
    shared by the depth book, the broadcaster, the candle aggregator and the
    components that publish through them. *)

From S2P Require Import Prelude Double.

Inductive MarketSide := kBid | kAsk.

#[export] Instance MarketSide_eq_dec : EqDecision MarketSide.
Proof. solve_decision. Defined.

Record MarketTrade := mkMarketTrade {
  mt_symbol : string;
  mt_price : double;
  mt_quantity : double;
  mt_event_time_ms : Z;
}.

Record Candle := mkCandle {
  cd_symbol : string;
  cd_open_time_ms : Z;
  cd_close_time_ms : Z;
  cd_open : double;
  cd_high : double;
  cd_low : double;
  cd_close : double;
  cd_volume : double;
}.

Record BookLevel := mkBookLevel {
  bl_price : double;
  bl_quantity : double;
}.

Record DepthSnapshot := mkDepthSnapshot {
  ds_symbol : string;
  ds_bids : list BookLevel;
  ds_asks : list BookLevel;
}.

Record DepthDelta := mkDepthDelta {
  dd_side : MarketSide;
  dd_price : double;
  dd_quantity : double;
}.

Record BroadcastMessage := mkBroadcastMessage {
  bm_sequence : Z;
  bm_topic : string;
  bm_payload : string;
}.
