(* ===== verification/DepthBook.v ===== *)
(** * Depth book

    [infrastructure/market-data-push-system/depth_book.hpp]: the aggregated
    quantity per price level, bids from the highest price, asks from the lowest.
    [DepthBook_update] writes one level, [DepthBook_snapshot] copies the first
    levels of each side. *)

From S2P Require Import Prelude Double StdMap MarketTypes.
From Stdlib Require Import Sorted.

(** ** Model *)

Record DepthBook := mkDepthBook {
  dbk_symbol : string;
  dbk_bids : list (double * double);
  dbk_asks : list (double * double);
}.

(** [std::greater<double>] and [std::less<double>]. *)
Definition bid_comp : double -> double -> bool := dgt.
Definition ask_comp : double -> double -> bool := dlt.

Definition DepthBook_new (symbol : string) : DepthBook := mkDepthBook symbol [] [].

Definition apply_update (comp : double -> double -> bool) (book : list (double * double))
    (price quantity : double) : list (double * double) :=
  if dle quantity dzero then map_erase comp price book
  else map_assign comp price quantity book.

Definition DepthBook_update (b : DepthBook) (side : MarketSide) (price quantity : double)
    : DepthDelta * DepthBook :=
  let b' :=
    match side with
    | kBid => mkDepthBook (dbk_symbol b) (apply_update bid_comp (dbk_bids b) price quantity) (dbk_asks b)
    | kAsk => mkDepthBook (dbk_symbol b) (dbk_bids b) (apply_update ask_comp (dbk_asks b) price quantity)
    end in
  (mkDepthDelta side price quantity, b').

(** The loop body pushes a level, increments [count] and only then compares it
    with [depth]. *)
Fixpoint append_levels_loop (book : list (double * double)) (depth count : Z)
    (output : list BookLevel) : list BookLevel :=
  match book with
  | [] => output
  | (price, quantity) :: book' =>
      let output' := output ++ [mkBookLevel price quantity] in
      let count' := wrap_u64 (count + 1) in
      if (count' =? depth)%Z then output'
      else append_levels_loop book' depth count' output'
  end.

Definition append_levels (book : list (double * double)) (depth : Z) : list BookLevel :=
  append_levels_loop book depth 0 [].

(** The two [output.reserve(depth)] are taken to succeed (memory is not modelled). *)
Definition DepthBook_snapshot (b : DepthBook) (depth : Z) : DepthSnapshot :=
  mkDepthSnapshot (dbk_symbol b) (append_levels (dbk_bids b) depth) (append_levels (dbk_asks b) depth).

(** ** Specification: a partial map from price to quantity on each side *)

(** The quantity the book shows at a price. *)
Definition depth_at (b : DepthBook) (side : MarketSide) (price : double) : option double :=
  match side with
  | kBid => map_find bid_comp price (dbk_bids b)
  | kAsk => map_find ask_comp price (dbk_asks b)
  end.

Definition bid_rank (p : double) : Z := (- val p)%Z.
Definition ask_rank (p : double) : Z := val p.

Record depth_wf (b : DepthBook) : Prop := {
  dwf_bids_fin : keys_ok (fun p => fin p = true) (dbk_bids b);
  dwf_asks_fin : keys_ok (fun p => fin p = true) (dbk_asks b);
  dwf_bids_sorted : map_sorted bid_rank (dbk_bids b);
  dwf_asks_sorted : map_sorted ask_rank (dbk_asks b);
  dwf_bids_pos : Forall (fun e => dle e.2 dzero = false) (dbk_bids b);
  dwf_asks_pos : Forall (fun e => dle e.2 dzero = false) (dbk_asks b);
}.

Definition level_of (e : double * double) : BookLevel := mkBookLevel e.1 e.2.

(** ** Lemmas *)

Lemma append_levels_loop_take (book : list (double * double)) (depth count : Z) (out : list BookLevel) :
  (0 <= count)%Z -> (count < depth < two64)%Z ->
  append_levels_loop book depth count out =
  out ++ (level_of <$> take (Z.to_nat (depth - count)) book).
Proof.
  revert count out. induction book as [|[p q] book IH]; intros count out Hc Hd.
  { simpl. rewrite take_nil. simpl. by rewrite app_nil_r. }
  simpl append_levels_loop. rewrite wrap_u64_id.
  2: { unfold in_u64. rewrite andb_true_iff, Z.leb_le, Z.ltb_lt. lia. }
  destruct (Z.eqb_spec (count + 1) depth) as [He|He].
  - replace (Z.to_nat (depth - count)) with 1%nat by lia. done.
  - rewrite IH by lia.
    replace (Z.to_nat (depth - count)) with (S (Z.to_nat (depth - (count + 1)))) by lia.
    simpl. by rewrite <- app_assoc.
Qed.

Lemma append_levels_loop_all (book : list (double * double)) (count : Z) (out : list BookLevel) :
  (0 <= count)%Z -> (count + Z.of_nat (length book) < two64)%Z ->
  append_levels_loop book 0 count out = out ++ (level_of <$> book).
Proof.
  revert count out. induction book as [|[p q] book IH]; intros count out Hc Hl.
  { simpl. by rewrite app_nil_r. }
  simpl in Hl. simpl append_levels_loop. rewrite wrap_u64_id.
  2: { unfold in_u64. rewrite andb_true_iff, Z.leb_le, Z.ltb_lt. lia. }
  rewrite (proj2 (Z.eqb_neq (count + 1) 0)) by lia.
  rewrite IH by lia. simpl. by rewrite <- app_assoc.
Qed.

Section Side.
Context (comp : double -> double -> bool) (rank : double -> Z).
Hypothesis comp_rank :
  forall a b, fin a = true -> fin b = true -> comp a b = (rank a <? rank b)%Z.
Let keys_fin := keys_ok (V := double) (fun p => fin p = true).

Lemma apply_update_find (book : list (double * double)) (p q p' : double) :
  fin p = true -> fin p' = true -> keys_fin book -> map_sorted rank book ->
  map_find comp p' (apply_update comp book p q) =
  if decide (rank p' = rank p) then (if dle q dzero then None else Some q)
  else map_find comp p' book.
Proof using comp_rank.
  intros Hp Hp' Hb Hs. unfold apply_update. destruct (decide _) as [Heq|Hne]; case_match.
  - by apply (map_find_erase_eq comp (fun p => fin p = true) rank).
  - unfold map_assign. by rewrite (map_find_update_eq comp (fun p => fin p = true) rank).
  - by apply (map_find_erase_ne comp (fun p => fin p = true) rank).
  - by apply (map_find_update_ne comp (fun p => fin p = true) rank).
Qed.

Lemma apply_update_wf (book : list (double * double)) (p q : double) :
  fin p = true -> keys_fin book -> map_sorted rank book ->
  Forall (fun e => dle e.2 dzero = false) book ->
  keys_fin (apply_update comp book p q) /\ map_sorted rank (apply_update comp book p q) /\
  Forall (fun e => dle e.2 dzero = false) (apply_update comp book p q).
Proof using comp_rank.
  intros Hp Hb Hs Hpos. unfold apply_update. destruct (dle q dzero) eqn:Hq.
  - split; [by apply map_erase_keys_ok|]. split; [by apply map_erase_sorted|].
    rewrite List.Forall_forall in *. intros e He. apply Hpos. by eapply map_erase_subseteq.
  - split; [by apply map_update_keys_ok|].
    split; [by apply (map_update_sorted comp (fun p => fin p = true) rank)|].
    unfold map_assign. clear Hs Hb. induction Hpos as [|[k v] book Hv Hpos IH]; simpl.
    { by constructor. }
    repeat case_match; repeat constructor; done.
Qed.
End Side.

Lemma sorted_levels (R : double -> double -> Prop) (book : list (double * double)) (n : nat) :
  StronglySorted (fun a b => R a.1 b.1) book ->
  StronglySorted (fun x y => R (bl_price x) (bl_price y)) (level_of <$> take n book).
Proof.
  intros Hs. revert n. induction Hs as [|e book Hs IH He]; intros [|n]; simpl; try constructor.
  - apply IH.
  - apply List.Forall_forall. intros l Hl. apply list_elem_of_In in Hl.
    apply list_elem_of_fmap in Hl as (e' & -> & Hin).
    apply elem_of_take in Hin as (i & Hi & _). apply list_elem_of_lookup_2 in Hi.
    apply list_elem_of_In in Hi. rewrite List.Forall_forall in He. by apply He.
Qed.

(** ** Properties *)

(** Writing a level of the depth book sets that price to the new quantity,
    or removes it when the quantity is not positive, leaves every other price
    and the other side as they were, and keeps both sides sorted without
    duplicates. *)
Lemma depth_update_correct (b : DepthBook) (side : MarketSide) (price quantity : double) :
  depth_wf b -> fin price = true ->
  let b' := (DepthBook_update b side price quantity).2 in
  depth_wf b' /\
  forall side' price', fin price' = true ->
    depth_at b' side' price' =
    if decide (side' = side /\ val price' = val price)
    then (if dle quantity dzero then None else Some quantity)
    else depth_at b side' price'.
Proof.
  intros [B1 B2 B3 B4 B5 B6] Hp. destruct side; simpl.
  - destruct (apply_update_wf bid_comp bid_rank greater_rank (dbk_bids b) price quantity)
      as (H1 & H2 & H3); try done.
    split; [by split|]. intros [] p' Hp'; simpl.
    + rewrite (apply_update_find bid_comp bid_rank greater_rank) by done.
      unfold bid_rank. apply decide_ext. split; [split; [done|lia]|lia].
    + done.
  - destruct (apply_update_wf ask_comp ask_rank less_rank (dbk_asks b) price quantity)
      as (H1 & H2 & H3); try done.
    split; [by split|]. intros [] p' Hp'; simpl.
    + done.
    + rewrite (apply_update_find ask_comp ask_rank less_rank) by done.
      unfold ask_rank. apply decide_ext. split; [split; [done|lia]|lia].
Qed.

Example depth_update_correct_sample :
  let b := (DepthBook_update (DepthBook_new "BTC") kBid (dlit 100 0) (dlit 3 0)).2 in
  depth_at (DepthBook_update b kBid (dlit 100 0) (dlit 0 0)).2 kBid (dlit 100 0) = None /\
  depth_at (DepthBook_update b kBid (dlit 99 0) (dlit 2 0)).2 kBid (dlit 100 0) = Some (dlit 3 0).
Proof.
  assert (W0 : depth_wf (DepthBook_new "BTC")) by (split; constructor).
  destruct (depth_update_correct (DepthBook_new "BTC") kBid (dlit 100 0) (dlit 3 0) W0
    ltac:(vm_compute; reflexivity)) as [W1 L1].
  split.
  - destruct (depth_update_correct _ kBid (dlit 100 0) (dlit 0 0) W1
      ltac:(vm_compute; reflexivity)) as [_ L]. rewrite L by (vm_compute; reflexivity).
    by rewrite decide_True.
  - destruct (depth_update_correct _ kBid (dlit 99 0) (dlit 2 0) W1
      ltac:(vm_compute; reflexivity)) as [_ L]. rewrite L by (vm_compute; reflexivity).
    rewrite decide_False by (intros [_ H]; vm_compute in H; discriminate H).
    vm_compute. reflexivity.
Defined.

(** A snapshot of positive depth holds exactly the first [depth] levels of
    each side, in strictly improving order of price: bids from the highest,
    asks from the lowest. *)
Lemma depth_snapshot_correct (b : DepthBook) (depth : Z) :
  depth_wf b -> (0 < depth < two64)%Z ->
  let s := DepthBook_snapshot b depth in
  ds_symbol s = dbk_symbol b /\
  ds_bids s = level_of <$> take (Z.to_nat depth) (dbk_bids b) /\
  ds_asks s = level_of <$> take (Z.to_nat depth) (dbk_asks b) /\
  StronglySorted (fun x y => (val (bl_price y) < val (bl_price x))%Z) (ds_bids s) /\
  StronglySorted (fun x y => (val (bl_price x) < val (bl_price y))%Z) (ds_asks s).
Proof.
  intros [_ _ HB HA _ _] Hd. simpl. unfold append_levels.
  rewrite !append_levels_loop_take by lia. rewrite Z.sub_0_r. simpl.
  do 3 (split; [done|]). split;
    [apply (sorted_levels (fun p q => (val q < val p)%Z))|apply (sorted_levels (fun p q => (val p < val q)%Z))].
  - eapply StronglySorted_weaken; [|exact HB]. unfold bid_rank. simpl. lia.
  - exact HA.
Qed.

Example depth_snapshot_correct_sample :
  let b := (DepthBook_update (DepthBook_new "BTC") kBid (dlit 100 0) (dlit 3 0)).2 in
  ds_bids (DepthBook_snapshot b 1) = [mkBookLevel (dlit 100 0) (dlit 3 0)].
Proof. vm_compute. reflexivity. Qed.

(** A snapshot of depth zero is not empty: the loop compares the count with
    the limit only after pushing, so [snapshot(0)] copies the whole book. *)
Fact depth_snapshot_zero (b : DepthBook) :
  (Z.of_nat (length (dbk_bids b)) < two64)%Z -> (Z.of_nat (length (dbk_asks b)) < two64)%Z ->
  ds_bids (DepthBook_snapshot b 0) = level_of <$> dbk_bids b /\
  ds_asks (DepthBook_snapshot b 0) = level_of <$> dbk_asks b.
Proof. intros H1 H2. simpl. unfold append_levels. by rewrite !append_levels_loop_all by lia. Qed.

Lemma depth_snapshot_zero_witness :
  ds_bids (DepthBook_snapshot (DepthBook_update (DepthBook_new "BTC") kBid (dlit 100 0) (dlit 3 0)).2 0)
  = [mkBookLevel (dlit 100 0) (dlit 3 0)].
Proof.
  destruct (depth_snapshot_zero
    (DepthBook_update (DepthBook_new "BTC") kBid (dlit 100 0) (dlit 3 0)).2) as [H _].
  - vm_compute. reflexivity.
  - vm_compute. reflexivity.
  - rewrite H. vm_compute. reflexivity.
Defined.
