(* ===== verification/Broadcaster.v ===== *)
(** * Market data broadcaster

    [infrastructure/market-data-push-system/broadcaster.hpp]: messages get one
    global sequence number and are kept per topic; a subscriber polls its
    topic's history from its own cursor, and [replay] reads it from any
    sequence number.  The methods run under one mutex, so a call is one atomic
    step on the state. *)

From S2P Require Import Prelude MarketTypes.

Local Open Scope Z_scope.

(** ** Model *)

Record SubscriptionState := mkSubscription {
  ss_topic : string;
  ss_next_sequence : Z;
}.

Record Broadcaster := mkBroadcaster {
  br_next_sequence : Z;
  br_next_subscriber_id : Z;
  br_history : gmap string (list BroadcastMessage);
  br_subscribers : gmap Z SubscriptionState;
}.

Definition Broadcaster_new : Broadcaster := mkBroadcaster 0 0 ∅ ∅.

(** [emplace] keeps an existing entry. *)
Definition Broadcaster_subscribe (b : Broadcaster) (topic : string) : Z * Broadcaster :=
  let id := wrap_u64 (br_next_subscriber_id b + 1) in
  let subs := match br_subscribers b !! id with
              | Some _ => br_subscribers b
              | None => <[id := mkSubscription topic 1]> (br_subscribers b)
              end in
  (id, mkBroadcaster (br_next_sequence b) id (br_history b) subs).

(** The messages of a topic; a topic never published has none. *)
Definition topic_history (b : Broadcaster) (topic : string) : list BroadcastMessage :=
  default [] (br_history b !! topic).

Definition Broadcaster_publish (b : Broadcaster) (topic payload : string)
    : BroadcastMessage * Broadcaster :=
  let sequence := wrap_u64 (br_next_sequence b + 1) in
  let message := mkBroadcastMessage sequence topic payload in
  (message,
   mkBroadcaster sequence (br_next_subscriber_id b)
     (<[topic := topic_history b topic ++ [message]]> (br_history b)) (br_subscribers b)).

(** The loop of [poll]: skip delivered messages, push, advance the cursor, stop
    when the batch has [max_items] messages. *)
Fixpoint poll_loop (history : list BroadcastMessage) (next_sequence max_items : Z)
    (batch : list BroadcastMessage) : list BroadcastMessage * Z :=
  match history with
  | [] => (batch, next_sequence)
  | message :: history' =>
      if bm_sequence message <? next_sequence
      then poll_loop history' next_sequence max_items batch
      else
        let batch' := batch ++ [message] in
        let next' := wrap_u64 (bm_sequence message + 1) in
        if Z.of_nat (length batch') =? max_items then (batch', next')
        else poll_loop history' next' max_items batch'
  end.

(** [batch.reserve(max_items)] is taken to succeed: that it throws for a limit no
    vector can hold is exhaustion of memory, which is not modelled. *)
Definition Broadcaster_poll (b : Broadcaster) (subscriber_id max_items : Z)
    : list BroadcastMessage * Broadcaster :=
  match br_subscribers b !! subscriber_id with
  | None => ([], b)
  | Some subscriber =>
      match br_history b !! ss_topic subscriber with
      | None => ([], b)
      | Some history =>
          let '(batch, next') := poll_loop history (ss_next_sequence subscriber) max_items [] in
          (batch,
           mkBroadcaster (br_next_sequence b) (br_next_subscriber_id b) (br_history b)
             (<[subscriber_id := mkSubscription (ss_topic subscriber) next']> (br_subscribers b)))
      end
  end.

Definition Broadcaster_replay (b : Broadcaster) (topic : string) (sequence_after : Z)
    : list BroadcastMessage :=
  match br_history b !! topic with
  | None => []
  | Some history => List.filter (fun m => sequence_after <? bm_sequence m) history
  end.

(** ** Specification *)

(** Sequence numbers grow along every history and stay below the next number;
    no wrap-around has happened yet. *)
Record broadcaster_wf (b : Broadcaster) : Prop := {
  bwf_next : 0 <= br_next_sequence b < two64;
  bwf_sorted : forall topic,
    StronglySorted (fun x y => bm_sequence x < bm_sequence y) (topic_history b topic);
  bwf_bound : forall topic m, In m (topic_history b topic) ->
    1 <= bm_sequence m <= br_next_sequence b /\ bm_topic m = topic;
  bwf_next_id : 0 <= br_next_subscriber_id b;
  bwf_subscriber : forall id s, br_subscribers b !! id = Some s ->
    1 <= id <= br_next_subscriber_id b /\ 1 <= ss_next_sequence s <= br_next_sequence b + 1;
}.

(** What a subscriber has not been given yet. *)
Definition pending (b : Broadcaster) (subscriber_id : Z) : list BroadcastMessage :=
  match br_subscribers b !! subscriber_id with
  | None => []
  | Some s => List.filter (fun m => ss_next_sequence s <=? bm_sequence m)
                (topic_history b (ss_topic s))
  end.

(** Operations on a broadcaster, and what its subscribers have been given. *)
Inductive broadcast_op :=
| OpSubscribe (topic : string)
| OpPublish (topic payload : string)
| OpPoll (subscriber_id max_items : Z).

Record broadcast_run := mkRun {
  run_state : Broadcaster;
  run_delivered : gmap Z (list BroadcastMessage);
}.

Definition delivered_to (r : broadcast_run) (id : Z) : list BroadcastMessage :=
  default [] (run_delivered r !! id).

Definition run_op (r : broadcast_run) (op : broadcast_op) : broadcast_run :=
  match op with
  | OpSubscribe topic => mkRun (Broadcaster_subscribe (run_state r) topic).2 (run_delivered r)
  | OpPublish topic payload => mkRun (Broadcaster_publish (run_state r) topic payload).2 (run_delivered r)
  | OpPoll id max_items =>
      let '(batch, b') := Broadcaster_poll (run_state r) id max_items in
      mkRun b' (<[id := delivered_to r id ++ batch]> (run_delivered r))
  end.

Definition run_ops (ops : list broadcast_op) : broadcast_run :=
  fold_left run_op ops (mkRun Broadcaster_new ∅).

(** ** Lemmas *)

(** The messages at or after a cursor. *)
Definition from_cursor (n : Z) (h : list BroadcastMessage) : list BroadcastMessage :=
  List.filter (fun m => n <=? bm_sequence m) h.

Lemma from_cursor_ext (h : list BroadcastMessage) (n n' : Z) :
  Forall (fun m => n <= bm_sequence m <-> n' <= bm_sequence m) h ->
  from_cursor n h = from_cursor n' h.
Proof.
  intros HF. unfold from_cursor. apply List.filter_ext_in. intros m Hm.
  rewrite List.Forall_forall in HF. specialize (HF m Hm).
  destruct (Z.leb_spec n (bm_sequence m)), (Z.leb_spec n' (bm_sequence m)); lia || done.
Qed.

Section PollLoop.
Context (k : Z).

Lemma poll_loop_mono (h : list BroadcastMessage) (next : Z) (batch : list BroadcastMessage) :
  (forall m, In m h -> 0 <= bm_sequence m < two64 - 1) ->
  next <= (poll_loop h next k batch).2.
Proof using Type.
  revert next batch. induction h as [|m h IH]; intros next batch Hb; simpl; [lia|].
  assert (Hm : 0 <= bm_sequence m < two64 - 1) by (apply Hb; by left).
  assert (Hb' : forall y, In y h -> 0 <= bm_sequence y < two64 - 1) by (intros; apply Hb; by right).
  assert (Hw : wrap_u64 (bm_sequence m + 1) = bm_sequence m + 1) by (apply Z.mod_small; lia).
  destruct (Z.ltb_spec (bm_sequence m) next); [by apply IH|].
  rewrite Hw. destruct (_ =? k); simpl; [lia|].
  specialize (IH (bm_sequence m + 1) (batch ++ [m]) Hb'). lia.
Qed.

Lemma poll_loop_bound (h : list BroadcastMessage) (next : Z) (batch : list BroadcastMessage) (n : Z) :
  next <= n -> (forall m, In m h -> wrap_u64 (bm_sequence m + 1) <= n) ->
  (poll_loop h next k batch).2 <= n.
Proof using Type.
  revert next batch. induction h as [|m h IH]; intros next batch Hn Hb; simpl; [done|].
  assert (Hm : wrap_u64 (bm_sequence m + 1) <= n) by (apply Hb; by left).
  assert (Hb' : forall y, In y h -> wrap_u64 (bm_sequence y + 1) <= n) by (intros; apply Hb; by right).
  repeat case_match; simpl; auto.
Qed.

(** The loop delivers the first messages at or after the cursor, and moves the
    cursor so that exactly the rest remains. *)
Lemma poll_loop_spec (h : list BroadcastMessage) (next : Z) (batch : list BroadcastMessage) :
  StronglySorted (fun x y => bm_sequence x < bm_sequence y) h ->
  (forall m, In m h -> 0 <= bm_sequence m < two64 - 1) ->
  Z.of_nat (length batch) < k ->
  let n := Z.to_nat (k - Z.of_nat (length batch)) in
  (poll_loop h next k batch).1 = batch ++ take n (from_cursor next h) /\
  from_cursor (poll_loop h next k batch).2 h = drop n (from_cursor next h).
Proof using Type.
  intros Hs. revert next batch. induction Hs as [|m h Hs IH Hm]; intros next batch Hb Hk.
  { simpl. by rewrite take_nil, drop_nil, app_nil_r. }
  rewrite List.Forall_forall in Hm.
  assert (Hbm : 0 <= bm_sequence m < two64 - 1) by (apply Hb; by left).
  assert (Hb' : forall y, In y h -> 0 <= bm_sequence y < two64 - 1) by (intros; apply Hb; by right).
  assert (Hw : wrap_u64 (bm_sequence m + 1) = bm_sequence m + 1) by (apply Z.mod_small; lia).
  simpl. destruct (Z.ltb_spec (bm_sequence m) next) as [Hlt|Hge].
  - rewrite (proj2 (Z.leb_gt next (bm_sequence m))) by lia.
    pose proof (poll_loop_mono h next batch Hb').
    rewrite (proj2 (Z.leb_gt _ (bm_sequence m))) by lia. by apply IH.
  - rewrite (proj2 (Z.leb_le next (bm_sequence m))) by lia. rewrite Hw, length_app. simpl length.
    assert (Hall : from_cursor next h = from_cursor (bm_sequence m + 1) h).
    { apply from_cursor_ext. apply List.Forall_forall. intros x Hx. specialize (Hm x Hx). lia. }
    fold (from_cursor next h).
    destruct (Z.eqb_spec (Z.of_nat (length batch + 1)) k) as [He|He].
    + replace (Z.to_nat (k - Z.of_nat (length batch))) with 1%nat by lia. simpl.
      rewrite take_0, drop_0, (proj2 (Z.leb_gt _ (bm_sequence m))) by lia. done.
    + pose proof (poll_loop_mono h (bm_sequence m + 1) (batch ++ [m]) Hb').
      rewrite (proj2 (Z.leb_gt _ (bm_sequence m))) by lia.
      specialize (IH (bm_sequence m + 1) (batch ++ [m]) Hb').
      rewrite length_app in IH. simpl length in IH. destruct (IH ltac:(lia)) as [IH1 IH2].
      replace (Z.to_nat (k - Z.of_nat (length batch)))
        with (S (Z.to_nat (k - Z.of_nat (length batch + 1)))) by lia.
      simpl. unfold from_cursor in *. by rewrite IH1, IH2, Hall, <- app_assoc.
Qed.
End PollLoop.

(** A message published earlier sorts before one with a larger number. *)
Lemma sorted_snoc (h : list BroadcastMessage) (m : BroadcastMessage) :
  StronglySorted (fun x y => bm_sequence x < bm_sequence y) h ->
  (forall x, In x h -> bm_sequence x < bm_sequence m) ->
  StronglySorted (fun x y => bm_sequence x < bm_sequence y) (h ++ [m]).
Proof.
  intros Hs Hm. induction Hs as [|x h Hs IH Hx]; simpl; [repeat constructor|].
  constructor; [apply IH; intros; apply Hm; by right|].
  apply Forall_app. split; [done|]. repeat constructor. apply Hm. by left.
Qed.

Lemma topic_history_publish (b : Broadcaster) (topic payload topic' : string) :
  let '(m, b') := Broadcaster_publish b topic payload in
  topic_history b' topic' =
  if decide (topic' = topic) then topic_history b topic ++ [m] else topic_history b topic'.
Proof. simpl. unfold topic_history at 1. simpl. case_decide; subst.
  - by rewrite lookup_insert_eq.
  - by rewrite lookup_insert_ne.
Qed.

Lemma pending_cursor (b : Broadcaster) (id : Z) (s : SubscriptionState) :
  br_subscribers b !! id = Some s -> pending b id = from_cursor (ss_next_sequence s) (topic_history b (ss_topic s)).
Proof. intros H. unfold pending. by rewrite H. Qed.

Lemma broadcaster_new_wf : broadcaster_wf Broadcaster_new.
Proof.
  split; simpl; try done. intros topic. constructor.
Qed.

(** Replaying from zero gives the whole history, sequence numbers being positive. *)
Lemma replay_all (b : Broadcaster) (topic : string) : broadcaster_wf b ->
  Broadcaster_replay b topic 0 = topic_history b topic.
Proof.
  intros W. unfold Broadcaster_replay. pose proof (bwf_bound b W topic) as HB. unfold topic_history in *.
  destruct (br_history b !! topic) as [h|]; [|done]. simpl in *.
  induction h as [|m h IH]; simpl; [done|].
  rewrite (proj2 (Z.ltb_lt _ _)) by (destruct (HB m (or_introl eq_refl)); lia).
  f_equal. apply IH. intros x Hx. apply HB. by right.
Qed.

Section Steps.
Context (b : Broadcaster) (W : broadcaster_wf b).

Lemma publish_wf (topic payload : string) :
  br_next_sequence b + 2 < two64 ->
  let '(m, b') := Broadcaster_publish b topic payload in
  bm_sequence m = br_next_sequence b + 1 /\ broadcaster_wf b'.
Proof using W.
  intros Hn. destruct W as [W1 W2 W3 W4 W5]. unfold Broadcaster_publish.
  assert (Hw : wrap_u64 (br_next_sequence b + 1) = br_next_sequence b + 1)
    by (apply Z.mod_small; lia).
  rewrite Hw. split; [done|].
  pose proof (topic_history_publish b topic payload) as HH. unfold Broadcaster_publish in HH.
  rewrite Hw in HH. split; simpl; try lia.
  - intros topic'. rewrite HH. case_decide; [subst|done].
    apply sorted_snoc; [done|]. intros x Hx. apply W3 in Hx. simpl. lia.
  - intros topic' m. rewrite HH. case_decide; [subst|].
    + rewrite in_app_iff. intros [Hm|[<-|[]]]; [apply W3 in Hm|simpl]; intuition lia.
    + intros Hm. apply W3 in Hm. intuition lia.
  - intros id s Hs. apply W5 in Hs. lia.
Qed.

Lemma publish_pending (topic payload : string) (id : Z) :
  br_next_sequence b + 2 < two64 ->
  let '(m, b') := Broadcaster_publish b topic payload in
  pending b' id =
  match br_subscribers b !! id with
  | Some s => if decide (ss_topic s = topic) then pending b id ++ [m] else pending b id
  | None => []
  end.
Proof using W.
  intros Hn. destruct W as [W1 W2 W3 W4 W5]. unfold pending at 1. simpl.
  destruct (br_subscribers b !! id) as [s|] eqn:Hs; [|done].
  rewrite (pending_cursor b id s Hs).
  pose proof (topic_history_publish b topic payload (ss_topic s)) as HH. simpl in HH.
  rewrite HH. case_decide; [|done]. unfold from_cursor. subst topic. rewrite List.filter_app.
  f_equal. simpl. apply W5 in Hs. rewrite (proj2 (Z.leb_le _ _)); [done|].
  rewrite wrap_u64_id; [lia|]. unfold in_u64. rewrite andb_true_iff, Z.leb_le, Z.ltb_lt. lia.
Qed.

Lemma subscribe_wf (topic : string) :
  br_next_subscriber_id b + 1 < two64 ->
  let '(id, b') := Broadcaster_subscribe b topic in
  broadcaster_wf b' /\ br_subscribers b !! id = None /\
  br_subscribers b' = <[id := mkSubscription topic 1]> (br_subscribers b).
Proof using W.
  intros Hn. destruct W as [W1 W2 W3 W4 W5]. unfold Broadcaster_subscribe.
  assert (Hw : wrap_u64 (br_next_subscriber_id b + 1) = br_next_subscriber_id b + 1)
    by (apply Z.mod_small; lia).
  rewrite Hw.
  assert (Hf : br_subscribers b !! (br_next_subscriber_id b + 1) = None).
  { destruct (_ !! _) eqn:He; [|done]. apply W5 in He. lia. }
  rewrite Hf. split; [|done]. split; simpl; try done; try lia.
  intros id s. destruct (decide (id = br_next_subscriber_id b + 1)) as [->|Hne].
  - rewrite lookup_insert_eq. intros [= <-]. simpl. lia.
  - rewrite lookup_insert_ne by done. intros Hs. apply W5 in Hs. lia.
Qed.

Lemma poll_spec (id k : Z) :
  0 < k -> br_next_sequence b + 2 < two64 ->
  let '(batch, b') := Broadcaster_poll b id k in
  broadcaster_wf b' /\ batch = take (Z.to_nat k) (pending b id) /\
  br_history b' = br_history b /\
  pending b' id = drop (Z.to_nat k) (pending b id) /\
  (ss_topic <$> br_subscribers b' !! id) = (ss_topic <$> br_subscribers b !! id) /\
  forall id', id' <> id -> br_subscribers b' !! id' = br_subscribers b !! id'.
Proof using W.
  intros Hk Hn. pose proof W as [W1 W2 W3 W4 W5]. unfold Broadcaster_poll.
  destruct (br_subscribers b !! id) as [s|] eqn:Hs.
  2: { unfold pending. rewrite Hs. simpl. by rewrite take_nil, drop_nil. }
  pose proof (pending_cursor b id s Hs) as Hpend.
  destruct (br_history b !! ss_topic s) as [h|] eqn:Hh.
  2: { assert (Hnil : topic_history b (ss_topic s) = []) by (unfold topic_history; by rewrite Hh).
       rewrite Hpend, Hnil, Hs. simpl. by rewrite take_nil, drop_nil. }
  assert (Hth : topic_history b (ss_topic s) = h) by (unfold topic_history; by rewrite Hh).
  assert (Hb : forall m, In m h -> 0 <= bm_sequence m < two64 - 1).
  { intros m Hm. rewrite <- Hth in Hm. apply W3 in Hm. lia. }
  pose proof (W2 (ss_topic s)) as Hsort. rewrite Hth in Hsort, Hpend.
  pose proof (poll_loop_spec k h (ss_next_sequence s) [] Hsort Hb ltac:(simpl; lia)) as [L1 L2].
  pose proof (poll_loop_mono k h (ss_next_sequence s) [] Hb) as Hmono.
  pose proof (poll_loop_bound k h (ss_next_sequence s) [] (br_next_sequence b + 1)) as Hbnd.
  simpl length in L1, L2. rewrite Z.sub_0_r in L1, L2.
  destruct (poll_loop h (ss_next_sequence s) k []) as [batch next']. simpl in *.
  pose proof (W5 id s Hs) as HW5.
  assert (Hnext : next' <= br_next_sequence b + 1).
  { apply Hbnd; [lia|]. intros m Hm. rewrite <- Hth in Hm. apply W3 in Hm.
    rewrite wrap_u64_id; [lia|]. unfold in_u64. rewrite andb_true_iff, Z.leb_le, Z.ltb_lt. lia. }
  split; [|split; [by rewrite Hpend, L1|split; [done|split; [|split]]]].
  - split; simpl; try done. intros id' s'. destruct (decide (id' = id)) as [->|Hne].
    + rewrite lookup_insert_eq. intros [= <-]. simpl. lia.
    + rewrite lookup_insert_ne by done. apply W5.
  - unfold pending at 1. simpl. rewrite lookup_insert_eq. simpl.
    unfold topic_history. simpl. rewrite Hh, Hpend. simpl. exact L2.
  - by rewrite lookup_insert_eq.
  - intros id' Hne. by rewrite lookup_insert_ne.
Qed.
End Steps.

(** ** Exactly-once delivery over any sequence of operations *)

Definition op_ok (op : broadcast_op) : Prop :=
  match op with OpPoll _ max_items => 0 < max_items | _ => True end.

(** The invariant of a run: what was delivered and what is pending make up the
    topic's history. *)
Record run_inv (r : broadcast_run) : Prop := {
  ri_wf : broadcaster_wf (run_state r);
  ri_fresh : forall id, br_subscribers (run_state r) !! id = None -> delivered_to r id = [];
  ri_once : forall id s, br_subscribers (run_state r) !! id = Some s ->
    delivered_to r id ++ pending (run_state r) id = topic_history (run_state r) (ss_topic s);
}.

Lemma run_op_counters (r : broadcast_run) (op : broadcast_op) :
  run_inv r -> br_next_sequence (run_state r) + 2 < two64 ->
  br_next_subscriber_id (run_state r) + 1 < two64 ->
  br_next_sequence (run_state (run_op r op)) <= br_next_sequence (run_state r) + 1 /\
  br_next_subscriber_id (run_state (run_op r op)) <= br_next_subscriber_id (run_state r) + 1.
Proof.
  intros [[? _ _ ? _] _ _] H1 H2. destruct op as [t|t p|id k]; simpl.
  - rewrite wrap_u64_id; [lia|]. unfold in_u64. rewrite andb_true_iff, Z.leb_le, Z.ltb_lt. lia.
  - rewrite wrap_u64_id; [lia|]. unfold in_u64. rewrite andb_true_iff, Z.leb_le, Z.ltb_lt. lia.
  - unfold Broadcaster_poll. repeat case_match; simplify_eq/=; lia.
Qed.

Lemma from_cursor_all (h : list BroadcastMessage) (n : Z) :
  (forall m, In m h -> n <= bm_sequence m) -> from_cursor n h = h.
Proof.
  intros Hh. apply List.forallb_filter_id, List.forallb_forall. intros m Hm.
  by apply Z.leb_le, Hh.
Qed.

Lemma run_subscribe_inv (r : broadcast_run) (topic : string) :
  run_inv r -> br_next_subscriber_id (run_state r) + 1 < two64 -> run_inv (run_op r (OpSubscribe topic)).
Proof.
  intros [W F O] H2. destruct r as [b d]. cbn [run_op run_state run_delivered] in *.
  pose proof (subscribe_wf b W topic H2) as HS.
  destruct (Broadcaster_subscribe b topic) as [i b'] eqn:Heq. destruct HS as (W' & Hf & Hsub).
  assert (Hh : forall t, topic_history b' t = topic_history b t)
    by (unfold Broadcaster_subscribe in Heq; by simplify_eq/=).
  split; simpl; [done| |]; intros id; rewrite Hsub, lookup_insert; case_decide as Hid.
  - done.
  - apply F.
  - subst id. intros s [= <-]. simpl. rewrite (F i Hf : delivered_to (mkRun b' d) i = []). simpl.
    rewrite (pending_cursor b' i (mkSubscription topic 1)) by (by rewrite Hsub, lookup_insert_eq).
    simpl. rewrite Hh. apply from_cursor_all. intros m Hm. by apply (bwf_bound b W) in Hm as [[? _] _].
  - intros s Hs. rewrite Hh, <- (O id s Hs). unfold pending.
    rewrite Hsub, lookup_insert_ne, Hs by done. by rewrite Hh.
Qed.

Lemma run_publish_inv (r : broadcast_run) (topic payload : string) :
  run_inv r -> br_next_sequence (run_state r) + 2 < two64 ->
  run_inv (run_op r (OpPublish topic payload)).
Proof.
  intros [W F O] H1. destruct r as [b d]. cbn [run_op run_state run_delivered] in *.
  pose proof (publish_wf b W topic payload H1) as HP.
  pose proof (publish_pending b W topic payload) as HQ.
  pose proof (topic_history_publish b topic payload) as HH.
  destruct (Broadcaster_publish b topic payload) as [m b'] eqn:Heq. destruct HP as [_ W'].
  assert (Hsub : br_subscribers b' = br_subscribers b)
    by (unfold Broadcaster_publish in Heq; by simplify_eq/=).
  split; simpl; [done| |]; rewrite Hsub; [done|]. intros id s Hs.
  rewrite HQ, Hs by done. rewrite HH. specialize (O id s Hs).
  case_decide; [subst|done]. rewrite <- O. by rewrite <- app_assoc.
Qed.

Lemma run_poll_inv (r : broadcast_run) (id k : Z) :
  run_inv r -> 0 < k -> br_next_sequence (run_state r) + 2 < two64 -> run_inv (run_op r (OpPoll id k)).
Proof.
  intros [W F O] Hk H1. destruct r as [b d]. cbn [run_op run_state run_delivered] in *.
  pose proof (poll_spec b W id k Hk H1) as HP.
  destruct (Broadcaster_poll b id k) as [batch b'].
  destruct HP as (W' & -> & Hh & Hpend & Htop & Hoth).
  assert (Hth : forall t, topic_history b' t = topic_history b t)
    by (intros; unfold topic_history; by rewrite Hh).
  split; simpl; [done| |]; intros id'; unfold delivered_to; simpl;
    (destruct (decide (id' = id)) as [->|Hne];
      [rewrite lookup_insert_eq | rewrite lookup_insert_ne by done]).
  - intros Hn. rewrite Hn in Htop. simpl in Htop. simpl.
    assert (Hs : br_subscribers b !! id = None) by (destruct (_ !! id); [discriminate|done]).
    unfold pending. rewrite Hs, take_nil, app_nil_r. by apply F.
  - rewrite Hoth by done. apply F.
  - intros s' Hs'. rewrite Hs' in Htop. simpl in Htop.
    destruct (br_subscribers b !! id) as [s|] eqn:Hs; [|discriminate].
    simpl in Htop. injection Htop as Htop. simpl. rewrite Hth, Htop, <- (O id s Hs).
    rewrite <- app_assoc. f_equal. rewrite Hpend. apply take_drop.
  - rewrite Hoth by done. intros s Hs. rewrite Hth, <- (O id' s Hs). f_equal.
    unfold pending. rewrite Hoth, Hs by done. by rewrite Hth.
Qed.

Lemma run_ops_inv (ops : list broadcast_op) :
  Forall op_ok ops -> Z.of_nat (length ops) + 2 < two64 ->
  run_inv (run_ops ops) /\
  br_next_sequence (run_state (run_ops ops)) <= Z.of_nat (length ops) /\
  br_next_subscriber_id (run_state (run_ops ops)) <= Z.of_nat (length ops).
Proof.
  induction ops as [|op ops IH] using rev_ind; intros Hok Hlen.
  - simpl. split; [|done]. split; [apply broadcaster_new_wf|done|done].
  - apply Forall_app in Hok as [Hok Hop]. apply Forall_inv in Hop.
    rewrite length_app in Hlen. simpl in Hlen.
    destruct IH as (HI & Hn & Hi); [done|lia|]. unfold run_ops in *. rewrite fold_left_app. simpl.
    pose proof (run_op_counters _ op HI ltac:(lia) ltac:(lia)) as [HC1 HC2].
    rewrite length_app. simpl. split; [|lia].
    destruct op; [apply run_subscribe_inv|apply run_publish_inv|apply run_poll_inv]; done || lia.
Qed.

(** ** What the calls say *)

(** The topics of the subscriptions, in the order of the calls: the subscriber ids
    count them from 1. *)
Definition subscriptions (ops : list broadcast_op) : list string :=
  omap (fun op => match op with OpSubscribe topic => Some topic | _ => None end) ops.
Definition subscription (ops : list broadcast_op) (id : Z) : option string :=
  if 1 <=? id then subscriptions ops !! Z.to_nat (id - 1) else None.

(** The messages published, numbered from 1 in the order of the calls. *)
Definition publications (ops : list broadcast_op) : list (string * string) :=
  omap (fun op => match op with OpPublish topic payload => Some (topic, payload) | _ => None end) ops.
Definition numbered (l : list (string * string)) : list BroadcastMessage :=
  imap (fun i x => mkBroadcastMessage (Z.of_nat i + 1) x.1 x.2) l.
Definition published (ops : list broadcast_op) (topic : string) : list BroadcastMessage :=
  List.filter (fun m => bool_decide (bm_topic m = topic)) (numbered (publications ops)).

(** The state agrees with the calls that led to it. *)
Record calls_inv (ops : list broadcast_op) (b : Broadcaster) : Prop := {
  cl_sequence : br_next_sequence b = Z.of_nat (length (publications ops));
  cl_ids : br_next_subscriber_id b = Z.of_nat (length (subscriptions ops));
  cl_history : forall topic, topic_history b topic = published ops topic;
  cl_topics : forall id, ss_topic <$> br_subscribers b !! id = subscription ops id
}.

Lemma numbered_snoc (l : list (string * string)) (x : string * string) :
  numbered (l ++ [x]) = numbered l ++ [mkBroadcastMessage (Z.of_nat (length l) + 1) x.1 x.2].
Proof. unfold numbered. rewrite imap_app. simpl. by rewrite Nat.add_0_r. Qed.

Lemma subscription_snoc (ops : list broadcast_op) (topic : string) (id : Z) :
  subscription (ops ++ [OpSubscribe topic]) id =
  if decide (id = Z.of_nat (length (subscriptions ops)) + 1) then Some topic else subscription ops id.
Proof.
  unfold subscription, subscriptions. rewrite omap_app. simpl. set (l := omap _ ops).
  destruct (Z.leb_spec 1 id); case_decide as Hid; try done; try lia.
  - rewrite lookup_app_r by lia. replace (Z.to_nat (id - 1) - length l)%nat with 0%nat by lia. done.
  - destruct (Z.lt_ge_cases id (Z.of_nat (length l) + 1)).
    + by rewrite lookup_app_l by lia.
    + rewrite lookup_app_r, (lookup_ge_None_2 l) by lia. apply lookup_ge_None_2. simpl. lia.
Qed.

Lemma publications_app (ops ops' : list broadcast_op) :
  publications (ops ++ ops') = publications ops ++ publications ops'.
Proof. apply omap_app. Qed.
Lemma subscriptions_app (ops ops' : list broadcast_op) :
  subscriptions (ops ++ ops') = subscriptions ops ++ subscriptions ops'.
Proof. apply omap_app. Qed.

Lemma run_calls_inv (ops : list broadcast_op) : Forall op_ok ops -> Z.of_nat (length ops) + 2 < two64 ->
  calls_inv ops (run_state (run_ops ops)).
Proof.
  induction ops as [|op ops IH] using rev_ind; intros Hok Hlen.
  { split; try done. intros id. simpl. rewrite lookup_empty. unfold subscription. by destruct (1 <=? id). }
  apply Forall_app in Hok as [Hok Hop]. apply Forall_inv in Hop. rewrite length_app in Hlen. simpl in Hlen.
  destruct (run_ops_inv ops Hok ltac:(lia)) as ([W _ _] & Hn & Hi).
  destruct (IH Hok ltac:(lia)) as [C1 C2 C3 C4]. clear IH. unfold run_ops in *. rewrite fold_left_app.
  generalize dependent (fold_left run_op ops (mkRun Broadcaster_new ∅)). intros [b d] W Hn Hi C1 C2 C3 C4.
  simpl in *. pose proof (bwf_next _ W). pose proof (bwf_next_id _ W).
  assert (Hw : forall x, 0 <= x < two64 - 1 -> wrap_u64 (x + 1) = x + 1) by (intros; apply Z.mod_small; lia).
  assert (Hsub0 : subscriptions [op] = [] -> forall i, subscription (ops ++ [op]) i = subscription ops i).
  { intros E i. unfold subscription. by rewrite subscriptions_app, E, app_nil_r. }
  assert (Hpub0 : publications [op] = [] -> forall t, published (ops ++ [op]) t = published ops t).
  { intros E t. unfold published. by rewrite publications_app, E, app_nil_r. }
  destruct op as [topic|topic payload|id k]; simpl.
  - pose proof (subscribe_wf b W topic ltac:(lia)) as HS.
    unfold Broadcaster_subscribe in *. rewrite (Hw (br_next_subscriber_id b)) in * by lia.
    destruct HS as (_ & _ & Hsub). simpl in Hsub.
    split; simpl; rewrite ?publications_app, ?subscriptions_app, ?length_app; simpl; try lia.
    + intros t. rewrite Hpub0 by done. exact (C3 t).
    + intros i. rewrite Hsub, subscription_snoc, <- C2.
      case_decide as Hid; [subst; by rewrite lookup_insert_eq|by rewrite lookup_insert_ne].
  - pose proof (topic_history_publish b topic payload) as HH. unfold Broadcaster_publish in *. simpl in HH.
    rewrite (Hw (br_next_sequence b)) in * by lia.
    split; simpl; rewrite ?publications_app, ?subscriptions_app, ?length_app; simpl; try lia.
    + intros t. unfold published in *. rewrite HH, publications_app. cbn [publications omap list_omap].
      rewrite numbered_snoc, List.filter_app, <- !C3, <- C1. simpl.
      case_decide as Ht; [subst t; by rewrite bool_decide_eq_true_2|].
      by rewrite bool_decide_eq_false_2, app_nil_r.
    + intros i. by rewrite Hsub0.
  - pose proof (poll_spec b W id k Hop ltac:(lia)) as HP.
    assert (Hc : br_next_sequence (Broadcaster_poll b id k).2 = br_next_sequence b /\
      br_next_subscriber_id (Broadcaster_poll b id k).2 = br_next_subscriber_id b)
      by (unfold Broadcaster_poll; by repeat case_match; simplify_eq/=).
    destruct (Broadcaster_poll b id k) as [batch b']. destruct HP as (_ & _ & Hh & _ & Htop & Hoth). simpl in *.
    destruct Hc as [Hc1 Hc2].
    split; simpl; rewrite ?publications_app, ?subscriptions_app, ?length_app; simpl; try lia.
    + intros t. rewrite Hpub0 by done. unfold topic_history. rewrite Hh. apply C3.
    + intros i. rewrite Hsub0 by done. destruct (decide (i = id)) as [->|Hne]; [by rewrite Htop|by rewrite Hoth].
Qed.

(** ** Properties *)

(** C32. Exactly-once delivery, in terms of the calls alone. After fewer than 2^64
    subscribe, publish and poll calls, polls being for at least one message, take the
    messages published on a topic so far, before or after the subscription, numbered
    across topics in the order of the publish calls. What the polls of a subscriber of
    the topic have returned, put together, is the beginning of that list, each message
    once and in order; and another poll for [k] messages returns the next [k] of it,
    or all that are left. A subscription returns the count of subscriptions as its id,
    a publication the message with its number; an id nobody has gets nothing. *)
Theorem broadcast_exactly_once (ops : list broadcast_op) :
  Forall op_ok ops -> Z.of_nat (length ops) + 2 < two64 ->
  let r := run_ops ops in
  (forall id topic, subscription ops id = Some topic ->
     exists rest, published ops topic = delivered_to r id ++ rest /\
       forall k, 0 < k -> (Broadcaster_poll (run_state r) id k).1 = take (Z.to_nat k) rest) /\
  (forall id k, subscription ops id = None -> 0 < k ->
     delivered_to r id = [] /\ (Broadcaster_poll (run_state r) id k).1 = []) /\
  (forall topic, (Broadcaster_subscribe (run_state r) topic).1 = Z.of_nat (length (subscriptions ops)) + 1) /\
  (forall topic payload, (Broadcaster_publish (run_state r) topic payload).1 =
     mkBroadcastMessage (Z.of_nat (length (publications ops)) + 1) topic payload).
Proof.
  intros Hok Hlen r. destruct (run_ops_inv ops Hok Hlen) as ([W F O] & Hn & Hi).
  destruct (run_calls_inv ops Hok Hlen) as [C1 C2 C3 C4]. fold r in W, F, O, Hn, Hi, C1, C2, C3, C4.
  assert (HP : forall id k, 0 < k -> (Broadcaster_poll (run_state r) id k).1 = take (Z.to_nat k) (pending (run_state r) id)).
  { intros id k Hk. pose proof (poll_spec (run_state r) W id k Hk ltac:(lia)) as HP.
    destruct (Broadcaster_poll (run_state r) id k). by destruct HP as (_ & -> & _). }
  assert (Hw : forall x, 0 <= x < two64 - 1 -> wrap_u64 (x + 1) = x + 1) by (intros; apply Z.mod_small; lia).
  split_and!.
  - intros id topic Hs. rewrite <- C4 in Hs. apply fmap_Some in Hs as (s & Hs & ->).
    exists (pending (run_state r) id). split; [by rewrite <- C3, (O id s Hs)|by apply HP].
  - intros id k Hs Hk. rewrite <- C4 in Hs. apply fmap_None in Hs. split; [by apply F|].
    rewrite HP by done. unfold pending. rewrite Hs. apply take_nil.
  - intros topic. unfold Broadcaster_subscribe. pose proof (bwf_next_id _ W). rewrite Hw by lia. simpl. lia.
  - intros topic payload. unfold Broadcaster_publish. pose proof (bwf_next _ W). rewrite Hw by lia. simpl. by rewrite C1.
Qed.

Lemma broadcast_exactly_once_witness :
  let ops := [OpPublish "t" "a"; OpSubscribe "t"; OpPublish "u" "x"; OpPublish "t" "b"; OpPoll 1 1; OpPublish "t" "c"] in
  published ops "t" = [mkBroadcastMessage 1 "t" "a"; mkBroadcastMessage 3 "t" "b"; mkBroadcastMessage 4 "t" "c"] /\
  exists rest, published ops "t" = delivered_to (run_ops ops) 1 ++ rest /\
    (Broadcaster_poll (run_state (run_ops ops)) 1 5).1 = take 5 rest.
Proof.
  intros ops. split; [vm_compute; reflexivity|].
  destruct (broadcast_exactly_once ops) as (H & _); [repeat constructor|vm_compute; reflexivity|].
  destruct (H 1 "t" eq_refl) as (rest & E & HP). exists rest. split; [exact E|]. apply (HP 5). reflexivity.
Defined.

(** A poll for at least one message returns the first [max_items] pending
    messages of its subscriber, removes exactly those from what is pending, and
    touches no other subscriber and no history. *)
Fact broadcast_poll_correct (b : Broadcaster) (id k : Z) :
  broadcaster_wf b -> 0 < k -> br_next_sequence b + 2 < two64 ->
  let '(batch, b') := Broadcaster_poll b id k in
  broadcaster_wf b' /\ batch = take (Z.to_nat k) (pending b id) /\
  pending b' id = drop (Z.to_nat k) (pending b id) /\
  br_history b' = br_history b /\
  forall id', id' <> id -> br_subscribers b' !! id' = br_subscribers b !! id'.
Proof.
  intros W Hk Hn. pose proof (poll_spec b W id k Hk Hn) as HP.
  destruct (Broadcaster_poll b id k) as [batch b']. tauto.
Qed.

Lemma broadcast_poll_correct_witness :
  let b := (Broadcaster_publish (Broadcaster_subscribe Broadcaster_new "t").2 "t" "a").2 in
  map bm_payload (Broadcaster_poll b 1 5).1 = ["a"].
Proof.
  set (b := (Broadcaster_publish _ _ _).2).
  assert (W : broadcaster_wf b).
  { destruct (run_ops_inv [OpSubscribe "t"; OpPublish "t" "a"]) as ([W _ _] & _);
      [repeat constructor|vm_compute; reflexivity|exact W]. }
  pose proof (broadcast_poll_correct b 1 5 W ltac:(lia) ltac:(vm_compute; reflexivity)) as H.
  cbv zeta. destruct (Broadcaster_poll b 1 5) as [batch b'].
  destruct H as (_ & -> & _). vm_compute. reflexivity.
Defined.

(** A poll for zero messages is not empty: the batch is compared with the
    limit only after a push, so it delivers everything pending. *)
Fact broadcast_poll_zero (next : Z) (h : list BroadcastMessage) (batch : list BroadcastMessage) :
  StronglySorted (fun x y => bm_sequence x < bm_sequence y) h ->
  (forall m, In m h -> 0 <= bm_sequence m < two64 - 1) ->
  (poll_loop h next 0 batch).1 = batch ++ from_cursor next h.
Proof.
  intros Hs. revert next batch. induction Hs as [|m h Hs IH Hm]; intros next batch Hb.
  { simpl. by rewrite app_nil_r. }
  rewrite List.Forall_forall in Hm.
  assert (Hbm : 0 <= bm_sequence m < two64 - 1) by (apply Hb; by left).
  assert (Hb' : forall y, In y h -> 0 <= bm_sequence y < two64 - 1) by (intros; apply Hb; by right).
  simpl. destruct (Z.ltb_spec (bm_sequence m) next).
  - rewrite (proj2 (Z.leb_gt next (bm_sequence m))) by lia. by apply IH.
  - rewrite (proj2 (Z.leb_le next (bm_sequence m))) by lia. rewrite length_app. simpl length.
    rewrite (proj2 (Z.eqb_neq _ 0)) by lia. rewrite IH by done.
    rewrite <- app_assoc. simpl. f_equal. f_equal.
    assert (Hw : wrap_u64 (bm_sequence m + 1) = bm_sequence m + 1) by (apply Z.mod_small; lia).
    rewrite Hw. apply from_cursor_ext. apply List.Forall_forall. intros x Hx.
    specialize (Hm x Hx). lia.
Qed.

Lemma broadcast_poll_zero_witness :
  (poll_loop [mkBroadcastMessage 1 "t" "a"; mkBroadcastMessage 2 "t" "b"] 1 0 []).1
  = [mkBroadcastMessage 1 "t" "a"; mkBroadcastMessage 2 "t" "b"].
Proof.
  rewrite broadcast_poll_zero; [reflexivity| |].
  - repeat constructor.
  - simpl. intros m [<-|[<-|[]]]; vm_compute; split; congruence.
Defined.
