(* ===== verification/Candles.v ===== *)
(** * Candle aggregator

    [infrastructure/market-data-push-system/candle_aggregator.hpp]: trades are
    folded into one candle per symbol and time bucket, kept in a hash map under
    the string [symbol + ':' + open_time]. *)

From S2P Require Import Prelude Double MarketTypes.
From Stdlib Require Import Ascii.

Local Open Scope Z_scope.

(** ** Model *)

Record CandleAggregator := mkCandleAggregator {
  ca_interval_ms : Z;
  ca_candles : gmap string Candle;
}.

Definition CandleAggregator_new (interval_ms : Z) : outcome CandleAggregator :=
  if interval_ms =? 0 then Throw "CandleAggregator interval must be greater than zero"
  else Ret (mkCandleAggregator interval_ms ∅).

Definition bucket_open_time (a : CandleAggregator) (event_time_ms : Z) : Z :=
  wrap_u64 (event_time_ms / ca_interval_ms a * ca_interval_ms a).

(** [std::to_string] of an unsigned integer is its decimal numeral. *)
Definition to_string_u64 (z : Z) : string := pretty (Z.to_N z).

Definition make_key (symbol : string) (open_time_ms : Z) : string :=
  symbol +:+ ":" +:+ to_string_u64 open_time_ms.

Definition first_candle (a : CandleAggregator) (bucket_time : Z) (t : MarketTrade) : Candle :=
  mkCandle (mt_symbol t) bucket_time
    (wrap_u64 (wrap_u64 (bucket_time + ca_interval_ms a) - 1))
    (mt_price t) (mt_price t) (mt_price t) (mt_price t) (mt_quantity t).

Definition merge_trade (c : Candle) (t : MarketTrade) : Candle :=
  mkCandle (cd_symbol c) (cd_open_time_ms c) (cd_close_time_ms c) (cd_open c)
    (dmax (cd_high c) (mt_price t)) (dmin (cd_low c) (mt_price t)) (mt_price t)
    (dadd (cd_volume c) (mt_quantity t)).

Definition CandleAggregator_add_trade (a : CandleAggregator) (t : MarketTrade)
    : Candle * CandleAggregator :=
  let bucket_time := bucket_open_time a (mt_event_time_ms t) in
  let key := make_key (mt_symbol t) bucket_time in
  let candle := match ca_candles a !! key with
                | None => first_candle a bucket_time t
                | Some c => merge_trade c t
                end in
  (candle, mkCandleAggregator (ca_interval_ms a) (<[key := candle]> (ca_candles a))).

Definition CandleAggregator_latest (a : CandleAggregator) (symbol : string) (event_time_ms : Z)
    : option Candle :=
  ca_candles a !! make_key symbol (bucket_open_time a event_time_ms).

(** ** Specification: the candle of a bucket is a fold over its trades *)

Definition add_trades (a : CandleAggregator) (ts : list MarketTrade) : CandleAggregator :=
  fold_left (fun a t => (CandleAggregator_add_trade a t).2) ts a.

(** The trades of one symbol whose event time is in the interval that starts at
    [bucket]. *)
Definition bucket_trades (interval : Z) (symbol : string) (bucket : Z) (ts : list MarketTrade)
    : list MarketTrade :=
  List.filter (fun t => String.eqb (mt_symbol t) symbol &&
                   (bucket <=? mt_event_time_ms t) && (mt_event_time_ms t <? bucket + interval)) ts.

(** Open, high, low, close and volume of a non-empty sequence of trades. *)
Definition reference_candle (interval : Z) (symbol : string) (bucket : Z) (ts : list MarketTrade)
    : option Candle :=
  match ts with
  | [] => None
  | t :: ts' =>
      Some (mkCandle symbol bucket (wrap_u64 (wrap_u64 (bucket + interval) - 1))
        (mt_price t)
        (fold_left (fun h t => dmax h (mt_price t)) ts' (mt_price t))
        (fold_left (fun l t => dmin l (mt_price t)) ts' (mt_price t))
        (List.last (map mt_price ts) (mt_price t))
        (fold_left (fun v t => dadd v (mt_quantity t)) ts' (mt_quantity t)))
  end.

(** ** Lemmas *)

(** Decimal numerals contain no colon, so the last colon of a key separates the
    symbol from the time. *)
Fixpoint string_forall (P : ascii -> bool) (s : string) : bool :=
  match s with
  | EmptyString => true
  | String c s' => P c && string_forall P s'
  end.

Definition not_colon (c : ascii) : bool := negb (Ascii.eqb c ":").

Lemma pretty_N_go_no_colon (n : N) (s : string) :
  string_forall not_colon s = true -> string_forall not_colon (pretty_N_go n s) = true.
Proof.
  revert s. induction (N.lt_wf_0 n) as [n _ IH]. intros s Hs.
  destruct (decide (0 < n)%N) as [Hn|Hn].
  - rewrite pretty_N_go_step by done. apply IH; [by apply N.div_lt|].
    simpl. rewrite Hs, andb_true_r. unfold pretty_N_char. by repeat case_match.
  - assert (n = 0%N) as -> by lia. by rewrite pretty_N_go_0.
Qed.

Lemma to_string_no_colon (z : Z) : string_forall not_colon (to_string_u64 z) = true.
Proof.
  unfold to_string_u64, pretty, pretty_N. case_decide; [done|]. by apply pretty_N_go_no_colon.
Qed.

Lemma has_colon (s t : string) : string_forall not_colon (s +:+ ":" +:+ t) = false.
Proof. induction s as [|c s IH]; simpl; [done|]. rewrite IH. apply andb_false_r. Qed.

Lemma split_last_colon (s s' t t' : string) :
  string_forall not_colon t = true -> string_forall not_colon t' = true ->
  s +:+ ":" +:+ t = s' +:+ ":" +:+ t' -> s = s' /\ t = t'.
Proof.
  intros Ht Ht'. revert s'. induction s as [|c s IH]; intros [|c' s'] He; simpl in *.
  - injection He as He. done.
  - injection He as _ He. change (t = s' +:+ ":" +:+ t') in He. rewrite He in Ht. by rewrite has_colon in Ht.
  - injection He as _ He. change (s +:+ ":" +:+ t = t') in He. rewrite <- He in Ht'. by rewrite has_colon in Ht'.
  - injection He as -> He. destruct (IH s' He) as [-> ->]. done.
Qed.

Lemma make_key_inj (s s' : string) (z z' : Z) :
  0 <= z -> 0 <= z' -> make_key s z = make_key s' z' -> s = s' /\ z = z'.
Proof.
  intros Hz Hz' He. apply split_last_colon in He as [-> He]; try apply to_string_no_colon.
  split; [done|]. apply (pretty_N_inj (Z.to_N z) (Z.to_N z')) in He. lia.
Qed.

(** A trade of interval [i] falls in bucket [b] exactly when the code's division
    puts it there. *)
Lemma bucket_range (i b t : Z) : 0 < i -> 0 <= b -> b mod i = 0 ->
  t / i * i = b <-> b <= t < b + i.
Proof.
  intros Hi Hb Hm. pose proof (Z.div_mod t i ltac:(lia)) as HD.
  pose proof (Z.mod_pos_bound t i Hi). split; [nia|]. intros Hr.
  pose proof (Z.div_mod b i ltac:(lia)) as HB. rewrite Hm in HB.
  assert (t / i = b / i); [|nia].
  symmetry. apply (Z.div_unique t i (b / i) (t - b)); lia.
Qed.

Lemma reference_candle_snoc (i : Z) (s : string) (b : Z) (ts : list MarketTrade) (t : MarketTrade) :
  reference_candle i s b (ts ++ [t]) =
  match reference_candle i s b ts with
  | None => reference_candle i s b [t]
  | Some c => Some (merge_trade c t)
  end.
Proof.
  destruct ts as [|u ts]; [done|]. simpl. rewrite !fold_left_app. simpl. f_equal.
  unfold merge_trade. simpl. f_equal.
  rewrite map_app. simpl. change (map mt_price ts ++ [mt_price t]) with (map mt_price ts ++ [mt_price t]).
  assert (H : forall l (x d : double), match l ++ [x] with [] => d | _ :: _ => List.last (l ++ [x]) d end = x).
  { intros l x d. pose proof (List.last_last l x d). by destruct (l ++ [x]) eqn:Hl; [destruct l|]. }
  apply H.
Qed.

(** The invariant: every key holds the reference candle of its bucket. *)
Definition candles_match (a : CandleAggregator) (ts : list MarketTrade) : Prop :=
  forall s b, 0 <= b -> b mod ca_interval_ms a = 0 ->
    ca_candles a !! make_key s b =
    reference_candle (ca_interval_ms a) s b (bucket_trades (ca_interval_ms a) s b ts).

Lemma add_trade_match (a : CandleAggregator) (ts : list MarketTrade) (t : MarketTrade) :
  0 < ca_interval_ms a -> 0 <= mt_event_time_ms t < two64 ->
  candles_match a ts -> candles_match (CandleAggregator_add_trade a t).2 (ts ++ [t]).
Proof.
  intros Hi Ht HM s b Hb Hm. pose proof (HM s b) as HMs. simpl in *.
  set (i := ca_interval_ms a) in *. specialize (HMs Hb Hm).
  assert (HB : bucket_open_time a (mt_event_time_ms t) = mt_event_time_ms t / i * i).
  { unfold bucket_open_time. fold i. apply Z.mod_small.
    pose proof (Z.div_mod (mt_event_time_ms t) i ltac:(lia)).
    pose proof (Z.mod_pos_bound (mt_event_time_ms t) i Hi).
    pose proof (Z.div_pos (mt_event_time_ms t) i ltac:(lia) Hi). nia. }
  rewrite HB. set (bt := mt_event_time_ms t / i * i) in *.
  assert (Hbt : 0 <= bt) by (subst bt; pose proof (Z.div_pos (mt_event_time_ms t) i ltac:(lia) Hi); nia).
  assert (Hbm : bt mod i = 0) by (subst bt; apply Z.mod_mul; lia).
  unfold bucket_trades. rewrite List.filter_app. simpl.
  pose proof (bucket_range i b (mt_event_time_ms t) Hi Hb Hm) as HR. fold bt in HR.
  destruct (decide (mt_symbol t = s /\ bt = b)) as [[Hs Hbb]|Hne]; [subst s b|].
  - rewrite lookup_insert_eq, String.eqb_refl.
    destruct (proj1 HR eq_refl) as [H1 H2].
    rewrite (proj2 (Z.leb_le _ _) H1), (proj2 (Z.ltb_lt _ _) H2). simpl.
    rewrite reference_candle_snoc. fold (bucket_trades i (mt_symbol t) bt ts).
    rewrite <- HMs. by destruct (ca_candles a !! _).
  - rewrite lookup_insert_ne.
    2: { intros He. by apply make_key_inj in He. }
    rewrite HMs. fold (bucket_trades i s b ts).
    assert (Hf : String.eqb (mt_symbol t) s && (b <=? mt_event_time_ms t) && (mt_event_time_ms t <? b + i) = false).
    { destruct (String.eqb_spec (mt_symbol t) s); [|done]. simpl.
      apply not_true_iff_false. rewrite andb_true_iff, Z.leb_le, Z.ltb_lt. intros Hr.
      apply Hne. split; [done|]. by apply HR. }
    rewrite Hf. by rewrite app_nil_r.
Qed.

Lemma add_trades_match (a : CandleAggregator) (ts0 ts : list MarketTrade) :
  0 < ca_interval_ms a -> Forall (fun t => 0 <= mt_event_time_ms t < two64) ts ->
  candles_match a ts0 -> candles_match (add_trades a ts) (ts0 ++ ts) /\
  ca_interval_ms (add_trades a ts) = ca_interval_ms a.
Proof.
  intros Hi HF. revert a ts0 Hi. induction HF as [|t ts Ht HF IH]; intros a ts0 Hi HM; simpl.
  { by rewrite app_nil_r. }
  destruct (IH (CandleAggregator_add_trade a t).2 (ts0 ++ [t])) as [H1 H2]; [done| |].
  { by apply add_trade_match. }
  rewrite <- app_assoc in H1. done.
Qed.

(** ** Properties *)

(** C35. Feeding a fresh aggregator any sequence of trades, the candle it
    returns for a symbol at a time is the open, high, low, close and volume of
    exactly the trades of that symbol in that time's interval, in arrival
    order, and there is no candle when there is no such trade: distinct symbols
    and buckets never share a key. *)
Theorem candles_correct (interval_ms : Z) (a : CandleAggregator) (ts : list MarketTrade)
    (symbol : string) (event_time_ms : Z) :
  0 <= interval_ms < two64 -> CandleAggregator_new interval_ms = Ret a ->
  Forall (fun t => 0 <= mt_event_time_ms t < two64) ts -> 0 <= event_time_ms < two64 ->
  let bucket := event_time_ms - event_time_ms mod interval_ms in
  CandleAggregator_latest (add_trades a ts) symbol event_time_ms =
  reference_candle interval_ms symbol bucket (bucket_trades interval_ms symbol bucket ts).
Proof.
  intros Hi Hnew HF He bucket. unfold CandleAggregator_new in Hnew.
  destruct (Z.eqb_spec interval_ms 0); [discriminate|]. injection Hnew as <-.
  destruct (add_trades_match (mkCandleAggregator interval_ms ∅) [] ts ltac:(simpl; lia) HF) as [HM Hint].
  { intros s b _ _. done. }
  simpl in HM, Hint. unfold candles_match in HM. rewrite Hint in HM.
  unfold CandleAggregator_latest, bucket_open_time. rewrite Hint.
  pose proof (Z.div_mod event_time_ms interval_ms ltac:(lia)) as HD.
  pose proof (Z.mod_pos_bound event_time_ms interval_ms ltac:(lia)).
  pose proof (Z.div_pos event_time_ms interval_ms ltac:(lia) ltac:(lia)).
  assert (Hb : wrap_u64 (event_time_ms / interval_ms * interval_ms) = bucket).
  { subst bucket. unfold wrap_u64. rewrite Z.mod_small; lia. }
  rewrite Hb. apply HM; [subst bucket; lia|]. rewrite <- Hb.
  unfold wrap_u64. rewrite (Z.mod_small _ two64) by lia. apply Z.mod_mul. lia.
Qed.

Lemma candles_correct_witness :
  let t1 := mkMarketTrade "BTC" (dlit 100 0) (dlit 1 0) 1005 in
  let t2 := mkMarketTrade "BTC" (dlit 103 0) (dlit 2 0) 1999 in
  let t3 := mkMarketTrade "BTC" (dlit 101 0) (dlit 2 0) 2000 in
  CandleAggregator_latest (add_trades (mkCandleAggregator 1000 ∅) [t1; t2; t3]) "BTC" 1500 =
  Some (mkCandle "BTC" 1000 1999 (dlit 100 0) (dlit 103 0) (dlit 100 0) (dlit 103 0) (dlit 3 0)).
Proof.
  cbv zeta. rewrite (candles_correct 1000 (mkCandleAggregator 1000 ∅)).
  - vm_compute. reflexivity.
  - vm_compute. split; congruence.
  - reflexivity.
  - repeat constructor; vm_compute; congruence.
  - vm_compute. split; congruence.
Defined.

(** Two trades are filed under the same key only when they have the same
    symbol and the same bucket, whatever characters the symbols contain. *)
Fact candle_key_injective (symbol symbol' : string) (open_time open_time' : Z) :
  0 <= open_time -> 0 <= open_time' ->
  make_key symbol open_time = make_key symbol' open_time' ->
  symbol = symbol' /\ open_time = open_time'.
Proof. apply make_key_inj. Qed.

Lemma candle_key_injective_witness : "A" = "A" /\ 60 = 60.
Proof. apply (candle_key_injective "A" "A" 60 60); [lia|lia|reflexivity]. Defined.
