(* ===== verification/RateWindow.v ===== *)
(** * Sliding request windows

    The risk engine and the gateway limit requests the same way: a vector of
    request times per key, from which the times before [now - window] are removed
    and whose length is compared with a limit. This file holds the vector
    operation and the counting argument both share. *)

From S2P Require Import Prelude.

Local Open Scope Z_scope.

(** ** Model *)

(** [erase(remove_if(..., t < now - window_ms))]. The subtraction is evaluated
    once per element, so not at all for an empty vector. *)
Definition trim_window (window : list Z) (now window_ms : Z) : outcome (list Z) :=
  match window with
  | [] => Ret []
  | _ => cutoff ← sub_i64 now window_ms; Ret (List.filter (fun t => negb (t <? cutoff)) window)
  end.

(** ** The counting argument *)

(** The times in [[lo, hi]]. *)
Definition within (lo hi : Z) (l : list Z) : list Z :=
  List.filter (fun t => (lo <=? t) && (t <=? hi)) l.

(** The vector of a key: of all the times pushed, those no older than the last
    trim, at [last], left. *)
Definition window_of (window_ms : Z) (last : Z) (pushed : list Z) : list Z :=
  List.filter (fun t => last - window_ms <=? t) pushed.

Lemma filter_length_le {A} (f g : A -> bool) (l : list A) :
  (forall x, In x l -> f x = true -> g x = true) ->
  (length (List.filter f l) <= length (List.filter g l))%nat.
Proof.
  induction l as [|x l IH]; intros Hi; simpl; [done|].
  assert (IH' : (length (List.filter f l) <= length (List.filter g l))%nat)
    by (apply IH; intros y Hy; apply Hi; by right).
  specialize (Hi x (or_introl eq_refl)).
  destruct (f x); simpl; [rewrite Hi by done; simpl; lia|]. destruct (g x); simpl; lia.
Qed.

Lemma sublist_filter_mono {A} (f : A -> bool) (l k : list A) :
  sublist l k -> sublist (List.filter f l) (List.filter f k).
Proof.
  induction 1 as [|x l k Hs IH|x l k Hs IH]; simpl; [constructor| |]; destruct (f x); try done; by constructor.
Qed.

Lemma filter_filter_and {A} (f g : A -> bool) (l : list A) :
  List.filter f (List.filter g l) = List.filter (fun x => g x && f x) l.
Proof.
  induction l as [|x l IH]; simpl; [done|]. destruct (g x); simpl; [|done].
  destruct (f x); by rewrite IH.
Qed.

(** Trimming at a later time leaves what trimming at that time alone would. *)
Lemma trim_window_of (window_ms last now : Z) (pushed : list Z) :
  last <= now ->
  List.filter (fun t => negb (t <? now - window_ms)) (window_of window_ms last pushed) =
  window_of window_ms now pushed.
Proof.
  intros Hn. unfold window_of. rewrite filter_filter_and. apply List.filter_ext. intros t.
  destruct (Z.leb_spec (last - window_ms) t), (Z.ltb_spec t (now - window_ms)),
    (Z.leb_spec (now - window_ms) t); simpl; lia || done.
Qed.

(** The subtraction does not overflow, and the vector is filtered. *)
Lemma trim_window_ret (l : list Z) (now window_ms : Z) :
  - two63 <= now - window_ms < two63 ->
  trim_window l now window_ms = Ret (List.filter (fun t => negb (t <? now - window_ms)) l).
Proof. intros Hr. unfold trim_window, sub_i64. rewrite checked_i64_ret by done. by destruct l. Qed.

(** Pushing the current time. *)
Lemma window_of_push (window_ms now : Z) (pushed : list Z) : 0 <= window_ms ->
  window_of window_ms now pushed ++ [now] = window_of window_ms now (pushed ++ [now]).
Proof.
  intros Hw. unfold window_of. rewrite List.filter_app. simpl. by rewrite (proj2 (Z.leb_le _ _)) by lia.
Qed.

(** What a rate limit promises: no interval of the window's length contains more
    than [n] of the accepted times. *)
Definition limited (n window_ms : Z) (accepted : list Z) : Prop :=
  forall t, Z.of_nat (length (within (t - window_ms) t accepted)) <= n.

Lemma within_snoc (lo hi t : Z) (l : list Z) :
  within lo hi (l ++ [t]) = within lo hi l ++ (if (lo <=? t) && (t <=? hi) then [t] else []).
Proof. unfold within. rewrite List.filter_app. simpl. by destruct (_ && _). Qed.

(** Accepting a request when the trimmed vector, which contains all accepted
    times of the window, is shorter than the limit keeps the promise. *)
Lemma limited_accept (n window_ms now : Z) (pushed accepted : list Z) :
  0 <= n -> limited n window_ms accepted -> sublist accepted pushed ->
  Forall (fun t => t <= now) accepted ->
  Z.of_nat (length (window_of window_ms now pushed)) < n ->
  limited n window_ms (accepted ++ [now]).
Proof.
  intros Hn HL Hsub Hle Hlen t. rewrite within_snoc, length_app.
  destruct (Z.leb_spec (t - window_ms) now), (Z.leb_spec now t); simpl; try (specialize (HL t); lia).
  assert (length (within (t - window_ms) t accepted) <= length (window_of window_ms now pushed))%nat; [|lia].
  etransitivity; [|apply sublist_length; unfold window_of; apply sublist_filter_mono; exact Hsub].
  unfold within. apply filter_length_le. intros x _. rewrite andb_true_iff, !Z.leb_le. lia.
Qed.

(** The vector of a key as the requests go by: [pushed] are the times ever pushed,
    all up to [last], and [accepted] those of the requests accepted. *)
Record window_inv (window_ms n : Z) (window : list Z) (last : Z) (pushed accepted : list Z) : Prop := {
  wi_window : window = window_of window_ms last pushed;
  wi_last : Forall (fun t => t <= last) pushed;
  wi_sub : sublist accepted pushed;
  wi_limited : limited n window_ms accepted
}.

Section Window.
Context (window_ms n : Z) (Hw : 0 <= window_ms) (Hn : 0 <= n).

Lemma window_inv_new (last : Z) : window_inv window_ms n [] last [] [].
Proof using Hn. split; [done|constructor|constructor|by intros t]. Qed.

Lemma window_inv_trim (window : list Z) (last now : Z) (pushed accepted : list Z) :
  window_inv window_ms n window last pushed accepted -> last <= now ->
  window_inv window_ms n (List.filter (fun t => negb (t <? now - window_ms)) window) now pushed accepted.
Proof using Type.
  intros [-> L S Lim] Ht. split; [by apply trim_window_of| |done|done].
  eapply Forall_impl; [exact L|]. simpl. lia.
Qed.

Lemma window_inv_push (window : list Z) (now : Z) (pushed accepted : list Z) :
  window_inv window_ms n window now pushed accepted ->
  window_inv window_ms n (window ++ [now]) now (pushed ++ [now]) accepted.
Proof using Hw.
  intros [-> L S Lim]. split; [by apply window_of_push| |by apply sublist_inserts_r|done].
  apply Forall_app. split; [done|]. repeat constructor. lia.
Qed.

Lemma window_inv_accept (window : list Z) (now : Z) (pushed accepted : list Z) :
  window_inv window_ms n window now pushed accepted -> Z.of_nat (length window) < n ->
  window_inv window_ms n (window ++ [now]) now (pushed ++ [now]) (accepted ++ [now]).
Proof using Hw Hn.
  intros W Hlen. pose proof (window_inv_push window now pushed accepted W) as [W1 W2 _ _].
  destruct W as [-> L S Lim]. split; [done|done|by apply sublist_app|].
  apply (limited_accept _ _ _ pushed); try done.
  apply List.Forall_forall. intros x Hx. rewrite List.Forall_forall in L. apply L.
  apply list_elem_of_In. eapply elem_of_sublist; [by apply list_elem_of_In|done].
Qed.
End Window.

(** Parts of an ascending list of times. *)
Lemma sorted_app_r (l k : list Z) : StronglySorted Z.le (l ++ k) -> StronglySorted Z.le k.
Proof. induction l as [|x l IH]; simpl; [done|]. intros Hs. apply StronglySorted_inv in Hs as [Hs _]. auto. Qed.

Lemma sorted_app_le (l k : list Z) (t : Z) : StronglySorted Z.le (l ++ k) -> t ∈ l -> Forall (Z.le t) k.
Proof.
  induction l as [|x l IH]; simpl; [by intros _ ?%not_elem_of_nil|].
  intros [Hs Hx]%StronglySorted_inv [->|Ht]%elem_of_cons; [|by apply IH].
  by apply Forall_app in Hx as [_ Hx].
Qed.
