(* ===== verification/Outbox.v ===== *)
(** * Outbox store

    [infrastructure/distributed-consistency/outbox.hpp]: messages in append
    order, each pending or dispatched.  Every method holds the store's mutex,
    so a call is one atomic step. *)

From S2P Require Import Prelude.

Local Open Scope Z_scope.

(** ** Model *)

Inductive OutboxState := kPending | kDispatched.

#[export] Instance OutboxState_eq_dec : EqDecision OutboxState.
Proof. solve_decision. Defined.

Record OutboxMessage := mkOutboxMessage {
  ob_id : string;
  ob_topic : string;
  ob_payload : string;
  ob_state : OutboxState;
}.

(** The store is its vector of messages. *)
Abbreviation OutboxStore := (list OutboxMessage).

Definition is_pending (m : OutboxMessage) : bool := bool_decide (ob_state m = kPending).

Definition Outbox_append (s : OutboxStore) (m : OutboxMessage) : OutboxStore := s ++ [m].

(** The loop pushes a pending message, then compares the batch with the limit on
    every iteration, pushed or not. *)
Fixpoint pending_batch_loop (messages : list OutboxMessage) (max_items : Z)
    (batch : list OutboxMessage) : list OutboxMessage :=
  match messages with
  | [] => batch
  | m :: messages' =>
      let batch' := if is_pending m then batch ++ [m] else batch in
      if Z.of_nat (length batch') =? max_items then batch'
      else pending_batch_loop messages' max_items batch'
  end.

(** [batch.reserve(max_items)] is taken to succeed (memory is not modelled). *)
Definition Outbox_pending_batch (s : OutboxStore) (max_items : Z) : list OutboxMessage :=
  pending_batch_loop s max_items [].

Definition dispatched (m : OutboxMessage) : OutboxMessage :=
  mkOutboxMessage (ob_id m) (ob_topic m) (ob_payload m) kDispatched.

Fixpoint Outbox_mark_dispatched (s : OutboxStore) (message_id : string) : bool * OutboxStore :=
  match s with
  | [] => (false, [])
  | m :: s' =>
      if String.eqb (ob_id m) message_id then (true, dispatched m :: s')
      else let '(found, s'') := Outbox_mark_dispatched s' message_id in (found, m :: s'')
  end.

Fixpoint Outbox_pending_count (s : OutboxStore) : nat :=
  match s with
  | [] => 0
  | m :: s' => (if is_pending m then 1 else 0) + Outbox_pending_count s'
  end.

(** ** Specification and lemmas *)

(** What remains to be dispatched, oldest first. *)
Definition outbox_pending (s : OutboxStore) : list OutboxMessage := List.filter is_pending s.

Definition outbox_ids (s : OutboxStore) : list string := map ob_id s.

Lemma pending_batch_loop_take (s : OutboxStore) (k : Z) (batch : list OutboxMessage) :
  Z.of_nat (length batch) < k ->
  pending_batch_loop s k batch =
  batch ++ take (Z.to_nat (k - Z.of_nat (length batch))) (outbox_pending s).
Proof.
  revert batch. induction s as [|m s IH]; intros batch Hk; simpl.
  { by rewrite take_nil, app_nil_r. }
  destruct (is_pending m).
  - rewrite length_app. simpl length.
    destruct (Z.eqb_spec (Z.of_nat (length batch + 1)) k) as [He|He].
    + replace (Z.to_nat (k - Z.of_nat (length batch))) with 1%nat by lia. done.
    + rewrite IH by (rewrite length_app; simpl length; lia). rewrite length_app. simpl length.
      replace (Z.to_nat (k - Z.of_nat (length batch)))
        with (S (Z.to_nat (k - Z.of_nat (length batch + 1)))) by lia.
      by rewrite <- app_assoc.
  - rewrite (proj2 (Z.eqb_neq _ _)) by lia. by apply IH.
Qed.

Lemma mark_dispatched_absent (s : OutboxStore) (id : string) :
  ~ In id (outbox_ids s) -> Outbox_mark_dispatched s id = (false, s).
Proof.
  induction s as [|m s IH]; simpl; intros Hn; [done|].
  destruct (String.eqb_spec (ob_id m) id) as [He|He]; [by destruct Hn; left|].
  rewrite IH; [done|]. intros Hin. apply Hn. by right.
Qed.

Lemma mark_dispatched_ids (s : OutboxStore) (id : string) :
  outbox_ids (Outbox_mark_dispatched s id).2 = outbox_ids s.
Proof.
  induction s as [|m s IH]; simpl; [done|].
  destruct (String.eqb _ _); simpl; [done|].
  destruct (Outbox_mark_dispatched s id) as [f s'] eqn:Hs. simpl in *. by rewrite IH.
Qed.

Lemma pending_batch_topic (s : OutboxStore) (k : Z) (m : OutboxMessage) :
  0 < k -> In m (Outbox_pending_batch s k) -> In m s /\ ob_state m = kPending.
Proof.
  intros Hk. unfold Outbox_pending_batch. rewrite pending_batch_loop_take by (simpl; lia).
  simpl. intros Hm. apply list_elem_of_In, elem_of_take in Hm as (i & Hi & _).
  apply list_elem_of_lookup_2, list_elem_of_In in Hi. unfold outbox_pending in Hi.
  apply List.filter_In in Hi as [Hin Hp]. split; [done|].
  unfold is_pending in Hp. by apply bool_decide_eq_true in Hp.
Qed.

(** ** Properties *)

(** A batch of at least one message is the oldest pending messages, in
    append order and at most [max_items] of them; the pending count is the
    length of all of them. *)
Lemma outbox_batch_correct (s : OutboxStore) (max_items : Z) :
  0 < max_items ->
  Outbox_pending_batch s max_items = take (Z.to_nat max_items) (outbox_pending s) /\
  Outbox_pending_count s = length (outbox_pending s).
Proof.
  intros Hk. split.
  - unfold Outbox_pending_batch. rewrite pending_batch_loop_take by (simpl; lia).
    simpl. by rewrite Z.sub_0_r.
  - induction s as [|m s IH]; simpl; [done|]. rewrite IH. by destruct (is_pending m).
Qed.

Definition sample_outbox : OutboxStore :=
  [mkOutboxMessage "a" "t" "1" kDispatched; mkOutboxMessage "b" "t" "2" kPending;
   mkOutboxMessage "c" "t" "3" kPending].

Example outbox_batch_correct_sample :
  Outbox_pending_batch sample_outbox 1 = [mkOutboxMessage "b" "t" "2" kPending].
Proof. rewrite (proj1 (outbox_batch_correct sample_outbox 1 ltac:(lia))). reflexivity. Defined.

(** With distinct ids, marking a message dispatched succeeds exactly when
    the id is stored, removes that message and no other from what is pending,
    keeps every id in place, and repeating the call changes nothing more. *)
Lemma outbox_mark_dispatched_correct (s : OutboxStore) (id : string) :
  NoDup (outbox_ids s) ->
  let '(found, s') := Outbox_mark_dispatched s id in
  (found = true <-> In id (outbox_ids s)) /\
  outbox_ids s' = outbox_ids s /\
  outbox_pending s' = List.filter (fun m => negb (String.eqb (ob_id m) id)) (outbox_pending s) /\
  Outbox_mark_dispatched s' id = (found, s').
Proof.
  intros Hnd. pose proof (mark_dispatched_ids s id) as Hids.
  destruct (Outbox_mark_dispatched s id) as [found s'] eqn:Hs. simpl in Hids.
  revert found s' Hs Hids. unfold outbox_ids, outbox_pending in *.
  induction s as [|m s IH]; intros found s' Hs Hids; simpl in *.
  { simplify_eq. done. }
  apply NoDup_cons in Hnd as [Hm Hnd].
  destruct (String.eqb_spec (ob_id m) id) as [He|He]; simplify_eq/=.
  - split; [split; [by left|done]|]. split; [done|]. rewrite String.eqb_refl. split; [|done].
    assert (Hall : List.filter (fun x => negb (String.eqb (ob_id x) (ob_id m))) (List.filter is_pending s)
                   = List.filter is_pending s).
    { apply List.forallb_filter_id, List.forallb_forall. intros x Hx.
      apply List.filter_In in Hx as [Hx _]. apply negb_true_iff, String.eqb_neq. intros Hxm.
      apply Hm. rewrite <- Hxm. apply list_elem_of_In. by apply in_map. }
    destruct (is_pending m); simpl; [rewrite String.eqb_refl; simpl|]; by rewrite Hall.
  - destruct (Outbox_mark_dispatched s id) as [f s''] eqn:Hs'. simplify_eq/=.
    destruct (IH Hnd found s'' eq_refl Hids) as (H1 & H2 & H3 & H4).
    split; [rewrite H1; intuition congruence|]. split; [by rewrite H2|].
    apply String.eqb_neq in He. rewrite He, H4. split; [|done].
    destruct (is_pending m); simpl; [rewrite He; simpl; by rewrite H3|done].
Qed.

Example outbox_mark_dispatched_sample :
  outbox_pending (Outbox_mark_dispatched sample_outbox "b").2 = [mkOutboxMessage "c" "t" "3" kPending].
Proof.
  pose proof (outbox_mark_dispatched_correct sample_outbox "b") as H.
  destruct (Outbox_mark_dispatched sample_outbox "b") as [f s'] eqn:Hs.
  destruct H as (_ & _ & H & _); [|simpl; rewrite H; reflexivity].
  apply NoDup_ListNoDup. repeat constructor; simpl; intuition congruence.
Defined.

(** Asking for zero messages returns none only when the oldest message has
    already been dispatched; otherwise the limit is never met and every pending
    message is returned. *)
Fact outbox_batch_zero (s : OutboxStore) (m : OutboxMessage) :
  Outbox_pending_batch (m :: s) 0 = if is_pending m then outbox_pending (m :: s) else [].
Proof.
  unfold Outbox_pending_batch. simpl. destruct (is_pending m); [|done]. simpl.
  assert (H : forall batch, 0 < Z.of_nat (length batch) ->
    pending_batch_loop s 0 batch = batch ++ outbox_pending s); [|by apply (H [m])].
  clear m. induction s as [|m s IH]; intros batch Hb; simpl; [by rewrite app_nil_r|].
  destruct (is_pending m).
  - rewrite length_app, (proj2 (Z.eqb_neq _ _)) by lia.
    rewrite IH by (rewrite length_app; lia). by rewrite <- app_assoc.
  - rewrite (proj2 (Z.eqb_neq _ _)) by lia. by apply IH.
Qed.
