(* ===== verification/Saga.v ===== *)
(** * Saga coordinator

    [infrastructure/distributed-consistency/saga.hpp]: steps run in order until
    one does not succeed; then the steps that completed are compensated in
    reverse order.  Actions and compensations are the caller's functions on the
    context, so they are arguments of the model; an action that throws is not
    modelled. *)

From S2P Require Import Prelude.

(** ** Model *)

Inductive StepResult := kSuccess | kRetryableFailure | kPermanentFailure.

Record SagaContext := mkSagaContext {
  sc_attributes : gmap string string;
}.

Record SagaExecutionReport := mkSagaReport {
  sr_committed : bool;
  sr_completed_steps : list string;
  sr_compensated_steps : list string;
  sr_failed_step : option string;
}.

Record SagaStep := mkSagaStep {
  st_name : string;
  st_action : SagaContext -> StepResult * SagaContext;
  st_compensation : SagaContext -> SagaContext;
}.

Abbreviation SagaCoordinator := (list SagaStep).

Definition Saga_add_step (steps : SagaCoordinator) (name : string)
    (action : SagaContext -> StepResult * SagaContext)
    (compensation : SagaContext -> SagaContext) : SagaCoordinator :=
  steps ++ [mkSagaStep name action compensation].

(** [std::find_if] by name. *)
Fixpoint find_step (steps : list SagaStep) (name : string) : option SagaStep :=
  match steps with
  | [] => None
  | s :: steps' => if String.eqb (st_name s) name then Some s else find_step steps' name
  end.

(** The loop of [compensate], over the completed names from the last. *)
Fixpoint compensate_loop (steps : list SagaStep) (names : list string) (ctx : SagaContext)
    (compensated : list string) : list string * SagaContext :=
  match names with
  | [] => (compensated, ctx)
  | name :: names' =>
      match find_step steps name with
      | Some s => compensate_loop steps names' (st_compensation s ctx) (compensated ++ [st_name s])
      | None => compensate_loop steps names' ctx compensated
      end
  end.

Definition Saga_compensate (steps : SagaCoordinator) (ctx : SagaContext) (r : SagaExecutionReport)
    : SagaExecutionReport * SagaContext :=
  let '(compensated, ctx') :=
    compensate_loop steps (rev (sr_completed_steps r)) ctx (sr_compensated_steps r) in
  (mkSagaReport (sr_committed r) (sr_completed_steps r) compensated (sr_failed_step r), ctx').

(** The loop of [execute]: [todo] are the steps still to run of the
    coordinator [steps]. *)
Fixpoint execute_loop (steps todo : list SagaStep) (ctx : SagaContext) (r : SagaExecutionReport)
    : SagaExecutionReport * SagaContext :=
  match todo with
  | [] => (mkSagaReport true (sr_completed_steps r) (sr_compensated_steps r) (sr_failed_step r), ctx)
  | s :: todo' =>
      let '(result, ctx') := st_action s ctx in
      match result with
      | kSuccess =>
          execute_loop steps todo' ctx'
            (mkSagaReport (sr_committed r) (sr_completed_steps r ++ [st_name s])
               (sr_compensated_steps r) (sr_failed_step r))
      | _ =>
          Saga_compensate steps ctx'
            (mkSagaReport (sr_committed r) (sr_completed_steps r) (sr_compensated_steps r)
               (Some (st_name s)))
      end
  end.

Definition Saga_execute (steps : SagaCoordinator) (ctx : SagaContext)
    : SagaExecutionReport * SagaContext :=
  execute_loop steps steps ctx (mkSagaReport false [] [] None).

(** ** Specification *)

(** Running steps that all succeed. *)
Definition run_actions (steps : list SagaStep) (ctx : SagaContext) : SagaContext :=
  fold_left (fun c s => (st_action s c).2) steps ctx.

(** Every step succeeds when run in order from [ctx]. *)
Fixpoint all_succeed (steps : list SagaStep) (ctx : SagaContext) : Prop :=
  match steps with
  | [] => True
  | s :: steps' => (st_action s ctx).1 = kSuccess /\ all_succeed steps' (st_action s ctx).2
  end.

(** ** Lemmas *)

Lemma find_step_unique (steps : list SagaStep) (s : SagaStep) :
  NoDup (map st_name steps) -> In s steps -> find_step steps (st_name s) = Some s.
Proof.
  induction steps as [|t steps IH]; simpl; intros Hnd Hin; [done|].
  apply NoDup_cons in Hnd as [Ht Hnd]. destruct Hin as [->|Hin].
  - by rewrite String.eqb_refl.
  - destruct (String.eqb_spec (st_name t) (st_name s)) as [He|He]; [|by apply IH].
    destruct Ht. rewrite He. apply list_elem_of_In. by apply in_map.
Qed.

Lemma compensate_loop_names (steps done_ : list SagaStep) (ctx : SagaContext) (acc : list string) :
  NoDup (map st_name steps) -> (forall s, In s done_ -> In s steps) ->
  compensate_loop steps (map st_name done_) ctx acc =
  (acc ++ map st_name done_, fold_left (fun c s => st_compensation s c) done_ ctx).
Proof.
  intros Hnd. revert ctx acc. induction done_ as [|s done_ IH]; intros ctx acc Hin; simpl.
  { by rewrite app_nil_r. }
  rewrite (find_step_unique steps s) by (try done; apply Hin; by left).
  rewrite IH by (intros; apply Hin; by right). by rewrite <- app_assoc.
Qed.

(** The loop from any point: either the rest succeeds, or it stops at the first
    failing step and compensates. *)
Lemma execute_loop_split (steps todo : list SagaStep) (ctx : SagaContext) (r : SagaExecutionReport) :
  (all_succeed todo ctx /\
   execute_loop steps todo ctx r =
   (mkSagaReport true (sr_completed_steps r ++ map st_name todo) (sr_compensated_steps r)
      (sr_failed_step r), run_actions todo ctx)) \/
  (exists ran s rest, todo = ran ++ s :: rest /\ all_succeed ran ctx /\
   (st_action s (run_actions ran ctx)).1 <> kSuccess /\
   execute_loop steps todo ctx r =
   Saga_compensate steps (st_action s (run_actions ran ctx)).2
     (mkSagaReport (sr_committed r) (sr_completed_steps r ++ map st_name ran)
        (sr_compensated_steps r) (Some (st_name s)))).
Proof.
  revert ctx r. induction todo as [|s todo IH]; intros ctx r; simpl.
  { left. split; [done|]. by rewrite app_nil_r. }
  destruct (st_action s ctx) as [result ctx'] eqn:Ha.
  assert (Hfail : result <> kSuccess ->
    exists ran s0 rest, s :: todo = ran ++ s0 :: rest /\ all_succeed ran ctx /\
      (st_action s0 (run_actions ran ctx)).1 <> kSuccess /\
      Saga_compensate steps ctx' (mkSagaReport (sr_committed r) (sr_completed_steps r)
        (sr_compensated_steps r) (Some (st_name s))) =
      Saga_compensate steps (st_action s0 (run_actions ran ctx)).2
        (mkSagaReport (sr_committed r) (sr_completed_steps r ++ map st_name ran)
          (sr_compensated_steps r) (Some (st_name s0)))).
  { intros Hr. exists [], s, todo. simpl. by rewrite Ha, app_nil_r. }
  destruct result; [|right; by apply Hfail|right; by apply Hfail].
  destruct (IH ctx' (mkSagaReport (sr_committed r) (sr_completed_steps r ++ [st_name s])
     (sr_compensated_steps r) (sr_failed_step r))) as [(HA & HE)|(ran & s0 & rest & -> & HA & Hr & HE)].
  - left. split; [done|]. simpl in *. rewrite HE, <- app_assoc. unfold run_actions. simpl. by rewrite ?Ha.
  - right. exists (s :: ran), s0, rest. simpl. unfold run_actions in *. simpl.
    rewrite ?Ha. simpl in *. rewrite <- app_assoc in HE. by split_and!.
Qed.

(** ** Properties *)

(** With distinct step names, executing a saga either runs every step and
    commits, or stops at the first step that does not succeed, reports it,
    reports the steps before it as completed, and compensates exactly those, in
    reverse order, starting from the context the failing action left. *)
Lemma saga_execute_correct (steps : SagaCoordinator) (ctx : SagaContext) :
  NoDup (map st_name steps) ->
  (all_succeed steps ctx /\
   Saga_execute steps ctx = (mkSagaReport true (map st_name steps) [] None, run_actions steps ctx)) \/
  (exists ran s rest, steps = ran ++ s :: rest /\ all_succeed ran ctx /\
   (st_action s (run_actions ran ctx)).1 <> kSuccess /\
   Saga_execute steps ctx =
   (mkSagaReport false (map st_name ran) (rev (map st_name ran)) (Some (st_name s)),
    fold_left (fun c s => st_compensation s c) (rev ran) (st_action s (run_actions ran ctx)).2)).
Proof.
  intros Hnd. unfold Saga_execute.
  destruct (execute_loop_split steps steps ctx (mkSagaReport false [] [] None))
    as [(HA & ->)|(ran & s & rest & Hsteps & HA & Hr & ->)]; [by left|right].
  exists ran, s, rest. split_and!; try done. unfold Saga_compensate. simpl.
  rewrite <- map_rev, compensate_loop_names; [done|done|].
  intros t Ht. apply in_rev in Ht. rewrite Hsteps. apply in_or_app. by left.
Qed.

Definition set_attr (k v : string) (c : SagaContext) : SagaContext :=
  mkSagaContext (<[k := v]> (sc_attributes c)).

Definition sample_saga : SagaCoordinator :=
  [mkSagaStep "reserve" (fun c => (kSuccess, set_attr "r" "1" c)) (set_attr "r" "0");
   mkSagaStep "charge" (fun c => (kPermanentFailure, c)) (set_attr "c" "0")].

Example saga_execute_correct_sample :
  (Saga_execute sample_saga (mkSagaContext ∅)).1 =
  mkSagaReport false ["reserve"] ["reserve"] (Some "charge").
Proof.
  destruct (saga_execute_correct sample_saga (mkSagaContext ∅)) as [(HA & _)|H].
  - apply NoDup_ListNoDup. repeat constructor; simpl; intuition congruence.
  - exfalso. simpl in HA. destruct HA as (_ & HA & _). discriminate HA.
  - destruct H as ([|s1 [|s2 ran]] & s & rest & Hs & HA & Hr & ->).
    + simpl in Hs. injection Hs as <- _. exfalso. by apply Hr.
    + simpl in Hs. injection Hs as <- <- _. reflexivity.
    + exfalso. simpl in Hs. injection Hs as _ _ Hs. by destruct ran.
Defined.

(** C34. When step names are distinct, each compensation undoes its own action
    and a failing action leaves the context as it found it, a saga that does
    not commit leaves the context exactly as it was. *)
Theorem saga_rollback (steps : SagaCoordinator) (ctx : SagaContext) :
  NoDup (map st_name steps) ->
  (forall s c, In s steps -> (st_action s c).1 = kSuccess -> st_compensation s (st_action s c).2 = c) ->
  (forall s c, In s steps -> (st_action s c).1 <> kSuccess -> (st_action s c).2 = c) ->
  sr_committed (Saga_execute steps ctx).1 = false ->
  (Saga_execute steps ctx).2 = ctx.
Proof.
  intros Hnd Hundo Hfail Hc.
  destruct (execute_loop_split steps steps ctx (mkSagaReport false [] [] None))
    as [(_ & HE)|(ran & s & rest & Hsteps & HA & Hr & HE)]; unfold Saga_execute in *; rewrite HE in *.
  { discriminate Hc. }
  unfold Saga_compensate. simpl. rewrite <- map_rev, compensate_loop_names; [simpl|done|].
  2: { intros t Ht. apply in_rev in Ht. rewrite Hsteps. apply in_or_app. by left. }
  rewrite (Hfail s) by (try done; rewrite Hsteps; apply in_or_app; right; by left).
  assert (Hin : forall t, In t ran -> In t steps)
    by (intros t Ht; rewrite Hsteps; apply in_or_app; by left).
  clear -HA Hin Hundo. revert ctx HA. induction ran as [|t ran IH]; intros ctx HA; simpl; [done|].
  destruct HA as [Ht HA]. rewrite fold_left_app. simpl.
  rewrite (IH (fun x Hx => Hin x (or_intror Hx)) (st_action t ctx).2 HA).
  apply Hundo; [apply Hin; by left|done].
Qed.

Lemma saga_rollback_witness :
  let undo := fun c : SagaContext => mkSagaContext (delete "r" (sc_attributes c)) in
  let act := fun c : SagaContext =>
    match sc_attributes c !! "r" with
    | None => (kSuccess, set_attr "r" "1" c)
    | Some _ => (kPermanentFailure, c)
    end in
  let steps := [mkSagaStep "a" act undo; mkSagaStep "b" act undo] in
  (Saga_execute steps (mkSagaContext ∅)).2 = mkSagaContext ∅.
Proof.
  cbv zeta. apply saga_rollback.
  - apply NoDup_ListNoDup. repeat constructor; simpl; intuition congruence.
  - intros s [c]. simpl. intros [<-|[<-|[]]]; simpl;
      (destruct (c !! "r") eqn:Hc; simpl; [discriminate|]); intros _;
      by rewrite delete_insert_id.
  - intros s [c]. simpl. intros [<-|[<-|[]]]; simpl; by destruct (c !! "r").
  - vm_compute. reflexivity.
Defined.

(** Compensation looks a completed step up by name, so when two completed
    steps share a name the first one is compensated twice and the second never. *)
Fact saga_duplicate_names (name : string) (a1 a2 f : SagaContext -> SagaContext)
    (c1 c2 c3 : SagaContext -> SagaContext) (other : string) (ctx : SagaContext) :
  other <> name ->
  let steps := [mkSagaStep name (fun c => (kSuccess, a1 c)) c1;
                mkSagaStep name (fun c => (kSuccess, a2 c)) c2;
                mkSagaStep other (fun c => (kPermanentFailure, f c)) c3] in
  Saga_execute steps ctx =
  (mkSagaReport false [name; name] [name; name] (Some other), c1 (c1 (f (a2 (a1 ctx))))).
Proof.
  intros Hne steps. unfold Saga_execute, steps. simpl. unfold Saga_compensate. simpl.
  rewrite String.eqb_refl. done.
Qed.

Lemma saga_duplicate_names_witness :
  sc_attributes (Saga_execute
    [mkSagaStep "x" (fun c => (kSuccess, set_attr "1" "on" c)) (set_attr "1" "off");
     mkSagaStep "x" (fun c => (kSuccess, set_attr "2" "on" c)) (set_attr "2" "off");
     mkSagaStep "y" (fun c => (kPermanentFailure, c)) (set_attr "3" "off")] (mkSagaContext ∅)).2 !! "2"
  = Some "on".
Proof.
  rewrite (saga_duplicate_names "x" (set_attr "1" "on") (set_attr "2" "on") (fun c => c)
    (set_attr "1" "off") (set_attr "2" "off") (set_attr "3" "off") "y"); [|discriminate].
  vm_compute. reflexivity.
Defined.
