(* ===== verification/TccWallet.v ===== *)
(** * TCC wallet

    [infrastructure/distributed-consistency/tcc_wallet.hpp]: a balance is
    reserved (try), then committed (confirm) or returned (cancel).  Each
    reservation is a small state machine; the three calls are idempotent.
    Every method holds the wallet's mutex, so a call is one atomic step. *)

From S2P Require Import Prelude Double.

Local Open Scope Z_scope.

(** ** Model *)

Inductive ReservationState := kReserved | kConfirmed | kCancelled.

#[export] Instance ReservationState_eq_dec : EqDecision ReservationState.
Proof. solve_decision. Defined.

Record ReservationRecord := mkReservation {
  rr_reservation_id : string;
  rr_amount : double;
  rr_state : ReservationState;
}.

Record TccWallet := mkTccWallet {
  tw_available : double;
  tw_reserved : double;
  tw_committed : double;
  tw_reservations : gmap string ReservationRecord;
}.

Definition TccWallet_new (balance : double) : TccWallet := mkTccWallet balance dzero dzero ∅.

Definition TccWallet_try_reserve (w : TccWallet) (id : string) (amount : double) : bool * TccWallet :=
  match tw_reservations w !! id with
  | Some r => (bool_decide (rr_state r = kReserved) && deq (rr_amount r) amount, w)
  | None =>
      if dle amount dzero || dgt amount (tw_available w) then (false, w)
      else
        (true,
         mkTccWallet (dsub (tw_available w) amount) (dadd (tw_reserved w) amount) (tw_committed w)
           (<[id := mkReservation id amount kReserved]> (tw_reservations w)))
  end.

Definition with_state (r : ReservationRecord) (s : ReservationState) : ReservationRecord :=
  mkReservation (rr_reservation_id r) (rr_amount r) s.

Definition TccWallet_confirm (w : TccWallet) (id : string) : bool * TccWallet :=
  match tw_reservations w !! id with
  | None => (false, w)
  | Some r =>
      if bool_decide (rr_state r = kConfirmed) then (true, w)
      else if negb (bool_decide (rr_state r = kReserved)) then (false, w)
      else
        (true,
         mkTccWallet (tw_available w) (dsub (tw_reserved w) (rr_amount r))
           (dadd (tw_committed w) (rr_amount r))
           (<[id := with_state r kConfirmed]> (tw_reservations w)))
  end.

Definition TccWallet_cancel (w : TccWallet) (id : string) : bool * TccWallet :=
  match tw_reservations w !! id with
  | None => (false, w)
  | Some r =>
      if bool_decide (rr_state r = kCancelled) then (true, w)
      else if negb (bool_decide (rr_state r = kReserved)) then (false, w)
      else
        (true,
         mkTccWallet (dadd (tw_available w) (rr_amount r)) (dsub (tw_reserved w) (rr_amount r))
           (tw_committed w)
           (<[id := with_state r kCancelled]> (tw_reservations w)))
  end.

Definition TccWallet_lookup (w : TccWallet) (id : string) : option ReservationRecord :=
  tw_reservations w !! id.

(** The three operations, as the calls of a client. *)
Inductive tcc_op :=
| TccTry (id : string) (amount : double)
| TccConfirm (id : string)
| TccCancel (id : string).

Definition tcc_step (w : TccWallet) (op : tcc_op) : bool * TccWallet :=
  match op with
  | TccTry id amount => TccWallet_try_reserve w id amount
  | TccConfirm id => TccWallet_confirm w id
  | TccCancel id => TccWallet_cancel w id
  end.

Definition tcc_run (w : TccWallet) (ops : list tcc_op) : TccWallet :=
  fold_left (fun w op => (tcc_step w op).2) ops w.

(** ** Specification *)





(** ** Lemmas *)


Section Invariant.
Context (k balance : Z) (Hk : 0 <= k <= 2044) (Hbal : 0 <= balance <= 2 ^ 53 * 2 ^ k).







End Invariant.

(** ** Properties *)



(** Reservations form a state machine with two final states: no call ever
    removes a reservation or changes its amount, a confirmed or cancelled one is
    never changed again, and repeating the call that settled it succeeds and
    changes nothing. *)
Lemma tcc_settled_final (w : TccWallet) (op : tcc_op) (id : string) (r : ReservationRecord) :
  tw_reservations w !! id = Some r ->
  exists r', tw_reservations (tcc_step w op).2 !! id = Some r' /\ rr_amount r' = rr_amount r /\
    (rr_state r <> kReserved -> r' = r) /\
    (rr_state r = kConfirmed -> TccWallet_confirm w id = (true, w) /\ TccWallet_cancel w id = (false, w)) /\
    (rr_state r = kCancelled -> TccWallet_cancel w id = (true, w) /\ TccWallet_confirm w id = (false, w)).
Proof.
  intros Hr.
  assert (Hfinal :
    (rr_state r = kConfirmed -> TccWallet_confirm w id = (true, w) /\ TccWallet_cancel w id = (false, w)) /\
    (rr_state r = kCancelled -> TccWallet_cancel w id = (true, w) /\ TccWallet_confirm w id = (false, w))).
  { unfold TccWallet_confirm, TccWallet_cancel. rewrite Hr. by split; intros ->. }
  assert (Hkeep : forall s, rr_state r = kReserved ->
    rr_amount (with_state r s) = rr_amount r /\ (rr_state r <> kReserved -> with_state r s = r))
    by (intros s Hst; split; [done|intros Hn; by destruct Hn]).
  destruct op as [id' amount|id'|id']; simpl.
  - exists r. split; [|by destruct Hfinal]. unfold TccWallet_try_reserve.
    destruct (tw_reservations w !! id') eqn:Hr'; [done|]. case_match; [done|]. simpl.
    rewrite lookup_insert_ne; [done|]. intros ->. by rewrite Hr in Hr'.
  - unfold TccWallet_confirm. destruct (tw_reservations w !! id') as [r0|] eqn:Hr'; [|exists r; by destruct Hfinal].
    case_bool_decide; [exists r; by destruct Hfinal|]. case_bool_decide as Hst; simpl; [|exists r; by destruct Hfinal].
    destruct (decide (id' = id)) as [->|]; [|rewrite lookup_insert_ne by done; exists r; by destruct Hfinal].
    rewrite lookup_insert_eq. rewrite Hr in Hr'. injection Hr' as <-. eexists. split; [done|].
    destruct (Hkeep kConfirmed Hst). by destruct Hfinal.
  - unfold TccWallet_cancel. destruct (tw_reservations w !! id') as [r0|] eqn:Hr'; [|exists r; by destruct Hfinal].
    case_bool_decide; [exists r; by destruct Hfinal|]. case_bool_decide as Hst; simpl; [|exists r; by destruct Hfinal].
    destruct (decide (id' = id)) as [->|]; [|rewrite lookup_insert_ne by done; exists r; by destruct Hfinal].
    rewrite lookup_insert_eq. rewrite Hr in Hr'. injection Hr' as <-. eexists. split; [done|].
    destruct (Hkeep kCancelled Hst). by destruct Hfinal.
Qed.

Example tcc_settled_final_sample :
  let w := tcc_run (TccWallet_new (dlit 100 0)) [TccTry "a" (dlit 30 0); TccConfirm "a"] in
  exists r', tw_reservations (tcc_step w (TccCancel "a")).2 !! "a" = Some r' /\ rr_state r' = kConfirmed.
Proof.
  set (w := tcc_run _ _).
  destruct (tcc_settled_final w (TccCancel "a") "a" (mkReservation "a" (dlit 30 0) kConfirmed))
    as (r' & H1 & _ & H2 & _).
  - vm_compute. reflexivity.
  - exists r'. split; [exact H1|]. rewrite H2; [reflexivity|discriminate].
Defined.

(** Off a common grid the balances drift: reserving 1e16 and 1 out of 2e16
    and cancelling both in that order leaves the reserved balance at -1. *)
Fact tcc_rounding_drift :
  let w := tcc_run (TccWallet_new (double_of_Z (2 * 10 ^ 16)))
    [TccTry "a" (double_of_Z (10 ^ 16)); TccTry "b" (double_of_Z 1); TccCancel "a"; TccCancel "b"] in
  tw_reserved w = double_of_Z (-1).
Proof. vm_compute. reflexivity. Qed.
