(* ===== verification/Queue.v ===== *)
(** * The queue facade ([queue_facade.hpp])

    [QueueFacade<Derived, T>] adds [drain] to whatever queue derives from it.
    The class [QueueOps] is the interface a derived queue provides (the
    [*_impl] members), [QueueLaws] what it promises: its state represents a
    bounded list of the elements in FIFO order. [MeteredQueueLaws] promises the
    same for a limited number of calls. [drain] and the runs of calls are defined
    and proved once, against the weaker interface. *)

From S2P Require Import Prelude.

Local Open Scope Z_scope.

(** The members a derived queue supplies. Results come with the new state;
    [Undef] marks an access outside the storage. *)
Class QueueOps (Q T : Type) := {
  push_impl : Q -> T -> outcome (bool * Q);
  try_pop_impl : Q -> outcome (option T * Q);
  size_approx_impl : Q -> Z;
  empty_impl : Q -> bool
}.

(** [represents q l]: the elements of [q], the oldest first; [room q] is how
    many elements it can hold. *)
Class QueueLaws (Q T : Type) `{QueueOps Q T} := {
  represents : Q -> list T -> Prop;
  room : Q -> Z;
  push_room : forall q l v, represents q l -> Z.of_nat (length l) < room q ->
    exists q', push_impl q v = Ret (true, q') /\ represents q' (l ++ [v]) /\ room q' = room q;
  push_full : forall q l v, represents q l -> room q <= Z.of_nat (length l) ->
    push_impl q v = Ret (false, q);
  pop_empty : forall q, represents q [] -> try_pop_impl q = Ret (None, q);
  pop_front : forall q v l, represents q (v :: l) ->
    exists q', try_pop_impl q = Ret (Some v, q') /\ represents q' l /\ room q' = room q;
  size_represents : forall q l, represents q l -> size_approx_impl q = Z.of_nat (length l);
  empty_represents : forall q l, represents q l -> empty_impl q = bool_decide (l = [])
}.

(** What a queue promises that a client may call a limited number of times: a call
    uses one unit of the credit, and may change the state without changing the list.
    A queue with the laws above needs no credit. *)
Class MeteredQueueLaws (Q T : Type) `{QueueOps Q T} := {
  metered : nat -> Q -> list T -> Prop;
  metered_room : Q -> Z;
  metered_push : forall n q l v, metered (S n) q l -> Z.of_nat (length l) < metered_room q ->
    exists q', push_impl q v = Ret (true, q') /\ metered n q' (l ++ [v]) /\ metered_room q' = metered_room q;
  metered_full : forall n q l v, metered (S n) q l -> metered_room q <= Z.of_nat (length l) ->
    exists q', push_impl q v = Ret (false, q') /\ metered n q' l /\ metered_room q' = metered_room q;
  metered_pop : forall n q l, metered (S n) q l ->
    exists q', try_pop_impl q = Ret (head l, q') /\ metered n q' (tail l) /\ metered_room q' = metered_room q;
  metered_size : forall n q l, metered n q l -> size_approx_impl q = Z.of_nat (length l);
  metered_empty : forall n q l, metered n q l -> empty_impl q = bool_decide (l = []);
  metered_less : forall n m q l, metered n q l -> (m <= n)%nat -> metered m q l
}.

#[export, refine] Instance laws_metered {Q T : Type} `{QueueLaws Q T} : MeteredQueueLaws Q T := {
  metered _ q l := represents q l;
  metered_room := room
}.
Proof.
  - intros _ q l v. apply push_room.
  - intros _ q l v R Hl. exists q. split; [by apply (push_full q l)|done].
  - intros _ q [|v l] R; [exists q; split; [by apply pop_empty|done]|]. by apply pop_front.
  - intros _. apply size_represents.
  - intros _. apply empty_represents.
  - done.
Defined.

Section Drain.
Context {Q T : Type} `{QueueOps Q T}.

(** [while (drained < max_items)]: the output iterator is the list of the items
    written, in order. [None] when the fuel runs out. *)
Fixpoint drain_loop (fuel : nat) (q : Q) (max_items drained : Z) (output : list T)
    : option (outcome (Z * list T * Q)) :=
  match fuel with
  | O => None
  | S fuel =>
    if drained <? max_items
    then match try_pop_impl q with
         | Ret (Some item, q') => drain_loop fuel q' max_items (drained + 1) (output ++ [item])
         | Ret (None, q') => Some (Ret (drained, output, q'))
         | Throw e => Some (Throw e)
         | Undef w => Some (Undef w)
         end
    else Some (Ret (drained, output, q))
  end.

Definition QueueFacade_drain (fuel : nat) (q : Q) (max_items : Z)
    : option (outcome (Z * list T * Q)) :=
  drain_loop fuel q max_items 0 [].

Context `{!MeteredQueueLaws Q T}.

(** Draining uses one unit for each item and one for the pop that finds nothing. *)
Lemma drain_loop_spec (l : list T) : forall fuel k q max_items drained output,
  metered (k + S (length l)) q l -> (length l < fuel)%nat -> 0 <= drained ->
  exists q',
    let n := Z.to_nat (max_items - drained) in
    drain_loop fuel q max_items drained output =
      Some (Ret (drained + Z.of_nat (length (take n l)), output ++ take n l, q')) /\
    metered (k + length (drop n l)) q' (drop n l) /\ metered_room q' = metered_room q.
Proof using Type*.
  induction l as [|v l IH]; intros fuel k q max_items drained output Hr Hf Hd;
    (destruct fuel as [|fuel]; [simpl in Hf; lia|]); simpl; (destruct (Z.ltb_spec drained max_items) as [Hlt|Hge]).
  2, 4: exists q; replace (Z.to_nat (max_items - drained)) with O by lia; simpl; rewrite app_nil_r, Z.add_0_r;
    (split_and!; [done| |done]); apply (metered_less _ _ _ _ Hr); simpl; lia.
  - rewrite Nat.add_1_r in Hr. destruct (metered_pop k q [] Hr) as (q' & -> & Hr' & Hroom). exists q'.
    rewrite take_nil, drop_nil, app_nil_r. simpl. rewrite Z.add_0_r, Nat.add_0_r. done.
  - rewrite <- plus_n_Sm in Hr. destruct (metered_pop _ q (v :: l) Hr) as (q1 & -> & Hr1 & Hroom). simpl in Hr1.
    destruct (IH fuel k q1 max_items (drained + 1) (output ++ [v]) Hr1 ltac:(simpl in Hf; lia) ltac:(lia))
      as (q2 & E & Hr2 & Hroom2).
    exists q2. simpl in E. cbn [head hd_error]. rewrite E.
    replace (Z.to_nat (max_items - drained)) with (S (Z.to_nat (max_items - (drained + 1)))) by lia.
    simpl. rewrite <- app_assoc. split_and!; [|done|congruence]. do 3 f_equal. f_equal. lia.
Qed.
End Drain.

(** ** Runs of calls

    The calls a client makes and what they return, executed on a queue and on
    the specification: a list that holds at most [capacity] elements. *)
Section Runs.
Context {Q T : Type} `{QueueOps Q T}.

Inductive queue_call :=
| CallPush (v : T)
| CallPop
| CallSize
| CallDrain (max_items : Z).

Inductive queue_return :=
| RetPush (accepted : bool)
| RetPop (item : option T)
| RetSize (size : Z) (empty : bool)
| RetDrain (drained : Z) (items : list T).

(** Draining cannot take more steps than there are elements, plus the last
    unsuccessful one. *)
Definition drain_fuel (q : Q) : nat := S (Z.to_nat (size_approx_impl q)).

Definition queue_exec (q : Q) (c : queue_call) : outcome (queue_return * Q) :=
  match c with
  | CallPush v => r ← push_impl q v; Ret (RetPush r.1, r.2)
  | CallPop => r ← try_pop_impl q; Ret (RetPop r.1, r.2)
  | CallSize => Ret (RetSize (size_approx_impl q) (empty_impl q), q)
  | CallDrain max_items =>
    match QueueFacade_drain (drain_fuel q) q max_items with
    | Some m => r ← m; Ret (RetDrain r.1.1 r.1.2, r.2)
    | None => Undef "drain does not end"
    end
  end.

Fixpoint queue_run (q : Q) (cs : list queue_call) : outcome (list queue_return * Q) :=
  match cs with
  | [] => Ret ([], q)
  | c :: cs =>
    r ← queue_exec q c;
    rs ← queue_run r.2 cs;
    Ret (r.1 :: rs.1, rs.2)
  end.

Definition fifo_exec (capacity : Z) (l : list T) (c : queue_call) : queue_return * list T :=
  match c with
  | CallPush v =>
    if Z.of_nat (length l) <? capacity then (RetPush true, l ++ [v]) else (RetPush false, l)
  | CallPop => (RetPop (head l), tail l)
  | CallSize => (RetSize (Z.of_nat (length l)) (bool_decide (l = [])), l)
  | CallDrain max_items =>
    let n := Z.to_nat max_items in
    (RetDrain (Z.of_nat (length (take n l))) (take n l), drop n l)
  end.

Fixpoint fifo_run (capacity : Z) (l : list T) (cs : list queue_call)
    : list queue_return * list T :=
  match cs with
  | [] => ([], l)
  | c :: cs =>
    let '(r, l) := fifo_exec capacity l c in
    let '(rs, l) := fifo_run capacity l cs in
    (r :: rs, l)
  end.

Context `{!MeteredQueueLaws Q T}.

(** A call uses at most two units on top of the items it takes out. *)
Lemma queue_exec_refines (k : nat) (q : Q) (l : list T) (c : queue_call) : metered (k + length l + 2) q l ->
  let l' := (fifo_exec (metered_room q) l c).2 in
  exists q', queue_exec q c = Ret ((fifo_exec (metered_room q) l c).1, q') /\
    metered (k + length l') q' l' /\ metered_room q' = metered_room q.
Proof using Type*.
  intros Hr. assert (Hr1 : metered (S (k + length l + 1)) q l) by (apply (metered_less _ _ _ _ Hr); lia).
  destruct c as [v| | |n]; simpl.
  - destruct (Z.ltb_spec (Z.of_nat (length l)) (metered_room q)) as [Hlt|Hge].
    + destruct (metered_push _ q l v Hr1 Hlt) as (q' & -> & Hr' & ?). exists q'. simpl.
      rewrite length_app, Nat.add_assoc. eauto.
    + destruct (metered_full _ q l v Hr1 Hge) as (q' & -> & Hr' & ?). exists q'. simpl. split_and!; [done| |done].
      apply (metered_less _ _ _ _ Hr'). lia.
  - destruct (metered_pop _ q l Hr1) as (q' & -> & Hr' & ?). exists q'. split_and!; [done| |done].
    apply (metered_less _ _ _ _ Hr'). destruct l; simpl; lia.
  - rewrite (metered_size _ q l Hr), (metered_empty _ q l Hr). exists q. split_and!; [done| |done].
    apply (metered_less _ _ _ _ Hr). lia.
  - unfold QueueFacade_drain, drain_fuel. rewrite (metered_size _ q l Hr).
    destruct (drain_loop_spec l (S (Z.to_nat (Z.of_nat (length l)))) k q n 0 []) as (q' & E & Hr' & Hroom); [|lia..|].
    { apply (metered_less _ _ _ _ Hr). lia. }
    rewrite Z.sub_0_r in E, Hr'. rewrite E. exists q'. by rewrite bind_ret.
Qed.

Lemma queue_run_refines (cs : list queue_call) : forall k q l, metered (k + length l + 2 * length cs) q l ->
  exists q', queue_run q cs = Ret ((fifo_run (metered_room q) l cs).1, q') /\
    metered k q' (fifo_run (metered_room q) l cs).2.
Proof using Type*.
  induction cs as [|c cs IH]; intros k q l Hr; simpl.
  { exists q. split; [done|]. apply (metered_less _ _ _ _ Hr). lia. }
  destruct (queue_exec_refines (k + 2 * length cs) q l c) as (q1 & -> & Hr1 & Hroom).
  { apply (metered_less _ _ _ _ Hr). simpl. lia. }
  destruct (fifo_exec (metered_room q) l c) as [r l1]. simpl in *.
  destruct (IH k q1 l1) as (q2 & E & Hr2); [apply (metered_less _ _ _ _ Hr1); lia|].
  rewrite Hroom in E, Hr2. rewrite E. simpl. destruct (fifo_run (metered_room q) l1 cs). eauto.
Qed.
End Runs.
Arguments queue_call T : clear implicits.
Arguments queue_return T : clear implicits.
