(* ===== verification/Spsc.v ===== *)
(** * The single-producer single-consumer ring ([spsc_ring_queue.hpp])

    The counters [head_] and [tail_] are 64-bit and wrap; a slot is found by
    masking, which is sound because the capacity is a power of two. The first
    part models the members as they run alone and shows that they implement a
    bounded FIFO ([QueueLaws]); the section [Concurrent] models one producer and
    one consumer whose atomic accesses interleave. *)

From S2P Require Import Prelude Queue.

Local Open Scope Z_scope.

Record SpscRingQueue (T : Type) := mkSpsc {
  sq_capacity : Z;
  sq_mask : Z;
  sq_buffer : list (option T);
  sq_head : Z;
  sq_tail : Z
}.
Arguments mkSpsc {T}.
Arguments sq_capacity {T}.
Arguments sq_mask {T}.
Arguments sq_buffer {T}.
Arguments sq_head {T}.
Arguments sq_tail {T}.

(** [std::bit_ceil]: the smallest power of two not below a positive argument,
    undefined when it does not fit the type. *)
Definition bit_ceil (x : Z) : outcome Z :=
  if x <=? two63 then Ret (2 ^ Z.log2_up x) else Undef "bit_ceil out of range".

Definition normalize_capacity (requested_capacity : Z) : outcome Z :=
  if requested_capacity <? 2
  then Throw "SpscRingQueue capacity must be at least 2"
  else bit_ceil requested_capacity.

Section Operations.
Context {T : Type}.

(** Memory for the slots is taken to be available, up to the capacity 2^63. *)
Definition Spsc_new (requested_capacity : Z) : outcome (SpscRingQueue T) :=
  capacity ← normalize_capacity requested_capacity;
  Ret (mkSpsc capacity (capacity - 1) (replicate (Z.to_nat capacity) None) 0 0).

(** [buffer_[counter & mask_]]: an index past the end is undefined. *)
Definition slot_index (mask counter : Z) : nat := Z.to_nat (Z.land counter mask).

Definition read_slot (q : SpscRingQueue T) (counter : Z) : outcome (option T) :=
  deref (sq_buffer q !! slot_index (sq_mask q) counter) "buffer index out of range".

Definition write_slot (q : SpscRingQueue T) (counter : Z) (v : option T)
    : outcome (SpscRingQueue T) :=
  let i := slot_index (sq_mask q) counter in
  if bool_decide (i < length (sq_buffer q))%nat
  then Ret (mkSpsc (sq_capacity q) (sq_mask q) (<[i := v]> (sq_buffer q)) (sq_head q) (sq_tail q))
  else Undef "buffer index out of range".

Definition set_head (q : SpscRingQueue T) (h : Z) : SpscRingQueue T :=
  mkSpsc (sq_capacity q) (sq_mask q) (sq_buffer q) h (sq_tail q).
Definition set_tail (q : SpscRingQueue T) (t : Z) : SpscRingQueue T :=
  mkSpsc (sq_capacity q) (sq_mask q) (sq_buffer q) (sq_head q) t.

Definition Spsc_emplace (q : SpscRingQueue T) (value : T) : outcome (bool * SpscRingQueue T) :=
  let tail := sq_tail q in
  if wrap_u64 (tail - sq_head q) =? sq_capacity q
  then Ret (false, q)
  else
    q ← write_slot q tail (Some value);
    Ret (true, set_tail q (wrap_u64 (tail + 1))).

Definition Spsc_try_pop (q : SpscRingQueue T) : outcome (option T * SpscRingQueue T) :=
  let head := sq_head q in
  if head =? sq_tail q
  then Ret (None, q)
  else
    result ← read_slot q head;
    q ← write_slot q head None;
    Ret (result, set_head q (wrap_u64 (head + 1))).

Definition Spsc_size_approx (q : SpscRingQueue T) : Z := wrap_u64 (sq_tail q - sq_head q).
Definition Spsc_empty (q : SpscRingQueue T) : bool := Spsc_size_approx q =? 0.

#[export] Instance Spsc_queue : QueueOps (SpscRingQueue T) T := {
  push_impl := Spsc_emplace;
  try_pop_impl := Spsc_try_pop;
  size_approx_impl := Spsc_size_approx;
  empty_impl := Spsc_empty
}.

(** ** Representation

    [shape]: a power-of-two capacity and a buffer of that size. [holds q n i v]:
    the slot of the [i]-th element ever pushed contains [v]; element numbers
    are unbounded, the counters are their remainders. *)
Record shape (q : SpscRingQueue T) : Prop := {
  shape_pow : exists k, 1 <= k <= 63 /\ sq_capacity q = 2 ^ k;
  shape_mask : sq_mask q = sq_capacity q - 1;
  shape_length : Z.of_nat (length (sq_buffer q)) = sq_capacity q
}.

Definition slot_of (q : SpscRingQueue T) (n : Z) : nat := Z.to_nat (n mod sq_capacity q).

(** [H] elements have been popped in all and the elements [l] remain. *)
Record ring_repr (q : SpscRingQueue T) (H : Z) (l : list T) : Prop := {
  rr_shape : shape q;
  rr_head : sq_head q = wrap_u64 H;
  rr_tail : sq_tail q = wrap_u64 (H + Z.of_nat (length l));
  rr_H : 0 <= H;
  rr_fits : Z.of_nat (length l) <= sq_capacity q;
  rr_slots : forall i v, l !! i = Some v -> sq_buffer q !! slot_of q (H + Z.of_nat i) = Some (Some v)
}.

Lemma shape_cap (q : SpscRingQueue T) : shape q ->
  2 <= sq_capacity q <= two63 /\ two64 mod sq_capacity q = 0.
Proof using Type.
  intros [(k & Hk & ->) _ _]. split.
  - change two63 with (2 ^ 63). change 2 with (2 ^ 1) at 1.
    split; apply Z.pow_le_mono_r; lia.
  - change two64 with (2 ^ 64). replace 64 with ((64 - k) + k) by lia.
    rewrite Z.pow_add_r by lia. apply Z.mod_mul. lia.
Qed.

(** Masking a wrapped counter finds the slot of the unwrapped one. *)
Lemma slot_index_wrap (q : SpscRingQueue T) (n : Z) : shape q ->
  slot_index (sq_mask q) (wrap_u64 n) = slot_of q n /\ (slot_of q n < length (sq_buffer q))%nat.
Proof using Type.
  intros Hs. destruct (shape_cap q Hs) as [Hc Hd]. pose proof (shape_length q Hs) as Hl.
  unfold slot_index, slot_of.
  pose proof (Z.mod_pos_bound n (sq_capacity q) ltac:(lia)). split; [|lia].
  destruct (shape_pow q Hs) as (k & Hk & E). rewrite (shape_mask q Hs), E.
  replace (2 ^ k - 1) with (Z.ones k) by (rewrite Z.ones_equiv; lia).
  rewrite Z.land_ones by lia. f_equal. unfold wrap_u64.
  apply Z.mod_mod_divide. rewrite E in Hd. by apply Z.mod_divide in Hd; [|lia].
Qed.

Lemma wrap_size (H n c : Z) : 0 <= n <= c -> c <= two63 ->
  wrap_u64 (wrap_u64 (H + n) - wrap_u64 H) = n.
Proof using Type.
  intros Hn Hc. unfold wrap_u64. rewrite <- Zminus_mod. replace (H + n - H) with n by lia.
  apply Z.mod_small. unfold two63, two64 in *. lia.
Qed.

Lemma wrap_step (n : Z) : wrap_u64 (wrap_u64 n + 1) = wrap_u64 (n + 1).
Proof using Type. unfold wrap_u64. by rewrite Zplus_mod_idemp_l. Qed.

(** Two elements less than a capacity apart live in different slots. *)
Lemma slot_of_ne (q : SpscRingQueue T) (a b : Z) : shape q ->
  a < b < a + sq_capacity q -> slot_of q a <> slot_of q b.
Proof using Type.
  intros Hs Hab E. destruct (shape_cap q Hs) as [Hc _]. unfold slot_of in E.
  pose proof (Z.mod_pos_bound a (sq_capacity q) ltac:(lia)).
  pose proof (Z.mod_pos_bound b (sq_capacity q) ltac:(lia)).
  apply Z2Nat.inj in E; [|lia..].
  assert (D : (b - a) mod sq_capacity q = 0) by (rewrite Zminus_mod, E, Z.sub_diag; apply Z.mod_0_l; lia).
  rewrite Z.mod_small in D by lia. lia.
Qed.

Lemma write_slot_shape (q : SpscRingQueue T) (n : Z) (v : option T) : shape q ->
  write_slot q (wrap_u64 n) v = Ret (mkSpsc (sq_capacity q) (sq_mask q)
    (<[slot_of q n := v]> (sq_buffer q)) (sq_head q) (sq_tail q)).
Proof using Type.
  intros Hs. destruct (slot_index_wrap q n Hs) as [E L]. unfold write_slot. rewrite E.
  by rewrite bool_decide_eq_true_2.
Qed.

Lemma shape_buffer (q : SpscRingQueue T) (i : nat) (v : option T) (h t : Z) : shape q ->
  shape (mkSpsc (sq_capacity q) (sq_mask q) (<[i := v]> (sq_buffer q)) h t).
Proof using Type. intros []. split; simpl; try done. by rewrite length_insert. Qed.

Lemma ring_sizes (q : SpscRingQueue T) (H : Z) (l : list T) : ring_repr q H l ->
  wrap_u64 (sq_tail q - sq_head q) = Z.of_nat (length l).
Proof using Type.
  intros R. destruct (shape_cap q (rr_shape _ _ _ R)) as [Hc _].
  rewrite (rr_head _ _ _ R), (rr_tail _ _ _ R). apply (wrap_size _ _ (sq_capacity q)); [|lia].
  pose proof (rr_fits _ _ _ R). lia.
Qed.

Lemma ring_push (q : SpscRingQueue T) (H : Z) (l : list T) (v : T) :
  ring_repr q H l -> Z.of_nat (length l) < sq_capacity q ->
  exists q', Spsc_emplace q v = Ret (true, q') /\ ring_repr q' H (l ++ [v]) /\
    sq_capacity q' = sq_capacity q.
Proof using Type.
  intros R Hroom. pose proof (rr_shape _ _ _ R) as Hs. unfold Spsc_emplace.
  rewrite (ring_sizes q H l R), (proj2 (Z.eqb_neq _ _)) by lia.
  rewrite (rr_tail _ _ _ R), write_slot_shape, bind_ret, wrap_step by done.
  eexists. split; [reflexivity|]. split; [|done].
  destruct (slot_index_wrap q (H + Z.of_nat (length l)) Hs) as [_ Hin].
  split; simpl.
  - exact (shape_buffer q _ _ _ _ Hs).
  - apply R.
  - rewrite length_app. f_equal. simpl. lia.
  - apply R.
  - rewrite length_app. simpl. lia.
  - intros i w Hi. change (slot_of _ (H + Z.of_nat i)) with (slot_of q (H + Z.of_nat i)).
    destruct (decide (i = length l)) as [->|Hne].
    + rewrite lookup_app_r, Nat.sub_diag in Hi by lia. injection Hi as <-.
      by rewrite list_lookup_insert_eq.
    + pose proof (lookup_lt_Some _ _ _ Hi) as Hlen. rewrite length_app in Hlen. simpl in Hlen.
      rewrite lookup_app_l in Hi by lia.
      rewrite list_lookup_insert_ne; [by apply (rr_slots _ _ _ R)|].
      intros E. symmetry in E. revert E. apply (slot_of_ne q); [done|lia].
Qed.

Lemma ring_full (q : SpscRingQueue T) (H : Z) (l : list T) (v : T) :
  ring_repr q H l -> sq_capacity q <= Z.of_nat (length l) -> Spsc_emplace q v = Ret (false, q).
Proof using Type.
  intros R Hfull. pose proof (rr_fits _ _ _ R). unfold Spsc_emplace.
  rewrite (ring_sizes q H l R), (proj2 (Z.eqb_eq _ _)) by lia. done.
Qed.

Lemma wrap_eqb (H n c : Z) : 0 <= n <= c -> c <= two63 ->
  (wrap_u64 H =? wrap_u64 (H + n)) = (n =? 0).
Proof using Type.
  intros Hn Hc. destruct (Z.eqb_spec n 0) as [->|Hne]; [by rewrite Z.add_0_r, Z.eqb_refl|].
  apply Z.eqb_neq. intros E. apply Hne. rewrite <- (wrap_size H n c) by done.
  rewrite E, Z.sub_diag. done.
Qed.

Lemma ring_pop_empty (q : SpscRingQueue T) (H : Z) :
  ring_repr q H [] -> Spsc_try_pop q = Ret (None, q).
Proof using Type.
  intros R. destruct (shape_cap q (rr_shape _ _ _ R)) as [Hc _]. unfold Spsc_try_pop.
  rewrite (rr_head _ _ _ R), (rr_tail _ _ _ R), (wrap_eqb _ _ (sq_capacity q)) by (simpl; lia).
  done.
Qed.

Lemma ring_pop (q : SpscRingQueue T) (H : Z) (l : list T) (v : T) :
  ring_repr q H (v :: l) ->
  exists q', Spsc_try_pop q = Ret (Some v, q') /\ ring_repr q' (H + 1) l /\
    sq_capacity q' = sq_capacity q.
Proof using Type.
  intros R. pose proof (rr_shape _ _ _ R) as Hs. destruct (shape_cap q Hs) as [Hc _].
  pose proof (rr_fits _ _ _ R) as Hfit. simpl length in Hfit. unfold Spsc_try_pop.
  rewrite (rr_head _ _ _ R), (rr_tail _ _ _ R), (wrap_eqb _ _ (sq_capacity q)) by (simpl length; lia).
  simpl. unfold read_slot. destruct (slot_index_wrap q H Hs) as [-> Hin].
  pose proof (rr_slots _ _ _ R 0 v eq_refl) as H0. rewrite Z.add_0_r in H0. rewrite H0. simpl.
  rewrite write_slot_shape, bind_ret, wrap_step by done.
  eexists. split; [reflexivity|]. split; [|done].
  split; simpl.
  - exact (shape_buffer q _ _ _ _ Hs).
  - done.
  - rewrite (rr_tail _ _ _ R). simpl length. f_equal. lia.
  - pose proof (rr_H _ _ _ R). lia.
  - lia.
  - intros i w Hi. change (slot_of _ (H + 1 + Z.of_nat i)) with (slot_of q (H + 1 + Z.of_nat i)).
    pose proof (lookup_lt_Some _ _ _ Hi).
    rewrite list_lookup_insert_ne by (apply (slot_of_ne q); [done|lia]).
    replace (H + 1 + Z.of_nat i) with (H + Z.of_nat (S i)) by lia. by apply (rr_slots _ _ _ R).
Qed.

#[export, refine] Instance Spsc_laws : QueueLaws (SpscRingQueue T) T := {
  represents q l := exists H, ring_repr q H l;
  room := sq_capacity
}.
Proof using Type.
  - intros q l v [H R] Hroom. destruct (ring_push q H l v R Hroom) as (q' & E & R' & C). eauto.
  - intros q l v [H R] Hfull. by apply (ring_full q H l).
  - intros q [H R]. by apply (ring_pop_empty q H).
  - intros q v l [H R]. destruct (ring_pop q H l v R) as (q' & E & R' & C). eauto.
  - intros q l [H R]. by apply (ring_sizes q H).
  - intros q l [H R]. simpl. unfold Spsc_empty, Spsc_size_approx. rewrite (ring_sizes q H l R).
    by destruct l.
Defined.

Lemma Spsc_new_spec (r : Z) : 2 <= r <= two63 ->
  exists q, Spsc_new r = Ret q /\ ring_repr q 0 [] /\ r <= sq_capacity q < 2 * r /\
    exists k, sq_capacity q = 2 ^ k.
Proof using Type.
  intros Hr. unfold Spsc_new, normalize_capacity, bit_ceil.
  rewrite (proj2 (Z.ltb_ge _ _)), (proj2 (Z.leb_le _ _)) by lia. simpl.
  pose proof (Z.log2_up_spec r ltac:(lia)) as [Hl Hu].
  assert (Hk : 1 <= Z.log2_up r <= 63).
  { split; [change 1 with (Z.log2_up 2)|change 63 with (Z.log2_up two63)]; apply Z.log2_up_le_mono; lia. }
  eexists. split; [reflexivity|]. split_and!.
  - split; simpl; try done; try lia. split; simpl; [eauto|done|]. rewrite length_replicate. lia.
  - done.
  - simpl. replace (Z.log2_up r) with (Z.pred (Z.log2_up r) + 1) by lia.
    rewrite Z.pow_add_r by lia. lia.
  - eauto.
Qed.
End Operations.

(** ** One producer and one consumer

    The shared accesses of [emplace] and [try_pop], one per step, in program
    order; the acquire and release accesses make these interleavings the
    behaviours of the two threads. [c_pushed] and [c_popped] record the
    elements whose push and pop have taken effect. *)
Section Concurrent.
Context {T : Type}.

Inductive producer_pc :=
| PIdle
| PGotTail (value : T) (tail : Z)
| PHasRoom (value : T) (tail : Z)
| PWrote (value : T) (tail : Z).

Inductive consumer_pc :=
| CIdle
| CGotHead (head : Z)
| CNonEmpty (head : Z)
| CTook (head : Z) (result : option T).

Record spsc_state := mkConc {
  c_queue : SpscRingQueue T;
  c_producer : producer_pc;
  c_consumer : consumer_pc;
  c_pushed : list T;
  c_popped : list T
}.

Inductive spsc_step : spsc_state -> spsc_state -> Prop :=
| prod_load_tail q c pu po v :
    spsc_step (mkConc q PIdle c pu po) (mkConc q (PGotTail v (sq_tail q)) c pu po)
| prod_full q c pu po v t : wrap_u64 (t - sq_head q) = sq_capacity q ->
    spsc_step (mkConc q (PGotTail v t) c pu po) (mkConc q PIdle c pu po)
| prod_room q c pu po v t : wrap_u64 (t - sq_head q) <> sq_capacity q ->
    spsc_step (mkConc q (PGotTail v t) c pu po) (mkConc q (PHasRoom v t) c pu po)
| prod_write q q' c pu po v t : write_slot q t (Some v) = Ret q' ->
    spsc_step (mkConc q (PHasRoom v t) c pu po) (mkConc q' (PWrote v t) c pu po)
| prod_publish q c pu po v t :
    spsc_step (mkConc q (PWrote v t) c pu po)
              (mkConc (set_tail q (wrap_u64 (t + 1))) PIdle c (pu ++ [v]) po)
| cons_load_head q p pu po :
    spsc_step (mkConc q p CIdle pu po) (mkConc q p (CGotHead (sq_head q)) pu po)
| cons_empty q p pu po h : h = sq_tail q ->
    spsc_step (mkConc q p (CGotHead h) pu po) (mkConc q p CIdle pu po)
| cons_nonempty q p pu po h : h <> sq_tail q ->
    spsc_step (mkConc q p (CGotHead h) pu po) (mkConc q p (CNonEmpty h) pu po)
| cons_take q q' p pu po h r : read_slot q h = Ret r -> write_slot q h None = Ret q' ->
    spsc_step (mkConc q p (CNonEmpty h) pu po) (mkConc q' p (CTook h r) pu po)
| cons_publish q p pu po h r :
    spsc_step (mkConc q p (CTook h r) pu po)
              (mkConc (set_head q (wrap_u64 (h + 1))) p CIdle pu (po ++ option_list r)).

Definition spsc_initial (s : spsc_state) : Prop :=
  ring_repr (c_queue s) 0 [] /\ c_producer s = PIdle /\ c_consumer s = CIdle /\
  c_pushed s = [] /\ c_popped s = [].

Definition popped_count (s : spsc_state) : Z := Z.of_nat (length (c_popped s)).
Definition pushed_count (s : spsc_state) : Z := Z.of_nat (length (c_pushed s)).

Definition producer_ok (s : spsc_state) : Prop :=
  let q := c_queue s in
  match c_producer s with
  | PIdle => True
  | PGotTail _ t => t = sq_tail q
  | PHasRoom _ t => t = sq_tail q /\ pushed_count s - popped_count s < sq_capacity q
  | PWrote v t => t = sq_tail q /\ pushed_count s - popped_count s < sq_capacity q /\
      sq_buffer q !! slot_of q (pushed_count s) = Some (Some v)
  end.

Definition consumer_ok (s : spsc_state) : Prop :=
  let q := c_queue s in
  match c_consumer s with
  | CIdle => True
  | CGotHead h => h = sq_head q
  | CNonEmpty h => h = sq_head q /\ popped_count s < pushed_count s
  | CTook h r => h = sq_head q /\ popped_count s < pushed_count s /\
      r = c_pushed s !! length (c_popped s)
  end.

(** The first element whose slot is full: one later while the consumer holds
    the element it took. *)
Definition first_full (s : spsc_state) : Z :=
  match c_consumer s with CTook _ _ => popped_count s + 1 | _ => popped_count s end.

Record spsc_inv (s : spsc_state) : Prop := {
  si_shape : shape (c_queue s);
  si_head : sq_head (c_queue s) = wrap_u64 (popped_count s);
  si_tail : sq_tail (c_queue s) = wrap_u64 (pushed_count s);
  si_fits : popped_count s <= pushed_count s <= popped_count s + sq_capacity (c_queue s);
  si_slots : forall i v, first_full s <= Z.of_nat i -> c_pushed s !! i = Some v ->
    sq_buffer (c_queue s) !! slot_of (c_queue s) (Z.of_nat i) = Some (Some v);
  si_prefix : c_popped s `prefix_of` c_pushed s;
  si_producer : producer_ok s;
  si_consumer : consumer_ok s
}.

Lemma spsc_initial_inv (s : spsc_state) : spsc_initial s -> spsc_inv s.
Proof using Type.
  destruct s as [q p c pu po]. intros (R & Hp & Hc & Hpu & Hpo). simpl in *. subst.
  destruct (shape_cap q (rr_shape _ _ _ R)) as [Hcap _].
  split; unfold popped_count, pushed_count, producer_ok, consumer_ok; simpl; try done.
  - apply R.
  - apply R.
  - by rewrite (rr_tail _ _ _ R).
  - lia.
Qed.

Ltac conc_fields := cbn [c_queue c_producer c_consumer c_pushed c_popped] in *.

Ltac spsc_unfold :=
  unfold producer_ok, consumer_ok, first_full, popped_count, pushed_count in *; simpl in *;
  cbn [sq_buffer set_head set_tail] in *.

(** The next slot to write and the next slot to read are different. *)
Lemma spsc_slots_ne (s : spsc_state) (a b : Z) : spsc_inv s ->
  popped_count s <= a < b -> b <= pushed_count s ->
  pushed_count s - popped_count s < sq_capacity (c_queue s) ->
  slot_of (c_queue s) a <> slot_of (c_queue s) b.
Proof using Type. intros I Ha Hb Hroom. apply slot_of_ne; [apply I|lia]. Qed.

Lemma lookup_lt_Z {A} (l : list A) (i : nat) (v : A) : l !! i = Some v -> Z.of_nat i < Z.of_nat (length l).
Proof using Type. intros H. apply lookup_lt_Some in H. lia. Qed.

Lemma prod_write_inv q q' c pu po v t : write_slot q t (Some v) = Ret q' ->
  spsc_inv (mkConc q (PHasRoom v t) c pu po) -> spsc_inv (mkConc q' (PWrote v t) c pu po).
Proof using Type.
  intros Hw I. pose proof (si_shape _ I) as Hs. pose proof (si_fits _ I) as Hf.
  pose proof (si_producer _ I) as [Et Hroom]. conc_fields. subst t. pose proof (si_tail _ I) as Ht.
  pose proof (si_consumer _ I) as Hc. pose proof (si_slots _ I) as Hsl. conc_fields.
  destruct (slot_index_wrap q (Z.of_nat (length pu)) Hs) as [_ Hin].
  rewrite Ht in Hw. unfold pushed_count in Hw. conc_fields. rewrite write_slot_shape in Hw by done.
  injection Hw as <-.
  split; spsc_unfold; try apply I.
  - by apply shape_buffer.
  - intros i w Hi Hl. pose proof (lookup_lt_Z _ _ _ Hl).
    rewrite list_lookup_insert_ne; [by apply Hsl|]. apply not_eq_sym.
    apply (spsc_slots_ne _ _ _ I); spsc_unfold; try lia. destruct c; lia.
  - split_and!; [done|done|]. by rewrite list_lookup_insert_eq.
Qed.

Lemma cons_take_inv q q' p pu po h r : read_slot q h = Ret r -> write_slot q h None = Ret q' ->
  spsc_inv (mkConc q p (CNonEmpty h) pu po) -> spsc_inv (mkConc q' p (CTook h r) pu po).
Proof using Type.
  intros Hr Hw I. pose proof (si_shape _ I) as Hs. pose proof (si_fits _ I) as Hf.
  pose proof (si_consumer _ I) as [Et Hne]. conc_fields. subst h. pose proof (si_head _ I) as Hh.
  pose proof (si_producer _ I) as Hp. pose proof (si_slots _ I) as Hsl. conc_fields.
  unfold popped_count in Hh. conc_fields. rewrite Hh in Hr, Hw.
  unfold read_slot in Hr. destruct (slot_index_wrap q (Z.of_nat (length po)) Hs) as [E Hin].
  rewrite E in Hr. rewrite write_slot_shape in Hw by done. injection Hw as <-.
  destruct (lookup_lt_is_Some_2 pu (length po)) as [v Hv]; [spsc_unfold; lia|].
  rewrite (Hsl (length po) v) in Hr by (done || (spsc_unfold; lia)). injection Hr as <-.
  split; spsc_unfold; try apply I.
  - by apply shape_buffer.
  - intros i w Hi Hl. pose proof (lookup_lt_Z _ _ _ Hl).
    rewrite list_lookup_insert_ne; [apply Hsl; [lia|done]|].
    apply (slot_of_ne q); [done|lia].
  - destruct p; try done. destruct Hp as (-> & Hroom & Hb). split_and!; [done|done|].
    rewrite list_lookup_insert_ne; [done|]. apply (slot_of_ne q); [done|lia].
  - split_and!; [done|done|]. by rewrite Hv.
Qed.

Lemma prod_publish_inv q c pu po v t : spsc_inv (mkConc q (PWrote v t) c pu po) ->
  spsc_inv (mkConc (set_tail q (wrap_u64 (t + 1))) PIdle c (pu ++ [v]) po).
Proof using Type.
  intros I. pose proof (si_shape _ I) as Hs. pose proof (si_fits _ I) as Hf.
  pose proof (si_producer _ I) as (Et & Hroom & Hb). conc_fields. subst t. pose proof (si_tail _ I) as Ht.
  pose proof (si_consumer _ I) as Hc. pose proof (si_slots _ I) as Hsl. conc_fields.
  split; spsc_unfold; try apply I; rewrite ?length_app; simpl.
  - destruct Hs. by split.
  - rewrite Ht, wrap_step. f_equal. lia.
  - lia.
  - intros i w Hi Hl.
    change (slot_of _ (Z.of_nat i)) with (slot_of q (Z.of_nat i)).
    apply lookup_app_Some in Hl as [Hl|[Hlen Hl]]; [by apply Hsl|].
    destruct (i - length pu)%nat eqn:Hi0; [|done]. injection Hl as <-.
    by replace i with (length pu) by lia.
  - pose proof (si_prefix _ I). by apply prefix_app_r.
  - done.
  - destruct c; try done.
    + destruct Hc as [-> ?]. split; [done|lia].
    + destruct Hc as (-> & ? & ->). split_and!; [done|lia|]. rewrite lookup_app_l; [done|lia].
Qed.

Lemma cons_publish_inv q p pu po h r : spsc_inv (mkConc q p (CTook h r) pu po) ->
  spsc_inv (mkConc (set_head q (wrap_u64 (h + 1))) p CIdle pu (po ++ option_list r)).
Proof using Type.
  intros I. pose proof (si_shape _ I) as Hs. pose proof (si_fits _ I) as Hf.
  pose proof (si_consumer _ I) as (Et & Hne & Er). conc_fields. subst h r. pose proof (si_head _ I) as Hh.
  pose proof (si_producer _ I) as Hp. pose proof (si_slots _ I) as Hsl. conc_fields.
  destruct (si_prefix _ I) as [l Hpre]. simpl in Hpre. spsc_unfold.
  destruct l as [|v l]; [rewrite app_nil_r in Hpre; subst; lia|].
  assert (Hv : pu !! length po = Some v).
  { rewrite Hpre, lookup_app_r, Nat.sub_diag; done. }
  rewrite Hv. simpl.
  split; spsc_unfold; try apply I; rewrite ?length_app; simpl.
  - destruct Hs. by split.
  - rewrite Hh, wrap_step. f_equal. lia.
  - lia.
  - intros i w Hi Hl. change (slot_of _ (Z.of_nat i)) with (slot_of q (Z.of_nat i)).
    apply Hsl; [lia|done].
  - exists l. by rewrite <- app_assoc.
  - destruct p; try done.
    + destruct Hp as [-> ?]. split; [done|lia].
    + destruct Hp as (-> & ? & ?). split_and!; [done|lia|done].
  - done.
Qed.

Lemma spsc_step_inv (s s' : spsc_state) : spsc_step s s' -> spsc_inv s -> spsc_inv s'.
Proof using Type.
  intros Hstep I. destruct Hstep; eauto using prod_write_inv, cons_take_inv, prod_publish_inv,
    cons_publish_inv; pose proof (si_producer _ I) as Hp; pose proof (si_consumer _ I) as Hc;
    pose proof (si_fits _ I) as Hf; pose proof (shape_cap _ (si_shape _ I)) as [Hcap _];
    split; try apply I; spsc_unfold; try done.
  - subst t. split; [done|].
    pose proof (si_head _ I) as Hh. pose proof (si_tail _ I) as Ht. spsc_unfold.
    assert (Z.of_nat (length pu) - Z.of_nat (length po) <> sq_capacity q); [|lia].
    intros E. apply H. rewrite Hh, Ht.
    replace (Z.of_nat (length pu)) with (Z.of_nat (length po) + sq_capacity q) by lia.
    apply (wrap_size _ _ (sq_capacity q)); lia.
  - subst h. split; [done|].
    pose proof (si_head _ I) as Hh. pose proof (si_tail _ I) as Ht. spsc_unfold.
    assert (Z.of_nat (length pu) <> Z.of_nat (length po)); [|lia].
    intros E. apply H. by rewrite Hh, Ht, E.
Qed.

Lemma spsc_reachable_inv (s s' : spsc_state) :
  rtc spsc_step s s' -> spsc_initial s -> spsc_inv s'.
Proof using Type.
  intros Hr Hi. apply spsc_initial_inv in Hi.
  induction Hr; [done|]. apply IHHr. by eapply spsc_step_inv.
Qed.
End Concurrent.
Arguments spsc_state T : clear implicits.
Arguments producer_pc T : clear implicits.
Arguments consumer_pc T : clear implicits.

(** ** Properties *)

(** C23. Every capacity from 2 to 2^63 is accepted and rounded up to a power of
    two less than twice as large, and from then on any sequence of pushes, pops,
    size queries and drains returns exactly what a bounded FIFO list returns, with
    no access outside the buffer and no bound on the number of calls: the
    wrap-around of the 64-bit counters is never visible. *)
Theorem spsc_refines_fifo {T : Type} (requested_capacity : Z) (cs : list (queue_call T)) :
  2 <= requested_capacity <= two63 ->
  exists q, Spsc_new requested_capacity = Ret q /\
    requested_capacity <= sq_capacity q < 2 * requested_capacity /\
    exists q', queue_run q cs = Ret ((fifo_run (sq_capacity q) [] cs).1, q') /\
      represents q' (fifo_run (sq_capacity q) [] cs).2.
Proof.
  intros Hr. destruct (Spsc_new_spec (T := T) _ Hr) as (q & E & R & Hcap & _).
  exists q. split_and!; [done|lia|lia|]. exact (queue_run_refines cs 0 q [] (ex_intro _ 0 R)).
Qed.

Lemma spsc_refines_fifo_witness :
  exists q q', Spsc_new 3 = Ret q /\
    queue_run q [CallPush 1; CallPush 2; CallPop; CallPush 3; CallPush 4; CallPush 5; CallPush 6;
                 CallSize; CallDrain 2; CallPop; CallPop; CallPop] =
      Ret ([RetPush true; RetPush true; RetPop (Some 1); RetPush true; RetPush true; RetPush true;
            RetPush false; RetSize 4 false; RetDrain 2 [2; 3]; RetPop (Some 4); RetPop (Some 5);
            RetPop None], q').
Proof.
  destruct (spsc_refines_fifo 3 [CallPush 1; CallPush 2; CallPop; CallPush 3; CallPush 4; CallPush 5;
    CallPush 6; CallSize; CallDrain 2; CallPop; CallPop; CallPop] ltac:(vm_compute; split; congruence))
    as (q & E & _ & q' & R & _).
  exists q, q'. split; [exact E|]. rewrite R. injection E as <-. reflexivity.
Defined.

(** C24. With one producer and one consumer whose accesses interleave in any
    order, the elements popped are always a prefix of the elements pushed, the
    two never differ by more than the capacity, every slot access is inside the
    buffer and finds the slot as expected, and the two threads never access the
    same slot at the same time. *)
Theorem spsc_concurrent_safe {T : Type} (s s' : spsc_state T) :
  spsc_initial s -> rtc spsc_step s s' ->
  c_popped s' `prefix_of` c_pushed s' /\
  Z.of_nat (length (c_pushed s')) - Z.of_nat (length (c_popped s')) <= sq_capacity (c_queue s') /\
  (forall v t, c_producer s' = PHasRoom v t ->
     exists q, write_slot (c_queue s') t (Some v) = Ret q) /\
  (forall h, c_consumer s' = CNonEmpty h ->
     exists v q, read_slot (c_queue s') h = Ret (Some v) /\ write_slot (c_queue s') h None = Ret q /\
       c_pushed s' !! length (c_popped s') = Some v) /\
  (forall v t h, c_producer s' = PHasRoom v t -> c_consumer s' = CNonEmpty h ->
     slot_index (sq_mask (c_queue s')) t <> slot_index (sq_mask (c_queue s')) h).
Proof.
  intros Hi Hr. pose proof (spsc_reachable_inv s s' Hr Hi) as I. clear s Hi Hr.
  destruct s' as [q p c pu po]. destruct I as [Hs Hh Ht Hf Hsl Hpre Hp Hc].
  unfold producer_ok, consumer_ok, first_full, popped_count, pushed_count in *. simpl in *.
  split_and!; [done|lia|..].
  - intros v t ->. destruct Hp as [-> _]. rewrite Ht, write_slot_shape by done. eauto.
  - intros h ->. destruct Hc as [-> Hne]. rewrite Hh, write_slot_shape by done.
    destruct (lookup_lt_is_Some_2 pu (length po)) as [v Hv]; [lia|].
    exists v. eexists. split_and!; [|done|done]. unfold read_slot.
    destruct (slot_index_wrap q (Z.of_nat (length po)) Hs) as [-> _].
    by rewrite (Hsl (length po) v).
  - intros v t h -> ->. destruct Hp as [-> Hroom], Hc as [-> Hne].
    rewrite Hh, Ht. rewrite !(proj1 (slot_index_wrap q _ Hs)).
    apply not_eq_sym, slot_of_ne; [done|lia].
Qed.

Lemma spsc_concurrent_safe_witness :
  exists q0 s', Spsc_new 2 = Ret q0 /\ rtc spsc_step (mkConc q0 PIdle CIdle [] []) s' /\
    c_pushed s' = ["a"; "b"] /\ c_popped s' = ["a"] /\ c_popped s' `prefix_of` c_pushed s'.
Proof.
  destruct (Spsc_new (T := string) 2) as [q0| |] eqn:E0; [|discriminate..].
  assert (R : rtc spsc_step (mkConc q0 PIdle CIdle [] [])
    (mkConc (mkConc q0 PIdle CIdle [] []).(c_queue) PIdle CIdle [] [])) by constructor.
  injection E0 as <-.
  eexists _, _. split; [reflexivity|].
  match goal with |- ?P /\ _ => assert (HR : P) end.
  { eapply rtc_l; [apply (prod_load_tail _ _ _ _ "a")|]. 
    eapply rtc_l; [apply prod_room; vm_compute; congruence|].
    eapply rtc_l; [apply prod_write; vm_compute; reflexivity|].
    eapply rtc_l; [apply cons_load_head|].
    eapply rtc_l; [apply prod_publish|].
    eapply rtc_l; [apply (prod_load_tail _ _ _ _ "b")|].
    eapply rtc_l; [apply cons_nonempty; vm_compute; congruence|].
    eapply rtc_l; [apply prod_room; vm_compute; congruence|].
    eapply rtc_l; [apply cons_take; vm_compute; reflexivity|].
    eapply rtc_l; [apply prod_write; vm_compute; reflexivity|].
    eapply rtc_l; [apply cons_publish|].
    eapply rtc_l; [apply prod_publish|]. apply rtc_refl. }
  split; [exact HR|].
  split; [reflexivity|]. split; [reflexivity|].
  refine (proj1 (spsc_concurrent_safe _ _ _ HR)).
  split_and!; try reflexivity.
  destruct (Spsc_new_spec (T := string) 2) as (q & E & Rq & _); [vm_compute; split; congruence|].
  injection E as <-. exact Rq.
Defined.
