(* ===== verification/Allocator.v ===== *)
(** * The allocator interface and the object pool ([object_pool.hpp])

    [BlockAllocator] is what [ObjectPool] needs of its storage, and
    [BlockAllocatorLaws] what the storage promises: the blocks handed out and
    not yet returned form a set, a new block is never one of them, and any of
    them can be returned, by any thread. [ObjectPool<T>] places objects in such
    blocks; the matching engine is proved against this interface and
    [FixedBlockPool] (file [Pool]) implements it. *)

From S2P Require Import Prelude.

Local Open Scope Z_scope.

(** A block address: the slab it lies in and its byte offset. *)
Abbreviation block := (Z * Z)%type.

(** The first argument is the calling thread. *)
Class BlockAllocator (A : Type) := {
  block_allocate : Z -> A -> outcome (block * A);
  block_deallocate : Z -> A -> block -> A
}.

Class BlockAllocatorLaws (A : Type) `{BlockAllocator A} := {
  outstanding : A -> gset block -> Prop;
  allocate_fresh : forall t a L, outstanding a L ->
    exists b a', block_allocate t a = Ret (b, a') /\ b ∉ L /\ outstanding a' ({[b]} ∪ L);
  deallocate_returns : forall t a L b, outstanding a L -> b ∈ L ->
    outstanding (block_deallocate t a b) (L ∖ {[b]})
}.

(** The pool's storage together with the objects that are alive in it. *)
Record ObjectPool (A T : Type) := mkObjectPool {
  op_storage : A;
  op_objects : gmap block T
}.
Arguments mkObjectPool {A T}.
Arguments op_storage {A T}.
Arguments op_objects {A T}.

Section ObjectPool.
Context {A T : Type} `{BlockAllocator A}.

(** [create(args...)]: the constructor's result, or its exception, after which
    the memory goes back to the storage. *)
Definition ObjectPool_create (t : Z) (p : ObjectPool A T) (constructed : string + T)
    : outcome ((string + block) * ObjectPool A T) :=
  memory ← block_allocate t (op_storage p);
  let '(b, storage) := memory in
  match constructed with
  | inr v => Ret (inr b, mkObjectPool storage (<[b := v]> (op_objects p)))
  | inl e => Ret (inl e, mkObjectPool (block_deallocate t storage b) (op_objects p))
  end.

(** [destroy(instance)]: destroying what is not alive is undefined. *)
Definition ObjectPool_destroy (t : Z) (p : ObjectPool A T) (instance : option block)
    : outcome (ObjectPool A T) :=
  match instance with
  | None => Ret p
  | Some b =>
    _ ← deref (op_objects p !! b) "destroy of a dead object";
    Ret (mkObjectPool (block_deallocate t (op_storage p) b) (delete b (op_objects p)))
  end.

(** Reading and writing through a pointer. *)
Definition ObjectPool_read (p : ObjectPool A T) (b : block) : outcome T :=
  deref (op_objects p !! b) "dangling pointer".

Definition ObjectPool_write (p : ObjectPool A T) (b : block) (f : T -> T)
    : outcome (ObjectPool A T) :=
  v ← deref (op_objects p !! b) "dangling pointer";
  Ret (mkObjectPool (op_storage p) (<[b := f v]> (op_objects p))).

Context `{!BlockAllocatorLaws A}.

(** Exactly the blocks of the live objects are outstanding. *)
Definition object_pool_wf (p : ObjectPool A T) : Prop :=
  outstanding (op_storage p) (dom (op_objects p)).

Lemma create_spec (t : Z) (p : ObjectPool A T) (v : T) : object_pool_wf p ->
  exists b storage, op_objects p !! b = None /\
    ObjectPool_create t p (inr v) = Ret (inr b, mkObjectPool storage (<[b := v]> (op_objects p))) /\
    object_pool_wf (mkObjectPool storage (<[b := v]> (op_objects p))).
Proof using Type*.
  intros Hwf. destruct (allocate_fresh t _ _ Hwf) as (b & a' & E & Hb & Ho).
  exists b, a'. split_and!.
  - by apply not_elem_of_dom.
  - unfold ObjectPool_create. by rewrite E, bind_ret.
  - unfold object_pool_wf. simpl. by rewrite dom_insert_L.
Qed.

Lemma create_throw_spec (t : Z) (p : ObjectPool A T) (e : string) : object_pool_wf p ->
  exists storage, ObjectPool_create t p (inl e) = Ret (inl e, mkObjectPool storage (op_objects p)) /\
    object_pool_wf (mkObjectPool storage (op_objects p)).
Proof using Type*.
  intros Hwf. destruct (allocate_fresh t _ _ Hwf) as (b & a' & E & Hb & Ho).
  exists (block_deallocate t a' b). split.
  - unfold ObjectPool_create. by rewrite E, bind_ret.
  - unfold object_pool_wf. simpl.
    replace (dom (op_objects p)) with (({[b]} ∪ dom (op_objects p)) ∖ {[b]}) by set_solver.
    apply deallocate_returns; [done|set_solver].
Qed.

Lemma destroy_spec (t : Z) (p : ObjectPool A T) (b : block) (v : T) :
  object_pool_wf p -> op_objects p !! b = Some v ->
  exists storage, ObjectPool_destroy t p (Some b) = Ret (mkObjectPool storage (delete b (op_objects p))) /\
    object_pool_wf (mkObjectPool storage (delete b (op_objects p))).
Proof using Type*.
  intros Hwf Hb. exists (block_deallocate t (op_storage p) b). split.
  - unfold ObjectPool_destroy. by rewrite Hb.
  - unfold object_pool_wf. simpl. rewrite dom_delete_L.
    apply deallocate_returns; [done|]. apply elem_of_dom. eauto.
Qed.

Lemma write_spec (p : ObjectPool A T) (b : block) (f : T -> T) (v : T) :
  object_pool_wf p -> op_objects p !! b = Some v ->
  ObjectPool_write p b f = Ret (mkObjectPool (op_storage p) (<[b := f v]> (op_objects p))) /\
  object_pool_wf (mkObjectPool (op_storage p) (<[b := f v]> (op_objects p))).
Proof using Type*.
  intros Hwf Hb. unfold ObjectPool_write. rewrite Hb. split; [done|].
  unfold object_pool_wf. simpl. rewrite dom_insert_L.
  replace ({[b]} ∪ dom (op_objects p)) with (dom (op_objects p)); [done|].
  apply mk_is_Some, elem_of_dom in Hb. set_solver.
Qed.

Lemma read_spec (p : ObjectPool A T) (b : block) (v : T) :
  op_objects p !! b = Some v -> ObjectPool_read p b = Ret v.
Proof using Type. unfold ObjectPool_read. by intros ->. Qed.
End ObjectPool.
