(* ===== verification/Pool.v ===== *)
(** * The fixed-block pool ([fixed_block_pool.hpp])

    Slabs carved into blocks, one free list shared by all threads and one cache
    per thread. A vector used as a stack is a list whose head is [back()]. The
    system allocator behind [make_unique] is the counter [fp_next_slab]: each
    slab gets an address never used before. *)

From S2P Require Import Prelude Allocator.

Local Open Scope Z_scope.

Record PoolStats := mkPoolStats {
  ps_block_size : Z;
  ps_blocks_per_slab : Z;
  ps_slabs_allocated : Z;
  ps_total_blocks : Z;
  ps_global_free_blocks : Z;
  ps_outstanding_blocks : Z;
  ps_local_cache_hits : Z;
  ps_global_cache_hits : Z;
  ps_slab_refills : Z
}.

(** [fp_caches] is this pool's entry of every thread's [local_caches()]. *)
Record FixedBlockPool := mkPool {
  fp_block_size : Z;
  fp_blocks_per_slab : Z;
  fp_local_cache_limit : Z;
  fp_slabs : list Z;
  fp_next_slab : Z;
  fp_global_free : list block;
  fp_outstanding : Z;
  fp_local_hits : Z;
  fp_global_hits : Z;
  fp_refills : Z;
  fp_caches : gmap Z (list block)
}.

Definition sizeof_pointer : Z := 8.

(** [caches] are the entries the threads hold for the address the pool is
    constructed at; none for an address never used by a pool. *)
Definition FixedBlockPool_new (block_size blocks_per_slab local_cache_limit : Z)
    (next_slab : Z) (caches : gmap Z (list block)) : outcome FixedBlockPool :=
  if (blocks_per_slab =? 0) || (local_cache_limit =? 0)
  then Throw "FixedBlockPool requires non-zero slab and cache sizes"
  else Ret (mkPool (Z.max block_size sizeof_pointer) blocks_per_slab local_cache_limit
              [] next_slab [] 0 0 0 0 caches).

(** [~FixedBlockPool()] run by thread [t]: the slabs are freed and the entry of
    thread [t] is erased. The result is what is left: the other threads' entries. *)
Definition FixedBlockPool_destruct (t : Z) (p : FixedBlockPool) : gmap Z (list block) :=
  delete t (fp_caches p).

Definition set_cache (p : FixedBlockPool) (t : Z) (cache : list block) : FixedBlockPool :=
  mkPool (fp_block_size p) (fp_blocks_per_slab p) (fp_local_cache_limit p) (fp_slabs p)
    (fp_next_slab p) (fp_global_free p) (fp_outstanding p) (fp_local_hits p) (fp_global_hits p)
    (fp_refills p) (<[t := cache]> (fp_caches p)).

Definition set_global (p : FixedBlockPool) (free : list block) (hits : Z) : FixedBlockPool :=
  mkPool (fp_block_size p) (fp_blocks_per_slab p) (fp_local_cache_limit p) (fp_slabs p)
    (fp_next_slab p) free (fp_outstanding p) (fp_local_hits p) hits (fp_refills p) (fp_caches p).

(** The two relaxed counters of [allocate] and [deallocate]. *)
Definition count_blocks (p : FixedBlockPool) (hits delta : Z) : FixedBlockPool :=
  mkPool (fp_block_size p) (fp_blocks_per_slab p) (fp_local_cache_limit p) (fp_slabs p)
    (fp_next_slab p) (fp_global_free p) (wrap_u64 (fp_outstanding p + delta))
    (wrap_u64 (fp_local_hits p + hits)) (fp_global_hits p) (fp_refills p) (fp_caches p).

(** [local_caches()[this]]: an empty cache is inserted when there is none. *)
Definition local_cache (p : FixedBlockPool) (t : Z) : list block := default [] (fp_caches p !! t).

Fixpoint push_blocks (count : nat) (slab offset block_size : Z) (free : list block) : list block :=
  match count with
  | O => free
  | S count => push_blocks count slab (offset + 1) block_size
                 ((slab, wrap_u64 (offset * block_size)) :: free)
  end.

Definition allocate_slab (p : FixedBlockPool) : FixedBlockPool :=
  let slab := fp_next_slab p in
  mkPool (fp_block_size p) (fp_blocks_per_slab p) (fp_local_cache_limit p)
    (fp_slabs p ++ [slab]) (slab + 1)
    (push_blocks (Z.to_nat (fp_blocks_per_slab p)) slab 0 (fp_block_size p) (fp_global_free p))
    (fp_outstanding p) (fp_local_hits p) (fp_global_hits p) (wrap_u64 (fp_refills p + 1))
    (fp_caches p).

(** [transfer_count] times [push_back(back())] followed by [pop_back()]. *)
Fixpoint transfer (count : nat) (free cache : list block) : outcome (list block * list block) :=
  match count with
  | O => Ret (free, cache)
  | S count =>
    match free with
    | b :: free => transfer count free (b :: cache)
    | [] => Undef "back() of an empty vector"
    end
  end.

Definition refill_local_cache (p : FixedBlockPool) (t : Z) : outcome FixedBlockPool :=
  let refill_target := Z.max (fp_local_cache_limit p / 2) 1 in
  let p := match fp_global_free p with [] => allocate_slab p | _ :: _ => p end in
  let transfer_count := Z.min refill_target (Z.of_nat (length (fp_global_free p))) in
  moved ← transfer (Z.to_nat transfer_count) (fp_global_free p) (local_cache p t);
  Ret (set_cache (set_global p moved.1 (wrap_u64 (fp_global_hits p + transfer_count))) t moved.2).

Fixpoint flush_loop (cache : list block) (retain_count : Z) (free : list block)
    : list block * list block :=
  match cache with
  | b :: rest =>
    if Z.of_nat (length cache) >? retain_count then flush_loop rest retain_count (b :: free)
    else (cache, free)
  | [] => (cache, free)
  end.

Definition flush_local_cache (p : FixedBlockPool) (t : Z) (retain_count : Z) : FixedBlockPool :=
  let '(cache, free) := flush_loop (local_cache p t) retain_count (fp_global_free p) in
  set_cache (set_global p free (fp_global_hits p)) t cache.

Definition FixedBlockPool_allocate (t : Z) (p : FixedBlockPool) : outcome (block * FixedBlockPool) :=
  match local_cache p t with
  | b :: rest => Ret (b, count_blocks (set_cache p t rest) 1 1)
  | [] =>
    p ← refill_local_cache p t;
    match local_cache p t with
    | b :: rest => Ret (b, count_blocks (set_cache p t rest) 0 1)
    | [] => Throw "std::bad_alloc"
    end
  end.

Definition FixedBlockPool_deallocate (t : Z) (p : FixedBlockPool) (b : option block) : FixedBlockPool :=
  match b with
  | None => p
  | Some b =>
    let p := count_blocks (set_cache p t (b :: local_cache p t)) 0 (-1) in
    if Z.of_nat (length (local_cache p t)) >=? fp_local_cache_limit p
    then flush_local_cache p t (fp_local_cache_limit p / 2)
    else p
  end.

Definition FixedBlockPool_stats (p : FixedBlockPool) : PoolStats :=
  mkPoolStats (fp_block_size p) (fp_blocks_per_slab p) (Z.of_nat (length (fp_slabs p)))
    (wrap_u64 (Z.of_nat (length (fp_slabs p)) * fp_blocks_per_slab p))
    (Z.of_nat (length (fp_global_free p))) (fp_outstanding p) (fp_local_hits p)
    (fp_global_hits p) (fp_refills p).

#[export] Instance FixedBlockPool_allocator : BlockAllocator FixedBlockPool := {
  block_allocate := FixedBlockPool_allocate;
  block_deallocate t p b := FixedBlockPool_deallocate t p (Some b)
}.

(** ** The blocks of the pool *)

Definition cached (caches : gmap Z (list block)) : list block := map_to_list caches ≫= snd.

(** Every block of every slab, wherever it is; [L] are the ones handed out. *)
Definition everything (p : FixedBlockPool) (L : gset block) : list block :=
  elements L ++ fp_global_free p ++ cached (fp_caches p).

(** A block of one of the pool's slabs, aligned and entirely inside it. *)
Definition valid_block (p : FixedBlockPool) (b : block) : Prop :=
  b.1 ∈ fp_slabs p /\
  exists i, b.2 = i * fp_block_size p /\ 0 <= i < fp_blocks_per_slab p.

Record pool_inv (p : FixedBlockPool) (L : gset block) : Prop := {
  pi_sizes : 8 <= fp_block_size p /\ 1 <= fp_blocks_per_slab p /\ 1 <= fp_local_cache_limit p /\
    fp_block_size p * fp_blocks_per_slab p < two64;
  pi_slabs : NoDup (fp_slabs p) /\ Forall (fun s => s < fp_next_slab p) (fp_slabs p);
  pi_nodup : NoDup (everything p L);
  pi_valid : Forall (valid_block p) (everything p L);
  pi_total : length (everything p L) = (length (fp_slabs p) * Z.to_nat (fp_blocks_per_slab p))%nat;
  pi_counter : fp_outstanding p = wrap_u64 (Z.of_nat (size L))
}.

Lemma cached_split (m : gmap Z (list block)) (t : Z) :
  cached m ≡ₚ default [] (m !! t) ++ cached (delete t m).
Proof.
  unfold cached. destruct (m !! t) as [c|] eqn:E; simpl.
  - rewrite <- (insert_delete_id m t c E) at 1.
    by rewrite map_to_list_insert by apply lookup_delete_eq.
  - by rewrite delete_id.
Qed.

Lemma cached_insert (m : gmap Z (list block)) (t : Z) (c : list block) :
  cached (<[t := c]> m) ≡ₚ c ++ cached (delete t m).
Proof. by rewrite (cached_split _ t), lookup_insert_eq, delete_insert_eq. Qed.

(** Moving blocks around keeps everything but the counter. *)
Lemma pool_inv_move (p p' : FixedBlockPool) (L L' : gset block) :
  pool_inv p L -> everything p' L' ≡ₚ everything p L ->
  fp_block_size p' = fp_block_size p -> fp_blocks_per_slab p' = fp_blocks_per_slab p ->
  fp_local_cache_limit p' = fp_local_cache_limit p -> fp_slabs p' = fp_slabs p ->
  fp_next_slab p' = fp_next_slab p -> fp_outstanding p' = wrap_u64 (Z.of_nat (size L')) ->
  pool_inv p' L'.
Proof.
  intros [Hs Hsl Hnd Hv Ht Hc] HP E1 E2 E3 E4 E5 E6. split; rewrite ?E1, ?E2, ?E3, ?E4, ?E5; try done.
  - by rewrite HP.
  - rewrite HP. eapply Forall_impl; [exact Hv|]. intros b. unfold valid_block. by rewrite E1, E2, E4.
  - by rewrite HP.
Qed.

Lemma push_blocks_spec (n : nat) (slab bs : Z) : forall off free,
  0 <= off -> 8 <= bs -> (off + Z.of_nat n) * bs < two64 ->
  exists new, push_blocks n slab off bs free ≡ₚ new ++ free /\ length new = n /\ NoDup new /\
    Forall (fun b => b.1 = slab /\ exists i, b.2 = i * bs /\ off <= i < off + Z.of_nat n) new.
Proof.
  induction n as [|n IH]; intros off free Ho Hb Hw; simpl.
  - exists []. split_and!; [done|done|constructor|done].
  - destruct (IH (off + 1) ((slab, wrap_u64 (off * bs)) :: free)) as (new & HP & Hl & Hnd & HF);
      [lia|lia|nia|].
    assert (Hid : wrap_u64 (off * bs) = off * bs).
    { apply wrap_u64_id. unfold in_u64. apply andb_true_iff. rewrite Z.leb_le, Z.ltb_lt. nia. }
    rewrite Hid in *.
    exists ((slab, off * bs) :: new). split_and!.
    + rewrite HP. simpl. by rewrite <- Permutation_middle.
    + simpl. by rewrite Hl.
    + constructor; [|done]. intros Hin. rewrite Forall_forall in HF.
      apply HF in Hin as (_ & i & Hi & ?). simpl in Hi. nia.
    + constructor.
      * split; [done|]. exists off. simpl. split; [done|lia].
      * eapply Forall_impl; [exact HF|]. intros b (? & i & ? & ?). split; [done|].
        exists i. split; [done|lia].
Qed.

Lemma allocate_slab_inv (p : FixedBlockPool) (L : gset block) :
  pool_inv p L -> pool_inv (allocate_slab p) L /\
  (length (fp_global_free (allocate_slab p)) >= Z.to_nat (fp_blocks_per_slab p))%nat.
Proof.
  intros [Hs [Hsn Hsf] Hnd Hv Ht Hc].
  destruct (push_blocks_spec (Z.to_nat (fp_blocks_per_slab p)) (fp_next_slab p) (fp_block_size p) 0
    (fp_global_free p)) as (new & HP & Hl & Hnn & HF); [lia..|].
  assert (HE : everything (allocate_slab p) L ≡ₚ new ++ everything p L).
  { unfold everything, allocate_slab. simpl. rewrite HP. by rewrite <- !app_assoc, Permutation_app_swap_app. }
  split; [|simpl; rewrite HP, length_app; lia].
  split; simpl; try done.
  - split.
    + apply NoDup_app. split_and!; [done| |apply NoDup_singleton].
      intros s Hin ->%list_elem_of_singleton. rewrite Forall_forall in Hsf.
      apply Hsf in Hin. lia.
    + apply Forall_app. split; [|repeat constructor; lia].
      eapply Forall_impl; [exact Hsf|]. simpl. lia.
  - rewrite HE. apply NoDup_app. split_and!; [done| |done].
    intros b Hb Hb'. rewrite Forall_forall in HF. rewrite Forall_forall in Hv. rewrite Forall_forall in Hsf.
    apply HF in Hb as [Hb1 _]. apply Hv in Hb' as [Hb2 _]. apply Hsf in Hb2. lia.
  - rewrite HE. apply Forall_app. split.
    + eapply Forall_impl; [exact HF|]. intros b (Hb1 & i & Hb2 & Hi). split; simpl.
      * rewrite Hb1. set_solver.
      * exists i. split; [done|lia].
    + eapply Forall_impl; [exact Hv|]. intros b (Hb1 & i & Hb2 & Hi). split; simpl; [set_solver|eauto].
  - rewrite HE, !length_app, Hl, Ht. simpl. lia.
Qed.

Lemma transfer_spec (n : nat) : forall free cache, (n <= length free)%nat ->
  exists free' cache', transfer n free cache = Ret (free', cache') /\
    free' ++ cache' ≡ₚ free ++ cache /\ (length cache' = n + length cache)%nat.
Proof.
  induction n as [|n IH]; intros free cache Hn; simpl; [eauto|].
  destruct free as [|b free]; [simpl in Hn; lia|].
  destruct (IH free (b :: cache)) as (f' & c' & -> & HP & Hl); [simpl in Hn; lia|].
  exists f', c'. split_and!; [done| |simpl in Hl; lia].
  rewrite HP. simpl. by rewrite <- Permutation_middle.
Qed.

Lemma flush_loop_spec (retain : Z) (cache free : list block) : forall c' f',
  flush_loop cache retain free = (c', f') -> f' ++ c' ≡ₚ free ++ cache.
Proof.
  revert free. induction cache as [|b rest IH]; intros free c' f'.
  - simpl. intros [= <- <-]. done.
  - cbn [flush_loop]. destruct (_ >? _).
    + intros HP%IH. rewrite HP. simpl. by rewrite <- Permutation_middle.
    + intros [= <- <-]. done.
Qed.

(** The multiset of blocks after the cache of [t] and the free list change. *)
Lemma everything_cache (p : FixedBlockPool) (L : gset block) (t : Z) (free cache : list block) (h : Z) :
  everything (set_cache (set_global p free h) t cache) L
  ≡ₚ elements L ++ (free ++ cache) ++ cached (delete t (fp_caches p)).
Proof.
  unfold everything. simpl. rewrite cached_insert. by rewrite <- app_assoc.
Qed.

Lemma everything_split (p : FixedBlockPool) (L : gset block) (t : Z) :
  everything p L ≡ₚ elements L ++ (fp_global_free p ++ local_cache p t) ++ cached (delete t (fp_caches p)).
Proof. unfold everything, local_cache. rewrite (cached_split _ t). by rewrite <- app_assoc. Qed.

Lemma refill_inv (p : FixedBlockPool) (L : gset block) (t : Z) :
  pool_inv p L -> exists p', refill_local_cache p t = Ret p' /\ pool_inv p' L /\ local_cache p' t <> [].
Proof.
  intros I. unfold refill_local_cache.
  set (target := Z.max (fp_local_cache_limit p / 2) 1).
  set (p1 := match fp_global_free p with [] => allocate_slab p | _ :: _ => p end).
  assert (I1 : pool_inv p1 L /\ (1 <= length (fp_global_free p1))%nat).
  { pose proof (allocate_slab_inv p L I) as [I1 Hl]. pose proof (pi_sizes p L I).
    subst p1. destruct (fp_global_free p) eqn:E; [split; [done|lia]|].
    rewrite E. split; [done|simpl; lia]. }
  destruct I1 as [I1 Hl].
  set (n := Z.min target (Z.of_nat (length (fp_global_free p1)))).
  assert (Hn : 1 <= n) by lia.
  destruct (transfer_spec (Z.to_nat n) (fp_global_free p1) (local_cache p1 t)) as (f' & c' & E & HP & Hc);
    [lia|].
  rewrite E, bind_ret. eexists. split; [reflexivity|]. split.
  - apply (pool_inv_move p1 _ L L I1); try done; [|apply I1].
    rewrite everything_cache, HP. symmetry. apply everything_split.
  - unfold local_cache. simpl. rewrite lookup_insert_eq. simpl. intros ->. simpl in Hc. lia.
Qed.

(** Handing out the block on top of the cache. *)
Lemma hand_out_inv (p : FixedBlockPool) (L : gset block) (t h : Z) (b : block) (rest : list block) :
  pool_inv p L -> local_cache p t = b :: rest ->
  b ∉ L /\ pool_inv (count_blocks (set_cache p t rest) h 1) ({[b]} ∪ L).
Proof.
  intros I E.
  assert (HS := everything_split p L t). rewrite E in HS.
  assert (Hb : b ∉ L).
  { pose proof (pi_nodup p L I) as Hnd. rewrite HS in Hnd.
    apply NoDup_app in Hnd as (_ & Hdis & _). intros Hin.
    apply (Hdis b); [by apply elem_of_elements|]. set_solver. }
  split; [done|].
  apply (pool_inv_move p _ L _ I); try done.
  - rewrite HS. change (everything (count_blocks _ _ _) _) with
      (everything (set_cache (set_global p (fp_global_free p) (fp_global_hits p)) t rest) ({[b]} ∪ L)).
    rewrite everything_cache, elements_union_singleton by done.
    rewrite <- (Permutation_middle (fp_global_free p)). simpl. by rewrite Permutation_middle.
  - simpl. rewrite (pi_counter p L I), wrap_u64_add, size_union, size_singleton by set_solver. f_equal. lia.
Qed.

Lemma pool_allocate_spec (t : Z) (p : FixedBlockPool) (L : gset block) : pool_inv p L ->
  exists b p', FixedBlockPool_allocate t p = Ret (b, p') /\ b ∉ L /\ pool_inv p' ({[b]} ∪ L).
Proof.
  intros I. unfold FixedBlockPool_allocate. destruct (local_cache p t) as [|b rest] eqn:E.
  - destruct (refill_inv p L t I) as (p1 & -> & I1 & Hne). rewrite bind_ret.
    destruct (local_cache p1 t) as [|b rest] eqn:E1; [done|].
    destruct (hand_out_inv p1 L t 0 b rest I1 E1). eauto.
  - destruct (hand_out_inv p L t 1 b rest I E). eauto.
Qed.

Lemma pool_deallocate_spec (t : Z) (p : FixedBlockPool) (L : gset block) (b : block) :
  pool_inv p L -> b ∈ L -> pool_inv (FixedBlockPool_deallocate t p (Some b)) (L ∖ {[b]}).
Proof.
  intros I Hb. unfold FixedBlockPool_deallocate.
  set (p1 := count_blocks (set_cache p t (b :: local_cache p t)) 0 (-1)).
  assert (HL : L = {[b]} ∪ (L ∖ {[b]})) by (apply union_difference_L; set_solver).
  assert (I1 : pool_inv p1 (L ∖ {[b]})).
  { apply (pool_inv_move p _ L _ I); try done.
    - rewrite (everything_split p L t), HL, elements_union_singleton by set_solver. rewrite <- HL.
      change (everything p1 (L ∖ {[b]})) with
        (everything (set_cache (set_global p (fp_global_free p) (fp_global_hits p)) t
          (b :: local_cache p t)) (L ∖ {[b]})).
      rewrite everything_cache. rewrite <- (Permutation_middle (fp_global_free p)). simpl.
      symmetry. apply Permutation_middle.
    - simpl. rewrite (pi_counter p L I), wrap_u64_add. f_equal.
      rewrite HL at 1. rewrite size_union, size_singleton by set_solver. lia. }
  destruct (_ >=? _); [|done].
  unfold flush_local_cache. destruct (flush_loop _ _ _) as [c f] eqn:E.
  apply flush_loop_spec in E.
  apply (pool_inv_move p1 _ _ (L ∖ {[b]}) I1); try done; [|apply I1].
  rewrite everything_cache, E. symmetry. apply everything_split.
Qed.

#[export, refine] Instance FixedBlockPool_laws : BlockAllocatorLaws FixedBlockPool := {
  outstanding := pool_inv
}.
Proof.
  - apply pool_allocate_spec.
  - apply pool_deallocate_spec.
Defined.

Lemma pool_new_inv (bs n limit slab : Z) : 0 <= bs -> 1 <= n -> 1 <= limit ->
  Z.max bs 8 * n < two64 ->
  exists p, FixedBlockPool_new bs n limit slab ∅ = Ret p /\ pool_inv p ∅ /\ fp_blocks_per_slab p = n /\
    fp_block_size p = Z.max bs 8.
Proof.
  intros Hb Hn Hl Hw. unfold FixedBlockPool_new, sizeof_pointer.
  rewrite (proj2 (Z.eqb_neq _ _)), (proj2 (Z.eqb_neq limit _)) by lia. simpl.
  eexists. split; [reflexivity|]. split; [|done].
  split; unfold everything, cached; simpl; rewrite ?elements_empty; simpl;
    try rewrite map_to_list_empty; simpl; try done; try constructor; try constructor; try lia.
Qed.

(** ** Cache sizes *)

Definition caches_bounded (p : FixedBlockPool) : Prop :=
  forall t, Z.of_nat (length (local_cache p t)) < fp_local_cache_limit p.

Lemma local_cache_set (p : FixedBlockPool) (t t' : Z) (c : list block) :
  local_cache (set_cache p t c) t' = if decide (t' = t) then c else local_cache p t'.
Proof.
  unfold local_cache. simpl. destruct (decide (t' = t)) as [->|Hne].
  - by rewrite lookup_insert_eq.
  - by rewrite lookup_insert_ne.
Qed.

Lemma refill_cache (p p' : FixedBlockPool) (t t' : Z) :
  refill_local_cache p t = Ret p' -> 1 <= fp_local_cache_limit p -> local_cache p t = [] ->
  fp_local_cache_limit p' = fp_local_cache_limit p /\
  (Z.of_nat (length (local_cache p' t)) <= Z.max (fp_local_cache_limit p / 2) 1) /\
  (t' <> t -> local_cache p' t' = local_cache p t').
Proof.
  intros E Hl He. unfold refill_local_cache in E.
  set (p1 := match fp_global_free p with [] => allocate_slab p | _ :: _ => p end) in E.
  assert (H1 : local_cache p1 t = [] /\ (local_cache p1 t' = local_cache p t') /\
    fp_local_cache_limit p1 = fp_local_cache_limit p).
  { subst p1. by destruct (fp_global_free p). }
  destruct H1 as (H1 & H2 & H3). rewrite H1 in E.
  set (n := Z.min _ _) in E.
  destruct (transfer_spec (Z.to_nat n) (fp_global_free p1) []) as (f' & c' & E' & _ & Hc); [lia|].
  rewrite E', bind_ret in E. injection E as <-. simpl in Hc.
  rewrite !local_cache_set. split_and!; [done| |intros Hne].
  - rewrite decide_True by done. simpl. rewrite Hc, Nat.add_0_r. subst n. lia.
  - by rewrite decide_False.
Qed.

Lemma allocate_bounded (t : Z) (p p' : FixedBlockPool) (b : block) :
  FixedBlockPool_allocate t p = Ret (b, p') -> caches_bounded p -> 1 <= fp_local_cache_limit p ->
  caches_bounded p' /\ fp_local_cache_limit p' = fp_local_cache_limit p.
Proof.
  intros E Hb Hl. unfold FixedBlockPool_allocate in E.
  destruct (local_cache p t) as [|b0 rest] eqn:Ec.
  - apply bind_ret_inv in E as (p1 & E1 & E2).
    destruct (local_cache p1 t) as [|b1 rest] eqn:Ec1; [done|]. injection E2 as <- <-.
    split; [|apply (refill_cache p p1 t t E1 Hl Ec)].
    intros t'. destruct (refill_cache p p1 t t' E1 Hl Ec) as (L1 & L2 & L3).
    change (local_cache (count_blocks ?q _ _) t') with (local_cache q t'). simpl.
    rewrite local_cache_set, L1. rewrite Ec1 in L2. simpl length in L2.
    destruct (decide (t' = t)) as [->|Hne]; [|rewrite L3 by done; apply Hb].
    pose proof (Z.div_lt (fp_local_cache_limit p) 2 ltac:(lia) ltac:(lia)). lia.
  - injection E as <- <-. split; [|done]. intros t'.
    change (local_cache (count_blocks ?q _ _) t') with (local_cache q t'). simpl.
    rewrite local_cache_set. pose proof (Hb t) as Ht. rewrite Ec in Ht. simpl length in Ht.
    destruct (decide (t' = t)); [lia|apply Hb].
Qed.

Lemma flush_loop_length (retain : Z) (cache free : list block) : forall c' f',
  0 <= retain -> flush_loop cache retain free = (c', f') -> Z.of_nat (length c') <= retain.
Proof.
  revert free. induction cache as [|b rest IH]; intros free c' f' Hr.
  - simpl. intros [= <- <-]. done.
  - cbn [flush_loop]. destruct (Z.gtb_spec (Z.of_nat (length (b :: rest))) retain).
    + by apply IH.
    + by intros [= <- <-].
Qed.

Lemma deallocate_bounded (t : Z) (p : FixedBlockPool) (b : block) :
  caches_bounded p -> 1 <= fp_local_cache_limit p ->
  caches_bounded (FixedBlockPool_deallocate t p (Some b)) /\
  fp_local_cache_limit (FixedBlockPool_deallocate t p (Some b)) = fp_local_cache_limit p.
Proof.
  intros Hb Hl. unfold FixedBlockPool_deallocate.
  set (p1 := count_blocks (set_cache p t (b :: local_cache p t)) 0 (-1)).
  assert (H1 : forall t', local_cache p1 t' =
    if decide (t' = t) then b :: local_cache p t else local_cache p t').
  { intros t'. apply local_cache_set. }
  destruct (Z.geb_spec (Z.of_nat (length (local_cache p1 t))) (fp_local_cache_limit p1)) as [Hge|Hlt].
  - unfold flush_local_cache. destruct (flush_loop _ _ _) as [c f] eqn:E.
    apply flush_loop_length in E; [|simpl; apply Z.div_pos; lia].
    split; [|done]. intros t'. rewrite local_cache_set. simpl in *.
    destruct (decide (t' = t)) as [->|Hne].
    + pose proof (Z.div_lt (fp_local_cache_limit p) 2 ltac:(lia) ltac:(lia)). lia.
    + change (local_cache (set_global p1 f _) t') with (local_cache p1 t').
      rewrite H1, decide_False by done. apply Hb.
  - split; [|done]. intros t'. rewrite H1. simpl in Hlt. rewrite H1 in Hlt.
    rewrite decide_True in Hlt by done.
    destruct (decide (t' = t)); [done|apply Hb].
Qed.

(** ** Runs

    What the threads do with one pool: each call is atomic (the cache is the
    thread's own and the shared state is changed under the mutex), and a block
    is only returned by someone who holds it. *)
Inductive pool_op :=
| PoolAlloc (t : Z)
| PoolFree (t : Z) (b : block).

Definition pool_step (s : FixedBlockPool * gset block) (op : pool_op)
    : outcome (FixedBlockPool * gset block) :=
  let '(p, live) := s in
  match op with
  | PoolAlloc t => r ← FixedBlockPool_allocate t p; Ret (r.2, {[r.1]} ∪ live)
  | PoolFree t b =>
    if decide (b ∈ live) then Ret (FixedBlockPool_deallocate t p (Some b), live ∖ {[b]})
    else Ret (p, live)
  end.

Fixpoint pool_run (s : FixedBlockPool * gset block) (ops : list pool_op)
    : outcome (FixedBlockPool * gset block) :=
  match ops with
  | [] => Ret s
  | op :: ops => s ← pool_step s op; pool_run s ops
  end.

Definition pool_ok (s : FixedBlockPool * gset block) : Prop :=
  pool_inv s.1 s.2 /\ caches_bounded s.1.

Lemma pool_step_ok (s : FixedBlockPool * gset block) (op : pool_op) : pool_ok s ->
  exists s', pool_step s op = Ret s' /\ pool_ok s'.
Proof.
  destruct s as [p L]. intros [I B]. pose proof (pi_sizes p L I) as (_ & _ & Hl & _).
  destruct op as [t|t b]; simpl.
  - destruct (pool_allocate_spec t p L I) as (b & p' & E & _ & I').
    rewrite E, bind_ret. eexists. split; [done|]. split; [done|].
    by apply (allocate_bounded t p p' b E).
  - destruct (decide (b ∈ L)); [|eexists; split; [done|by split]].
    eexists. split; [done|]. split; [by apply pool_deallocate_spec|].
    by apply (deallocate_bounded t p b).
Qed.

Lemma pool_run_ok (ops : list pool_op) : forall s, pool_ok s ->
  exists s', pool_run s ops = Ret s' /\ pool_ok s'.
Proof.
  induction ops as [|op ops IH]; intros s Hs; simpl; [eauto|].
  destruct (pool_step_ok s op Hs) as (s1 & -> & Hs1). rewrite bind_ret. by apply IH.
Qed.

(** Two different valid blocks of the same slab do not overlap. *)
Lemma valid_block_disjoint (p : FixedBlockPool) (b b' : block) : 8 <= fp_block_size p ->
  valid_block p b -> valid_block p b' -> b <> b' ->
  b.1 <> b'.1 \/ b.2 + fp_block_size p <= b'.2 \/ b'.2 + fp_block_size p <= b.2.
Proof.
  destruct b as [s o], b' as [s' o']. intros Hs (_ & i & Hi & _) (_ & j & Hj & _) Hne. simpl in *.
  destruct (decide (s = s')) as [<-|]; [right|by left].
  assert (i <> j) by (intros <-; apply Hne; congruence). nia.
Qed.

Lemma pool_inv_live_valid (p : FixedBlockPool) (L : gset block) (b : block) :
  pool_inv p L -> b ∈ L -> valid_block p b.
Proof.
  intros I Hb. pose proof (pi_valid p L I) as HF. rewrite Forall_forall in HF. apply HF.
  unfold everything. apply elem_of_app. left. by apply elem_of_elements.
Qed.

(** A pool of 80-byte objects with slabs of 16 blocks, smaller than the ones the
    engine and the clearing system create, for the concrete runs. *)
Definition sample_storage : FixedBlockPool :=
  match FixedBlockPool_new 80 16 4 0 ∅ with
  | Ret p => p
  | _ => mkPool 0 0 0 [] 0 [] 0 0 0 0 ∅
  end.

Lemma sample_storage_ok : outstanding sample_storage ∅.
Proof.
  destruct (pool_new_inv 80 16 4 0) as (p & E & I & _); [lia|lia|lia|done|].
  unfold sample_storage. rewrite E. exact I.
Qed.

(** ** Properties *)

(** C22. Whatever sequence of allocations and releases any number of threads
    perform on a pool, each call returns, the blocks held are pairwise disjoint,
    each lies inside a slab of the pool, the next allocation on any thread
    succeeds with a block nobody holds, the counter of outstanding blocks is
    exact, every block of every slab is held, free or cached, and no thread ever
    caches as many blocks as the limit. *)
Theorem pool_blocks_exclusive (block_size blocks_per_slab limit slab : Z) (ops : list pool_op) :
  0 <= block_size -> 1 <= blocks_per_slab -> 1 <= limit ->
  Z.max block_size sizeof_pointer * blocks_per_slab < two64 ->
  exists p0 p live,
    FixedBlockPool_new block_size blocks_per_slab limit slab ∅ = Ret p0 /\
    pool_run (p0, ∅) ops = Ret (p, live) /\
    (forall b b', b ∈ live -> b' ∈ live -> b <> b' ->
       b.1 <> b'.1 \/ b.2 + fp_block_size p <= b'.2 \/ b'.2 + fp_block_size p <= b.2) /\
    (forall b, b ∈ live -> b.1 ∈ fp_slabs p /\
       0 <= b.2 /\ b.2 + fp_block_size p <= fp_block_size p * fp_blocks_per_slab p) /\
    (forall t, exists b p', FixedBlockPool_allocate t p = Ret (b, p') /\ b ∉ live) /\
    ps_outstanding_blocks (FixedBlockPool_stats p) = wrap_u64 (Z.of_nat (size live)) /\
    Z.of_nat (length (fp_slabs p)) * fp_blocks_per_slab p =
      Z.of_nat (size live) + ps_global_free_blocks (FixedBlockPool_stats p) +
      Z.of_nat (length (cached (fp_caches p))) /\
    (forall t, Z.of_nat (length (local_cache p t)) < fp_local_cache_limit p).
Proof.
  intros Hb Hn Hl Hw.
  destruct (pool_new_inv block_size blocks_per_slab limit slab Hb Hn Hl Hw) as (p0 & E & I0 & _).
  assert (B0 : pool_ok (p0, ∅)).
  { split; [done|]. unfold FixedBlockPool_new in E.
    destruct (_ || _); [done|]. injection E as <-. intros t. unfold local_cache. simpl. rewrite lookup_empty. simpl. lia. }
  destruct (pool_run_ok ops (p0, ∅) B0) as ([p L] & ER & I & B).
  exists p0, p, L. pose proof (pi_sizes p L I) as (Hs8 & Hs1 & _).
  split_and!; [done|done|..].
  - intros b b' H1 H2. apply valid_block_disjoint; eauto using pool_inv_live_valid.
  - intros b H1. destruct (pool_inv_live_valid p L b I H1) as (? & i & -> & ?). split; [done|]. nia.
  - intros t. destruct (pool_allocate_spec t p L I) as (b & p' & ? & ? & _). eauto.
  - simpl. apply (pi_counter p L I).
  - pose proof (pi_total p L I) as Ht. unfold everything in Ht. rewrite !length_app in Ht.
    unfold size, set_size in *. simpl in *. nia.
  - exact B.
Qed.

Lemma pool_blocks_exclusive_witness :
  let ops := [PoolAlloc 1; PoolAlloc 1; PoolAlloc 2; PoolFree 2 (0, 0); PoolAlloc 2; PoolFree 1 (0, 128)] in
  exists p0 p live, FixedBlockPool_new 64 4 4 0 ∅ = Ret p0 /\
    pool_run (p0, ∅) ops = Ret (p, live) /\ size live = 2%nat /\
    ps_outstanding_blocks (FixedBlockPool_stats p) = 2.
Proof.
  destruct (pool_blocks_exclusive 64 4 4 0 [PoolAlloc 1; PoolAlloc 1; PoolAlloc 2; PoolFree 2 (0, 0);
    PoolAlloc 2; PoolFree 1 (0, 128)]) as (p0 & p & live & E & R & _ & _ & _ & O & _); [lia|lia|lia|reflexivity|].
  exists p0, p, live. assert (Hs : size live = 2%nat).
  { injection E as <-. vm_compute in R. injection R as <- <-. reflexivity. }
  rewrite Hs in O. split_and!; [exact E|exact R|exact Hs|exact O].
Defined.

(** The life of two pools at the same address: thread 1 caches a block of the
    first, thread 0 destroys it, and thread 1 allocates from the second. *)
Definition pool_reuse (block_size blocks_per_slab limit : Z) : outcome (block * FixedBlockPool) :=
  p ← FixedBlockPool_new block_size blocks_per_slab limit 0 ∅;
  r ← FixedBlockPool_allocate 1 p;
  let p := FixedBlockPool_deallocate 1 r.2 (Some r.1) in
  q ← FixedBlockPool_new block_size blocks_per_slab limit (fp_next_slab p)
        (FixedBlockPool_destruct 0 p);
  FixedBlockPool_allocate 1 q.

(** The destructor only erases the cache of the thread that runs it: a pool
    later constructed at the same address hands another thread a block of a slab
    that was freed with the first pool. *)
Fact pool_stale_cache :
  exists b q, pool_reuse 64 4 4 = Ret (b, q) /\ b.1 ∉ fp_slabs q.
Proof. eexists _, _. split; [vm_compute; reflexivity|]. vm_compute. intros H. inversion H. Qed.
