(* ===== verification/Format.v ===== *)
(** * How the standard streams print numbers

    [std::to_string] of an unsigned integer is its decimal numeral;
    [ostream << double] with the default flags is the [%g] conversion with six
    significant digits: the exact binary value is rounded to nearest, ties to
    even, trailing zeros are dropped, and the exponent form is used below 1e-4
    and from 1e+6 on. *)

From S2P Require Import Prelude Double.
From Stdlib Require Import SpecFloat Ascii String.

Local Open Scope string_scope.
Local Open Scope Z_scope.

Definition decimal (z : Z) : string := pretty (Z.to_N z).

(** [n / d] rounded to the nearest integer, ties to even. *)
Definition div_rne (n d : Z) : Z :=
  let q := n / d in
  match 2 * (n mod d) ?= d with
  | Lt => q
  | Eq => if Z.even q then q else q + 1
  | Gt => q + 1
  end.

(** The rational [n / d * 10^k], as numerator and denominator. *)
Definition scale10 (n d k : Z) : Z * Z :=
  if 0 <=? k then (n * 10 ^ k, d) else (n, d * 10 ^ (- k)).

(** The largest [k] with [10^k <= n / d], looking upwards from a lower bound. *)
Fixpoint log10_from (fuel : nat) (n d k : Z) : Z :=
  match fuel with
  | O => k
  | S fuel =>
    let '(n', d') := scale10 n d (- (k + 1)) in
    if d' <=? n' then log10_from fuel n d (k + 1) else k
  end.

(** [log2 (n/d)] is within one of the difference of the logarithms, and
    30103/100000 is log10 2 to six digits: three steps reach the answer. *)
Definition floor_log10 (n d : Z) : Z :=
  log10_from 4 n d ((Z.log2 n - Z.log2 d - 1) * 30103 / 100000 - 1).

(** Six significant digits and the decimal exponent of the first. *)
Definition six_digits (n d : Z) : Z * Z :=
  let x := floor_log10 n d in
  let '(n', d') := scale10 n d (5 - x) in
  let q := div_rne n' d' in
  if q =? 10 ^ 6 then (10 ^ 5, x + 1) else (q, x).

Fixpoint repeat_char (n : nat) (c : Ascii.ascii) : string :=
  match n with O => "" | S n => String c (repeat_char n c) end.

Fixpoint strip_zeros (s : string) : string :=
  match s with
  | "" => ""
  | String c s =>
    match strip_zeros s with
    | "" => if Ascii.eqb c "0"%char then "" else String c ""
    | s' => String c s'
    end
  end.

Definition with_fraction (int frac : string) : string :=
  match strip_zeros frac with "" => int | f => int +:+ "." +:+ f end.

Definition exponent_suffix (x : Z) : string :=
  (if x <? 0 then "e-" else "e+") +:+ (if Z.abs x <? 10 then "0" else "") +:+ decimal (Z.abs x).

Definition format_positive (n d : Z) : string :=
  let '(q, x) := six_digits n d in
  let ds := decimal q in
  if (x <? -4) || (6 <=? x)
  then with_fraction (substring 0 1 ds) (substring 1 5 ds) +:+ exponent_suffix x
  else if x <? 0
  then with_fraction "0" (repeat_char (Z.to_nat (- x - 1)) "0"%char +:+ ds)
  else with_fraction (substring 0 (Z.to_nat (x + 1)) ds) (substring (Z.to_nat (x + 1)) 5 ds).

(** A NaN's sign bit, which the stream also prints, is not part of the model. *)
Definition format_double (x : double) : string :=
  match x with
  | S754_nan => "nan"
  | S754_infinity s => (if s then "-" else "") +:+ "inf"
  | S754_zero s => (if s then "-" else "") +:+ "0"
  | S754_finite s m e =>
    (if s then "-" else "") +:+
    (if 0 <=? e then format_positive (Zpos m * 2 ^ e) 1 else format_positive (Zpos m) (2 ^ (- e)))
  end.

Example format_examples :
  map format_double [dlit 10025 2; dlit 1 1; dlit 1 5; dlit 123456789 0; double_of_Z 1000000; double_of_Z 100000;
    dlit 9999996 1; dlit 2 0; dlit (-25) 1; dlit 123456 9; dlit 12345678 12; eps; dlit 99999950 2] =
  ["100.25"; "0.1"; "1e-05"; "1.23457e+08"; "1e+06"; "100000"; "1e+06"; "2"; "-2.5"; "0.000123456";
   "1.23457e-05"; "1e-09"; "1e+06"].
Proof. vm_compute. reflexivity. Qed.
