(* ===== verification/Orderbook.v ===== *)
(** * The matching engine: data and operations
    ([core-exchange/orderbook-matching-engine])

    One definition per member of [OrderbookMatchingEngine], in the order in
    which the members use each other. Resting orders live in an [ObjectPool]
    and are reached through pointers ([block]s): the level queues, and the map
    of live orders, hold the pointer, so a use of a destroyed order is a
    dangling pointer ([Undef]). The storage of the pool is any
    [BlockAllocator]; [tid] is the thread that calls the engine. The proofs are
    in [Matching], [MatchSpec] and [EngineProofs]. *)

From S2P Require Import Prelude Double StdMap MarketTypes DepthBook Broadcaster Queue Spsc Allocator Format.

Local Open Scope Z_scope.

(** ** Data ([orderbook_matching_engine.hpp]) *)

Inductive Side := kBuy | kSell.
Inductive OrderType := kLimit | kMarket.
Inductive TimeInForce := kGtc | kIoc | kFok | kGtx.
Inductive OrderStatus := kAccepted | kPartiallyFilled | kFilled | kCancelled | kRejected.
Inductive RejectReason :=
| kNone
| kDuplicateOrderId
| kWouldCrossPostOnly
| kInsufficientLiquidity
| kMarketOrderWouldRest
| kOrderNotFound.

#[export] Instance Side_eq_dec : EqDecision Side.
Proof. solve_decision. Defined.
#[export] Instance OrderType_eq_dec : EqDecision OrderType.
Proof. solve_decision. Defined.
#[export] Instance TimeInForce_eq_dec : EqDecision TimeInForce.
Proof. solve_decision. Defined.
#[export] Instance OrderStatus_eq_dec : EqDecision OrderStatus.
Proof. solve_decision. Defined.
#[export] Instance RejectReason_eq_dec : EqDecision RejectReason.
Proof. solve_decision. Defined.

Record OrderRequest := mkOrderRequest {
  rq_order_id : string;
  rq_side : Side;
  rq_type : OrderType;
  rq_tif : TimeInForce;
  rq_price : double;
  rq_quantity : double;
  rq_timestamp : Z
}.

Record Trade := mkTrade {
  tr_maker_order_id : string;
  tr_taker_order_id : string;
  tr_price : double;
  tr_quantity : double
}.

Record MatchResult := mkMatchResult {
  mr_accepted : bool;
  mr_final_status : OrderStatus;
  mr_reject_reason : RejectReason;
  mr_executed_quantity : double;
  mr_remaining_quantity : double;
  mr_trades : list Trade
}.

Record RestingOrderView := mkRestingOrderView {
  rv_order_id : string;
  rv_side : Side;
  rv_price : double;
  rv_open_quantity : double
}.

Record EngineEvent := mkEngineEvent {
  ev_topic : string;
  ev_payload : string
}.

Record RestingOrder := mkRestingOrder {
  ro_order_id : string;
  ro_side : Side;
  ro_price : double;
  ro_open_quantity : double;
  ro_timestamp : Z
}.

(** [std::deque<RestingOrder*>], the front first, and a book: price to queue. *)
Abbreviation OrderQueue := (list block).
Abbreviation OrderBook := (list (double * OrderQueue)).

Definition kPriceEpsilon : double := eps.

Definition is_zero (value : double) : bool := dle (dabs value) kPriceEpsilon.

Definition status_to_string (status : OrderStatus) : string :=
  match status with
  | kAccepted => "accepted"
  | kPartiallyFilled => "partially_filled"
  | kFilled => "filled"
  | kCancelled => "cancelled"
  | kRejected => "rejected"
  end.

Definition reason_to_string (reason : RejectReason) : string :=
  match reason with
  | kNone => "none"
  | kDuplicateOrderId => "duplicate_order_id"
  | kWouldCrossPostOnly => "would_cross_post_only"
  | kInsufficientLiquidity => "insufficient_liquidity"
  | kMarketOrderWouldRest => "market_order_would_rest"
  | kOrderNotFound => "order_not_found"
  end.

Definition format_trade_payload (t : Trade) : string :=
  "maker=" +:+ tr_maker_order_id t +:+ ",taker=" +:+ tr_taker_order_id t +:+ ",price=" +:+
  format_double (tr_price t) +:+ ",qty=" +:+ format_double (tr_quantity t).

Definition make_rejected_result (reason : RejectReason) (remaining_quantity : double) : MatchResult :=
  mkMatchResult false kRejected reason dzero remaining_quantity [].

Definition make_accepted_result (requested_quantity : double) : MatchResult :=
  mkMatchResult true kAccepted kNone dzero requested_quantity [].

Section Engine.
Context {A : Type} `{BlockAllocator A} (tid : Z).

Record Engine := mkEngine {
  en_symbol : string;
  en_pool : ObjectPool A RestingOrder;
  en_bids : OrderBook;
  en_asks : OrderBook;
  en_live : gmap string block;
  en_depth : DepthBook;
  en_broadcaster : Broadcaster;
  en_events : SpscRingQueue EngineEvent
}.

Definition Engine_new (storage : A) (symbol : string) (event_queue_capacity : Z) : outcome Engine :=
  events ← Spsc_new event_queue_capacity;
  if bool_decide (symbol = "") then Throw "symbol must not be empty"
  else Ret (mkEngine symbol (mkObjectPool storage ∅) [] [] ∅ (DepthBook_new symbol)
              Broadcaster_new events).

(** ** Field updates *)

Definition set_feed (e : Engine) (b : Broadcaster) (q : SpscRingQueue EngineEvent) : Engine :=
  mkEngine (en_symbol e) (en_pool e) (en_bids e) (en_asks e) (en_live e) (en_depth e) b q.
Definition set_pool (e : Engine) (p : ObjectPool A RestingOrder) : Engine :=
  mkEngine (en_symbol e) p (en_bids e) (en_asks e) (en_live e) (en_depth e) (en_broadcaster e) (en_events e).
Definition set_live (e : Engine) (m : gmap string block) : Engine :=
  mkEngine (en_symbol e) (en_pool e) (en_bids e) (en_asks e) m (en_depth e) (en_broadcaster e) (en_events e).
Definition set_depth (e : Engine) (d : DepthBook) : Engine :=
  mkEngine (en_symbol e) (en_pool e) (en_bids e) (en_asks e) (en_live e) d (en_broadcaster e) (en_events e).
(** [bids_] is the book of bids, [asks_] of asks. *)
Definition book_of (e : Engine) (s : MarketSide) : OrderBook :=
  match s with kBid => en_bids e | kAsk => en_asks e end.
Definition set_book (e : Engine) (s : MarketSide) (b : OrderBook) : Engine :=
  match s with
  | kBid => mkEngine (en_symbol e) (en_pool e) b (en_asks e) (en_live e) (en_depth e)
              (en_broadcaster e) (en_events e)
  | kAsk => mkEngine (en_symbol e) (en_pool e) (en_bids e) b (en_live e) (en_depth e)
              (en_broadcaster e) (en_events e)
  end.
Definition book_comp (s : MarketSide) : double -> double -> bool :=
  match s with kBid => dgt | kAsk => dlt end.
Definition depth_side (s : Side) : MarketSide := match s with kBuy => kBid | kSell => kAsk end.

(** ** Events *)

Definition publish_market_data (e : Engine) (topic payload : string) : Engine :=
  set_feed e (Broadcaster_publish (en_broadcaster e) topic payload).2 (en_events e).

(** [event_queue_.push(...)]: whether the queue was full is ignored. *)
Definition push_event (e : Engine) (topic payload : string) : outcome Engine :=
  r ← Spsc_emplace (en_events e) (mkEngineEvent topic payload);
  Ret (set_feed e (en_broadcaster e) r.2).

Definition emit_order_event (e : Engine) (order_id : string) (status : OrderStatus)
    (reason : RejectReason) (open_quantity : double) : outcome Engine :=
  let event_payload :=
    "order_id=" +:+ order_id +:+ ",status=" +:+ status_to_string status +:+ ",reason=" +:+
    reason_to_string reason +:+ ",open_qty=" +:+ format_double open_quantity in
  push_event (publish_market_data e ("orders." +:+ en_symbol e) event_payload) "orders" event_payload.

Definition emit_trade_event (e : Engine) (t : Trade) : outcome Engine :=
  let payload := format_trade_payload t in
  push_event (publish_market_data e ("trades." +:+ en_symbol e) payload) "trades" payload.

Definition emit_depth_event (e : Engine) : outcome Engine :=
  let top := DepthBook_snapshot (en_depth e) 5 in
  let event_payload :=
    "bids=" +:+ decimal (Z.of_nat (List.length (ds_bids top))) +:+ ",asks=" +:+
    decimal (Z.of_nat (List.length (ds_asks top))) in
  push_event (publish_market_data e ("depth." +:+ en_symbol e) event_payload) "depth" event_payload.

(** ** Adding and removing resting orders *)

Definition update_depth (e : Engine) (s : MarketSide) (price quantity : double) : Engine :=
  set_depth e (DepthBook_update (en_depth e) s price quantity).2.

(** [order_pool_.create()] value-initialises the order; the fields are assigned
    through the pointer. [live_orders_.emplace] keeps an existing entry. *)
Definition add_resting_order (e : Engine) (request : OrderRequest) (remaining_quantity : double)
    : outcome Engine :=
  created ← ObjectPool_create tid (en_pool e) (inr (mkRestingOrder "" kBuy dzero dzero 0));
  match created with
  | (inl what, _) => Throw what
  | (inr order, pool) =>
    pool ← ObjectPool_write pool order (fun _ =>
      mkRestingOrder (rq_order_id request) (rq_side request) (rq_price request)
        remaining_quantity (rq_timestamp request));
    let e := set_pool e pool in
    let live := match en_live e !! rq_order_id request with
                | Some _ => en_live e
                | None => <[rq_order_id request := order]> (en_live e)
                end in
    let e := set_live e live in
    let s := depth_side (rq_side request) in
    let e := set_book e s
      (map_update (book_comp s) (rq_price request) [] (fun queue => queue ++ [order]) (book_of e s)) in
    emit_depth_event (update_depth e s (rq_price request) remaining_quantity)
  end.

(** [for (queued : queue) aggregate_quantity += queued->open_quantity] *)
Fixpoint aggregate_quantity (pool : ObjectPool A RestingOrder) (queue : OrderQueue) (sum : double)
    : outcome double :=
  match queue with
  | [] => Ret sum
  | queued :: queue =>
    o ← ObjectPool_read pool queued;
    aggregate_quantity pool queue (dadd sum (ro_open_quantity o))
  end.

(** [queue.erase(std::find(queue.begin(), queue.end(), order))] when found. *)
Fixpoint erase_pointer (order : block) (queue : OrderQueue) : OrderQueue :=
  match queue with
  | [] => []
  | b :: queue => if decide (b = order) then queue else b :: erase_pointer order queue
  end.

Definition remove_from_book (e : Engine) (s : MarketSide) (order : block) (price : double)
    : outcome Engine :=
  match map_find (book_comp s) price (book_of e s) with
  | None => Ret e
  | Some queue =>
    let queue := erase_pointer order queue in
    let e := set_book e s (map_update (book_comp s) price [] (fun _ => queue) (book_of e s)) in
    aggregate ← aggregate_quantity (en_pool e) queue dzero;
    let e := update_depth e s price aggregate in
    Ret (match queue with
         | [] => set_book e s (map_erase (book_comp s) price (book_of e s))
         | _ :: _ => e
         end)
  end.

Definition remove_resting_order (e : Engine) (order : block) : outcome Engine :=
  o ← ObjectPool_read (en_pool e) order;
  e ← remove_from_book e (depth_side (ro_side o)) order (ro_price o);
  let e := set_live e (delete (ro_order_id o) (en_live e)) in
  pool ← ObjectPool_destroy tid (en_pool e) (Some order);
  emit_depth_event (set_pool e pool).

(** ** Matching *)

(** The limit check at the head of both loops: the best level of side [s] is
    too expensive for a buyer, or too cheap for a seller. *)
Definition beyond_limit (s : MarketSide) (request : OrderRequest) (level_price : double) : bool :=
  bool_decide (rq_type request = kLimit) &&
  match s with
  | kAsk => dgt (dsub level_price (rq_price request)) kPriceEpsilon
  | kBid => dgt (dsub (rq_price request) level_price) kPriceEpsilon
  end.

Definition with_open (o : RestingOrder) (q : double) : RestingOrder :=
  mkRestingOrder (ro_order_id o) (ro_side o) (ro_price o) q (ro_timestamp o).

(** The body of [match_against_asks] and [match_against_bids], which differ only
    in the book, the limit check and the depth side: one fill against the front
    of the best level. *)
Definition fill_front (s : MarketSide) (e : Engine) (request : OrderRequest) (remaining : double)
    (queue : OrderQueue) : outcome (double * Trade * Engine) :=
  maker ← deref (head queue) "front() of an empty deque";
  o ← ObjectPool_read (en_pool e) maker;
  let fill_quantity := dmin remaining (ro_open_quantity o) in
  let open := dsub (ro_open_quantity o) fill_quantity in
  pool ← ObjectPool_write (en_pool e) maker (fun o => with_open o open);
  let e := set_pool e pool in
  let remaining := dsub remaining fill_quantity in
  let trade := mkTrade (ro_order_id o) (rq_order_id request) (ro_price o) fill_quantity in
  e ← emit_trade_event e trade;
  if dle open kPriceEpsilon
  then
    e ← emit_order_event e (ro_order_id o) kFilled kNone dzero;
    e ← remove_resting_order e maker;
    Ret (remaining, trade, e)
  else
    aggregate ← aggregate_quantity (en_pool e) queue dzero;
    let e := update_depth e s (ro_price o) aggregate in
    e ← emit_order_event e (ro_order_id o) kPartiallyFilled kNone open;
    e ← emit_depth_event e;
    Ret (remaining, trade, e).

Fixpoint match_loop (fuel : nat) (s : MarketSide) (e : Engine) (request : OrderRequest)
    (remaining : double) (trades : list Trade) : outcome (double * list Trade * Engine) :=
  match fuel with
  | O => Undef "the matching loop does not end"
  | S fuel =>
    if dgt remaining kPriceEpsilon
    then match book_of e s with
         | [] => Ret (remaining, trades, e)
         | (level_price, queue) :: _ =>
           if beyond_limit s request level_price then Ret (remaining, trades, e)
           else
             r ← fill_front s e request remaining queue;
             let '(remaining, trade, e) := r in
             match_loop fuel s e request remaining (trades ++ [trade])
         end
    else Ret (remaining, trades, e)
  end.

(** Each fill removes an order or is the last; one more test ends the loop. *)
Definition match_fuel (e : Engine) (s : MarketSide) : nat :=
  S (S (List.length (concat (map snd (book_of e s))))).

Definition match_against_asks (e : Engine) (request : OrderRequest) (remaining : double)
    : outcome (double * list Trade * Engine) :=
  match_loop (match_fuel e kAsk) kAsk e request remaining [].

Definition match_against_bids (e : Engine) (request : OrderRequest) (remaining : double)
    : outcome (double * list Trade * Engine) :=
  match_loop (match_fuel e kBid) kBid e request remaining [].

Definition match_request (e : Engine) (request : OrderRequest) (remaining : double)
    : outcome (double * list Trade * Engine) :=
  match rq_side request with
  | kBuy => match_against_asks e request remaining
  | kSell => match_against_bids e request remaining
  end.

(** ** Finalisation *)

Definition set_result (result : MatchResult) (accepted : bool) (status : OrderStatus)
    (reason : RejectReason) : MatchResult :=
  mkMatchResult accepted status reason (mr_executed_quantity result) (mr_remaining_quantity result)
    (mr_trades result).

Definition set_quantities (result : MatchResult) (executed remaining : double) : MatchResult :=
  mkMatchResult (mr_accepted result) (mr_final_status result) (mr_reject_reason result)
    executed remaining (mr_trades result).

Definition finalize_limit_result (e : Engine) (request : OrderRequest) (remaining_quantity : double)
    (result : MatchResult) : outcome (MatchResult * Engine) :=
  let result := set_quantities result (dsub (rq_quantity request) remaining_quantity) remaining_quantity in
  let executed := dgt (mr_executed_quantity result) dzero in
  let finish (status : OrderStatus) (open_quantity : double) (e : Engine) :=
    e ← emit_order_event e (rq_order_id request) status kNone open_quantity;
    Ret (set_result result (mr_accepted result) status (mr_reject_reason result), e) in
  if is_zero remaining_quantity
  then finish (if executed then kFilled else kAccepted) dzero e
  else if bool_decide (rq_tif request = kIoc)
  then finish (if executed then kPartiallyFilled else kCancelled) remaining_quantity e
  else
    e ← add_resting_order e request remaining_quantity;
    finish (if executed then kPartiallyFilled else kAccepted) remaining_quantity e.

Definition finalize_market_result (e : Engine) (request : OrderRequest) (remaining_quantity : double)
    (result : MatchResult) : outcome (MatchResult * Engine) :=
  let result := set_quantities result (dsub (rq_quantity request) remaining_quantity) remaining_quantity in
  let executed := dgt (mr_executed_quantity result) dzero in
  if is_zero remaining_quantity
  then
    e ← emit_order_event e (rq_order_id request) kFilled kNone dzero;
    Ret (set_result result (mr_accepted result) kFilled (mr_reject_reason result), e)
  else if bool_decide (rq_tif request = kIoc) || executed
  then
    let status := if executed then kPartiallyFilled else kCancelled in
    e ← emit_order_event e (rq_order_id request) status kNone remaining_quantity;
    Ret (set_result result (mr_accepted result) status (mr_reject_reason result), e)
  else
    e ← emit_order_event e (rq_order_id request) kRejected kMarketOrderWouldRest remaining_quantity;
    Ret (set_result result false kRejected kMarketOrderWouldRest, e).

(** ** Admission checks *)

(** [can_fill_fully]: the inner loop over one queue; [inl tt] is the early
    [return true]. *)
Fixpoint fill_queue (pool : ObjectPool A RestingOrder) (queue : OrderQueue) (remaining : double)
    : outcome (unit + double) :=
  match queue with
  | [] => Ret (inr remaining)
  | order :: queue =>
    o ← ObjectPool_read pool order;
    let remaining := dsub remaining (ro_open_quantity o) in
    if dle remaining kPriceEpsilon then Ret (inl tt) else fill_queue pool queue remaining
  end.

Fixpoint fill_levels (pool : ObjectPool A RestingOrder) (s : MarketSide) (request : OrderRequest)
    (book : OrderBook) (remaining : double) : outcome bool :=
  match book with
  | [] => Ret (dle remaining kPriceEpsilon)
  | (price, queue) :: book =>
    if beyond_limit s request price then Ret (dle remaining kPriceEpsilon)
    else
      r ← fill_queue pool queue remaining;
      match r with
      | inl _ => Ret true
      | inr remaining => fill_levels pool s request book remaining
      end
  end.

(** The side a request trades against. *)
Definition opposite (s : Side) : MarketSide := match s with kBuy => kAsk | kSell => kBid end.

Definition can_fill_fully (e : Engine) (request : OrderRequest) : outcome bool :=
  let s := opposite (rq_side request) in
  fill_levels (en_pool e) s request (book_of e s) (rq_quantity request).

Definition has_best (e : Engine) (s : MarketSide) : bool :=
  match book_of e s with [] => false | _ :: _ => true end.

Definition best_price (e : Engine) (s : MarketSide) : double :=
  match book_of e s with [] => dzero | (price, _) :: _ => price end.

Definition would_cross (e : Engine) (request : OrderRequest) : bool :=
  match rq_side request with
  | kBuy => has_best e kAsk && dge (dadd (rq_price request) kPriceEpsilon) (best_price e kAsk)
  | kSell => has_best e kBid && dle (rq_price request) (dadd (best_price e kBid) kPriceEpsilon)
  end.

(** ** Requests *)

Definition reject (e : Engine) (request : OrderRequest) (reason : RejectReason)
    : outcome (MatchResult * Engine) :=
  e ← emit_order_event e (rq_order_id request) kRejected reason (rq_quantity request);
  Ret (make_rejected_result reason (rq_quantity request), e).

Definition match_and_finalize
    (finalize : Engine -> OrderRequest -> double -> MatchResult -> outcome (MatchResult * Engine))
    (e : Engine) (request : OrderRequest) : outcome (MatchResult * Engine) :=
  let result := make_accepted_result (rq_quantity request) in
  m ← match_request e request (rq_quantity request);
  let '(remaining_quantity, trades, e) := m in
  finalize e request remaining_quantity
    (mkMatchResult (mr_accepted result) (mr_final_status result) (mr_reject_reason result)
       (mr_executed_quantity result) (mr_remaining_quantity result) trades).

(** [tif == kFok && !can_fill_fully(request)] *)
Definition fok_fails (e : Engine) (request : OrderRequest) : outcome bool :=
  if bool_decide (rq_tif request = kFok)
  then fillable ← can_fill_fully e request; Ret (negb fillable)
  else Ret false.

Definition handle_limit_order (e : Engine) (request : OrderRequest) : outcome (MatchResult * Engine) :=
  if bool_decide (rq_tif request = kGtx) && would_cross e request
  then reject e request kWouldCrossPostOnly
  else
    fails ← fok_fails e request;
    if (fails : bool) then reject e request kInsufficientLiquidity
    else match_and_finalize finalize_limit_result e request.

Definition handle_market_order (e : Engine) (request : OrderRequest) : outcome (MatchResult * Engine) :=
  fails ← fok_fails e request;
  if (fails : bool) then reject e request kInsufficientLiquidity
  else match_and_finalize finalize_market_result e request.

Definition Engine_submit (e : Engine) (request : OrderRequest) : outcome (MatchResult * Engine) :=
  if bool_decide (rq_order_id request = "") || dle (rq_quantity request) dzero
  then Ret (mkMatchResult false kRejected kInsufficientLiquidity dzero (rq_quantity request) [], e)
  else
    match en_live e !! rq_order_id request with
    | Some _ =>
      e ← emit_order_event e (rq_order_id request) kRejected kDuplicateOrderId (rq_quantity request);
      Ret (mkMatchResult false kRejected kDuplicateOrderId dzero (rq_quantity request) [], e)
    | None =>
      match rq_type request with
      | kLimit => handle_limit_order e request
      | kMarket => handle_market_order e request
      end
    end.

Definition Engine_cancel (e : Engine) (order_id : string) (timestamp : Z)
    : outcome (MatchResult * Engine) :=
  match en_live e !! order_id with
  | None => Ret (mkMatchResult false kRejected kOrderNotFound dzero dzero [], e)
  | Some order =>
    o ← ObjectPool_read (en_pool e) order;
    let open_quantity := ro_open_quantity o in
    e ← remove_resting_order e order;
    e ← emit_order_event e order_id kCancelled kNone dzero;
    Ret (mkMatchResult true kCancelled kNone dzero open_quantity [], e)
  end.

(** ** Queries *)

Definition Engine_snapshot (e : Engine) (depth : Z) : DepthSnapshot :=
  DepthBook_snapshot (en_depth e) depth.

Definition Engine_replay_market_data (e : Engine) (topic : string) (sequence_after : Z)
    : list BroadcastMessage :=
  Broadcaster_replay (en_broadcaster e) topic sequence_after.

Definition Engine_poll_event (e : Engine) : outcome (option EngineEvent * Engine) :=
  r ← Spsc_try_pop (en_events e);
  Ret (r.1, set_feed e (en_broadcaster e) r.2).

(** [left.order_id < right.order_id] as a total preorder for the sort. *)
Definition view_le (a b : RestingOrderView) : Prop :=
  String.leb (rv_order_id a) (rv_order_id b) = true.
#[export] Instance view_le_dec : RelDecision view_le.
Proof. intros a b. unfold view_le. apply _. Defined.

Fixpoint order_views (pool : ObjectPool A RestingOrder) (live : list (string * block))
    : outcome (list RestingOrderView) :=
  match live with
  | [] => Ret []
  | (order_id, order) :: live =>
    o ← ObjectPool_read pool order;
    views ← order_views pool live;
    Ret (mkRestingOrderView order_id (ro_side o) (ro_price o) (ro_open_quantity o) :: views)
  end.

Definition Engine_resting_orders (e : Engine) : outcome (list RestingOrderView) :=
  views ← order_views (en_pool e) (map_to_list (en_live e));
  Ret (merge_sort view_le views).

Definition Engine_live_order_count (e : Engine) : Z := Z.of_nat (size (en_live e)).
End Engine.
Arguments Engine A : clear implicits.
