(* ===== verification/MatchSpec.v ===== *)
(** * What the matching engine promises

    The specification of the engine has no pointers, maps, pool, depth book or
    events: a book is two lists of resting orders in priority order (best price
    first, oldest first within a price), a request consumes the opposite list
    from its front and rests, if it rests, behind every order of its price.
    [Matching] proves that the engine implements it; the lemmas here are about
    the specification alone. *)

From S2P Require Import Prelude Double MarketTypes DepthBook Allocator Orderbook.

Local Open Scope Z_scope.

(** Best first: a smaller rank is a better price. *)
Definition price_rank (s : MarketSide) (p : double) : Z :=
  match s with kBid => - val p | kAsk => val p end.

(** Fill the request against the makers in order, stopping at the first maker
    beyond the limit. *)
Fixpoint consume (s : MarketSide) (request : OrderRequest) (remaining : double)
    (makers : list RestingOrder) : double * list Trade * list RestingOrder :=
  match makers with
  | [] => (remaining, [], [])
  | m :: makers' =>
    if dgt remaining kPriceEpsilon && negb (beyond_limit s request (ro_price m)) then
      let fill := dmin remaining (ro_open_quantity m) in
      let open := dsub (ro_open_quantity m) fill in
      let trade := mkTrade (ro_order_id m) (rq_order_id request) (ro_price m) fill in
      if dle open kPriceEpsilon then
        let '(remaining', trades, rest) := consume s request (dsub remaining fill) makers' in
        (remaining', trade :: trades, rest)
      else (dsub remaining fill, [trade], with_open m open :: makers')
    else (remaining, [], makers)
  end.

(** Whether the makers within the limit can take the whole quantity. *)
Fixpoint fillable (s : MarketSide) (request : OrderRequest) (remaining : double)
    (makers : list RestingOrder) : bool :=
  match makers with
  | [] => dle remaining kPriceEpsilon
  | m :: makers =>
    if beyond_limit s request (ro_price m) then dle remaining kPriceEpsilon
    else
      let remaining := dsub remaining (ro_open_quantity m) in
      dle remaining kPriceEpsilon || fillable s request remaining makers
  end.

(** Behind every order whose price is not worse. *)
Fixpoint insert_resting (s : MarketSide) (o : RestingOrder) (makers : list RestingOrder)
    : list RestingOrder :=
  match makers with
  | [] => [o]
  | m :: makers' =>
    if book_comp s (ro_price o) (ro_price m) then o :: makers
    else m :: insert_resting s o makers'
  end.

Record Book := mkBook { bk_bids : list RestingOrder; bk_asks : list RestingOrder }.

Definition side_of (b : Book) (s : MarketSide) : list RestingOrder :=
  match s with kBid => bk_bids b | kAsk => bk_asks b end.
Definition set_side (b : Book) (s : MarketSide) (l : list RestingOrder) : Book :=
  match s with kBid => mkBook l (bk_asks b) | kAsk => mkBook (bk_bids b) l end.

Definition resting_of (request : OrderRequest) (remaining : double) : RestingOrder :=
  mkRestingOrder (rq_order_id request) (rq_side request) (rq_price request) remaining
    (rq_timestamp request).

(** A request that passed the admission checks. *)
Definition spec_execute (b : Book) (request : OrderRequest) : MatchResult * Book :=
  let s := opposite (rq_side request) in
  let '(remaining, trades, rest) := consume s request (rq_quantity request) (side_of b s) in
  let b := set_side b s rest in
  let executed := dsub (rq_quantity request) remaining in
  let filled := dgt executed dzero in
  let result status := mkMatchResult true status kNone executed remaining trades in
  let is_limit := bool_decide (rq_type request = kLimit) in
  if is_zero remaining
  then (result (if filled || negb is_limit then kFilled else kAccepted), b)
  else if bool_decide (rq_tif request = kIoc) || (negb is_limit && filled)
  then (result (if filled then kPartiallyFilled else kCancelled), b)
  else if is_limit
  then
    let own := depth_side (rq_side request) in
    (result (if filled then kPartiallyFilled else kAccepted),
     set_side b own (insert_resting own (resting_of request remaining) (side_of b own)))
  else (mkMatchResult false kRejected kMarketOrderWouldRest executed remaining trades, b).

Definition crosses (b : Book) (request : OrderRequest) : bool :=
  match head (side_of b (opposite (rq_side request))) with
  | None => false
  | Some best =>
    match rq_side request with
    | kBuy => dge (dadd (rq_price request) kPriceEpsilon) (ro_price best)
    | kSell => dle (rq_price request) (dadd (ro_price best) kPriceEpsilon)
    end
  end.

Definition has_order (b : Book) (id : string) : bool :=
  existsb (fun o => bool_decide (ro_order_id o = id)) (bk_bids b ++ bk_asks b).

Definition rejected (request : OrderRequest) (reason : RejectReason) : MatchResult :=
  make_rejected_result reason (rq_quantity request).

Definition spec_submit (b : Book) (request : OrderRequest) : MatchResult * Book :=
  if bool_decide (rq_order_id request = "") || dle (rq_quantity request) dzero
  then (rejected request kInsufficientLiquidity, b)
  else if has_order b (rq_order_id request) then (rejected request kDuplicateOrderId, b)
  else if bool_decide (rq_type request = kLimit) && bool_decide (rq_tif request = kGtx) &&
          crosses b request
  then (rejected request kWouldCrossPostOnly, b)
  else if bool_decide (rq_tif request = kFok) &&
          negb (fillable (opposite (rq_side request)) request (rq_quantity request)
                  (side_of b (opposite (rq_side request))))
  then (rejected request kInsufficientLiquidity, b)
  else spec_execute b request.

Definition without (id : string) (l : list RestingOrder) : list RestingOrder :=
  List.filter (fun o => negb (bool_decide (ro_order_id o = id))) l.

Definition spec_cancel (b : Book) (id : string) : MatchResult * Book :=
  match List.find (fun o => bool_decide (ro_order_id o = id)) (bk_bids b ++ bk_asks b) with
  | None => (mkMatchResult false kRejected kOrderNotFound dzero dzero [], b)
  | Some o =>
    (mkMatchResult true kCancelled kNone dzero (ro_open_quantity o) [],
     mkBook (without id (bk_bids b)) (without id (bk_asks b)))
  end.

(** ** Well-formed books *)

(** A resting order of side [s]: a finite price and an open quantity above the
    tolerance. *)
Definition order_ok (s : MarketSide) (o : RestingOrder) : Prop :=
  depth_side (ro_side o) = s /\ fin (ro_price o) = true /\ fin (ro_open_quantity o) = true /\
  val eps < val (ro_open_quantity o).

Definition priority (s : MarketSide) (a b : RestingOrder) : Prop :=
  price_rank s (ro_price a) <= price_rank s (ro_price b).

Record book_wf (b : Book) : Prop := {
  bw_orders : forall s, Forall (order_ok s) (side_of b s);
  bw_sorted : forall s, StronglySorted (priority s) (side_of b s);
  bw_ids : NoDup (map ro_order_id (bk_bids b ++ bk_asks b));
  bw_uncrossed : forall x y, x ∈ bk_bids b -> y ∈ bk_asks b -> val (ro_price x) < val (ro_price y)
}.

(** A request the double-precision model covers: finite, and a limit order has a
    finite price. *)
Definition request_ok (request : OrderRequest) : Prop :=
  fin (rq_quantity request) = true /\ fin (rq_price request) = true.

Lemma price_rank_comp (s : MarketSide) (p q : double) : fin p = true -> fin q = true ->
  book_comp s p q = (price_rank s p <? price_rank s q).
Proof.
  intros Hp Hq. destruct s; simpl; unfold price_rank.
  - rewrite dgt_val by done. destruct (Z.ltb_spec (val q) (val p)), (Z.ltb_spec (- val p) (- val q)); lia || done.
  - by apply dlt_val.
Qed.

(** ** The limit check *)

(** How far beyond the request's price a level is. *)
Definition overshoot (s : MarketSide) (request : OrderRequest) (p : double) : Z :=
  match s with
  | kAsk => val p - val (rq_price request)
  | kBid => val (rq_price request) - val p
  end.

Lemma beyond_limit_val (s : MarketSide) (request : OrderRequest) (p : double) :
  fin (rq_price request) = true -> fin p = true ->
  beyond_limit s request p =
  (bool_decide (rq_type request = kLimit) && (val eps <? rnd (overshoot s request p))).
Proof.
  intros Hr Hp. unfold beyond_limit, kPriceEpsilon. destruct s; simpl;
    by rewrite dsub_gt by (done || apply fin_eps).
Qed.

(** Levels of equal price are treated alike, and so are all worse levels. *)
Lemma beyond_limit_mono (s : MarketSide) (request : OrderRequest) (p q : double) :
  fin (rq_price request) = true -> fin p = true -> fin q = true ->
  price_rank s p <= price_rank s q ->
  beyond_limit s request p = true -> beyond_limit s request q = true.
Proof.
  intros Hr Hp Hq Hle. rewrite !beyond_limit_val by done. rewrite !andb_true_iff, !Z.ltb_lt.
  intros [H1 H2]. split; [done|]. eapply Z.lt_le_trans; [exact H2|]. apply rnd_mono.
  destruct s; simpl in *; lia.
Qed.

Lemma beyond_limit_eq (s : MarketSide) (request : OrderRequest) (p q : double) :
  fin (rq_price request) = true -> fin p = true -> fin q = true -> val p = val q ->
  beyond_limit s request p = beyond_limit s request q.
Proof. intros Hr Hp Hq E. rewrite !beyond_limit_val by done. destruct s; simpl; by rewrite E. Qed.

(** Beyond the limit means strictly worse than the limit. *)
Lemma beyond_limit_strict (s : MarketSide) (request : OrderRequest) (p : double) :
  fin (rq_price request) = true -> fin p = true -> beyond_limit s request p = true ->
  0 < overshoot s request p.
Proof.
  intros Hr Hp. rewrite beyond_limit_val by done. rewrite andb_true_iff, Z.ltb_lt. intros [_ H].
  pose proof eps_pos. destruct (Z.lt_ge_cases 0 (overshoot s request p)) as [|Hn]; [done|].
  pose proof (rnd_mono _ _ Hn) as Hm. rewrite rnd_0 in Hm. lia.
Qed.

(** ** One fill *)

Lemma fill_spec (remaining open : double) : fin remaining = true -> fin open = true ->
  val eps < val remaining -> val eps < val open ->
  let fill := dmin remaining open in
  fin fill = true /\ 0 < val fill /\ val fill = Z.min (val remaining) (val open) /\
  fin (dsub remaining fill) = true /\ 0 <= val (dsub remaining fill) <= val remaining /\
  fin (dsub open fill) = true /\ 0 <= val (dsub open fill) <= val open /\
  (dle (dsub open fill) kPriceEpsilon = false -> fill = remaining /\ val (dsub remaining fill) = 0).
Proof.
  intros Hr Ho He1 He2. pose proof eps_pos as Hp. cbn zeta. unfold dmin. rewrite dlt_val by done.
  destruct (Z.ltb_spec (val open) (val remaining)) as [Hlt|Hge].
  - destruct (dsub_between remaining open Hr Ho ltac:(lia)) as [F1 B1].
    destruct (dsub_diag open Ho) as [F2 V2].
    split_and!; try done; try lia.
    unfold kPriceEpsilon. rewrite dle_val by (done || apply fin_eps). rewrite V2, Z.leb_gt. lia.
  - destruct (dsub_between open remaining Ho Hr ltac:(lia)) as [F1 B1].
    destruct (dsub_diag remaining Hr) as [F2 V2].
    split_and!; try done; try lia.
Qed.

Lemma dgt_eps (x : double) : fin x = true -> dgt x kPriceEpsilon = (val eps <? val x).
Proof. intros. by apply dgt_val; [|apply fin_eps]. Qed.
Lemma dle_eps (x : double) : fin x = true -> dle x kPriceEpsilon = (val x <=? val eps).
Proof. intros. by apply dle_val; [|apply fin_eps]. Qed.

(** What is zero for the engine, on the values matching produces. *)
Lemma is_zero_val (x : double) : fin x = true -> 0 <= val x -> is_zero x = (val x <=? val eps).
Proof.
  intros Hf Hx. unfold is_zero. destruct (dabs_spec x Hf) as [F V].
  rewrite dle_eps by done. by rewrite V, Z.abs_eq.
Qed.

(** ** Consuming liquidity *)

Definition side_ok (s : MarketSide) (l : list RestingOrder) : Prop :=
  Forall (order_ok s) l /\ StronglySorted (priority s) l.

Lemma side_ok_inv (s : MarketSide) (m : RestingOrder) (l : list RestingOrder) :
  side_ok s (m :: l) -> order_ok s m /\ side_ok s l /\ Forall (priority s m) l.
Proof.
  intros [HF HS]. apply Forall_cons in HF as [? ?]. apply StronglySorted_inv in HS as [? ?]. done.
Qed.

Lemma with_open_ok (s : MarketSide) (m : RestingOrder) (q : double) (l : list RestingOrder) :
  side_ok s (m :: l) -> fin q = true -> val eps < val q -> side_ok s (with_open m q :: l).
Proof.
  intros H Hf Hq. destruct (side_ok_inv _ _ _ H) as ((? & ? & ? & ?) & [? ?] & ?).
  split; constructor; try done.
Qed.

(** What is left of the makers: a suffix, whose first order may have a smaller
    open quantity. *)
Definition suffix_of_makers (rest makers : list RestingOrder) : Prop :=
  exists k, map ro_order_id rest = drop k (map ro_order_id makers) /\
    map ro_price rest = drop k (map ro_price makers).

Lemma consume_ok (s : MarketSide) (request : OrderRequest) (makers : list RestingOrder) :
  forall remaining, fin (rq_price request) = true -> side_ok s makers ->
  fin remaining = true -> 0 <= val remaining ->
  let '(remaining', trades, rest) := consume s request remaining makers in
  fin remaining' = true /\ 0 <= val remaining' <= val remaining /\
  side_ok s rest /\ suffix_of_makers rest makers /\
  (val remaining' <= val eps \/ Forall (fun m => beyond_limit s request (ro_price m) = true) rest).
Proof.
  induction makers as [|m makers IH]; intros remaining Hp Hok Hf H0; simpl.
  { split_and!; try done; try lia; [by exists O|by right]. }
  destruct (side_ok_inv _ _ _ Hok) as ((Hs & Hmp & Hmo & Hme) & Hok' & Hle).
  rewrite dgt_eps by done.
  destruct (Z.ltb_spec (val eps) (val remaining)) as [He|He]; simpl.
  2: { split_and!; try done; try lia. by exists O. }
  destruct (beyond_limit s request (ro_price m)) eqn:Hb; simpl.
  { split_and!; try done; try lia; [by exists O|]. right. constructor; [done|].
    destruct Hok' as [HF' _]. clear IH Hok.
    induction Hle as [|x l Hx Hl IHl]; constructor.
    - apply Forall_cons in HF' as [(_ & ? & _) _]. by apply (beyond_limit_mono s request (ro_price m)).
    - apply IHl. by apply Forall_cons in HF' as [_ ?]. }
  destruct (fill_spec remaining (ro_open_quantity m) Hf Hmo He Hme)
    as (F1 & F2 & F3 & F4 & F5 & F6 & F7 & F8).
  destruct (dle _ kPriceEpsilon) eqn:Hd.
  - specialize (IH (dsub remaining (dmin remaining (ro_open_quantity m))) Hp Hok' F4 ltac:(lia)).
    destruct (consume s request _ makers) as [[remaining' trades] rest].
    destruct IH as (I1 & I2 & I3 & (k & I4 & I4') & I5). split_and!; try done; try lia.
    by exists (S k).
  - destruct (F8 eq_refl) as [_ Z0]. split_and!; try done; try lia.
    + apply with_open_ok; [done..|]. rewrite dle_eps in Hd by done. apply Z.leb_gt in Hd. lia.
    + by exists O.
    + left. rewrite Z0. pose proof eps_pos. lia.
Qed.

(** The trades are with the makers of highest priority, in order, at their
    prices; all but the last one are exhausted. *)
Lemma consume_trades (s : MarketSide) (request : OrderRequest) (makers : list RestingOrder) :
  forall remaining,
  let '(_, trades, rest) := consume s request remaining makers in
  let n := length trades in
  map tr_maker_order_id trades = take n (map ro_order_id makers) /\
  map tr_price trades = take n (map ro_price makers) /\
  Forall (fun t => tr_taker_order_id t = rq_order_id request) trades /\
  (rest = drop n makers \/
   exists m open, makers !! (n - 1)%nat = Some m /\ (0 < n)%nat /\
     rest = with_open m open :: drop n makers).
Proof.
  induction makers as [|m makers IH]; intros remaining; simpl; [by split_and!; try left|].
  destruct (_ && _); simpl; [|by split_and!; try left].
  destruct (dle _ _).
  - specialize (IH (dsub remaining (dmin remaining (ro_open_quantity m)))).
    destruct (consume s request _ makers) as [[remaining' trades] rest]. simpl.
    destruct IH as (H1 & H2 & H3 & H4). split_and!; [by rewrite H1|by rewrite H2|by constructor|].
    destruct H4 as [->|(m' & open & H4 & H5 & ->)]; [by left|].
    right. exists m', open. split_and!; [|lia|done].
    rewrite Nat.sub_0_r. destruct (length trades) as [|j]; [lia|].
    simpl in H4. by rewrite Nat.sub_0_r in H4.
  - simpl. split_and!; [done|done|by repeat constructor|]. right. eexists m, _. simpl. split_and!; [done|lia|done].
Qed.

(** The fill-or-kill check is exact: what it admits is filled completely. *)
Lemma fillable_consume (s : MarketSide) (request : OrderRequest) (makers : list RestingOrder) :
  forall remaining, side_ok s makers -> fin remaining = true -> 0 <= val remaining ->
  fillable s request remaining makers = true ->
  let '(remaining', _, _) := consume s request remaining makers in val remaining' <= val eps.
Proof.
  induction makers as [|m makers IH]; intros remaining Hok Hf H0; simpl.
  { by rewrite dle_eps, Z.leb_le. }
  destruct (side_ok_inv _ _ _ Hok) as ((Hs & Hmp & Hmo & Hme) & Hok' & _).
  rewrite dgt_eps by done.
  destruct (Z.ltb_spec (val eps) (val remaining)) as [He|He]; simpl; [|done].
  destruct (beyond_limit s request (ro_price m)); simpl.
  { rewrite dle_eps, Z.leb_le by done. lia. }
  destruct (fill_spec remaining (ro_open_quantity m) Hf Hmo He Hme)
    as (F1 & F2 & F3 & F4 & F5 & F6 & F7 & F8).
  pose proof eps_pos as Hpos. intros Hfill.
  destruct (dle (dsub (ro_open_quantity m) _) kPriceEpsilon) eqn:Hd.
  2: { destruct (F8 eq_refl) as [_ ->]. lia. }
  assert (HZ : forall r', fin r' = true -> 0 <= val r' -> val r' <= val eps ->
    let '(remaining', _, _) := consume s request r' makers in val remaining' <= val eps).
  { intros r' Hr' H0' Hle. destruct makers as [|m' makers']; simpl; [done|].
    rewrite dgt_eps, (proj2 (Z.ltb_ge _ _)) by done. done. }
  assert (G : let '(remaining', _, _) :=
    consume s request (dsub remaining (dmin remaining (ro_open_quantity m))) makers in
    val remaining' <= val eps).
  { destruct (Z.lt_ge_cases (val eps) (val (dsub remaining (dmin remaining (ro_open_quantity m)))))
      as [Hgt|Hsmall]; [|apply HZ; [done|lia|lia]].
    apply IH; [done|done|lia|].
    assert (Hm : dmin remaining (ro_open_quantity m) = ro_open_quantity m).
    { unfold dmin in *. destruct (dlt _ _) eqn:E; [done|].
      exfalso. destruct (dsub_diag remaining Hf) as [_ V]. rewrite V in Hgt. lia. }
    rewrite Hm in *. apply orb_true_iff in Hfill as [Hfill|Hfill]; [|done].
    rewrite dle_eps in Hfill by done. apply Z.leb_le in Hfill. lia. }
  destruct (consume s request _ makers) as [[remaining' trades] rest]. exact G.
Qed.

(** ** Resting *)

Lemma insert_resting_perm (s : MarketSide) (o : RestingOrder) (l : list RestingOrder) :
  insert_resting s o l ≡ₚ o :: l.
Proof.
  induction l as [|m l IH]; simpl; [done|]. destruct (book_comp _ _ _); [done|].
  rewrite IH. constructor.
Qed.

Lemma insert_resting_ok (s : MarketSide) (o : RestingOrder) (l : list RestingOrder) :
  order_ok s o -> side_ok s l -> side_ok s (insert_resting s o l).
Proof.
  intros Ho [HF HS]. split; [by rewrite insert_resting_perm; constructor|].
  induction HS as [|m l HS IH Hle]; simpl; [repeat constructor|].
  apply Forall_cons in HF as [Hm HF].
  destruct Ho as (? & Hp & ? & ?), Hm as (? & Hp' & ? & ?).
  rewrite price_rank_comp by done.
  destruct (Z.ltb_spec (price_rank s (ro_price o)) (price_rank s (ro_price m))) as [H'|H'].
  - constructor; [by constructor|]. constructor; [unfold priority; lia|].
    eapply Forall_impl; [exact Hle|]. intros x. unfold priority. lia.
  - constructor; [by apply IH|]. rewrite insert_resting_perm. by constructor.
Qed.

(** Orders that keep priority over the new one stay in front of it. *)
Lemma insert_resting_app (s : MarketSide) (o : RestingOrder) (l1 l2 : list RestingOrder) :
  Forall (fun m => book_comp s (ro_price o) (ro_price m) = false) l1 ->
  Forall (fun m => book_comp s (ro_price o) (ro_price m) = true) l2 ->
  insert_resting s o (l1 ++ l2) = l1 ++ o :: l2.
Proof.
  intros H1 H2. induction H1 as [|m l1 Hm H1 IH]; simpl; [|by rewrite Hm, IH].
  destruct H2 as [|m l2 Hm H2]; simpl; [done|]. by rewrite Hm.
Qed.

(** ** Whole requests keep the book well formed *)

Definition other (s : MarketSide) : MarketSide := match s with kBid => kAsk | kAsk => kBid end.

Lemma opposite_other (x : Side) : opposite x = other (depth_side x).
Proof. by destruct x. Qed.

Lemma ids_sides (b : Book) (s : MarketSide) :
  map ro_order_id (bk_bids b ++ bk_asks b) ≡ₚ
  map ro_order_id (side_of b s) ++ map ro_order_id (side_of b (other s)).
Proof. rewrite map_app. destruct s; simpl; [done|]. apply Permutation_app_comm. Qed.

Lemma side_set_eq (b : Book) (s : MarketSide) (l : list RestingOrder) : side_of (set_side b s l) s = l.
Proof. by destruct s. Qed.
Lemma side_set_other (b : Book) (s : MarketSide) (l : list RestingOrder) :
  side_of (set_side b s l) (other s) = side_of b (other s).
Proof. by destruct s. Qed.
Lemma side_set_ne (b : Book) (s s' : MarketSide) (l : list RestingOrder) : s <> s' ->
  side_of (set_side b s l) s' = side_of b s'.
Proof. by destruct s, s'. Qed.
Lemma other_other (s : MarketSide) : other (other s) = s.
Proof. by destruct s. Qed.

(** Strictly uncrossed, seen from one side. *)
Lemma uncrossed_side (b : Book) (s : MarketSide) :
  (forall x y, x ∈ bk_bids b -> y ∈ bk_asks b -> val (ro_price x) < val (ro_price y)) <->
  (forall x y, x ∈ side_of b s -> y ∈ side_of b (other s) ->
     match s with kBid => val (ro_price x) < val (ro_price y)
                | kAsk => val (ro_price y) < val (ro_price x) end).
Proof. destruct s; simpl; split; intros H x y Hx Hy; auto. Qed.

(** Building well-formedness from the two sides. *)
Lemma book_wf_sides (b : Book) (s : MarketSide) :
  side_ok s (side_of b s) -> side_ok (other s) (side_of b (other s)) ->
  NoDup (map ro_order_id (side_of b s) ++ map ro_order_id (side_of b (other s))) ->
  (forall x y, x ∈ side_of b s -> y ∈ side_of b (other s) ->
     match s with kBid => val (ro_price x) < val (ro_price y)
                | kAsk => val (ro_price y) < val (ro_price x) end) ->
  book_wf b.
Proof.
  intros [H1 H2] [H3 H4] Hnd Hu. split.
  - intros s'. by destruct s, s'.
  - intros s'. by destruct s, s'.
  - by rewrite (ids_sides b s).
  - by apply (uncrossed_side b s).
Qed.

Lemma book_wf_side (b : Book) (s : MarketSide) : book_wf b -> side_ok s (side_of b s).
Proof. intros []. by split. Qed.

Lemma suffix_price (rest makers : list RestingOrder) (x : RestingOrder) :
  suffix_of_makers rest makers -> x ∈ rest ->
  exists m, m ∈ makers /\ ro_price m = ro_price x.
Proof.
  intros (k & _ & Hp) Hx.
  assert (In (ro_price x) (map ro_price rest)) as Hin.
  { apply in_map. by apply list_elem_of_In. }
  rewrite Hp in Hin. apply list_elem_of_In in Hin. apply list_elem_of_lookup in Hin as [i Hi].
  rewrite lookup_drop in Hi. change (map ro_price makers) with (ro_price <$> makers) in Hi.
  rewrite list_lookup_fmap in Hi. apply fmap_Some in Hi as (m & Hm & E).
  exists m. split; [by eapply list_elem_of_lookup_2|done].
Qed.

Lemma drop_sublist_ids (k : nat) (l l' : list string) :
  NoDup (l ++ l') -> NoDup (drop k l ++ l').
Proof.
  rewrite <- (take_drop k l) at 1. rewrite <- app_assoc. intros H. by apply NoDup_app in H as (_ & _ & H).
Qed.

(** After matching, before anything rests. *)
Lemma consume_wf (b : Book) (s : MarketSide) (request : OrderRequest) (q : double) :
  book_wf b -> fin (rq_price request) = true -> fin q = true -> 0 <= val q ->
  let '(_, _, rest) := consume s request q (side_of b s) in book_wf (set_side b s rest).
Proof.
  intros Hb Hp Hq H0. pose proof (consume_ok s request (side_of b s) q Hp (book_wf_side b s Hb) Hq H0) as HC.
  destruct (consume _ _ _ _) as [[r ts] rest]. destruct HC as (_ & _ & Hok & Hsuf & _).
  apply (book_wf_sides _ s); rewrite ?side_set_eq, ?side_set_other.
  - done.
  - by apply book_wf_side.
  - destruct Hsuf as (k & -> & _). apply drop_sublist_ids. rewrite <- ids_sides. apply Hb.
  - intros x y Hx Hy. destruct (suffix_price _ _ x Hsuf Hx) as (m & Hm & <-).
    by apply (proj1 (uncrossed_side b s) (bw_uncrossed b Hb)).
Qed.

Lemma has_order_in (b : Book) (id : string) :
  has_order b id = true <-> id ∈ map ro_order_id (bk_bids b ++ bk_asks b).
Proof.
  unfold has_order. rewrite existsb_exists. rewrite list_elem_of_fmap. split.
  - intros (o & Ho & E%bool_decide_eq_true). exists o. split; [done|]. by apply list_elem_of_In.
  - intros (o & E & Ho). exists o. split; [by apply list_elem_of_In|]. by apply bool_decide_eq_true.
Qed.

Lemma insert_wf (b : Book) (request : OrderRequest) (q : double) :
  let own := depth_side (rq_side request) in
  let o := resting_of request q in
  book_wf b -> order_ok own o -> has_order b (rq_order_id request) = false ->
  Forall (fun m => 0 < overshoot (other own) request (ro_price m)) (side_of b (other own)) ->
  book_wf (set_side b own (insert_resting own o (side_of b own))).
Proof.
  intros own o Hb Ho Hid Hfar.
  apply (book_wf_sides _ own); rewrite ?side_set_eq, ?side_set_other.
  - apply insert_resting_ok; [done|by apply book_wf_side].
  - by apply book_wf_side.
  - rewrite insert_resting_perm. simpl. constructor.
    + rewrite <- ids_sides, <- has_order_in. by rewrite Hid.
    + rewrite <- ids_sides. apply Hb.
  - intros x y Hx Hy. rewrite insert_resting_perm in Hx. apply elem_of_cons in Hx as [->|Hx].
    + rewrite Forall_forall in Hfar. specialize (Hfar y Hy). subst own o.
      destruct (rq_side request); simpl in *; lia.
    + by apply (proj1 (uncrossed_side b own) (bw_uncrossed b Hb)).
Qed.

Lemma has_order_set_side (b : Book) (s : MarketSide) (rest : list RestingOrder) (id : string) :
  suffix_of_makers rest (side_of b s) -> has_order b id = false -> has_order (set_side b s rest) id = false.
Proof.
  intros (k & Hk & _) Hid. apply not_true_iff_false. rewrite has_order_in, (ids_sides _ s).
  rewrite side_set_eq, side_set_other, Hk. intros Hin.
  apply not_true_iff_false in Hid. apply Hid. rewrite has_order_in, (ids_sides _ s).
  apply elem_of_app in Hin as [Hin|Hin]; apply elem_of_app; [left|by right].
  rewrite <- (take_drop k (map ro_order_id (side_of b s))). apply elem_of_app. by right.
Qed.

Lemma spec_execute_wf (b : Book) (request : OrderRequest) :
  book_wf b -> request_ok request -> 0 <= val (rq_quantity request) ->
  has_order b (rq_order_id request) = false -> book_wf (spec_execute b request).2.
Proof.
  intros Hb [Hq Hp] H0 Hid. unfold spec_execute.
  set (s := opposite (rq_side request)).
  pose proof (consume_ok s request (side_of b s) _ Hp (book_wf_side b s Hb) Hq H0) as HC.
  pose proof (consume_wf b s request _ Hb Hp Hq H0) as HW.
  destruct (consume _ _ _ _) as [[r ts] rest]. destruct HC as (Hfr & Hr & Hok & Hsuf & Hend).
  destruct (is_zero r) eqn:Hz; [done|]. destruct (_ || _); [done|].
  case_bool_decide as Hlim; [|done].
  rewrite is_zero_val, Z.leb_gt in Hz by lia || done.
  apply insert_wf; [done| | |].
  - repeat split; done || (simpl; lia).
  - by apply has_order_set_side.
  - rewrite <- opposite_other. fold s. rewrite side_set_eq.
    destruct Hend as [Hend|Hend]; [lia|]. destruct Hok as [HF _].
    rewrite Forall_forall in Hend. rewrite Forall_forall in HF.
    apply Forall_forall. intros m Hm. destruct (HF m Hm) as (_ & Hmp & _).
    apply beyond_limit_strict; auto.
Qed.

Lemma positive_quantity (request : OrderRequest) : request_ok request ->
  dle (rq_quantity request) dzero = false -> 0 < val (rq_quantity request).
Proof.
  intros [Hq _]. rewrite dle_val by (done || apply fin_dzero). change (val dzero) with 0.
  apply Z.leb_gt.
Qed.

Lemma spec_submit_wf (b : Book) (request : OrderRequest) :
  book_wf b -> request_ok request -> book_wf (spec_submit b request).2.
Proof.
  intros Hb Hr. unfold spec_submit.
  destruct (_ || dle _ _) eqn:Hg; [done|]. apply orb_false_iff in Hg as [_ Hg].
  apply positive_quantity in Hg; [|done].
  destruct (has_order _ _) eqn:Hid; [done|].
  destruct (_ && crosses _ _); [done|]. destruct (_ && negb _); [done|].
  apply spec_execute_wf; [done|done|lia|done].
Qed.

Lemma without_id (id : string) (l : list RestingOrder) (o : RestingOrder) :
  o ∈ without id l <-> o ∈ l /\ ro_order_id o <> id.
Proof.
  unfold without. rewrite !list_elem_of_In, filter_In, negb_true_iff, bool_decide_eq_false. done.
Qed.

Lemma sublist_filter {X} (f : X -> bool) (l : list X) : List.filter f l `sublist_of` l.
Proof. induction l as [|x l IH]; simpl; [done|]. destruct (f x); by constructor. Qed.

Lemma sublist_map {X Y} (f : X -> Y) (l l' : list X) :
  l `sublist_of` l' -> map f l `sublist_of` map f l'.
Proof. induction 1; simpl; by constructor. Qed.

Lemma sublist_sorted {X} (R : X -> X -> Prop) (l l' : list X) :
  l `sublist_of` l' -> StronglySorted R l' -> StronglySorted R l.
Proof.
  induction 1 as [|x l l' Hs IH|x l l' Hs IH]; intros HS; [constructor| |].
  - apply StronglySorted_inv in HS as [HS HF]. constructor; [by apply IH|].
    rewrite Forall_forall in HF. apply Forall_forall. intros y Hy. apply HF.
    by eapply elem_of_sublist.
  - apply StronglySorted_inv in HS as [HS _]. by apply IH.
Qed.

Lemma spec_cancel_wf (b : Book) (id : string) : book_wf b -> book_wf (spec_cancel b id).2.
Proof.
  intros Hb. unfold spec_cancel. destruct (List.find _ _); [|done]. simpl.
  assert (Hsub : forall s, side_of (mkBook (without id (bk_bids b)) (without id (bk_asks b))) s
    `sublist_of` side_of b s).
  { intros []; apply sublist_filter. }
  split.
  - intros s. rewrite Forall_forall. intros o Ho. pose proof (bw_orders b Hb s) as HF.
    rewrite Forall_forall in HF. apply HF. by eapply elem_of_sublist.
  - intros s. eapply sublist_sorted; [apply Hsub|]. apply Hb.
  - eapply (sublist_NoDup _ (map ro_order_id (bk_bids b ++ bk_asks b))); [apply Hb|].
    apply sublist_map. apply sublist_app; [apply (Hsub kBid)|apply (Hsub kAsk)].
  - simpl. intros x y [Hx _]%without_id [Hy _]%without_id. by apply (bw_uncrossed b Hb).
Qed.

(** ** Post-only orders *)

(** When the post-only check passes, the best opposite order is beyond the limit. *)
Lemma not_crossing (b : Book) (request : OrderRequest) (m : RestingOrder) :
  let s := opposite (rq_side request) in
  book_wf b -> request_ok request -> rq_type request = kLimit ->
  (forall s o, o ∈ side_of b s -> 0 <= val (ro_price o)) -> 0 <= val (rq_price request) ->
  crosses b request = false -> head (side_of b s) = Some m ->
  beyond_limit s request (ro_price m) = true.
Proof.
  intros s Hb [_ Hp] Hlim Hnn Hnp Hc Hm.
  assert (Hin : m ∈ side_of b s).
  { destruct (side_of b s); [done|]. injection Hm as ->. apply elem_of_cons. by left. }
  pose proof (bw_orders b Hb s) as HF. rewrite Forall_forall in HF.
  destruct (HF m Hin) as (_ & Hmp & _). pose proof (Hnn s m Hin) as Hmn.
  unfold crosses in Hc. fold s in Hc. rewrite Hm in Hc.
  rewrite beyond_limit_val by done. rewrite Hlim, bool_decide_eq_true_2 by done. simpl.
  apply Z.ltb_lt. apply Z.nle_gt. intros Hle. subst s. unfold kPriceEpsilon in Hc.
  destruct (rq_side request); simpl in *.
  - pose proof (tolerance_mirror _ _ Hmp Hp Hnp Hle) as HT.
    destruct (computes_compare _ _ _ (dadd_computes _ eps Hp fin_eps) Hmp) as (_ & E & _).
    rewrite E in Hc. apply Z.leb_gt in Hc. lia.
  - pose proof (tolerance_mirror _ _ Hp Hmp Hmn Hle) as HT.
    destruct (computes_compare _ _ _ (dadd_computes _ eps Hmp fin_eps) Hp) as (_ & E & _).
    assert (Hd : dle (rq_price request) (dadd (ro_price m) eps) = dge (dadd (ro_price m) eps) (rq_price request)) by done.
    rewrite Hd, E in Hc. apply Z.leb_gt in Hc. lia.
Qed.

Lemma consume_stops (s : MarketSide) (request : OrderRequest) (q : double) (l : list RestingOrder) :
  (forall m, head l = Some m -> beyond_limit s request (ro_price m) = true) ->
  consume s request q l = (q, [], l).
Proof.
  intros H. destruct l as [|m l]; [done|]. simpl. rewrite (H m eq_refl). by rewrite andb_false_r.
Qed.

(** ** Conservation on a quantity grid *)

Definition total_open (l : list RestingOrder) : Z := foldr (fun o acc => val (ro_open_quantity o) + acc) 0 l.
Definition total_traded (l : list Trade) : Z := foldr (fun t acc => val (tr_quantity t) + acc) 0 l.

Lemma total_open_app (l1 l2 : list RestingOrder) : total_open (l1 ++ l2) = total_open l1 + total_open l2.
Proof. induction l1 as [|o l1 IH]; simpl; [done|]. rewrite IH. lia. Qed.

(** On a grid coarser than the tolerance nothing is lost to rounding or to the
    tolerance. *)
Lemma grid_dust (k : Z) (x : double) : 0 <= k -> val eps < 2 ^ k -> on_grid k x = true -> 0 <= val x ->
  dle x kPriceEpsilon = true -> val x = 0.
Proof.
  intros Hk He Hg H0 Hd. pose proof (on_grid_fin k x Hg) as Hf.
  rewrite dle_eps in Hd by done. apply Z.leb_le in Hd.
  destruct (on_grid_inv k x Hk Hg) as (_ & a & E & _).
  assert (0 < 2 ^ k) by lia. assert (a < 1) by nia. assert (0 <= a) by nia. nia.
Qed.

Lemma consume_conserves (k : Z) (s : MarketSide) (request : OrderRequest) (makers : list RestingOrder) :
  0 <= k <= 2044 -> val eps < 2 ^ k ->
  forall remaining, side_ok s makers -> on_grid k remaining = true -> 0 <= val remaining ->
  Forall (fun m => on_grid k (ro_open_quantity m) = true) makers ->
  let '(remaining', trades, rest) := consume s request remaining makers in
  on_grid k remaining' = true /\
  val remaining = val remaining' + total_traded trades /\
  total_open makers = total_open rest + total_traded trades /\
  Forall (fun m => on_grid k (ro_open_quantity m) = true) rest.
Proof.
  intros Hk He. induction makers as [|m makers IH]; intros remaining Hok Hg H0 HF; simpl.
  { split_and!; try done; lia. }
  destruct (side_ok_inv _ _ _ Hok) as ((Hs & Hmp & Hmo & Hme) & Hok' & _).
  pose proof (on_grid_fin k _ Hg) as Hf. apply Forall_cons in HF as [Hgm HF].
  rewrite dgt_eps by done.
  destruct (Z.ltb_spec (val eps) (val remaining)) as [Her|Her]; simpl.
  2: { split_and!; try done; try lia. by constructor. }
  destruct (beyond_limit s request (ro_price m)); simpl.
  { split_and!; try done; try lia. by constructor. }
  destruct (fill_spec remaining (ro_open_quantity m) Hf Hmo Her Hme)
    as (F1 & F2 & F3 & F4 & F5 & F6 & F7 & F8).
  assert (Hgf : on_grid k (dmin remaining (ro_open_quantity m)) = true).
  { unfold dmin. by destruct (dlt _ _). }
  pose proof (grid_bound k _ Hg). pose proof (grid_bound k _ Hgm).
  destruct (grid_sub k remaining _ Hk Hg Hgf) as [G1 V1]; [lia|].
  destruct (grid_sub k (ro_open_quantity m) _ Hk Hgm Hgf) as [G2 V2]; [lia|].
  destruct (dle (dsub (ro_open_quantity m) _) kPriceEpsilon) eqn:Hd.
  - pose proof (grid_dust k _ ltac:(lia) He G2 ltac:(lia) Hd) as HZ.
    specialize (IH _ Hok' G1 ltac:(lia) HF).
    destruct (consume s request _ makers) as [[r ts] rest]. simpl.
    destruct IH as (I1 & I2 & I3 & I4). split_and!; [done|lia|lia|done].
  - simpl. split_and!; [done|lia|lia|by constructor].
Qed.

(** ** Reading the specification *)

Lemma submit_cases (b : Book) (request : OrderRequest) :
  (exists reason, spec_submit b request = (rejected request reason, b) /\
     (has_order b (rq_order_id request) = true -> rq_order_id request <> "" ->
      dle (rq_quantity request) dzero = false -> reason = kDuplicateOrderId)) \/
  (spec_submit b request = spec_execute b request /\ dle (rq_quantity request) dzero = false /\
   has_order b (rq_order_id request) = false /\
   (rq_type request = kLimit -> rq_tif request = kGtx -> crosses b request = false) /\
   (rq_tif request = kFok -> fillable (opposite (rq_side request)) request (rq_quantity request)
      (side_of b (opposite (rq_side request))) = true)).
Proof.
  unfold spec_submit.
  destruct (_ || dle _ _) eqn:Hg.
  { left. eexists. split; [done|]. intros _ Hne Hq. apply orb_true_iff in Hg as [Hg|Hg]; [|congruence].
    by apply bool_decide_eq_true in Hg. }
  apply orb_false_iff in Hg as [Hne Hg].
  destruct (has_order _ _) eqn:Hid; [left; by eexists|].
  destruct (_ && crosses _ _) eqn:Hc; [left; by eexists|].
  destruct (_ && negb _) eqn:Hk; [left; by eexists|].
  right. split_and!; try done.
  - intros Ht Hx. by rewrite Ht, Hx in Hc.
  - intros Hx. rewrite Hx in Hk. simpl in Hk. by apply negb_false_iff in Hk.
Qed.

(** Whether the remainder rests. *)
Definition rests (request : OrderRequest) (remaining : double) : bool :=
  bool_decide (rq_type request = kLimit) && negb (bool_decide (rq_tif request = kIoc)) &&
  negb (is_zero remaining).

Lemma execute_facts (b : Book) (request : OrderRequest) :
  let s := opposite (rq_side request) in
  let own := depth_side (rq_side request) in
  let '(r, ts, rest) := consume s request (rq_quantity request) (side_of b s) in
  let x := spec_execute b request in
  mr_trades x.1 = ts /\ mr_remaining_quantity x.1 = r /\
  mr_executed_quantity x.1 = dsub (rq_quantity request) r /\
  side_of x.2 s = rest /\
  side_of x.2 own = (if rests request r then insert_resting own (resting_of request r) (side_of b own)
                     else side_of b own) /\
  (mr_accepted x.1 = false -> mr_reject_reason x.1 = kMarketOrderWouldRest).
Proof.
  intros s own. destruct (consume _ _ _ _) as [[r ts] rest] eqn:E.
  intros x. subst x. unfold spec_execute, rests. fold s. rewrite E. fold own.
  assert (Hso : s <> own) by (subst s own; by destruct (rq_side request)).
  assert (Hos : own <> s) by congruence.
  destruct (is_zero r); simpl; rewrite ?andb_false_r;
    [by rewrite side_set_eq, side_set_ne|].
  destruct (bool_decide (rq_tif request = kIoc)); simpl; rewrite ?andb_false_r;
    [by rewrite side_set_eq, side_set_ne|].
  destruct (bool_decide (rq_type request = kLimit)); simpl.
  - rewrite side_set_eq, side_set_ne, side_set_eq, side_set_ne by done. by split_and!.
  - destruct (dgt _ _); simpl; by rewrite side_set_eq, side_set_ne.
Qed.

Lemma consume_within (s : MarketSide) (request : OrderRequest) (makers : list RestingOrder) :
  forall remaining, let '(_, trades, _) := consume s request remaining makers in
  Forall (fun t => beyond_limit s request (tr_price t) = false) trades.
Proof.
  induction makers as [|m makers IH]; intros remaining; simpl; [done|].
  destruct (dgt _ _); simpl; [|done]. destruct (beyond_limit s request (ro_price m)) eqn:Hb; simpl; [done|].
  destruct (dle _ _); [|by repeat constructor].
  specialize (IH (dsub remaining (dmin remaining (ro_open_quantity m)))).
  destruct (consume s request _ makers) as [[r ts] rest]. by constructor.
Qed.

Lemma insert_resting_split (s : MarketSide) (o : RestingOrder) (l : list RestingOrder) :
  order_ok s o -> side_ok s l ->
  exists l1 l2, l = l1 ++ l2 /\ insert_resting s o l = l1 ++ o :: l2 /\
    Forall (fun m => price_rank s (ro_price m) <= price_rank s (ro_price o)) l1 /\
    Forall (fun m => price_rank s (ro_price o) < price_rank s (ro_price m)) l2.
Proof.
  intros Ho. pose proof Ho as (_ & Hp & _). induction l as [|m l IH]; intros Hok; simpl.
  { exists [], []. by split_and!. }
  destruct (side_ok_inv _ _ _ Hok) as ((_ & Hmp & _) & Hok' & Hle).
  rewrite price_rank_comp by done. destruct (Z.ltb_spec (price_rank s (ro_price o)) (price_rank s (ro_price m))).
  - exists [], (m :: l). split_and!; try done. constructor; [done|].
    eapply Forall_impl; [exact Hle|]. unfold priority. intros x Hx. lia.
  - destruct (IH Hok') as (l1 & l2 & -> & -> & F1 & F2). exists (m :: l1), l2. split_and!; try done.
    by constructor.
Qed.

(** The limit check in terms of the prices. *)
Lemma limit_respected (s : MarketSide) (request : OrderRequest) (p : double) :
  fin (rq_price request) = true -> fin p = true -> rq_type request = kLimit ->
  beyond_limit s request p = false -> rnd (overshoot s request p) <= val eps.
Proof.
  intros Hr Hp Ht. rewrite beyond_limit_val, bool_decide_eq_true_2 by done. simpl. by rewrite Z.ltb_ge.
Qed.

Lemma limit_exceeded (s : MarketSide) (request : OrderRequest) (p : double) :
  fin (rq_price request) = true -> fin p = true -> beyond_limit s request p = true ->
  rq_type request = kLimit /\ val eps < rnd (overshoot s request p).
Proof.
  intros Hr Hp. rewrite beyond_limit_val by done. rewrite andb_true_iff, Z.ltb_lt.
  intros [Ht%bool_decide_eq_true H]. done.
Qed.

(** Each trade has its maker in the list. *)
Lemma trade_maker (trades : list Trade) (makers : list RestingOrder) (n : nat) :
  map tr_maker_order_id trades = take n (map ro_order_id makers) ->
  map tr_price trades = take n (map ro_price makers) ->
  forall t, t ∈ trades -> exists m, m ∈ makers /\ tr_maker_order_id t = ro_order_id m /\ tr_price t = ro_price m.
Proof.
  rewrite !firstn_map. intros H1 H2 t (i & Hi)%list_elem_of_lookup.
  pose proof (f_equal (lookup i) H1) as L1. pose proof (f_equal (lookup i) H2) as L2.
  rewrite !(list_lookup_fmap tr_maker_order_id), (list_lookup_fmap ro_order_id), Hi in L1.
  rewrite (list_lookup_fmap tr_price), (list_lookup_fmap ro_price), Hi in L2.
  destruct (take n makers !! i) as [m|] eqn:Em; [|done].
  simpl in L1, L2. injection L1 as L1. injection L2 as L2. exists m. split_and!; try done.
  rewrite lookup_take_Some in Em. destruct Em as [Em _]. by eapply list_elem_of_lookup_2.
Qed.
