(* ===== verification/Matching.v ===== *)
(** * The matching engine implements its specification

    [core_inv] is the engine's representation invariant: the level queues point
    at live objects, each exactly once, the map of live orders indexes the same
    objects by their ids, and the depth book has a level exactly where the book
    has one. [view] reads the two priority lists out of an engine. Every
    operation is shown to return (no undefined behaviour, the matching loop
    ends), to preserve the invariant and to act on the view as [MatchSpec]
    says. *)

From S2P Require Import Prelude Double StdMap MarketTypes DepthBook Broadcaster Queue Spsc Allocator Format Orderbook MatchSpec.

Local Open Scope Z_scope.

(** ** Lists of pointers *)

Abbreviation fin_key := (fun p : double => fin p = true).

Definition ptrs (book : OrderBook) : list block := concat (map snd book).

Definition resolve (h : gmap block RestingOrder) (l : list block) : list RestingOrder :=
  omap (fun b => h !! b) l.

Lemma resolve_app (h : gmap block RestingOrder) (l1 l2 : list block) :
  resolve h (l1 ++ l2) = resolve h l1 ++ resolve h l2.
Proof. apply omap_app. Qed.

Lemma resolve_insert (h : gmap block RestingOrder) (b : block) (o : RestingOrder) (l : list block) :
  b ∉ l -> resolve (<[b := o]> h) l = resolve h l.
Proof.
  intros Hb. induction l as [|x l IH]; simpl; [done|].
  rewrite lookup_insert_ne by set_solver. rewrite IH by set_solver. done.
Qed.

Lemma resolve_delete (h : gmap block RestingOrder) (b : block) (l : list block) :
  b ∉ l -> resolve (delete b h) l = resolve h l.
Proof.
  intros Hb. induction l as [|x l IH]; simpl; [done|].
  rewrite lookup_delete_ne by set_solver. rewrite IH by set_solver. done.
Qed.

Lemma ptrs_app (b1 b2 : OrderBook) : ptrs (b1 ++ b2) = ptrs b1 ++ ptrs b2.
Proof. unfold ptrs. by rewrite map_app, concat_app. Qed.

Lemma ptrs_level (b1 b2 : OrderBook) (k : double) (q : OrderQueue) :
  ptrs (b1 ++ (k, q) :: b2) = ptrs b1 ++ q ++ ptrs b2.
Proof. by rewrite ptrs_app. Qed.

Lemma elem_of_ptrs (book : OrderBook) (b : block) :
  b ∈ ptrs book <-> exists l, l ∈ book /\ b ∈ l.2.
Proof.
  unfold ptrs. induction book as [|l book IH]; simpl.
  - split; [by intros ?%not_elem_of_nil|]. intros (? & H & _). by apply not_elem_of_nil in H.
  - rewrite elem_of_app, IH. split.
    + intros [H|(l' & ? & ?)]; [exists l|exists l']; (split; [|done]); apply elem_of_cons; auto.
    + intros (l' & [->|H]%elem_of_cons & ?); eauto.
Qed.

Lemma erase_pointer_split (b : block) (q : OrderQueue) : b ∈ q ->
  exists q1 q2, q = q1 ++ b :: q2 /\ erase_pointer b q = q1 ++ q2.
Proof.
  induction q as [|x q IH]; [by intros ?%not_elem_of_nil|]. simpl.
  destruct (decide (x = b)) as [->|Hne].
  - intros _. by exists [], q.
  - intros [?|H]%elem_of_cons; [congruence|]. destruct (IH H) as (q1 & q2 & -> & ->).
    by exists (x :: q1), q2.
Qed.

(** ** Books as lists of levels *)

Definition levels_ok (Q : double -> block -> Prop) (book : OrderBook) : Prop :=
  Forall (fun l => l.2 <> [] /\ Forall (Q l.1) l.2) book.

Section Books.
Context (s : MarketSide).
Let comp := book_comp s.
Let rank := price_rank s.

Lemma comp_rank_fin (a b : double) : fin a = true -> fin b = true -> comp a b = (rank a <? rank b).
Proof using Type. apply price_rank_comp. Qed.

Definition removed (p : double) (queue : OrderQueue) (book : OrderBook) : OrderBook :=
  let book' := map_update comp p [] (fun _ => queue) book in
  match queue with [] => map_erase comp p book' | _ :: _ => book' end.

Lemma levels_in (Q : double -> block -> Prop) (book : OrderBook) (b : block) :
  levels_ok Q book -> b ∈ ptrs book -> exists p, Q p b.
Proof using Type.
  intros HQ (l & Hl & Hb)%elem_of_ptrs. unfold levels_ok in HQ. rewrite Forall_forall in HQ.
  destruct (HQ l Hl) as [_ HF]. rewrite Forall_forall in HF. eauto.
Qed.

Lemma removed_spec (Q : double -> block -> Prop) (p : double) (b : block) (queue : OrderQueue)
    (book : OrderBook) :
  fin p = true -> keys_ok fin_key book -> map_sorted rank book -> levels_ok Q book ->
  map_find comp p book = Some queue -> b ∈ queue ->
  let book' := removed p (erase_pointer b queue) book in
  keys_ok fin_key book' /\ map_sorted rank book' /\ levels_ok Q book' /\
  (exists l1 l2, ptrs book = l1 ++ b :: l2 /\ ptrs book' = l1 ++ l2) /\
  (forall p', fin p' = true ->
     is_Some (map_find comp p' book') <->
     is_Some (map_find comp p' book) /\ (rank p' = rank p -> erase_pointer b queue <> [])).
Proof using Type.
  intros Hp Hk Hs HQ Hf Hb book'.
  pose proof (map_split comp fin_key rank comp_rank_fin p book Hp Hk Hs) as HSP. rewrite Hf in HSP.
  destruct HSP as (pre & k & post & -> & Hrk & Hpre & Hpost & Hu & He).
  destruct (erase_pointer_split b queue Hb) as (q1 & q2 & -> & Hq). subst book'. rewrite Hq.
  apply Forall_app in HQ as [HQ1 HQ2]. apply Forall_cons in HQ2 as [[_ HQk] HQ2]. simpl in HQk.
  assert (HQq : Forall (Q k) (q1 ++ q2)).
  { apply Forall_app in HQk as [? HQk]. apply Forall_cons in HQk as [_ ?]. by apply Forall_app. }
  assert (HE : removed p (q1 ++ q2) (pre ++ (k, q1 ++ b :: q2) :: post) =
    match q1 ++ q2 with [] => pre ++ post | _ :: _ => pre ++ (k, q1 ++ q2) :: post end).
  { unfold removed. rewrite Hu. destruct (q1 ++ q2); [by rewrite He|done]. }
  assert (HE2 : removed p (q1 ++ q2) (pre ++ (k, q1 ++ b :: q2) :: post) =
    match q1 ++ q2 with
    | [] => map_erase comp p (map_update comp p [] (fun _ => q1 ++ q2) (pre ++ (k, q1 ++ b :: q2) :: post))
    | _ :: _ => map_update comp p [] (fun _ => q1 ++ q2) (pre ++ (k, q1 ++ b :: q2) :: post)
    end) by done.
  assert (HK := map_update_keys_ok comp fin_key p [] (fun _ => q1 ++ q2) _ Hp Hk).
  assert (HS := map_update_sorted comp fin_key rank comp_rank_fin p [] (fun _ => q1 ++ q2) _ Hp Hk Hs).
  split_and!.
  - rewrite HE2. destruct (q1 ++ q2); [by apply map_erase_keys_ok|done].
  - rewrite HE2. destruct (q1 ++ q2); [by apply map_erase_sorted|done].
  - rewrite HE. unfold levels_ok. destruct (q1 ++ q2) eqn:Eq; [by apply Forall_app|].
    apply Forall_app. split; [done|]. constructor; [done|done].
  - exists (ptrs pre ++ q1), (q2 ++ ptrs post). rewrite HE. split.
    + rewrite ptrs_level. by rewrite <- !app_assoc.
    + destruct (q1 ++ q2) eqn:Eq.
      * apply app_eq_nil in Eq as [-> ->]. rewrite ptrs_app. simpl. by rewrite app_nil_r.
      * rewrite ptrs_level, <- Eq. by rewrite <- !app_assoc.
  - intros p' Hp'. rewrite HE2. destruct (decide (rank p' = rank p)) as [Er|Er].
    + assert (Hf' : map_find comp p' (pre ++ (k, q1 ++ b :: q2) :: post) = Some (q1 ++ b :: q2)).
      { by rewrite (map_find_rank comp fin_key rank comp_rank_fin p' p). }
      rewrite Hf'. destruct (q1 ++ q2) eqn:Eq.
      * rewrite (map_find_erase_eq comp fin_key rank comp_rank_fin) by done.
        split; [by intros []|]. intros [_ H]. by destruct (H Er).
      * rewrite (map_find_update_eq comp fin_key rank comp_rank_fin) by done. split; eauto.
    + destruct (q1 ++ q2) eqn:Eq.
      * rewrite (map_find_erase_ne comp fin_key rank comp_rank_fin) by done.
        rewrite (map_find_update_ne comp fin_key rank comp_rank_fin) by done. tauto.
      * rewrite (map_find_update_ne comp fin_key rank comp_rank_fin) by done. tauto.
Qed.

Lemma added_spec (Q : double -> block -> Prop) (p : double) (b : block) (book : OrderBook) :
  fin p = true -> keys_ok fin_key book -> map_sorted rank book -> levels_ok Q book ->
  (forall k, fin k = true -> rank k = rank p -> Q k b) ->
  let book' := map_update comp p [] (fun queue => queue ++ [b]) book in
  keys_ok fin_key book' /\ map_sorted rank book' /\ levels_ok Q book' /\
  (exists l1 l2, ptrs book = l1 ++ l2 /\ ptrs book' = l1 ++ b :: l2 /\
     Forall (fun x => exists k, rank k <= rank p /\ Q k x) l1 /\
     Forall (fun x => exists k, rank p < rank k /\ Q k x) l2) /\
  (forall p', fin p' = true ->
     is_Some (map_find comp p' book') <-> is_Some (map_find comp p' book) \/ rank p' = rank p).
Proof using Type.
  intros Hp Hk Hs HQ Hb book'.
  assert (HK := map_update_keys_ok comp fin_key p [] (fun queue => queue ++ [b]) _ Hp Hk).
  assert (HS := map_update_sorted comp fin_key rank comp_rank_fin p [] (fun queue => queue ++ [b]) _ Hp Hk Hs).
  pose proof (map_split comp fin_key rank comp_rank_fin p book Hp Hk Hs) as HSP.
  assert (Hlev : forall R part, Forall (fun e => R (rank e.1)) part -> levels_ok Q part ->
    Forall (fun x => exists k, R (rank k) /\ Q k x) (ptrs part)).
  { intros R part HR HQp. rewrite Forall_forall in HR. unfold levels_ok in HQp. rewrite Forall_forall in HQp.
    apply Forall_forall. intros x (l & Hl & Hx)%elem_of_ptrs. exists l.1. split; [by apply HR|].
    destruct (HQp l Hl) as [_ HF]. rewrite Forall_forall in HF. auto. }
  split_and!; [done|done|..].
  - destruct (map_find comp p book) as [v|].
    + destruct HSP as (pre & k & post & -> & Hrk & _ & _ & Hu & _). subst book'. rewrite Hu.
      apply Forall_app in HQ as [HQ1 HQ2]. apply Forall_cons in HQ2 as [[_ HQk] HQ2].
      apply Forall_app. split; [done|]. constructor; [|done]. split; [by destruct v|].
      apply Forall_app. split; [done|]. constructor; [|done]. apply Hb; [|done].
      unfold keys_ok in Hk. apply Forall_app in Hk as [_ Hk]. by apply Forall_cons in Hk as [? _].
    + destruct HSP as (pre & post & -> & _ & _ & Hu & _). subst book'. rewrite Hu.
      apply Forall_app in HQ as [HQ1 HQ2]. apply Forall_app. split; [done|]. constructor; [|done].
      split; [done|]. constructor; [|done]. by apply Hb.
  - destruct (map_find comp p book) as [v|].
    + destruct HSP as (pre & k & post & -> & Hrk & Hpre & Hpost & Hu & _). subst book'. rewrite Hu.
      apply Forall_app in HQ as [HQ1 HQ2]. apply Forall_cons in HQ2 as [[_ HQk] HQ2].
      exists (ptrs pre ++ v), (ptrs post). rewrite !ptrs_level.
      split_and!.
      * by rewrite <- app_assoc.
      * by rewrite <- !app_assoc.
      * apply Forall_app. split.
        { eapply Forall_impl; [by apply (Hlev (fun r => r < rank p))|]. intros x (k' & ? & ?).
          exists k'. split; [lia|done]. }
        { eapply Forall_impl; [exact HQk|]. intros x Hx. exists k. split; [lia|done]. }
      * by apply (Hlev (fun r => rank p < r)).
    + destruct HSP as (pre & post & -> & Hpre & Hpost & Hu & _). subst book'. rewrite Hu.
      apply Forall_app in HQ as [HQ1 HQ2].
      exists (ptrs pre), (ptrs post). rewrite ptrs_app, ptrs_level. split_and!; [done|done|..].
      * eapply Forall_impl; [by apply (Hlev (fun r => r < rank p))|]. intros x (k' & ? & ?).
        exists k'. split; [lia|done].
      * by apply (Hlev (fun r => rank p < r)).
  - intros p' Hp'. subst book'. destruct (decide (rank p' = rank p)) as [Er|Er].
    + rewrite (map_find_update_eq comp fin_key rank comp_rank_fin) by done. split; eauto.
    + rewrite (map_find_update_ne comp fin_key rank comp_rank_fin) by done. tauto.
Qed.
End Books.

(** ** The depth book *)

Lemma depth_update_spec (d : DepthBook) (s : MarketSide) (p q : double) :
  depth_wf d -> fin p = true ->
  let d' := (DepthBook_update d s p q).2 in
  depth_wf d' /\
  (forall p', fin p' = true -> is_Some (depth_at d' s p') <->
     if decide (price_rank s p' = price_rank s p) then dle q dzero = false
     else is_Some (depth_at d s p')) /\
  (forall p', depth_at d' (other s) p' = depth_at d (other s) p').
Proof.
  intros [] Hp d'.
  assert (Hif : forall (c : bool), is_Some (if c then None else Some q) <-> c = false).
  { intros []; split; intros Hx; [by destruct Hx|done|done|by eexists]. }
  destruct s; subst d'; simpl.
  - destruct (apply_update_wf bid_comp bid_rank greater_rank (dbk_bids d) p q) as (? & ? & ?); try done.
    split_and!; [by split|intros p' Hp'|done].
    rewrite (apply_update_find bid_comp bid_rank greater_rank) by done.
    change (bid_rank p' = bid_rank p) with (price_rank kBid p' = price_rank kBid p).
    by destruct (decide _).
  - destruct (apply_update_wf ask_comp ask_rank less_rank (dbk_asks d) p q) as (? & ? & ?); try done.
    split_and!; [by split|intros p' Hp'|done].
    rewrite (apply_update_find ask_comp ask_rank less_rank) by done.
    change (ask_rank p' = ask_rank p) with (price_rank kAsk p' = price_rank kAsk p).
    by destruct (decide _).
Qed.

Section Engine.
Context {A : Type} `{BlockAllocatorLaws A} (tid : Z).

Implicit Types e : Engine A.

Definition heap e : gmap block RestingOrder := op_objects (en_pool e).

(** The pointer [b], queued on side [s] at level [p], is a live order of that
    side and price. *)
Definition ptr_ok (h : gmap block RestingOrder) (s : MarketSide) (p : double) (b : block) : Prop :=
  exists o, h !! b = Some o /\ depth_side (ro_side o) = s /\ fin (ro_price o) = true /\
    val (ro_price o) = val p.

Definition all_ptrs e : list block := ptrs (en_bids e) ++ ptrs (en_asks e).

Definition live_ok (live : gmap string block) (h : gmap block RestingOrder) : Prop :=
  forall id b, live !! id = Some b <-> exists o, h !! b = Some o /\ ro_order_id o = id.

Definition depth_ok e : Prop := forall s p, fin p = true ->
  is_Some (depth_at (en_depth e) s p) <-> is_Some (map_find (book_comp s) p (book_of e s)).

Record core_inv e : Prop := {
  ci_pool : object_pool_wf (en_pool e);
  ci_keys : forall s, keys_ok fin_key (book_of e s);
  ci_sorted : forall s, map_sorted (price_rank s) (book_of e s);
  ci_levels : forall s, levels_ok (ptr_ok (heap e) s) (book_of e s);
  ci_nodup : NoDup (all_ptrs e);
  ci_dom : forall b, is_Some (heap e !! b) -> b ∈ all_ptrs e;
  ci_live : live_ok (en_live e) (heap e);
  ci_depth_wf : depth_wf (en_depth e);
  ci_depth : depth_ok e
}.

Definition events_ok e : Prop := exists l, represents (en_events e) l.

Definition makers e (s : MarketSide) : list RestingOrder := resolve (heap e) (ptrs (book_of e s)).
Definition view e : Book := mkBook (makers e kBid) (makers e kAsk).

Lemma view_side e (s : MarketSide) : side_of (view e) s = makers e s.
Proof using Type. by destruct s. Qed.

(** The engine as clients see it: a represented, well-formed book. *)
Definition engine_rel e (b : Book) : Prop := core_inv e /\ events_ok e /\ view e = b /\ book_wf b.

(** ** Events change only the feed *)

Definition feeds (m : outcome (Engine A)) e : Prop :=
  exists b q, m = Ret (set_feed e b q) /\ exists l, represents q l.

Lemma push_event_feeds e (b : Broadcaster) (t p : string) :
  events_ok e -> feeds (push_event (set_feed e b (en_events e)) t p) e.
Proof using Type.
  intros [l [n R]]. unfold push_event. simpl.
  destruct (Z.lt_ge_cases (Z.of_nat (length l)) (sq_capacity (en_events e))) as [Hlt|Hge].
  - destruct (ring_push _ n l (mkEngineEvent t p) R Hlt) as (q' & -> & R' & _).
    exists b, q'. split; [done|]. exists (l ++ [mkEngineEvent t p]). by exists n.
  - rewrite (ring_full _ n l _ R Hge). exists b, (en_events e). split; [done|]. exists l. by exists n.
Qed.

Lemma emit_order_feeds e (id : string) (st : OrderStatus) (r : RejectReason) (q : double) :
  events_ok e -> feeds (emit_order_event e id st r q) e.
Proof using Type. intros He. by apply push_event_feeds. Qed.
Lemma emit_trade_feeds e (t : Trade) : events_ok e -> feeds (emit_trade_event e t) e.
Proof using Type. intros He. by apply push_event_feeds. Qed.
Lemma emit_depth_feeds e : events_ok e -> feeds (emit_depth_event e) e.
Proof using Type. intros He. by apply push_event_feeds. Qed.

Lemma core_inv_feed e (b : Broadcaster) (q : SpscRingQueue EngineEvent) :
  core_inv e -> core_inv (set_feed e b q).
Proof using Type. intros []. by split. Qed.

Lemma engine_rel_feed e (bk : Book) (b : Broadcaster) (q : SpscRingQueue EngineEvent) :
  core_inv e -> view e = bk -> book_wf bk -> (exists l, represents q l) ->
  engine_rel (set_feed e b q) bk.
Proof using Type. intros ? ? ? ?. split_and!; [by apply core_inv_feed|done..]. Qed.

(** ** Sums of a queue *)

Definition fillable_order (h : gmap block RestingOrder) (b : block) : Prop :=
  exists o, h !! b = Some o /\ fin (ro_open_quantity o) = true /\ 0 < val (ro_open_quantity o).

Lemma aggregate_spec (pool : ObjectPool A RestingOrder) (queue : OrderQueue) : forall sum,
  Forall (fillable_order (op_objects pool)) queue -> sum_like sum ->
  exists r, aggregate_quantity pool queue sum = Ret r /\ sum_like r /\
    (queue = [] -> r = sum) /\ (queue <> [] -> dle r dzero = false).
Proof using Type.
  induction queue as [|b queue IH]; intros sum HF Hs; simpl.
  { exists sum. by split_and!. }
  apply Forall_cons in HF as [(o & Ho & Hf & Hpos) HF].
  rewrite (read_spec pool b o Ho), bind_ret.
  destruct (dadd_sum_like sum _ Hs Hf Hpos) as [Hs' Hd].
  destruct (IH _ HF Hs') as (r & -> & Hr & Hn & Hne).
  exists r. split_and!; [done|done|done|]. intros _.
  destruct queue; [|by apply Hne]. by rewrite Hn.
Qed.

Lemma sum_like_zero : sum_like dzero.
Proof using Type. left. split; [apply fin_dzero|]. by change (val dzero) with 0. Qed.

(** ** Reading the invariant *)

Lemma core_ptr e (s : MarketSide) (b : block) : core_inv e -> b ∈ ptrs (book_of e s) ->
  exists o p, heap e !! b = Some o /\ depth_side (ro_side o) = s /\ fin (ro_price o) = true /\
    val (ro_price o) = val p.
Proof using Type.
  intros I Hb. destruct (levels_in _ _ b (ci_levels e I s) Hb) as (p & o & ?). by exists o, p.
Qed.

Lemma all_ptrs_sides e (s : MarketSide) :
  all_ptrs e ≡ₚ ptrs (book_of e s) ++ ptrs (book_of e (other s)).
Proof using Type. destruct s; simpl; [done|]. apply Permutation_app_comm. Qed.

Lemma core_side_of e (b : block) (o : RestingOrder) : core_inv e -> heap e !! b = Some o ->
  b ∈ ptrs (book_of e (depth_side (ro_side o))) /\
  exists queue, map_find (book_comp (depth_side (ro_side o))) (ro_price o)
                  (book_of e (depth_side (ro_side o))) = Some queue /\ b ∈ queue /\
    fin (ro_price o) = true.
Proof using Type.
  intros I Ho. set (s := depth_side (ro_side o)).
  assert (Hb : b ∈ ptrs (book_of e s)).
  { pose proof (ci_dom e I b ltac:(eauto)) as Hd. rewrite (all_ptrs_sides e s) in Hd.
    apply elem_of_app in Hd as [Hd|Hd]; [done|].
    destruct (core_ptr e _ b I Hd) as (o' & p & Ho' & Hs & _). rewrite Ho in Ho'. injection Ho' as <-.
    subst s. by destruct (ro_side o). }
  split; [done|]. apply elem_of_ptrs in Hb as ([k queue] & Hl & Hb). simpl in Hb.
  pose proof (ci_levels e I s) as HL. unfold levels_ok in HL. rewrite Forall_forall in HL.
  destruct (HL _ Hl) as [_ HF]. rewrite Forall_forall in HF. simpl in HF.
  destruct (HF b Hb) as (o' & Ho' & _ & Hf & Hv). rewrite Ho in Ho'. injection Ho' as <-.
  exists queue. split_and!; [|done|done].
  apply (map_find_Some (book_comp s) fin_key (price_rank s) (comp_rank_fin s)); try done; try apply I.
  exists k. split; [|by apply list_elem_of_In]. destruct s; simpl; lia.
Qed.

Lemma side_cases (s s' : MarketSide) : s' = s \/ s' = other s.
Proof using Type. destruct s, s'; auto. Qed.

Lemma book_set_eq e (s : MarketSide) (b : OrderBook) : book_of (set_book e s b) s = b.
Proof using Type. by destruct s. Qed.
Lemma book_set_other e (s : MarketSide) (b : OrderBook) :
  book_of (set_book e s b) (other s) = book_of e (other s).
Proof using Type. by destruct s. Qed.

Lemma levels_impl (Q Q' : double -> block -> Prop) (book : OrderBook) :
  (forall p x, x ∈ ptrs book -> Q p x -> Q' p x) -> levels_ok Q book -> levels_ok Q' book.
Proof using Type.
  intros HQ HL. unfold levels_ok in *. rewrite Forall_forall in HL. apply Forall_forall.
  intros l Hl. destruct (HL l Hl) as [Hne HF]. split; [done|]. rewrite Forall_forall in HF.
  apply Forall_forall. intros x Hx. apply HQ; [|by apply HF]. apply elem_of_ptrs. eauto.
Qed.

(** The parts of the invariant that speak of one side. *)
Definition side_inv e (s : MarketSide) : Prop :=
  keys_ok fin_key (book_of e s) /\ map_sorted (price_rank s) (book_of e s) /\
  levels_ok (ptr_ok (heap e) s) (book_of e s) /\
  (forall p, fin p = true ->
     is_Some (depth_at (en_depth e) s p) <-> is_Some (map_find (book_comp s) p (book_of e s))).

Lemma core_inv_side e (s : MarketSide) : core_inv e -> side_inv e s.
Proof using Type. intros []. split_and!; auto. Qed.

Lemma core_inv_sides e (s : MarketSide) :
  object_pool_wf (en_pool e) -> side_inv e s -> side_inv e (other s) -> NoDup (all_ptrs e) ->
  (forall b, is_Some (heap e !! b) -> b ∈ all_ptrs e) -> live_ok (en_live e) (heap e) ->
  depth_wf (en_depth e) -> core_inv e.
Proof using Type.
  intros Hp H1 H2 Hnd Hd Hl Hw.
  assert (HS : forall s', side_inv e s') by (intros s'; by destruct (side_cases s s') as [->| ->]).
  split; try done; intros s'; apply (HS s').
Qed.

(** The depth book after the level of one side was rewritten. *)
Lemma depth_side_update e e' (s : MarketSide) (p agg : double) :
  depth_wf (en_depth e) -> fin p = true -> side_inv e (other s) ->
  en_depth e' = (DepthBook_update (en_depth e) s p agg).2 ->
  book_of e' (other s) = book_of e (other s) ->
  depth_wf (en_depth e') /\
  (forall p', fin p' = true -> is_Some (depth_at (en_depth e') (other s) p') <->
     is_Some (map_find (book_comp (other s)) p' (book_of e' (other s)))) /\
  (forall p', fin p' = true -> is_Some (depth_at (en_depth e') s p') <->
     if decide (price_rank s p' = price_rank s p) then dle agg dzero = false
     else is_Some (depth_at (en_depth e) s p')).
Proof using Type.
  intros Hw Hp (_ & _ & _ & Hd) -> ->.
  destruct (depth_update_spec (en_depth e) s p agg Hw Hp) as (W & D1 & D2).
  split_and!; [done| |done]. intros p' Hp'. rewrite D2. by apply Hd.
Qed.

(** ** Rewriting a level that stays *)

Lemma core_inv_depth e (s : MarketSide) (p agg : double) :
  core_inv e -> fin p = true -> is_Some (map_find (book_comp s) p (book_of e s)) ->
  dle agg dzero = false -> core_inv (update_depth e s p agg).
Proof using Type.
  intros I Hp Hf Ha. pose proof (core_inv_side e s I) as (K & S & L & D).
  pose proof (core_inv_side e (other s) I) as HO.
  destruct (depth_side_update e (update_depth e s p agg) s p agg (ci_depth_wf e I) Hp HO eq_refl)
    as (W & D1 & D2); [by destruct s|].
  destruct HO as (KO & SO & LO & _).
  apply (core_inv_sides _ s); try apply I; try done.
  - split_and!; [by destruct s..|]. intros p' Hp'. rewrite D2 by done.
    replace (book_of (update_depth e s p agg) s) with (book_of e s) by by destruct s.
    destruct (decide _) as [Er|]; [|by apply D].
    rewrite (map_find_rank (book_comp s) fin_key (price_rank s) (comp_rank_fin s) p' p) by done.
    split; [done|done].
Qed.

Lemma core_inv_write e (b : block) (o : RestingOrder) (q : double) :
  core_inv e -> heap e !! b = Some o ->
  core_inv (set_pool e (mkObjectPool (op_storage (en_pool e)) (<[b := with_open o q]> (heap e)))).
Proof using Type*.
  intros I Ho.
  assert (HQ : forall s p x, ptr_ok (heap e) s p x -> ptr_ok (<[b := with_open o q]> (heap e)) s p x).
  { intros s p x (o' & Ho' & H'). unfold ptr_ok. destruct (decide (x = b)) as [->|Hne].
    - rewrite Ho in Ho'. injection Ho' as <-. exists (with_open o q). by rewrite lookup_insert_eq.
    - exists o'. by rewrite lookup_insert_ne. }
  split; try apply I; simpl.
  - by apply (write_spec (en_pool e) b (fun o => with_open o q) o (ci_pool e I)).
  - intros s. eapply levels_impl; [|apply (ci_levels e I s)]. intros p x _. apply HQ.
  - intros x [o' Hx]. apply (ci_dom e I). change (is_Some (heap e !! x)).
    unfold heap in Hx. simpl in Hx. destruct (decide (x = b)) as [->|Hne]; [eauto|].
    rewrite lookup_insert_ne in Hx by done. eauto.
  - intros id x. pose proof (ci_live e I id x) as HL. etransitivity; [exact HL|].
    unfold heap at 2. simpl. destruct (decide (x = b)) as [->|Hne].
    + rewrite lookup_insert_eq. split; intros (o' & Ho' & <-).
      * rewrite Ho in Ho'. injection Ho' as <-. by exists (with_open o q).
      * injection Ho' as <-. by exists o.
    + by rewrite lookup_insert_ne.
Qed.

(** ** Removing an order *)

Definition others_positive e (b : block) : Prop :=
  forall x o, x <> b -> heap e !! x = Some o ->
    fin (ro_open_quantity o) = true /\ 0 < val (ro_open_quantity o).

Lemma live_ok_delete (live : gmap string block) (h : gmap block RestingOrder) (b : block)
    (o : RestingOrder) :
  live_ok live h -> h !! b = Some o -> live_ok (delete (ro_order_id o) live) (delete b h).
Proof using Type.
  intros HL Ho id x. rewrite lookup_delete_Some. split.
  - intros [Hne Hx]. apply HL in Hx as (o' & Hx & E). exists o'. split; [|done].
    rewrite lookup_delete_ne; [done|]. intros <-. rewrite Ho in Hx. injection Hx as <-. done.
  - intros (o' & Hx & E). apply lookup_delete_Some in Hx as [Hne Hx].
    assert (Hid : live !! id = Some x) by (apply HL; eauto). split; [|done].
    intros <-. assert (Hb : live !! ro_order_id o = Some b) by (apply HL; eauto).
    rewrite Hid in Hb. injection Hb as ->. done.
Qed.

Lemma remove_core e (b : block) (o : RestingOrder) (queue : OrderQueue) (agg : double)
    (pool : ObjectPool A RestingOrder) :
  let s := depth_side (ro_side o) in
  core_inv e -> heap e !! b = Some o -> fin (ro_price o) = true ->
  map_find (book_comp s) (ro_price o) (book_of e s) = Some queue -> b ∈ queue ->
  (erase_pointer b queue = [] -> agg = dzero) ->
  (erase_pointer b queue <> [] -> dle agg dzero = false) ->
  object_pool_wf pool -> op_objects pool = delete b (heap e) ->
  let book' := removed s (ro_price o) (erase_pointer b queue) (book_of e s) in
  core_inv (set_pool (set_live (set_depth (set_book e s book')
    (DepthBook_update (en_depth e) s (ro_price o) agg).2) (delete (ro_order_id o) (en_live e))) pool) /\
  exists l1 l2, ptrs (book_of e s) = l1 ++ b :: l2 /\ ptrs book' = l1 ++ l2.
Proof using Type*.
  intros s I Ho Hp Hf Hb Ha1 Ha2 Hwf Hobj book'.
  set (e' := set_pool _ _).
  pose proof (core_inv_side e s I) as (K & S & L & D).
  pose proof (core_inv_side e (other s) I) as HO.
  destruct (removed_spec s _ _ b queue _ Hp K S L Hf Hb) as (K' & S' & L' & (l1 & l2 & E1 & E2) & F').
  fold book' in K', S', L', E2, F'.
  assert (B1 : book_of e' s = book') by (subst e'; by destruct s).
  assert (B2 : book_of e' (other s) = book_of e (other s)) by (subst e'; by destruct s).
  assert (Hh : heap e' = delete b (heap e)) by done.
  destruct (depth_side_update e e' s _ agg (ci_depth_wf e I) Hp HO) as (W & D1 & D2);
    [by subst e'; destruct s|done|].
  destruct HO as (KO & SO & LO & DO).
  assert (Hall : all_ptrs e ≡ₚ b :: all_ptrs e').
  { rewrite (all_ptrs_sides e s), (all_ptrs_sides e' s), B1, B2, E1, E2.
    rewrite <- app_assoc. simpl. rewrite <- Permutation_middle. by rewrite <- app_assoc. }
  pose proof (ci_nodup e I) as Hnd. rewrite Hall in Hnd. apply NoDup_cons in Hnd as [Hnb Hnd].
  assert (Hnb' : forall s' x, x ∈ ptrs (book_of e' s') -> x <> b).
  { intros s' x Hx ->. apply Hnb. rewrite (all_ptrs_sides e' s'). apply elem_of_app. by left. }
  assert (HQ : forall s' p x, x ∈ ptrs (book_of e' s') ->
    ptr_ok (heap e) s' p x -> ptr_ok (heap e') s' p x).
  { intros s' p x Hx (o' & Ho' & H'). exists o'. rewrite Hh, lookup_delete_ne; [done|].
    intros <-. by apply (Hnb' s' b). }
  split; [|by exists l1, l2].
  apply (core_inv_sides _ s); [done|..|done| | |done].
  - split_and!; rewrite ?B1; try done.
    + eapply levels_impl; [|exact L']. intros p x Hx. apply HQ. by rewrite B1.
    + intros p' Hp'. rewrite D2, F' by done. destruct (decide _) as [Er|Er].
      * rewrite (map_find_rank (book_comp s) fin_key (price_rank s) (comp_rank_fin s) p' (ro_price o)) by done.
        rewrite Hf. destruct (decide (erase_pointer b queue = [])) as [En|En].
        { rewrite (Ha1 En). split; [done|]. intros [_ Hx]. by destruct (Hx Er). }
        { split; [split; [by eexists|done]|]. intros _. by apply Ha2. }
      * rewrite D by done. tauto.
  - split_and!; rewrite ?B2; try done.
    + eapply levels_impl; [|exact LO]. intros p x Hx. apply HQ. by rewrite B2.
    + intros p' Hp'. rewrite <- B2. by apply D1.
  - intros x [o' Hx]. rewrite Hh in Hx. apply lookup_delete_Some in Hx as [Hne Hx].
    pose proof (ci_dom e I x ltac:(eauto)) as Hd. rewrite Hall in Hd.
    by apply elem_of_cons in Hd as [->|Hd].
  - rewrite Hh. by apply (live_ok_delete _ _ b o (ci_live e I)).
Qed.

Lemma queue_fillable e (b : block) (s : MarketSide) (p : double) (queue : OrderQueue) :
  core_inv e -> others_positive e b -> NoDup (ptrs (book_of e s)) ->
  map_find (book_comp s) p (book_of e s) = Some queue -> fin p = true -> b ∈ queue ->
  Forall (fillable_order (heap e)) (erase_pointer b queue).
Proof using Type.
  intros I Hpos Hnd Hf Hp Hb. pose proof (core_inv_side e s I) as (K & S & L & _).
  apply (map_find_Some (book_comp s) fin_key (price_rank s) (comp_rank_fin s)) in Hf
    as (k & _ & Hin); try done. apply list_elem_of_In in Hin.
  destruct (erase_pointer_split b queue Hb) as (q1 & q2 & -> & ->).
  apply Forall_forall. intros x Hx.
  assert (Hxp : x ∈ ptrs (book_of e s)).
  { apply elem_of_ptrs. exists (k, q1 ++ b :: q2). split; [done|]. simpl. set_solver. }
  destruct (core_ptr e s x I Hxp) as (o & _ & Ho & _).
  exists o. split; [done|]. apply (Hpos x o); [|done]. intros ->.
  apply list_elem_of_split in Hin as (bk1 & bk2 & E). rewrite E, ptrs_level in Hnd.
  apply NoDup_app in Hnd as (_ & _ & Hnd). apply NoDup_app in Hnd as (Hnd & _ & _).
  apply NoDup_app in Hnd as (_ & Hdis & Hnd). apply NoDup_cons in Hnd as [Hnb _].
  apply elem_of_app in Hx as [Hx|Hx]; [|done]. by apply (Hdis b Hx), elem_of_cons; left.
Qed.

Lemma side_nodup e (s : MarketSide) : core_inv e -> NoDup (ptrs (book_of e s)).
Proof using Type.
  intros I. pose proof (ci_nodup e I) as Hnd. rewrite (all_ptrs_sides e s) in Hnd.
  by apply NoDup_app in Hnd as [? _].
Qed.

Lemma remove_resting_spec e (b : block) (o : RestingOrder) :
  let s := depth_side (ro_side o) in
  core_inv e -> events_ok e -> heap e !! b = Some o -> others_positive e b ->
  exists e', remove_resting_order tid e b = Ret e' /\ core_inv e' /\ events_ok e' /\
    heap e' = delete b (heap e) /\ book_of e' (other s) = book_of e (other s) /\
    exists l1 l2, ptrs (book_of e s) = l1 ++ b :: l2 /\ ptrs (book_of e' s) = l1 ++ l2.
Proof using Type*.
  intros s I Hev Ho Hpos.
  destruct (core_side_of e b o I Ho) as (Hb & queue & Hf & Hbq & Hp). fold s in Hb, Hf.
  unfold remove_resting_order. rewrite (read_spec _ _ _ Ho), bind_ret. fold s.
  unfold remove_from_book. rewrite Hf. cbn zeta.
  set (e1 := set_book e s _).
  assert (Hpool : en_pool e1 = en_pool e) by (subst e1; by destruct s).
  destruct (aggregate_spec (en_pool e1) (erase_pointer b queue) dzero) as (agg & -> & _ & Ha1 & Ha2).
  { rewrite Hpool. apply (queue_fillable e b s (ro_price o)); auto using side_nodup. }
  { apply sum_like_zero. }
  rewrite !bind_ret.
  set (book' := removed s (ro_price o) (erase_pointer b queue) (book_of e s)).
  assert (E2 : match erase_pointer b queue with
    | [] => set_book (update_depth e1 s (ro_price o) agg) s
              (map_erase (book_comp s) (ro_price o) (book_of (update_depth e1 s (ro_price o) agg) s))
    | _ :: _ => update_depth e1 s (ro_price o) agg
    end = set_depth (set_book e s book') (DepthBook_update (en_depth e) s (ro_price o) agg).2).
  { subst book' e1. unfold removed. by destruct s, (erase_pointer b queue). }
  rewrite E2. clear E2. set (e2 := set_depth _ _).
  assert (Hp2 : en_pool e2 = en_pool e) by (subst e2; by destruct s).
  assert (Hl2 : en_live e2 = en_live e) by (subst e2; by destruct s).
  destruct (destroy_spec tid (en_pool e) b o (ci_pool e I) Ho) as (st & Hd & Hwf).
  change (en_pool (set_live e2 _)) with (en_pool e2). rewrite Hp2, Hl2, Hd, bind_ret.
  destruct (remove_core e b o queue agg _ I Ho Hp Hf Hbq Ha1 Ha2 Hwf eq_refl)
    as (I' & l1 & l2 & E1 & E2). fold s book' e2 in I', E1, E2.
  set (e3 := set_pool _ _) in *.
  destruct (emit_depth_feeds e3) as (br & q & -> & Hq).
  { subst e3 e2. by destruct s. }
  exists (set_feed e3 br q). split_and!; [done|by apply core_inv_feed|done|done| |].
  - subst e3 e2. by destruct s.
  - exists l1, l2. split; [done|]. rewrite <- E2. subst e3 e2. by destruct s.
Qed.

(** ** Adding an order *)

Lemma live_ok_insert (live : gmap string block) (h : gmap block RestingOrder) (b : block)
    (o : RestingOrder) :
  live_ok live h -> h !! b = None -> live !! ro_order_id o = None ->
  live_ok (<[ro_order_id o := b]> live) (<[b := o]> h).
Proof using Type.
  intros HL Hb Hid id x. split.
  - intros [[<- <-]|[Hne Hx]]%lookup_insert_Some; [exists o; by rewrite lookup_insert_eq|].
    apply HL in Hx as (o' & Hx & E). exists o'. split; [|done].
    rewrite lookup_insert_ne; [done|]. intros <-. by rewrite Hb in Hx.
  - intros (o' & Hx & <-). apply lookup_insert_Some in Hx as [[<- <-]|[Hne Hx]].
    + by rewrite lookup_insert_eq.
    + assert (Hx' : live !! ro_order_id o' = Some x) by (apply HL; eauto).
      rewrite lookup_insert_ne; [done|]. intros E. by rewrite E, Hx' in Hid.
Qed.

Lemma add_core e (b : block) (o : RestingOrder) (pool : ObjectPool A RestingOrder) :
  let s := depth_side (ro_side o) in
  core_inv e -> fin (ro_price o) = true -> dle (ro_open_quantity o) dzero = false ->
  heap e !! b = None -> en_live e !! ro_order_id o = None ->
  object_pool_wf pool -> op_objects pool = <[b := o]> (heap e) ->
  let book' := map_update (book_comp s) (ro_price o) [] (fun queue => queue ++ [b]) (book_of e s) in
  core_inv (update_depth (set_book (set_live (set_pool e pool)
    (<[ro_order_id o := b]> (en_live e))) s book') s (ro_price o) (ro_open_quantity o)) /\
  exists l1 l2, ptrs (book_of e s) = l1 ++ l2 /\ ptrs book' = l1 ++ b :: l2 /\
    Forall (fun x => exists k, price_rank s k <= price_rank s (ro_price o) /\
                       ptr_ok (<[b := o]> (heap e)) s k x) l1 /\
    Forall (fun x => exists k, price_rank s (ro_price o) < price_rank s k /\
                       ptr_ok (<[b := o]> (heap e)) s k x) l2.
Proof using Type*.
  intros s I Hp Hq Hb Hid Hwf Hobj book'.
  set (e' := update_depth _ _ _ _).
  pose proof (core_inv_side e s I) as (K & S & L & D).
  pose proof (core_inv_side e (other s) I) as HO.
  assert (Hh : heap e' = <[b := o]> (heap e)) by (subst e'; by destruct s).
  assert (Hnb : forall s', b ∉ ptrs (book_of e s')).
  { intros s' Hx. destruct (core_ptr e s' b I Hx) as (o' & _ & Ho' & _). by rewrite Hb in Ho'. }
  assert (HQ : forall s' p x, x ∈ ptrs (book_of e s') ->
    ptr_ok (heap e) s' p x -> ptr_ok (<[b := o]> (heap e)) s' p x).
  { intros s' p x Hx (o' & Ho' & H'). exists o'. rewrite lookup_insert_ne; [done|].
    intros <-. by apply (Hnb s'). }
  assert (Lb : forall k, fin k = true -> price_rank s k = price_rank s (ro_price o) ->
    ptr_ok (<[b := o]> (heap e)) s k b).
  { intros k _ Hk. exists o. rewrite lookup_insert_eq. split_and!; try done.
    destruct s; simpl in Hk; lia. }
  destruct (added_spec s _ (ro_price o) b (book_of e s) Hp K S
    (levels_impl _ _ _ (fun p x Hx => HQ s p x Hx) L) Lb)
    as (K' & S' & L' & (l1 & l2 & E1 & E2 & F1 & F2) & F').
  fold book' in K', S', L', E2, F'.
  assert (B1 : book_of e' s = book') by (subst e'; by destruct s).
  assert (B2 : book_of e' (other s) = book_of e (other s)) by (subst e'; by destruct s).
  destruct (depth_side_update e e' s (ro_price o) (ro_open_quantity o) (ci_depth_wf e I) Hp HO)
    as (W & D1 & D2); [by subst e'; destruct s|done|].
  destruct HO as (KO & SO & LO & DO).
  assert (Hall : all_ptrs e' ≡ₚ b :: all_ptrs e).
  { rewrite (all_ptrs_sides e s), (all_ptrs_sides e' s), B1, B2, E1, E2.
    rewrite <- app_assoc. simpl. rewrite <- Permutation_middle. by rewrite <- app_assoc. }
  split; [|by exists l1, l2].
  apply (core_inv_sides _ s).
  - subst e'. by destruct s.
  - split_and!; rewrite ?B1, ?Hh; try done.
    intros p' Hp'. rewrite D2, F' by done. destruct (decide _) as [Er|Er].
    + split; [by right|done].
    + rewrite D by done. tauto.
  - split_and!; rewrite ?B2, ?Hh; try done.
    + eapply levels_impl; [|exact LO]. intros p x Hx. by apply HQ.
    + intros p' Hp'. rewrite <- B2. by apply D1.
  - rewrite Hall. constructor; [|apply I]. rewrite (all_ptrs_sides e s).
    intros [Hx|Hx]%elem_of_app; by apply Hnb in Hx.
  - intros x Hx. rewrite Hh in Hx. rewrite Hall. apply elem_of_cons.
    destruct (decide (x = b)) as [|Hne]; [by left|right]. apply (ci_dom e I).
    by rewrite lookup_insert_ne in Hx.
  - rewrite Hh. replace (en_live e') with (<[ro_order_id o := b]> (en_live e)) by (subst e'; by destruct s).
    by apply live_ok_insert; [apply I|..].
  - done.
Qed.

(** ** One fill *)

Lemma resolve_elem (h : gmap block RestingOrder) (l : list block) (o : RestingOrder) :
  o ∈ resolve h l <-> exists b, b ∈ l /\ h !! b = Some o.
Proof using Type. unfold resolve. by rewrite list_elem_of_omap. Qed.

Lemma live_order_ok e (b : block) (o : RestingOrder) :
  core_inv e -> book_wf (view e) -> heap e !! b = Some o -> order_ok (depth_side (ro_side o)) o.
Proof using Type.
  intros I W Ho. destruct (core_side_of e b o I Ho) as [Hb _].
  pose proof (bw_orders _ W (depth_side (ro_side o))) as HF. rewrite view_side in HF.
  rewrite Forall_forall in HF. apply HF, resolve_elem. eauto.
Qed.

Lemma order_ok_positive (s : MarketSide) (o : RestingOrder) : order_ok s o ->
  fin (ro_open_quantity o) = true /\ 0 < val (ro_open_quantity o).
Proof using Type. intros (_ & _ & H1 & H2). pose proof eps_pos. split; [done|lia]. Qed.

Lemma core_front e (s : MarketSide) (p : double) (queue : OrderQueue) (bk : OrderBook) :
  core_inv e -> book_of e s = (p, queue) :: bk ->
  exists b q o, queue = b :: q /\ heap e !! b = Some o /\ depth_side (ro_side o) = s /\
    fin (ro_price o) = true /\ val (ro_price o) = val p /\ fin p = true /\
    ptrs (book_of e s) = b :: (q ++ ptrs bk) /\
    makers e s = o :: resolve (heap e) (q ++ ptrs bk) /\ b ∉ q ++ ptrs bk /\
    b ∉ ptrs (book_of e (other s)).
Proof using Type.
  intros I E. pose proof (ci_levels e I s) as HL. pose proof (ci_keys e I s) as HK.
  pose proof (ci_nodup e I) as Hnd. rewrite (all_ptrs_sides e s) in Hnd.
  unfold makers. rewrite E in HL, HK, Hnd |- *.
  apply Forall_cons in HL as [[Hne HF] _]. apply Forall_cons in HK as [Hp _]. simpl in Hne, HF, Hp.
  destruct queue as [|b q]; [done|]. apply Forall_cons in HF as [(o & Ho & Hs & Hf & Hv) _].
  apply NoDup_app in Hnd as (Hnd & Hdis & _). simpl in Hnd, Hdis. apply NoDup_cons in Hnd as [Hnb _].
  exists b, q, o. split_and!; try done.
  - unfold ptrs. simpl. by rewrite Ho.
  - apply Hdis. apply elem_of_cons. by left.
Qed.

(** Overwriting the front maker's open quantity. *)
Lemma write_front e (s : MarketSide) (b : block) (o : RestingOrder) (rest : list block) (q : double) :
  core_inv e -> ptrs (book_of e s) = b :: rest -> heap e !! b = Some o ->
  b ∉ rest -> b ∉ ptrs (book_of e (other s)) ->
  let e' := set_pool e (mkObjectPool (op_storage (en_pool e)) (<[b := with_open o q]> (heap e))) in
  core_inv e' /\ makers e' s = with_open o q :: resolve (heap e) rest /\
  makers e' (other s) = makers e (other s).
Proof using Type*.
  intros I E Ho Hn1 Hn2 e'. split; [by apply core_inv_write|].
  unfold makers. assert (B : forall s', book_of e' s' = book_of e s') by (intros []; done).
  rewrite !B, E. change (heap e') with (<[b := with_open o q]> (heap e)).
  rewrite (resolve_insert _ _ _ _ Hn2). split; [|done].
  simpl. rewrite lookup_insert_eq. by rewrite resolve_insert.
Qed.

Lemma others_after_write e e' (b : block) (o : RestingOrder) :
  core_inv e -> book_wf (view e) -> heap e' = <[b := o]> (heap e) -> others_positive e' b.
Proof using Type.
  intros I W Hh x o' Hne Hx. rewrite Hh, lookup_insert_ne in Hx by done.
  eapply order_ok_positive, (live_order_ok e x); eauto.
Qed.

Definition fill_outcome (m : RestingOrder) (open : double) (rest : list RestingOrder) : list RestingOrder :=
  if dle open kPriceEpsilon then rest else with_open m open :: rest.

Lemma fill_removes e e1 (s : MarketSide) (b : block) (o : RestingOrder) (rest : list block) (open : double) :
  core_inv e -> book_wf (view e) -> core_inv e1 -> events_ok e1 ->
  heap e1 = <[b := with_open o open]> (heap e) ->
  (forall s', book_of e1 s' = book_of e s') -> depth_side (ro_side o) = s ->
  ptrs (book_of e s) = b :: rest -> b ∉ rest -> b ∉ ptrs (book_of e (other s)) ->
  exists e', remove_resting_order tid e1 b = Ret e' /\ core_inv e' /\ events_ok e' /\
    makers e' s = resolve (heap e) rest /\ makers e' (other s) = makers e (other s).
Proof using Type*.
  intros I W I1 Hev Hh Hb Hs Hp Hn1 Hn2.
  destruct (remove_resting_spec e1 b (with_open o open) I1 Hev) as
    (e' & -> & I' & Hev' & Hh' & Ho' & l1 & l2 & E1 & E2).
  { by rewrite Hh, lookup_insert_eq. }
  { by eapply (others_after_write e). }
  exists e'. cbn [ro_side with_open] in *. rewrite Hs in *. rewrite Hb, Hp in E1.
  assert (l1 = []) as ->.
  { destruct l1 as [|x l1]; [done|]. injection E1 as <- E1. rewrite E1 in Hn1.
    destruct Hn1. apply elem_of_app. right. apply elem_of_cons. by left. }
  injection E1 as <-. split_and!; [done..| |]; unfold makers.
  - rewrite E2, Hh', Hh, delete_insert_eq. simpl. by rewrite resolve_delete.
  - rewrite Ho', Hb, Hh', Hh, delete_insert_eq. by rewrite resolve_delete.
Qed.

Lemma fill_keeps e1 (s : MarketSide) (b : block) (o : RestingOrder) (queue : OrderQueue) (id : string)
    (open : double) :
  core_inv e1 -> events_ok e1 -> heap e1 !! b = Some o -> depth_side (ro_side o) = s ->
  Forall (fillable_order (heap e1)) queue -> queue <> [] ->
  exists e',
    (aggregate ← aggregate_quantity (en_pool e1) queue dzero;
     let e := update_depth e1 s (ro_price o) aggregate in
     e ← emit_order_event e id kPartiallyFilled kNone open;
     emit_depth_event e) = Ret e' /\
    core_inv e' /\ events_ok e' /\ (forall s', makers e' s' = makers e1 s').
Proof using Type*.
  intros I Hev Ho Hs HF Hne.
  destruct (aggregate_spec (en_pool e1) queue dzero HF sum_like_zero) as (agg & -> & _ & _ & Ha).
  rewrite bind_ret. destruct (core_side_of e1 b o I Ho) as (_ & qu & Hf & _ & Hp). rewrite Hs in Hf.
  pose proof (core_inv_depth e1 s (ro_price o) agg I Hp ltac:(eauto) (Ha Hne)) as I2.
  set (e2 := update_depth _ _ _ _) in *. cbn zeta.
  destruct (emit_order_feeds e2 id kPartiallyFilled kNone open) as (br & q & -> & Hq).
  { subst e2. by destruct s. }
  rewrite bind_ret. destruct (emit_depth_feeds (set_feed e2 br q)) as (br' & q' & -> & Hq').
  { exact Hq. }
  exists (set_feed (set_feed e2 br q) br' q'). split_and!; [done|by apply core_inv_feed, core_inv_feed|done|].
  intros []; done.
Qed.

Lemma fill_front_spec e (s : MarketSide) (request : OrderRequest) (remaining p : double)
    (queue : OrderQueue) (bk : OrderBook) :
  core_inv e -> events_ok e -> book_wf (view e) -> book_of e s = (p, queue) :: bk ->
  fin remaining = true -> val eps < val remaining ->
  exists m rest e', makers e s = m :: rest /\ fin p = true /\ val (ro_price m) = val p /\
    let fill := dmin remaining (ro_open_quantity m) in
    fill_front tid s e request remaining queue =
      Ret (dsub remaining fill, mkTrade (ro_order_id m) (rq_order_id request) (ro_price m) fill, e') /\
    core_inv e' /\ events_ok e' /\
    makers e' s = fill_outcome m (dsub (ro_open_quantity m) fill) rest /\
    makers e' (other s) = makers e (other s).
Proof using Type*.
  intros I Hev W E Hf He.
  destruct (core_front e s p queue bk I E)
    as (b & q & o & -> & Ho & Hs & Hop & Hov & Hp & Eptrs & Emk & Hn1 & Hn2).
  exists o, (resolve (heap e) (q ++ ptrs bk)).
  unfold fill_front. rewrite (proj2 (deref_ret (head (b :: q)) _ b) eq_refl), bind_ret.
  rewrite (read_spec _ _ _ Ho), bind_ret. cbn zeta.
  set (fill := dmin remaining (ro_open_quantity o)). set (open := dsub (ro_open_quantity o) fill).
  destruct (write_spec (en_pool e) b (fun o => with_open o open) o (ci_pool e I) Ho) as [-> _].
  rewrite bind_ret.
  destruct (write_front e s b o _ open I Eptrs Ho Hn1 Hn2) as (I1 & M1 & M2). cbn zeta in I1, M1, M2.
  change (<[b := with_open o open]> (op_objects (en_pool e))) with (<[b := with_open o open]> (heap e)).
  set (e1 := set_pool _ _) in *.
  set (tr := mkTrade _ _ _ _).
  destruct (emit_trade_feeds e1 tr Hev) as (br & qe & -> & Hq). rewrite bind_ret.
  set (e2 := set_feed e1 br qe).
  assert (I2 : core_inv e2) by by apply core_inv_feed.
  unfold fill_outcome. destruct (dle open kPriceEpsilon) eqn:Hd.
  - destruct (emit_order_feeds e2 (ro_order_id o) kFilled kNone dzero Hq) as (br' & qe' & -> & Hq').
    rewrite bind_ret.
    destruct (fill_removes e (set_feed e2 br' qe') s b o (q ++ ptrs bk) open)
      as (e' & -> & I' & Hev' & R1 & R2); try done.
    { by apply core_inv_feed. }
    exists e'. by rewrite bind_ret.
  - assert (Ho2 : heap e2 !! b = Some (with_open o open)) by apply lookup_insert_eq.
    destruct (live_order_ok e b o I W Ho) as (_ & _ & Hof & Hoe).
    destruct (fill_spec remaining (ro_open_quantity o) Hf Hof He Hoe) as (_ & _ & _ & _ & _ & F6 & F7 & _).
    fold fill open in F6, F7. rewrite dle_eps in Hd by done. apply Z.leb_gt in Hd.
    destruct (fill_keeps e2 s b (with_open o open) (b :: q) (ro_order_id o) open)
      as (e' & E' & I' & Hev' & R); try done.
    { apply Forall_cons. pose proof eps_pos. split; [exists (with_open o open); split_and!; [done|done|simpl; lia]|].
      apply Forall_forall. intros x Hx.
      assert (Hxp : x ∈ ptrs (book_of e s)) by (rewrite Eptrs; set_solver).
      destruct (core_ptr e s x I Hxp) as (o' & _ & Ho' & _). exists o'. split.
      - change (heap e2) with (<[b := with_open o open]> (heap e)).
        rewrite lookup_insert_ne; [done|]. intros <-. set_solver.
      - eapply order_ok_positive, (live_order_ok e x); eauto. }
    exists e'. cbn [ro_price with_open] in E'. cbn zeta in E'.
    apply bind_ret_inv in E' as (agg & -> & E'). rewrite bind_ret. cbn zeta.
    apply bind_ret_inv in E' as (e3 & -> & E'). rewrite bind_ret, E', bind_ret.
    rewrite !R. by split_and!.
Qed.

(** ** The matching loop *)

Lemma tail_wf (b : Book) (s : MarketSide) (m : RestingOrder) (l : list RestingOrder) :
  book_wf b -> side_of b s = m :: l -> book_wf (set_side b s l).
Proof using Type.
  intros Hb E. pose proof (book_wf_side b s Hb) as Hok. rewrite E in Hok.
  apply side_ok_inv in Hok as (_ & Hok & _).
  apply (book_wf_sides _ s); rewrite ?side_set_eq, ?side_set_other; [done|by apply book_wf_side|..].
  - pose proof (bw_ids b Hb) as Hnd. rewrite (ids_sides b s), E in Hnd. simpl in Hnd.
    by apply NoDup_cons in Hnd as [_ ?].
  - intros x y Hx Hy. apply (proj1 (uncrossed_side b s) (bw_uncrossed b Hb)); [|done].
    rewrite E. apply elem_of_cons. by right.
Qed.

Lemma view_eq e (s : MarketSide) (b : Book) (l : list RestingOrder) :
  makers e s = l -> makers e (other s) = side_of b (other s) -> view e = set_side b s l.
Proof using Type. unfold view. destruct s; simpl; by intros -> ->. Qed.

Lemma empty_book e (s : MarketSide) : book_of e s = [] -> makers e s = [].
Proof using Type. unfold makers. by intros ->. Qed.

Lemma match_loop_done (fuel : nat) e (s : MarketSide) (request : OrderRequest) (remaining : double)
    (trades : list Trade) :
  fin remaining = true -> val remaining <= val eps ->
  match_loop tid (S fuel) s e request remaining trades = Ret (remaining, trades, e).
Proof using Type. intros Hf Hz. simpl. by rewrite dgt_eps, (proj2 (Z.ltb_ge _ _)). Qed.

Lemma match_loop_spec (s : MarketSide) (request : OrderRequest) (ms : list RestingOrder) :
  fin (rq_price request) = true ->
  forall fuel e remaining trades, core_inv e -> events_ok e -> book_wf (view e) -> makers e s = ms ->
  fin remaining = true -> 0 <= val remaining -> (S (length ms) < fuel)%nat ->
  exists e', let '(r, ts, rest) := consume s request remaining ms in
    match_loop tid fuel s e request remaining trades = Ret (r, trades ++ ts, e') /\
    core_inv e' /\ events_ok e' /\ makers e' s = rest /\ makers e' (other s) = makers e (other s).
Proof using Type*.
  intros Hrp. induction ms as [|m ms IH]; intros fuel e remaining trades I Hev W Hm Hf Hr0 Hfuel;
    (destruct fuel as [|fuel]; [simpl in Hfuel; lia|]).
  - exists e. simpl. rewrite app_nil_r.
    destruct (dgt remaining kPriceEpsilon); [|done].
    destruct (book_of e s) as [|[p queue] bk] eqn:E; [done|].
    destruct (core_front e s p queue bk I E) as (b & q & o & _ & _ & _ & _ & _ & _ & _ & Emk & _).
    congruence.
  - destruct (Z.lt_ge_cases (val eps) (val remaining)) as [He|He].
    2: { exists e. cbn [consume]. rewrite dgt_eps, (proj2 (Z.ltb_ge _ _)) by done. cbn [andb].
         rewrite match_loop_done by done. by rewrite app_nil_r. }
    destruct (book_of e s) as [|[p queue] bk] eqn:E; [by rewrite (empty_book e s E) in Hm|].
    destruct (fill_front_spec e s request remaining p queue bk I Hev W E Hf He)
      as (m' & rest & e1 & Em & Hp & Hv & Efill & I1 & Hev1 & M1 & M2).
    rewrite Hm in Em. injection Em as <- <-.
    pose proof (bw_orders _ W s) as HF. rewrite view_side, Hm in HF.
    apply Forall_cons in HF as [(_ & Hmp & Hmo & Hme) _].
    cbn [consume match_loop]. rewrite E, dgt_eps, (proj2 (Z.ltb_lt _ _)) by done. cbn [andb].
    rewrite (beyond_limit_eq s request p (ro_price m)) by done.
    destruct (beyond_limit s request (ro_price m)); cbn [negb].
    { exists e. by rewrite app_nil_r. }
    rewrite Efill, bind_ret.
    destruct (fill_spec remaining (ro_open_quantity m) Hf Hmo He Hme)
      as (F1 & F2 & F3 & F4 & F5 & F6 & F7 & F8).
    unfold fill_outcome in M1. destruct (dle (dsub (ro_open_quantity m) _) kPriceEpsilon) eqn:Hd.
    + assert (Hview : view e1 = set_side (view e) s ms).
      { apply view_eq; [done|]. by rewrite view_side. }
      assert (W1 : book_wf (view e1)).
      { rewrite Hview. apply (tail_wf _ s m); [done|]. by rewrite view_side. }
      destruct (IH fuel e1 _ (trades ++ [mkTrade (ro_order_id m) (rq_order_id request) (ro_price m)
        (dmin remaining (ro_open_quantity m))]) I1 Hev1 W1 M1 F4 ltac:(lia) ltac:(simpl in Hfuel; lia))
        as (e' & IH').
      exists e'. destruct (consume s request _ ms) as [[r ts] rest].
      destruct IH' as (-> & ? & ? & ? & ?). rewrite <- app_assoc. simpl. split_and!; congruence || done.
    + destruct (F8 eq_refl) as [_ Z0]. exists e1.
      destruct fuel as [|fuel]; [simpl in Hfuel; lia|].
      rewrite match_loop_done; [by split_and!|done|]. rewrite Z0. pose proof eps_pos. lia.
Qed.

Lemma resolve_length (h : gmap block RestingOrder) (l : list block) :
  (length (resolve h l) <= length l)%nat.
Proof using Type.
  induction l as [|b l IH]; simpl; [done|]. destruct (h !! b); simpl; lia.
Qed.

Lemma match_request_spec e (b : Book) (request : OrderRequest) (remaining : double) :
  let s := opposite (rq_side request) in
  engine_rel e b -> fin (rq_price request) = true -> fin remaining = true -> 0 <= val remaining ->
  exists e', let '(r, ts, rest) := consume s request remaining (side_of b s) in
    match_request tid e request remaining = Ret (r, ts, e') /\
    engine_rel e' (set_side b s rest).
Proof using Type*.
  intros s (I & Hev & Hv & W) Hrp Hf Hr0. subst b.
  assert (HS : exists e', let '(r, ts, rest) := consume s request remaining (side_of (view e) s) in
    match_loop tid (match_fuel e s) s e request remaining [] = Ret (r, [] ++ ts, e') /\
    core_inv e' /\ events_ok e' /\ makers e' s = rest /\ makers e' (other s) = makers e (other s)).
  { rewrite view_side. apply match_loop_spec; try done. unfold match_fuel.
    pose proof (resolve_length (heap e) (ptrs (book_of e s))). unfold makers.
    unfold ptrs in *. lia. }
  destruct HS as (e' & HS). exists e'.
  pose proof (consume_wf (view e) s request remaining W Hrp Hf Hr0) as HW.
  destruct (consume s request remaining _) as [[r ts] rest].
  destruct HS as (E & I' & Hev' & M1 & M2). split.
  - unfold match_request, match_against_asks, match_against_bids. subst s.
    destruct (rq_side request); exact E.
  - split_and!; [done|done| |done]. apply view_eq; [done|]. by rewrite view_side.
Qed.
End Engine.
