(* ===== verification/EngineProofs.v ===== *)
(** * The engine's requests

    On top of the matching loop ([Matching]): resting a remainder, the admission
    checks, [submit] and [cancel], each shown to be what [MatchSpec] says; then
    the properties of the engine. *)

From S2P Require Import Prelude Double StdMap MarketTypes DepthBook Broadcaster Queue Spsc Allocator Pool Format Orderbook MatchSpec Matching.

Local Open Scope Z_scope.

Section Requests.
Context {A : Type} `{BlockAllocatorLaws A} (tid : Z).

Implicit Types e : Engine A.

(** ** Live orders *)

Lemma view_elem e (o : RestingOrder) : core_inv e ->
  o ∈ bk_bids (view e) ++ bk_asks (view e) <-> exists b, heap e !! b = Some o.
Proof using Type.
  intros I. simpl. unfold makers. rewrite <- resolve_app, resolve_elem. split.
  - intros (b & _ & Hb). eauto.
  - intros [b Hb]. exists b. split; [|done]. apply (ci_dom e I). eauto.
Qed.

Lemma live_has_order e (id : string) : core_inv e ->
  is_Some (en_live e !! id) <-> has_order (view e) id = true.
Proof using Type.
  intros I. rewrite has_order_in, list_elem_of_fmap. split.
  - intros [b Hb]. apply (ci_live e I) in Hb as (o & Ho & E). exists o. split; [done|].
    apply view_elem; eauto.
  - intros (o & -> & Ho). apply view_elem in Ho as [b Hb]; [|done]. exists b. apply (ci_live e I). eauto.
Qed.

Lemma live_none e (id : string) : core_inv e -> has_order (view e) id = false -> en_live e !! id = None.
Proof using Type.
  intros I Hid. apply eq_None_not_Some. intros HS%live_has_order; [|done]. by rewrite Hid in HS.
Qed.

(** ** Resting the remainder *)

Lemma level_rank (h : gmap block RestingOrder) (s : MarketSide) (k : double) (x : block) (m : RestingOrder) :
  ptr_ok h s k x -> h !! x = Some m ->
  fin (ro_price m) = true /\ price_rank s (ro_price m) = price_rank s k.
Proof using Type.
  intros (o & Ho & _ & Hf & Hv) Hm. rewrite Hm in Ho. injection Ho as <-.
  split; [done|]. destruct s; simpl; lia.
Qed.

Lemma makers_insert (h : gmap block RestingOrder) (s : MarketSide) (b : block) (o : RestingOrder)
    (l1 l2 : list block) :
  fin (ro_price o) = true -> b ∉ l1 -> b ∉ l2 ->
  Forall (fun x => exists k, price_rank s k <= price_rank s (ro_price o) /\
                     ptr_ok (<[b := o]> h) s k x) l1 ->
  Forall (fun x => exists k, price_rank s (ro_price o) < price_rank s k /\
                     ptr_ok (<[b := o]> h) s k x) l2 ->
  resolve (<[b := o]> h) (l1 ++ b :: l2) = insert_resting s o (resolve h (l1 ++ l2)).
Proof using Type.
  intros Hp Hn1 Hn2 F1 F2. rewrite !resolve_app. simpl. rewrite lookup_insert_eq.
  rewrite !resolve_insert by done. symmetry. rewrite Forall_forall in F1. rewrite Forall_forall in F2.
  apply insert_resting_app; apply Forall_forall; intros m (x & Hx & Hm)%resolve_elem.
  - destruct (F1 x Hx) as (k & Hk & Hq).
    destruct (level_rank _ s k x m Hq) as [Hf Hr]; [rewrite lookup_insert_ne by (intros <-; done); done|].
    rewrite price_rank_comp by done. apply Z.ltb_ge. lia.
  - destruct (F2 x Hx) as (k & Hk & Hq).
    destruct (level_rank _ s k x m Hq) as [Hf Hr]; [rewrite lookup_insert_ne by (intros <-; done); done|].
    rewrite price_rank_comp by done. apply Z.ltb_lt. lia.
Qed.

Lemma add_resting_spec e (b : Book) (request : OrderRequest) (q : double) :
  let own := depth_side (rq_side request) in
  engine_rel e b -> fin (rq_price request) = true -> fin q = true -> val eps < val q ->
  has_order b (rq_order_id request) = false ->
  Forall (fun m => 0 < overshoot (other own) request (ro_price m)) (side_of b (other own)) ->
  exists e', add_resting_order tid e request q = Ret e' /\
    engine_rel e' (set_side b own (insert_resting own (resting_of request q) (side_of b own))).
Proof using Type*.
  intros own (I & Hev & Hv & W) Hrp Hq Hqe Hid Hfar. subst b.
  set (o := resting_of request q).
  destruct (create_spec tid (en_pool e) (mkRestingOrder "" kBuy dzero dzero 0) (ci_pool e I))
    as (b & st & Hb & Hcr & Hwf).
  unfold add_resting_order. rewrite Hcr, bind_ret.
  destruct (write_spec _ b (fun _ => o) _ Hwf (lookup_insert_eq _ _ _)) as [Hwr Hwf'].
  fold (resting_of request q). fold o. rewrite Hwr, bind_ret. clear Hcr Hwr. cbn [op_storage op_objects] in *.
  rewrite insert_insert_eq in *. cbn zeta.
  set (pool := mkObjectPool st (<[b := o]> (op_objects (en_pool e)))) in *.
  change (en_live (set_pool e pool)) with (en_live e). rewrite (live_none e _ I Hid). fold own.
  assert (Hpos : dle q dzero = false).
  { rewrite dle_val by (done || apply fin_dzero). change (val dzero) with 0. apply Z.leb_gt.
    pose proof eps_pos. lia. }
  destruct (add_core e b o pool I Hrp Hpos Hb (live_none e _ I Hid) Hwf' eq_refl)
    as (I' & l1 & l2 & E1 & E2 & F1 & F2).
  cbn [ro_side ro_price ro_order_id ro_open_quantity o resting_of] in I', E1, E2, F1, F2. fold own in I', E1, E2, F1, F2.
  assert (EB : book_of (set_live (set_pool e pool) (<[rq_order_id request := b]> (en_live e))) own
    = book_of e own) by by destruct own.
  rewrite EB. set (e1 := update_depth _ _ _ _) in *.
  destruct (emit_depth_feeds e1) as (br & qe & -> & Hqe'); [by subst e1; destruct own|].
  exists (set_feed e1 br qe). split; [done|].
  assert (Hnb : forall s, b ∉ ptrs (book_of e s)).
  { intros s Hx. destruct (core_ptr e s b I Hx) as (o' & _ & Ho' & _). unfold heap in Ho'. by rewrite Hb in Ho'. }
  assert (Hh : heap e1 = <[b := o]> (heap e)) by (subst e1; by destruct own).
  assert (B1 : book_of e1 own = map_update (book_comp own) (rq_price request) [] (fun queue => queue ++ [b]) (book_of e own)).
  { subst e1. by destruct own. }
  assert (B2 : book_of e1 (other own) = book_of e (other own)) by (subst e1; by destruct own).
  pose proof (Hnb own) as Hn. rewrite E1 in Hn.
  assert (M1 : makers e1 own = insert_resting own o (makers e own)).
  { unfold makers. rewrite B1, E2, Hh, E1. apply makers_insert; try done; set_solver. }
  assert (M2 : makers e1 (other own) = makers e (other own)).
  { unfold makers. rewrite B2, Hh. by apply resolve_insert. }
  apply engine_rel_feed; [done| | |done].
  - apply view_eq; rewrite view_side; done.
  - apply insert_wf; try done.
Qed.

(** ** Admission checks *)

Lemma fill_queue_spec (pool : ObjectPool A RestingOrder) (s : MarketSide) (request : OrderRequest)
    (p : double) (queue : OrderQueue) (rest : list RestingOrder) : forall remaining,
  fin (rq_price request) = true -> fin p = true -> beyond_limit s request p = false ->
  Forall (ptr_ok (op_objects pool) s p) queue ->
  exists r, fill_queue pool queue remaining = Ret r /\
    fillable s request remaining (resolve (op_objects pool) queue ++ rest) =
      match r with inl _ => true | inr remaining' => fillable s request remaining' rest end.
Proof using Type.
  intros remaining Hr Hp Hb HF. revert remaining.
  induction HF as [|b queue (o & Ho & _ & Hf & Hv) HF IH]; intros remaining; simpl; [eauto|].
  rewrite (read_spec _ _ _ Ho), bind_ret, Ho. simpl.
  rewrite (beyond_limit_eq s request (ro_price o) p), Hb by done.
  destruct (dle _ _); [eauto|]. apply IH.
Qed.

Lemma fill_levels_spec (pool : ObjectPool A RestingOrder) (s : MarketSide) (request : OrderRequest)
    (book : OrderBook) : forall remaining,
  fin (rq_price request) = true -> keys_ok fin_key book ->
  levels_ok (ptr_ok (op_objects pool) s) book ->
  fill_levels pool s request book remaining =
    Ret (fillable s request remaining (resolve (op_objects pool) (ptrs book))).
Proof using Type.
  intros remaining Hr HK HL. revert remaining.
  induction book as [|[p queue] book IH]; intros remaining; [done|].
  apply Forall_cons in HK as [Hp HK]. apply Forall_cons in HL as [[Hne HF] HL]. simpl in Hp, Hne, HF.
  change (ptrs ((p, queue) :: book)) with (queue ++ ptrs book). rewrite resolve_app. cbn [fill_levels].
  destruct (beyond_limit s request p) eqn:Hb.
  - destruct queue as [|b queue]; [done|]. apply Forall_cons in HF as [(o & Ho & _ & Hf & Hv) _].
    simpl. rewrite Ho. simpl. by rewrite (beyond_limit_eq s request (ro_price o) p), Hb.
  - destruct (fill_queue_spec pool s request p queue (resolve (op_objects pool) (ptrs book)) remaining)
      as (r & -> & ->); try done.
    rewrite bind_ret. destruct r as [u|r]; [done|]. by apply IH.
Qed.

Lemma can_fill_spec e (b : Book) (request : OrderRequest) :
  let s := opposite (rq_side request) in
  engine_rel e b -> fin (rq_price request) = true ->
  can_fill_fully e request = Ret (fillable s request (rq_quantity request) (side_of b s)).
Proof using Type.
  intros s (I & _ & <- & _) Hr. unfold can_fill_fully. fold s. rewrite view_side.
  by apply fill_levels_spec; [|apply (ci_keys e I)|apply (ci_levels e I)].
Qed.

Lemma would_cross_spec e (b : Book) (request : OrderRequest) :
  engine_rel e b -> fin (rq_price request) = true -> would_cross e request = crosses b request.
Proof using Type.
  intros (I & _ & <- & _) Hr. unfold would_cross, crosses, has_best, best_price. rewrite view_side.
  assert (HB : forall s, match book_of e s with
    | [] => makers e s = []
    | (p, _) :: _ => exists m, head (makers e s) = Some m /\ fin p = true /\ fin (ro_price m) = true /\
        val (ro_price m) = val p
    end).
  { intros s. destruct (book_of e s) as [|[p queue] bk] eqn:E; [by apply empty_book|].
    destruct (core_front e s p queue bk I E) as (x & q & o & _ & _ & _ & ? & ? & ? & _ & -> & _).
    by exists o. }
  destruct (rq_side request); simpl opposite.
  - specialize (HB kAsk). destruct (book_of e kAsk) as [|[p queue] bk]; [by rewrite HB|].
    destruct HB as (m & -> & Hp & Hm & Hv). simpl.
    destruct (computes_compare _ _ _ (dadd_computes _ eps Hr fin_eps) Hp) as (_ & E1 & _).
    destruct (computes_compare _ _ _ (dadd_computes _ eps Hr fin_eps) Hm) as (_ & E2 & _).
    unfold kPriceEpsilon. by rewrite E1, E2, Hv.
  - specialize (HB kBid). destruct (book_of e kBid) as [|[p queue] bk]; [by rewrite HB|].
    destruct HB as (m & -> & Hp & Hm & Hv). simpl.
    destruct (computes_compare _ _ _ (dadd_computes _ eps Hp fin_eps) Hr) as (_ & E1 & _).
    destruct (computes_compare _ _ _ (dadd_computes _ eps Hm fin_eps) Hr) as (_ & E2 & _).
    rewrite Hv in E2. unfold kPriceEpsilon. unfold dge in E1, E2. unfold dle. by rewrite E1, E2.
Qed.

(** ** Submitting and cancelling *)

Lemma emit_rel e (b : Book) (id : string) (st : OrderStatus) (r : RejectReason) (q : double) :
  engine_rel e b -> exists e', emit_order_event e id st r q = Ret e' /\ engine_rel e' b.
Proof using Type.
  intros (I & Hev & Hv & W). destruct (emit_order_feeds e id st r q Hev) as (br & qe & -> & Hq).
  eexists. split; [done|]. by apply engine_rel_feed.
Qed.

Lemma reject_spec e (b : Book) (request : OrderRequest) (reason : RejectReason) :
  engine_rel e b -> exists e', reject e request reason = Ret (rejected request reason, e') /\ engine_rel e' b.
Proof using Type.
  intros R. unfold reject. destruct (emit_rel e b (rq_order_id request) kRejected reason (rq_quantity request) R)
    as (e' & -> & R'). rewrite bind_ret. eauto.
Qed.

(** The three ways a limit order ends, and those of a market order. *)
Lemma finalize_limit_spec e (b : Book) (request : OrderRequest) (r : double) (ts : list Trade) :
  let executed := dsub (rq_quantity request) r in
  let filled := dgt executed dzero in
  let result status := mkMatchResult true status kNone executed r ts in
  let own := depth_side (rq_side request) in
  engine_rel e b -> fin (rq_price request) = true -> fin r = true -> 0 <= val r ->
  has_order b (rq_order_id request) = false ->
  (val r <= val eps \/ Forall (fun m => 0 < overshoot (other own) request (ro_price m)) (side_of b (other own))) ->
  exists e', finalize_limit_result tid e request r
      (mkMatchResult true kAccepted kNone dzero (rq_quantity request) ts) =
    Ret (if is_zero r then result (if filled then kFilled else kAccepted)
         else if bool_decide (rq_tif request = kIoc) then result (if filled then kPartiallyFilled else kCancelled)
         else result (if filled then kPartiallyFilled else kAccepted), e') /\
    engine_rel e' (if is_zero r then b else if bool_decide (rq_tif request = kIoc) then b
      else set_side b own (insert_resting own (resting_of request r) (side_of b own))).
Proof using Type*.
  intros executed filled result own R Hrp Hf Hr0 Hid Hfar. unfold finalize_limit_result.
  cbn [mr_executed_quantity set_quantities]. fold executed filled.
  destruct (is_zero r) eqn:Hz.
  { destruct (emit_rel e b (rq_order_id request) (if filled then kFilled else kAccepted) kNone dzero R)
      as (e' & -> & R'). rewrite bind_ret. by exists e'. }
  destruct (bool_decide (rq_tif request = kIoc)).
  { destruct (emit_rel e b (rq_order_id request) (if filled then kPartiallyFilled else kCancelled) kNone r R)
      as (e' & -> & R'). rewrite bind_ret. by exists e'. }
  rewrite is_zero_val, Z.leb_gt in Hz by done.
  destruct Hfar as [Hfar|Hfar]; [lia|].
  destruct (add_resting_spec e b request r R Hrp Hf Hz Hid Hfar) as (e1 & -> & R1). rewrite bind_ret.
  destruct (emit_rel e1 _ (rq_order_id request) (if filled then kPartiallyFilled else kAccepted) kNone r R1)
    as (e' & -> & R'). rewrite bind_ret. by exists e'.
Qed.

Lemma finalize_market_spec e (b : Book) (request : OrderRequest) (r : double) (ts : list Trade) :
  let executed := dsub (rq_quantity request) r in
  let filled := dgt executed dzero in
  let result status := mkMatchResult true status kNone executed r ts in
  engine_rel e b ->
  exists e', finalize_market_result e request r
      (mkMatchResult true kAccepted kNone dzero (rq_quantity request) ts) =
    Ret (if is_zero r then result kFilled
         else if bool_decide (rq_tif request = kIoc) || filled
         then result (if filled then kPartiallyFilled else kCancelled)
         else mkMatchResult false kRejected kMarketOrderWouldRest executed r ts, e') /\
    engine_rel e' b.
Proof using Type.
  intros executed filled result R. unfold finalize_market_result.
  cbn [mr_executed_quantity set_quantities]. fold executed filled.
  destruct (is_zero r).
  { destruct (emit_rel e b (rq_order_id request) kFilled kNone dzero R) as (e' & -> & R').
    rewrite bind_ret. by exists e'. }
  destruct (_ || filled).
  { destruct (emit_rel e b (rq_order_id request) (if filled then kPartiallyFilled else kCancelled) kNone r R)
      as (e' & -> & R'). rewrite bind_ret. by exists e'. }
  destruct (emit_rel e b (rq_order_id request) kRejected kMarketOrderWouldRest r R) as (e' & -> & R').
  rewrite bind_ret. by exists e'.
Qed.

Definition finalize_of (request : OrderRequest) :=
  match rq_type request with
  | kLimit => finalize_limit_result (A := A) tid
  | kMarket => finalize_market_result (A := A)
  end.

Lemma execute_spec e (b : Book) (request : OrderRequest) :
  engine_rel e b -> request_ok request -> 0 <= val (rq_quantity request) ->
  has_order b (rq_order_id request) = false ->
  exists e', match_and_finalize tid (finalize_of request) e request = Ret ((spec_execute b request).1, e') /\
    engine_rel e' (spec_execute b request).2.
Proof using Type*.
  intros R [Hq Hp] Hq0 Hid. unfold match_and_finalize.
  set (s := opposite (rq_side request)).
  pose proof R as (_ & _ & _ & W).
  pose proof (consume_ok s request (side_of b s) _ Hp (book_wf_side b s W) Hq Hq0) as HC.
  destruct (match_request_spec tid e b request (rq_quantity request) R Hp Hq Hq0) as (e1 & HM).
  fold s in HM. unfold spec_execute. fold s.
  destruct (consume s request (rq_quantity request) (side_of b s)) as [[r ts] rest].
  destruct HM as [-> R1]. destruct HC as (Hfr & Hr & Hok & Hsuf & Hend). rewrite bind_ret.
  cbn [mr_accepted mr_final_status mr_reject_reason mr_executed_quantity mr_remaining_quantity make_accepted_result].
  pose proof (has_order_set_side b s rest _ Hsuf Hid) as Hid1.
  set (b1 := set_side b s rest) in *. unfold finalize_of.
  destruct (rq_type request) eqn:Ht.
  - destruct (finalize_limit_spec e1 b1 request r ts R1 Hp Hfr ltac:(lia) Hid1) as (e' & -> & R').
    { destruct Hend as [Hend|Hend]; [by left|right]. rewrite <- opposite_other. fold s. subst b1.
      rewrite side_set_eq. destruct Hok as [HF _]. rewrite Forall_forall in Hend. rewrite Forall_forall in HF.
      apply Forall_forall. intros m Hm. destruct (HF m Hm) as (_ & ? & _).
      apply beyond_limit_strict; auto. }
    exists e'. rewrite (bool_decide_eq_true_2 (kLimit = kLimit)) by done. simpl negb. rewrite orb_false_r, andb_false_l, orb_false_r.
    destruct (is_zero r); [done|]. by destruct (bool_decide (rq_tif request = kIoc)).
  - destruct (finalize_market_spec e1 b1 request r ts R1) as (e' & -> & R').
    exists e'. rewrite (bool_decide_eq_false_2 (kMarket = kLimit)) by done. simpl negb. rewrite orb_true_r, andb_true_l.
    destruct (is_zero r); [done|]. by destruct (_ || _).
Qed.

Lemma fok_spec e (b : Book) (request : OrderRequest) :
  engine_rel e b -> fin (rq_price request) = true ->
  fok_fails e request = Ret (bool_decide (rq_tif request = kFok) &&
    negb (fillable (opposite (rq_side request)) request (rq_quantity request)
            (side_of b (opposite (rq_side request))))).
Proof using Type.
  intros R Hp. unfold fok_fails. case_bool_decide; [|done].
  by rewrite (can_fill_spec e b request R Hp), bind_ret.
Qed.

Lemma submit_spec e (b : Book) (request : OrderRequest) :
  engine_rel e b -> request_ok request ->
  exists e', Engine_submit tid e request = Ret ((spec_submit b request).1, e') /\
    engine_rel e' (spec_submit b request).2.
Proof using Type*.
  intros R Hok. pose proof Hok as [Hq Hp]. unfold Engine_submit, spec_submit.
  destruct (_ || dle _ _) eqn:Hg; [by exists e|].
  apply orb_false_iff in Hg as [_ Hg]. apply positive_quantity in Hg; [|done].
  pose proof R as (I & _ & Hv & _).
  destruct (has_order b (rq_order_id request)) eqn:Hid.
  - rewrite <- Hv in Hid. apply live_has_order in Hid as [x ->]; [|done].
    by apply (reject_spec e b request kDuplicateOrderId).
  - rewrite (live_none e (rq_order_id request) I) by by rewrite Hv.
    destruct (execute_spec e b request R Hok ltac:(lia) Hid) as (e' & E & R'). unfold finalize_of in E.
    unfold handle_limit_order, handle_market_order.
    destruct (rq_type request) eqn:Ht.
    + rewrite (bool_decide_eq_true_2 (kLimit = kLimit)), andb_true_l by done.
      rewrite (would_cross_spec e b request R Hp).
      destruct (_ && crosses b request); [by apply reject_spec|].
      rewrite (fok_spec e b request R Hp), bind_ret.
      destruct (_ && negb _); [by apply reject_spec|]. by exists e'.
    + rewrite (bool_decide_eq_false_2 (kMarket = kLimit)) by done. simpl.
      rewrite (fok_spec e b request R Hp), bind_ret.
      destruct (_ && negb _); [by apply reject_spec|]. by exists e'.
Qed.

(** Removing one order of a list with distinct ids is filtering by id. *)
Lemma without_middle (l1 l2 : list RestingOrder) (o : RestingOrder) :
  NoDup (map ro_order_id (l1 ++ o :: l2)) -> without (ro_order_id o) (l1 ++ o :: l2) = l1 ++ l2.
Proof using Type.
  intros Hnd. rewrite map_app in Hnd. simpl in Hnd.
  apply NoDup_app in Hnd as (_ & Hdis & Hnd). apply NoDup_cons in Hnd as [Hn _].
  assert (Hall : forall l, ro_order_id o ∉ map ro_order_id l -> without (ro_order_id o) l = l).
  { induction l as [|x l IH]; intros Hx; [done|]. simpl. simpl in Hx.
    apply not_elem_of_cons in Hx as [Hx1 Hx2]. rewrite bool_decide_eq_false_2 by congruence. simpl.
    by rewrite IH. }
  unfold without. rewrite List.filter_app. simpl. rewrite bool_decide_eq_true_2 by done. simpl.
  f_equal; apply Hall; [|done]. intros Hin. apply (Hdis _ Hin). apply elem_of_cons. by left.
Qed.

Lemma without_absent (l : list RestingOrder) (id : string) :
  id ∉ map ro_order_id l -> without id l = l.
Proof using Type.
  induction l as [|x l IH]; intros Hx; [done|]. simpl. simpl in Hx.
  apply not_elem_of_cons in Hx as [Hx1 Hx2]. rewrite bool_decide_eq_false_2 by congruence. simpl.
  by rewrite IH.
Qed.

Lemma find_live e (id : string) : core_inv e -> book_wf (view e) ->
  match en_live e !! id with
  | None => List.find (fun o => bool_decide (ro_order_id o = id)) (bk_bids (view e) ++ bk_asks (view e)) = None
  | Some b => exists o, heap e !! b = Some o /\ ro_order_id o = id /\
      List.find (fun o => bool_decide (ro_order_id o = id)) (bk_bids (view e) ++ bk_asks (view e)) = Some o
  end.
Proof using Type.
  intros I W. destruct (List.find _ _) as [o|] eqn:Ef.
  - apply find_some in Ef as [Hin Hid]. apply bool_decide_eq_true in Hid. apply list_elem_of_In in Hin.
    apply view_elem in Hin as [b Hb]; [|done].
    assert (Hl : en_live e !! id = Some b) by (apply (ci_live e I); eauto).
    rewrite Hl. by exists o.
  - destruct (en_live e !! id) as [b|] eqn:Hl; [|done].
    apply (ci_live e I) in Hl as (o & Hb & Hid).
    assert (Hin : o ∈ bk_bids (view e) ++ bk_asks (view e)) by (apply view_elem; eauto).
    apply list_elem_of_In in Hin. apply (find_none _ _ Ef) in Hin.
    by apply bool_decide_eq_false in Hin.
Qed.

Lemma cancel_spec e (b : Book) (id : string) (timestamp : Z) :
  engine_rel e b ->
  exists e', Engine_cancel tid e id timestamp = Ret ((spec_cancel b id).1, e') /\
    engine_rel e' (spec_cancel b id).2.
Proof using Type*.
  intros R. pose proof R as (I & Hev & Hv & W). pose proof (spec_cancel_wf b id W) as W'. subst b.
  pose proof (find_live e id I W) as HF. unfold Engine_cancel, spec_cancel in *.
  destruct (en_live e !! id) as [x|]; [|rewrite HF; by exists e].
  destruct HF as (o & Ho & Hid & Ef). rewrite Ef in *. cbn [fst snd] in *. rewrite (read_spec _ _ _ Ho), bind_ret. cbn zeta.
  destruct (remove_resting_spec tid e x o I Hev Ho) as (e1 & -> & I1 & Hev1 & Hh & B2 & l1 & l2 & E1 & E2).
  { intros y oy Hne Hy. by eapply order_ok_positive, (live_order_ok e y). }
  rewrite bind_ret. set (s := depth_side (ro_side o)) in *.
  pose proof (ci_nodup e I) as Hnd. rewrite (all_ptrs_sides e s), E1 in Hnd.
  apply NoDup_app in Hnd as (Hnd1 & Hdis & _).
  apply NoDup_app in Hnd1 as (_ & Hd1 & Hnd2). apply NoDup_cons in Hnd2 as [Hn2 _].
  assert (Hn1 : x ∉ l1) by (intros Hx; apply (Hd1 x Hx), elem_of_cons; by left).
  assert (Hno : x ∉ ptrs (book_of e (other s))).
  { apply Hdis. apply elem_of_app. right. apply elem_of_cons. by left. }
  assert (Mk : makers e s = resolve (heap e) l1 ++ o :: resolve (heap e) l2).
  { unfold makers. rewrite E1, resolve_app. simpl. by rewrite Ho. }
  pose proof (bw_ids _ W) as Hids. rewrite (ids_sides _ s), !view_side, Mk in Hids.
  apply NoDup_app in Hids as (Hids & Hdis2 & _).
  assert (M1 : makers e1 s = without id (makers e s)).
  { rewrite Mk, <- Hid, without_middle by done. unfold makers.
    rewrite E2, Hh, resolve_app, !resolve_delete by done. done. }
  assert (M2 : makers e1 (other s) = without id (makers e (other s))).
  { rewrite without_absent; [unfold makers; rewrite B2, Hh; by apply resolve_delete|].
    rewrite <- Hid. apply Hdis2. rewrite map_app. apply elem_of_app. right. simpl. apply elem_of_cons. by left. }
  destruct (emit_order_feeds e1 id kCancelled kNone dzero Hev1) as (br & q & -> & Hq). rewrite bind_ret.
  exists (set_feed e1 br q). split; [done|]. apply engine_rel_feed; [done| |done|done].
  unfold view. simpl. destruct s; simpl in M1, M2; by rewrite M1, M2.
Qed.
End Requests.

(** ** Runs *)

Inductive engine_op :=
| OpSubmit (request : OrderRequest)
| OpCancel (order_id : string) (timestamp : Z)
| OpPollEvent.

Definition op_ok (op : engine_op) : Prop :=
  match op with OpSubmit request => request_ok request | _ => True end.

Definition spec_exec (b : Book) (op : engine_op) : option MatchResult * Book :=
  match op with
  | OpSubmit request => (Some (spec_submit b request).1, (spec_submit b request).2)
  | OpCancel id _ => (Some (spec_cancel b id).1, (spec_cancel b id).2)
  | OpPollEvent => (None, b)
  end.

Fixpoint spec_run (b : Book) (ops : list engine_op) : list (option MatchResult) * Book :=
  match ops with
  | [] => ([], b)
  | op :: ops =>
    let '(r, b) := spec_exec b op in
    let '(rs, b) := spec_run b ops in
    (r :: rs, b)
  end.

Section Runs.
Context {A : Type} `{BlockAllocator A} (tid : Z).

Definition Engine_exec (e : Engine A) (op : engine_op) : outcome (option MatchResult * Engine A) :=
  match op with
  | OpSubmit request => r ← Engine_submit tid e request; Ret (Some r.1, r.2)
  | OpCancel id timestamp => r ← Engine_cancel tid e id timestamp; Ret (Some r.1, r.2)
  | OpPollEvent => r ← Engine_poll_event e; Ret (None, r.2)
  end.

Fixpoint Engine_run (e : Engine A) (ops : list engine_op)
    : outcome (list (option MatchResult) * Engine A) :=
  match ops with
  | [] => Ret ([], e)
  | op :: ops =>
    r ← Engine_exec e op;
    rs ← Engine_run r.2 ops;
    Ret (r.1 :: rs.1, rs.2)
  end.

Definition empty_book : Book := mkBook [] [].

Context `{!BlockAllocatorLaws A}.

(** The engines that construction and any calls lead to. *)
Definition engine_reachable (e : Engine A) : Prop :=
  exists storage symbol capacity ops e0 rs,
    outstanding storage ∅ /\ symbol <> "" /\ 2 <= capacity <= two63 /\ Forall op_ok ops /\
    Engine_new storage symbol capacity = Ret e0 /\ Engine_run e0 ops = Ret (rs, e).

Lemma new_spec (storage : A) (symbol : string) (capacity : Z) :
  outstanding storage ∅ -> symbol <> "" -> 2 <= capacity <= two63 ->
  exists e, Engine_new storage symbol capacity = Ret e /\ engine_rel e empty_book.
Proof using Type*.
  intros Ho Hs Hc. destruct (Spsc_new_spec (T := EngineEvent) capacity Hc) as (q & E & R & _).
  unfold Engine_new. rewrite E, bind_ret, bool_decide_eq_false_2 by done.
  eexists. split; [reflexivity|]. split_and!; [|exists []; by exists 0|done|].
  - split; simpl; try done.
    + intros []; constructor.
    + intros []; constructor.
    + intros []; constructor.
    + constructor.
    + intros b. unfold heap. simpl. rewrite lookup_empty. by intros [].
    + intros id b. unfold heap. simpl. rewrite !lookup_empty. split; [done|]. by intros (? & ? & _).
    + by split; constructor.
    + intros s p _. destruct s; simpl; split; by intros [].
  - split; simpl; try (intros []; constructor); [constructor|]. by intros x y ?%not_elem_of_nil.
Qed.

Lemma exec_spec (e : Engine A) (b : Book) (op : engine_op) : engine_rel e b -> op_ok op ->
  exists e', Engine_exec e op = Ret ((spec_exec b op).1, e') /\ engine_rel e' (spec_exec b op).2.
Proof using Type*.
  intros R Hop. destruct op as [request|id t|]; simpl in *.
  - destruct (submit_spec tid e b request R Hop) as (e' & -> & R'). rewrite bind_ret. by exists e'.
  - destruct (cancel_spec tid e b id t R) as (e' & -> & R'). rewrite bind_ret. by exists e'.
  - destruct R as (I & [l Hl] & Hv & W). unfold Engine_poll_event.
    assert (HP : exists r q, Spsc_try_pop (en_events e) = Ret (r, q) /\ exists l, represents q l).
    { destruct Hl as [n Hl]. destruct l as [|v l].
      - rewrite (ring_pop_empty _ n Hl). eexists _, _. split; [done|]. exists []. by exists n.
      - destruct (ring_pop _ n l v Hl) as (q & -> & Hq & _). eexists _, _. split; [done|].
        exists l. by exists (n + 1). }
    destruct HP as (r & q & -> & Hq). rewrite !bind_ret. eexists. split; [done|].
    by apply engine_rel_feed.
Qed.

Lemma run_spec (ops : list engine_op) : forall (e : Engine A) (b : Book),
  engine_rel e b -> Forall op_ok ops ->
  exists e', Engine_run e ops = Ret ((spec_run b ops).1, e') /\ engine_rel e' (spec_run b ops).2.
Proof using Type*.
  induction ops as [|op ops IH]; intros e b R HF; simpl; [by exists e|].
  apply Forall_cons in HF as [Hop HF].
  destruct (exec_spec e b op R Hop) as (e1 & -> & R1). rewrite bind_ret.
  destruct (spec_exec b op) as [r b1]. destruct (IH e1 b1 R1 HF) as (e' & E & R'). simpl in *.
  rewrite E, bind_ret. destruct (spec_run b1 ops) as [rs b2]. by exists e'.
Qed.

Lemma reachable_rel (e : Engine A) : engine_reachable e -> engine_rel e (view e).
Proof using Type*.
  intros (storage & symbol & capacity & ops & e0 & rs & Ho & Hs & Hc & HF & E0 & ER).
  destruct (new_spec storage symbol capacity Ho Hs Hc) as (e0' & E0' & R0).
  rewrite E0 in E0'. injection E0' as <-.
  destruct (run_spec ops e0 empty_book R0 HF) as (e' & ER' & R').
  rewrite ER in ER'. injection ER' as -> <-. destruct R' as (? & ? & <- & ?). by split_and!.
Qed.
End Runs.

(** ** The engine's storage in the witnesses *)

Definition limit_order (id : string) (side : Side) (tif : TimeInForce) (price quantity : Z) : engine_op :=
  OpSubmit (mkOrderRequest id side kLimit tif (double_of_Z price) (double_of_Z quantity) 0).

Lemma limit_order_ok (id : string) (side : Side) (tif : TimeInForce) (price quantity : Z) :
  fin (double_of_Z price) = true -> fin (double_of_Z quantity) = true ->
  op_ok (limit_order id side tif price quantity).
Proof. done. Qed.
