(* ===== verification/Arrivals.v ===== *)
(** * Who came first

    Time priority without the engine's queues: the history of a run is the list
    of the requests the engine accepted, in the order of the calls, and an order
    arrived with the latest accepted request of its id. The lemmas show that the
    lists of the specification are sorted by price and then by arrival. *)

From S2P Require Import Prelude Double StdMap MarketTypes DepthBook Orderbook MatchSpec Matching EngineProofs.

Local Open Scope Z_scope.

(** The accepted requests of a run, in the order of the calls. *)
Fixpoint accepted_requests (ops : list engine_op) (rs : list (option MatchResult)) : list OrderRequest :=
  match ops, rs with
  | OpSubmit request :: ops, Some r :: rs =>
    if mr_accepted r then request :: accepted_requests ops rs else accepted_requests ops rs
  | _ :: ops, _ :: rs => accepted_requests ops rs
  | _, _ => []
  end.

(** Entry [n] of the history is the latest request of the id. *)
Definition arrived (history : list OrderRequest) (id : string) (n : nat) (request : OrderRequest) : Prop :=
  history !! n = Some request /\ rq_order_id request = id /\
  forall n' request', (n < n')%nat -> history !! n' = Some request' -> rq_order_id request' <> id.

(** The bid that offers more, or the ask that wants less. *)
Definition better_price (s : MarketSide) (p q : double) : Prop :=
  match s with kBid => val q < val p | kAsk => val p < val q end.

(** Order [a] is to be served before order [b]: the better price, or the same
    price and the earlier arrival. *)
Definition served_before (history : list OrderRequest) (s : MarketSide) (a b : string) : Prop :=
  exists i x j y, arrived history a i x /\ arrived history b j y /\
    (better_price s (rq_price x) (rq_price y) \/
     val (rq_price x) = val (rq_price y) /\ (i < j)%nat).

(** The resting order stems from a limit request of the history for its side,
    at its price. *)
Definition stems_from (history : list OrderRequest) (s : MarketSide) (o : RestingOrder) : Prop :=
  exists n request, arrived history (ro_order_id o) n request /\ rq_price request = ro_price o /\
    depth_side (rq_side request) = s /\ rq_type request = kLimit.

Definition timely (history : list OrderRequest) (s : MarketSide) (l : list RestingOrder) : Prop :=
  Forall (stems_from history s) l /\
  StronglySorted (served_before history s) (map ro_order_id l).

(** ** The history *)

Lemma accepted_requests_app (ops ops' : list engine_op) : forall rs rs', length ops = length rs ->
  accepted_requests (ops ++ ops') (rs ++ rs') = accepted_requests ops rs ++ accepted_requests ops' rs'.
Proof.
  induction ops as [|op ops IH]; intros [|r rs] rs' Hl; simpl in *; try done.
  injection Hl as Hl. destruct op, r as [r|]; try destruct (mr_accepted r); simpl; by rewrite IH.
Qed.

Lemma arrived_det (h : list OrderRequest) (id : string) (i j : nat) (x y : OrderRequest) :
  arrived h id i x -> arrived h id j y -> i = j /\ x = y.
Proof.
  intros (Hi & Ei & Li) (Hj & Ej & Lj).
  destruct (Nat.lt_trichotomy i j) as [Hlt|[<-|Hlt]];
    [by destruct (Li j y Hlt Hj)|split; congruence|by destruct (Lj i x Hlt Hi)].
Qed.

Lemma arrived_snoc (h : list OrderRequest) (id : string) (n : nat) (x request : OrderRequest) :
  arrived h id n x -> rq_order_id request <> id -> arrived (h ++ [request]) id n x.
Proof.
  intros (Hn & E & L) Hne. split; [by apply lookup_app_l_Some|]. split; [done|].
  intros n' y Hlt [Hy|[_ Hy]]%lookup_app_Some; [by apply (L n')|].
  apply list_lookup_singleton_Some in Hy as [_ <-]. done.
Qed.

Lemma arrived_last (h : list OrderRequest) (request : OrderRequest) :
  arrived (h ++ [request]) (rq_order_id request) (length h) request.
Proof.
  split; [by rewrite lookup_app_r, Nat.sub_diag by done|]. split; [done|].
  intros n' y Hlt Hy. apply lookup_lt_Some in Hy. rewrite length_app in Hy. simpl in Hy. lia.
Qed.

Lemma arrived_bound (h : list OrderRequest) (id : string) (n : nat) (x : OrderRequest) :
  arrived h id n x -> (n < length h)%nat.
Proof. intros [H _]. by apply lookup_lt_Some in H. Qed.

(** ** Lists in order of service *)

Lemma timely_suffix (h : list OrderRequest) (s : MarketSide) (l l' : list RestingOrder) (k : nat) :
  timely h s l -> map ro_order_id l' = drop k (map ro_order_id l) -> map ro_price l' = drop k (map ro_price l) ->
  timely h s l'.
Proof.
  intros [F S] E1 E2. split; [|rewrite E1; eapply sublist_sorted, S; apply sublist_drop].
  rewrite skipn_map in E1, E2.
  apply (fun H => Forall_drop _ k _ H) in F. revert l' E1 E2. induction F as [|m l1 Hm F IH]; intros [|m' l'] E1 E2; try done.
  simpl in E1, E2. injection E1 as E1 E1'. injection E2 as E2 E2'. constructor; [|by apply IH].
  unfold stems_from in *. by rewrite E1, E2.
Qed.

Lemma timely_sublist (h : list OrderRequest) (s : MarketSide) (l l' : list RestingOrder) :
  timely h s l -> l' `sublist_of` l -> timely h s l'.
Proof.
  intros [F S] Hs. split; [|by eapply sublist_sorted, S; apply sublist_map].
  rewrite Forall_forall in *. intros m Hm. apply F. by eapply elem_of_sublist.
Qed.

(** A request of another id changes nobody's turn. *)
Lemma served_before_snoc (h : list OrderRequest) (s : MarketSide) (request : OrderRequest) (a b : string) :
  rq_order_id request <> a -> rq_order_id request <> b ->
  served_before h s a b -> served_before (h ++ [request]) s a b.
Proof.
  intros Ha Hb (i & x & j & y & Hi & Hj & HP). exists i, x, j, y.
  split_and!; [by apply arrived_snoc..|done].
Qed.

Lemma timely_snoc (h : list OrderRequest) (s : MarketSide) (request : OrderRequest) (l : list RestingOrder) :
  rq_order_id request ∉ map ro_order_id l -> timely h s l -> timely (h ++ [request]) s l.
Proof.
  intros Hn [F S]. split.
  - rewrite Forall_forall in *. intros m Hm. destruct (F m Hm) as (n & x & Ha & Hx).
    exists n, x. split; [|done]. apply arrived_snoc; [done|].
    intros E. apply Hn. apply list_elem_of_fmap. by exists m.
  - clear F. induction S as [|a ids S IH HF]; [constructor|].
    apply not_elem_of_cons in Hn as [Hna Hn]. constructor; [by apply IH|].
    rewrite Forall_forall in *. intros b Hb. apply served_before_snoc; [done| |by apply HF].
    by intros <-.
Qed.

(** A new order comes after every order it does not beat in price. *)
Lemma timely_insert (h : list OrderRequest) (s : MarketSide) (request : OrderRequest) (r : double)
    (l : list RestingOrder) :
  depth_side (rq_side request) = s -> rq_type request = kLimit ->
  order_ok s (resting_of request r) -> side_ok s l -> timely (h ++ [request]) s l ->
  Forall (fun o => exists n x, arrived (h ++ [request]) (ro_order_id o) n x /\ (n < length h)%nat /\
    rq_price x = ro_price o) l ->
  timely (h ++ [request]) s (insert_resting s (resting_of request r) l).
Proof.
  intros Hs Ht Ho Hok [F S] HF.
  destruct (insert_resting_split s _ l Ho Hok) as (l1 & l2 & -> & -> & F1 & F2).
  pose proof (arrived_last h request) as HL. split.
  - apply Forall_app in F as [Fa Fb]. apply Forall_app. split; [done|]. constructor; [|done].
    by exists (length h), request.
  - rewrite map_app in *. simpl. apply Forall_app in HF as [Fa Fb].
    apply StronglySorted_app in S as (S12 & S1 & S2). apply StronglySorted_app. split_and!; [|done|].
    + intros a b Ha [->|Hb]%elem_of_cons; [|by apply S12].
      apply list_elem_of_fmap in Ha as (m & -> & Hm). rewrite Forall_forall in Fa, F1.
      destruct (Fa m Hm) as (n & x & Hn & Hlt & Hp). exists n, x, (length h), request.
      split_and!; [done|done|]. specialize (F1 m Hm). rewrite Hp. simpl in F1.
      destruct s; simpl in *; lia.
    + constructor; [done|]. apply Forall_forall. intros b (m & -> & Hm)%list_elem_of_fmap.
      rewrite Forall_forall in Fb, F2. destruct (Fb m Hm) as (n & x & Hn & Hlt & Hp).
      exists (length h), request, n, x. split_and!; [done|done|left]. specialize (F2 m Hm). simpl in F2.
      rewrite Hp. destruct s; simpl in *; lia.
Qed.

(** ** Runs *)

Definition book_timely (h : list OrderRequest) (b : Book) : Prop := forall s, timely h s (side_of b s).

(** A request that leaves a remainder in the book is accepted. *)
Lemma rests_accepted (b : Book) (request : OrderRequest) :
  rests request (mr_remaining_quantity (spec_execute b request).1) = true ->
  mr_accepted (spec_execute b request).1 = true.
Proof.
  unfold spec_execute. destruct (consume _ _ _ _) as [[r ts] rest]. unfold rests.
  destruct (bool_decide (rq_type request = kLimit)) eqn:Et; simpl; rewrite ?Et; simpl;
    [|by rewrite ?andb_false_l].
  destruct (is_zero r); [done|]. by destruct (_ || _).
Qed.

Lemma rests_limit (request : OrderRequest) (r : double) : rests request r = true -> rq_type request = kLimit.
Proof.
  unfold rests. intros H. apply andb_true_iff in H as [H _]. apply andb_true_iff in H as [H _].
  by apply bool_decide_eq_true in H.
Qed.

Lemma rests_open (request : OrderRequest) (r : double) : fin r = true -> 0 <= val r ->
  rests request r = true -> val eps < val r.
Proof.
  intros Hf H0' H. unfold rests in H. apply andb_true_iff in H as [_ H]. apply negb_true_iff in H.
  rewrite is_zero_val in H by done. by apply Z.leb_gt.
Qed.

Lemma no_order_of (b : Book) (id : string) (s : MarketSide) :
  has_order b id = false -> id ∉ map ro_order_id (side_of b s).
Proof.
  intros H Hin. apply not_true_iff_false in H. apply H. unfold has_order. apply existsb_exists.
  apply list_elem_of_fmap in Hin as (o & -> & Ho). exists o. split; [|by apply bool_decide_eq_true].
  apply list_elem_of_In, elem_of_app. destruct s; auto.
Qed.

(** The resting orders of the book have their entry before a new request's. *)
Lemma entries_before (h : list OrderRequest) (s : MarketSide) (request : OrderRequest) (l : list RestingOrder) :
  rq_order_id request ∉ map ro_order_id l -> timely h s l ->
  Forall (fun o => exists n x, arrived (h ++ [request]) (ro_order_id o) n x /\ (n < length h)%nat /\
    rq_price x = ro_price o) l.
Proof.
  intros Hn [F _]. rewrite Forall_forall in *. intros m Hm. destruct (F m Hm) as (n & x & Ha & Hx & _).
  exists n, x. split_and!; [|by eapply arrived_bound|done]. apply arrived_snoc; [done|].
  intros E. apply Hn. apply list_elem_of_fmap. by exists m.
Qed.

Lemma execute_timely (h : list OrderRequest) (b : Book) (request : OrderRequest) :
  book_wf b -> request_ok request -> 0 <= val (rq_quantity request) ->
  has_order b (rq_order_id request) = false -> book_timely h b ->
  let x := spec_execute b request in
  book_timely (if mr_accepted x.1 then h ++ [request] else h) x.2.
Proof.
  intros W [Hqf Hp] Hq Hid HT x. set (h1 := if mr_accepted x.1 then _ else _).
  set (s := opposite (rq_side request)). set (own := depth_side (rq_side request)).
  assert (HT1 : book_timely h1 b).
  { intros s'. subst h1. destruct (mr_accepted _); [|done]. apply timely_snoc; [by apply no_order_of|done]. }
  pose proof (execute_facts b request) as HX. cbn zeta in HX. fold s own x in HX.
  pose proof (consume_ok s request (side_of b s) _ Hp (book_wf_side b s W) Hqf Hq) as HC.
  destruct (consume _ _ _ _) as [[r ts] rest]. destruct HX as (_ & Hr & _ & Hs & Ho & _).
  destruct HC as (Hrf & Hrb & _ & (k & E1 & E2) & _). intros s'.
  destruct (decide (s' = s)) as [->|Hne]; [rewrite Hs; by eapply timely_suffix|].
  replace s' with own by (subst s own; by destruct s', (rq_side request)). rewrite Ho. clear Ho Hs E1 E2.
  destruct (rests request r) eqn:Hre; [|apply HT1].
  assert (Hacc : mr_accepted x.1 = true) by (apply rests_accepted; fold x; by rewrite Hr).
  subst h1. rewrite Hacc in *. apply timely_insert; try done; [by eapply rests_limit| |by apply book_wf_side|].
  - split_and!; try done. simpl. eapply rests_open; [done|lia|done].
  - apply (entries_before h own); [by apply no_order_of|apply HT].
Qed.

Lemma submit_timely (h : list OrderRequest) (b : Book) (request : OrderRequest) :
  book_wf b -> request_ok request -> book_timely h b ->
  let x := spec_submit b request in
  book_timely (if mr_accepted x.1 then h ++ [request] else h) x.2.
Proof.
  intros W Hok HT x. subst x.
  destruct (submit_cases b request) as [(reason & -> & _)|(-> & Hq & Hid & _)]; [done|].
  apply positive_quantity in Hq; [|done]. apply execute_timely; done || lia.
Qed.

Lemma cancel_timely (h : list OrderRequest) (b : Book) (id : string) :
  book_timely h b -> book_timely h (spec_cancel b id).2.
Proof.
  intros HT s. unfold spec_cancel. destruct (List.find _ _); [|apply HT].
  eapply timely_sublist; [apply (HT s)|]. destruct s; apply sublist_filter.
Qed.

Lemma spec_run_length (ops : list engine_op) : forall b, length (spec_run b ops).1 = length ops.
Proof.
  induction ops as [|op ops IH]; intros b; simpl; [done|]. destruct (spec_exec b op) as [r b1].
  specialize (IH b1). destruct (spec_run b1 ops). simpl in *. by f_equal.
Qed.

(** Every run of the specification leaves its lists in the order of arrival. *)
Lemma run_timely (ops : list engine_op) : forall h b,
  book_wf b -> Forall op_ok ops -> book_timely h b ->
  book_timely (h ++ accepted_requests ops (spec_run b ops).1) (spec_run b ops).2.
Proof.
  induction ops as [|op ops IH]; intros h b W HF HT; simpl; [by rewrite app_nil_r|].
  apply Forall_cons in HF as [Hop HF]. destruct op as [request|id t|]; simpl in *.
  - pose proof (submit_timely h b request W Hop HT) as HS. cbv zeta in HS.
    pose proof (spec_submit_wf b request W Hop) as W'.
    specialize (IH _ _ W' HF HS). destruct (spec_run _ ops) as [rs b2]. simpl in *.
    destruct (mr_accepted _); [|done]. by rewrite <- app_assoc in IH.
  - specialize (IH h _ (spec_cancel_wf b id W) HF (cancel_timely h b id HT)).
    by destruct (spec_run _ ops) as [rs b2].
  - specialize (IH h b W HF HT). by destruct (spec_run _ ops) as [rs b2].
Qed.
