(* ===== verification/EngineTheorems.v ===== *)
(** * What the matching engine guarantees

    The refinement of the specification, and the guarantees that follow from it
    for every reachable engine: priority, time in force, conservation, the
    consistency of the book with its indexes, and what happens outside the
    assumptions. *)

From S2P Require Import Prelude Double StdMap MarketTypes DepthBook Broadcaster Queue Spsc Allocator Pool Format Orderbook MatchSpec Matching EngineProofs Arrivals.

Local Open Scope Z_scope.

Section Theorems.
Context {A : Type} `{BlockAllocatorLaws A} (tid : Z).

Implicit Types e : Engine A.

(** A submission to a reachable engine is the specification's. *)
Lemma reachable_submit e e' (request : OrderRequest) (res : MatchResult) :
  engine_reachable tid e -> request_ok request -> Engine_submit tid e request = Ret (res, e') ->
  res = (spec_submit (view e) request).1 /\ view e' = (spec_submit (view e) request).2 /\
  book_wf (view e).
Proof using Type*.
  intros R Hok E. pose proof (reachable_rel tid e R) as Rel.
  destruct (submit_spec tid e (view e) request Rel Hok) as (e1 & E1 & R1).
  rewrite E in E1. injection E1 as -> ->. destruct R1 as (_ & _ & -> & _). destruct Rel as (_ & _ & _ & W).
  done.
Qed.

Lemma consume_bounds (b : Book) (request : OrderRequest) :
  book_wf b -> request_ok request -> 0 <= val (rq_quantity request) ->
  let '(r, _, _) := consume (opposite (rq_side request)) request (rq_quantity request)
                      (side_of b (opposite (rq_side request))) in
  fin r = true /\ 0 <= val r <= val (rq_quantity request).
Proof using Type.
  intros W [Hq Hp] H0'. pose proof (consume_ok (opposite (rq_side request)) request
    (side_of b (opposite (rq_side request))) _ Hp (book_wf_side b _ W) Hq H0') as HC.
  destruct (consume _ _ _ _) as [[r ts] rest]. tauto.
Qed.

(** [resting_orders] reads every live order through its pointer. *)
Lemma order_views_spec (pool : ObjectPool A RestingOrder) (live : list (string * block)) :
  Forall (fun x => exists o, op_objects pool !! x.2 = Some o /\ ro_order_id o = x.1) live ->
  order_views pool live =
    Ret (map (fun o => mkRestingOrderView (ro_order_id o) (ro_side o) (ro_price o) (ro_open_quantity o))
           (resolve (op_objects pool) (map snd live))).
Proof using Type.
  induction 1 as [|[id b] live (o & Ho & Hid) HF IH]; simpl; [done|].
  simpl in Ho, Hid. rewrite (read_spec _ _ _ Ho), bind_ret, IH, bind_ret, Ho. simpl. by rewrite Hid.
Qed.

Lemma live_pointers e : core_inv e -> map snd (map_to_list (en_live e)) ≡ₚ all_ptrs e.
Proof using Type.
  intros I. apply NoDup_Permutation.
  - assert (HN : forall l : list (string * block), NoDup l -> 
      (forall x y, x ∈ l -> y ∈ l -> x.2 = y.2 -> x = y) -> NoDup (map snd l)).
    { induction l as [|x l IH]; intros Hnd Hinj; simpl; [constructor|].
      apply NoDup_cons in Hnd as [Hn Hnd]. constructor.
      - intros (y & E & Hy)%list_elem_of_fmap. apply Hn.
        rewrite (Hinj x y); [done|apply elem_of_cons; by left|apply elem_of_cons; by right|done].
      - apply IH; [done|]. intros y z Hy Hz. apply Hinj; apply elem_of_cons; by right. }
    apply HN; [apply NoDup_map_to_list|].
    intros [i x] [j y] Hi Hj E. simpl in E. subst y.
    apply elem_of_map_to_list in Hi, Hj.
    apply (ci_live e I) in Hi as (o & Ho & <-), Hj as (o' & Ho' & <-). congruence.
  - apply I.
  - intros b. split.
    + intros ([i x] & -> & Hi)%list_elem_of_fmap. apply elem_of_map_to_list in Hi.
      apply (ci_live e I) in Hi as (o & Ho & _). apply (ci_dom e I). by exists o.
    + intros Hb. apply list_elem_of_fmap.
      assert (exists o, heap e !! b = Some o) as [o Ho].
      { apply elem_of_app in Hb as [Hb|Hb];
          [destruct (core_ptr e kBid b I Hb) as (o & _ & ? & _)|destruct (core_ptr e kAsk b I Hb) as (o & _ & ? & _)];
          by exists o. }
      exists (ro_order_id o, b). split; [done|]. apply elem_of_map_to_list. apply (ci_live e I). eauto.
Qed.

Lemma resolve_perm (h : gmap block RestingOrder) (l l' : list block) :
  l ≡ₚ l' -> resolve h l ≡ₚ resolve h l'.
Proof using Type. intros E. unfold resolve. by rewrite E. Qed.

#[local] Instance view_le_total : Total view_le.
Proof using Type. intros a b. apply String.leb_total. Qed.

Lemma string_leb_trans (a b c : string) :
  String.leb a b = true -> String.leb b c = true -> String.leb a c = true.
Proof using Type.
  unfold String.leb. revert b c.
  induction a as [|x a IH]; intros [|y b] [|z c]; simpl; try done.
  unfold Ascii.compare.
  destruct (N.compare_spec (Ascii.N_of_ascii x) (Ascii.N_of_ascii y)) as [E1|L1|G1]; try done;
    destruct (N.compare_spec (Ascii.N_of_ascii y) (Ascii.N_of_ascii z)) as [E2|L2|G2]; try done;
    destruct (N.compare_spec (Ascii.N_of_ascii x) (Ascii.N_of_ascii z)) as [E3|L3|G3]; try done; try lia.
  apply IH.
Qed.

#[local] Instance view_le_trans : Transitive view_le.
Proof using Type. intros a b c. apply string_leb_trans. Qed.

Definition order_view (o : RestingOrder) : RestingOrderView :=
  mkRestingOrderView (ro_order_id o) (ro_side o) (ro_price o) (ro_open_quantity o).

Lemma resting_orders_spec e : core_inv e ->
  exists views, Engine_resting_orders e = Ret views /\ StronglySorted view_le views /\
    views ≡ₚ map order_view (makers e kBid ++ makers e kAsk).
Proof using Type.
  intros I. unfold Engine_resting_orders. rewrite order_views_spec.
  2: { apply Forall_forall. intros [id b] Hx. apply elem_of_map_to_list in Hx.
       apply (ci_live e I) in Hx. exact Hx. }
  rewrite bind_ret. eexists. split; [done|]. split; [apply StronglySorted_merge_sort; apply _|].
  rewrite merge_sort_Permutation. apply Permutation_map.
  rewrite (resolve_perm _ _ _ (live_pointers e I)). unfold all_ptrs, makers. by rewrite resolve_app.
Qed.

Lemma live_count e : core_inv e ->
  Engine_live_order_count e = Z.of_nat (length (makers e kBid) + length (makers e kAsk)).
Proof using Type.
  intros I. unfold Engine_live_order_count. f_equal.
  rewrite <- length_app. unfold makers. rewrite <- resolve_app. fold (all_ptrs e).
  rewrite <- (resolve_perm _ _ _ (live_pointers e I)), <- length_map_to_list.
  assert (HL : forall l : list (string * block), (forall x, x ∈ l -> is_Some (heap e !! x.2)) ->
    length l = length (resolve (heap e) (map snd l))).
  { induction l as [|x l IH]; intros Hx; simpl; [done|].
    destruct (Hx x) as [o Ho]; [apply elem_of_cons; by left|]. rewrite Ho. simpl. f_equal.
    apply IH. intros y Hy. apply Hx. apply elem_of_cons. by right. }
  apply HL. intros [id b] Hx. apply elem_of_map_to_list in Hx.
  apply (ci_live e I) in Hx as (o & Ho & _). by exists o.
Qed.

(** A price has a level in the book exactly when an order rests at it. *)
Lemma level_has_order e (s : MarketSide) (p : double) : core_inv e -> fin p = true ->
  is_Some (map_find (book_comp s) p (book_of e s)) <->
  exists o, o ∈ makers e s /\ val (ro_price o) = val p.
Proof using Type.
  intros I Hp. pose proof (core_inv_side e s I) as (K & S & L & _). split.
  - intros [queue Hf].
    apply (map_find_Some (book_comp s) fin_key (price_rank s) (comp_rank_fin s)) in Hf
      as (k & Hk & Hin); try done. apply list_elem_of_In in Hin.
    unfold levels_ok in L. rewrite Forall_forall in L. destruct (L _ Hin) as [Hne HF]. simpl in Hne, HF.
    destruct queue as [|b queue]; [done|]. apply Forall_cons in HF as [(o & Ho & _ & _ & Hv) _].
    exists o. split; [|destruct s; simpl in Hk; lia]. apply resolve_elem. exists b. split; [|done].
    apply elem_of_ptrs. exists (k, b :: queue). split; [done|]. apply elem_of_cons. by left.
  - intros (o & (b & Hb & Ho)%resolve_elem & Hv).
    destruct (core_side_of e b o I Ho) as (_ & queue & Hf & _ & Hfo).
    destruct (core_ptr e s b I Hb) as (o' & _ & Ho' & Hs & _). rewrite Ho in Ho'. injection Ho' as <-.
    rewrite Hs in Hf. exists queue. rewrite <- Hf.
    apply (map_find_rank (book_comp s) fin_key (price_rank s) (comp_rank_fin s)); try done.
    destruct s; simpl; lia.
Qed.

(** The lists of a reachable engine follow the history of its run. *)
Lemma run_history (storage : A) (symbol : string) (capacity : Z) (ops : list engine_op)
    (rs : list (option MatchResult)) (e0 e : Engine A) :
  outstanding storage ∅ -> symbol <> "" -> 2 <= capacity <= two63 -> Forall op_ok ops ->
  Engine_new storage symbol capacity = Ret e0 -> Engine_run tid e0 ops = Ret (rs, e) ->
  book_timely (accepted_requests ops rs) (view e) /\ book_wf (view e).
Proof using Type*.
  intros Ho Hs Hc HF E0 ER. destruct (new_spec storage symbol capacity Ho Hs Hc) as (x0 & E0' & R0).
  rewrite E0 in E0'. injection E0' as <-. destruct (run_spec tid ops e0 empty_book R0 HF) as (x & ER' & R).
  rewrite ER in ER'. injection ER' as -> <-. destruct R as (_ & _ & -> & W). split; [|done].
  apply (run_timely ops [] empty_book); [|done|].
  - by destruct R0 as (_ & _ & <- & W0).
  - intros s. destruct s; by repeat constructor.
Qed.
End Theorems.

(** ** Properties *)

(** C1. Refinement. From construction on, every sequence of submissions,
    cancellations and event polls returns - no dangling pointer, no empty-queue
    access, the matching loop ends - with exactly the results of the pure
    price-time-priority specification, and the resting orders on both sides are
    the specification's, in the same priority order. Holds for any allocator
    that keeps its blocks apart and any requests with finite numbers. *)
Theorem engine_refines_spec {A : Type} `{BlockAllocatorLaws A} (tid : Z) (storage : A)
    (symbol : string) (capacity : Z) (ops : list engine_op) :
  outstanding storage ∅ -> symbol <> "" -> 2 <= capacity <= two63 -> Forall op_ok ops ->
  exists e0 e, Engine_new storage symbol capacity = Ret e0 /\
    Engine_run tid e0 ops = Ret ((spec_run empty_book ops).1, e) /\
    view e = (spec_run empty_book ops).2 /\ book_wf (view e).
Proof.
  intros Ho Hs Hc HF. destruct (new_spec storage symbol capacity Ho Hs Hc) as (e0 & E0 & R0).
  destruct (run_spec tid ops e0 empty_book R0 HF) as (e & ER & R).
  exists e0, e. destruct R as (_ & _ & Hv & W). split_and!; [done|done|done|by rewrite Hv].
Qed.

Definition sample_ops : list engine_op :=
  [limit_order "a" kSell kGtc 100 5; limit_order "b" kSell kGtc 100 3; limit_order "c" kBuy kIoc 101 6;
   limit_order "d" kSell kGtc 99 4; OpCancel "b" 0; OpPollEvent; limit_order "d" kBuy kGtc 99 1].

Lemma sample_ops_ok : Forall op_ok sample_ops.
Proof. repeat (constructor; [vm_compute; split; reflexivity || reflexivity|]). constructor. Qed.

Lemma engine_refines_spec_witness :
  exists e0 e, Engine_new sample_storage "BTC" 16 = Ret e0 /\
    (exists rs, Engine_run 1 e0 sample_ops = Ret (rs, e) /\
       map (fun r => match r with Some m => map tr_maker_order_id (mr_trades m) | None => [] end) rs =
         [[]; []; ["a"; "b"]; []; []; []; []]) /\
    map ro_order_id (bk_asks (view e)) = ["d"] /\ bk_bids (view e) = [].
Proof.
  destruct (engine_refines_spec 1 sample_storage "BTC" 16 sample_ops sample_storage_ok
    ltac:(discriminate) ltac:(vm_compute; split; congruence) sample_ops_ok) as (e0 & e & E0 & ER & Hv & _).
  exists e0, e. rewrite Hv. split; [exact E0|]. split; [|split; vm_compute; reflexivity].
  eexists. split; [exact ER|]. vm_compute. reflexivity.
Defined.

(** C2. Price-time priority. After any run from construction with finite
    requests, let the history be the accepted requests in the order of the calls.
    The orders resting opposite a new finite request are listed by price and,
    within a price, by the position of their request in the history. The makers
    of its trades are exactly the first ones of that list; each trade is at the
    price its maker's request asked for, and for a limit request that price
    exceeds the limit by no more than 1e-9 (the difference rounded to the nearest
    double). Every maker but the last is used up and the rest of the list is left
    as it was. Unless it was refused on admission, the request is filled down to
    1e-9 or every order left is beyond its limit. *)
Theorem engine_price_time_priority {A : Type} `{BlockAllocatorLaws A} (tid : Z) (storage : A)
    (symbol : string) (capacity : Z) (ops : list engine_op) (rs : list (option MatchResult))
    (e0 e e' : Engine A) (request : OrderRequest) (res : MatchResult) :
  outstanding storage ∅ -> symbol <> "" -> 2 <= capacity <= two63 -> Forall op_ok ops ->
  Engine_new storage symbol capacity = Ret e0 -> Engine_run tid e0 ops = Ret (rs, e) ->
  request_ok request -> Engine_submit tid e request = Ret (res, e') ->
  let s := opposite (rq_side request) in
  let history := accepted_requests ops rs in
  let n := length (mr_trades res) in
  StronglySorted (served_before history s) (map ro_order_id (makers e s)) /\
  map tr_maker_order_id (mr_trades res) = take n (map ro_order_id (makers e s)) /\
  Forall (fun t => tr_taker_order_id t = rq_order_id request /\
            (exists i x, arrived history (tr_maker_order_id t) i x /\ tr_price t = rq_price x) /\
            (rq_type request = kLimit -> rnd (overshoot s request (tr_price t)) <= val eps))
    (mr_trades res) /\
  (makers e' s = drop n (makers e s) \/
   exists m open, makers e s !! (n - 1)%nat = Some m /\ (0 < n)%nat /\
     makers e' s = with_open m open :: drop n (makers e s)) /\
  (mr_accepted res = true \/ mr_trades res <> [] ->
   val (mr_remaining_quantity res) <= val eps \/
   Forall (fun m => rq_type request = kLimit /\ val eps < rnd (overshoot s request (ro_price m)))
     (makers e' s)).
Proof.
  intros Ho Hs Hc HF E0 ER Hok E s history n.
  assert (R : engine_reachable tid e) by (by exists storage, symbol, capacity, ops, e0, rs).
  destruct (run_history tid storage symbol capacity ops rs e0 e Ho Hs Hc HF E0 ER) as [HT W].
  destruct (reachable_submit tid e e' request res R Hok E) as (-> & Hv & _).
  subst n. rewrite <- (view_side e'), Hv, <- (view_side e). fold history in HT.
  destruct (HT s) as [Hstem HS]. split; [done|].
  destruct (submit_cases (view e) request) as [(reason & -> & _)|(-> & Hq & _)].
  { split_and!; try done; [by left|]. by intros [|]. }
  apply positive_quantity in Hq; [|done]. destruct Hok as [Hqf Hp].
  pose proof (execute_facts (view e) request) as HX. cbn zeta in HX. fold s in HX.
  pose proof (book_wf_side (view e) s W) as Hside.
  pose proof (consume_trades s request (side_of (view e) s) (rq_quantity request)) as HTr.
  pose proof (consume_within s request (side_of (view e) s) (rq_quantity request)) as HW.
  pose proof (consume_ok s request (side_of (view e) s) _ Hp Hside Hqf ltac:(lia)) as HC.
  destruct (consume _ _ _ _) as [[r ts] rest]. destruct HX as (-> & -> & _ & -> & _).
  destruct HTr as (H1 & H2 & H3 & H4), HC as (_ & _ & Hrest & _ & HL). split_and!; try done.
  - apply Forall_forall. intros t Ht. split; [by apply (proj1 (Forall_forall _ _) H3)|].
    destruct (trade_maker _ _ _ H1 H2 t Ht) as (m & Hm & Hid & Hpr).
    split; [rewrite Hid, Hpr; destruct (proj1 (Forall_forall _ _) Hstem m Hm) as (i & x & ? & ? & _); by exists i, x|].
    intros Hlim. apply (limit_respected s request _ Hp); [|done|by apply (proj1 (Forall_forall _ _) HW)].
    rewrite Hpr. destruct Hside as [Hall _]. rewrite Forall_forall in Hall. by apply Hall.
  - intros _. destruct HL as [HL|HL]; [by left|right]. destruct Hrest as [Hall _].
    rewrite Forall_forall in Hall, HL |- *. intros m Hm. destruct (Hall m Hm) as (_ & Hmp & _).
    apply (limit_exceeded s request _ Hp Hmp), HL, Hm.
Qed.

(** ** Sample runs for the witnesses *)

(** A book and a request: the engine that the calls lead to and what it does,
    read off the specification. *)
Lemma sample_run (ops : list engine_op) (request : OrderRequest) :
  Forall op_ok ops -> request_ok request ->
  exists (e e' : Engine FixedBlockPool) res, engine_reachable 1 e /\
    Engine_submit 1 e request = Ret (res, e') /\
    view e = (spec_run empty_book ops).2 /\
    res = (spec_submit (spec_run empty_book ops).2 request).1 /\
    view e' = (spec_submit (spec_run empty_book ops).2 request).2.
Proof.
  intros HF Hok.
  destruct (new_spec sample_storage "BTC" 16 sample_storage_ok) as (e0 & E0 & R0);
    [discriminate|vm_compute; split; congruence|].
  destruct (run_spec 1 ops e0 empty_book R0 HF) as (e & ER & R).
  destruct (submit_spec 1 e _ request R Hok) as (e' & Es & R').
  exists e, e', (spec_submit (spec_run empty_book ops).2 request).1.
  destruct R as (_ & _ & Hv & _), R' as (_ & _ & Hv' & _). split_and!; try done.
  exists sample_storage, "BTC", 16, ops, e0, (spec_run empty_book ops).1.
  split_and!; try done. apply sample_storage_ok.
Qed.

Definition sample_asks : list engine_op :=
  [limit_order "a" kSell kGtc 101 5; limit_order "b" kSell kGtc 100 3; limit_order "c" kSell kGtc 100 4].

Lemma sample_asks_ok : Forall op_ok sample_asks.
Proof. repeat (constructor; [vm_compute; split; reflexivity|]). constructor. Qed.

Definition sample_request (id : string) (side : Side) (type : OrderType) (tif : TimeInForce)
    (price quantity : Z) : OrderRequest :=
  mkOrderRequest id side type tif (double_of_Z price) (double_of_Z quantity) 0.

(** The same run with its first engine and its results. *)
Lemma sample_history (ops : list engine_op) (request : OrderRequest) :
  Forall op_ok ops -> request_ok request ->
  exists (e0 e e' : Engine FixedBlockPool) res,
    Engine_new sample_storage "BTC" 16 = Ret e0 /\
    Engine_run 1 e0 ops = Ret ((spec_run empty_book ops).1, e) /\
    Engine_submit 1 e request = Ret (res, e') /\
    view e = (spec_run empty_book ops).2 /\
    res = (spec_submit (spec_run empty_book ops).2 request).1.
Proof.
  intros HF Hok.
  destruct (new_spec sample_storage "BTC" 16 sample_storage_ok) as (e0 & E0 & R0);
    [discriminate|vm_compute; split; congruence|].
  destruct (run_spec 1 ops e0 empty_book R0 HF) as (e & ER & R).
  destruct (submit_spec 1 e _ request R Hok) as (e' & Es & _).
  exists e0, e, e', (spec_submit (spec_run empty_book ops).2 request).1.
  by destruct R as (_ & _ & Hv & _).
Qed.

Lemma engine_price_time_priority_witness :
  exists (e0 e e' : Engine FixedBlockPool) rs res,
    Engine_run 1 e0 sample_asks = Ret (rs, e) /\
    Engine_submit 1 e (sample_request "t" kBuy kMarket kIoc 0 8) = Ret (res, e') /\
    map rq_order_id (accepted_requests sample_asks rs) = ["a"; "b"; "c"] /\
    map tr_maker_order_id (mr_trades res) = ["b"; "c"; "a"] /\
    StronglySorted (served_before (accepted_requests sample_asks rs) kAsk) ["b"; "c"; "a"].
Proof.
  destruct (sample_history sample_asks (sample_request "t" kBuy kMarket kIoc 0 8) sample_asks_ok
    ltac:(vm_compute; split; reflexivity)) as (e0 & e & e' & res & E0 & ER & Es & Hv & Hres).
  destruct (engine_price_time_priority 1 sample_storage "BTC" 16 sample_asks _ e0 e e'
    (sample_request "t" kBuy kMarket kIoc 0 8) res sample_storage_ok ltac:(discriminate)
    ltac:(vm_compute; split; congruence) sample_asks_ok E0 ER ltac:(vm_compute; split; reflexivity) Es)
    as (HS & _).
  exists e0, e, e', (spec_run empty_book sample_asks).1, res. split; [exact ER|]. split; [exact Es|].
  split; [vm_compute; reflexivity|]. split; [rewrite Hres; vm_compute; reflexivity|].
  change (makers e (opposite (rq_side (sample_request "t" kBuy kMarket kIoc 0 8))))
    with (bk_asks (view e)) in HS. rewrite Hv in HS. exact HS.
Defined.

(** Time priority of new orders. A request rests exactly when it is a limit
    order, not immediate-or-cancel, admitted, and a remainder above the
    tolerance is left; it is then placed behind every order of an equal or better
    price and before every worse one, with that remainder; otherwise its own side
    is unchanged. *)
Lemma engine_resting_position {A : Type} `{BlockAllocatorLaws A} (tid : Z) (e e' : Engine A)
    (request : OrderRequest) (res : MatchResult) :
  engine_reachable tid e -> request_ok request -> Engine_submit tid e request = Ret (res, e') ->
  let own := depth_side (rq_side request) in
  if mr_accepted res && rests request (mr_remaining_quantity res)
  then exists l1 l2, makers e own = l1 ++ l2 /\
    makers e' own = l1 ++ resting_of request (mr_remaining_quantity res) :: l2 /\
    Forall (fun m => price_rank own (ro_price m) <= price_rank own (rq_price request)) l1 /\
    Forall (fun m => price_rank own (rq_price request) < price_rank own (ro_price m)) l2
  else makers e' own = makers e own.
Proof.
  intros R Hok E own. destruct (reachable_submit tid e e' request res R Hok E) as (-> & Hv & W).
  rewrite <- (view_side e'), Hv, <- (view_side e).
  destruct (submit_cases (view e) request) as [(reason & -> & _)|(-> & Hq & _)]; [done|].
  apply positive_quantity in Hq; [|done].
  pose proof (execute_facts (view e) request) as HX. cbn zeta in HX. fold own in HX.
  pose proof (consume_bounds (view e) request W Hok ltac:(lia)) as HB.
  assert (Hacc : forall r, rests request r = true -> mr_remaining_quantity (spec_execute (view e) request).1 = r ->
    mr_accepted (spec_execute (view e) request).1 = true).
  { intros r Hr <-. unfold spec_execute in *. destruct (consume _ _ _ _) as [[r' ts] rest].
    unfold rests in Hr. destruct (bool_decide (rq_type request = kLimit)); [|done].
    destruct (is_zero r'); [done|]. by destruct (_ || _). }
  destruct (consume _ _ _ _) as [[r ts] rest]. destruct HX as (_ & Hr & _ & _ & Ho & _).
  rewrite Hr. destruct (rests request r) eqn:Hrest; [|rewrite andb_false_r; exact Ho].
  rewrite (Hacc r Hrest Hr). simpl. rewrite Ho.
  assert (Hz : val eps < val r).
  { unfold rests in Hrest. apply andb_true_iff in Hrest as [_ Hz]. apply negb_true_iff in Hz.
    rewrite is_zero_val in Hz by tauto. by apply Z.leb_gt. }
  apply (insert_resting_split own (resting_of request r)); [|by apply book_wf_side].
  destruct Hok, HB. by repeat split.
Qed.

Example engine_resting_position_sample :
  exists (e e' : Engine FixedBlockPool) res,
    Engine_submit 1 e (sample_request "n" kSell kLimit kGtc 100 2) = Ret (res, e') /\
    map ro_order_id (makers e' kAsk) = ["b"; "c"; "n"; "a"] /\
    exists l1 l2, makers e kAsk = l1 ++ l2 /\
      makers e' kAsk = l1 ++ resting_of (sample_request "n" kSell kLimit kGtc 100 2)
                               (mr_remaining_quantity res) :: l2.
Proof.
  destruct (sample_run sample_asks (sample_request "n" kSell kLimit kGtc 100 2) sample_asks_ok
    ltac:(vm_compute; split; reflexivity)) as (e & e' & res & R & Es & Hv & Hres & Hv').
  pose proof (engine_resting_position 1 e e' (sample_request "n" kSell kLimit kGtc 100 2) res
    R ltac:(vm_compute; split; reflexivity) Es) as HP. cbn zeta in HP.
  assert (Hb : mr_accepted res && rests (sample_request "n" kSell kLimit kGtc 100 2)
    (mr_remaining_quantity res) = true) by (rewrite Hres; vm_compute; reflexivity).
  rewrite Hb in HP. exists e, e', res. split; [exact Es|]. split.
  - change (makers e' kAsk) with (bk_asks (view e')). rewrite Hv'. vm_compute. reflexivity.
  - destruct HP as (l1 & l2 & H1 & H2 & _). exists l1, l2. split; [exact H1|exact H2].
Defined.

(** C3. Fill-or-kill. A fill-or-kill request, limit or market, is either rejected
    with no trade and no change to the book, or filled down to the tolerance with
    nothing of it resting: the check that only looks at the book and the matching
    that consumes it agree in double precision. *)
Theorem engine_fill_or_kill {A : Type} `{BlockAllocatorLaws A} (tid : Z) (e e' : Engine A)
    (request : OrderRequest) (res : MatchResult) :
  engine_reachable tid e -> request_ok request -> rq_tif request = kFok ->
  Engine_submit tid e request = Ret (res, e') ->
  (mr_accepted res = false /\ mr_trades res = [] /\ view e' = view e) \/
  (mr_accepted res = true /\ 0 <= val (mr_remaining_quantity res) <= val eps /\
   makers e' (depth_side (rq_side request)) = makers e (depth_side (rq_side request))).
Proof.
  intros R Hok Hk E. destruct (reachable_submit tid e e' request res R Hok E) as (-> & Hv & W).
  rewrite <- (view_side e'), Hv, <- (view_side e).
  destruct (submit_cases (view e) request) as [(reason & -> & _)|(-> & Hq & _ & _ & Hfill)]; [by left|right].
  apply positive_quantity in Hq; [|done]. specialize (Hfill Hk). destruct Hok as [Hqf Hp].
  pose proof (execute_facts (view e) request) as HX. cbn zeta in HX.
  pose proof (consume_bounds (view e) request W (conj Hqf Hp) ltac:(lia)) as HB.
  pose proof (fillable_consume _ request _ _ (book_wf_side (view e) _ W) Hqf ltac:(lia) Hfill) as HF.
  assert (Hacc : forall r ts rest, consume (opposite (rq_side request)) request (rq_quantity request)
      (side_of (view e) (opposite (rq_side request))) = (r, ts, rest) -> is_zero r = true ->
    mr_accepted (spec_execute (view e) request).1 = true).
  { intros r ts rest Ec Hz. unfold spec_execute. rewrite Ec. by rewrite Hz. }
  destruct (consume _ _ _ _) as [[r ts] rest]. destruct HX as (_ & -> & _ & _ & -> & _).
  assert (Hz : is_zero r = true) by (rewrite is_zero_val by tauto; by apply Z.leb_le).
  split; [by eapply Hacc|]. split; [tauto|]. unfold rests. by rewrite Hz, andb_false_r.
Qed.

Lemma engine_fill_or_kill_witness :
  exists (e e' : Engine FixedBlockPool) res,
    Engine_submit 1 e (sample_request "t" kBuy kLimit kFok 100 8) = Ret (res, e') /\
    mr_accepted res = false /\
    ((mr_accepted res = false /\ mr_trades res = [] /\ view e' = view e) \/
     (mr_accepted res = true /\ 0 <= val (mr_remaining_quantity res) <= val eps /\
      makers e' kBid = makers e kBid)).
Proof.
  destruct (sample_run sample_asks (sample_request "t" kBuy kLimit kFok 100 8) sample_asks_ok
    ltac:(vm_compute; split; reflexivity)) as (e & e' & res & R & Es & Hv & Hres & _).
  exists e, e', res. split; [exact Es|]. split; [rewrite Hres; vm_compute; reflexivity|].
  exact (engine_fill_or_kill 1 e e' (sample_request "t" kBuy kLimit kFok 100 8) res R
    ltac:(vm_compute; split; reflexivity) eq_refl Es).
Defined.

(** Post-only. With nonnegative prices a post-only limit order never trades
    and never takes liquidity, although the admission check compares
    [price + eps] with the best opposite price and the matching loop compares a
    rounded difference with [eps]. *)
Lemma engine_post_only {A : Type} `{BlockAllocatorLaws A} (tid : Z) (e e' : Engine A)
    (request : OrderRequest) (res : MatchResult) :
  engine_reachable tid e -> request_ok request ->
  rq_type request = kLimit -> rq_tif request = kGtx -> 0 <= val (rq_price request) ->
  (forall s o, o ∈ makers e s -> 0 <= val (ro_price o)) ->
  Engine_submit tid e request = Ret (res, e') ->
  mr_trades res = [] /\
  makers e' (opposite (rq_side request)) = makers e (opposite (rq_side request)) /\
  (mr_accepted res = true -> mr_remaining_quantity res = rq_quantity request).
Proof.
  intros R Hok Ht Hx Hp Hnn E. destruct (reachable_submit tid e e' request res R Hok E) as (-> & Hv & W).
  rewrite <- (view_side e'), Hv, <- (view_side e).
  destruct (submit_cases (view e) request) as [(reason & -> & _)|(-> & _ & _ & Hc & _)]; [done|].
  specialize (Hc Ht Hx).
  pose proof (execute_facts (view e) request) as HX. cbn zeta in HX.
  rewrite consume_stops in HX; [by destruct HX as (-> & -> & _ & -> & _)|].
  intros m Hm. apply (not_crossing (view e)); try done.
  intros s o Ho. apply (Hnn s). by rewrite <- view_side.
Qed.

Example engine_post_only_sample :
  exists (e e' : Engine FixedBlockPool) res,
    Engine_submit 1 e (sample_request "p" kBuy kLimit kGtx 99 8) = Ret (res, e') /\
    mr_accepted res = true /\ mr_trades res = [] /\ makers e' kAsk = makers e kAsk.
Proof.
  destruct (sample_run sample_asks (sample_request "p" kBuy kLimit kGtx 99 8) sample_asks_ok
    ltac:(vm_compute; split; reflexivity)) as (e & e' & res & R & Es & Hv & Hres & _).
  assert (Hnn : forall s o, o ∈ makers e s -> 0 <= val (ro_price o)).
  { intros s o. rewrite <- view_side, Hv. intros Ho.
    assert (HF : Forall (fun o => Z.leb 0 (val (ro_price o)) = true)
      (side_of (spec_run empty_book sample_asks).2 s)).
    { apply (forallb_true_Forall (fun o => Z.leb 0 (val (ro_price o)))).
      destruct s; vm_compute; reflexivity. }
    rewrite Forall_forall in HF. apply Z.leb_le. exact (HF o Ho). }
  destruct (engine_post_only 1 e e' (sample_request "p" kBuy kLimit kGtx 99 8) res R
    ltac:(vm_compute; split; reflexivity) eq_refl eq_refl ltac:(vm_compute; discriminate) Hnn Es)
    as (H1 & H2 & _).
  exists e, e', res. split; [exact Es|]. split; [rewrite Hres; vm_compute; reflexivity|].
  split; [exact H1|exact H2].
Defined.

(** C4. Conservation, on a grid. Let the quantities of a finite request and of the
    orders resting opposite it be multiples of one power of two above the tolerance
    1e-9 (2^-29 or more), each of at most 2^53 multiples. If the request traded or was
    accepted, matching it was exact: the executed quantity is the sum of the trades,
    executed and remaining add up to the request, and the opposite side lost exactly
    what was traded. Off such a grid, 0.1 for instance, nothing is claimed. *)
Theorem engine_conserves_quantity {A : Type} `{BlockAllocatorLaws A} (tid k : Z) (e e' : Engine A)
    (request : OrderRequest) (res : MatchResult) :
  engine_reachable tid e -> request_ok request -> 0 <= k <= 2044 -> val eps < 2 ^ k ->
  on_grid k (rq_quantity request) = true ->
  Forall (fun m => on_grid k (ro_open_quantity m) = true) (makers e (opposite (rq_side request))) ->
  Engine_submit tid e request = Ret (res, e') ->
  mr_trades res <> [] \/ mr_accepted res = true ->
  val (mr_executed_quantity res) = total_traded (mr_trades res) /\
  val (mr_executed_quantity res) + val (mr_remaining_quantity res) = val (rq_quantity request) /\
  total_open (makers e (opposite (rq_side request))) =
    total_open (makers e' (opposite (rq_side request))) + total_traded (mr_trades res).
Proof.
  intros R Hok Hk He Hg HF E. destruct (reachable_submit tid e e' request res R Hok E) as (-> & Hv & W).
  rewrite <- !view_side, Hv in *.
  destruct (submit_cases (view e) request) as [(reason & -> & _)|(-> & Hq & _)]; [by intros []|intros _].
  apply positive_quantity in Hq; [|done].
  pose proof (execute_facts (view e) request) as HX. cbn zeta in HX.
  pose proof (consume_bounds (view e) request W Hok ltac:(lia)) as HB.
  pose proof (consume_conserves k (opposite (rq_side request)) request _ Hk He (rq_quantity request)
    (book_wf_side (view e) _ W) Hg ltac:(lia) HF) as HC.
  destruct (consume _ _ _ _) as [[r ts] rest]. destruct HX as (-> & -> & -> & -> & _).
  destruct HC as (Hgr & C1 & C2 & _). pose proof (grid_bound k _ Hg).
  destruct (grid_sub k (rq_quantity request) r Hk Hg Hgr) as [_ V]; [lia|].
  split_and!; lia.
Qed.

Lemma engine_conserves_quantity_witness :
  exists (e e' : Engine FixedBlockPool) res,
    Engine_submit 1 e (sample_request "t" kBuy kMarket kIoc 0 8) = Ret (res, e') /\
    val (mr_executed_quantity res) = total_traded (mr_trades res) /\
    deq (mr_executed_quantity res) (double_of_Z 8) = true.
Proof.
  destruct (sample_run sample_asks (sample_request "t" kBuy kMarket kIoc 0 8) sample_asks_ok
    ltac:(vm_compute; split; reflexivity)) as (e & e' & res & R & Es & Hv & Hres & _).
  assert (HF : Forall (fun m => on_grid 1064 (ro_open_quantity m) = true) (makers e kAsk)).
  { change (makers e kAsk) with (bk_asks (view e)). rewrite Hv.
    apply (forallb_true_Forall (fun m => on_grid 1064 (ro_open_quantity m))). vm_compute. reflexivity. }
  exists e, e', res. split; [exact Es|]. split; [|rewrite Hres; vm_compute; reflexivity].
  refine (proj1 (engine_conserves_quantity 1 1064 e e' (sample_request "t" kBuy kMarket kIoc 0 8) res R
    ltac:(vm_compute; split; reflexivity) ltac:(lia) ltac:(vm_compute; reflexivity)
    ltac:(vm_compute; reflexivity) HF Es _)).
  right. rewrite Hres. vm_compute. reflexivity.
Defined.

(** C5. Consistency. In every engine reached with finite requests every bid is
    below every ask, the published depth has a level exactly at the prices where
    orders rest, the live-order count is the number of resting orders, and
    [resting_orders] returns each of them once, sorted by id. The quantity of a
    published level is not covered: it is not the sum of the orders there (see
    [depth_shows_last_order]). *)
Theorem engine_book_consistent {A : Type} `{BlockAllocatorLaws A} (tid : Z) (e : Engine A) :
  engine_reachable tid e ->
  (forall x y, x ∈ makers e kBid -> y ∈ makers e kAsk -> val (ro_price x) < val (ro_price y)) /\
  (forall s p, fin p = true ->
     is_Some (depth_at (en_depth e) s p) <-> exists o, o ∈ makers e s /\ val (ro_price o) = val p) /\
  Engine_live_order_count e = Z.of_nat (length (makers e kBid) + length (makers e kAsk)) /\
  exists views, Engine_resting_orders e = Ret views /\ StronglySorted view_le views /\
    views ≡ₚ map order_view (makers e kBid ++ makers e kAsk).
Proof.
  intros R. destruct (reachable_rel tid e R) as (I & _ & _ & W).
  split_and!; [apply W| |by apply live_count|by apply resting_orders_spec].
  intros s p Hp. rewrite (ci_depth e I s p Hp). by apply level_has_order.
Qed.

Lemma engine_book_consistent_witness :
  exists e : Engine FixedBlockPool, map ro_order_id (makers e kAsk) = ["b"; "c"; "a"] /\
    Engine_live_order_count e = 3.
Proof.
  destruct (sample_run sample_asks (sample_request "t" kBuy kLimit kGtx 1 1) sample_asks_ok
    ltac:(vm_compute; split; reflexivity)) as (e & _ & _ & R & _ & Hv & _).
  destruct (engine_book_consistent 1 e R) as (_ & _ & HC & _).
  exists e. rewrite HC. rewrite <- !view_side, Hv. split; vm_compute; reflexivity.
Defined.

(** C6. Rejections. A finite request that is rejected for any reason but that a
    market order would rest traded nothing, left the book as it was and remains in
    full. (A market order rejected because it would rest may have traded first, see
    [market_rejected_after_trading].) A request for a positive quantity with the
    non-empty id of a resting order is rejected as a duplicate. *)
Theorem engine_rejections {A : Type} `{BlockAllocatorLaws A} (tid : Z) (e e' : Engine A)
    (request : OrderRequest) (res : MatchResult) :
  engine_reachable tid e -> request_ok request -> Engine_submit tid e request = Ret (res, e') ->
  (mr_accepted res = false -> mr_reject_reason res <> kMarketOrderWouldRest ->
     mr_trades res = [] /\ view e' = view e /\ mr_remaining_quantity res = rq_quantity request) /\
  (forall s o, o ∈ makers e s -> ro_order_id o = rq_order_id request -> rq_order_id request <> "" ->
     0 < val (rq_quantity request) ->
     mr_accepted res = false /\ mr_reject_reason res = kDuplicateOrderId).
Proof.
  intros R Hok E. destruct (reachable_submit tid e e' request res R Hok E) as (-> & Hv & W). rewrite Hv.
  assert (Hdup : forall s o, o ∈ makers e s -> ro_order_id o = rq_order_id request ->
    has_order (view e) (rq_order_id request) = true).
  { intros s o Ho <-. apply has_order_in. apply list_elem_of_fmap. exists o. split; [done|].
    apply elem_of_app. destruct s; auto. }
  destruct (submit_cases (view e) request) as [(reason & -> & Hr)|(-> & _ & Hid & _)].
  - split; [done|]. intros s o Ho Hi Hne Hq. split; [done|]. simpl. apply Hr; eauto.
    destruct Hok as [Hqf _]. rewrite dle_val by (done || apply fin_dzero). change (val dzero) with 0.
    by apply Z.leb_gt.
  - pose proof (execute_facts (view e) request) as HX. cbn zeta in HX.
    destruct (consume _ _ _ _) as [[r ts] rest]. destruct HX as (_ & _ & _ & _ & _ & Hrej).
    split; [intros Ha Hn; by destruct (Hn (Hrej Ha))|].
    intros s o Ho Hi. rewrite (Hdup s o Ho Hi) in Hid. done.
Qed.

Lemma engine_rejections_witness :
  exists (e e' : Engine FixedBlockPool) res,
    Engine_submit 1 e (sample_request "b" kBuy kLimit kGtc 120 8) = Ret (res, e') /\
    mr_reject_reason res = kDuplicateOrderId /\ view e' = view e.
Proof.
  destruct (sample_run sample_asks (sample_request "b" kBuy kLimit kGtc 120 8) sample_asks_ok
    ltac:(vm_compute; split; reflexivity)) as (e & e' & res & R & Es & Hv & Hres & _).
  destruct (engine_rejections 1 e e' (sample_request "b" kBuy kLimit kGtc 120 8) res R
    ltac:(vm_compute; split; reflexivity) Es) as [H1 _].
  assert (Hr : mr_accepted res = false /\ mr_reject_reason res = kDuplicateOrderId).
  { rewrite Hres. vm_compute. split; reflexivity. }
  destruct Hr as [Hr1 Hr2]. exists e, e', res. split; [exact Es|]. split; [exact Hr2|].
  refine (proj1 (proj2 (H1 Hr1 _))). rewrite Hr2. discriminate.
Defined.

(** Cancellation. Cancelling succeeds exactly for the id of a resting order;
    it reports the order's open quantity, removes that order alone and keeps the
    priority of all others; otherwise nothing changes. *)
Lemma engine_cancel_correct {A : Type} `{BlockAllocatorLaws A} (tid : Z) (e : Engine A)
    (id : string) (timestamp : Z) :
  engine_reachable tid e ->
  exists res e', Engine_cancel tid e id timestamp = Ret (res, e') /\
    (mr_accepted res = true <-> exists s o, o ∈ makers e s /\ ro_order_id o = id) /\
    (forall s o, o ∈ makers e s -> ro_order_id o = id ->
       mr_remaining_quantity res = ro_open_quantity o /\ mr_final_status res = kCancelled) /\
    (forall s, makers e' s = without id (makers e s)).
Proof.
  intros R. pose proof (reachable_rel tid e R) as Rel. pose proof Rel as (I & _ & _ & W).
  destruct (cancel_spec tid e (view e) id timestamp Rel) as (e' & E & R').
  exists (spec_cancel (view e) id).1, e'. split; [done|]. destruct R' as (_ & _ & Hv & _).
  assert (Hin : forall s o, o ∈ makers e s -> o ∈ bk_bids (view e) ++ bk_asks (view e)).
  { intros s o Ho. apply elem_of_app. destruct s; auto. }
  unfold spec_cancel in *. destruct (List.find _ _) as [o|] eqn:Ef.
  - pose proof Ef as Ef'. apply find_some in Ef' as [Ho Hid]. apply bool_decide_eq_true in Hid.
    apply list_elem_of_In in Ho. split_and!.
    + split; [|done]. intros _. apply elem_of_app in Ho as [Ho|Ho]; [by exists kBid, o|by exists kAsk, o].
    + intros s o' Ho' Hid'. simpl. split; [|done]. f_equal.
      apply Hin in Ho'. apply (view_elem e o I) in Ho as [b Hb]. apply (view_elem e o' I) in Ho' as [b' Hb'].
      assert (H1 : en_live e !! id = Some b) by (apply (ci_live e I); eauto).
      assert (H2 : en_live e !! id = Some b') by (apply (ci_live e I); eauto). congruence.
    + intros s. rewrite <- (view_side e'), Hv. by destruct s.
  - assert (Habs : forall s o, o ∈ makers e s -> ro_order_id o <> id).
    { intros s o Ho%Hin Hid. apply list_elem_of_In in Ho. apply (find_none _ _ Ef) in Ho.
      by apply bool_decide_eq_false in Ho. }
    split_and!.
    + split; [done|]. intros (s & o & Ho & Hid). by destruct (Habs s o Ho).
    + intros s o Ho Hid. by destruct (Habs s o Ho).
    + intros s. rewrite <- (view_side e'), Hv. simpl. rewrite view_side, without_absent; [done|].
      intros (o & Hid & Ho)%list_elem_of_fmap. by apply (Habs s o Ho).
Qed.

Example engine_cancel_correct_sample :
  exists (e e' : Engine FixedBlockPool) res, Engine_cancel 1 e "c" 0 = Ret (res, e') /\
    map ro_order_id (makers e' kAsk) = ["b"; "a"].
Proof.
  destruct (sample_run sample_asks (sample_request "t" kBuy kLimit kGtx 1 1) sample_asks_ok
    ltac:(vm_compute; split; reflexivity)) as (e & _ & _ & R & _ & Hv & _).
  destruct (engine_cancel_correct 1 e "c" 0 R) as (res & e' & E & _ & _ & HM).
  exists e, e', res. split; [exact E|]. rewrite HM.
  change (makers e kAsk) with (bk_asks (view e)). rewrite Hv. vm_compute. reflexivity.
Defined.

(** ** Outside the assumptions, and what the depth shows *)

(** Run calls from an empty engine and read something off the last state. *)
Definition observe {X} (ops : list engine_op) (f : list (option MatchResult) -> Engine FixedBlockPool -> X)
    : outcome X :=
  e ← Engine_new sample_storage "BTC" 16;
  r ← Engine_run 1 e ops;
  Ret (f r.1 r.2).

(** Two orders of 5 and 3 rest at one price, but the published depth shows
    3: adding an order overwrites the level with the new order's quantity. *)
Fact depth_shows_last_order :
  observe [limit_order "a" kSell kGtc 100 5; limit_order "b" kSell kGtc 100 3]
    (fun _ e => (depth_at (en_depth e) kAsk (double_of_Z 100),
                 map ro_open_quantity (makers e kAsk))) =
  Ret (Some (double_of_Z 3), [double_of_Z 5; double_of_Z 3]).
Proof. vm_compute. reflexivity. Qed.

(** A NaN quantity passes the [quantity <= 0.0] guard, rests, and then
    fills any request in full without ever being used up. *)
Fact nan_order_is_infinite_liquidity :
  let nan := SpecFloat.S754_nan in
  observe [OpSubmit (mkOrderRequest "n" kSell kLimit kGtc (double_of_Z 100) nan 0);
           limit_order "x" kBuy kIoc 100 1000; limit_order "y" kBuy kIoc 100 1000]
    (fun rs e => (map (fun r => match r with Some m => mr_final_status m | None => kRejected end) rs,
                  map ro_order_id (makers e kAsk))) =
  Ret ([kAccepted; kFilled; kFilled], ["n"]).
Proof. vm_compute. reflexivity. Qed.

(** A market order can be rejected after it traded: the executed quantity
    is the rounded difference of request and remainder, which is zero when the
    fill is below the request's precision. *)
Fact market_rejected_after_trading :
  observe [limit_order "a" kSell kGtc 100 1;
           OpSubmit (mkOrderRequest "m" kBuy kMarket kGtc dzero (double_of_Z (10 ^ 17)) 0)]
    (fun rs e => (map (fun r => match r with
                    | Some m => (mr_accepted m, mr_reject_reason m, length (mr_trades m))
                    | None => (true, kNone, 0%nat) end) rs,
                  makers e kAsk)) =
  Ret ([(true, kNone, 0%nat); (false, kMarketOrderWouldRest, 1%nat)], []).
Proof. vm_compute. reflexivity. Qed.
