(* ===== verification/Clearing.v ===== *)
(** * Account clearing: data and operations
    ([core-exchange/account-clearing-system])

    Accounts hold an available and a frozen balance of the quote and the base
    asset; freezing moves from one to the other under a named hold, settling a
    trade consumes frozen balances and their holds. Every change is written to a
    per-account journal of pool-allocated entries and every settlement to the
    outbox. Two references to the same account alias: the updates go through the
    map one after the other. The storage of the journal pool is any
    [BlockAllocator]. *)

From S2P Require Import Prelude Double Allocator Outbox.

Local Open Scope Z_scope.

Inductive HoldAsset := kQuote | kBase.
#[export] Instance HoldAsset_eq_dec : EqDecision HoldAsset.
Proof. solve_decision. Defined.

Record AccountSnapshot := mkAccount {
  ac_available_quote : double;
  ac_frozen_quote : double;
  ac_available_base : double;
  ac_frozen_base : double;
  ac_base_cost : double;
  ac_realized_pnl : double
}.

Record FeeSchedule := mkFees {
  fs_maker_fee_bps : double;
  fs_taker_fee_bps : double
}.

Inductive ClearingStatus :=
| kApplied
| kDuplicate
| kInvalidInput
| kAccountNotFound
| kHoldAlreadyExists
| kHoldNotFound
| kInsufficientQuoteBalance
| kInsufficientBasePosition
| kBuyerFrozenQuoteInsufficient
| kSellerFrozenBaseInsufficient
| kBuyerHoldInsufficient
| kSellerHoldInsufficient
| kOutboxMessageNotFound
| kInvariantViolation.
#[export] Instance ClearingStatus_eq_dec : EqDecision ClearingStatus.
Proof. solve_decision. Defined.

(** [ClearingOperationResult] is its status. *)
Definition operation_ok (status : ClearingStatus) : bool := bool_decide (status = kApplied).

Record TradeFill := mkFill {
  tf_trade_id : string;
  tf_symbol : string;
  tf_buyer_account_id : string;
  tf_seller_account_id : string;
  tf_buyer_hold_id : string;
  tf_seller_hold_id : string;
  tf_price : double;
  tf_quantity : double;
  tf_buyer_is_taker : bool;
  tf_timestamp_ms : Z
}.

Record SettlementResult := mkSettlement {
  sr_status : ClearingStatus;
  sr_notional : double;
  sr_buyer_fee : double;
  sr_seller_fee : double;
  sr_seller_realized_pnl : double
}.

Definition settlement_status (status : ClearingStatus) : SettlementResult :=
  mkSettlement status dzero dzero dzero dzero.

Definition settlement_ok (r : SettlementResult) : bool :=
  bool_decide (sr_status r = kApplied) || bool_decide (sr_status r = kDuplicate).

Record JournalEntry := mkJournal {
  je_account_id : string;
  je_event_id : string;
  je_operation : string;
  je_delta_available_quote : double;
  je_delta_frozen_quote : double;
  je_delta_available_base : double;
  je_delta_frozen_base : double;
  je_delta_base_cost : double;
  je_delta_realized_pnl : double;
  je_timestamp_ms : Z
}.

Record HoldRecord := mkHold {
  hr_account_id : string;
  hr_asset : HoldAsset;
  hr_amount : double
}.

Record SettlementAmounts := mkAmounts {
  sa_notional : double;
  sa_buyer_fee : double;
  sa_seller_fee : double;
  sa_buyer_consumed_quote : double;
  sa_seller_consumed_base : double;
  sa_seller_cost_released : double;
  sa_seller_realized_pnl : double
}.

Definition kBalanceEpsilon : double := eps.

Definition fee_amount (notional fee_bps : double) : double :=
  ddiv (dmul notional fee_bps) (double_of_Z 10000).

Definition clearing_is_zero (value : double) : bool :=
  dge value (dopp kBalanceEpsilon) && dle value kBalanceEpsilon.

Definition calculate_settlement_amounts (fill : TradeFill) (fees : FeeSchedule) (seller : AccountSnapshot)
    : SettlementAmounts :=
  let notional := dmul (tf_price fill) (tf_quantity fill) in
  let buyer_fee := fee_amount notional
    (if tf_buyer_is_taker fill then fs_taker_fee_bps fees else fs_maker_fee_bps fees) in
  let seller_fee := fee_amount notional
    (if tf_buyer_is_taker fill then fs_maker_fee_bps fees else fs_taker_fee_bps fees) in
  let seller_total_base_before := dadd (ac_available_base seller) (ac_frozen_base seller) in
  let seller_cost_per_unit :=
    if dgt seller_total_base_before dzero then ddiv (ac_base_cost seller) seller_total_base_before
    else dzero in
  let seller_cost_released := dmul seller_cost_per_unit (tf_quantity fill) in
  mkAmounts notional buyer_fee seller_fee (dadd notional buyer_fee) (tf_quantity fill)
    seller_cost_released (dsub (dsub notional seller_fee) seller_cost_released).

Definition has_valid_trade_fill (fill : TradeFill) : bool :=
  dgt (tf_price fill) dzero && dgt (tf_quantity fill) dzero && (0 <? tf_timestamp_ms fill).

Definition validate_balance_coverage (buyer seller : AccountSnapshot)
    (buyer_consumed_quote seller_consumed_base : double) : SettlementResult :=
  if dlt (ac_frozen_quote buyer) buyer_consumed_quote
  then settlement_status kBuyerFrozenQuoteInsufficient
  else if dlt (ac_frozen_base seller) seller_consumed_base
  then settlement_status kSellerFrozenBaseInsufficient
  else settlement_status kApplied.

(** One leg of [validate_hold_coverage]: a hold that is named must exist, belong
    to the account, be of the asset and cover the amount. *)
Definition hold_covers (holds : gmap string HoldRecord) (hold_id account_id : string)
    (asset : HoldAsset) (consumed : double) : bool :=
  bool_decide (hold_id = "") ||
  match holds !! hold_id with
  | None => false
  | Some hold =>
    bool_decide (hr_account_id hold = account_id) && bool_decide (hr_asset hold = asset) &&
    negb (dlt (hr_amount hold) consumed)
  end.

Definition validate_hold_coverage (holds : gmap string HoldRecord) (fill : TradeFill)
    (buyer_consumed_quote seller_consumed_base : double) : SettlementResult :=
  if negb (hold_covers holds (tf_buyer_hold_id fill) (tf_buyer_account_id fill) kQuote buyer_consumed_quote)
  then settlement_status kBuyerHoldInsufficient
  else if negb (hold_covers holds (tf_seller_hold_id fill) (tf_seller_account_id fill) kBase seller_consumed_base)
  then settlement_status kSellerHoldInsufficient
  else settlement_status kApplied.

(** [hold_it->second.amount -= amount] for a hold that must exist. *)
Definition consume_hold_amount (holds : gmap string HoldRecord) (hold_id : string) (amount : double)
    : outcome (gmap string HoldRecord) :=
  if bool_decide (hold_id = "") then Ret holds
  else
    hold ← deref (holds !! hold_id) "end iterator dereferenced";
    let left := dsub (hr_amount hold) amount in
    if clearing_is_zero left then Ret (delete hold_id holds)
    else Ret (<[hold_id := mkHold (hr_account_id hold) (hr_asset hold) left]> holds).

(** ** The updates of a snapshot *)

Definition freeze_quote_update (amount : double) (s : AccountSnapshot) : AccountSnapshot :=
  mkAccount (dsub (ac_available_quote s) amount) (dadd (ac_frozen_quote s) amount)
    (ac_available_base s) (ac_frozen_base s) (ac_base_cost s) (ac_realized_pnl s).
Definition freeze_base_update (amount : double) (s : AccountSnapshot) : AccountSnapshot :=
  mkAccount (ac_available_quote s) (ac_frozen_quote s) (dsub (ac_available_base s) amount)
    (dadd (ac_frozen_base s) amount) (ac_base_cost s) (ac_realized_pnl s).
Definition release_quote_update (amount : double) (s : AccountSnapshot) : AccountSnapshot :=
  mkAccount (dadd (ac_available_quote s) amount) (dsub (ac_frozen_quote s) amount)
    (ac_available_base s) (ac_frozen_base s) (ac_base_cost s) (ac_realized_pnl s).
Definition release_base_update (amount : double) (s : AccountSnapshot) : AccountSnapshot :=
  mkAccount (ac_available_quote s) (ac_frozen_quote s) (dadd (ac_available_base s) amount)
    (dsub (ac_frozen_base s) amount) (ac_base_cost s) (ac_realized_pnl s).
Definition buyer_update (a : SettlementAmounts) (quantity : double) (s : AccountSnapshot) : AccountSnapshot :=
  mkAccount (ac_available_quote s) (dsub (ac_frozen_quote s) (sa_buyer_consumed_quote a))
    (dadd (ac_available_base s) quantity) (ac_frozen_base s)
    (dadd (ac_base_cost s) (sa_buyer_consumed_quote a)) (ac_realized_pnl s).
Definition seller_update (a : SettlementAmounts) (s : AccountSnapshot) : AccountSnapshot :=
  mkAccount (dadd (ac_available_quote s) (dsub (sa_notional a) (sa_seller_fee a))) (ac_frozen_quote s)
    (ac_available_base s) (dsub (ac_frozen_base s) (sa_seller_consumed_base a))
    (dsub (ac_base_cost s) (sa_seller_cost_released a))
    (dadd (ac_realized_pnl s) (sa_seller_realized_pnl a)).

Section Clearing.
Context {A : Type} `{BlockAllocator A} (tid : Z).

Record AccountClearingSystem := mkClearing {
  cs_accounts : gmap string AccountSnapshot;
  cs_holds : gmap string HoldRecord;
  cs_journals : gmap string (list block);
  cs_settled_trade_ids : gset string;
  cs_journal_storage : list block;
  cs_outbox : OutboxStore;
  cs_journal_pool : ObjectPool A JournalEntry
}.

Definition Clearing_new (storage : A) : AccountClearingSystem :=
  mkClearing ∅ ∅ ∅ ∅ [] [] (mkObjectPool storage ∅).

Definition set_accounts (c : AccountClearingSystem) (m : gmap string AccountSnapshot) : AccountClearingSystem :=
  mkClearing m (cs_holds c) (cs_journals c) (cs_settled_trade_ids c) (cs_journal_storage c)
    (cs_outbox c) (cs_journal_pool c).
Definition set_holds (c : AccountClearingSystem) (m : gmap string HoldRecord) : AccountClearingSystem :=
  mkClearing (cs_accounts c) m (cs_journals c) (cs_settled_trade_ids c) (cs_journal_storage c)
    (cs_outbox c) (cs_journal_pool c).
Definition set_outbox (c : AccountClearingSystem) (o : OutboxStore) : AccountClearingSystem :=
  mkClearing (cs_accounts c) (cs_holds c) (cs_journals c) (cs_settled_trade_ids c)
    (cs_journal_storage c) o (cs_journal_pool c).
Definition set_settled (c : AccountClearingSystem) (s : gset string) : AccountClearingSystem :=
  mkClearing (cs_accounts c) (cs_holds c) (cs_journals c) s (cs_journal_storage c)
    (cs_outbox c) (cs_journal_pool c).

(** An update through [account_it->second]. *)
Definition update_account (c : AccountClearingSystem) (id : string)
    (f : AccountSnapshot -> AccountSnapshot) : AccountClearingSystem :=
  set_accounts c (alter f id (cs_accounts c)).

Definition append_journal (c : AccountClearingSystem) (entry : JournalEntry)
    : outcome AccountClearingSystem :=
  created ← ObjectPool_create tid (cs_journal_pool c) (inr entry);
  match created with
  | (inl what, _) => Throw what
  | (inr b, pool) =>
    let id := je_account_id entry in
    Ret (mkClearing (cs_accounts c) (cs_holds c)
           (<[id := default [] (cs_journals c !! id) ++ [b]]> (cs_journals c))
           (cs_settled_trade_ids c) (cs_journal_storage c ++ [b]) (cs_outbox c) pool)
  end.

Definition Clearing_upsert_account (c : AccountClearingSystem) (id : string) (s : AccountSnapshot)
    : AccountClearingSystem :=
  set_accounts c (<[id := s]> (cs_accounts c)).

(** [freeze_quote] and [freeze_base] differ in the balance they test and update,
    the reason they report and the journal entry. *)
Definition freeze (asset : HoldAsset) (c : AccountClearingSystem) (account_id hold_id : string)
    (amount : double) (timestamp_ms : Z) : outcome (ClearingStatus * AccountClearingSystem) :=
  match cs_accounts c !! account_id with
  | None => Ret (kAccountNotFound, c)
  | Some snapshot =>
    if dle amount dzero then Ret (kInvalidInput, c)
    else match cs_holds c !! hold_id with
    | Some _ => Ret (kHoldAlreadyExists, c)
    | None =>
      match asset with
      | kQuote =>
        if dlt (ac_available_quote snapshot) amount then Ret (kInsufficientQuoteBalance, c)
        else
          let c := update_account c account_id (freeze_quote_update amount) in
          let c := set_holds c (<[hold_id := mkHold account_id kQuote amount]> (cs_holds c)) in
          c ← append_journal c (mkJournal account_id hold_id "freeze_quote" (dopp amount) amount
                                  dzero dzero dzero dzero timestamp_ms);
          Ret (kApplied, c)
      | kBase =>
        if dlt (ac_available_base snapshot) amount then Ret (kInsufficientBasePosition, c)
        else
          let c := update_account c account_id (freeze_base_update amount) in
          let c := set_holds c (<[hold_id := mkHold account_id kBase amount]> (cs_holds c)) in
          c ← append_journal c (mkJournal account_id hold_id "freeze_base" dzero dzero
                                  (dopp amount) amount dzero dzero timestamp_ms);
          Ret (kApplied, c)
      end
    end
  end.

Definition Clearing_freeze_quote := freeze kQuote.
Definition Clearing_freeze_base := freeze kBase.

Definition Clearing_release_hold (c : AccountClearingSystem) (hold_id : string) (timestamp_ms : Z)
    : outcome (ClearingStatus * AccountClearingSystem) :=
  match cs_holds c !! hold_id with
  | None => Ret (kHoldNotFound, c)
  | Some hold =>
    let id := hr_account_id hold in
    let amount := hr_amount hold in
    match cs_accounts c !! id with
    | None => Ret (kInvariantViolation, c)
    | Some _ =>
      c ← match hr_asset hold with
          | kQuote =>
            append_journal (update_account c id (release_quote_update amount))
              (mkJournal id hold_id "release_quote" amount (dopp amount) dzero dzero dzero dzero timestamp_ms)
          | kBase =>
            append_journal (update_account c id (release_base_update amount))
              (mkJournal id hold_id "release_base" dzero dzero amount (dopp amount) dzero dzero timestamp_ms)
          end;
      Ret (kApplied, set_holds c (delete hold_id (cs_holds c)))
    end
  end.

Definition append_settlement_journal (c : AccountClearingSystem) (fill : TradeFill)
    (a : SettlementAmounts) : outcome AccountClearingSystem :=
  c ← append_journal c (mkJournal (tf_buyer_account_id fill) (tf_trade_id fill) "spot_trade_buy"
        dzero (dopp (dadd (sa_notional a) (sa_buyer_fee a))) (tf_quantity fill) dzero
        (dadd (sa_notional a) (sa_buyer_fee a)) dzero (tf_timestamp_ms fill));
  append_journal c (mkJournal (tf_seller_account_id fill) (tf_trade_id fill) "spot_trade_sell"
        (dsub (sa_notional a) (sa_seller_fee a)) dzero dzero (dopp (tf_quantity fill))
        (dopp (sa_seller_cost_released a)) (sa_seller_realized_pnl a) (tf_timestamp_ms fill)).

Definition enqueue_settlement_outbox (c : AccountClearingSystem) (fill : TradeFill) : AccountClearingSystem :=
  set_outbox c (Outbox_append (cs_outbox c)
    (mkOutboxMessage (tf_trade_id fill) "clearing.settlement"
       (tf_symbol fill +:+ ":" +:+ tf_buyer_account_id fill +:+ ":" +:+ tf_seller_account_id fill)
       kPending)).

(** The part of [settle_spot_trade] after the checks. *)
Definition apply_settlement (c : AccountClearingSystem) (fill : TradeFill) (a : SettlementAmounts)
    : outcome (SettlementResult * AccountClearingSystem) :=
  let c := update_account c (tf_buyer_account_id fill) (buyer_update a (tf_quantity fill)) in
  let c := update_account c (tf_seller_account_id fill) (seller_update a) in
  holds ← consume_hold_amount (cs_holds c) (tf_buyer_hold_id fill) (sa_buyer_consumed_quote a);
  holds ← consume_hold_amount holds (tf_seller_hold_id fill) (sa_seller_consumed_base a);
  c ← append_settlement_journal (set_holds c holds) fill a;
  let c := enqueue_settlement_outbox c fill in
  Ret (mkSettlement kApplied (sa_notional a) (sa_buyer_fee a) (sa_seller_fee a) (sa_seller_realized_pnl a),
       set_settled c ({[tf_trade_id fill]} ∪ cs_settled_trade_ids c)).

Definition Clearing_settle_spot_trade (c : AccountClearingSystem) (fill : TradeFill) (fees : FeeSchedule)
    : outcome (SettlementResult * AccountClearingSystem) :=
  if bool_decide (tf_trade_id fill ∈ cs_settled_trade_ids c)
  then Ret (settlement_status kDuplicate, c)
  else
    match cs_accounts c !! tf_buyer_account_id fill, cs_accounts c !! tf_seller_account_id fill with
    | Some buyer, Some seller =>
      if negb (has_valid_trade_fill fill) then Ret (settlement_status kInvalidInput, c)
      else
        let a := calculate_settlement_amounts fill fees seller in
        let balance_check := validate_balance_coverage buyer seller
          (sa_buyer_consumed_quote a) (sa_seller_consumed_base a) in
        if negb (settlement_ok balance_check) then Ret (balance_check, c)
        else
          let hold_check := validate_hold_coverage (cs_holds c) fill
            (sa_buyer_consumed_quote a) (sa_seller_consumed_base a) in
          if negb (settlement_ok hold_check) then Ret (hold_check, c)
          else apply_settlement c fill a
    | _, _ => Ret (settlement_status kAccountNotFound, c)
    end.

(** ** Queries *)

Definition Clearing_account (c : AccountClearingSystem) (id : string) : option AccountSnapshot :=
  cs_accounts c !! id.

Definition Clearing_hold_amount (c : AccountClearingSystem) (hold_id : string) : option double :=
  hr_amount <$> cs_holds c !! hold_id.

Fixpoint read_entries (pool : ObjectPool A JournalEntry) (l : list block) : outcome (list JournalEntry) :=
  match l with
  | [] => Ret []
  | b :: l =>
    entry ← ObjectPool_read pool b;
    entries ← read_entries pool l;
    Ret (entry :: entries)
  end.

Definition Clearing_journal (c : AccountClearingSystem) (id : string) : outcome (list JournalEntry) :=
  read_entries (cs_journal_pool c) (default [] (cs_journals c !! id)).

Definition Clearing_reconcile_account (c : AccountClearingSystem) (id : string) : bool :=
  match Clearing_account c id with
  | None => false
  | Some s =>
    dge (ac_available_quote s) dzero && dge (ac_frozen_quote s) dzero && dge (ac_available_base s) dzero &&
    dge (ac_frozen_base s) dzero && dge (ac_base_cost s) dzero
  end.

Definition Clearing_pending_outbox (c : AccountClearingSystem) (max_items : Z) : list OutboxMessage :=
  Outbox_pending_batch (cs_outbox c) max_items.

Definition Clearing_mark_outbox_dispatched (c : AccountClearingSystem) (message_id : string)
    : ClearingStatus * AccountClearingSystem :=
  let '(found, outbox) := Outbox_mark_dispatched (cs_outbox c) message_id in
  (if found then kApplied else kOutboxMessageNotFound, set_outbox c outbox).

(** The destructor: every entry is destroyed. *)
Fixpoint destroy_entries (pool : ObjectPool A JournalEntry) (l : list block)
    : outcome (ObjectPool A JournalEntry) :=
  match l with
  | [] => Ret pool
  | b :: l => pool ← ObjectPool_destroy tid pool (Some b); destroy_entries pool l
  end.

Definition Clearing_destruct (c : AccountClearingSystem) : outcome (ObjectPool A JournalEntry) :=
  destroy_entries (cs_journal_pool c) (cs_journal_storage c).
End Clearing.
Arguments AccountClearingSystem A : clear implicits.

Definition status_message (status : ClearingStatus) : string :=
  match status with
  | kApplied => "applied"
  | kDuplicate => "duplicate"
  | kInvalidInput => "invalid_input"
  | kAccountNotFound => "account_not_found"
  | kHoldAlreadyExists => "hold_already_exists"
  | kHoldNotFound => "hold_not_found"
  | kInsufficientQuoteBalance => "insufficient_quote_balance"
  | kInsufficientBasePosition => "insufficient_base_position"
  | kBuyerFrozenQuoteInsufficient => "buyer_frozen_quote_insufficient"
  | kSellerFrozenBaseInsufficient => "seller_frozen_base_insufficient"
  | kBuyerHoldInsufficient => "buyer_hold_insufficient"
  | kSellerHoldInsufficient => "seller_hold_insufficient"
  | kOutboxMessageNotFound => "outbox_message_not_found"
  | kInvariantViolation => "invariant_violation"
  end.
