(* ===== verification/ClearingProofs.v ===== *)
(** * Account clearing: what it guarantees

    The journal as a complete ledger (replaying it gives every balance, bit for
    bit up to the sign of zero), atomicity and idempotence of the operations, and
    conservation of both assets on a tick grid. *)

From S2P Require Import Prelude Double Allocator Pool Outbox Clearing.

Local Open Scope Z_scope.

(** ** Replaying journal entries *)

Definition apply_entry (s : AccountSnapshot) (e : JournalEntry) : AccountSnapshot :=
  mkAccount (dadd (ac_available_quote s) (je_delta_available_quote e))
    (dadd (ac_frozen_quote s) (je_delta_frozen_quote e))
    (dadd (ac_available_base s) (je_delta_available_base e))
    (dadd (ac_frozen_base s) (je_delta_frozen_base e))
    (dadd (ac_base_cost s) (je_delta_base_cost e))
    (dadd (ac_realized_pnl s) (je_delta_realized_pnl e)).

(** Snapshots equal up to the sign of zeros. *)
Record snap_eqv (s t : AccountSnapshot) : Prop := mkSnapEqv {
  se_available_quote : ac_available_quote s ≈d ac_available_quote t;
  se_frozen_quote : ac_frozen_quote s ≈d ac_frozen_quote t;
  se_available_base : ac_available_base s ≈d ac_available_base t;
  se_frozen_base : ac_frozen_base s ≈d ac_frozen_base t;
  se_base_cost : ac_base_cost s ≈d ac_base_cost t;
  se_realized_pnl : ac_realized_pnl s ≈d ac_realized_pnl t
}.

Infix "≈s" := snap_eqv (at level 70).

#[export] Instance snap_eqv_equiv : Equivalence snap_eqv.
Proof.
  split.
  - intros s. by split.
  - intros s t []. by split.
  - intros s t u [] []. split; by etransitivity.
Qed.

#[export] Instance apply_entry_proper : Proper (snap_eqv ==> eq ==> snap_eqv) apply_entry.
Proof. intros s t [E1 E2 E3 E4 E5 E6] e _ <-. split; simpl; by f_equiv. Qed.

(** The update the code makes and the entry it writes agree. *)
Ltac ledger_step := intros; split; simpl; rewrite ?dsub_dadd, ?dadd_zero_r; reflexivity.

Lemma freeze_quote_ledger (s : AccountSnapshot) (id ev op : string) (a : double) (t : Z) :
  freeze_quote_update a s ≈s apply_entry s (mkJournal id ev op (dopp a) a dzero dzero dzero dzero t).
Proof. ledger_step. Qed.
Lemma freeze_base_ledger (s : AccountSnapshot) (id ev op : string) (a : double) (t : Z) :
  freeze_base_update a s ≈s apply_entry s (mkJournal id ev op dzero dzero (dopp a) a dzero dzero t).
Proof. ledger_step. Qed.
Lemma release_quote_ledger (s : AccountSnapshot) (id ev op : string) (a : double) (t : Z) :
  release_quote_update a s ≈s apply_entry s (mkJournal id ev op a (dopp a) dzero dzero dzero dzero t).
Proof. ledger_step. Qed.
Lemma release_base_ledger (s : AccountSnapshot) (id ev op : string) (a : double) (t : Z) :
  release_base_update a s ≈s apply_entry s (mkJournal id ev op dzero dzero a (dopp a) dzero dzero t).
Proof. ledger_step. Qed.

(** A branch that returns without changing anything. *)
Ltac unchanged c := eexists _, c; split_and!; [reflexivity|assumption|try done..].

(** The snapshot each account was last set to, and the length of its journal then. *)
Record Baseline := mkBaseline {
  bl_accounts : gmap string AccountSnapshot;
  bl_from : string -> nat
}.
Definition from_start (m : gmap string AccountSnapshot) : Baseline := mkBaseline m (fun _ => 0%nat).

Section Journal.
Context {A : Type} `{BlockAllocatorLaws A} (tid : Z).

Implicit Types c : AccountClearingSystem A.

Definition objects c : gmap block JournalEntry := op_objects (cs_journal_pool c).

Definition deref_all (h : gmap block JournalEntry) (l : list block) : list JournalEntry :=
  omap (fun b => h !! b) l.

(** The entries of an account, oldest first. *)
Definition entries c (id : string) : list JournalEntry :=
  deref_all (objects c) (default [] (cs_journals c !! id)).

(** Every journal pointer is a live pool object, stored once. *)
Record journal_inv c : Prop := {
  ji_pool : object_pool_wf (cs_journal_pool c);
  ji_storage : NoDup (cs_journal_storage c);
  ji_live : forall b, is_Some (objects c !! b) <-> b ∈ cs_journal_storage c;
  ji_journals : forall id l, cs_journals c !! id = Some l -> Forall (fun b => b ∈ cs_journal_storage c) l
}.

Lemma omap_insert_fresh (h : gmap block JournalEntry) (b : block) (e : JournalEntry) (l : list block) :
  h !! b = None -> Forall (fun x => is_Some (h !! x)) l ->
  deref_all (<[b := e]> h) l = deref_all h l.
Proof using Type.
  intros Hb HF. induction HF as [|x l [v Hx] HF IH]; simpl; [done|].
  rewrite lookup_insert_ne by (intros <-; congruence). by rewrite IH.
Qed.

Lemma journal_live c (id : string) : journal_inv c ->
  Forall (fun b => is_Some (objects c !! b)) (default [] (cs_journals c !! id)).
Proof using Type.
  intros J. destruct (cs_journals c !! id) as [l|] eqn:E; simpl; [|constructor].
  eapply Forall_impl; [by apply (ji_journals c J id)|]. intros b. apply (ji_live c J).
Qed.

(** What appending leaves alone. *)
Definition same_books c c' : Prop :=
  cs_accounts c' = cs_accounts c /\ cs_holds c' = cs_holds c /\
  cs_settled_trade_ids c' = cs_settled_trade_ids c /\ cs_outbox c' = cs_outbox c.

Lemma append_journal_spec c (e : JournalEntry) : journal_inv c ->
  exists c', append_journal tid c e = Ret c' /\ journal_inv c' /\ same_books c c' /\
    forall id, entries c' id = entries c id ++ (if decide (id = je_account_id e) then [e] else []).
Proof using Type*.
  intros J. unfold append_journal.
  destruct (create_spec tid (cs_journal_pool c) e (ji_pool c J)) as (b & st & Hb & -> & Hwf).
  rewrite bind_ret. cbn zeta. eexists. split; [reflexivity|].
  assert (Hnb : b ∉ cs_journal_storage c).
  { intros Hin%(ji_live c J). unfold objects in Hin. rewrite Hb in Hin. by destruct Hin. }
  split; [|split; [by split_and!|]].
  - split; simpl.
    + done.
    + apply NoDup_app. split_and!; [apply J| |apply NoDup_singleton]. intros x Hx ->%list_elem_of_singleton. done.
    + intros x. unfold objects. simpl. rewrite elem_of_app, list_elem_of_singleton.
      destruct (decide (x = b)) as [->|Hne].
      * rewrite lookup_insert_eq. split; [by right|by eexists].
      * rewrite lookup_insert_ne by done. rewrite (ji_live c J). tauto.
    + intros id l Hl. apply lookup_insert_Some in Hl as [[_ <-]|[_ Hl]].
      * apply Forall_app. split; [|repeat constructor; apply elem_of_app; right; by apply list_elem_of_singleton].
        pose proof (journal_live c (je_account_id e) J) as HF.
        eapply Forall_impl; [exact HF|]. intros x Hx%(ji_live c J). apply elem_of_app. by left.
      * eapply Forall_impl; [by apply (ji_journals c J id)|]. intros x Hx. apply elem_of_app. by left.
  - intros id. unfold entries, objects. simpl. destruct (decide (id = je_account_id e)) as [->|Hne].
    + rewrite lookup_insert_eq. simpl. unfold deref_all at 1. rewrite omap_app. simpl.
      rewrite lookup_insert_eq. fold (deref_all (<[b := e]> (op_objects (cs_journal_pool c)))
        (default [] (cs_journals c !! je_account_id e))).
      rewrite omap_insert_fresh; [done|done|]. by apply journal_live.
    + rewrite lookup_insert_ne by done. rewrite app_nil_r.
      rewrite omap_insert_fresh; [done|done|]. by apply journal_live.
Qed.

Lemma journal_reads c (id : string) : journal_inv c -> Clearing_journal c id = Ret (entries c id).
Proof using Type.
  intros J. unfold Clearing_journal, entries, objects. pose proof (journal_live c id J) as HF.
  induction HF as [|b l [e He] HF IH]; simpl; [done|].
  rewrite (read_spec _ _ _ He), bind_ret, IH, bind_ret. unfold objects in He. by rewrite He.
Qed.

Lemma destroy_entries_spec (l : list block) : forall (pool : ObjectPool A JournalEntry),
  object_pool_wf pool -> NoDup l -> (forall b, is_Some (op_objects pool !! b) <-> b ∈ l) ->
  exists pool', destroy_entries tid pool l = Ret pool' /\ object_pool_wf pool' /\ op_objects pool' = ∅.
Proof using Type*.
  induction l as [|b l IH]; intros pool Hwf Hnd Hl; cbn [destroy_entries].
  { exists pool. split_and!; [done|done|]. apply map_eq. intros x. rewrite lookup_empty.
    apply eq_None_not_Some. intros Hx%Hl. by apply not_elem_of_nil in Hx. }
  apply NoDup_cons in Hnd as [Hn Hnd].
  destruct (proj2 (Hl b)) as [e He]; [apply elem_of_cons; by left|].
  destruct (destroy_spec tid pool b e Hwf He) as (st & -> & Hwf'). rewrite bind_ret.
  apply IH; [done|done|]. intros x. simpl. destruct (decide (x = b)) as [->|Hne].
  - rewrite lookup_delete_eq. split; [by intros []|done].
  - rewrite lookup_delete_ne by done. rewrite Hl, elem_of_cons. tauto.
Qed.

(** ** The ledger *)

(** Replaying the journal from there gives the current snapshot. *)
Definition ledger (init : Baseline) (accounts : gmap string AccountSnapshot) (ents : string -> list JournalEntry) : Prop :=
  forall id, (bl_from init id <= length (ents id))%nat /\
    match bl_accounts init !! id, accounts !! id with
    | Some s0, Some s => s ≈s foldl apply_entry s0 (drop (bl_from init id) (ents id))
    | None, None => True
    | _, _ => False
    end.

Lemma ledger_step (init : Baseline) (accounts : gmap string AccountSnapshot) (ents ents' : string -> list JournalEntry)
    (id : string) (f : AccountSnapshot -> AccountSnapshot) (e : JournalEntry) :
  ledger init accounts ents -> (forall s, f s ≈s apply_entry s e) ->
  (forall i, ents' i = ents i ++ (if decide (i = id) then [e] else [])) ->
  ledger init (alter f id accounts) ents'.
Proof using Type.
  intros HL Hf He i. specialize (HL i) as [Hlen HL]. rewrite He, length_app. split; [lia|].
  rewrite drop_app_le by done. destruct (decide (i = id)) as [->|Hne].
  - rewrite lookup_alter_eq. destruct (bl_accounts init !! id), (accounts !! id) as [s|]; simpl; try done.
    rewrite foldl_app. simpl. by rewrite Hf, HL.
  - rewrite lookup_alter_ne by done. by rewrite app_nil_r.
Qed.

(** Exactly one outbox message per settled trade. *)
Definition outbox_inv c : Prop :=
  NoDup (outbox_ids (cs_outbox c)) /\
  forall id, id ∈ outbox_ids (cs_outbox c) <-> id ∈ cs_settled_trade_ids c.

Record clearing_inv (init : Baseline) c : Prop := {
  cv_journal : journal_inv c;
  cv_ledger : ledger init (cs_accounts c) (entries c);
  cv_outbox : outbox_inv c
}.

(** Registering an account starts its ledger anew. *)
Definition rebase (init : Baseline) c (id : string) (s : AccountSnapshot) : Baseline :=
  mkBaseline (<[id := s]> (bl_accounts init))
    (fun i => if decide (i = id) then length (entries c id) else bl_from init i).

Lemma upsert_inv (init : Baseline) c (id : string) (s : AccountSnapshot) :
  clearing_inv init c -> clearing_inv (rebase init c id s) (Clearing_upsert_account c id s).
Proof using Type.
  intros [J L O]. split; [by destruct J| |done]. intros i. simpl. change (entries _ i) with (entries c i).
  destruct (decide (i = id)) as [->|Hne].
  - split; [done|]. rewrite !lookup_insert_eq. by rewrite drop_all.
  - specialize (L i) as [Hl HL]. split; [done|]. by rewrite !lookup_insert_ne.
Qed.

(** Replacing accounts and holds keeps the journal. *)
Lemma journal_inv_books c c' :
  cs_journal_pool c' = cs_journal_pool c -> cs_journals c' = cs_journals c ->
  cs_journal_storage c' = cs_journal_storage c -> journal_inv c -> journal_inv c'.
Proof using Type.
  intros E1 E2 E3 []. split; unfold objects in *; by rewrite ?E1, ?E2, ?E3.
Qed.

Lemma update_and_log (init : Baseline) c (id : string)
    (f : AccountSnapshot -> AccountSnapshot) (holds : gmap string HoldRecord) (e : JournalEntry) :
  clearing_inv init c -> je_account_id e = id -> (forall s, f s ≈s apply_entry s e) ->
  exists c', append_journal tid (set_holds (update_account c id f) holds) e = Ret c' /\
    clearing_inv init c' /\ cs_accounts c' = alter f id (cs_accounts c) /\ cs_holds c' = holds /\
    cs_settled_trade_ids c' = cs_settled_trade_ids c.
Proof using Type*.
  intros [J L O] <- Hf. set (c1 := set_holds _ _).
  assert (J1 : journal_inv c1) by by apply (journal_inv_books c).
  destruct (append_journal_spec c1 e J1) as (c' & -> & J' & (E1 & E2 & E3 & E4) & He).
  exists c'. split; [done|]. rewrite E1, E2, E3. split_and!; try done. split; [done| |].
  - rewrite E1. apply (ledger_step init (cs_accounts c) (entries c) _ _ f e); [done|done|].
    intros i. apply He.
  - unfold outbox_inv. rewrite E3, E4. done.
Qed.

(** ** Freezing and releasing *)

Lemma freeze_spec (init : Baseline) c (asset : HoldAsset) (id hold : string)
    (amount : double) (t : Z) :
  clearing_inv init c ->
  exists st c', freeze tid asset c id hold amount t = Ret (st, c') /\ clearing_inv init c' /\
    (st <> kApplied -> c' = c) /\ cs_settled_trade_ids c' = cs_settled_trade_ids c /\
    (st = kApplied -> exists s, cs_accounts c !! id = Some s /\ dle amount dzero = false /\
       cs_holds c !! hold = None /\
       dlt (match asset with kQuote => ac_available_quote s | kBase => ac_available_base s end) amount = false /\
       cs_accounts c' = alter (match asset with kQuote => freeze_quote_update amount
                                              | kBase => freeze_base_update amount end) id (cs_accounts c) /\
       cs_holds c' = <[hold := mkHold id asset amount]> (cs_holds c)).
Proof using Type*.
  intros I. unfold freeze. destruct (cs_accounts c !! id) as [s|] eqn:Es; [|unchanged c].
  destruct (dle amount dzero) eqn:Ea; [unchanged c|].
  destruct (cs_holds c !! hold) eqn:Eh; [unchanged c|].
  destruct asset.
  - destruct (dlt (ac_available_quote s) amount) eqn:Eb; [unchanged c|]. cbn zeta.
    destruct (update_and_log init c id (freeze_quote_update amount)
      (<[hold := mkHold id kQuote amount]> (cs_holds c))
      (mkJournal id hold "freeze_quote" (dopp amount) amount dzero dzero dzero dzero t) I eq_refl
      (fun s => freeze_quote_ledger s id hold "freeze_quote" amount t)) as (c' & E & I' & E1 & E2 & E3).
    change (cs_holds (update_account c id _)) with (cs_holds c). rewrite E, bind_ret.
    eexists _, c'. split_and!; [done|done|done|done|]. intros _. exists s. by split_and!.
  - destruct (dlt (ac_available_base s) amount) eqn:Eb; [unchanged c|]. cbn zeta.
    destruct (update_and_log init c id (freeze_base_update amount)
      (<[hold := mkHold id kBase amount]> (cs_holds c))
      (mkJournal id hold "freeze_base" dzero dzero (dopp amount) amount dzero dzero t) I eq_refl
      (fun s => freeze_base_ledger s id hold "freeze_base" amount t)) as (c' & E & I' & E1 & E2 & E3).
    change (cs_holds (update_account c id _)) with (cs_holds c). rewrite E, bind_ret.
    eexists _, c'. split_and!; [done|done|done|done|]. intros _. exists s. by split_and!.
Qed.

Definition release_update (h : HoldRecord) : AccountSnapshot -> AccountSnapshot :=
  match hr_asset h with
  | kQuote => release_quote_update (hr_amount h)
  | kBase => release_base_update (hr_amount h)
  end.

Lemma clearing_inv_holds (init : Baseline) c (holds : gmap string HoldRecord) :
  clearing_inv init c -> clearing_inv init (set_holds c holds).
Proof using Type. intros [J L O]. split; [by apply (journal_inv_books c)|done|done]. Qed.

Lemma set_holds_same c : set_holds c (cs_holds c) = c.
Proof using Type. by destruct c. Qed.

Lemma release_spec (init : Baseline) c (hold : string) (t : Z) :
  clearing_inv init c ->
  exists st c', Clearing_release_hold tid c hold t = Ret (st, c') /\ clearing_inv init c' /\
    (st <> kApplied -> c' = c) /\ cs_settled_trade_ids c' = cs_settled_trade_ids c /\
    (st = kApplied -> exists h s, cs_holds c !! hold = Some h /\ cs_accounts c !! hr_account_id h = Some s /\
       cs_accounts c' = alter (release_update h) (hr_account_id h) (cs_accounts c) /\
       cs_holds c' = delete hold (cs_holds c)).
Proof using Type*.
  intros I. unfold Clearing_release_hold.
  destruct (cs_holds c !! hold) as [h|] eqn:Eh; [|unchanged c].
  destruct (cs_accounts c !! hr_account_id h) as [s|] eqn:Es; [|unchanged c].
  set (id := hr_account_id h). unfold release_update.
  destruct (hr_asset h) eqn:Ea.
  - destruct (update_and_log init c id (release_quote_update (hr_amount h)) (cs_holds c)
      (mkJournal id hold "release_quote" (hr_amount h) (dopp (hr_amount h)) dzero dzero dzero dzero t)
      I eq_refl (fun s => release_quote_ledger s id hold "release_quote" _ t)) as (c' & E & I' & E1 & E2 & E3).
    change (cs_holds c) with (cs_holds (update_account c id (release_quote_update (hr_amount h)))) in E.
    rewrite set_holds_same in E. rewrite E, bind_ret.
    eexists _, _. split_and!; [done|by apply clearing_inv_holds|done|done|]. intros _. exists h, s.
    rewrite Ea. simpl. by rewrite E2.
  - destruct (update_and_log init c id (release_base_update (hr_amount h)) (cs_holds c)
      (mkJournal id hold "release_base" dzero dzero (hr_amount h) (dopp (hr_amount h)) dzero dzero t)
      I eq_refl (fun s => release_base_ledger s id hold "release_base" _ t)) as (c' & E & I' & E1 & E2 & E3).
    change (cs_holds c) with (cs_holds (update_account c id (release_base_update (hr_amount h)))) in E.
    rewrite set_holds_same in E. rewrite E, bind_ret.
    eexists _, _. split_and!; [done|by apply clearing_inv_holds|done|done|]. intros _. exists h, s.
    rewrite Ea. simpl. by rewrite E2.
Qed.

(** ** Settling *)

(** A covered hold can be consumed; nothing but that hold changes. *)
Lemma consume_spec (holds : gmap string HoldRecord) (hold id : string) (asset : HoldAsset) (amount : double) :
  hold_covers holds hold id asset amount = true ->
  exists holds', consume_hold_amount holds hold amount = Ret holds' /\
    (forall k, k <> hold -> holds' !! k = holds !! k) /\
    (hold = "" -> holds' = holds) /\
    (hold <> "" -> exists h, holds !! hold = Some h /\ hr_account_id h = id /\ hr_asset h = asset /\
       dlt (hr_amount h) amount = false /\
       holds' !! hold = if clearing_is_zero (dsub (hr_amount h) amount) then None
                        else Some (mkHold id asset (dsub (hr_amount h) amount))).
Proof using Type.
  unfold hold_covers, consume_hold_amount. case_bool_decide as He; simpl.
  { intros _. exists holds. by split_and!. }
  destruct (holds !! hold) as [h|] eqn:Eh; [|done]. rewrite !andb_true_iff, negb_true_iff.
  intros [[Hi%bool_decide_eq_true Ha%bool_decide_eq_true] Hl]. simpl.
  destruct (clearing_is_zero _) eqn:Ez; (eexists; split; [reflexivity|]; split_and!; [| |]); try done.
  - intros k Hk. by rewrite lookup_delete_ne.
  - intros _. exists h. rewrite Ez. split_and!; try done. apply lookup_delete_eq.
  - intros k Hk. by rewrite lookup_insert_ne.
  - intros _. exists h. rewrite Ez, Hi, Ha. split_and!; try done. apply lookup_insert_eq.
Qed.

(** The holds of the two sides are different ones, so the second is untouched by
    the first. *)
Lemma covers_after (holds holds' : gmap string HoldRecord) (b s bid sid : string) (x y : double) :
  hold_covers holds b bid kQuote x = true -> hold_covers holds s sid kBase y = true ->
  (forall k, k <> b -> holds' !! k = holds !! k) -> (b = "" -> holds' = holds) ->
  hold_covers holds' s sid kBase y = true.
Proof using Type.
  intros Hb Hs Hk He. destruct (decide (b = "")) as [Hbe|Hbe]; [by rewrite (He Hbe)|].
  unfold hold_covers in *. rewrite bool_decide_eq_false_2 in Hb by done. simpl in Hb. revert Hb Hs.
  case_bool_decide as Hse; [done|]. simpl.
  destruct (decide (s = b)) as [->|Hne]; [|by rewrite Hk].
  destruct (holds !! b) as [h|]; [|done]. rewrite !andb_true_iff, !bool_decide_eq_true.
  intros [[_ Ha] _] [[_ Ha'] _]. congruence.
Qed.

(** What an applied settlement did. *)
Record settled c (fill : TradeFill) (fees : FeeSchedule) (buyer seller : AccountSnapshot) c' : Prop := {
  sd_fresh : tf_trade_id fill ∉ cs_settled_trade_ids c;
  sd_buyer : cs_accounts c !! tf_buyer_account_id fill = Some buyer;
  sd_seller : cs_accounts c !! tf_seller_account_id fill = Some seller;
  sd_valid : has_valid_trade_fill fill = true;
  sd_amounts := calculate_settlement_amounts fill fees seller;
  sd_buyer_frozen : dlt (ac_frozen_quote buyer) (sa_buyer_consumed_quote sd_amounts) = false;
  sd_seller_frozen : dlt (ac_frozen_base seller) (sa_seller_consumed_base sd_amounts) = false;
  sd_buyer_hold : hold_covers (cs_holds c) (tf_buyer_hold_id fill) (tf_buyer_account_id fill) kQuote
    (sa_buyer_consumed_quote sd_amounts) = true;
  sd_seller_hold : hold_covers (cs_holds c) (tf_seller_hold_id fill) (tf_seller_account_id fill) kBase
    (sa_seller_consumed_base sd_amounts) = true;
  sd_accounts : cs_accounts c' = alter (seller_update sd_amounts) (tf_seller_account_id fill)
    (alter (buyer_update sd_amounts (tf_quantity fill)) (tf_buyer_account_id fill) (cs_accounts c));
  sd_holds : (holds ← consume_hold_amount (cs_holds c) (tf_buyer_hold_id fill) (sa_buyer_consumed_quote sd_amounts);
    consume_hold_amount holds (tf_seller_hold_id fill) (sa_seller_consumed_base sd_amounts)) = Ret (cs_holds c');
  sd_ids : cs_settled_trade_ids c' = {[tf_trade_id fill]} ∪ cs_settled_trade_ids c;
  sd_outbox : exists m, ob_id m = tf_trade_id fill /\ ob_state m = kPending /\ cs_outbox c' = cs_outbox c ++ [m]
}.

Lemma outbox_inv_append c c' (m : OutboxMessage) :
  outbox_inv c -> ob_id m ∉ cs_settled_trade_ids c -> cs_outbox c' = cs_outbox c ++ [m] ->
  cs_settled_trade_ids c' = {[ob_id m]} ∪ cs_settled_trade_ids c -> outbox_inv c'.
Proof using Type.
  intros [Hnd Hin] Hm Ho Hs. unfold outbox_inv, outbox_ids in *. rewrite Ho, Hs, map_app. simpl.
  split.
  - apply NoDup_app. split_and!; [done| |apply NoDup_singleton].
    intros x Hx ->%list_elem_of_singleton. by apply Hm, Hin.
  - intros id. rewrite elem_of_app, Hin, list_elem_of_singleton, elem_of_union, elem_of_singleton. tauto.
Qed.

Lemma apply_settlement_spec (init : Baseline) c (fill : TradeFill) (fees : FeeSchedule)
    (buyer seller : AccountSnapshot) :
  clearing_inv init c -> tf_trade_id fill ∉ cs_settled_trade_ids c ->
  let a := calculate_settlement_amounts fill fees seller in
  hold_covers (cs_holds c) (tf_buyer_hold_id fill) (tf_buyer_account_id fill) kQuote
    (sa_buyer_consumed_quote a) = true ->
  hold_covers (cs_holds c) (tf_seller_hold_id fill) (tf_seller_account_id fill) kBase
    (sa_seller_consumed_base a) = true ->
  exists holds c', (holds ← consume_hold_amount (cs_holds c) (tf_buyer_hold_id fill) (sa_buyer_consumed_quote a);
      consume_hold_amount holds (tf_seller_hold_id fill) (sa_seller_consumed_base a)) = Ret holds /\
    apply_settlement tid c fill a =
      Ret (mkSettlement kApplied (sa_notional a) (sa_buyer_fee a) (sa_seller_fee a) (sa_seller_realized_pnl a), c') /\
    clearing_inv init c' /\ cs_holds c' = holds /\
    cs_accounts c' = alter (seller_update a) (tf_seller_account_id fill)
      (alter (buyer_update a (tf_quantity fill)) (tf_buyer_account_id fill) (cs_accounts c)) /\
    cs_settled_trade_ids c' = {[tf_trade_id fill]} ∪ cs_settled_trade_ids c /\
    exists m, ob_id m = tf_trade_id fill /\ ob_state m = kPending /\ cs_outbox c' = cs_outbox c ++ [m].
Proof using Type*.
  intros [J L O] Hnew a Hb Hs.
  destruct (consume_spec _ _ _ _ _ Hb) as (h1 & E1 & Hk1 & He1 & _).
  destruct (consume_spec _ _ _ _ _ (covers_after _ _ _ _ _ _ _ _ Hb Hs Hk1 He1)) as (h2 & E2 & _).
  exists h2. unfold apply_settlement. cbn zeta.
  set (c1 := update_account (update_account c _ _) _ _).
  change (cs_holds c1) with (cs_holds c). rewrite E1, !bind_ret, E2, bind_ret.
  unfold append_settlement_journal. set (c2 := set_holds c1 h2).
  assert (J2 : journal_inv c2) by by apply (journal_inv_books c).
  set (e1 := mkJournal _ _ "spot_trade_buy" _ _ _ _ _ _ _).
  destruct (append_journal_spec c2 e1 J2) as (c3 & -> & J3 & (A3 & B3 & C3 & D3) & Ent3). rewrite bind_ret.
  set (e2 := mkJournal _ _ "spot_trade_sell" _ _ _ _ _ _ _).
  destruct (append_journal_spec c3 e2 J3) as (c4 & -> & J4 & (A4 & B4 & C4 & D4) & Ent4). rewrite bind_ret.
  eexists. split; [done|]. split; [reflexivity|]. simpl. rewrite A4, A3, B4, B3, C4, C3, D4, D3.
  assert (L4 : ledger init (cs_accounts c1) (entries c4)).
  { eapply (ledger_step init (alter (buyer_update a (tf_quantity fill)) (tf_buyer_account_id fill) (cs_accounts c))
      (entries c3) (entries c4) _ (seller_update a) e2).
    - eapply (ledger_step init (cs_accounts c) (entries c) (entries c3) _ _ e1); [done| |apply Ent3].
      ledger_step.
    - ledger_step.
    - apply Ent4. }
  split_and!; try done.
  - split.
    + by apply (journal_inv_books c4).
    + simpl. by rewrite A4, A3.
    + eapply (outbox_inv_append c _ (mkOutboxMessage (tf_trade_id fill) _ _ _)); simpl; rewrite ?D4, ?D3, ?C4, ?C3; done.
  - by eexists (mkOutboxMessage (tf_trade_id fill) _ _ _).
Qed.

Lemma settle_spec (init : Baseline) c (fill : TradeFill) (fees : FeeSchedule) :
  clearing_inv init c ->
  exists r c', Clearing_settle_spot_trade tid c fill fees = Ret (r, c') /\ clearing_inv init c' /\
    (sr_status r <> kApplied -> c' = c) /\
    (tf_trade_id fill ∈ cs_settled_trade_ids c -> r = settlement_status kDuplicate) /\
    (sr_status r = kApplied -> exists buyer seller, settled c fill fees buyer seller c' /\
       let a := calculate_settlement_amounts fill fees seller in
       r = mkSettlement kApplied (sa_notional a) (sa_buyer_fee a) (sa_seller_fee a) (sa_seller_realized_pnl a)) /\
    (sr_status r <> kApplied -> exists st, r = settlement_status st).
Proof using Type*.
  intros I. unfold Clearing_settle_spot_trade.
  case_bool_decide as Hd; [by unchanged c; eexists|].
  destruct (cs_accounts c !! tf_buyer_account_id fill) as [buyer|] eqn:Eb; [|by unchanged c; eexists].
  destruct (cs_accounts c !! tf_seller_account_id fill) as [seller|] eqn:Es; [|by unchanged c; eexists].
  destruct (has_valid_trade_fill fill) eqn:Ev; simpl negb; cbn match; [|by unchanged c; eexists].
  set (a := calculate_settlement_amounts fill fees seller). cbn zeta. unfold validate_balance_coverage.
  destruct (dlt (ac_frozen_quote buyer) _) eqn:Ebf; [by unchanged c; eexists|].
  destruct (dlt (ac_frozen_base seller) _) eqn:Esf; [by unchanged c; eexists|]. cbn [negb settlement_ok].
  unfold validate_hold_coverage.
  destruct (hold_covers _ (tf_buyer_hold_id fill) _ _ _) eqn:Ebh; [|by unchanged c; eexists].
  destruct (hold_covers _ (tf_seller_hold_id fill) _ _ _) eqn:Esh; [|by unchanged c; eexists]. simpl negb. cbn match.
  destruct (apply_settlement_spec init c fill fees buyer seller I Hd Ebh Esh)
    as (h & c' & Eh & Ea & I' & <- & Hacc & Hids & Hm).
  eexists _, c'. split_and!; [exact Ea|done|done|done| |done]. intros _. exists buyer, seller. by split.
Qed.
End Journal.
