(* ===== verification/ClearingTheorems.v ===== *)
(** * Account clearing: theorems

    Sequences of calls of the clearing system, the invariants they keep on a
    tick grid, and the properties. *)

From S2P Require Import Prelude Double Allocator Pool Outbox Clearing ClearingProofs.

Local Open Scope Z_scope.

(** ** Sequences of calls *)

Inductive clearing_op :=
| ClFreeze (asset : HoldAsset) (account_id hold_id : string) (amount : double) (timestamp_ms : Z)
| ClRelease (hold_id : string) (timestamp_ms : Z)
| ClSettle (fill : TradeFill) (fees : FeeSchedule)
| ClDispatch (message_id : string).

Section Runs.
Context {A : Type} `{BlockAllocator A} (tid : Z).

(** A call's result; the amounts are those of a settlement. *)
Definition clearing_step (c : AccountClearingSystem A) (op : clearing_op)
    : outcome (SettlementResult * AccountClearingSystem A) :=
  match op with
  | ClFreeze asset id hold amount t =>
    '(st, c) ← freeze tid asset c id hold amount t; Ret (settlement_status st, c)
  | ClRelease hold t => '(st, c) ← Clearing_release_hold tid c hold t; Ret (settlement_status st, c)
  | ClSettle fill fees => Clearing_settle_spot_trade tid c fill fees
  | ClDispatch id =>
    let '(st, c) := Clearing_mark_outbox_dispatched c id in Ret (settlement_status st, c)
  end.

Fixpoint clearing_run (c : AccountClearingSystem A) (ops : list clearing_op)
    : outcome (list SettlementResult * AccountClearingSystem A) :=
  match ops with
  | [] => Ret ([], c)
  | op :: ops =>
    '(r, c) ← clearing_step c op;
    '(rs, c) ← clearing_run c ops;
    Ret (r :: rs, c)
  end.

(** The calls of the whole interface: [upsert_account] replaces an account's
    snapshot and writes no journal entry. *)
Inductive ledger_op :=
| LgUpsert (account_id : string) (snapshot : AccountSnapshot)
| LgCall (op : clearing_op).

Definition ledger_exec (c : AccountClearingSystem A) (op : ledger_op) : outcome (AccountClearingSystem A) :=
  match op with
  | LgUpsert id s => Ret (Clearing_upsert_account c id s)
  | LgCall op => '(_, c) ← clearing_step c op; Ret c
  end.

Fixpoint ledger_run (c : AccountClearingSystem A) (ops : list ledger_op) : outcome (AccountClearingSystem A) :=
  match ops with
  | [] => Ret c
  | op :: ops => c ← ledger_exec c op; ledger_run c ops
  end.

(** The accounts a sequence of calls registers. *)
Definition upserted (op : ledger_op) : option string :=
  match op with LgUpsert id _ => Some id | LgCall _ => None end.
Definition registered (ops : list ledger_op) : list string := omap upserted ops.

(** A system with the accounts of [init], each added by [upsert_account]. *)
Definition clearing_setup (storage : A) (init : list (string * AccountSnapshot)) : AccountClearingSystem A :=
  foldl (fun c '(id, s) => Clearing_upsert_account c id s) (Clearing_new storage) init.

(** The accounts of [init]; a later snapshot replaces an earlier one. *)
Definition init_accounts (init : list (string * AccountSnapshot)) : gmap string AccountSnapshot :=
  foldl (fun m '(id, s) => <[id := s]> m) ∅ init.
End Runs.

Section Steps.
Context {A : Type} `{BlockAllocatorLaws A} (tid : Z).

Implicit Types c : AccountClearingSystem A.

Lemma setup_accounts (storage : A) (init : list (string * AccountSnapshot)) :
  clearing_setup storage init = set_accounts (Clearing_new storage) (init_accounts init).
Proof using Type.
  unfold clearing_setup, init_accounts.
  change (Clearing_new storage) with (set_accounts (Clearing_new storage) ∅) at 1.
  generalize (∅ : gmap string AccountSnapshot). induction init as [|[id s] init IH]; intros m; [done|].
  simpl. rewrite <- IH. done.
Qed.

Lemma setup_inv (storage : A) (init : list (string * AccountSnapshot)) :
  outstanding storage ∅ -> clearing_inv (from_start (init_accounts init)) (clearing_setup storage init).
Proof using Type.
  intros Ho. rewrite setup_accounts. split.
  - split; simpl.
    + unfold object_pool_wf. simpl. by rewrite dom_empty_L.
    + constructor.
    + intros b. unfold objects. simpl. rewrite lookup_empty. split; [by intros []|].
      by intros ?%not_elem_of_nil.
    + intros id l. by rewrite lookup_empty.
  - intros id. split; [simpl; lia|]. simpl. unfold entries. simpl. rewrite lookup_empty. simpl.
    destruct (init_accounts init !! id); [reflexivity|done].
  - split; simpl; [constructor|]. intros id. split; [by intros ?%not_elem_of_nil|set_solver].
Qed.

Lemma mark_not_found (s : OutboxStore) (id : string) :
  (Outbox_mark_dispatched s id).1 = false -> (Outbox_mark_dispatched s id).2 = s.
Proof using Type.
  induction s as [|m s IH]; simpl; [done|]. destruct (String.eqb _ _); [done|].
  destruct (Outbox_mark_dispatched s id) as [f s']; simpl in *. intros ->. by rewrite IH.
Qed.

Lemma dispatch_spec (init : Baseline) c (id : string) :
  clearing_inv init c ->
  clearing_inv init (Clearing_mark_outbox_dispatched c id).2 /\
  ((Clearing_mark_outbox_dispatched c id).1 <> kApplied -> (Clearing_mark_outbox_dispatched c id).2 = c) /\
  cs_settled_trade_ids (Clearing_mark_outbox_dispatched c id).2 = cs_settled_trade_ids c /\
  cs_accounts (Clearing_mark_outbox_dispatched c id).2 = cs_accounts c /\
  cs_holds (Clearing_mark_outbox_dispatched c id).2 = cs_holds c.
Proof using Type.
  intros [J L [Hnd Hin]]. unfold Clearing_mark_outbox_dispatched.
  pose proof (mark_dispatched_ids (cs_outbox c) id) as Hids.
  pose proof (mark_not_found (cs_outbox c) id) as Hnf.
  destruct (Outbox_mark_dispatched (cs_outbox c) id) as [found o]. simpl in *. split_and!; try done.
  - split; [by apply (journal_inv_books c)|done|]. unfold outbox_inv. simpl. by rewrite Hids.
  - destruct found; [done|]. intros _. rewrite Hnf by done. by destruct c.
Qed.

(** Every call returns, keeps the invariant, and changes nothing unless it
    reports [kApplied]. *)
Lemma clearing_step_spec (init : Baseline) c (op : clearing_op) :
  clearing_inv init c ->
  exists r c', clearing_step tid c op = Ret (r, c') /\ clearing_inv init c' /\
    (sr_status r <> kApplied -> c' = c) /\
    cs_settled_trade_ids c ⊆ cs_settled_trade_ids c'.
Proof using Type*.
  intros I. destruct op as [asset id hold amount t|hold t|fill fees|id]; unfold clearing_step.
  - destruct (freeze_spec tid init c asset id hold amount t I) as (st & c' & -> & I' & Hs & Ids & _).
    rewrite bind_ret. eexists _, c'. by split_and!; [| | |rewrite Ids].
  - destruct (release_spec tid init c hold t I) as (st & c' & -> & I' & Hs & Ids & _).
    rewrite bind_ret. eexists _, c'. by split_and!; [| | |rewrite Ids].
  - destruct (settle_spec tid init c fill fees I) as (r & c' & -> & I' & Hs & _ & Ha & _).
    exists r, c'. split_and!; try done.
    destruct (decide (sr_status r = kApplied)) as [Hr|Hr]; [|by rewrite Hs].
    destruct (Ha Hr) as (? & ? & [] & _). set_solver.
  - destruct (dispatch_spec init c id I) as (I' & Hs & Ids & _).
    destruct (Clearing_mark_outbox_dispatched c id) as [st c']. simpl in *.
    eexists _, c'. by split_and!; [| | |rewrite Ids].
Qed.

Lemma clearing_run_settled (init : Baseline) (ops : list clearing_op) : forall c,
  clearing_inv init c ->
  exists rs c', clearing_run tid c ops = Ret (rs, c') /\ clearing_inv init c' /\
    cs_settled_trade_ids c ⊆ cs_settled_trade_ids c'.
Proof using Type*.
  induction ops as [|op ops IH]; intros c I; simpl; [by exists [], c|].
  destruct (clearing_step_spec init c op I) as (r & c1 & -> & I1 & _ & S1). rewrite bind_ret.
  destruct (IH c1 I1) as (rs & c2 & -> & I2 & S2). rewrite bind_ret. exists (r :: rs), c2.
  split_and!; [done|done|]. by etransitivity.
Qed.

Lemma clearing_run_spec (init : Baseline) (ops : list clearing_op) : forall c,
  clearing_inv init c ->
  exists rs c', clearing_run tid c ops = Ret (rs, c') /\ clearing_inv init c'.
Proof using Type*.
  intros c I. destruct (clearing_run_settled init ops c I) as (rs & c' & E & I' & _). by exists rs, c'.
Qed.

(** Registering accounts in between moves the start of their ledgers only. *)
Lemma ledger_exec_spec (base : Baseline) c (op : ledger_op) :
  clearing_inv base c ->
  exists c' base', ledger_exec tid c op = Ret c' /\ clearing_inv base' c' /\
    forall id, (Some id <> upserted op -> bl_accounts base' !! id = bl_accounts base !! id /\
                  bl_from base' id = bl_from base id) /\
      (Some id = upserted op -> is_Some (bl_accounts base' !! id)).
Proof using Type*.
  intros I. destruct op as [id s|op]; simpl.
  - eexists _, (rebase base c id s). split; [done|]. split; [by apply upsert_inv|].
    intros i. simpl. split.
    + intros Hne. rewrite lookup_insert_ne, decide_False by congruence. done.
    + intros [= ->]. by rewrite lookup_insert_eq.
  - destruct (clearing_step_spec base c op I) as (r & c' & -> & I' & _). rewrite bind_ret.
    by exists c', base.
Qed.

Lemma ledger_run_spec (ops : list ledger_op) : forall (base : Baseline) c,
  clearing_inv base c ->
  exists c' base', ledger_run tid c ops = Ret c' /\ clearing_inv base' c' /\
    forall id, (id ∉ registered ops -> bl_accounts base' !! id = bl_accounts base !! id /\
                  bl_from base' id = bl_from base id) /\
      (is_Some (bl_accounts base' !! id) <-> is_Some (bl_accounts base !! id) \/ id ∈ registered ops).
Proof using Type*.
  induction ops as [|op ops IH]; intros base c I; simpl.
  { exists c, base. split_and!; [done|done|]. intros id. split; [done|]. rewrite elem_of_nil. tauto. }
  destruct (ledger_exec_spec base c op I) as (c1 & base1 & -> & I1 & H1). rewrite bind_ret.
  destruct (IH base1 c1 I1) as (c2 & base2 & -> & I2 & H2). exists c2, base2. split_and!; [done|done|].
  intros id. destruct (H1 id) as [Ha Hb], (H2 id) as [Hc Hd]. unfold registered in *. simpl.
  destruct (upserted op) as [i|] eqn:Eu; simpl.
  - rewrite !elem_of_cons, Hd. split.
    + intros Hn. destruct Hc as [-> ->]; [tauto|]. apply Ha. intros [= ->]. tauto.
    + destruct (decide (id = i)) as [->|Hne]; [specialize (Hb eq_refl); tauto|].
      destruct Ha as [-> _]; [congruence|tauto].
  - destruct Ha as [Ha1 Ha2]; [done|]. rewrite Hd, <- Ha1, <- Ha2. split; [exact Hc|done].
Qed.

Lemma ledger_run_app (before after : list ledger_op) : forall c,
  ledger_run tid c (before ++ after) = (c ← ledger_run tid c before; ledger_run tid c after).
Proof using Type.
  induction before as [|op before IH]; intros c; simpl; [done|].
  destruct (ledger_exec tid c op); simpl; [apply IH|done..].
Qed.

(** The journal since an account was last registered leads to its snapshot. *)
Lemma ledger_since (base : Baseline) c (before after : list ledger_op) (id : string) (s : AccountSnapshot) :
  clearing_inv base c -> id ∉ registered after ->
  exists c0 c1 s', ledger_run tid c before = Ret c0 /\
    ledger_run tid c (before ++ LgUpsert id s :: after) = Ret c1 /\
    Clearing_account c1 id = Some s' /\ (length (entries c0 id) <= length (entries c1 id))%nat /\
    s' ≈s foldl apply_entry s (drop (length (entries c0 id)) (entries c1 id)).
Proof using Type*.
  intros I Hn. rewrite ledger_run_app.
  destruct (ledger_run_spec before base c I) as (c0 & base0 & -> & I0 & _). rewrite bind_ret. simpl.
  destruct (ledger_run_spec after _ _ (upsert_inv base0 c0 id s I0)) as (c1 & base1 & -> & I1 & H1).
  destruct (H1 id) as [Hb _]. destruct (Hb Hn) as [Ha Hf]. simpl in Ha, Hf.
  rewrite lookup_insert_eq in Ha. rewrite decide_True in Hf by done.
  destruct (cv_ledger _ _ I1 id) as [Hlen HL]. rewrite Ha, Hf in *.
  unfold Clearing_account. destruct (cs_accounts c1 !! id) as [s'|] eqn:Es; [|done]. by exists c0, c1, s'.
Qed.
End Steps.

(** ** Exact balances on a tick grid *)










Section Grid.
Context (k : Z) (Hk : 0 <= k <= 2044) (init : gmap string AccountSnapshot).

Abbreviation bound := (2 ^ 53 * 2 ^ k).






(** ** What opening, dropping and shrinking a hold does to the totals *)







(** ** Settling *)


Context (Heps : val eps < 2 ^ k).






Section System.
Context {A : Type} `{BlockAllocatorLaws A} (tid : Z).

Implicit Types c : AccountClearingSystem A.






End System.

End Grid.

(** ** Properties *)

(** C8. From a new system, every sequence of calls, registrations of accounts in
    between included, returns, and the journal is a complete ledger: exactly the
    registered accounts exist, and replaying the entries an account's journal got
    since the account was last registered, from the snapshot registered then, gives
    its current balances, cost and profit, bit for bit up to the sign of zero. The
    registration itself is the one change of balances that is not in the journal.
    The destructor then frees every entry. *)
Theorem clearing_ledger_complete {A : Type} `{BlockAllocatorLaws A} (tid : Z) (storage : A)
    (ops : list ledger_op) :
  outstanding storage ∅ ->
  exists c, ledger_run tid (Clearing_new storage) ops = Ret c /\
    (forall id, is_Some (Clearing_account c id) <-> id ∈ registered ops) /\
    (forall before id s after, ops = before ++ LgUpsert id s :: after -> id ∉ registered after ->
       exists c0 recorded_before recorded s', ledger_run tid (Clearing_new storage) before = Ret c0 /\
         Clearing_journal c0 id = Ret recorded_before /\ Clearing_journal c id = Ret recorded /\
         (length recorded_before <= length recorded)%nat /\ Clearing_account c id = Some s' /\
         s' ≈s foldl apply_entry s (drop (length recorded_before) recorded)) /\
    exists pool, Clearing_destruct tid c = Ret pool /\ op_objects pool = ∅.
Proof.
  intros Ho. pose proof (setup_inv storage [] Ho) as I.
  destruct (ledger_run_spec tid ops _ _ I) as (c & base & E & I' & HB). change (clearing_setup storage []) with (Clearing_new storage) in *.
  exists c. split; [done|]. split_and!.
  - intros id. destruct (HB id) as [_ Hd]. pose proof (cv_ledger _ _ I' id) as [_ HL].
    unfold Clearing_account. transitivity (is_Some (bl_accounts base !! id)).
    + destruct (bl_accounts base !! id), (cs_accounts c !! id); try done; by split; intros [].
    + rewrite Hd. split; [|by right]. intros [[x Hx]|]; [|done]. by apply (lookup_empty_Some (M := gmap string) id x) in Hx.
  - intros before id s after -> Hn.
    destruct (ledger_since tid _ _ before after id s I Hn) as (c0 & c1 & s' & E0 & E1 & Hs & Hlen & Hr).
    rewrite E in E1. injection E1 as <-.
    destruct (ledger_run_spec tid before _ _ I) as (c0' & base0 & E0' & I0 & _).
    rewrite E0 in E0'. injection E0' as <-.
    exists c0, (entries c0 id), (entries c id), s'.
    split_and!; try done; apply journal_reads; [apply I0|apply I'].
  - destruct I' as [J _ _]. destruct (destroy_entries_spec tid (cs_journal_storage c) (cs_journal_pool c))
      as (pool & Ep & _ & Hp); [apply J|apply J|apply (ji_live c J)|]. by exists pool.
Qed.

Definition trader (quote base : Z) : AccountSnapshot :=
  mkAccount (double_of_Z quote) dzero (double_of_Z base) dzero dzero dzero.

Definition sample_accounts : list (string * AccountSnapshot) :=
  [("alice", trader 5000 0); ("bob", trader 0 10)].

Definition sample_fees : FeeSchedule := mkFees (double_of_Z 5) (double_of_Z 10).

Definition sample_fill (id buyer_hold seller_hold : string) : TradeFill :=
  mkFill id "BTC" "alice" "bob" buyer_hold seller_hold (double_of_Z 200) (double_of_Z 10) true 3.

(** Alice buys ten units at 200 and pays ten basis points; a later release returns
    what she had reserved beyond that. *)
Definition sample_trading : list clearing_op :=
  [ClFreeze kQuote "alice" "bid" (double_of_Z 3000) 1; ClFreeze kBase "bob" "ask" (double_of_Z 10) 2;
   ClSettle (sample_fill "t1" "bid" "ask") sample_fees; ClSettle (sample_fill "t1" "bid" "ask") sample_fees;
   ClDispatch "t1"; ClRelease "bid" 4; ClRelease "ask" 5].

(** Two accounts, the trading, and alice registered anew with other balances. *)
Definition sample_before : list ledger_op :=
  map (fun '(id, s) => LgUpsert id s) sample_accounts ++ map LgCall sample_trading.
Definition sample_after : list ledger_op := [LgCall (ClFreeze kQuote "alice" "bid2" (double_of_Z 100) 6)].
Definition sample_ledger : list ledger_op := sample_before ++ LgUpsert "alice" (trader 700 0) :: sample_after.

(** What a returning computation gives. *)
Definition returned {X} (o : outcome X) : option X := match o with Ret x => Some x | _ => None end.

Lemma clearing_ledger_complete_witness :
  exists c recorded, ledger_run 0 (Clearing_new sample_storage) sample_ledger = Ret c /\
    Clearing_journal c "alice" = Ret recorded /\ length recorded = 4%nat /\
    exists s', Clearing_account c "alice" = Some s' /\
      s' ≈s foldl apply_entry (trader 700 0) (drop 3 recorded).
Proof.
  destruct (clearing_ledger_complete 0 sample_storage sample_ledger sample_storage_ok) as (c & E & _ & HS & _).
  destruct (HS sample_before "alice" (trader 700 0) sample_after eq_refl)
    as (c0 & old & recorded & s' & E0 & Ej0 & Ej & _ & Hs & Hr).
  { vm_compute. intros H. inversion H. }
  assert (H0 : ledger_run 0 (Clearing_new sample_storage) sample_before = Ret c0 ->
    (length <$> returned (Clearing_journal c0 "alice")) = Some 3%nat).
  { vm_compute. intros [= <-]. reflexivity. }
  assert (H1 : ledger_run 0 (Clearing_new sample_storage) sample_ledger = Ret c ->
    (length <$> returned (Clearing_journal c "alice")) = Some 4%nat).
  { vm_compute. intros [= <-]. reflexivity. }
  specialize (H0 E0). specialize (H1 E). rewrite Ej0 in H0. rewrite Ej in H1. simpl in H0, H1.
  injection H0 as H0. injection H1 as H1. rewrite H0 in Hr.
  exists c, recorded. split; [exact E|]. split; [exact Ej|]. split; [exact H1|]. exists s'. split; [exact Hs|exact Hr].
Defined.

(** Registering an account again leaves no trace in the journal: replaying all
    of it from the first snapshot misses the change. *)
Fact clearing_upsert_unjournalled :
  let c := ledger_run 0 (Clearing_new sample_storage)
    [LgUpsert "alice" (trader 5000 0); LgUpsert "alice" (trader 700 0)] in
  (c ← c; Clearing_journal c "alice") = Ret [] /\
  (c ← c; Ret (ac_available_quote <$> Clearing_account c "alice")) = Ret (Some (double_of_Z 700)).
Proof. vm_compute. split; reflexivity. Qed.

(** The results and the final system of a run known to return. *)
Definition sample_run (ops : list clearing_op) : list SettlementResult * AccountClearingSystem FixedBlockPool :=
  match clearing_run 0 (clearing_setup sample_storage sample_accounts) ops with
  | Ret x => x
  | _ => ([], Clearing_new sample_storage)
  end.

Lemma sample_run_eq (ops : list clearing_op) :
  clearing_run 0 (clearing_setup sample_storage sample_accounts) ops =
  Ret ((sample_run ops).1, (sample_run ops).2).
Proof.
  unfold sample_run.
  destruct (clearing_run_spec 0 _ ops _ (setup_inv sample_storage sample_accounts sample_storage_ok))
    as (rs & c & -> & _). done.
Qed.

(** C10. Every call on a system that any sequence of calls produced returns, and
    unless it reports [kApplied] it leaves the whole system, balances, holds,
    journal and outbox, exactly as it was. *)
Theorem clearing_atomic {A : Type} `{BlockAllocatorLaws A} (tid : Z) (storage : A)
    (init : list (string * AccountSnapshot)) (ops : list clearing_op) (op : clearing_op)
    (rs : list SettlementResult) (c : AccountClearingSystem A) :
  outstanding storage ∅ -> clearing_run tid (clearing_setup storage init) ops = Ret (rs, c) ->
  exists r c', clearing_step tid c op = Ret (r, c') /\ (sr_status r <> kApplied -> c' = c).
Proof.
  intros Ho E. destruct (clearing_run_spec tid _ ops _ (setup_inv storage init Ho)) as (rs' & c0 & E' & I).
  rewrite E' in E. injection E as <- <-.
  destruct (clearing_step_spec tid _ c0 op I) as (r & c' & Es & _ & Hs & _). by exists r, c'.
Qed.

Lemma clearing_atomic_witness :
  exists r, clearing_step 0 (sample_run sample_trading).2 (ClFreeze kBase "alice" "ask" (double_of_Z 11) 6) =
    Ret (r, (sample_run sample_trading).2) /\ sr_status r = kInsufficientBasePosition.
Proof.
  destruct (clearing_atomic 0 sample_storage sample_accounts sample_trading
    (ClFreeze kBase "alice" "ask" (double_of_Z 11) 6) _ _ sample_storage_ok (sample_run_eq sample_trading))
    as (r & c' & E & Hs).
  assert (Hr : forall x, clearing_step 0 (sample_run sample_trading).2
      (ClFreeze kBase "alice" "ask" (double_of_Z 11) 6) = Ret x -> sr_status x.1 = kInsufficientBasePosition).
  { intros x. vm_compute. by intros [= <-]. }
  specialize (Hr _ E). simpl in Hr. exists r. split; [|exact Hr]. rewrite E. rewrite Hs; [done|].
  by rewrite Hr.
Defined.

(** C9. A settled trade is settled once: after a settlement applied, and whatever
    calls follow, settling the same trade id again, even with other contents, is
    reported as a duplicate that counts as success and changes nothing; the outbox
    carries exactly one message for the trade. *)
Theorem clearing_settles_once {A : Type} `{BlockAllocatorLaws A} (tid : Z) (storage : A)
    (init : list (string * AccountSnapshot)) (before after : list clearing_op)
    (fill fill' : TradeFill) (fees fees' : FeeSchedule) (rs rs' : list SettlementResult)
    (r : SettlementResult) (c c1 c2 : AccountClearingSystem A) :
  outstanding storage ∅ -> clearing_run tid (clearing_setup storage init) before = Ret (rs, c) ->
  Clearing_settle_spot_trade tid c fill fees = Ret (r, c1) -> sr_status r = kApplied ->
  clearing_run tid c1 after = Ret (rs', c2) -> tf_trade_id fill' = tf_trade_id fill ->
  Clearing_settle_spot_trade tid c2 fill' fees' = Ret (settlement_status kDuplicate, c2) /\
  settlement_ok (settlement_status kDuplicate) = true /\
  length (List.filter (String.eqb (tf_trade_id fill)) (outbox_ids (cs_outbox c2))) = 1%nat.
Proof.
  intros Ho E Es Hr E2 Ht. destruct (clearing_run_spec tid _ before _ (setup_inv storage init Ho)) as (? & ? & E' & I).
  rewrite E' in E. injection E as -> ->.
  destruct (settle_spec tid _ c fill fees I) as (r' & c1' & Es' & I1 & _ & _ & Ha & _).
  rewrite Es' in Es. injection Es as -> ->. destruct (Ha Hr) as (buyer & seller & S & _).
  assert (Hin : tf_trade_id fill ∈ cs_settled_trade_ids c1) by (rewrite (sd_ids _ _ _ _ _ _ S); set_solver).
  destruct (clearing_run_settled tid _ after c1 I1) as (rs2 & c2' & E2' & I2 & Hsub).
  rewrite E2' in E2. injection E2 as -> ->. specialize (Hsub _ Hin).
  split; [|split; [done|]].
  - destruct (settle_spec tid _ c2 fill' fees' I2) as (r2 & c3 & -> & _ & Hs & Hd & _).
    rewrite Ht in Hd. rewrite (Hd Hsub) in *. by rewrite Hs.
  - destruct (cv_outbox _ _ I2) as [Hnd Hids]. by apply NoDup_filter_one; [|apply Hids].
Qed.

Lemma clearing_settles_once_witness :
  let c := (sample_run (take 2 sample_trading)).2 in
  exists c1 rs' c2, clearing_run 0 c1 [ClDispatch "t1"; ClRelease "bid" 4] = Ret (rs', c2) /\
    Clearing_settle_spot_trade 0 c2 (sample_fill "t1" "" "") sample_fees = Ret (settlement_status kDuplicate, c2).
Proof.
  intros c.
  destruct (Clearing_settle_spot_trade 0 c (sample_fill "t1" "bid" "ask") sample_fees) as [[r c1]|w|w] eqn:E1;
    [|by vm_compute in E1..].
  assert (Hr : sr_status r = kApplied) by (vm_compute in E1; injection E1 as <- <-; reflexivity).
  destruct (clearing_run 0 c1 [ClDispatch "t1"; ClRelease "bid" 4]) as [[rs' c2]|w|w] eqn:E2;
    [|vm_compute in E1; injection E1 as <- <-; by vm_compute in E2..].
  exists c1, rs', c2. split; [exact E2|].
  refine (proj1 (clearing_settles_once 0 sample_storage sample_accounts (take 2 sample_trading)
    [ClDispatch "t1"; ClRelease "bid" 4] (sample_fill "t1" "bid" "ask") (sample_fill "t1" "" "")
    sample_fees sample_fees _ rs' r c c1 c2 sample_storage_ok (sample_run_eq (take 2 sample_trading)) E1 Hr E2 _)).
  reflexivity.
Defined.




(** A hold that a settlement does not name is not consumed: alice reserves
    3000, buys for 2002 without naming the hold, and releases it, which leaves her
    frozen balance at -2002 and her available balance as if she had not paid;
    [reconcile_account] reports it. *)
Fact clearing_unnamed_hold :
  let c := (sample_run [ClFreeze kQuote "alice" "bid" (double_of_Z 3000) 1;
    ClFreeze kBase "bob" "ask" (double_of_Z 10) 2; ClSettle (sample_fill "t1" "" "") sample_fees;
    ClRelease "bid" 4]).2 in
  (ac_available_quote <$> Clearing_account c "alice") = Some (double_of_Z 5000) /\
  (ac_frozen_quote <$> Clearing_account c "alice") = Some (double_of_Z (-2002)) /\
  Clearing_reconcile_account c "alice" = false.
Proof. vm_compute. split_and!; reflexivity. Qed.

(** Selling a whole position of 7 that cost 29 releases one ulp more than the
    cost, after which the account no longer reconciles. *)
Fact clearing_cost_rounding :
  let sell := mkFill "t1" "BTC" "alice" "bob" "bid" "ask" (double_of_Z 5) (double_of_Z 7) true 3 in
  let bob := mkAccount dzero dzero (double_of_Z 7) dzero (double_of_Z 29) dzero in
  exists rs c, clearing_run 0 (clearing_setup sample_storage [("alice", trader 5000 0); ("bob", bob)])
      [ClFreeze kQuote "alice" "bid" (double_of_Z 100) 1; ClFreeze kBase "bob" "ask" (double_of_Z 7) 2;
       ClSettle sell sample_fees] = Ret (rs, c) /\
    map sr_status rs = [kApplied; kApplied; kApplied] /\ Clearing_reconcile_account c "bob" = false.
Proof. eexists _, _. split; [vm_compute; reflexivity|]. vm_compute. by split. Qed.

(** A NaN amount passes every guard of [freeze_quote] and makes both quote
    balances NaN. *)
Fact clearing_nan_freeze :
  let '(rs, c) := sample_run [ClFreeze kQuote "alice" "bid" SpecFloat.S754_nan 1] in
  map sr_status rs = [kApplied] /\ (ac_available_quote <$> Clearing_account c "alice") = Some SpecFloat.S754_nan.
Proof. vm_compute. by split. Qed.
