(* ===== verification/Risk.v ===== *)
(** * Pre-trade risk engine: data and operations
    ([core-exchange/pre-trade-risk-engine])

    Every order passes a chain of rules before it reaches matching: shape, known
    symbol, quantity and notional limits, price band around the reference price of
    a depth book, balances, a sliding request limit per user and IP, and self-trade
    prevention. Every decision goes through the audit queue into the audit log; the
    queue is any [QueueOps]. *)

From S2P Require Import Prelude Double MarketTypes DepthBook Queue RateWindow.

Local Open Scope Z_scope.

Inductive RiskSide := kRiskBuy | kRiskSell.
#[export] Instance RiskSide_eq_dec : EqDecision RiskSide.
Proof. solve_decision. Defined.

Inductive RiskOrderType := kRiskLimit | kRiskMarket.
#[export] Instance RiskOrderType_eq_dec : EqDecision RiskOrderType.
Proof. solve_decision. Defined.

Inductive RiskRejectReason :=
| kRiskNone
| kInvalidRequest
| kUnknownSymbol
| kPriceBandExceeded
| kQuantityLimitExceeded
| kNotionalLimitExceeded
| kInsufficientBalance
| kInsufficientPosition
| kRateLimited
| kSelfTradePrevented.
#[export] Instance RiskRejectReason_eq_dec : EqDecision RiskRejectReason.
Proof. solve_decision. Defined.

Record RiskOrderRequest := mkRiskRequest {
  kr_order_id : string;
  kr_user_id : string;
  kr_symbol : string;
  kr_source_ip : string;
  kr_side : RiskSide;
  kr_type : RiskOrderType;
  kr_price : double;
  kr_quantity : double;
  kr_timestamp_ms : Z
}.

Record MarketRiskConfig := mkRiskConfig {
  rc_symbol : string;
  rc_max_order_quantity : double;
  rc_max_order_notional : double;
  rc_max_price_deviation_ratio : double;
  rc_max_requests_per_window : Z;
  rc_rate_limit_window_ms : Z;
  rc_enable_self_trade_prevention : bool
}.

Record AccountRiskState := mkAccountRisk {
  ar_quote_balance : double;
  ar_base_position : double
}.

Record RiskRestingView := mkRiskResting {
  rv_user_id : string;
  rv_side : RiskSide;
  rv_price : double;
  rv_quantity : double
}.

Record RiskDecision := mkDecision {
  rd_accepted : bool;
  rd_reject_reason : RiskRejectReason;
  rd_rule_name : string;
  rd_order_id : string;
  rd_user_id : string;
  rd_symbol : string;
  rd_reference_price : double;
  rd_estimated_notional : double;
  rd_timestamp_ms : Z
}.

Record MarketState := mkMarketState {
  ms_config : MarketRiskConfig;
  ms_book : DepthBook;
  ms_best_bid : option double;
  ms_best_ask : option double
}.

Definition MarketState_new (config : MarketRiskConfig) : MarketState :=
  mkMarketState config (DepthBook_new (rc_symbol config)) None None.

Definition account_key (user_id symbol : string) : string := user_id +:+ "|" +:+ symbol.

(** [std::optional<double>] as the quantity-zero update that removes it. *)
Definition remove_level (side : MarketSide) (price : option double) (book : DepthBook) : DepthBook :=
  match price with
  | Some p => (DepthBook_update book side p dzero).2
  | None => book
  end.

Definition set_top (m : MarketState) (best_bid best_ask : double) : MarketState :=
  let book := remove_level kBid (ms_best_bid m) (ms_book m) in
  let book := remove_level kAsk (ms_best_ask m) book in
  let book := (DepthBook_update book kBid best_bid done_).2 in
  let book := (DepthBook_update book kAsk best_ask done_).2 in
  mkMarketState (ms_config m) book (Some best_bid) (Some best_ask).

Definition reference_price (m : MarketState) (request : RiskOrderRequest) : double :=
  let snapshot := DepthBook_snapshot (ms_book m) 1 in
  match ds_bids snapshot, ds_asks snapshot with
  | bid :: _, ask :: _ => ddiv (dadd (bl_price bid) (bl_price ask)) (double_of_Z 2)
  | bids, asks =>
    if bool_decide (kr_type request = kRiskLimit) && dgt (kr_price request) dzero
    then kr_price request
    else match bids with
    | bid :: _ => bl_price bid
    | [] => match asks with
      | ask :: _ => bl_price ask
      | [] => dzero
      end
    end
  end.

Definition crosses_own (request : RiskOrderRequest) (o : RiskRestingView) : bool :=
  if negb (bool_decide (rv_user_id o = kr_user_id request)) || dle (rv_quantity o) dzero ||
     bool_decide (rv_side o = kr_side request)
  then false
  else match kr_type request with
  | kRiskMarket => true
  | kRiskLimit => match kr_side request with
    | kRiskBuy => dge (kr_price request) (rv_price o)
    | kRiskSell => dle (kr_price request) (rv_price o)
    end
  end.

Definition would_self_trade (request : RiskOrderRequest) (resting_orders : list RiskRestingView) : bool :=
  existsb (crosses_own request) resting_orders.

Section Risk.
Context {Q : Type} `{QueueOps Q RiskDecision}.

Record PreTradeRiskEngine := mkRiskEngine {
  re_markets : gmap string MarketState;
  re_accounts : gmap string AccountRiskState;
  re_resting_orders : gmap string (list RiskRestingView);
  re_request_windows : gmap string (list Z);
  re_audit_queue : Q;
  re_audit_history : list RiskDecision
}.

Definition RiskEngine_new (audit_queue : Q) : PreTradeRiskEngine :=
  mkRiskEngine ∅ ∅ ∅ ∅ audit_queue [].

Definition set_markets (e : PreTradeRiskEngine) (m : gmap string MarketState) : PreTradeRiskEngine :=
  mkRiskEngine m (re_accounts e) (re_resting_orders e) (re_request_windows e) (re_audit_queue e)
    (re_audit_history e).
Definition set_resting (e : PreTradeRiskEngine) (m : gmap string (list RiskRestingView)) : PreTradeRiskEngine :=
  mkRiskEngine (re_markets e) (re_accounts e) m (re_request_windows e) (re_audit_queue e)
    (re_audit_history e).
Definition set_windows (e : PreTradeRiskEngine) (m : gmap string (list Z)) : PreTradeRiskEngine :=
  mkRiskEngine (re_markets e) (re_accounts e) (re_resting_orders e) m (re_audit_queue e)
    (re_audit_history e).
Definition set_audit (e : PreTradeRiskEngine) (q : Q) (h : list RiskDecision) : PreTradeRiskEngine :=
  mkRiskEngine (re_markets e) (re_accounts e) (re_resting_orders e) (re_request_windows e) q h.

Definition Risk_configure_market (e : PreTradeRiskEngine) (config : MarketRiskConfig)
    : outcome PreTradeRiskEngine :=
  if bool_decide (rc_symbol config = "") then Throw "MarketRiskConfig symbol must not be empty"
  else if dle (rc_max_order_quantity config) dzero || dle (rc_max_order_notional config) dzero
  then Throw "MarketRiskConfig limits must be positive"
  else if (rc_max_requests_per_window config =? 0) || (rc_rate_limit_window_ms config <=? 0)
  then Throw "MarketRiskConfig rate limit must be positive"
  else Ret (set_markets e (<[rc_symbol config := MarketState_new config]> (re_markets e))).

Definition Risk_update_top_of_book (e : PreTradeRiskEngine) (symbol : string) (best_bid best_ask : double)
    : outcome PreTradeRiskEngine :=
  match re_markets e !! symbol with
  | None => Throw "Market must be configured before price updates"
  | Some market => Ret (set_markets e (<[symbol := set_top market best_bid best_ask]> (re_markets e)))
  end.

Definition Risk_set_account_state (e : PreTradeRiskEngine) (user_id symbol : string)
    (state : AccountRiskState) : PreTradeRiskEngine :=
  mkRiskEngine (re_markets e) (<[account_key user_id symbol := state]> (re_accounts e))
    (re_resting_orders e) (re_request_windows e) (re_audit_queue e) (re_audit_history e).

Definition resting_orders_for (e : PreTradeRiskEngine) (symbol : string) : list RiskRestingView :=
  default [] (re_resting_orders e !! symbol).

Definition Risk_track_resting_order (e : PreTradeRiskEngine) (symbol : string) (order : RiskRestingView)
    : PreTradeRiskEngine :=
  set_resting e (<[symbol := resting_orders_for e symbol ++ [order]]> (re_resting_orders e)).

Definition Risk_clear_user_resting_orders (e : PreTradeRiskEngine) (symbol user_id : string)
    : PreTradeRiskEngine :=
  match re_resting_orders e !! symbol with
  | None => e
  | Some orders =>
    set_resting e (<[symbol := List.filter (fun o => negb (bool_decide (rv_user_id o = user_id))) orders]>
      (re_resting_orders e))
  end.

(** ** Decisions *)

Definition make_decision (e : PreTradeRiskEngine) (request : RiskOrderRequest) (accepted : bool)
    (reason : RiskRejectReason) (rule_name : string) : RiskDecision :=
  let ref_price := match re_markets e !! kr_symbol request with
                   | None => dzero
                   | Some market => reference_price market request
                   end in
  mkDecision accepted reason rule_name (kr_order_id request) (kr_user_id request) (kr_symbol request)
    ref_price (dmul ref_price (kr_quantity request)) (kr_timestamp_ms request).

Definition validate_request_shape (e : PreTradeRiskEngine) (request : RiskOrderRequest)
    : option RiskDecision :=
  if bool_decide (kr_order_id request = "") || bool_decide (kr_user_id request = "") ||
     bool_decide (kr_symbol request = "") || dle (kr_quantity request) dzero ||
     (kr_timestamp_ms request <=? 0) || bool_decide (kr_source_ip request = "")
  then Some (make_decision e request false kInvalidRequest "request_shape")
  else None.

Definition validate_market_presence (e : PreTradeRiskEngine) (request : RiskOrderRequest)
    : option RiskDecision :=
  match re_markets e !! kr_symbol request with
  | None => Some (make_decision e request false kUnknownSymbol "symbol_configured")
  | Some _ => None
  end.

Definition evaluate_market_rules (e : PreTradeRiskEngine) (request : RiskOrderRequest) (market : MarketState)
    (account : AccountRiskState) (ref_price notional : double) (request_window : list Z) : RiskDecision :=
  let config := ms_config market in
  if dgt (kr_quantity request) (rc_max_order_quantity config)
  then make_decision e request false kQuantityLimitExceeded "quantity_limit"
  else if dgt notional (rc_max_order_notional config)
  then make_decision e request false kNotionalLimitExceeded "notional_limit"
  else if bool_decide (kr_type request = kRiskLimit) && dgt ref_price dzero &&
          dgt (ddiv (dabs (dsub (kr_price request) ref_price)) ref_price)
              (rc_max_price_deviation_ratio config)
  then make_decision e request false kPriceBandExceeded "price_band"
  else if bool_decide (kr_side request = kRiskBuy) && dlt (ar_quote_balance account) notional
  then make_decision e request false kInsufficientBalance "available_quote_balance"
  else if bool_decide (kr_side request = kRiskSell) && dlt (ar_base_position account) (kr_quantity request)
  then make_decision e request false kInsufficientPosition "available_base_position"
  else if rc_max_requests_per_window config <=? Z.of_nat (length request_window)
  then make_decision e request false kRateLimited "user_ip_rate_limit"
  else if rc_enable_self_trade_prevention config &&
          would_self_trade request (resting_orders_for e (kr_symbol request))
  then make_decision e request false kSelfTradePrevented "self_trade_prevention"
  else make_decision e request true kRiskNone "accepted".

(** ** The audit queue *)

(** [while (auto decision = audit_queue_.try_pop())]. *)
Fixpoint audit_flush_loop (fuel : nat) (q : Q) (history : list RiskDecision) : outcome (Q * list RiskDecision) :=
  match fuel with
  | O => Undef "the flush does not end"
  | S fuel =>
    popped ← try_pop_impl q;
    match popped with
    | (Some decision, q) => audit_flush_loop fuel q (history ++ [decision])
    | (None, q) => Ret (q, history)
    end
  end.

(** One step per element and one that finds the queue empty. *)
Definition flush_audit_queue (e : PreTradeRiskEngine) : outcome PreTradeRiskEngine :=
  '(q, history) ← audit_flush_loop (drain_fuel (re_audit_queue e)) (re_audit_queue e) (re_audit_history e);
  Ret (set_audit e q history).

(** A failed [push] of an rvalue leaves it intact, so the second pushes the same
    decision. *)
Definition enqueue_audit (e : PreTradeRiskEngine) (decision : RiskDecision) : outcome PreTradeRiskEngine :=
  '(pushed, q) ← push_impl (re_audit_queue e) decision;
  let e := set_audit e q (re_audit_history e) in
  if (pushed : bool) then Ret e
  else
    e ← flush_audit_queue e;
    '(accepted, q) ← push_impl (re_audit_queue e) decision;
    if (accepted : bool) then Ret (set_audit e q (re_audit_history e))
    else Throw "audit queue could not accept decision after flush".

Definition finalize_decision (e : PreTradeRiskEngine) (decision : RiskDecision)
    : outcome (RiskDecision * PreTradeRiskEngine) :=
  e ← enqueue_audit e decision;
  e ← flush_audit_queue e;
  Ret (decision, e).

Definition window_key (request : RiskOrderRequest) : string :=
  kr_user_id request +:+ "|" +:+ kr_source_ip request.

Definition Risk_evaluate (e : PreTradeRiskEngine) (request : RiskOrderRequest)
    : outcome (RiskDecision * PreTradeRiskEngine) :=
  match validate_request_shape e request with
  | Some invalid_request => finalize_decision e invalid_request
  | None =>
    match validate_market_presence e request with
    | Some missing_market => finalize_decision e missing_market
    | None =>
      market ← deref (re_markets e !! kr_symbol request) "end iterator dereferenced";
      let ref_price := reference_price market request in
      let notional := dmul ref_price (kr_quantity request) in
      let account := default (mkAccountRisk dzero dzero)
        (re_accounts e !! account_key (kr_user_id request) (kr_symbol request)) in
      request_window ← trim_window (default [] (re_request_windows e !! window_key request))
        (kr_timestamp_ms request) (rc_rate_limit_window_ms (ms_config market));
      let decision := evaluate_market_rules e request market account ref_price notional request_window in
      finalize_decision
        (set_windows e (<[window_key request := request_window ++ [kr_timestamp_ms request]]>
          (re_request_windows e))) decision
    end
  end.

Definition Risk_audit_log (e : PreTradeRiskEngine) : list RiskDecision := re_audit_history e.
Definition Risk_pending_audit_events (e : PreTradeRiskEngine) : Z := size_approx_impl (re_audit_queue e).

(** ** Sequences of calls

    A configuration call that throws has changed nothing yet; its caller goes on. *)

Inductive risk_op :=
| RkConfigure (config : MarketRiskConfig)
| RkTop (symbol : string) (best_bid best_ask : double)
| RkAccount (user_id symbol : string) (state : AccountRiskState)
| RkTrack (symbol : string) (order : RiskRestingView)
| RkClear (symbol user_id : string)
| RkEvaluate (request : RiskOrderRequest).

Definition or_unchanged (e : PreTradeRiskEngine) (r : outcome PreTradeRiskEngine)
    : outcome (option RiskDecision * PreTradeRiskEngine) :=
  match r with
  | Ret e' => Ret (None, e')
  | Throw _ => Ret (None, e)
  | Undef w => Undef w
  end.

Definition risk_step (e : PreTradeRiskEngine) (op : risk_op)
    : outcome (option RiskDecision * PreTradeRiskEngine) :=
  match op with
  | RkConfigure config => or_unchanged e (Risk_configure_market e config)
  | RkTop symbol bid ask => or_unchanged e (Risk_update_top_of_book e symbol bid ask)
  | RkAccount user symbol state => Ret (None, Risk_set_account_state e user symbol state)
  | RkTrack symbol order => Ret (None, Risk_track_resting_order e symbol order)
  | RkClear symbol user => Ret (None, Risk_clear_user_resting_orders e symbol user)
  | RkEvaluate request => '(d, e) ← Risk_evaluate e request; Ret (Some d, e)
  end.

Fixpoint risk_run (e : PreTradeRiskEngine) (ops : list risk_op)
    : outcome (list (option RiskDecision) * PreTradeRiskEngine) :=
  match ops with
  | [] => Ret ([], e)
  | op :: ops =>
    '(d, e) ← risk_step e op;
    '(ds, e) ← risk_run e ops;
    Ret (d :: ds, e)
  end.
End Risk.
Arguments PreTradeRiskEngine Q : clear implicits.
