(* ===== verification/RiskProofs.v ===== *)
(** * Pre-trade risk engine: what it guarantees

    Accepted orders satisfy every rule and rejected ones break the rule that is
    reported; the request limit; the audit log. *)

From S2P Require Import Prelude Double MarketTypes DepthBook Queue Spsc RateWindow Risk.

Local Open Scope Z_scope.

(** ** The reference price *)

(** The book of a market shows the last prices and nothing else. *)
Definition level_list (p : option double) : list (double * double) :=
  match p with Some p => [(p, done_)] | None => [] end.

Record market_ok (m : MarketState) : Prop := {
  mo_bids : dbk_bids (ms_book m) = level_list (ms_best_bid m);
  mo_asks : dbk_asks (ms_book m) = level_list (ms_best_ask m);
  mo_both : is_Some (ms_best_bid m) <-> is_Some (ms_best_ask m)
}.

Lemma market_new_ok (config : MarketRiskConfig) : market_ok (MarketState_new config).
Proof. split; [done|done|]. split; intros []; done. Qed.

Lemma update_empty (comp : double -> double -> bool) (p : double) :
  apply_update comp [] p done_ = [(p, done_)].
Proof. done. Qed.

Lemma update_remove (comp : double -> double -> bool) (p : double) :
  comp p p = false -> apply_update comp [(p, done_)] p dzero = [].
Proof. intros Hp. unfold apply_update. simpl. by rewrite Hp. Qed.

Lemma remove_level_book (m : MarketState) : market_ok m ->
  let book := remove_level kAsk (ms_best_ask m) (remove_level kBid (ms_best_bid m) (ms_book m)) in
  dbk_bids book = [] /\ dbk_asks book = [].
Proof.
  intros [Eb Ea _]. destruct (ms_best_bid m) as [b|], (ms_best_ask m) as [a|]; simpl in *;
    rewrite ?Eb, ?Ea, ?update_remove by apply dlt_irrefl; done.
Qed.

(** Whatever the prices, crossed, negative or NaN, the previous levels go. *)
Lemma set_top_ok (m : MarketState) (bid ask : double) : market_ok m -> market_ok (set_top m bid ask).
Proof.
  intros Hm. destruct (remove_level_book m Hm) as [Eb Ea]. unfold set_top. split; simpl.
  - by rewrite Eb.
  - by rewrite Ea.
  - split; by eexists.
Qed.

Lemma reference_price_spec (m : MarketState) (request : RiskOrderRequest) : market_ok m ->
  reference_price m request =
  match ms_best_bid m, ms_best_ask m with
  | Some bid, Some ask => ddiv (dadd bid ask) (double_of_Z 2)
  | _, _ => if bool_decide (kr_type request = kRiskLimit) && dgt (kr_price request) dzero
            then kr_price request else dzero
  end.
Proof.
  intros [Eb Ea [H1 H2]]. unfold reference_price, DepthBook_snapshot. simpl. rewrite Eb, Ea.
  destruct (ms_best_bid m), (ms_best_ask m); try done.
  - by destruct (H1 (mk_is_Some _ _ eq_refl)).
  - by destruct (H2 (mk_is_Some _ _ eq_refl)).
Qed.

(** ** The audit queue *)

Section Proofs.
Context {Q : Type} `{QueueLaws Q RiskDecision}.

Implicit Types e : PreTradeRiskEngine Q.

Lemma audit_flush_spec (l : list RiskDecision) : forall fuel (q : Q) history,
  represents q l -> (length l < fuel)%nat ->
  exists q', audit_flush_loop fuel q history = Ret (q', history ++ l) /\ represents q' [] /\ room q' = room q.
Proof using Type*.
  induction l as [|d l IH]; intros fuel q history Hr Hf; (destruct fuel as [|fuel]; [simpl in Hf; lia|]); simpl.
  - rewrite (pop_empty q Hr), bind_ret. exists q. by rewrite app_nil_r.
  - destruct (pop_front q d l Hr) as (q1 & -> & Hr1 & Hroom). rewrite bind_ret.
    destruct (IH fuel q1 (history ++ [d]) Hr1 ltac:(simpl in Hf; lia)) as (q2 & -> & Hr2 & Hroom2).
    exists q2. rewrite <- app_assoc. split_and!; [done|done|congruence].
Qed.

Definition audit_ok e : Prop := represents (re_audit_queue e) [] /\ 1 <= room (re_audit_queue e).

Lemma finalize_spec e (d : RiskDecision) : audit_ok e ->
  exists q, finalize_decision e d = Ret (d, set_audit e q (re_audit_history e ++ [d])) /\
    audit_ok (set_audit e q (re_audit_history e ++ [d])).
Proof using Type*.
  intros [Hr Hroom]. unfold finalize_decision, enqueue_audit.
  destruct (push_room (re_audit_queue e) [] d Hr ltac:(simpl; lia)) as (q1 & -> & Hr1 & Hroom1).
  rewrite !bind_ret. unfold flush_audit_queue, drain_fuel. simpl re_audit_queue. simpl in Hr1.
  rewrite (size_represents q1 [d] Hr1).
  destruct (audit_flush_spec [d] (S (Z.to_nat (Z.of_nat (length [d])))) q1 (re_audit_history e) Hr1
    ltac:(simpl; lia)) as (q2 & E & Hr2 & Hroom2).
  simpl in E. simpl. rewrite E, !bind_ret. exists q2. split; [done|]. split; simpl; [done|lia].
Qed.

(** ** Well-formed engines *)

Definition config_ok (config : MarketRiskConfig) : Prop :=
  1 <= rc_max_requests_per_window config /\ 0 < rc_rate_limit_window_ms config < two63.

Record risk_inv e : Prop := {
  ri_audit : audit_ok e;
  ri_market : forall symbol m, re_markets e !! symbol = Some m -> market_ok m /\ config_ok (ms_config m)
}.

(** The arguments have the ranges of their types. *)
Definition risk_op_ok (op : risk_op) : Prop :=
  match op with
  | RkConfigure config => 0 <= rc_max_requests_per_window config /\ rc_rate_limit_window_ms config < two63
  | RkEvaluate request => kr_timestamp_ms request < two63
  | _ => True
  end.

Lemma risk_new_inv (q : Q) : represents q [] -> 1 <= room q -> risk_inv (RiskEngine_new q).
Proof using Type. by split; [split|]. Qed.

Lemma configure_inv e (config : MarketRiskConfig) : risk_inv e ->
  0 <= rc_max_requests_per_window config -> rc_rate_limit_window_ms config < two63 ->
  match Risk_configure_market e config with
  | Ret e' => risk_inv e' /\ re_audit_history e' = re_audit_history e
  | Throw _ => True
  | Undef _ => False
  end.
Proof using Type.
  intros [A M] H1 H2. unfold Risk_configure_market.
  destruct (bool_decide (rc_symbol config = "")); [done|]. destruct (_ || _); [done|].
  destruct (Z.eqb_spec (rc_max_requests_per_window config) 0), (Z.leb_spec (rc_rate_limit_window_ms config) 0);
    simpl; try done. split; [|done]. split; [done|]. simpl. intros symbol m [[<- <-]|[_ Hm]]%lookup_insert_Some.
  - split; [apply market_new_ok|]. unfold config_ok. simpl. lia.
  - by apply (M symbol).
Qed.

Lemma top_inv e (symbol : string) (bid ask : double) : risk_inv e ->
  match Risk_update_top_of_book e symbol bid ask with
  | Ret e' => risk_inv e' /\ re_audit_history e' = re_audit_history e
  | Throw _ => True
  | Undef _ => False
  end.
Proof using Type.
  intros [A M]. unfold Risk_update_top_of_book. destruct (re_markets e !! symbol) as [m|] eqn:Em; [|done].
  split; [|done]. split; [done|]. simpl. intros s m' [[<- <-]|[_ Hm]]%lookup_insert_Some.
  - destruct (M _ _ Em). split; [by apply set_top_ok|done].
  - by apply (M s).
Qed.

(** ** Evaluating a request *)

Definition shape_ok (request : RiskOrderRequest) : bool :=
  negb (bool_decide (kr_order_id request = "")) && negb (bool_decide (kr_user_id request = "")) &&
  negb (bool_decide (kr_symbol request = "")) && negb (dle (kr_quantity request) dzero) &&
  (0 <? kr_timestamp_ms request) && negb (bool_decide (kr_source_ip request = "")).

Lemma validate_shape e (request : RiskOrderRequest) :
  validate_request_shape e request =
  if shape_ok request then None else Some (make_decision e request false kInvalidRequest "request_shape").
Proof using Type.
  unfold validate_request_shape, shape_ok. rewrite (Z.leb_antisym 0 (kr_timestamp_ms request)).
  by destruct (bool_decide (kr_order_id request = "")), (bool_decide (kr_user_id request = "")),
    (bool_decide (kr_symbol request = "")), (dle _ _), (0 <? _), (bool_decide (kr_source_ip request = "")).
Qed.

(** The request's account, and its request times once trimmed. *)
Definition account_of e (request : RiskOrderRequest) : AccountRiskState :=
  default (mkAccountRisk dzero dzero) (re_accounts e !! account_key (kr_user_id request) (kr_symbol request)).

Definition recent e (request : RiskOrderRequest) (window_ms : Z) : list Z :=
  List.filter (fun t => negb (t <? kr_timestamp_ms request - window_ms))
    (default [] (re_request_windows e !! window_key request)).

Definition rules_decision e (request : RiskOrderRequest) (m : MarketState) : RiskDecision :=
  let ref := reference_price m request in
  evaluate_market_rules e request m (account_of e request) ref (dmul ref (kr_quantity request))
    (recent e request (rc_rate_limit_window_ms (ms_config m))).

(** What evaluating a request does on each path. *)
Lemma evaluate_spec e (request : RiskOrderRequest) : risk_inv e -> kr_timestamp_ms request < two63 ->
  exists d e', Risk_evaluate e request = Ret (d, e') /\ risk_inv e' /\
    re_audit_history e' = re_audit_history e ++ [d] /\ re_markets e' = re_markets e /\
    match re_markets e !! kr_symbol request with
    | Some m =>
      if shape_ok request
      then d = rules_decision e request m /\
        re_request_windows e' = <[window_key request :=
          recent e request (rc_rate_limit_window_ms (ms_config m)) ++ [kr_timestamp_ms request]]> (re_request_windows e)
      else d = make_decision e request false kInvalidRequest "request_shape" /\
        re_request_windows e' = re_request_windows e
    | None =>
      d = make_decision e request false (if shape_ok request then kUnknownSymbol else kInvalidRequest)
        (if shape_ok request then "symbol_configured" else "request_shape") /\
      re_request_windows e' = re_request_windows e
    end.
Proof using Type*.
  intros [A M] Ht. unfold Risk_evaluate. rewrite validate_shape.
  assert (Hfin : forall e1 d, audit_ok e1 -> re_markets e1 = re_markets e ->
    exists e', finalize_decision e1 d = Ret (d, e') /\ risk_inv e' /\
      re_audit_history e' = re_audit_history e1 ++ [d] /\ re_markets e' = re_markets e /\
      re_request_windows e' = re_request_windows e1).
  { intros e1 d A1 M1. destruct (finalize_spec e1 d A1) as (q & E & A'). rewrite E. eexists.
    split; [done|]. split_and!; [|done|done|done]. split; [done|]. simpl. by rewrite M1. }
  destruct (shape_ok request) eqn:Hs.
  - unfold validate_market_presence. destruct (re_markets e !! kr_symbol request) as [m|] eqn:Em.
    + destruct (M _ _ Em) as [_ [_ Hw]]. unfold shape_ok in Hs. rewrite !andb_true_iff, Z.ltb_lt in Hs.
      cbn [deref]. rewrite bind_ret, trim_window_ret by lia. rewrite bind_ret.
      destruct (Hfin (set_windows e (<[window_key request :=
        recent e request (rc_rate_limit_window_ms (ms_config m)) ++ [kr_timestamp_ms request]]> (re_request_windows e)))
        (rules_decision e request m) A eq_refl) as (e' & E & I & Ha & Hm & Hw').
      eexists _, e'. split; [exact E|]. by rewrite Hw'.
    + destruct (Hfin e (make_decision e request false kUnknownSymbol "symbol_configured") A eq_refl)
        as (e' & E & ? & ? & ? & ?). by eexists _, e'.
  - destruct (Hfin e (make_decision e request false kInvalidRequest "request_shape") A eq_refl)
      as (e' & E & ? & ? & ? & ?). eexists _, e'. split; [exact E|]. by destruct (re_markets e !! _).
Qed.

Definition decision_list (d : option RiskDecision) : list RiskDecision :=
  match d with Some d => [d] | None => [] end.

Lemma risk_step_spec e (op : risk_op) : risk_inv e -> risk_op_ok op ->
  exists d e', risk_step e op = Ret (d, e') /\ risk_inv e' /\
    re_audit_history e' = re_audit_history e ++ decision_list d.
Proof using Type*.
  intros I Ho. assert (Hu : forall r, match r with
      | Ret e' => risk_inv e' /\ re_audit_history e' = re_audit_history e
      | Throw _ => True | Undef _ => False end ->
    exists d e', or_unchanged e r = Ret (d, e') /\ risk_inv e' /\
      re_audit_history e' = re_audit_history e ++ decision_list d).
  { intros [e'|w|w]; [intros [I' Eh]|intros _|done]; simpl; (eexists _, _; split; [done|]); simpl;
      by rewrite app_nil_r. }
  destruct op as [config|symbol bid ask|user symbol st|symbol o|symbol user|request]; simpl in *.
  - apply Hu. destruct Ho. by apply configure_inv.
  - apply Hu. by apply top_inv.
  - eexists _, _. split; [done|]. simpl. rewrite app_nil_r. by destruct I.
  - eexists _, _. split; [done|]. simpl. rewrite app_nil_r. by destruct I.
  - eexists _, _. split; [done|]. simpl. rewrite app_nil_r. unfold Risk_clear_user_resting_orders.
    case_match; [by destruct I|done].
  - destruct (evaluate_spec e request I Ho) as (d & e' & -> & I' & Eh & _). rewrite bind_ret.
    by eexists _, e'.
Qed.

Lemma risk_run_spec (ops : list risk_op) : forall e, risk_inv e -> Forall risk_op_ok ops ->
  exists ds e', risk_run e ops = Ret (ds, e') /\ risk_inv e' /\
    re_audit_history e' = re_audit_history e ++ List.flat_map decision_list ds.
Proof using Type*.
  induction ops as [|op ops IH]; intros e I HF; simpl; [exists [], e; by rewrite app_nil_r|].
  apply Forall_cons in HF as [Ho HF].
  destruct (risk_step_spec e op I Ho) as (d & e1 & -> & I1 & E1). rewrite bind_ret.
  destruct (IH e1 I1 HF) as (ds & e2 & -> & I2 & E2). rewrite bind_ret.
  exists (d :: ds), e2. split; [done|]. split; [done|]. rewrite E2, E1, <- app_assoc. done.
Qed.

(** ** The rules as a specification *)

Definition own_orders e (request : RiskOrderRequest) : list RiskRestingView :=
  List.filter (fun o => bool_decide (rv_user_id o = kr_user_id request) &&
      bool_decide (rv_side o <> kr_side request) && dlt dzero (rv_quantity o))
    (resting_orders_for e (kr_symbol request)).

(** The order stays behind a resting order of the other side. *)
Definition stays_clear (request : RiskOrderRequest) (o : RiskRestingView) : Prop :=
  kr_type request = kRiskLimit /\
  match kr_side request with
  | kRiskBuy => dlt (kr_price request) (rv_price o) = true
  | kRiskSell => dlt (rv_price o) (kr_price request) = true
  end.

Definition deviation (m : MarketState) (request : RiskOrderRequest) : double :=
  ddiv (dabs (dsub (kr_price request) (reference_price m request))) (reference_price m request).

Definition notional_of (m : MarketState) (request : RiskOrderRequest) : double :=
  dmul (reference_price m request) (kr_quantity request).

(** What an accepted order satisfies. *)
Record order_safe e (m : MarketState) (request : RiskOrderRequest) : Prop := {
  os_shape : kr_order_id request <> "" /\ kr_user_id request <> "" /\ kr_symbol request <> "" /\
    kr_source_ip request <> "" /\ 0 < kr_timestamp_ms request /\ dlt dzero (kr_quantity request) = true;
  os_quantity : dle (kr_quantity request) (rc_max_order_quantity (ms_config m)) = true;
  os_notional : dle (notional_of m request) (rc_max_order_notional (ms_config m)) = true;
  os_band : kr_type request = kRiskLimit -> dlt dzero (reference_price m request) = true ->
    dle (deviation m request) (rc_max_price_deviation_ratio (ms_config m)) = true;
  os_quote : kr_side request = kRiskBuy ->
    dle (notional_of m request) (ar_quote_balance (account_of e request)) = true;
  os_base : kr_side request = kRiskSell ->
    dle (kr_quantity request) (ar_base_position (account_of e request)) = true;
  os_rate : Z.of_nat (length (recent e request (rc_rate_limit_window_ms (ms_config m)))) <
    rc_max_requests_per_window (ms_config m);
  os_self : rc_enable_self_trade_prevention (ms_config m) = true ->
    Forall (stays_clear request) (own_orders e request)
}.

(** What a rejection reason says is wrong. *)
Definition rule_broken e (request : RiskOrderRequest) (reason : RiskRejectReason) : Prop :=
  match reason, re_markets e !! kr_symbol request with
  | kInvalidRequest, _ => shape_ok request = false
  | kUnknownSymbol, m => m = None
  | kQuantityLimitExceeded, Some m => dlt (rc_max_order_quantity (ms_config m)) (kr_quantity request) = true
  | kNotionalLimitExceeded, Some m => dlt (rc_max_order_notional (ms_config m)) (notional_of m request) = true
  | kPriceBandExceeded, Some m => kr_type request = kRiskLimit /\
      dlt (rc_max_price_deviation_ratio (ms_config m)) (deviation m request) = true
  | kInsufficientBalance, Some m => kr_side request = kRiskBuy /\
      dlt (ar_quote_balance (account_of e request)) (notional_of m request) = true
  | kInsufficientPosition, _ => kr_side request = kRiskSell /\
      dlt (ar_base_position (account_of e request)) (kr_quantity request) = true
  | kRateLimited, Some m => rc_max_requests_per_window (ms_config m) <=
      Z.of_nat (length (recent e request (rc_rate_limit_window_ms (ms_config m))))
  | kSelfTradePrevented, Some m => rc_enable_self_trade_prevention (ms_config m) = true /\
      exists o, o ∈ resting_orders_for e (kr_symbol request) /\ crosses_own request o = true
  | _, _ => False
  end.

(** None of the numbers the rules compare for this request is NaN: price, deviation
    and its limit count for a limit order only (the deviation when there is a positive
    reference price), a balance for the side that needs it, and the user's resting
    orders of the other side when self-trades are prevented. *)
Record no_nan e (m : MarketState) (request : RiskOrderRequest) : Prop := {
  nn_quantity : is_nan (kr_quantity request) = false;
  nn_notional : is_nan (notional_of m request) = false;
  nn_max_quantity : is_nan (rc_max_order_quantity (ms_config m)) = false;
  nn_max_notional : is_nan (rc_max_order_notional (ms_config m)) = false;
  nn_deviation : kr_type request = kRiskLimit -> dlt dzero (reference_price m request) = true ->
    is_nan (deviation m request) = false /\ is_nan (rc_max_price_deviation_ratio (ms_config m)) = false;
  nn_quote : kr_side request = kRiskBuy -> is_nan (ar_quote_balance (account_of e request)) = false;
  nn_base : kr_side request = kRiskSell -> is_nan (ar_base_position (account_of e request)) = false;
  nn_resting : rc_enable_self_trade_prevention (ms_config m) = true ->
    (kr_type request = kRiskLimit -> is_nan (kr_price request) = false) /\
    Forall (fun o => rv_user_id o = kr_user_id request -> rv_side o <> kr_side request ->
              is_nan (rv_price o) = false /\ is_nan (rv_quantity o) = false)
      (resting_orders_for e (kr_symbol request))
}.

Lemma self_trade_spec e (m : MarketState) (request : RiskOrderRequest) : no_nan e m request ->
  rc_enable_self_trade_prevention (ms_config m) = true ->
  would_self_trade request (resting_orders_for e (kr_symbol request)) = false <->
  Forall (stays_clear request) (own_orders e request).
Proof using Type.
  intros N He. destruct (nn_resting _ _ _ N He) as [Hp HN].
  unfold would_self_trade, own_orders. induction HN as [|o l No HN IH]; simpl; [done|].
  rewrite orb_false_iff, IH. clear IH.
  assert (Hc : crosses_own request o = false <->
    (bool_decide (rv_user_id o = kr_user_id request) && bool_decide (rv_side o <> kr_side request) &&
      dlt dzero (rv_quantity o) = true -> stays_clear request o)).
  { unfold crosses_own, stays_clear.
    case_bool_decide as Hu; simpl; [|by split].
    destruct (decide (rv_side o = kr_side request)) as [Hs|Hs].
    { rewrite bool_decide_eq_true_2, bool_decide_eq_false_2 by naive_solver. rewrite orb_true_r. by split. }
    destruct (No Hu Hs) as [Np Nq]. rewrite (dlt_not_dle dzero (rv_quantity o)) by done.
    destruct (dle (rv_quantity o) dzero); simpl.
    { rewrite andb_false_r. by split. }
    rewrite bool_decide_eq_false_2, bool_decide_eq_true_2 by done. simpl.
    destruct (kr_type request); [specialize (Hp eq_refl)|split; [done|by intros [? _]]].
    destruct (kr_side request); rewrite ?(dlt_not_dle (kr_price request)), ?(dlt_not_dle (rv_price o)) by done;
      [change (dge (kr_price request) (rv_price o)) with (dle (rv_price o) (kr_price request))|];
      destruct (dle _ _); simpl; naive_solver. }
  rewrite Hc. destruct (_ && _).
  - rewrite Forall_cons. naive_solver.
  - naive_solver.
Qed.

(** The conditions of the chain, in its order. *)
Definition broken_rules e (m : MarketState) (request : RiskOrderRequest) : list bool :=
  let config := ms_config m in
  [dgt (kr_quantity request) (rc_max_order_quantity config);
   dgt (notional_of m request) (rc_max_order_notional config);
   bool_decide (kr_type request = kRiskLimit) && dgt (reference_price m request) dzero &&
     dgt (deviation m request) (rc_max_price_deviation_ratio config);
   bool_decide (kr_side request = kRiskBuy) && dlt (ar_quote_balance (account_of e request)) (notional_of m request);
   bool_decide (kr_side request = kRiskSell) && dlt (ar_base_position (account_of e request)) (kr_quantity request);
   rc_max_requests_per_window config <=? Z.of_nat (length (recent e request (rc_rate_limit_window_ms config)));
   rc_enable_self_trade_prevention config && would_self_trade request (resting_orders_for e (kr_symbol request))].

Lemma and_false_impl (P : Prop) `{Decision P} (b c : bool) :
  bool_decide P && b = false <-> (P -> b = false).
Proof using Type. case_bool_decide; simpl; naive_solver. Qed.

Lemma order_safe_iff e (m : MarketState) (request : RiskOrderRequest) :
  shape_ok request = true -> no_nan e m request ->
  order_safe e m request <-> Forall (fun b => b = false) (broken_rules e m request).
Proof using Type.
  intros Hs N. pose proof (self_trade_spec e m request N) as HS. destruct N as [N1 N2 N3 N4 N5 N6 N7 _].
  assert (Hshape : kr_order_id request <> "" /\ kr_user_id request <> "" /\ kr_symbol request <> "" /\
    kr_source_ip request <> "" /\ 0 < kr_timestamp_ms request /\ dlt dzero (kr_quantity request) = true).
  { unfold shape_ok in Hs. rewrite !andb_true_iff, !negb_true_iff, !bool_decide_eq_false, Z.ltb_lt in Hs.
    rewrite dlt_not_dle by done. destruct Hs as [[[[[? ?] ?] ->] ?] ?]. by split_and!. }
  unfold broken_rules. change (dgt (reference_price m request) dzero) with (dlt dzero (reference_price m request)).
  rewrite (dgt_not_dle (kr_quantity request)), (dgt_not_dle (notional_of m request)) by done.
  rewrite !Forall_cons, !andb_false_iff, !negb_false_iff, !bool_decide_eq_false, Z.leb_gt.
  split.
  - intros [_ O1 O2 O3 O4 O5 O6 O7]. split_and!; try done.
    + destruct (decide (kr_type request = kRiskLimit)) as [Ht|Ht]; [|tauto].
      destruct (dlt dzero (reference_price m request)) eqn:Hr; [right|tauto].
      destruct (N5 Ht eq_refl). rewrite dgt_not_dle by done. by rewrite O3.
    + destruct (decide (kr_side request = kRiskBuy)) as [Hb|]; [right|tauto].
      rewrite dlt_not_dle by auto. by rewrite O4.
    + destruct (decide (kr_side request = kRiskSell)) as [Hb|]; [right|tauto].
      rewrite dlt_not_dle by auto. by rewrite O5.
    + destruct (rc_enable_self_trade_prevention _); [right; apply HS; auto|tauto].
  - intros (O1 & O2 & O3 & O4 & O5 & O6 & O7 & _). split; try done.
    + intros Ht Hr. destruct O3 as [[O3|O3]|O3]; [done|congruence|].
      destruct (N5 Ht Hr). rewrite dgt_not_dle in O3 by done. by apply negb_false_iff in O3.
    + intros Hb. destruct O4 as [O4|O4]; [done|]. rewrite dlt_not_dle in O4 by auto. by apply negb_false_iff in O4.
    + intros Hb. destruct O5 as [O5|O5]; [done|]. rewrite dlt_not_dle in O5 by auto. by apply negb_false_iff in O5.
    + intros He. destruct O7 as [O7|O7]; [congruence|by apply HS].
Qed.

(** A safe order has the shape the first rule asks for. *)
Lemma safe_shape e (m : MarketState) (request : RiskOrderRequest) :
  order_safe e m request -> is_nan (kr_quantity request) = false -> shape_ok request = true.
Proof using Type.
  intros O N. destruct (os_shape _ _ _ O) as (H1 & H2 & H3 & H4 & H5 & H6). unfold shape_ok.
  rewrite dlt_not_dle, negb_true_iff in H6 by done. rewrite H6. apply Z.ltb_lt in H5. rewrite H5.
  by rewrite !bool_decide_eq_false_2.
Qed.

(** The rules decide [order_safe], and the reason names a broken rule. *)
Lemma rules_decision_spec e (m : MarketState) (request : RiskOrderRequest) :
  re_markets e !! kr_symbol request = Some m -> shape_ok request = true -> no_nan e m request ->
  let d := rules_decision e request m in
  (rd_accepted d = true <-> order_safe e m request) /\
  (rd_accepted d = true -> rd_reject_reason d = kRiskNone) /\
  (rd_accepted d = false -> rule_broken e request (rd_reject_reason d)).
Proof using Type.
  intros Hm Hs N d. rewrite (order_safe_iff e m request Hs N).
  unfold d, rules_decision, evaluate_market_rules, rule_broken. rewrite Hm. unfold broken_rules.
  fold (notional_of m request). fold (deviation m request). rewrite !Forall_cons.
  destruct (dgt (kr_quantity request) _) eqn:E1; [by split_and!; [split; [|intros []]| |]|].
  destruct (dgt (notional_of m request) _) eqn:E2; [by split_and!; [split; [|intros (_ & [=] & _)]| |]|].
  destruct (_ && dgt (deviation m request) _) eqn:E3.
  { split_and!; [split; [done|intros (_ & _ & [=] & _)]|done|]. intros _. simpl.
    rewrite !andb_true_iff, bool_decide_eq_true in E3. by destruct E3 as [[? _] ?]. }
  destruct (_ && dlt (ar_quote_balance _) _) eqn:E4.
  { split_and!; [split; [done|intros (_ & _ & _ & [=] & _)]|done|]. intros _. simpl.
    by rewrite !andb_true_iff, bool_decide_eq_true in E4. }
  destruct (_ && dlt (ar_base_position _) _) eqn:E5.
  { split_and!; [split; [done|intros (_ & _ & _ & _ & [=] & _)]|done|]. intros _. simpl.
    by rewrite !andb_true_iff, bool_decide_eq_true in E5. }
  destruct (_ <=? _) eqn:E6.
  { split_and!; [split; [done|intros (_ & _ & _ & _ & _ & [=] & _)]|done|]. intros _. simpl. by apply Z.leb_le. }
  destruct (_ && would_self_trade _ _) eqn:E7.
  { split_and!; [split; [done|intros (_ & _ & _ & _ & _ & _ & [=] & _)]|done|]. intros _. simpl.
    apply andb_true_iff in E7 as [Ee Ex]. split; [done|].
    apply existsb_exists in Ex as (o & Ho%list_elem_of_In & Hx). by exists o. }
  split_and!; [split; [intros _; by split_and!|done]|done|done].
Qed.
End Proofs.
