(* ===== verification/RiskTheorems.v ===== *)
(** * Pre-trade risk engine: theorems

    The request limit over whole runs, and the properties of the engine. *)

From S2P Require Import Prelude Double MarketTypes DepthBook Queue Spsc RateWindow Risk RiskProofs.

Local Open Scope Z_scope.

(** ** The request limit over a run *)

(** The request times of a key, and those of its accepted requests. *)
Fixpoint request_times (key : string) (ops : list risk_op) : list Z :=
  match ops with
  | RkEvaluate r :: ops =>
    if decide (window_key r = key) then kr_timestamp_ms r :: request_times key ops else request_times key ops
  | _ :: ops => request_times key ops
  | [] => []
  end.

Fixpoint accepted_times (key : string) (ops : list risk_op) (ds : list (option RiskDecision)) : list Z :=
  match ops, ds with
  | RkEvaluate r :: ops, Some d :: ds =>
    if decide (window_key r = key /\ rd_accepted d = true)
    then kr_timestamp_ms r :: accepted_times key ops ds else accepted_times key ops ds
  | _ :: ops, _ :: ds => accepted_times key ops ds
  | _, _ => []
  end.

Section Limit.
Context {Q : Type} `{QueueLaws Q RiskDecision} (key : string) (window_ms n : Z).

Implicit Types e : PreTradeRiskEngine Q.

(** Every market uses the same window and at most [n] requests in it. *)
Definition limit_config (op : risk_op) : Prop :=
  match op with
  | RkConfigure config => rc_rate_limit_window_ms config = window_ms /\ rc_max_requests_per_window config <= n
  | _ => True
  end.

Record limit_inv e (last : Z) (pushed accepted : list Z) : Prop := {
  li_markets : forall symbol m, re_markets e !! symbol = Some m ->
    rc_rate_limit_window_ms (ms_config m) = window_ms /\ rc_max_requests_per_window (ms_config m) <= n;
  li_window : window_inv window_ms n (default [] (re_request_windows e !! key)) last pushed accepted
}.

Lemma accepted_below_limit e (request : RiskOrderRequest) (m : MarketState) :
  rd_accepted (rules_decision e request m) = true ->
  Z.of_nat (length (recent e request (rc_rate_limit_window_ms (ms_config m)))) <
  rc_max_requests_per_window (ms_config m).
Proof using Type.
  unfold rules_decision, evaluate_market_rules. repeat (case_match; try done).
  intros _. by apply Z.leb_gt.
Qed.

(** A request of the key, at a time not before the last one. *)
Lemma limit_evaluate e (request : RiskOrderRequest) (m : MarketState) (last : Z) (pushed accepted : list Z) :
  0 <= n -> 0 <= window_ms -> limit_inv e last pushed accepted ->
  re_markets e !! kr_symbol request = Some m -> window_key request = key -> last <= kr_timestamp_ms request ->
  let t := kr_timestamp_ms request in
  window_inv window_ms n (recent e request (rc_rate_limit_window_ms (ms_config m)) ++ [t]) t (pushed ++ [t])
    (accepted ++ if rd_accepted (rules_decision e request m) then [t] else []).
Proof using Type.
  intros Hn Hw [M W] Em Hk Ht t. destruct (M _ _ Em) as [Ew Emax].
  pose proof (accepted_below_limit e request m) as Hlt. unfold recent in *. rewrite Hk, Ew in *.
  pose proof (window_inv_trim window_ms n _ _ t _ _ W Ht) as W1.
  destruct (rd_accepted (rules_decision e request m)) eqn:Ed; [|rewrite app_nil_r; by apply window_inv_push].
  apply window_inv_accept; [done|done|done|]. eapply Z.lt_le_trans; [by apply Hlt|done].
Qed.

(** The other calls leave the request times alone. *)
Lemma limit_other e e' (d : option RiskDecision) (op : risk_op) (last : Z) (pushed accepted : list Z) :
  (forall r, op <> RkEvaluate r) -> risk_step e op = Ret (d, e') -> limit_config op ->
  limit_inv e last pushed accepted -> limit_inv e' last pushed accepted /\ d = None.
Proof using Type.
  intros Hop E Hc [M W].
  assert (Hu : forall r, or_unchanged e r = Ret (d, e') ->
    d = None /\ (e' = e \/ r = Ret e')).
  { intros [x|x|x]; simpl; intros [= <- <-]; auto. }
  destruct op as [config|symbol bid ask|user symbol st|symbol o|symbol user|request]; simpl in E.
  - apply Hu in E as [-> [->|E]]; [by split|]. split; [|done]. unfold Risk_configure_market in E.
    destruct (bool_decide (rc_symbol config = "")); [done|]. do 2 (destruct (_ || _); [done|]).
    injection E as <-. split; try done. simpl.
    intros s m [[<- <-]|[_ Hm]]%lookup_insert_Some; [done|by apply (M s)].
  - apply Hu in E as [-> [->|E]]; [by split|]. split; [|done]. unfold Risk_update_top_of_book in E.
    destruct (re_markets e !! symbol) as [m0|] eqn:E0; [|done]. injection E as <-. split; try done. simpl.
    intros s m [[<- <-]|[_ Hm]]%lookup_insert_Some; [exact (M _ _ E0)|by apply (M s)].
  - injection E as <- <-. by split.
  - injection E as <- <-. by split.
  - injection E as <- <-. split; [|done]. unfold Risk_clear_user_resting_orders. case_match; by split.
  - by destruct (Hop request).
Qed.

Definition is_evaluate (op : risk_op) : bool := match op with RkEvaluate _ => true | _ => false end.

Lemma accepted_rejected (request : RiskOrderRequest) (d : RiskDecision) :
  window_key request <> key \/ rd_accepted d = false ->
  accepted_times key [RkEvaluate request] [Some d] = [].
Proof using Type. intros Hr. simpl. rewrite decide_False; [done|]. intros [? ?]. destruct Hr; congruence. Qed.

Lemma limit_step e (op : risk_op) (last : Z) (pushed accepted : list Z) :
  0 <= n -> 0 <= window_ms -> risk_inv e -> risk_op_ok op -> limit_config op ->
  limit_inv e last pushed accepted -> Forall (Z.le last) (request_times key [op]) ->
  exists d e' last' pushed', risk_step e op = Ret (d, e') /\ risk_inv e' /\
    (last' = last \/ last' ∈ request_times key [op]) /\
    limit_inv e' last' pushed' (accepted ++ accepted_times key [op] [d]).
Proof using Type*.
  intros Hn Hw I Ho Hc L HF. destruct (is_evaluate op) eqn:Hop.
  - destruct op as [| | | | |request]; try done. simpl in Ho. unfold risk_step.
    destruct (evaluate_spec e request I Ho) as (d & e' & E & I' & _ & Em & Hd).
    rewrite E, bind_ret. exists (Some d), e'.
    assert (Hsame : default [] (re_request_windows e' !! key) = default [] (re_request_windows e !! key) ->
      window_key request <> key \/ rd_accepted d = false ->
      limit_inv e' last pushed (accepted ++ accepted_times key [RkEvaluate request] [Some d])).
    { intros Hwin Hr. rewrite accepted_rejected, app_nil_r by done. destruct L as [M W].
      split; [by rewrite Em|by rewrite Hwin]. }
    destruct (re_markets e !! kr_symbol request) as [m|] eqn:E0;
      [|destruct Hd as [-> Hwin]; exists last, pushed; split_and!; auto; apply Hsame; [by rewrite Hwin|by right]].
    destruct (shape_ok request);
      [|destruct Hd as [-> Hwin]; exists last, pushed; split_and!; auto; apply Hsame; [by rewrite Hwin|by right]].
    destruct Hd as [-> Hwin]. destruct (decide (window_key request = key)) as [Hkey|Hkey].
    + cbn [request_times accepted_times] in HF |- *. rewrite decide_True in HF |- * by done.
      apply Forall_inv in HF.
      pose proof (limit_evaluate e request m last pushed accepted Hn Hw L E0 Hkey HF) as W.
      eexists (kr_timestamp_ms request), (pushed ++ [kr_timestamp_ms request]).
      split_and!; [done|done|right; by apply list_elem_of_singleton|]. destruct L as [M _].
      split; [by rewrite Em|]. rewrite Hwin, Hkey, lookup_insert_eq. simpl.
      destruct (rd_accepted (rules_decision e request m));
        rewrite ?decide_True, ?decide_False by naive_solver; done.
    + exists last, pushed. split_and!; auto. apply Hsame; [|by left].
      by rewrite Hwin, lookup_insert_ne.
  - destruct (risk_step_spec e op I Ho) as (d & e' & E & I' & _). exists d, e', last, pushed.
    destruct (limit_other e e' d op last pushed accepted) as [L' ->]; try done; [by intros r ->|].
    split_and!; auto. destruct op; simpl in *; rewrite ?app_nil_r; done.
Qed.

Lemma request_times_cons (op : risk_op) (ops : list risk_op) :
  request_times key (op :: ops) = request_times key [op] ++ request_times key ops.
Proof using Type. destruct op; simpl; try done. by case_decide. Qed.

Lemma accepted_times_cons (op : risk_op) (ops : list risk_op) (d : option RiskDecision)
    (ds : list (option RiskDecision)) :
  accepted_times key (op :: ops) (d :: ds) = accepted_times key [op] [d] ++ accepted_times key ops ds.
Proof using Type. destruct op, d; simpl; try done. by case_decide. Qed.

Lemma limit_run (ops : list risk_op) : forall e (last : Z) (pushed accepted : list Z),
  0 <= n -> 0 <= window_ms -> risk_inv e -> Forall risk_op_ok ops -> Forall limit_config ops ->
  limit_inv e last pushed accepted -> Forall (Z.le last) (request_times key ops) ->
  StronglySorted Z.le (request_times key ops) ->
  exists ds e', risk_run e ops = Ret (ds, e') /\ limited n window_ms (accepted ++ accepted_times key ops ds).
Proof using Type*.
  induction ops as [|op ops IH]; intros e last pushed accepted Hn Hw I HO HC L HF HS.
  { exists [], e. simpl. rewrite app_nil_r. split; [done|apply L]. }
  apply Forall_cons in HO as [Ho HO]. apply Forall_cons in HC as [Hc HC].
  rewrite request_times_cons in HF, HS. apply Forall_app in HF as [HF1 HF2].
  destruct (limit_step e op last pushed accepted Hn Hw I Ho Hc L HF1)
    as (d & e1 & last' & pushed' & E & I1 & Hl & L1).
  destruct (IH e1 last' pushed' _ Hn Hw I1 HO HC L1) as (ds & e2 & E2 & Lim).
  - destruct Hl as [->|Hl]; [done|]. by apply (sorted_app_le (request_times key [op])).
  - by apply (sorted_app_r (request_times key [op])).
  - exists (d :: ds), e2. cbn [risk_run]. rewrite E, bind_ret, E2, bind_ret. split; [done|].
    by rewrite accepted_times_cons, app_assoc.
Qed.
End Limit.

(** ** Properties *)

(** C17. The engine accepts exactly the safe orders. After any sequence of calls with
    times in range, evaluating a request returns, and it is never accepted for a market
    that is not configured. For a configured market, if none of the numbers its rules
    compare is NaN, the request is accepted if and only if it satisfies every rule
    (shape, quantity and notional limits, price band, balance or position, request
    limit, no crossing of an own resting order), the notional being taken at the mid
    price last published; and a rejection names a rule that is broken. (NaN passes the
    guards: [risk_accepts_nan].) *)
Theorem risk_decision_correct {Q : Type} `{QueueLaws Q RiskDecision} (q : Q) (ops : list risk_op)
    (ds : list (option RiskDecision)) (e : PreTradeRiskEngine Q) (request : RiskOrderRequest) :
  represents q [] -> 1 <= room q -> Forall risk_op_ok ops -> kr_timestamp_ms request < two63 ->
  risk_run (RiskEngine_new q) ops = Ret (ds, e) ->
  exists d e', Risk_evaluate e request = Ret (d, e') /\
    (re_markets e !! kr_symbol request = None -> rd_accepted d = false) /\
    forall m, re_markets e !! kr_symbol request = Some m -> no_nan e m request ->
      (rd_accepted d = true <-> order_safe e m request) /\
      (rd_accepted d = true -> rd_reject_reason d = kRiskNone) /\
      (rd_accepted d = false -> rule_broken e request (rd_reject_reason d)) /\
      forall bid ask, ms_best_bid m = Some bid -> ms_best_ask m = Some ask ->
        rd_reference_price d = ddiv (dadd bid ask) (double_of_Z 2) /\
        rd_estimated_notional d = dmul (rd_reference_price d) (kr_quantity request).
Proof.
  intros Hq Hroom HO Ht E.
  destruct (risk_run_spec ops _ (risk_new_inv q Hq Hroom) HO) as (ds' & e0 & E' & I & _).
  rewrite E' in E. injection E as -> ->.
  destruct (evaluate_spec e request I Ht) as (d & e' & Ee & _ & _ & _ & Hd).
  exists d, e'. split; [done|]. split.
  { intros Hm. rewrite Hm in Hd. by destruct Hd as [-> _]. }
  intros m Hm N. rewrite Hm in Hd. destruct (ri_market _ I _ _ Hm) as [Mok _].
  assert (Href : rd_reference_price d = reference_price m request /\
    rd_estimated_notional d = dmul (rd_reference_price d) (kr_quantity request)).
  { destruct (shape_ok request); destruct Hd as [-> _].
    - unfold rules_decision, evaluate_market_rules. repeat case_match; unfold make_decision; by rewrite Hm.
    - unfold make_decision; by rewrite Hm. }
  destruct Href as [Href Hnot].
  assert (Hmid : forall bid ask, ms_best_bid m = Some bid -> ms_best_ask m = Some ask ->
    rd_reference_price d = ddiv (dadd bid ask) (double_of_Z 2) /\
    rd_estimated_notional d = dmul (rd_reference_price d) (kr_quantity request)).
  { intros bid ask Eb Ea. split; [|done]. by rewrite Href, (reference_price_spec m request Mok), Eb, Ea. }
  destruct (shape_ok request) eqn:Hs.
  - destruct Hd as [-> _]. destruct (rules_decision_spec e m request Hm Hs N) as (H1 & H2 & H3). by split_and!.
  - destruct Hd as [-> _]. split_and!; try done. split; [done|]. intros O.
    apply (safe_shape e m request) in O; [congruence|apply N].
Qed.

Definition sample_config : MarketRiskConfig :=
  mkRiskConfig "BTC" (double_of_Z 5) (double_of_Z 500000) (dlit 5 2) 2 1000 true.

Definition sample_order (id : string) (price quantity t : Z) : RiskOrderRequest :=
  mkRiskRequest id "alice" "BTC" "10.0.0.1" kRiskBuy kRiskLimit (double_of_Z price) (double_of_Z quantity) t.

Definition sample_market : list risk_op :=
  [RkConfigure sample_config; RkTop "BTC" (double_of_Z 9990) (double_of_Z 10010);
   RkAccount "alice" "BTC" (mkAccountRisk (double_of_Z 50000) (double_of_Z 2));
   RkTrack "BTC" (mkRiskResting "alice" kRiskSell (double_of_Z 10020) (double_of_Z 1))].

Definition sample_queue : SpscRingQueue RiskDecision := mkSpsc 4 3 (replicate 4 None) 0 0.

Lemma sample_queue_ok : represents sample_queue [] /\ room sample_queue = 4.
Proof.
  destruct (Spsc_new_spec (T := RiskDecision) 4 ltac:(done)) as (q & E & R & _).
  vm_compute in E. injection E as <-. split; [by exists 0|done].
Qed.

(** The state of a run that is known to return. *)
Definition risk_state (ops : list risk_op) : list (option RiskDecision) * PreTradeRiskEngine (SpscRingQueue RiskDecision) :=
  match risk_run (RiskEngine_new sample_queue) ops with
  | Ret x => x
  | _ => ([], RiskEngine_new sample_queue)
  end.

Lemma risk_state_eq (ops : list risk_op) : Forall risk_op_ok ops ->
  risk_run (RiskEngine_new sample_queue) ops = Ret ((risk_state ops).1, (risk_state ops).2).
Proof.
  intros HO. destruct sample_queue_ok as [H1 H2]. unfold risk_state.
  destruct (risk_run_spec ops _ (risk_new_inv sample_queue H1 ltac:(rewrite H2; lia)) HO) as (ds & e & -> & _). done.
Qed.

Lemma risk_decision_correct_witness :
  let e := (risk_state sample_market).2 in
  (exists d e', Risk_evaluate e (sample_order "1" 10005 1 100) = Ret (d, e') /\ rd_accepted d = true) /\
  exists d e', Risk_evaluate e (sample_order "2" 10500 1 100) = Ret (d, e') /\
    rule_broken e (sample_order "2" 10500 1 100) (rd_reject_reason d).
Proof.
  intros e. destruct sample_queue_ok as [H1 H2].
  assert (HO : Forall risk_op_ok sample_market) by (repeat constructor; vm_compute; congruence).
  assert (HN : forall r, r = sample_order "1" 10005 1 100 \/ r = sample_order "2" 10500 1 100 ->
    exists m, re_markets e !! "BTC" = Some m /\ no_nan e m r).
  { intros r Hr. eexists. split; [vm_compute; reflexivity|].
    destruct Hr as [-> | ->]; split; intros; repeat constructor; vm_compute; reflexivity. }
  split.
  - destruct (risk_decision_correct sample_queue sample_market _ e (sample_order "1" 10005 1 100) H1
      ltac:(rewrite H2; lia) HO ltac:(done) (risk_state_eq sample_market HO)) as (d & e' & E & _ & HD).
    destruct (HN _ (or_introl eq_refl)) as (m & Em & N). destruct (HD m Em N) as [HA _].
    exists d, e'. split; [exact E|]. apply HA. clear -Em. vm_compute in Em. injection Em as <-.
    split; try (vm_compute; by split_and!); try (vm_compute; done).
    intros _. repeat constructor; vm_compute; reflexivity.
  - destruct (risk_decision_correct sample_queue sample_market _ e (sample_order "2" 10500 1 100) H1
      ltac:(rewrite H2; lia) HO ltac:(done) (risk_state_eq sample_market HO)) as (d & e' & E & _ & HD).
    destruct (HN _ (or_intror eq_refl)) as (m & Em & N). destruct (HD m Em N) as (_ & _ & HR & _).
    exists d, e'. split; [exact E|]. apply HR. revert E. vm_compute. by intros [= <- <-].
Defined.

(** C18. When every market is configured with one and the same window and with a limit
    of at most [n], and the requests of a key, a user at an address, carry ascending
    times, the key never gets more than [n] requests accepted in an interval of the
    window's length, whatever other calls come between. (With windows of different
    lengths it can: [risk_window_shared].) *)
Theorem risk_rate_limit {Q : Type} `{QueueLaws Q RiskDecision} (q : Q) (key : string) (window_ms n : Z)
    (ops : list risk_op) :
  represents q [] -> 1 <= room q -> 0 <= n -> 0 <= window_ms -> Forall risk_op_ok ops ->
  Forall (limit_config window_ms n) ops -> StronglySorted Z.le (request_times key ops) ->
  exists ds e, risk_run (RiskEngine_new q) ops = Ret (ds, e) /\
    forall t, Z.of_nat (length (within (t - window_ms) t (accepted_times key ops ds))) <= n.
Proof.
  intros Hq Hroom Hn Hw HO HC HS.
  assert (Hlast : exists last, Forall (Z.le last) (request_times key ops)).
  { destruct (request_times key ops) as [|t l]; [by exists 0|]. exists t.
    apply StronglySorted_inv in HS as [_ HS]. by constructor. }
  destruct Hlast as [last HF].
  apply (limit_run key window_ms n ops (RiskEngine_new q) last [] []); try done.
  split; [done|by apply window_inv_new].
Qed.

Lemma risk_rate_limit_witness :
  let ops := sample_market ++ [RkEvaluate (sample_order "1" 10005 1 100); RkEvaluate (sample_order "2" 10005 1 200);
    RkEvaluate (sample_order "3" 10005 1 1100); RkEvaluate (sample_order "4" 10005 1 1101)] in
  exists ds e, risk_run (RiskEngine_new sample_queue) ops = Ret (ds, e) /\
    accepted_times "alice|10.0.0.1" ops ds = [100; 200] /\
    Z.of_nat (length (within 100 1100 (accepted_times "alice|10.0.0.1" ops ds))) <= 2.
Proof.
  intros ops. destruct sample_queue_ok as [H1 H2].
  destruct (risk_rate_limit sample_queue "alice|10.0.0.1" 1000 2 ops H1) as (ds & e & E & HL).
  - rewrite H2. lia.
  - lia.
  - lia.
  - repeat constructor; vm_compute; congruence.
  - repeat constructor; vm_compute; congruence.
  - vm_compute. repeat constructor; discriminate.
  - exists ds, e. split; [exact E|]. split; [|exact (HL 1100)].
    revert E. vm_compute. by intros [= <- _].
Defined.

(** C19. The audit log is complete: after any sequence of calls, every one of which
    returns, the log holds exactly the decisions returned, in order, and no
    decision is left in the audit queue. *)
Theorem risk_audit_complete {Q : Type} `{QueueLaws Q RiskDecision} (q : Q) (ops : list risk_op) :
  represents q [] -> 1 <= room q -> Forall risk_op_ok ops ->
  exists ds e, risk_run (RiskEngine_new q) ops = Ret (ds, e) /\
    Risk_audit_log e = List.flat_map decision_list ds /\ Risk_pending_audit_events e = 0.
Proof.
  intros Hq Hroom HO. destruct (risk_run_spec ops _ (risk_new_inv q Hq Hroom) HO) as (ds & e & E & [[Ha _] _] & Eh).
  exists ds, e. split_and!; [done|done|]. unfold Risk_pending_audit_events. by rewrite (size_represents _ [] Ha).
Qed.

Lemma risk_audit_complete_witness :
  exists ds e, risk_run (RiskEngine_new sample_queue)
      (sample_market ++ [RkEvaluate (sample_order "1" 10005 1 100); RkEvaluate (sample_order "" 10005 1 200)]) =
    Ret (ds, e) /\ Risk_audit_log e = List.flat_map decision_list ds /\
    map rd_reject_reason (Risk_audit_log e) = [kRiskNone; kInvalidRequest].
Proof.
  destruct sample_queue_ok as [H1 H2].
  destruct (risk_audit_complete sample_queue
    (sample_market ++ [RkEvaluate (sample_order "1" 10005 1 100); RkEvaluate (sample_order "" 10005 1 200)]) H1)
    as (ds & e & E & Ea & _).
  - rewrite H2. lia.
  - repeat constructor; vm_compute; congruence.
  - exists ds, e. split; [exact E|]. split; [exact Ea|]. revert E. vm_compute. by intros [= <- <-].
Defined.

(** ** What the guards let through *)

(** Every guard is false for NaN: an order of NaN quantity from an account that has
    nothing is accepted. *)
Fact risk_accepts_nan :
  let order := mkRiskRequest "1" "mallory" "BTC" "10.0.0.2" kRiskBuy kRiskLimit (double_of_Z 10000)
    SpecFloat.S754_nan 100 in
  map rd_accepted (List.flat_map decision_list (risk_state (sample_market ++ [RkEvaluate order])).1) = [true].
Proof. vm_compute. reflexivity. Qed.

(** Two accounts share a key when the separator occurs in a name. *)
Fact account_key_collides : account_key "a" "b|c" = account_key "a|b" "c".
Proof. reflexivity. Qed.

(** A request in a market with a short window trims the times another market's
    limit needs: three requests are accepted within 101 ms under a limit of two
    per second. *)
Fact risk_window_shared :
  let eth := mkRiskConfig "ETH" (double_of_Z 5) (double_of_Z 500000) (dlit 5 2) 2 1 true in
  let in_eth := mkRiskRequest "x" "alice" "ETH" "10.0.0.1" kRiskBuy kRiskLimit (double_of_Z 1) (double_of_Z 1) 200 in
  let ops := sample_market ++ [RkConfigure eth; RkEvaluate (sample_order "1" 10005 1 100);
    RkEvaluate (sample_order "2" 10005 1 101); RkEvaluate in_eth; RkEvaluate (sample_order "3" 10005 1 201)] in
  map (fun d => (rd_symbol d, rd_accepted d)) (List.flat_map decision_list (risk_state ops).1) =
  [("BTC", true); ("BTC", true); ("ETH", false); ("BTC", true)].
Proof. vm_compute. reflexivity. Qed.
