(* ===== verification/Gateway.v ===== *)
(** * Unified access gateway: data and operations
    ([core-exchange/unified-access-gateway])

    A request passes shape, signature, routing, backend health and rate-limit checks,
    is put into the ingress queue, and a route event is published. Sessions are kept
    alive by heartbeats. The queue is any [QueueOps]; [std::sort], whose order of
    equivalent elements is unspecified, is the parameter [std_sort]. *)

From S2P Require Import Prelude MarketTypes Broadcaster Queue RateWindow.

Local Open Scope Z_scope.

Inductive Protocol := kRest | kWebSocket | kFix.

Inductive Backend := kRisk | kMatching | kClearing | kMarketData.
#[export] Instance Backend_eq_dec : EqDecision Backend.
Proof. solve_decision. Defined.

Inductive GatewayRejectReason :=
| kGateNone
| kGateInvalidRequest
| kAuthenticationFailed
| kGateRateLimited
| kUnknownRoute
| kCircuitOpen
| kQueueFull.
#[export] Instance GatewayRejectReason_eq_dec : EqDecision GatewayRejectReason.
Proof. solve_decision. Defined.

Record GatewayRequest := mkGatewayRequest {
  gq_request_id : string;
  gq_user_id : string;
  gq_api_key : string;
  gq_signature : string;
  gq_path : string;
  gq_payload : string;
  gq_protocol : Protocol;
  gq_timestamp_ms : Z
}.

Record ForwardedRequest := mkForwarded {
  fw_request_id : string;
  fw_user_id : string;
  fw_path : string;
  fw_payload : string;
  fw_backend : Backend;
  fw_protocol : Protocol;
  fw_timestamp_ms : Z
}.

Record RouteResult := mkRouteResult {
  rt_accepted : bool;
  rt_reject_reason : GatewayRejectReason;
  rt_backend : Backend;
  rt_route_name : string;
  rt_queued_requests : Z
}.

(** [RouteResult{.accepted = false, .reject_reason = ..., .backend = ...}] *)
Definition route_rejected (reason : GatewayRejectReason) (backend : Backend) : RouteResult :=
  mkRouteResult false reason backend "" 0.

Record Credential := mkCredential { cr_secret : string; cr_user_id : string }.

Record RouteConfig := mkRoute {
  ro_path_prefix : string;
  ro_backend : Backend;
  ro_route_name : string
}.

Record RateLimit := mkRateLimit { rl_max_requests : Z; rl_window_ms : Z }.

Record SessionState := mkSession {
  se_protocol : Protocol;
  se_heartbeat_timeout_ms : Z;
  se_last_heartbeat_ms : Z;
  se_live : bool
}.

Definition expected_signature (api_key secret request_id : string) : string :=
  api_key +:+ ":" +:+ secret +:+ ":" +:+ request_id.

Definition has_valid_request_shape (request : GatewayRequest) : bool :=
  negb (bool_decide (gq_request_id request = "")) && negb (bool_decide (gq_user_id request = "")) &&
  negb (bool_decide (gq_api_key request = "")) && negb (bool_decide (gq_path request = "")) &&
  (0 <? gq_timestamp_ms request).

Definition make_forwarded_request (request : GatewayRequest) (backend : Backend) : ForwardedRequest :=
  mkForwarded (gq_request_id request) (gq_user_id request) (gq_path request) (gq_payload request)
    backend (gq_protocol request) (gq_timestamp_ms request).

Definition route_event_payload (request : ForwardedRequest) (route_name : string) : string :=
  fw_request_id request +:+ ":" +:+ route_name +:+ ":" +:+ fw_path request.

(** [left.path_prefix.size() > right.path_prefix.size()] *)
Definition longer_prefix (left right : RouteConfig) : bool :=
  (String.length (ro_path_prefix right) <? String.length (ro_path_prefix left))%nat.

(** The first route whose prefix starts the path. *)
Definition match_in (routes : list RouteConfig) (path : string) : option RouteConfig :=
  List.find (fun r => String.prefix (ro_path_prefix r) path) routes.

(** ** Sessions *)

Definition session_stale (now_ms : Z) (s : SessionState) : outcome bool :=
  if se_live s
  then gap ← sub_i64 now_ms (se_last_heartbeat_ms s); Ret (se_heartbeat_timeout_ms s <? gap)
  else Ret false.

Definition close_session (s : SessionState) : SessionState :=
  mkSession (se_protocol s) (se_heartbeat_timeout_ms s) (se_last_heartbeat_ms s) false.

(** The loop over the sessions; the order of an [unordered_map] does not matter,
    each iteration writes its own entry. *)
Fixpoint close_loop (now_ms : Z) (todo : list (string * SessionState)) (closed : Z)
    (sessions : gmap string SessionState) : outcome (Z * gmap string SessionState) :=
  match todo with
  | [] => Ret (closed, sessions)
  | (id, s) :: todo =>
    stale ← session_stale now_ms s;
    if (stale : bool)
    then close_loop now_ms todo (wrap_u64 (closed + 1)) (<[id := close_session s]> sessions)
    else close_loop now_ms todo closed sessions
  end.

Section Gateway.
Context {Q : Type} `{QueueOps Q ForwardedRequest}.
Context (std_sort : (RouteConfig -> RouteConfig -> bool) -> list RouteConfig -> list RouteConfig).

Record UnifiedAccessGateway := mkGateway {
  gw_credentials : gmap string Credential;
  gw_routes : list RouteConfig;
  gw_user_limits : gmap string RateLimit;
  gw_user_windows : gmap string (list Z);
  gw_backend_health : list (Backend * bool);
  gw_sessions : gmap string SessionState;
  gw_ingress_queue : Q;
  gw_broadcaster : Broadcaster
}.

(** [backend_health_[backend] = healthy] on the map as a list of its entries. *)
Fixpoint set_health (backend : Backend) (healthy : bool) (m : list (Backend * bool)) : list (Backend * bool) :=
  match m with
  | [] => [(backend, healthy)]
  | (b, h) :: m => if decide (b = backend) then (b, healthy) :: m else (b, h) :: set_health backend healthy m
  end.

Definition Gateway_new (ingress_queue : Q) : UnifiedAccessGateway :=
  mkGateway ∅ [] ∅ ∅ [(kRisk, true); (kMatching, true); (kClearing, true); (kMarketData, true)] ∅
    ingress_queue Broadcaster_new.

Definition Gateway_register_credential (g : UnifiedAccessGateway) (api_key secret user_id : string)
    : UnifiedAccessGateway :=
  mkGateway (<[api_key := mkCredential secret user_id]> (gw_credentials g)) (gw_routes g) (gw_user_limits g)
    (gw_user_windows g) (gw_backend_health g) (gw_sessions g) (gw_ingress_queue g) (gw_broadcaster g).

Definition Gateway_configure_route (g : UnifiedAccessGateway) (path_prefix : string) (backend : Backend)
    (route_name : string) : UnifiedAccessGateway :=
  mkGateway (gw_credentials g) (std_sort longer_prefix (gw_routes g ++ [mkRoute path_prefix backend route_name]))
    (gw_user_limits g) (gw_user_windows g) (gw_backend_health g) (gw_sessions g) (gw_ingress_queue g)
    (gw_broadcaster g).

Definition Gateway_set_user_rate_limit (g : UnifiedAccessGateway) (user_id : string) (max_requests window_ms : Z)
    : UnifiedAccessGateway :=
  mkGateway (gw_credentials g) (gw_routes g) (<[user_id := mkRateLimit max_requests window_ms]> (gw_user_limits g))
    (gw_user_windows g) (gw_backend_health g) (gw_sessions g) (gw_ingress_queue g) (gw_broadcaster g).

Definition Gateway_set_backend_health (g : UnifiedAccessGateway) (backend : Backend) (healthy : bool)
    : UnifiedAccessGateway :=
  mkGateway (gw_credentials g) (gw_routes g) (gw_user_limits g) (gw_user_windows g)
    (set_health backend healthy (gw_backend_health g)) (gw_sessions g) (gw_ingress_queue g) (gw_broadcaster g).

Definition set_sessions (g : UnifiedAccessGateway) (m : gmap string SessionState) : UnifiedAccessGateway :=
  mkGateway (gw_credentials g) (gw_routes g) (gw_user_limits g) (gw_user_windows g) (gw_backend_health g) m
    (gw_ingress_queue g) (gw_broadcaster g).

Definition Gateway_open_session (g : UnifiedAccessGateway) (session_id : string) (protocol : Protocol)
    (heartbeat_timeout_ms timestamp_ms : Z) : UnifiedAccessGateway :=
  set_sessions g (<[session_id := mkSession protocol heartbeat_timeout_ms timestamp_ms true]> (gw_sessions g)).

Definition Gateway_record_heartbeat (g : UnifiedAccessGateway) (session_id : string) (timestamp_ms : Z)
    : bool * UnifiedAccessGateway :=
  match gw_sessions g !! session_id with
  | None => (false, g)
  | Some s =>
    if negb (se_live s) then (false, g)
    else (true, set_sessions g (<[session_id :=
                  mkSession (se_protocol s) (se_heartbeat_timeout_ms s) timestamp_ms (se_live s)]> (gw_sessions g)))
  end.

Definition Gateway_close_stale_sessions (g : UnifiedAccessGateway) (now_ms : Z)
    : outcome (Z * UnifiedAccessGateway) :=
  '(closed, sessions) ← close_loop now_ms (map_to_list (gw_sessions g)) 0 (gw_sessions g);
  Ret (closed, set_sessions g sessions).

Definition Gateway_live_session_count (g : UnifiedAccessGateway) : nat :=
  length (List.filter (fun '(_, s) => se_live s) (map_to_list (gw_sessions g))).

(** ** Routing *)

Definition has_valid_credentials (g : UnifiedAccessGateway) (request : GatewayRequest) : bool :=
  match gw_credentials g !! gq_api_key request with
  | None => false
  | Some c => bool_decide (cr_user_id c = gq_user_id request) &&
      bool_decide (gq_signature request =
        expected_signature (gq_api_key request) (cr_secret c) (gq_request_id request))
  end.

Definition backend_available (g : UnifiedAccessGateway) (backend : Backend) : bool :=
  match List.find (fun '(b, _) => bool_decide (b = backend)) (gw_backend_health g) with
  | None => true
  | Some (_, healthy) => healthy
  end.

Definition set_user_window (g : UnifiedAccessGateway) (user_id : string) (window : list Z) : UnifiedAccessGateway :=
  mkGateway (gw_credentials g) (gw_routes g) (gw_user_limits g) (<[user_id := window]> (gw_user_windows g))
    (gw_backend_health g) (gw_sessions g) (gw_ingress_queue g) (gw_broadcaster g).

Definition consume_rate_limit (g : UnifiedAccessGateway) (user_id : string) (timestamp_ms : Z)
    : outcome (bool * UnifiedAccessGateway) :=
  match gw_user_limits g !! user_id with
  | None => Ret (true, g)
  | Some limit =>
    window ← trim_window (default [] (gw_user_windows g !! user_id)) timestamp_ms (rl_window_ms limit);
    if rl_max_requests limit <=? Z.of_nat (length window)
    then Ret (false, set_user_window g user_id window)
    else Ret (true, set_user_window g user_id (window ++ [timestamp_ms]))
  end.

Definition set_ingress (g : UnifiedAccessGateway) (q : Q) (b : Broadcaster) : UnifiedAccessGateway :=
  mkGateway (gw_credentials g) (gw_routes g) (gw_user_limits g) (gw_user_windows g) (gw_backend_health g)
    (gw_sessions g) q b.

Definition make_accepted_route_result (g : UnifiedAccessGateway) (route : RouteConfig) : RouteResult :=
  mkRouteResult true kGateNone (ro_backend route) (ro_route_name route) (size_approx_impl (gw_ingress_queue g)).

Definition match_route (g : UnifiedAccessGateway) (path : string) : option RouteConfig :=
  match_in (gw_routes g) path.

Definition Gateway_route (g : UnifiedAccessGateway) (request : GatewayRequest)
    : outcome (RouteResult * UnifiedAccessGateway) :=
  if negb (has_valid_request_shape request) then Ret (route_rejected kGateInvalidRequest kRisk, g)
  else if negb (has_valid_credentials g request) then Ret (route_rejected kAuthenticationFailed kRisk, g)
  else match match_route g (gq_path request) with
  | None => Ret (route_rejected kUnknownRoute kRisk, g)
  | Some route =>
    if negb (backend_available g (ro_backend route)) then Ret (route_rejected kCircuitOpen (ro_backend route), g)
    else
      '(allowed, g) ← consume_rate_limit g (gq_user_id request) (gq_timestamp_ms request);
      if negb allowed then Ret (route_rejected kGateRateLimited (ro_backend route), g)
      else
        let forwarded := make_forwarded_request request (ro_backend route) in
        '(pushed, q) ← push_impl (gw_ingress_queue g) forwarded;
        if negb pushed then Ret (route_rejected kQueueFull (ro_backend route), set_ingress g q (gw_broadcaster g))
        else
          let '(_, b) := Broadcaster_publish (gw_broadcaster g) "gateway.routes"
            (route_event_payload forwarded (ro_route_name route)) in
          let g := set_ingress g q b in
          Ret (make_accepted_route_result g route, g)
  end.

Definition Gateway_poll_forwarded_request (g : UnifiedAccessGateway)
    : outcome (option ForwardedRequest * UnifiedAccessGateway) :=
  '(item, q) ← try_pop_impl (gw_ingress_queue g);
  Ret (item, set_ingress g q (gw_broadcaster g)).

Definition Gateway_replay_route_events (g : UnifiedAccessGateway) (sequence_after : Z) : list BroadcastMessage :=
  Broadcaster_replay (gw_broadcaster g) "gateway.routes" sequence_after.
End Gateway.
Arguments UnifiedAccessGateway Q : clear implicits.
