(* ===== verification/GatewayProofs.v ===== *)
(** * Unified access gateway: what it guarantees

    Routing decisions, delivery through the ingress queue, the per-user limit and
    the life of sessions. *)

From S2P Require Import Prelude MarketTypes Broadcaster Queue Spsc RateWindow Gateway.

Local Open Scope Z_scope.

(** ** What [std::sort] promises *)

(** A permutation in which no element must come before an earlier one. *)
Class SortLaws (std_sort : (RouteConfig -> RouteConfig -> bool) -> list RouteConfig -> list RouteConfig) := {
  sort_perm : forall less l, Permutation (std_sort less l) l;
  sort_sorted : forall l, StronglySorted (fun a b => longer_prefix b a = false) (std_sort longer_prefix l)
}.

(** One such sort, for the concrete runs. *)
Definition prefix_le (a b : RouteConfig) : Prop := longer_prefix b a = false.
#[export] Instance prefix_le_dec : RelDecision prefix_le.
Proof. intros a b. unfold prefix_le. apply _. Defined.
#[export] Instance prefix_le_trans : Transitive prefix_le.
Proof. intros a b c. unfold prefix_le, longer_prefix. rewrite !Nat.ltb_ge. lia. Qed.
#[export] Instance prefix_le_total : Total prefix_le.
Proof. intros a b. unfold prefix_le, longer_prefix. rewrite !Nat.ltb_ge. lia. Qed.

Definition stable_sort (less : RouteConfig -> RouteConfig -> bool) (l : list RouteConfig) : list RouteConfig :=
  merge_sort prefix_le l.

#[export] Instance stable_sort_laws : SortLaws stable_sort.
Proof.
  split; intros; [apply merge_sort_Permutation|]. apply (StronglySorted_merge_sort prefix_le).
Qed.

(** ** Sequences of calls *)

Inductive gateway_op :=
| GwCredential (api_key secret user_id : string)
| GwRoute (path_prefix : string) (backend : Backend) (route_name : string)
| GwLimit (user_id : string) (max_requests window_ms : Z)
| GwHealth (backend : Backend) (healthy : bool)
| GwOpen (session_id : string) (protocol : Protocol) (timeout_ms timestamp_ms : Z)
| GwHeartbeat (session_id : string) (timestamp_ms : Z)
| GwClose (now_ms : Z)
| GwSubmit (request : GatewayRequest)
| GwPoll.

Inductive gateway_return :=
| GrNone
| GrBool (b : bool)
| GrClosed (closed : Z)
| GrRoute (r : RouteResult)
| GrPolled (item : option ForwardedRequest).

(** Times lie in the non-negative range of [std::int64_t]. *)
Definition time_ok (t : Z) : Prop := 0 <= t < two63.

Definition gateway_op_ok (op : gateway_op) : Prop :=
  match op with
  | GwLimit _ max_requests window_ms => 0 <= max_requests /\ time_ok window_ms
  | GwOpen _ _ _ t | GwHeartbeat _ t | GwClose t => time_ok t
  | GwSubmit request => gq_timestamp_ms request < two63
  | _ => True
  end.

Section Gateway.
Context {Q : Type} `{QueueLaws Q ForwardedRequest}.
Context (std_sort : (RouteConfig -> RouteConfig -> bool) -> list RouteConfig -> list RouteConfig)
  `{!SortLaws std_sort}.

Implicit Types g : UnifiedAccessGateway Q.

Definition gateway_step g (op : gateway_op) : outcome (gateway_return * UnifiedAccessGateway Q) :=
  match op with
  | GwCredential k s u => Ret (GrNone, Gateway_register_credential g k s u)
  | GwRoute p b n => Ret (GrNone, Gateway_configure_route std_sort g p b n)
  | GwLimit u n w => Ret (GrNone, Gateway_set_user_rate_limit g u n w)
  | GwHealth b h => Ret (GrNone, Gateway_set_backend_health g b h)
  | GwOpen id p timeout t => Ret (GrNone, Gateway_open_session g id p timeout t)
  | GwHeartbeat id t => let '(b, g) := Gateway_record_heartbeat g id t in Ret (GrBool b, g)
  | GwClose now => '(n, g) ← Gateway_close_stale_sessions g now; Ret (GrClosed n, g)
  | GwSubmit request => '(r, g) ← Gateway_route g request; Ret (GrRoute r, g)
  | GwPoll => '(item, g) ← Gateway_poll_forwarded_request g; Ret (GrPolled item, g)
  end.

Fixpoint gateway_run g (ops : list gateway_op) : outcome (list gateway_return * UnifiedAccessGateway Q) :=
  match ops with
  | [] => Ret ([], g)
  | op :: ops =>
    '(r, g) ← gateway_step g op;
    '(rs, g) ← gateway_run g ops;
    Ret (r :: rs, g)
  end.

(** ** Invariant *)

Definition events g : list BroadcastMessage := topic_history (gw_broadcaster g) "gateway.routes".

(** [pending] is what the ingress queue holds; no time is out of range. *)
Record gateway_inv g (pending : list ForwardedRequest) (room_left : Z) : Prop := {
  gv_queue : represents (gw_ingress_queue g) pending;
  gv_room : room (gw_ingress_queue g) = room_left;
  gv_routes : StronglySorted (fun a b => longer_prefix b a = false) (gw_routes g);
  gv_limits : forall u l, gw_user_limits g !! u = Some l -> 0 <= rl_max_requests l /\ time_ok (rl_window_ms l);
  gv_sessions : forall id s, gw_sessions g !! id = Some s -> time_ok (se_last_heartbeat_ms s);
  gv_broadcaster : broadcaster_wf (gw_broadcaster g)
}.

Lemma gateway_new_inv (q : Q) : represents q [] -> gateway_inv (Gateway_new q) [] (room q).
Proof using Type.
  intros Hq. split; simpl; try done; [constructor|apply broadcaster_new_wf].
Qed.

(** ** Routing *)

Definition authentic g (request : GatewayRequest) : Prop :=
  exists c, gw_credentials g !! gq_api_key request = Some c /\ cr_user_id c = gq_user_id request /\
    gq_signature request = expected_signature (gq_api_key request) (cr_secret c) (gq_request_id request).

Lemma credentials_spec g (request : GatewayRequest) :
  has_valid_credentials g request = true <-> authentic g request.
Proof using Type.
  unfold has_valid_credentials, authentic. destruct (gw_credentials g !! _) as [c|].
  - rewrite andb_true_iff, !bool_decide_eq_true. naive_solver.
  - split; [done|]. by intros (? & ? & _).
Qed.

(** [route] is configured, starts the path, and no longer prefix does. *)
Definition best_route (routes : list RouteConfig) (path : string) (route : RouteConfig) : Prop :=
  In route routes /\ String.prefix (ro_path_prefix route) path = true /\
  forall r, In r routes -> String.prefix (ro_path_prefix r) path = true ->
    (String.length (ro_path_prefix r) <= String.length (ro_path_prefix route))%nat.

Lemma match_in_spec (routes : list RouteConfig) (path : string) :
  StronglySorted (fun a b => longer_prefix b a = false) routes ->
  match match_in routes path with
  | Some route => best_route routes path route
  | None => forall r, In r routes -> String.prefix (ro_path_prefix r) path = false
  end.
Proof using Type.
  unfold match_in. induction 1 as [|r routes Hs IH Hr]; simpl; [done|].
  destruct (String.prefix (ro_path_prefix r) path) eqn:Hp.
  - split; [by left|]. split; [done|]. intros r' [<-|Hin] _; [done|].
    rewrite List.Forall_forall in Hr. specialize (Hr r' Hin). unfold longer_prefix in Hr.
    by apply Nat.ltb_ge in Hr.
  - destruct (List.find _ routes) as [route|].
    + destruct IH as (H1 & H2 & H3). split; [by right|]. split; [done|].
      intros r' [<-|Hin] Hp'; [congruence|by apply H3].
    + intros r' [<-|Hin]; [done|by apply IH].
Qed.

(** The request times of the user inside the window. *)
Definition recent_times g (user : string) (now window_ms : Z) : list Z :=
  List.filter (fun t => negb (t <? now - window_ms)) (default [] (gw_user_windows g !! user)).

Definition within_limit g (request : GatewayRequest) : bool :=
  match gw_user_limits g !! gq_user_id request with
  | None => true
  | Some l => Z.of_nat (length (recent_times g (gq_user_id request) (gq_timestamp_ms request) (rl_window_ms l)))
                <? rl_max_requests l
  end.

(** What [consume_rate_limit] leaves of the windows. *)
Definition windows_after g (request : GatewayRequest) : gmap string (list Z) :=
  match gw_user_limits g !! gq_user_id request with
  | None => gw_user_windows g
  | Some l =>
    <[gq_user_id request := recent_times g (gq_user_id request) (gq_timestamp_ms request) (rl_window_ms l) ++
        (if within_limit g request then [gq_timestamp_ms request] else [])]> (gw_user_windows g)
  end.

Definition set_windows_of g (m : gmap string (list Z)) : UnifiedAccessGateway Q :=
  mkGateway (gw_credentials g) (gw_routes g) (gw_user_limits g) m (gw_backend_health g)
    (gw_sessions g) (gw_ingress_queue g) (gw_broadcaster g).

Lemma consume_spec_gw g (request : GatewayRequest) (pending : list ForwardedRequest) (c : Z) :
  gateway_inv g pending c -> 0 < gq_timestamp_ms request < two63 ->
  consume_rate_limit g (gq_user_id request) (gq_timestamp_ms request) =
    Ret (within_limit g request, set_windows_of g (windows_after g request)).
Proof using Type.
  intros I Ht. unfold consume_rate_limit, windows_after, within_limit.
  destruct (gw_user_limits g !! gq_user_id request) as [l|] eqn:El; [|by destruct g].
  destruct (gv_limits _ _ _ I _ _ El) as [_ Hw]. unfold time_ok in Hw.
  rewrite trim_window_ret by lia. rewrite bind_ret. fold (recent_times g (gq_user_id request)
    (gq_timestamp_ms request) (rl_window_ms l)). rewrite Z.leb_antisym.
  destruct (_ <? rl_max_requests l); simpl; [done|]. by rewrite app_nil_r.
Qed.

(** Why a request is refused. *)
Definition refused g (pending : list ForwardedRequest) (c : Z) (request : GatewayRequest)
    (reason : GatewayRejectReason) : Prop :=
  match reason with
  | kGateNone => False
  | kGateInvalidRequest => has_valid_request_shape request = false
  | kAuthenticationFailed => ~ authentic g request
  | kUnknownRoute => forall r, In r (gw_routes g) -> String.prefix (ro_path_prefix r) (gq_path request) = false
  | kCircuitOpen => exists route, match_route g (gq_path request) = Some route /\
      best_route (gw_routes g) (gq_path request) route /\
      backend_available g (ro_backend route) = false
  | kGateRateLimited => within_limit g request = false
  | kQueueFull => c <= Z.of_nat (length pending)
  end.

(** What an accepted request went through; [route] is the one chosen. *)
Record admitted g (pending : list ForwardedRequest) (c : Z) (request : GatewayRequest) (route : RouteConfig)
    : Prop := {
  ad_shape : has_valid_request_shape request = true;
  ad_authentic : authentic g request;
  ad_route : match_route g (gq_path request) = Some route;
  ad_best : best_route (gw_routes g) (gq_path request) route;
  ad_backend : backend_available g (ro_backend route) = true;
  ad_limit : within_limit g request = true;
  ad_room : Z.of_nat (length pending) < c
}.

(** The checks before the rate limit; past them the request's time is counted. *)
Definition reaches_limit g (request : GatewayRequest) : bool :=
  has_valid_request_shape request && has_valid_credentials g request &&
  match match_route g (gq_path request) with
  | Some route => backend_available g (ro_backend route)
  | None => false
  end.

Record routed g (pending : list ForwardedRequest) (c : Z) (request : GatewayRequest) (r : RouteResult) g'
    : Prop := {
  rd_forwarded := make_forwarded_request request (rt_backend r);
  rd_inv : gateway_inv g' (pending ++ if rt_accepted r then [rd_forwarded] else []) c;
  rd_events : map bm_payload (events g') =
    map bm_payload (events g) ++ if rt_accepted r then [route_event_payload rd_forwarded (rt_route_name r)] else [];
  rd_sequence : br_next_sequence (gw_broadcaster g') <= br_next_sequence (gw_broadcaster g) + 1;
  rd_limits : gw_user_limits g' = gw_user_limits g;
  rd_windows : gw_user_windows g' =
    if reaches_limit g request then windows_after g request else gw_user_windows g;
  rd_accepts : rt_accepted r = true -> rt_reject_reason r = kGateNone /\
    exists route, admitted g pending c request route /\ rt_backend r = ro_backend route /\
      rt_route_name r = ro_route_name route /\ rt_queued_requests r = Z.of_nat (length pending) + 1;
  rd_refuses : rt_accepted r = false -> refused g pending c request (rt_reject_reason r)
}.

(** A refusal before the rate limit leaves the gateway as it is. *)
Lemma routed_refused g (pending : list ForwardedRequest) (c : Z) (request : GatewayRequest)
    (reason : GatewayRejectReason) (b : Backend) :
  gateway_inv g pending c -> reaches_limit g request = false -> refused g pending c request reason ->
  routed g pending c request (route_rejected reason b) g.
Proof using Type.
  intros I Hr Hx. split; simpl; rewrite ?app_nil_r, ?Hr; try done. lia.
Qed.

Lemma windows_inv g (pending : list ForwardedRequest) (c : Z) (m : gmap string (list Z)) :
  gateway_inv g pending c -> gateway_inv (set_windows_of g m) pending c.
Proof using Type. by intros []. Qed.

#[local] Opaque Broadcaster_publish.

(** An admitted request that the queue takes: it is queued and announced. *)
Lemma routed_accepted g (pending : list ForwardedRequest) (c : Z) (request : GatewayRequest) (route : RouteConfig) (q : Q) :
  gateway_inv g pending c -> br_next_sequence (gw_broadcaster g) + 2 < two64 ->
  reaches_limit g request = true -> admitted g pending c request route ->
  let forwarded := make_forwarded_request request (ro_backend route) in
  represents q (pending ++ [forwarded]) -> room q = c ->
  let '(_, b) := Broadcaster_publish (gw_broadcaster g) "gateway.routes" (route_event_payload forwarded (ro_route_name route)) in
  let g' := set_ingress (set_windows_of g (windows_after g request)) q b in
  routed g pending c request (make_accepted_route_result g' route) g'.
Proof using Type*.
  intros I Hseq Hreach Had forwarded Hq Hroom. set (payload := route_event_payload _ _).
  pose proof (publish_wf (gw_broadcaster g) (gv_broadcaster _ _ _ I) "gateway.routes" payload Hseq) as Hpub.
  pose proof (topic_history_publish (gw_broadcaster g) "gateway.routes" payload "gateway.routes") as Hhist.
  pose proof (eq_refl : br_next_sequence (Broadcaster_publish (gw_broadcaster g) "gateway.routes" payload).2 =
    wrap_u64 (br_next_sequence (gw_broadcaster g) + 1)) as Hnext.
  pose proof (eq_refl : bm_payload (Broadcaster_publish (gw_broadcaster g) "gateway.routes" payload).1 = payload) as Hpay.
  destruct (Broadcaster_publish (gw_broadcaster g) "gateway.routes" payload) as [m b]. simpl in Hnext, Hpay.
  destruct Hpub as [_ Hwf]. rewrite decide_True in Hhist by done. split; simpl.
  - split; try apply I; simpl; done.
  - unfold events. simpl. rewrite Hhist, map_app. simpl. by rewrite Hpay.
  - rewrite Hnext, wrap_u64_id; [done|]. pose proof (bwf_next _ (gv_broadcaster _ _ _ I)).
    unfold in_u64. rewrite andb_true_iff, Z.leb_le, Z.ltb_lt. lia.
  - done.
  - by rewrite Hreach.
  - intros _. split; [done|]. exists route. split_and!; try done.
    rewrite (size_represents q _ Hq), length_app. simpl. lia.
  - done.
Qed.

Lemma route_spec g (pending : list ForwardedRequest) (c : Z) (request : GatewayRequest) :
  gateway_inv g pending c -> gq_timestamp_ms request < two63 ->
  br_next_sequence (gw_broadcaster g) + 2 < two64 ->
  exists r g', Gateway_route g request = Ret (r, g') /\ routed g pending c request r g'.
Proof using Type*.
  intros I Ht Hseq. unfold Gateway_route.
  destruct (has_valid_request_shape request) eqn:Hs; simpl.
  2: { eexists _, g. split; [done|]. apply routed_refused; [done| |done]. unfold reaches_limit. by rewrite Hs. }
  destruct (has_valid_credentials g request) eqn:Hc; simpl.
  2: { eexists _, g. split; [done|]. apply routed_refused; [done| |].
    - unfold reaches_limit. by rewrite Hs, Hc.
    - simpl. rewrite <- credentials_spec. by rewrite Hc. }
  pose proof (match_in_spec (gw_routes g) (gq_path request) (gv_routes _ _ _ I)) as Hm.
  fold (match_route g (gq_path request)) in Hm. destruct (match_route g (gq_path request)) as [route|] eqn:Er.
  2: { eexists _, g. split; [done|]. apply routed_refused; [done| |done].
    unfold reaches_limit. by rewrite Hs, Hc, Er. }
  destruct (backend_available g (ro_backend route)) eqn:Hb; simpl.
  2: { eexists _, g. split; [done|]. apply routed_refused; [done| |by exists route].
    unfold reaches_limit. by rewrite Hs, Hc, Er. }
  assert (Hreach : reaches_limit g request = true) by (unfold reaches_limit; by rewrite Hs, Hc, Er, Hb).
  assert (Hpos : 0 < gq_timestamp_ms request).
  { unfold has_valid_request_shape in Hs. rewrite !andb_true_iff, Z.ltb_lt in Hs. tauto. }
  rewrite (consume_spec_gw g request pending c I ltac:(lia)), bind_ret.
  set (g1 := set_windows_of g _). pose proof (windows_inv _ _ _ (windows_after g request) I) as I1. fold g1 in I1.
  destruct (within_limit g request) eqn:Hl; simpl negb; cbn match.
  2: { eexists _, g1. split; [done|]. split; simpl; rewrite ?app_nil_r, ?Hreach; try done. lia. }
  change (gw_ingress_queue g1) with (gw_ingress_queue g). cbn zeta.
  pose proof (gv_room _ _ _ I) as Hroom.
  destruct (Z.lt_ge_cases (Z.of_nat (length pending)) c) as [Hlt|Hge].
  - destruct (push_room (gw_ingress_queue g) pending (make_forwarded_request request (ro_backend route))
      (gv_queue _ _ _ I) ltac:(lia)) as (q & -> & Hq & Hroomq). rewrite bind_ret. simpl negb. cbn match.
    assert (Had : admitted g pending c request route) by (split; try done; by apply credentials_spec).
    pose proof (routed_accepted g pending c request route q I Hseq Hreach Had Hq ltac:(congruence)) as HR.
    change (gw_broadcaster g1) with (gw_broadcaster g).
    destruct (Broadcaster_publish _ _ _) as [m b]. eexists _, _. split; [done|]. exact HR.
  - rewrite (push_full (gw_ingress_queue g) pending _ (gv_queue _ _ _ I)) by lia. rewrite bind_ret. simpl negb. cbn match.
    eexists _, _. split; [done|]. split; simpl; rewrite ?app_nil_r, ?Hreach; try done; lia.
Qed.
End Gateway.
