(* ===== verification/GatewayTheorems.v ===== *)
(** * Unified access gateway: theorems

    Sessions, runs of calls, and the properties of the gateway. *)

From S2P Require Import Prelude MarketTypes Broadcaster Queue Spsc RateWindow Gateway GatewayProofs.

Local Open Scope Z_scope.

(** ** Sessions *)

(** A live session silent for longer than its timeout. *)
Definition stale (now_ms : Z) (s : SessionState) : bool :=
  se_live s && (se_heartbeat_timeout_ms s <? now_ms - se_last_heartbeat_ms s).

Definition expire (now_ms : Z) (s : SessionState) : SessionState :=
  if stale now_ms s then close_session s else s.

Lemma session_stale_spec (now_ms : Z) (s : SessionState) : time_ok now_ms -> time_ok (se_last_heartbeat_ms s) ->
  session_stale now_ms s = Ret (stale now_ms s).
Proof.
  unfold time_ok. intros Hn Hl. unfold session_stale, stale, sub_i64. destruct (se_live s); [|done].
  by rewrite checked_i64_ret by lia.
Qed.

Lemma close_loop_spec (now_ms : Z) (todo : list (string * SessionState)) : forall (closed : Z)
    (sessions : gmap string SessionState),
  time_ok now_ms -> Forall (fun p => time_ok (se_last_heartbeat_ms p.2)) todo -> NoDup todo.*1 ->
  exists m, close_loop now_ms todo (wrap_u64 closed) sessions =
      Ret (wrap_u64 (closed + Z.of_nat (length (List.filter (fun p => stale now_ms p.2) todo))), m) /\
    (forall id, ~ id ∈ todo.*1 -> m !! id = sessions !! id) /\
    (forall id s, (id, s) ∈ todo -> sessions !! id = Some s -> m !! id = Some (expire now_ms s)).
Proof.
  induction todo as [|[id s] todo IH]; intros closed sessions Hn HF HD; simpl.
  { exists sessions. rewrite Z.add_0_r. split_and!; [done|done|by intros ? ? ?%not_elem_of_nil]. }
  apply Forall_cons in HF as [Hs HF]. apply NoDup_cons in HD as [Hid HD].
  rewrite session_stale_spec by done. rewrite bind_ret. simpl in Hs.
  assert (Hnext : forall closed' sessions' extra,
    (forall i, i <> id -> sessions' !! i = sessions !! i) ->
    (sessions !! id = Some s -> sessions' !! id = Some (expire now_ms s)) ->
    wrap_u64 closed' = wrap_u64 (closed + extra) ->
    exists m, close_loop now_ms todo (wrap_u64 closed') sessions' =
      Ret (wrap_u64 (closed + (extra + Z.of_nat (length (List.filter (fun p => stale now_ms p.2) todo)))), m) /\
    (forall i, ~ i ∈ id :: todo.*1 -> m !! i = sessions !! i) /\
    (forall i t, (i, t) ∈ (id, s) :: todo -> sessions !! i = Some t -> m !! i = Some (expire now_ms t))).
  { intros closed' sessions' extra Ho Hi Hc. destruct (IH closed' sessions' Hn HF HD) as (m & E & M1 & M2).
    exists m. split_and!.
    - rewrite E. do 2 f_equal. rewrite <- wrap_u64_add, Hc, wrap_u64_add. f_equal. lia.
    - intros i Hni. apply not_elem_of_cons in Hni as [Hne Hni]. rewrite M1 by done. by apply Ho.
    - intros i t [[= -> ->]|Hin]%elem_of_cons Ht.
      + rewrite M1 by done. by apply Hi.
      + assert (Hne : i <> id).
        { intros ->. apply Hid. apply list_elem_of_fmap. by exists (id, t). }
        apply M2; [done|]. by rewrite Ho. }
  destruct (stale now_ms s) eqn:Es; simpl.
  - rewrite wrap_u64_add.
    destruct (Hnext (closed + 1) (<[id := close_session s]> sessions) 1) as (m & E & M); try done.
    + intros i Hi. by rewrite lookup_insert_ne.
    + intros _. rewrite lookup_insert_eq. unfold expire. by rewrite Es.
    + exists m. rewrite E. split; [|done]. do 3 f_equal. lia.
  - destruct (Hnext closed sessions 0) as (m & E & M); try done.
    + intros Hs'. unfold expire. by rewrite Es.
    + by rewrite Z.add_0_r.
    + exists m. by rewrite E.
Qed.

Section Gateway.
Context {Q : Type} `{QueueLaws Q ForwardedRequest}.
Context (std_sort : (RouteConfig -> RouteConfig -> bool) -> list RouteConfig -> list RouteConfig)
  `{!SortLaws std_sort}.

Implicit Types g : UnifiedAccessGateway Q.

(** Closing the stale sessions is [expire] on every session. *)
Lemma close_stale_spec g (pending : list ForwardedRequest) (c now_ms : Z) :
  gateway_inv g pending c -> time_ok now_ms ->
  Gateway_close_stale_sessions g now_ms =
    Ret (wrap_u64 (Z.of_nat (length (List.filter (fun p => stale now_ms p.2) (map_to_list (gw_sessions g))))),
         set_sessions g (expire now_ms <$> gw_sessions g)).
Proof using Type.
  intros I Hn. unfold Gateway_close_stale_sessions.
  destruct (close_loop_spec now_ms (map_to_list (gw_sessions g)) 0 (gw_sessions g) Hn) as (m & E & M1 & M2).
  - apply List.Forall_forall. intros [id s] Hin. apply list_elem_of_In, elem_of_map_to_list in Hin.
    by apply (gv_sessions _ _ _ I id).
  - apply NoDup_fst_map_to_list.
  - change (wrap_u64 0) with 0 in E. rewrite E, bind_ret. do 3 f_equal.
    apply map_eq. intros id. rewrite lookup_fmap. destruct (gw_sessions g !! id) as [s|] eqn:Es; simpl.
    + apply M2; [by apply elem_of_map_to_list|done].
    + rewrite M1, Es; [done|]. intros ((i & s) & -> & Hin)%list_elem_of_fmap.
      apply elem_of_map_to_list in Hin. simpl in Es. congruence.
Qed.

Lemma live_split (now_ms : Z) (l : list (string * SessionState)) :
  length (List.filter (fun '(_, s) => se_live s) l) =
  (length (List.filter (fun '(_, s) => se_live s) (prod_map (fun x => x) (expire now_ms) <$> l)) +
   length (List.filter (fun p => stale now_ms p.2) l))%nat.
Proof using Type.
  induction l as [|[id s] l IH]; [done|]. rewrite fmap_cons. cbn [List.filter prod_map fst snd].
  assert (Hlive : se_live (expire now_ms s) = se_live s && negb (stale now_ms s)).
  { unfold expire. destruct (stale now_ms s); simpl; [by rewrite andb_false_r|by rewrite andb_true_r]. }
  assert (Hs : stale now_ms s = true -> se_live s = true) by (intros [? _]%andb_true_iff; done).
  simpl. rewrite Hlive. destruct (stale now_ms s); [rewrite Hs by done|destruct (se_live s)]; simpl; lia.
Qed.

(** ** Runs *)

(** Every call returns and keeps the invariant; what it does to the queue and to
    the events depends on the call. *)
Definition queue_after (pending : list ForwardedRequest) (op : gateway_op) (r : gateway_return)
    : list ForwardedRequest :=
  match op, r with
  | GwSubmit request, GrRoute r =>
    pending ++ if rt_accepted r then [make_forwarded_request request (rt_backend r)] else []
  | GwPoll, _ => tail pending
  | _, _ => pending
  end.

Definition payloads_of (op : gateway_op) (r : gateway_return) : list string :=
  match op, r with
  | GwSubmit request, GrRoute r =>
    if rt_accepted r
    then [route_event_payload (make_forwarded_request request (rt_backend r)) (rt_route_name r)] else []
  | _, _ => []
  end.

(** The requests accepted, the requests polled and the event payloads of a run. *)
Fixpoint accepted_requests (ops : list gateway_op) (rs : list gateway_return) : list ForwardedRequest :=
  match ops, rs with
  | op :: ops, r :: rs => queue_after [] op r ++ accepted_requests ops rs
  | _, _ => []
  end.

Fixpoint polled_requests (rs : list gateway_return) : list ForwardedRequest :=
  match rs with
  | GrPolled (Some f) :: rs => f :: polled_requests rs
  | _ :: rs => polled_requests rs
  | [] => []
  end.

Fixpoint event_payloads (ops : list gateway_op) (rs : list gateway_return) : list string :=
  match ops, rs with
  | op :: ops, r :: rs => payloads_of op r ++ event_payloads ops rs
  | _, _ => []
  end.

Lemma gateway_step_spec g (pending : list ForwardedRequest) (c : Z) (op : gateway_op) :
  gateway_inv g pending c -> gateway_op_ok op -> br_next_sequence (gw_broadcaster g) + 2 < two64 ->
  exists r g', gateway_step std_sort g op = Ret (r, g') /\ gateway_inv g' (queue_after pending op r) c /\
    map bm_payload (events g') = map bm_payload (events g) ++ payloads_of op r /\
    br_next_sequence (gw_broadcaster g') <= br_next_sequence (gw_broadcaster g) + 1 /\
    match op with GwPoll => r = GrPolled (head pending) | _ => polled_requests [r] = [] end.
Proof using Type*.
  intros I Ho Hseq. pose proof I as [I1 I2 I3 I4 I5 I6].
  destruct op as [k s u|p b n|u n w|b h|id p timeout t|id t|now|request|]; simpl in Ho;
    unfold gateway_step, queue_after, payloads_of; rewrite ?app_nil_r.
  - eexists _, _. split; [done|]. split_and!; [by split|done|simpl; lia|done].
  - eexists _, _. split; [done|]. split_and!; [|done|simpl; lia|done].
    split; try done. simpl. apply sort_sorted.
  - eexists _, _. split; [done|]. split_and!; [|done|simpl; lia|done]. split; try done. simpl.
    intros v l [[<- <-]|[_ Hl]]%lookup_insert_Some; [done|by apply (I4 v)].
  - eexists _, _. split; [done|]. split_and!; [by split|done|simpl; lia|done].
  - eexists _, _. split; [done|]. split_and!; [|done|simpl; lia|done]. split; try done. simpl.
    intros i s [[<- <-]|[_ Hs]]%lookup_insert_Some; [done|by apply (I5 i)].
  - unfold Gateway_record_heartbeat. destruct (gw_sessions g !! id) as [s|] eqn:Es.
    + destruct (se_live s); simpl; (eexists _, _; split; [done|]).
      * split_and!; [|done|simpl; lia|done]. split; try done. simpl.
        intros i s' [[<- <-]|[_ Hs]]%lookup_insert_Some; [done|by apply (I5 i)].
      * split_and!; [done|done|lia|done].
    + eexists _, _. split; [done|]. split_and!; [done|done|lia|done].
  - rewrite (close_stale_spec g pending c now I Ho), bind_ret. eexists _, _. split; [done|].
    split_and!; [|done|simpl; lia|done]. split; try done. simpl. intros i s.
    rewrite lookup_fmap. destruct (gw_sessions g !! i) as [s0|] eqn:Es; [|done]. intros [= <-].
    unfold expire. destruct (stale now s0); exact (I5 i s0 Es).
  - destruct (route_spec g pending c request I Ho Hseq) as (r & g' & -> & R). rewrite bind_ret.
    eexists _, g'. split; [done|]. split_and!; [apply R|apply (rd_events _ _ _ _ _ _ R)|apply R|done].
  - unfold Gateway_poll_forwarded_request. destruct pending as [|f pending].
    + rewrite (pop_empty _ I1), bind_ret. eexists _, _. split; [done|].
      split_and!; [by split|done|simpl; lia|done].
    + destruct (pop_front _ _ _ I1) as (q & -> & Hq & Hroom). rewrite bind_ret. eexists _, _. split; [done|].
      split_and!; [|done|simpl; lia|done]. split; try done. simpl. congruence.
Qed.

Lemma gateway_run_spec (ops : list gateway_op) : forall g (pending : list ForwardedRequest) (c : Z),
  gateway_inv g pending c -> Forall gateway_op_ok ops ->
  br_next_sequence (gw_broadcaster g) + Z.of_nat (length ops) + 2 < two64 ->
  exists rs g' pending', gateway_run std_sort g ops = Ret (rs, g') /\ gateway_inv g' pending' c /\
    length rs = length ops /\
    pending ++ accepted_requests ops rs = polled_requests rs ++ pending' /\
    map bm_payload (events g') = map bm_payload (events g) ++ event_payloads ops rs /\
    br_next_sequence (gw_broadcaster g') <= br_next_sequence (gw_broadcaster g) + Z.of_nat (length ops).
Proof using Type*.
  induction ops as [|op ops IH]; intros g pending c I HF Hseq.
  { exists [], g, pending. simpl. rewrite !app_nil_r. split_and!; try done. lia. }
  apply Forall_cons in HF as [Ho HF]. simpl length in Hseq.
  destruct (gateway_step_spec g pending c op I Ho ltac:(lia)) as (r & g1 & E & I1 & V1 & S1 & P1).
  destruct (IH g1 _ c I1 HF ltac:(lia)) as (rs & g2 & pending' & E2 & I2 & L2 & Q2 & V2 & S2).
  exists (r :: rs), g2, pending'. cbn [gateway_run]. rewrite E, bind_ret, E2, bind_ret.
  split_and!; [done|done|simpl; lia| |by rewrite V2, V1, <- app_assoc|simpl; lia].
  cbn [accepted_requests]. assert (Hr : polled_requests (r :: rs) = polled_requests [r] ++ polled_requests rs)
    by (destruct r as [| | | |[]]; done).
  rewrite Hr. destruct op; try (rewrite P1; simpl; simpl in Q2; destruct r; by rewrite ?app_assoc, ?app_nil_r in *).
  rewrite P1 in *. destruct pending as [|f pending]; simpl in *; [done|]. by rewrite Q2.
Qed.

(** ** The limit of one user *)

Section Limit.
Context (user : string) (window_ms n : Z).

Definition user_times (ops : list gateway_op) : list Z :=
  omap (fun op => match op with
    | GwSubmit q => if decide (gq_user_id q = user) then Some (gq_timestamp_ms q) else None
    | _ => None
    end) ops.

(** The time of a request of the user that was accepted. *)
Definition accepted_time (op : gateway_op) (r : gateway_return) : list Z :=
  match op, r with
  | GwSubmit q, GrRoute r =>
    if decide (gq_user_id q = user /\ rt_accepted r = true) then [gq_timestamp_ms q] else []
  | _, _ => []
  end.

Fixpoint user_accepted (ops : list gateway_op) (rs : list gateway_return) : list Z :=
  match ops, rs with
  | op :: ops, r :: rs => accepted_time op r ++ user_accepted ops rs
  | _, _ => []
  end.

(** The user's limit is not relaxed. *)
Definition keeps_limit (op : gateway_op) : Prop :=
  match op with
  | GwLimit u m w => u = user -> w = window_ms /\ m <= n
  | _ => True
  end.

Record user_inv g (last : Z) (pushed accepted : list Z) : Prop := {
  ui_limit : exists l, gw_user_limits g !! user = Some l /\ rl_window_ms l = window_ms /\ rl_max_requests l <= n;
  ui_window : window_inv window_ms n (default [] (gw_user_windows g !! user)) last pushed accepted
}.

Lemma user_route g g' (pending : list ForwardedRequest) (c last : Z) (request : GatewayRequest)
    (r : RouteResult) (pushed accepted : list Z) :
  0 <= n -> 0 <= window_ms -> user_inv g last pushed accepted -> routed g pending c request r g' ->
  Forall (Z.le last) (user_times [GwSubmit request]) ->
  exists last' pushed', (last' = last \/ last' ∈ user_times [GwSubmit request]) /\
    user_inv g' last' pushed' (accepted ++ accepted_time (GwSubmit request) (GrRoute r)).
Proof using Type.
  intros Hn Hw [(l & El & Ew & Emax) W] R HF. unfold user_times in *. simpl in HF |- *.
  pose proof (rd_windows _ _ _ _ _ _ R) as HW. pose proof (rd_limits _ _ _ _ _ _ R) as HL.
  assert (Hacc : rt_accepted r = true -> reaches_limit g request = true /\ within_limit g request = true).
  { intros Ha. destruct (rd_accepts _ _ _ _ _ _ R Ha) as (_ & route & A & _). split; [|apply A].
    unfold reaches_limit. rewrite (ad_shape _ _ _ _ _ A), (ad_route _ _ _ _ _ A), (ad_backend _ _ _ _ _ A).
    pose proof (ad_authentic _ _ _ _ _ A) as Hc. apply credentials_spec in Hc. by rewrite Hc. }
  assert (Hkeep : forall last' pushed', window_inv window_ms n (default [] (gw_user_windows g' !! user)) last' pushed'
      (accepted ++ (if decide (gq_user_id request = user /\ rt_accepted r = true) then [gq_timestamp_ms request] else [])) ->
    user_inv g' last' pushed'
      (accepted ++ (if decide (gq_user_id request = user /\ rt_accepted r = true) then [gq_timestamp_ms request] else []))).
  { intros last' pushed' W'. split; [|done]. rewrite HL. by exists l. }
  destruct (decide (gq_user_id request = user)) as [Hu|Hu].
  2: { exists last, pushed. split; [by left|]. apply Hkeep. rewrite decide_False by naive_solver.
    rewrite app_nil_r, HW. unfold windows_after.
    destruct (reaches_limit g request); [|done]. destruct (gw_user_limits g !! gq_user_id request); [|done].
    by rewrite lookup_insert_ne. }
  apply Forall_inv in HF. set (t := gq_timestamp_ms request) in *.
  destruct (reaches_limit g request).
  2: { exists last, pushed. split; [by left|]. apply Hkeep. rewrite HW.
    rewrite decide_False by (intros [_ Ha]; by destruct (Hacc Ha)). by rewrite app_nil_r. }
  pose proof (window_inv_trim window_ms n _ last t pushed accepted W HF) as W1.
  assert (Ewin : default [] (gw_user_windows g' !! user) =
    List.filter (fun x => negb (x <? t - window_ms)) (default [] (gw_user_windows g !! user)) ++
    (if within_limit g request then [t] else [])).
  { rewrite HW. unfold windows_after. rewrite Hu, El, lookup_insert_eq. simpl. unfold recent_times. by rewrite Ew. }
  destruct (within_limit g request) eqn:El'.
  - exists t, (pushed ++ [t]). split; [right; by apply list_elem_of_singleton|]. apply Hkeep. rewrite Ewin.
    destruct (rt_accepted r).
    + rewrite decide_True by done. apply window_inv_accept; [done|done|done|].
      unfold within_limit in El'. rewrite Hu, El in El'. apply Z.ltb_lt in El'. unfold recent_times in El'.
      rewrite Ew in El'. fold t in El'. lia.
    + rewrite decide_False by naive_solver. rewrite app_nil_r. by apply window_inv_push.
  - exists t, pushed. split; [right; by apply list_elem_of_singleton|]. apply Hkeep. rewrite Ewin, app_nil_r.
    rewrite decide_False by (intros [_ Ha]; by destruct (Hacc Ha)). by rewrite app_nil_r.
Qed.

(** The other calls do not touch the windows. *)
Lemma user_other g g' (op : gateway_op) (r : gateway_return) (last : Z) (pushed accepted : list Z) :
  (forall q, op <> GwSubmit q) -> gateway_step std_sort g op = Ret (r, g') -> keeps_limit op ->
  user_inv g last pushed accepted -> user_inv g' last pushed accepted.
Proof using Type.
  intros Hop E Hk [(l & El & Ew & Emax) W].
  assert (Hsame : gw_user_windows g' = gw_user_windows g /\
    (gw_user_limits g' = gw_user_limits g \/
     exists u m w, op = GwLimit u m w /\ gw_user_limits g' = <[u := mkRateLimit m w]> (gw_user_limits g))).
  { destruct op as [| |u m w| | |id t|now|q|]; unfold gateway_step in E.
    - injection E as <- <-. auto.
    - injection E as <- <-. auto.
    - injection E as <- <-. split; [done|]. right. by exists u, m, w.
    - injection E as <- <-. auto.
    - injection E as <- <-. auto.
    - unfold Gateway_record_heartbeat in E. destruct (gw_sessions g !! id) as [s|]; [destruct (se_live s)|];
        injection E as <- <-; auto.
    - apply bind_ret_inv in E as ([k g1] & Ec & E). injection E as <- <-.
      unfold Gateway_close_stale_sessions in Ec. apply bind_ret_inv in Ec as ([k' m] & _ & Ec).
      injection Ec as <- <-. auto.
    - by destruct (Hop q).
    - apply bind_ret_inv in E as ([k g1] & Ec & E). injection E as <- <-.
      unfold Gateway_poll_forwarded_request in Ec. apply bind_ret_inv in Ec as ([k' m] & _ & Ec).
      injection Ec as <- <-. auto. }
  destruct Hsame as [HW HL]. split; [|by rewrite HW].
  destruct HL as [->|(u & m & w & -> & ->)]; [by exists l|].
  destruct (decide (u = user)) as [->|Hne].
  - destruct (Hk eq_refl) as [-> Hm]. rewrite lookup_insert_eq. eexists. split; [done|]. by split.
  - rewrite lookup_insert_ne by done. by exists l.
Qed.

Definition is_submit (op : gateway_op) : bool := match op with GwSubmit _ => true | _ => false end.

Lemma user_step g (pending : list ForwardedRequest) (c last : Z) (op : gateway_op) (pushed accepted : list Z) :
  0 <= n -> 0 <= window_ms -> gateway_inv g pending c -> gateway_op_ok op -> keeps_limit op ->
  br_next_sequence (gw_broadcaster g) + 2 < two64 ->
  user_inv g last pushed accepted -> Forall (Z.le last) (user_times [op]) ->
  exists r g' pending' last' pushed', gateway_step std_sort g op = Ret (r, g') /\ gateway_inv g' pending' c /\
    br_next_sequence (gw_broadcaster g') <= br_next_sequence (gw_broadcaster g) + 1 /\
    (last' = last \/ last' ∈ user_times [op]) /\ user_inv g' last' pushed' (accepted ++ accepted_time op r).
Proof using Type*.
  intros Hn Hw I Ho Hk Hseq U HF. destruct (is_submit op) eqn:Hop.
  - destruct op as [| | | | | | |request|]; try done.
    destruct (route_spec g pending c request I Ho Hseq) as (r & g' & E & R).
    destruct (user_route g g' pending c last request r pushed accepted Hn Hw U R HF) as (last' & pushed' & Hl & U').
    eexists (GrRoute r), g', _, last', pushed'. split; [unfold gateway_step; by rewrite E|].
    split_and!; [apply R|apply R|done|done].
  - destruct (gateway_step_spec g pending c op I Ho Hseq) as (r & g' & E & I' & _ & S' & _).
    exists r, g', (queue_after pending op r), last, pushed. split_and!; [done|done|done|by left|].
    assert (Ha : accepted_time op r = []) by by destruct op. rewrite Ha, app_nil_r.
    eapply user_other; [|exact E|done|done]. by intros q ->.
Qed.

Lemma user_run (ops : list gateway_op) : forall g (pending : list ForwardedRequest) (c last : Z)
    (pushed accepted : list Z),
  0 <= n -> 0 <= window_ms -> gateway_inv g pending c -> Forall gateway_op_ok ops ->
  Forall keeps_limit ops -> br_next_sequence (gw_broadcaster g) + Z.of_nat (length ops) + 2 < two64 ->
  user_inv g last pushed accepted -> Forall (Z.le last) (user_times ops) ->
  StronglySorted Z.le (user_times ops) ->
  exists rs g', gateway_run std_sort g ops = Ret (rs, g') /\
    limited n window_ms (accepted ++ user_accepted ops rs).
Proof using Type*.
  induction ops as [|op ops IH]; intros g pending c last pushed accepted Hn Hw I HO HK Hseq U HF HS.
  { exists [], g. simpl. rewrite app_nil_r. split; [done|apply U]. }
  apply Forall_cons in HO as [Ho HO]. apply Forall_cons in HK as [Hk HK]. simpl length in Hseq.
  assert (Hcons : user_times (op :: ops) = user_times [op] ++ user_times ops).
  { unfold user_times. simpl. by destruct (match op with GwSubmit q => _ | _ => None end). }
  rewrite Hcons in HF, HS. apply Forall_app in HF as [HF1 HF2].
  destruct (user_step g pending c last op pushed accepted Hn Hw I Ho Hk ltac:(lia) U HF1)
    as (r & g1 & pending1 & last' & pushed' & E & I1 & S1 & Hl & U1).
  destruct (IH g1 pending1 c last' pushed' _ Hn Hw I1 HO HK ltac:(lia) U1) as (rs & g2 & E2 & Lim).
  - destruct Hl as [->|Hl]; [done|]. by apply (sorted_app_le (user_times [op])).
  - by apply (sorted_app_r (user_times [op])).
  - exists (r :: rs), g2. cbn [gateway_run]. rewrite E, bind_ret, E2, bind_ret. split; [done|].
    cbn [user_accepted]. by rewrite app_assoc.
Qed.
End Limit.

(** ** Configuration *)

(** What was last set for a backend, from [healthy], and the routes configured. *)
Fixpoint reported_health (ops : list gateway_op) (b : Backend) (healthy : bool) : bool :=
  match ops with
  | [] => healthy
  | GwHealth b' h :: ops => reported_health ops b (if decide (b' = b) then h else healthy)
  | _ :: ops => reported_health ops b healthy
  end.

Fixpoint configured_routes (ops : list gateway_op) : list RouteConfig :=
  match ops with
  | [] => []
  | GwRoute prefix b name :: ops => mkRoute prefix b name :: configured_routes ops
  | _ :: ops => configured_routes ops
  end.

Lemma set_health_find (m : list (Backend * bool)) (b b' : Backend) (h : bool) :
  List.find (fun '(x, _) => bool_decide (x = b)) (set_health b' h m) =
  if decide (b' = b) then Some (b, h) else List.find (fun '(x, _) => bool_decide (x = b)) m.
Proof.
  induction m as [|[x y] m IH]; simpl.
  - by repeat (case_bool_decide || case_decide); simplify_eq.
  - destruct (decide (x = b')) as [->|Hx]; simpl; [by repeat (case_bool_decide || case_decide); simplify_eq|].
    rewrite IH. by repeat (case_bool_decide || case_decide); simplify_eq.
Qed.

Lemma backend_available_set g (b b' : Backend) (h : bool) :
  backend_available (Gateway_set_backend_health g b' h) b = if decide (b' = b) then h else backend_available g b.
Proof using Type. unfold backend_available. simpl. rewrite set_health_find. by case_decide. Qed.

(** Neither routing nor polling touches the configuration. *)
Lemma route_configuration g g' (request : GatewayRequest) (r : RouteResult) :
  Gateway_route g request = Ret (r, g') ->
  gw_backend_health g' = gw_backend_health g /\ gw_routes g' = gw_routes g.
Proof using Type.
  unfold Gateway_route. intros E.
  destruct (negb (has_valid_request_shape _)); [by simplify_eq|].
  destruct (negb (has_valid_credentials _ _)); [by simplify_eq|].
  destruct (match_route _ _) as [route|]; [|by simplify_eq].
  destruct (negb (backend_available _ _)); [by simplify_eq|].
  apply bind_ret_inv in E as ([allowed g1] & E1 & E).
  assert (gw_backend_health g1 = gw_backend_health g /\ gw_routes g1 = gw_routes g) as [Hh Hr].
  { unfold consume_rate_limit in E1. destruct (gw_user_limits g !! _); [|by simplify_eq].
    apply bind_ret_inv in E1 as (window & _ & E1). destruct (_ <=? _); by simplify_eq. }
  destruct (negb allowed); [by simplify_eq|]. apply bind_ret_inv in E as ([pushed q] & _ & E).
  destruct (negb pushed); [by simplify_eq|]. destruct (Broadcaster_publish _ _ _). by simplify_eq.
Qed.

Lemma step_configuration g g' (op : gateway_op) (r : gateway_return) :
  gateway_step std_sort g op = Ret (r, g') ->
  (forall b, backend_available g' b = reported_health [op] b (backend_available g b)) /\
  gw_routes g' ≡ₚ gw_routes g ++ configured_routes [op].
Proof using Type*.
  assert (K : gw_backend_health g' = gw_backend_health g /\ gw_routes g' = gw_routes g ->
    (forall b, backend_available g' b = backend_available g b) /\ gw_routes g' ≡ₚ gw_routes g ++ []).
  { intros [Ha Hb]. unfold backend_available. by rewrite Ha, Hb, app_nil_r. }
  destruct op as [k s u|p b n|u n w|b h|id p timeout t|id t|now|request|]; simpl; intros E;
    try (apply K; by simplify_eq).
  - simplify_eq. split; [done|]. simpl. apply sort_perm.
  - simplify_eq. split; [intros b'; apply backend_available_set|]. by rewrite app_nil_r.
  - apply K. unfold Gateway_record_heartbeat in E. by repeat case_match; simplify_eq.
  - apply K. apply bind_ret_inv in E as ([n g1] & E1 & E).
    apply bind_ret_inv in E1 as ([m sessions] & _ & E1). by simplify_eq.
  - apply K. apply bind_ret_inv in E as ([r1 g1] & E1 & E). simplify_eq. by eapply route_configuration.
  - apply K. apply bind_ret_inv in E as ([item g1] & E1 & E).
    apply bind_ret_inv in E1 as ([m q] & _ & E1). by simplify_eq.
Qed.

Lemma run_configuration (ops : list gateway_op) : forall g rs g',
  gateway_run std_sort g ops = Ret (rs, g') ->
  (forall b, backend_available g' b = reported_health ops b (backend_available g b)) /\
  gw_routes g' ≡ₚ gw_routes g ++ configured_routes ops.
Proof using Type*.
  induction ops as [|op ops IH]; intros g rs g' E; simpl in E; [simplify_eq; by rewrite app_nil_r|].
  apply bind_ret_inv in E as ([r g1] & E1 & E). apply bind_ret_inv in E as ([rs1 g2] & E2 & E). simplify_eq.
  apply step_configuration in E1 as [Ha Hb]. apply IH in E2 as [Hc Hd]. split.
  - intros b. rewrite Hc, Ha. by destruct op.
  - rewrite Hd, Hb, <- app_assoc. f_equiv. by destruct op.
Qed.
End Gateway.

(** ** Properties *)

(** C20. Routing is correct after any sequence of calls: a request is accepted if and
    only if it has the required fields, its signature is the one of a credential of
    the user, a route matches, its backend is healthy, the user is within the limit
    and the queue has room; the route is the configured one with the longest prefix
    of the path, and the result carries its backend, its name and the queue length;
    a refusal reports a check that failed. The routes are those configured so far, and
    a backend counts as healthy as it was last reported, or if it never was. *)
Theorem gateway_route_correct {Q : Type} `{QueueLaws Q ForwardedRequest}
    (std_sort : (RouteConfig -> RouteConfig -> bool) -> list RouteConfig -> list RouteConfig)
    `{!SortLaws std_sort} (q : Q) (ops : list gateway_op) (rs : list gateway_return)
    (g : UnifiedAccessGateway Q) (request : GatewayRequest) :
  represents q [] -> Forall gateway_op_ok ops -> Z.of_nat (length ops) + 2 < two64 ->
  gq_timestamp_ms request < two63 -> gateway_run std_sort (Gateway_new q) ops = Ret (rs, g) ->
  exists r g' pending, accepted_requests ops rs = polled_requests rs ++ pending /\
    Gateway_route g request = Ret (r, g') /\
    (rt_accepted r = true <-> exists route, admitted g pending (room q) request route) /\
    (rt_accepted r = true -> rt_reject_reason r = kGateNone /\
       exists route, best_route (gw_routes g) (gq_path request) route /\ rt_backend r = ro_backend route /\
         rt_route_name r = ro_route_name route /\ rt_queued_requests r = Z.of_nat (length pending) + 1) /\
    (rt_accepted r = false -> refused g pending (room q) request (rt_reject_reason r)) /\
    (forall b, backend_available g b = reported_health ops b true) /\
    gw_routes g ≡ₚ configured_routes ops.
Proof.
  intros Hq HF Hlen Ht E. pose proof (run_configuration std_sort ops _ _ _ E) as [Hhealth Hroutes].
  destruct (gateway_run_spec std_sort ops (Gateway_new q) [] (room q) (gateway_new_inv q Hq) HF Hlen)
    as (rs' & g' & pending & E' & I & _ & HQ & _ & HS).
  rewrite E' in E. injection E as -> ->. simpl in HQ, HS.
  destruct (route_spec g pending (room q) request I Ht ltac:(lia)) as (r & g1 & Er & R).
  pose proof (rd_accepts _ _ _ _ _ _ R) as HA. pose proof (rd_refuses _ _ _ _ _ _ R) as HR.
  exists r, g1, pending. split_and!; [done|done| | |done| |done].
  3: { intros b. rewrite Hhealth. f_equal. by destruct b. }
  - split; [intros Ha; destruct (HA Ha) as (_ & route & A & _); by exists route|].
    intros (route & A). destruct (rt_accepted r); [done|]. specialize (HR eq_refl). exfalso.
    destruct A as [A1 A2 A3 A4 A5 A6 A7]. destruct (rt_reject_reason r); simpl in HR; try done.
    + congruence.
    + congruence.
    + destruct A4 as (Hin & Hp & _). by rewrite (HR route Hin) in Hp.
    + destruct HR as (route' & B & _ & Hb). rewrite A3 in B. injection B as <-. congruence.
    + lia.
  - intros Ha. destruct (HA Ha) as (Hn & route & A & H1 & H2 & H3). split; [done|].
    exists route. split_and!; try done. apply A.
Qed.

Definition gateway_queue : SpscRingQueue ForwardedRequest := mkSpsc 4 3 (replicate 4 None) 0 0.

Lemma gateway_queue_ok : represents gateway_queue [] /\ room gateway_queue = 4.
Proof.
  destruct (Spsc_new_spec (T := ForwardedRequest) 4 ltac:(done)) as (q & E & R & _).
  vm_compute in E. injection E as <-. split; [by exists 0|done].
Qed.

Definition place (id path : string) (t : Z) : GatewayRequest :=
  mkGatewayRequest id "alice" "key" (expected_signature "key" "secret" id) path "payload" kRest t.

Definition sample_gateway : list gateway_op :=
  [GwCredential "key" "secret" "alice"; GwRoute "/v1" kMarketData "data"; GwRoute "/v1/orders" kRisk "orders";
   GwLimit "alice" 2 1000].

Definition gateway_state (ops : list gateway_op)
    : list gateway_return * UnifiedAccessGateway (SpscRingQueue ForwardedRequest) :=
  match gateway_run stable_sort (Gateway_new gateway_queue) ops with
  | Ret x => x
  | _ => ([], Gateway_new gateway_queue)
  end.

Lemma gateway_state_eq (ops : list gateway_op) : Forall gateway_op_ok ops -> Z.of_nat (length ops) + 2 < two64 ->
  gateway_run stable_sort (Gateway_new gateway_queue) ops = Ret ((gateway_state ops).1, (gateway_state ops).2).
Proof.
  intros HF Hlen. unfold gateway_state.
  destruct (gateway_run_spec stable_sort ops _ [] _ (gateway_new_inv _ (proj1 gateway_queue_ok)) HF Hlen)
    as (rs & g & pending & -> & _). done.
Qed.

Lemma sample_gateway_ok : Forall gateway_op_ok sample_gateway.
Proof. repeat constructor; vm_compute; congruence. Qed.

Lemma gateway_route_correct_witness :
  let g := (gateway_state sample_gateway).2 in
  exists r g', Gateway_route g (place "1" "/v1/orders/place" 5) = Ret (r, g') /\ rt_accepted r = true /\
    exists route, best_route (gw_routes g) "/v1/orders/place" route /\ ro_backend route = kRisk.
Proof.
  intros g. destruct gateway_queue_ok as [Hq Hroom].
  destruct (gateway_route_correct stable_sort gateway_queue sample_gateway _ g (place "1" "/v1/orders/place" 5)
    Hq sample_gateway_ok ltac:(done) ltac:(done) (gateway_state_eq sample_gateway sample_gateway_ok ltac:(done)))
    as (r & g' & pending & _ & E & _ & HA & _ & _ & _).
  assert (Hr : rt_accepted r = true /\ rt_backend r = kRisk) by (revert E; vm_compute; by intros [= <- <-]).
  destruct Hr as [Hacc Hb]. exists r, g'. split; [exact E|]. split; [exact Hacc|].
  destruct (HA Hacc) as (_ & route & B & Hback & _). exists route. split; [exact B|congruence].
Defined.

(** C21. The ingress queue delivers every accepted request exactly once and in order,
    and nothing else: at any time the accepted requests are those polled followed by
    those still queued. The route events replayed are one per accepted request, in
    order. Every call returns. *)
Theorem gateway_delivers_once {Q : Type} `{QueueLaws Q ForwardedRequest}
    (std_sort : (RouteConfig -> RouteConfig -> bool) -> list RouteConfig -> list RouteConfig)
    `{!SortLaws std_sort} (q : Q) (ops : list gateway_op) :
  represents q [] -> Forall gateway_op_ok ops -> Z.of_nat (length ops) + 2 < two64 ->
  exists rs g pending, gateway_run std_sort (Gateway_new q) ops = Ret (rs, g) /\
    represents (gw_ingress_queue g) pending /\
    accepted_requests ops rs = polled_requests rs ++ pending /\
    map bm_payload (Gateway_replay_route_events g 0) = event_payloads ops rs.
Proof.
  intros Hq HF Hlen.
  destruct (gateway_run_spec std_sort ops (Gateway_new q) [] (room q) (gateway_new_inv q Hq) HF Hlen)
    as (rs & g & pending & E & I & _ & HQ & HE & _).
  exists rs, g, pending. split_and!; [done|apply I|done|].
  unfold Gateway_replay_route_events. rewrite replay_all by apply I. exact HE.
Qed.

Lemma gateway_delivers_once_witness :
  let ops := sample_gateway ++ [GwSubmit (place "1" "/v1/orders/place" 5); GwSubmit (place "2" "/v1/depth" 6);
    GwPoll; GwSubmit (place "3" "/v1/orders/place" 7)] in
  exists rs g, gateway_run stable_sort (Gateway_new gateway_queue) ops = Ret (rs, g) /\
    map bm_payload (Gateway_replay_route_events g 0) = event_payloads ops rs /\
    event_payloads ops rs = ["1:orders:/v1/orders/place"; "2:data:/v1/depth"].
Proof.
  intros ops. destruct gateway_queue_ok as [Hq Hroom].
  destruct (gateway_delivers_once stable_sort gateway_queue ops Hq) as (rs & g & pending & E & _ & _ & HE).
  - apply Forall_app. split; [apply sample_gateway_ok|]. repeat constructor; vm_compute; congruence.
  - vm_compute. reflexivity.
  - exists rs, g. split; [exact E|]. split; [exact HE|]. revert E. vm_compute. by intros [= <- _].
Defined.

(** Once a user has a limit, no interval of the window's length contains more
    accepted requests of the user than the limit, whatever other calls come between,
    provided the limit is not relaxed and the user's requests carry ascending
    times. *)
Lemma gateway_rate_limit {Q : Type} `{QueueLaws Q ForwardedRequest}
    (std_sort : (RouteConfig -> RouteConfig -> bool) -> list RouteConfig -> list RouteConfig)
    `{!SortLaws std_sort} (q : Q) (user : string) (window_ms n : Z) (ops : list gateway_op) :
  represents q [] -> 0 <= n -> time_ok window_ms -> Forall gateway_op_ok ops ->
  Forall (keeps_limit user window_ms n) ops -> Z.of_nat (length ops) + 2 < two64 ->
  StronglySorted Z.le (user_times user ops) ->
  exists rs g, gateway_run std_sort (Gateway_set_user_rate_limit (Gateway_new q) user n window_ms) ops = Ret (rs, g) /\
    forall t, Z.of_nat (length (within (t - window_ms) t (user_accepted user ops rs))) <= n.
Proof.
  intros Hq Hn Hw HF HK Hlen HS. unfold time_ok in Hw.
  assert (I : gateway_inv (Gateway_set_user_rate_limit (Gateway_new q) user n window_ms) [] (room q)).
  { destruct (gateway_new_inv q Hq). split; try done. simpl.
    intros u l [[<- <-]|[_ Hl]]%lookup_insert_Some; [done|by rewrite lookup_empty in Hl]. }
  assert (Hlast : exists last, Forall (Z.le last) (user_times user ops)).
  { destruct (user_times user ops) as [|t l]; [by exists 0|]. exists t.
    apply StronglySorted_inv in HS as [_ HS]. by constructor. }
  destruct Hlast as [last HL].
  apply (user_run std_sort user window_ms n ops _ [] (room q) last [] []); try done; [lia|].
  split; [|by apply window_inv_new]. exists (mkRateLimit n window_ms). simpl. by rewrite lookup_insert_eq.
Qed.

Example gateway_rate_limit_sample :
  let ops := sample_gateway ++ [GwSubmit (place "1" "/v1/orders/place" 5); GwSubmit (place "2" "/v1/depth" 6);
    GwSubmit (place "3" "/v1/orders/place" 7); GwSubmit (place "4" "/v1/orders/place" 1006)] in
  exists rs g, gateway_run stable_sort (Gateway_set_user_rate_limit (Gateway_new gateway_queue) "alice" 2 1000) ops =
      Ret (rs, g) /\
    user_accepted "alice" ops rs = [5; 6; 1006] /\
    Z.of_nat (length (within 5 1005 (user_accepted "alice" ops rs))) <= 2.
Proof.
  intros ops. destruct gateway_queue_ok as [Hq Hroom].
  destruct (gateway_rate_limit stable_sort gateway_queue "alice" 1000 2 ops Hq) as (rs & g & E & HL).
  - lia.
  - done.
  - apply Forall_app. split; [apply sample_gateway_ok|]. repeat constructor; vm_compute; congruence.
  - repeat constructor; vm_compute; congruence.
  - vm_compute. reflexivity.
  - vm_compute. repeat constructor; discriminate.
  - exists rs, g. split; [exact E|]. split; [|exact (HL 1005)]. revert E. vm_compute. by intros [= <- _].
Defined.

(** Closing stale sessions at a time closes exactly the live sessions silent for
    longer than their timeout and returns their number, by which the count of live
    sessions drops; a session once closed refuses heartbeats, and a live one takes
    them and is then not stale within its timeout. *)
Lemma gateway_sessions {Q : Type} `{QueueLaws Q ForwardedRequest}
    (std_sort : (RouteConfig -> RouteConfig -> bool) -> list RouteConfig -> list RouteConfig)
    `{!SortLaws std_sort} (q : Q) (ops : list gateway_op) (rs : list gateway_return)
    (g : UnifiedAccessGateway Q) (now_ms : Z) :
  represents q [] -> Forall gateway_op_ok ops -> Z.of_nat (length ops) + 2 < two64 -> time_ok now_ms ->
  gateway_run std_sort (Gateway_new q) ops = Ret (rs, g) ->
  exists closed g', Gateway_close_stale_sessions g now_ms = Ret (wrap_u64 (Z.of_nat closed), g') /\
    gw_sessions g' = expire now_ms <$> gw_sessions g /\
    (Gateway_live_session_count g = Gateway_live_session_count g' + closed)%nat /\
    (forall id t, (Gateway_record_heartbeat g' id t).1 =
       match gw_sessions g !! id with Some s => se_live s && negb (stale now_ms s) | None => false end) /\
    forall id t s, (Gateway_record_heartbeat g id t).1 = true ->
      gw_sessions (Gateway_record_heartbeat g id t).2 !! id = Some s ->
      stale now_ms s = (se_heartbeat_timeout_ms s <? now_ms - t).
Proof.
  intros Hq HF Hlen Hn E.
  destruct (gateway_run_spec std_sort ops (Gateway_new q) [] (room q) (gateway_new_inv q Hq) HF Hlen)
    as (rs' & g0 & pending & E' & I & _).
  rewrite E' in E. injection E as -> ->.
  eexists _, _. split; [by apply (close_stale_spec g pending (room q))|]. split_and!.
  - done.
  - unfold Gateway_live_session_count. simpl. rewrite map_to_list_fmap. by apply live_split.
  - intros id t. unfold Gateway_record_heartbeat. simpl. rewrite lookup_fmap.
    destruct (gw_sessions g !! id) as [s|]; simpl; [|done]. unfold expire.
    destruct (stale now_ms s); simpl; [by rewrite andb_false_r|]. by destruct (se_live s).
  - intros id t s. unfold Gateway_record_heartbeat. destruct (gw_sessions g !! id) as [s0|]; [|done].
    destruct (se_live s0) eqn:El; simpl; [|done]. intros _. rewrite lookup_insert_eq. intros [= <-].
    unfold stale. simpl. done.
Qed.

Example gateway_sessions_sample :
  let g := (gateway_state [GwOpen "a" kFix 100 1000; GwOpen "b" kRest 100 1050; GwHeartbeat "b" 1060]).2 in
  exists closed g', Gateway_close_stale_sessions g 1150 = Ret (wrap_u64 (Z.of_nat closed), g') /\
    closed = 1%nat /\ (Gateway_record_heartbeat g' "a" 1151).1 = false /\
    (Gateway_record_heartbeat g' "b" 1151).1 = true.
Proof.
  intros g. destruct gateway_queue_ok as [Hq Hroom].
  set (ops := [GwOpen "a" kFix 100 1000; GwOpen "b" kRest 100 1050; GwHeartbeat "b" 1060]) in *.
  assert (HF : Forall gateway_op_ok ops) by (repeat constructor; vm_compute; congruence).
  destruct (gateway_sessions stable_sort gateway_queue ops _ g 1150 Hq HF ltac:(done) ltac:(done)
    (gateway_state_eq ops HF ltac:(done))) as (closed & g' & E & _ & Hc & Hh & _).
  exists closed, g'. split; [exact E|]. rewrite !Hh. split; [|split; vm_compute; reflexivity].
  assert (H1 : Gateway_live_session_count g = 2%nat) by (vm_compute; reflexivity).
  assert (H2 : match Gateway_close_stale_sessions g 1150 with
    | Ret x => Gateway_live_session_count x.2 | _ => O end = 1%nat) by (vm_compute; reflexivity).
  rewrite E in H2. simpl in H2. lia.
Defined.
