(* ===== verification/Strtod.v ===== *)
(** * [std::strtod]

    The exchange pipeline reads prices and quantities with [strtod], in the "C"
    locale. The model follows the C standard: white space, an optional sign, then
    a decimal or hexadecimal numeral with an optional fraction and exponent, or
    one of the words for infinity and NaN; the longest such prefix is converted to
    the nearest double, ties to even, and the rest of the string is returned.
    [ERANGE] is reported as the C library documents it: when the result overflows,
    or is below the normal range and not exact. *)

From S2P Require Import Prelude Double.
From Stdlib Require Import SpecFloat Ascii.

Local Open Scope Z_scope.

(** ** Characters *)

Definition char_code (c : Ascii.ascii) : Z := Z.of_nat (Ascii.nat_of_ascii c).

(** [std::isspace]: the space and the five control characters 9 to 13. *)
Definition is_space (c : Ascii.ascii) : bool :=
  (char_code c =? 32) || ((9 <=? char_code c) && (char_code c <=? 13)).

Definition to_lower (c : Ascii.ascii) : Ascii.ascii :=
  if (65 <=? char_code c) && (char_code c <=? 90)
  then Ascii.ascii_of_nat (Z.to_nat (char_code c + 32)) else c.

Definition digit_of (base : Z) (c : Ascii.ascii) : option Z :=
  let v := char_code (to_lower c) in
  let d := if (48 <=? v) && (v <=? 57) then v - 48
           else if (97 <=? v) && (v <=? 102) then v - 87 else 16 in
  if d <? base then Some d else None.

Fixpoint skip_space (s : string) : string :=
  match s with
  | String c s' => if is_space c then skip_space s' else s
  | EmptyString => s
  end.

Definition read_sign (s : string) : bool * string :=
  match s with
  | String "+"%char s => (false, s)
  | String "-"%char s => (true, s)
  | _ => (false, s)
  end.

(** The rest after a word, matched without regard to case. *)
Fixpoint strip_word (word s : string) : option string :=
  match word, s with
  | EmptyString, _ => Some s
  | String w word, String c s => if Ascii.eqb w (to_lower c) then strip_word word s else None
  | String _ _, EmptyString => None
  end.

(** ** Numerals *)

(** The digits at the head: their value after [value], how many, and the rest. *)
Fixpoint read_digits (base : Z) (s : string) (value count : Z) : Z * Z * string :=
  match s with
  | EmptyString => (value, count, s)
  | String c s' =>
    match digit_of base c with
    | Some d => read_digits base s' (value * base + d) (count + 1)
    | None => (value, count, s)
    end
  end.

(** Digits with an optional radix point, at least one digit: the integer without
    the point, the number of digits behind it, the rest. *)
Definition read_mantissa (base : Z) (s : string) : option (Z * Z * string) :=
  let '(m, n, r) := read_digits base s 0 0 in
  match r with
  | String "."%char r =>
    let '(m, k, r) := read_digits base r m 0 in
    if n + k =? 0 then None else Some (m, k, r)
  | _ => if n =? 0 then None else Some (m, 0, r)
  end.

(** An exponent is converted only when it has digits. *)
Definition read_exponent (mark : Ascii.ascii) (s : string) : Z * string :=
  match s with
  | String c r =>
    if Ascii.eqb (to_lower c) mark
    then
      let '(negative, r) := read_sign r in
      let '(e, n, r) := read_digits 10 r 0 0 in
      if n =? 0 then (0, s) else (if negative then - e else e, r)
    else (0, s)
  | EmptyString => (0, s)
  end.

(** ** Values *)

Record StrtodResult := mkStrtod {
  sd_value : double;
  sd_erange : bool;
  sd_rest : string
}.

(** [m * base^e] as a ratio of integers. *)
Definition ratio (m base e : Z) : Z * Z :=
  if 0 <=? e then (m * base ^ e, 1) else (m, base ^ (- e)).

(** The double nearest to a positive ratio. *)
Definition round_ratio (num den : Z) : double :=
  ddiv (S754_finite false (Z.to_pos num) 0) (S754_finite false (Z.to_pos den) 0).

(** Below the smallest normal number, 2^-1022. *)
Definition below_normal (x : double) : bool := is_finite x && (Z.abs (val x) <? 2 ^ 52).

(** Overflow, or an inexact result below the normal range. *)
Definition out_of_range (x : double) (num den : Z) : bool :=
  negb (is_finite x) || below_normal x && negb (val x * den =? num * 2 ^ 1074).

Definition convert (negative : bool) (m base e : Z) (rest : string) : StrtodResult :=
  if m =? 0 then mkStrtod (S754_zero negative) false rest
  else
    let '(num, den) := ratio m base e in
    let x := round_ratio num den in
    mkStrtod (if negative then dopp x else x) (out_of_range x num den) rest.

(** [nan(...)] takes letters, digits and underscores in the parentheses. *)
Fixpoint close_paren (s : string) : option string :=
  match s with
  | EmptyString => None
  | String c s =>
    if Ascii.eqb c ")"%char then Some s
    else
      let v := char_code (to_lower c) in
      if (48 <=? v) && (v <=? 57) || (97 <=? v) && (v <=? 122) || (v =? 95) then close_paren s else None
  end.

Definition read_special (negative : bool) (s : string) : option StrtodResult :=
  match strip_word "inf" s with
  | Some r => Some (mkStrtod (S754_infinity negative) false (default r (strip_word "inity" r)))
  | None =>
    match strip_word "nan" s with
    | Some r => Some (mkStrtod S754_nan false
        (match r with String "("%char r' => default r (close_paren r') | _ => r end))
    | None => None
    end
  end.

Definition strtod (s : string) : StrtodResult :=
  let '(negative, t) := read_sign (skip_space s) in
  match read_special negative t with
  | Some r => r
  | None =>
    match strip_word "0x" t ≫= read_mantissa 16 with
    | Some (m, k, r) => let '(e, r) := read_exponent "p"%char r in convert negative m 2 (e - 4 * k) r
    | None =>
      match read_mantissa 10 t with
      | Some (m, k, r) => let '(e, r) := read_exponent "e"%char r in convert negative m 10 (e - k) r
      | None => mkStrtod dzero false s
      end
    end
  end.

Example strtod_decimal : strtod " -12.5e1;" = mkStrtod (double_of_Z (-125)) false ";".
Proof. vm_compute. reflexivity. Qed.
Example strtod_tenth : sd_value (strtod "0.1") = dlit 1 1.
Proof. vm_compute. reflexivity. Qed.
Example strtod_hex : strtod "0X1.8p-1" = mkStrtod (dlit 75 2) false "".
Proof. vm_compute. reflexivity. Qed.
Example strtod_partial : strtod "1e+" = mkStrtod done_ false "e+".
Proof. vm_compute. reflexivity. Qed.
Example strtod_overflow : strtod "1e309" = mkStrtod (S754_infinity false) true "".
Proof. vm_compute. reflexivity. Qed.
Example strtod_underflow : sd_erange (strtod "1e-320") = true /\ sd_erange (strtod "0x1p-1074") = false.
Proof. vm_compute. done. Qed.
Example strtod_words : sd_rest (strtod "Infinity") = "" /\ sd_rest (strtod "nan(1_a)x") = "x" /\
  sd_rest (strtod "infin") = "in" /\ strtod "abc" = mkStrtod dzero false "abc".
Proof. vm_compute. done. Qed.

(** ** Rounding at any location

    [Double.round_aux_spec] gives the value of an exactly known mantissa; here the
    quotient of a division, whose remainder is a location, is shown to round to a
    representable number. *)

Lemma shr_iter_m (k : nat) (r : shr_record) :
  0 <= shr_m r -> shr_m (Nat.iter k shr_1 r) = shr_m r / 2 ^ Z.of_nat k.
Proof.
  intros Hr. induction k as [|k IH]; [by rewrite Z.div_1_r|].
  rewrite Nat2Z.inj_succ, Z.pow_succ_r by lia. simpl Nat.iter.
  destruct (Nat.iter k shr_1 r) as [q a b]. simpl in IH.
  assert (0 <= q) by (subst q; apply Z.div_pos; lia).
  rewrite shr_1_spec by done. simpl shr_m. rewrite IH, Z.div_div by lia. f_equal. lia.
Qed.

Lemma shr_value (r : shr_record) (e n : Z) : 0 <= shr_m r -> 0 <= n ->
  shr_m (shr r e n).1 = shr_m r / 2 ^ n /\ (shr r e n).2 = e + n.
Proof.
  intros Hr Hn. unfold shr. destruct n as [|p|p]; try lia.
  - simpl. by rewrite Z.div_1_r, Z.add_0_r.
  - simpl. rewrite iter_pos_nat, shr_iter_m by done. by rewrite positive_nat_Z.
Qed.

Lemma nearest_bounds (m : Z) (l : location) : m <= round_nearest_even m l <= m + 1.
Proof. destruct l as [|[]]; simpl; try destruct (Z.even m); lia. Qed.

Lemma shr_of_loc (m : Z) (l : location) : shr_m (shr_record_of_loc m l) = m.
Proof. by destruct l as [|[]]. Qed.

Lemma digits2_pos_log2 (m : Z) : 0 < m -> Zdigits2 m = Z.log2 m + 1.
Proof. intros Hm. destruct m as [|p|p]; try lia. apply digits2_log2. Qed.

Lemma round_aux_valid (s : bool) (m e : Z) (l : location) : 0 <= m ->
  e <= fexp prec emax (Zdigits2 m + e) ->
  exists v, 0 <= v /\ rounded_to (binary_round_aux prec emax s m e l) s v.
Proof.
  intros Hm He. unfold binary_round_aux. unfold shr_fexp at 1.
  set (t := fexp prec emax (Zdigits2 m + e)) in *.
  destruct (shr_value (shr_record_of_loc m l) e (t - e)) as [H1 H2]; [by rewrite shr_of_loc|lia|].
  rewrite shr_of_loc in H1. destruct (shr _ e (t - e)) as [r e']. simpl in H1, H2.
  replace e' with t by lia. clear e' H2.
  pose proof (nearest_bounds (shr_m r) (loc_of_shr_record r)) as HB.
  generalize dependent (round_nearest_even (shr_m r) (loc_of_shr_record r)). intros M HB.
  assert (Ht : -1074 <= t) by (subst t; rewrite fexp_eq; lia).
  assert (0 <= shr_m r) by (rewrite H1; apply Z.div_pos; lia).
  exists (M * 2 ^ (t + 1074)). split; [apply Z.mul_nonneg_nonneg; lia|].
  destruct (Z.eq_dec m 0) as [->|Hnz].
  - rewrite Z.div_0_l in H1 by lia.
    apply second_rounding; [lia|done|]. subst t. simpl Zdigits2 in *. rewrite fexp_eq in *. lia.
  - assert (Hlog : t = Z.max (Z.log2 m + 1 + e - 53) (-1074))
      by (subst t; rewrite digits2_pos_log2 by lia; by rewrite fexp_eq).
    destruct (Z.log2_spec m ltac:(lia)) as [Hl Hu].
    assert (shr_m r < 2 ^ 53).
    { rewrite H1. apply Z.div_lt_upper_bound; [lia|]. rewrite <- Z.pow_add_r by lia.
      eapply Z.lt_le_trans; [exact Hu|]. apply Z.pow_le_mono_r; lia. }
    apply second_rounding; [lia|done|]. intros Hgt.
    enough (2 ^ 52 <= shr_m r) by lia. rewrite H1. apply Z.div_le_lower_bound; [lia|].
    rewrite <- Z.pow_add_r by lia. etransitivity; [|exact Hl]. apply Z.pow_le_mono_r; lia.
Qed.

(** The quotient carries enough digits. *)
Lemma quotient_digits (m n d k : Z) : 0 < m -> 0 < n -> 0 <= k -> d = m * 2 ^ k / n -> 0 <= d /\ (0 < d -> Zdigits2 m + k - Zdigits2 n <= Zdigits2 d).
Proof.
  intros Hm Hn Hk ->. split; [apply Z.div_pos; lia|]. intros Hpos.
  rewrite !digits2_pos_log2 in * by lia.
  enough (Z.log2 m + k - Z.log2 n - 1 <= Z.log2 (m * 2 ^ k / n)) by lia.
  destruct (Z.le_gt_cases (Z.log2 m + k - Z.log2 n - 1) 0) as [Hle|Hgt].
  { etransitivity; [exact Hle|]. apply Z.log2_nonneg. }
  rewrite <- (Z.log2_pow2 (Z.log2 m + k - Z.log2 n - 1)) by lia.
  apply Z.log2_le_mono. apply Z.div_le_lower_bound; [done|].
  destruct (Z.log2_spec m Hm) as [Hl _]. destruct (Z.log2_spec n Hn) as [_ Hu].
  transitivity (2 ^ Z.succ (Z.log2 n) * 2 ^ (Z.log2 m + k - Z.log2 n - 1)).
  - apply Z.mul_le_mono_nonneg_r; [|lia]. apply Z.pow_nonneg. lia.
  - rewrite <- Z.pow_add_r by (lia || pose proof (Z.log2_nonneg n); lia).
    replace (Z.succ (Z.log2 n) + (Z.log2 m + k - Z.log2 n - 1)) with (Z.log2 m + k) by lia.
    rewrite Z.pow_add_r by (lia || apply Z.log2_nonneg). apply Z.mul_le_mono_nonneg_r; lia.
Qed.

(** A division of finite numbers, in canonical form or not, gives a double. *)
Lemma ddiv_finite_valid (s s' : bool) (m m' : positive) (e e' : Z) :
  valid_binary prec emax (ddiv (S754_finite s m e) (S754_finite s' m' e')) = true.
Proof.
  unfold ddiv, SFdiv, SFdiv_core_binary.
  set (x := Zdigits2 (Zpos m) + e - (Zdigits2 (Zpos m') + e')).
  set (t := Z.min (fexp prec emax x) (e - e')). set (k := e - e' - t).
  assert (Hk : 0 <= k) by (subst k t; lia).
  replace (match k with Z0 => Zpos m | Zpos _ => Z.shiftl (Zpos m) k | Zneg _ => 0 end) with (Zpos m * 2 ^ k).
  2: { destruct k as [|p|p]; [by rewrite Z.mul_1_r|by rewrite Z.shiftl_mul_pow2|lia]. }
  pose proof (quotient_digits (Zpos m) (Zpos m') (Zpos m * 2 ^ k / Zpos m') k ltac:(lia) ltac:(lia) Hk eq_refl)
    as [Hq0 Hq].
  unfold Z.div, Z.modulo in *. destruct (Z.div_eucl (Zpos m * 2 ^ k) (Zpos m')) as [q r] eqn:E.
  assert (Hq1 : q = 0 -> Zdigits2 (Zpos m) + k <= Zdigits2 (Zpos m')).
  { intros ->. assert (HE : Zpos m * 2 ^ k / Zpos m' = 0) by (unfold Z.div; by rewrite E).
    apply Z.div_small_iff in HE; [|lia]. rewrite !digits2_pos_log2 by lia.
    pose proof (Z.log2_mul_pow2 (Zpos m) k ltac:(lia) Hk).
    assert (Z.log2 (Zpos m * 2 ^ k) <= Z.log2 (Zpos m')) by (apply Z.log2_le_mono; lia). lia. }
  destruct (round_aux_valid (xorb s s') q t (new_location (Zpos m') r) Hq0) as (v & _ & Hv & _); [|exact Hv].
  revert Hq Hq1. subst k t x. rewrite !fexp_eq. generalize (Zdigits2 (Zpos m)) (Zdigits2 (Zpos m')).
  intros d d' Hq Hq1. destruct (Z.eq_dec q 0) as [->|Hn].
  - specialize (Hq1 eq_refl). simpl Zdigits2. lia.
  - specialize (Hq ltac:(lia)). lia.
Qed.

Lemma fin_opp_valid (x : double) : valid_binary prec emax (dopp x) = valid_binary prec emax x.
Proof. by destruct x. Qed.

(** Whatever [strtod] returns is a value of type [double]. *)
Lemma convert_valid (negative : bool) (m base e : Z) (rest : string) :
  valid_binary prec emax (sd_value (convert negative m base e rest)) = true.
Proof.
  unfold convert. destruct (m =? 0); [done|]. destruct (ratio m base e) as [num den]. simpl.
  destruct negative; rewrite ?fin_opp_valid; apply ddiv_finite_valid.
Qed.

Lemma strtod_valid (s : string) : valid_binary prec emax (sd_value (strtod s)) = true.
Proof.
  unfold strtod. destruct (read_sign (skip_space s)) as [negative t].
  destruct (read_special negative t) as [r|] eqn:Er.
  { unfold read_special in Er. destruct (strip_word "inf" t); [by simplify_eq/=|].
    destruct (strip_word "nan" t); by simplify_eq/=. }
  destruct (_ ≫= _) as [[[m k] r]|].
  { destruct (read_exponent _ r). apply convert_valid. }
  destruct (read_mantissa 10 t) as [[[m k] r]|]; [|done].
  destruct (read_exponent _ r). apply convert_valid.
Qed.
