(* ===== verification/Numeral.v ===== *)
(** * Texts of numbers

    The grammar of the numerals [strtod] converts, and which of them denote a
    number in the range of [double]. [strtod] consumes a whole text and gives a
    finite number without a range error exactly when the grammar derives the text
    with such a number. *)

From S2P Require Import Prelude Double Strtod.
From Stdlib Require Import SpecFloat Ascii.

Local Open Scope Z_scope.

(** ** The grammar *)

(** The digits of a text that has no other characters. *)
Fixpoint all_digits (base : Z) (s : string) : option (list Z) :=
  match s with
  | EmptyString => Some []
  | String c s => d ← digit_of base c; ds ← all_digits base s; Some (d :: ds)
  end.

Definition digits_value (base : Z) (ds : list Z) : Z := foldl (fun v d => v * base + d) 0 ds.

(** Digits, at least one, with an optional point: the integer without the point
    and the number of digits behind it. *)
Inductive mantissa (base : Z) : string -> Z -> Z -> Prop :=
| mantissa_integer t ds : all_digits base t = Some ds -> ds <> [] ->
    mantissa base t (digits_value base ds) 0
| mantissa_point t ds t' ds' : all_digits base t = Some ds -> all_digits base t' = Some ds' -> ds ++ ds' <> [] ->
    mantissa base (t +:+ String "."%char t') (digits_value base (ds ++ ds')) (Z.of_nat (length ds')).

Inductive sign_text : string -> bool -> Prop :=
| sign_none : sign_text "" false
| sign_plus : sign_text "+" false
| sign_minus : sign_text "-" true.

(** An optional power, marked by a letter of either case. *)
Inductive power (mark : ascii) : string -> Z -> Prop :=
| power_none : power mark "" 0
| power_some c sg negative t ds : to_lower c = mark -> sign_text sg negative ->
    all_digits 10 t = Some ds -> ds <> [] ->
    power mark (String c (sg +:+ t)) (if negative then - digits_value 10 ds else digits_value 10 ds).

(** A numeral and the number [m * base^e] it denotes. *)
Inductive numeral : string -> Z -> Z -> Z -> Prop :=
| numeral_decimal t t' m k x : mantissa 10 t m k -> power "e" t' x -> numeral (t +:+ t') m 10 (x - k)
| numeral_hexadecimal c t t' m k x : to_lower c = "x"%char -> mantissa 16 t m k -> power "p" t' x ->
    numeral (String "0" (String c (t +:+ t'))) m 2 (x - 4 * k).

Fixpoint all_spaces (s : string) : bool :=
  match s with EmptyString => true | String c s => is_space c && all_spaces s end.

(** A whole text: white space, a sign, a numeral, and nothing behind it. *)
Definition number_text (s : string) (negative : bool) (m base e : Z) : Prop :=
  exists sp sg t, s = sp +:+ sg +:+ t /\ all_spaces sp = true /\ sign_text sg negative /\ numeral t m base e.

(** The number is zero, or it rounds to a finite double and, when that is below the
    normal range, exactly. *)
Definition in_range (m base e : Z) : Prop :=
  m = 0 \/
  let '(num, den) := ratio m base e in
  is_finite (round_ratio num den) = true /\
  (Z.abs (val (round_ratio num den)) < 2 ^ 52 -> val (round_ratio num den) * den = num * 2 ^ 1074).

Definition number_value (negative : bool) (m base e : Z) : double :=
  if m =? 0 then S754_zero negative
  else
    let '(num, den) := ratio m base e in
    if negative then dopp (round_ratio num den) else round_ratio num den.

(** The text is a number in range, [x] the nearest double. *)
Definition reads_number (s : string) (x : double) : Prop :=
  exists negative m base e, number_text s negative m base e /\ in_range m base e /\ x = number_value negative m base e.

(** ** Characters *)

Lemma sapp_nil (s : string) : s +:+ "" = s.
Proof. induction s as [|c s IH]; [done|]. change (String c s +:+ "") with (String c (s +:+ "")). by rewrite IH. Qed.
Lemma sapp_cons (c : ascii) (s t : string) : String c s +:+ t = String c (s +:+ t).
Proof. done. Qed.
Lemma sapp_assoc (s t u : string) : (s +:+ t) +:+ u = s +:+ t +:+ u.
Proof. induction s as [|c s IH]; [done|]. by rewrite !sapp_cons, IH. Qed.

(** A fact about every character is checked by listing them. *)
Lemma every_ascii (P : ascii -> bool) : forallb P (map ascii_of_nat (seq 0 256)) = true -> forall c, P c = true.
Proof.
  intros H c. rewrite forallb_forall in H. apply H. apply in_map_iff. exists (nat_of_ascii c).
  split; [apply ascii_nat_embedding|]. apply in_seq. pose proof (nat_ascii_bounded c). lia.
Qed.

Ltac by_characters P :=
  pose proof (every_ascii P ltac:(vm_compute; reflexivity)).

(** No digit is a point, a sign, a space or the first letter of a word. *)
Lemma digit_char (base : Z) (c : ascii) (d : Z) : (base = 10 \/ base = 16) -> digit_of base c = Some d ->
  c <> "."%char /\ c <> "+"%char /\ c <> "-"%char /\ is_space c = false /\
  to_lower c <> "i"%char /\ to_lower c <> "n"%char /\ to_lower c <> "x"%char /\ to_lower c <> "p"%char /\
  (base = 10 -> to_lower c <> "e"%char).
Proof.
  intros Hb Hd.
  by_characters (fun c => negb (match digit_of 16 c with Some _ => true | None => false end) ||
    negb (Ascii.eqb c ".") && negb (Ascii.eqb c "+") && negb (Ascii.eqb c "-") && negb (is_space c) &&
    negb (Ascii.eqb (to_lower c) "i") && negb (Ascii.eqb (to_lower c) "n") && negb (Ascii.eqb (to_lower c) "x") &&
    negb (Ascii.eqb (to_lower c) "p") && (negb (Ascii.eqb (to_lower c) "e") ||
      match digit_of 10 c with Some _ => false | None => true end)).
  specialize (H c). cbv beta in H.
  assert (Hd16 : exists d', digit_of 16 c = Some d').
  { destruct Hb as [->| ->]; [|by eexists]. revert Hd. unfold digit_of. cbv zeta.
    repeat (case_match; try done); intros; simplify_eq; eauto; lia. }
  destruct Hd16 as [d' Hd']. rewrite Hd' in H. simpl in H. rewrite !andb_true_iff, !negb_true_iff, !Ascii.eqb_neq in H.
  destruct H as [[[[[[[[H1 H2] H3] H4] H5] H6] H7] H8] H9]. split_and!; try done.
  intros ->. rewrite Hd in H9. rewrite orb_false_r in H9. by rewrite negb_true_iff, Ascii.eqb_neq in H9.
Qed.

(** ** Digits *)

Lemma all_digits_cons (base : Z) (c : ascii) (s : string) (ds : list Z) : all_digits base (String c s) = Some ds ->
  exists d ds', digit_of base c = Some d /\ all_digits base s = Some ds'.
Proof. intros (d & Ed & (ds' & Es & _)%bind_Some)%bind_Some. by exists d, ds'. Qed.

Lemma read_digits_all (base : Z) (s r : string) : forall ds v n, all_digits base s = Some ds ->
  (forall c r', r = String c r' -> digit_of base c = None) ->
  read_digits base (s +:+ r) v n = (foldl (fun v d => v * base + d) v ds, n + Z.of_nat (length ds), r).
Proof.
  induction s as [|c s IH]; intros ds v n Hd Hr; simpl in Hd.
  { injection Hd as <-. change ("" +:+ r) with r. simpl. rewrite Z.add_0_r.
    destruct r as [|c r]; [done|]. simpl. by rewrite (Hr c r eq_refl). }
  apply bind_Some in Hd as (d & Ed & Hd). apply bind_Some in Hd as (ds' & Eds & [= <-]).
  rewrite sapp_cons. simpl. rewrite Ed, (IH ds') by done. simpl. f_equal. f_equal. lia.
Qed.

Lemma read_digits_split (base : Z) (s : string) : forall v n, exists t ds r,
  s = t +:+ r /\ all_digits base t = Some ds /\
  read_digits base s v n = (foldl (fun v d => v * base + d) v ds, n + Z.of_nat (length ds), r).
Proof.
  induction s as [|c s IH]; intros v n; simpl.
  { exists "", [], "". simpl. by rewrite Z.add_0_r. }
  destruct (digit_of base c) as [d|] eqn:Ed.
  - destruct (IH (v * base + d) (n + 1)) as (t & ds & r & -> & Et & ->).
    exists (String c t), (d :: ds), r. simpl. rewrite Ed, Et. split_and!; [done|done|]. f_equal. f_equal. lia.
  - exists "", [], (String c s). simpl. by rewrite Z.add_0_r.
Qed.

(** What follows a mantissa: neither a digit nor a point. *)
Definition stops (base : Z) (r : string) : Prop :=
  forall c r', r = String c r' -> digit_of base c = None /\ c <> "."%char.

Lemma digits_none (base : Z) (ds : list Z) : Z.of_nat (length ds) = 0 -> ds = [].
Proof. destruct ds; simpl; [done|lia]. Qed.

Lemma read_mantissa_complete (base : Z) (t r : string) (m k : Z) : digit_of base "." = None ->
  mantissa base t m k -> stops base r -> read_mantissa base (t +:+ r) = Some (m, k, r).
Proof.
  intros Hpt [u ds Hu Hne|u ds u' ds' Hu Hu' Hne] Hr; unfold read_mantissa.
  - rewrite (read_digits_all base u r ds) by (done || (intros c r' E; by apply (Hr c r'))). rewrite Z.add_0_l.
    destruct (Z.eqb_spec (Z.of_nat (length ds)) 0) as [E|_]; [by apply (digits_none base) in E|].
    destruct r as [|c r]; [done|]. destruct (Hr c r eq_refl) as [_ Hc].
    revert Hc. clear. by destruct c as [[] [] [] [] [] [] [] []].
  - rewrite sapp_assoc, sapp_cons, (read_digits_all base u _ ds) by (done || by intros c r' [= <- _]).
    rewrite (read_digits_all base u' r ds') by (done || (intros c r' E; by apply (Hr c r'))).
    destruct (Z.eqb_spec (0 + Z.of_nat (length ds) + (0 + Z.of_nat (length ds'))) 0) as [E|_].
    + exfalso. apply Hne. rewrite (digits_none base ds), (digits_none base ds') by lia. done.
    + unfold digits_value. by rewrite foldl_app.
Qed.

Lemma read_mantissa_sound (base : Z) (s r : string) (m k : Z) : read_mantissa base s = Some (m, k, r) ->
  exists t, s = t +:+ r /\ mantissa base t m k.
Proof.
  unfold read_mantissa. destruct (read_digits_split base s 0 0) as (t & ds & r0 & -> & Ht & ->).
  assert (Hint : (if 0 + Z.of_nat (length ds) =? 0 then None
      else Some (foldl (fun v d => v * base + d) 0 ds, 0, r0)) = Some (m, k, r) ->
    exists t0, t +:+ r0 = t0 +:+ r /\ mantissa base t0 m k).
  { destruct (Z.eqb_spec (0 + Z.of_nat (length ds)) 0) as [_|Hn]; [done|]. intros [= <- <- <-].
    exists t. split; [done|]. apply mantissa_integer; [done|]. by intros ->. }
  destruct r0 as [|c r1]; [exact Hint|].
  destruct (decide (c = "."%char)) as [->|Hc].
  - clear Hint. destruct (read_digits_split base r1 (foldl (fun v d => v * base + d) 0 ds) 0)
      as (t' & ds' & r2 & -> & Ht' & ->).
    destruct (Z.eqb_spec (0 + Z.of_nat (length ds) + (0 + Z.of_nat (length ds'))) 0) as [_|Hn]; [done|].
    intros [= <- <- <-]. exists (t +:+ String "." t'). split; [by rewrite sapp_assoc|].
    rewrite <- foldl_app. apply mantissa_point; [done|done|].
    intros [-> ->]%app_eq_nil. done.
  - intros E. apply Hint. revert E Hc. clear. by destruct c as [[] [] [] [] [] [] [] []].
Qed.

(** ** Signs and powers *)

Lemma read_sign_split (s : string) : exists sg t, s = sg +:+ t /\ sign_text sg (read_sign s).1 /\ (read_sign s).2 = t.
Proof.
  destruct s as [|c s]; [exists "", ""; by split_and!; [|constructor|]|].
  destruct (decide (c = "+"%char)) as [->|Hp]; [exists "+", s; by split_and!; [|constructor|]|].
  destruct (decide (c = "-"%char)) as [->|Hm]; [exists "-", s; by split_and!; [|constructor|]|].
  exists "", (String c s). assert (E : read_sign (String c s) = (false, String c s)).
  { revert Hp Hm. clear. by destruct c as [[] [] [] [] [] [] [] []]. }
  rewrite E. by split_and!; [|constructor|].
Qed.

Lemma read_sign_text (sg t : string) (negative : bool) : sign_text sg negative ->
  (forall c r, t = String c r -> c <> "+"%char /\ c <> "-"%char) -> read_sign (sg +:+ t) = (negative, t).
Proof.
  intros [] Ht; [|done|done]. change ("" +:+ t) with t. destruct t as [|c t]; [done|].
  destruct (Ht c t eq_refl) as [Hp Hm]. revert Hp Hm. clear.
  by destruct c as [[] [] [] [] [] [] [] []].
Qed.

Lemma all_digits_head (base : Z) (t : string) (ds : list Z) : all_digits base t = Some ds -> ds <> [] ->
  exists c r d, t = String c r /\ digit_of base c = Some d.
Proof.
  destruct t as [|c t]; simpl; [by intros [= <-]|]. intros (d & Ed & _)%bind_Some _. by exists c, t, d.
Qed.

Lemma read_exponent_complete (mark : ascii) (t : string) (x : Z) : power mark t x -> read_exponent mark t = (x, "").
Proof.
  intros [|c sg negative u ds <- Hsg Hu Hne]; [done|]. simpl. rewrite Ascii.eqb_refl.
  destruct (all_digits_head 10 u ds Hu Hne) as (c1 & r1 & d1 & E1 & Hd1).
  rewrite (read_sign_text sg u negative) by (done || (intros c' r'; rewrite E1; intros [= <- _];
    destruct (digit_char 10 c1 d1 ltac:(by left) Hd1) as (_ & ? & ? & _); done)).
  rewrite <- (sapp_nil u), (read_digits_all 10 u "" ds) by done.
  destruct (Z.eqb_spec (0 + Z.of_nat (length ds)) 0) as [E|_]; [by apply (digits_none 10) in E|].
  by destruct negative.
Qed.

Lemma read_exponent_sound (mark : ascii) (t : string) (x : Z) : read_exponent mark t = (x, "") -> power mark t x.
Proof.
  destruct t as [|c t]; simpl; [intros [= <-]; constructor|].
  destruct (Ascii.eqb_spec (to_lower c) mark) as [Hc|_]; [|done].
  destruct (read_sign_split t) as (sg & u & -> & Hsg & Hu). destruct (read_sign (sg +:+ u)) as [negative u'].
  simpl in Hsg, Hu. subst u'. destruct (read_digits_split 10 u 0 0) as (v & ds & r & -> & Hv & ->).
  destruct (Z.eqb_spec (0 + Z.of_nat (length ds)) 0) as [_|Hn]; [done|]. intros [= <- ->]. rewrite sapp_nil.
  apply power_some; [done|done|done|]. by intros ->.
Qed.

(** ** Whole texts *)

Lemma skip_spaces (sp t : string) : all_spaces sp = true -> (forall c r, t = String c r -> is_space c = false) ->
  skip_space (sp +:+ t) = t.
Proof.
  induction sp as [|c sp IH]; simpl; intros Hs Ht.
  - change ("" +:+ t) with t. destruct t as [|c t]; [done|]. simpl. by rewrite (Ht c t eq_refl).
  - apply andb_true_iff in Hs as [Hc Hs]. rewrite Hc. by apply IH.
Qed.

Lemma skip_space_split (s : string) : exists sp, s = sp +:+ skip_space s /\ all_spaces sp = true.
Proof.
  induction s as [|c s (sp & E & Hs)]; simpl; [by exists ""|].
  destruct (is_space c) eqn:Hc; [|by exists ""]. exists (String c sp). split; [|simpl; by rewrite Hc].
  rewrite sapp_cons. by f_equal.
Qed.

(** The head of a mantissa, and of a numeral. *)
Definition numeral_head (base : Z) (c : ascii) : Prop := c = "."%char \/ exists d, digit_of base c = Some d.

Lemma mantissa_head (base : Z) (t : string) (m k : Z) : mantissa base t m k ->
  exists c r, t = String c r /\ numeral_head base c.
Proof.
  intros [u ds Hu Hne|u ds u' ds' Hu Hu' Hne].
  - destruct (all_digits_head base u ds Hu Hne) as (c & r & d & -> & Hd). exists c, r. split; [done|right; by exists d].
  - destruct u as [|c u]; [exists "."%char, u'; by split; [|left]|].
    simpl in Hu. apply bind_Some in Hu as (d & Hd & _). exists c, (u +:+ String "." u').
    split; [done|right; by exists d].
Qed.

Lemma head_char (base : Z) (c : ascii) : (base = 10 \/ base = 16) -> numeral_head base c ->
  c <> "+"%char /\ c <> "-"%char /\ is_space c = false /\ to_lower c <> "i"%char /\ to_lower c <> "n"%char /\
  to_lower c <> "x"%char.
Proof.
  intros Hb [->|(d & Hd)]; [done|]. destruct (digit_char base c d Hb Hd) as (_ & ? & ? & ? & ? & ? & ? & _). done.
Qed.

Lemma numeral_starts (t : string) (m base e : Z) : numeral t m base e ->
  exists c r, t = String c r /\ numeral_head 10 c.
Proof.
  intros [u u' m' k x Hm _|c u u' m' k x _ _ _].
  - destruct (mantissa_head _ _ _ _ Hm) as (c & r & -> & Hc). by exists c, (r +:+ u').
  - exists "0"%char, (String c (u +:+ u')). split; [done|]. right. by exists 0.
Qed.

Lemma no_special (c : ascii) (r : string) (negative : bool) : numeral_head 10 c ->
  read_special negative (String c r) = None.
Proof.
  intros Hc. destruct (head_char 10 c ltac:(by left) Hc) as (_ & _ & _ & Hi & Hn & _).
  unfold read_special. cbn [strip_word]. by rewrite !(proj2 (Ascii.eqb_neq _ (to_lower c))) by congruence.
Qed.

(** A power does not continue a mantissa. *)
Lemma power_stops (base : Z) (mark : ascii) (t : string) (x : Z) :
  (base = 10 /\ mark = "e"%char \/ base = 16 /\ mark = "p"%char) -> power mark t x -> stops base t.
Proof.
  intros Hb [|c sg negative u ds Hc _ _ _] c' r'; [done|]. intros [= <- _]. split.
  - destruct (digit_of base c) as [d|] eqn:Hd; [|done]. exfalso.
    destruct Hb as [[-> ->]|[-> ->]].
    + destruct (digit_char 10 c d ltac:(by left) Hd) as (_ & _ & _ & _ & _ & _ & _ & _ & He). by apply He.
    + destruct (digit_char 16 c d ltac:(by right) Hd) as (_ & _ & _ & _ & _ & _ & _ & Hp & _). done.
  - intros ->. destruct Hb as [[_ ->]|[_ ->]]; vm_compute in Hc; done.
Qed.

(** The second character of a decimal numeral is not an [x]. *)
Lemma mantissa_second (t : string) (c0 : ascii) (r : string) (m k : Z) : mantissa 10 t m k -> t = String c0 r ->
  forall c1 r1, r = String c1 r1 -> to_lower c1 <> "x"%char.
Proof.
  intros HM -> c1 r1 ->.
  assert (HD : forall u ds c u', all_digits 10 u = Some ds -> u = String c u' -> to_lower c <> "x"%char).
  { intros u ds c u' Hu ->. simpl in Hu. apply bind_Some in Hu as (d & Hd & _).
    by destruct (digit_char 10 c d ltac:(by left) Hd) as (_ & _ & _ & _ & _ & _ & ? & _). }
  inversion HM as [u ds Hu Hne|u ds u' ds' Hu Hu' Hne E]; subst.
  - apply all_digits_cons in Hu as (d & ds' & _ & Hu). exact (HD _ _ _ _ Hu eq_refl).
  - destruct u as [|a u]; [injection E as _ ->; exact (HD _ _ _ _ Hu' eq_refl)|]. injection E as _ E.
    apply all_digits_cons in Hu as (d & ds1 & _ & Hu).
    destruct u as [|a' u]; [injection E as <- _; done|injection E as -> _; exact (HD _ _ _ _ Hu eq_refl)].
Qed.

Lemma not_hexadecimal (t t' : string) (m k x : Z) : mantissa 10 t m k -> power "e" t' x ->
  strip_word "0x" (t +:+ t') = None.
Proof.
  intros HM HP. destruct (mantissa_head _ _ _ _ HM) as (c & r & Et & Hc). subst t. rewrite sapp_cons.
  cbn [strip_word]. destruct (Ascii.eqb "0" (to_lower c)); [|done].
  destruct r as [|c1 r1].
  - change ("" +:+ t') with t'. destruct HP as [|c1 sg negative u ds Hc1 _ _ _]; [done|]. cbn [strip_word]. by rewrite Hc1.
  - rewrite sapp_cons. cbn [strip_word]. pose proof (mantissa_second _ c _ m k HM eq_refl c1 r1 eq_refl) as Hx.
    by rewrite (proj2 (Ascii.eqb_neq _ (to_lower c1))) by congruence.
Qed.

Lemma lower_zero (c : ascii) : to_lower c = "0"%char -> c = "0"%char.
Proof.
  by_characters (fun c => negb (Ascii.eqb (to_lower c) "0") || Ascii.eqb c "0"). specialize (H c). cbv beta in H.
  intros E. rewrite E in H. by apply Ascii.eqb_eq in H.
Qed.

(** The grammar is converted as it says. *)
Lemma strtod_complete (s : string) (negative : bool) (m base e : Z) :
  number_text s negative m base e -> strtod s = convert negative m base e "".
Proof.
  intros (sp & sg & t & -> & Hsp & Hsg & HN). unfold strtod.
  destruct (numeral_starts _ _ _ _ HN) as (c & r & Et & Hc).
  destruct (head_char 10 c ltac:(by left) Hc) as (H1 & H2 & H3 & _).
  rewrite skip_spaces; [|done|].
  2: { intros c' r'. destruct Hsg; [rewrite Et|..]; by intros [= <- _]. }
  rewrite (read_sign_text sg t negative Hsg) by (intros c' r'; rewrite Et; by intros [= <- _]).
  replace (read_special negative t) with (@None StrtodResult) by (rewrite Et; by rewrite no_special).
  clear Et. destruct HN as [u u' m' k x Hm Hp|cx u u' m' k x Hx Hm Hp].
  - rewrite (not_hexadecimal u u' m' k x Hm Hp). simpl.
    rewrite (read_mantissa_complete 10 u u' m' k) by (done || (eapply power_stops; [by left|done])).
    by rewrite (read_exponent_complete _ _ _ Hp).
  - cbn [strip_word]. replace (Ascii.eqb "0" (to_lower "0")) with true by reflexivity.
    rewrite Hx. replace (Ascii.eqb "x" "x") with true by reflexivity. simpl.
    rewrite (read_mantissa_complete 16 u u' m' k) by (done || (eapply power_stops; [by right|done])).
    by rewrite (read_exponent_complete _ _ _ Hp).
Qed.

(** A text that is consumed and gives a finite number is derived by the grammar. *)
Lemma strtod_sound (s : string) : s <> "" -> sd_rest (strtod s) = "" -> is_finite (sd_value (strtod s)) = true ->
  exists negative m base e, number_text s negative m base e /\ strtod s = convert negative m base e "".
Proof.
  intros Hne. unfold strtod. destruct (skip_space_split s) as (sp & Es & Hsp).
  destruct (read_sign_split (skip_space s)) as (sg & t & Eu & Hsg & Et).
  destruct (read_sign (skip_space s)) as [negative t']. simpl in Hsg, Et. subst t'.
  destruct (read_special negative t) as [r|] eqn:Er.
  { unfold read_special in Er. destruct (strip_word "inf" t); [by simplify_eq/=|].
    destruct (strip_word "nan" t); by simplify_eq/=. }
  assert (HN : forall m base e, numeral t m base e -> number_text s negative m base e).
  { intros m base e HN. exists sp, sg, t. by rewrite <- Eu, <- Es. }
  assert (Hconv : forall m base e r, sd_rest (convert negative m base e r) = r).
  { intros. unfold convert. destruct (_ =? 0); [done|]. by destruct (ratio _ _ _). }
  destruct (strip_word "0x" t ≫= read_mantissa 16) as [[[m k] r]|] eqn:Ehex.
  { destruct (read_exponent "p" r) as [e r'] eqn:Ee. rewrite Hconv. intros -> _.
    exists negative, m, 2, (e - 4 * k). split; [|done]. apply HN.
    apply bind_Some in Ehex as (u & Eu' & Em). apply read_mantissa_sound in Em as (v & -> & Hm).
    apply read_exponent_sound in Ee. destruct t as [|c0 [|c1 t]]; cbn [strip_word] in Eu'.
    - done.
    - by destruct (Ascii.eqb _ _).
    - destruct (Ascii.eqb_spec "0" (to_lower c0)) as [H0|_]; [|done].
      destruct (Ascii.eqb_spec "x" (to_lower c1)) as [H1|_]; [|done]. injection Eu' as ->.
      rewrite (lower_zero c0) by done. by apply numeral_hexadecimal. }
  destruct (read_mantissa 10 t) as [[[m k] r]|] eqn:Em; [|done].
  destruct (read_exponent "e" r) as [e r'] eqn:Ee. rewrite Hconv. intros -> _.
  exists negative, m, 10, (e - k). split; [|done]. apply HN.
  apply read_mantissa_sound in Em as (v & -> & Hm). apply read_exponent_sound in Ee. by apply numeral_decimal.
Qed.

(** The conversion in terms of the grammar's values. *)
Lemma convert_value (negative : bool) (m base e : Z) (r : string) :
  sd_value (convert negative m base e r) = number_value negative m base e.
Proof. unfold convert, number_value. destruct (m =? 0); [done|]. by destruct (ratio m base e). Qed.

Lemma convert_in_range (negative : bool) (m base e : Z) (r : string) :
  sd_erange (convert negative m base e r) = false /\ is_finite (sd_value (convert negative m base e r)) = true <->
  in_range m base e.
Proof.
  unfold convert, in_range. destruct (Z.eqb_spec m 0) as [->|Hm]; [simpl; tauto|].
  destruct (ratio m base e) as [num den]. simpl. unfold out_of_range, below_normal.
  assert (Hneg : is_finite (if negative then dopp (round_ratio num den) else round_ratio num den) =
    is_finite (round_ratio num den)) by (destruct negative; [by destruct (round_ratio num den)|done]).
  rewrite Hneg. destruct (is_finite (round_ratio num den)); simpl.
  - rewrite andb_false_iff, Z.ltb_ge, negb_false_iff, Z.eqb_eq. split.
    + intros [[Hr|Hr] _]; right; split; try done; intros ?; lia.
    + intros [?|[_ Hr]]; [done|]. split; [|done].
      destruct (Z.lt_ge_cases (Z.abs (val (round_ratio num den))) (2 ^ 52)); [right; by apply Hr|by left].
  - split; [by intros []|]. by intros [?|[? _]].
Qed.

(** What a complete conversion in range reads. *)
Lemma reads_number_spec (s : string) (x : double) : reads_number s x <->
  s <> "" /\ sd_rest (strtod s) = "" /\ sd_erange (strtod s) = false /\ is_finite (sd_value (strtod s)) = true /\
  x = sd_value (strtod s).
Proof.
  split.
  - intros (negative & m & base & e & HT & HR & ->). pose proof (strtod_complete _ _ _ _ _ HT) as E.
    apply (convert_in_range negative m base e "") in HR as [H1 H2]. rewrite E, convert_value in *.
    split_and!; try done.
    + intros ->. destruct HT as (sp & sg & t & E' & _ & _ & HN). destruct (numeral_starts _ _ _ _ HN) as (c & r & -> & _).
      destruct sp; [|done]. by destruct sg.
    + unfold convert. destruct (_ =? 0); [done|]. by destruct (ratio _ _ _).
  - intros (Hne & Hr & He & Hf & ->). destruct (strtod_sound s Hne Hr Hf) as (negative & m & base & e & HT & E).
    exists negative, m, base, e. split; [done|]. rewrite E in *. split; [by apply (convert_in_range negative m base e "")|].
    apply convert_value.
Qed.
