(* ===== verification/Payload.v ===== *)
(** * Order payloads
    ([integration/exchange-pipeline], the parsing half)

    A request's payload is a list of [key=value] fields separated by semicolons.
    [parse_key_values] scans it by position; the first field of a key counts.
    [parse_order] turns the fields into the order the stages work on. *)

From S2P Require Import Prelude Double Strtod Numeral Orderbook Risk Gateway.
From Stdlib Require Import SpecFloat Ascii.

Local Open Scope Z_scope.

(** ** String views *)

Fixpoint find_char (c : ascii) (s : string) : option nat :=
  match s with
  | EmptyString => None
  | String x s => if Ascii.eqb x c then Some 0%nat else S <$> find_char c s
  end.

(** [view.find(c, start)]; [None] is [npos]. *)
Definition find_from (c : ascii) (s : string) (start : nat) : option nat :=
  Nat.add start <$> find_char c (String.substring start (String.length s - start) s).

(** [view.substr(start)] *)
Definition substr_from (s : string) (start : nat) : string :=
  String.substring start (String.length s - start) s.

Arguments substr_from : simpl never.
Arguments String.substring : simpl nomatch.

(** ** Fields *)

(** [values.emplace(key, value)] keeps an existing entry. *)
Definition emplace (values : gmap string string) (key value : string) : gmap string string :=
  match values !! key with
  | Some _ => values
  | None => <[key := value]> values
  end.

Definition add_token (values : gmap string string) (token : string) : gmap string string :=
  match find_char "=" token with
  | Some delimiter => emplace values (String.substring 0 delimiter token) (substr_from token (delimiter + 1))
  | None => values
  end.

Fixpoint parse_loop (fuel : nat) (payload : string) (start : nat) (values : gmap string string)
    : outcome (gmap string string) :=
  match fuel with
  | O => Undef "the scan does not end"
  | S fuel =>
    if (start <? String.length payload)%nat
    then
      let token_end := find_from ";" payload start in
      let token := match token_end with
                   | None => String.substring start (String.length payload - start) payload
                   | Some e => String.substring start (e - start) payload
                   end in
      let values := add_token values token in
      match token_end with
      | None => Ret values
      | Some e => parse_loop fuel payload (e + 1) values
      end
    else Ret values
  end.

(** Each round moves behind a semicolon of the payload. *)
Definition parse_key_values (payload : string) : outcome (gmap string string) :=
  parse_loop (S (String.length payload)) payload 0 ∅.

(** ** Values of fields *)

Definition parse_matching_side (value : string) : option Side :=
  if bool_decide (value = "buy") then Some kBuy
  else if bool_decide (value = "sell") then Some kSell else None.

Definition parse_risk_side (value : string) : option RiskSide :=
  if bool_decide (value = "buy") then Some kRiskBuy
  else if bool_decide (value = "sell") then Some kRiskSell else None.

Definition parse_matching_type (value : string) : option OrderType :=
  if bool_decide (value = "limit") then Some kLimit
  else if bool_decide (value = "market") then Some kMarket else None.

Definition parse_risk_type (value : string) : option RiskOrderType :=
  if bool_decide (value = "limit") then Some kRiskLimit
  else if bool_decide (value = "market") then Some kRiskMarket else None.

Definition parse_tif (value : string) : option TimeInForce :=
  if bool_decide (value = "gtc") then Some kGtc
  else if bool_decide (value = "ioc") then Some kIoc
  else if bool_decide (value = "fok") then Some kFok
  else if bool_decide (value = "gtx") then Some kGtx else None.

Definition parse_decimal (value : string) : option double :=
  if bool_decide (value = "") then None
  else
    let parsed := strtod value in
    if sd_erange parsed || negb (bool_decide (sd_rest parsed = "")) || negb (is_finite (sd_value parsed))
    then None
    else Some (sd_value parsed).

Record ParsedOrder := mkParsed {
  po_order_id : string;
  po_user_id : string;
  po_symbol : string;
  po_source_ip : string;
  po_matching_side : Side;
  po_risk_side : RiskSide;
  po_matching_type : OrderType;
  po_risk_type : RiskOrderType;
  po_tif : TimeInForce;
  po_price : double;
  po_quantity : double;
  po_timestamp_ms : Z
}.

Definition order_of_fields (values : gmap string string) (request : ForwardedRequest) : option ParsedOrder :=
  side ← values !! "side";
  type ← values !! "type";
  tif ← values !! "tif";
  order_id ← values !! "order_id";
  symbol ← values !! "symbol";
  source_ip ← values !! "source_ip";
  quantity ← values !! "quantity";
  matching_side ← parse_matching_side side;
  risk_side ← parse_risk_side side;
  matching_type ← parse_matching_type type;
  risk_type ← parse_risk_type type;
  tif ← parse_tif tif;
  quantity ← parse_decimal quantity;
  price ← match values !! "price" with Some price => parse_decimal price | None => Some dzero end;
  Some (mkParsed order_id (fw_user_id request) symbol source_ip matching_side risk_side matching_type
          risk_type tif price quantity (fw_timestamp_ms request)).

Definition parse_order (request : ForwardedRequest) : outcome (option ParsedOrder) :=
  values ← parse_key_values (fw_payload request);
  Ret (order_of_fields values request).

(** ** Tokens as a specification *)

(** The payload cut at every separator. *)
Fixpoint split_at (c : ascii) (s : string) : list string :=
  match s with
  | EmptyString => [""]
  | String x s =>
    if Ascii.eqb x c then "" :: split_at c s
    else match split_at c s with
         | token :: tokens => String x token :: tokens
         | [] => []
         end
  end.

Definition fields_of (payload : string) : gmap string string := foldl add_token ∅ (split_at ";" payload).

(** ** The scan *)

Lemma substring_all (s : string) : String.substring 0 (String.length s) s = s.
Proof. induction s as [|c s IH]; simpl; [done|]. by rewrite IH. Qed.

Lemma substr_from_cons (c : ascii) (s : string) (n : nat) : substr_from (String c s) (S n) = substr_from s n.
Proof. done. Qed.

Lemma substr_from_0 (s : string) : substr_from s 0 = s.
Proof. unfold substr_from. rewrite Nat.sub_0_r. apply substring_all. Qed.

Lemma substring_empty (n k : nat) : String.substring n k "" = "".
Proof. by destruct n, k. Qed.

Lemma substr_from_add (s : string) (n k : nat) : substr_from (substr_from s n) k = substr_from s (n + k).
Proof.
  revert n. induction s as [|c s IH]; intros n.
  - unfold substr_from. by rewrite !substring_empty.
  - destruct n as [|n]; [by rewrite substr_from_0|]. simpl Nat.add. rewrite !substr_from_cons. apply IH.
Qed.

Lemma substring_from (s : string) (n k : nat) : String.substring n k s = String.substring 0 k (substr_from s n).
Proof.
  revert n. induction s as [|c s IH]; intros n.
  - unfold substr_from. by rewrite !substring_empty.
  - destruct n as [|n]; [by rewrite substr_from_0|]. rewrite substr_from_cons, <- IH. done.
Qed.

Lemma substr_from_length (s : string) (n : nat) : (String.length (substr_from s n) = String.length s - n)%nat.
Proof.
  revert n. induction s as [|c s IH]; intros n; [unfold substr_from; by rewrite substring_empty|].
  destruct n as [|n]; [by rewrite substr_from_0, Nat.sub_0_r|]. rewrite substr_from_cons. apply IH.
Qed.

Lemma find_char_split (c : ascii) (s : string) :
  split_at c s = match find_char c s with
                 | None => [s]
                 | Some n => String.substring 0 n s :: split_at c (substr_from s (n + 1))
                 end.
Proof.
  induction s as [|x s IH]; simpl; [done|]. destruct (Ascii.eqb x c).
  - change (0 + 1)%nat with 1%nat. by rewrite substr_from_cons, substr_from_0.
  - rewrite IH. by destruct (find_char c s) as [n|].
Qed.

Lemma find_char_bound (c : ascii) (s : string) (n : nat) : find_char c s = Some n -> (n < String.length s)%nat.
Proof.
  revert n. induction s as [|x s IH]; simpl; intros n; [done|]. destruct (Ascii.eqb x c).
  - intros [= <-]. lia.
  - destruct (find_char c s) as [m|]; [|done]. intros [= <-]. specialize (IH m eq_refl). lia.
Qed.

(** The scan ends, and adds the tokens behind its position one after the other. *)
Lemma parse_loop_spec (payload : string) (fuel : nat) : forall (start : nat) (values : gmap string string),
  (String.length payload - start < fuel)%nat ->
  parse_loop fuel payload start values = Ret (foldl add_token values (split_at ";" (substr_from payload start))).
Proof.
  induction fuel as [|fuel IH]; intros start values Hf; simpl; [lia|].
  pose proof (substr_from_length payload start) as Hlen.
  destruct (Nat.ltb_spec start (String.length payload)) as [Hlt|Hge].
  - unfold find_from. fold (substr_from payload start). rewrite find_char_split.
    destruct (find_char ";" (substr_from payload start)) as [n|] eqn:En; simpl; [|done].
    apply find_char_bound in En. rewrite IH by lia. rewrite substr_from_add, Nat.add_assoc. simpl. f_equal.
    f_equal. f_equal. rewrite (substring_from payload start). f_equal. lia.
  - destruct (substr_from payload start); simpl in *; [done|lia].
Qed.

Lemma parse_key_values_spec (payload : string) : parse_key_values payload = Ret (fields_of payload).
Proof. unfold parse_key_values. rewrite parse_loop_spec by lia. by rewrite substr_from_0. Qed.

(** ** Rendering *)

Definition render_field (kv : string * string) : string := kv.1 +:+ "=" +:+ kv.2.

Fixpoint render (kvs : list (string * string)) : string :=
  match kvs with
  | [] => ""
  | [kv] => render_field kv
  | kv :: kvs => render_field kv +:+ ";" +:+ render kvs
  end.

(** No separator in a value, neither separator in a key. *)
Definition field_ok (kv : string * string) : Prop :=
  find_char "=" kv.1 = None /\ find_char ";" kv.1 = None /\ find_char ";" kv.2 = None.

Lemma app_empty (s : string) : "" +:+ s = s.
Proof. done. Qed.
Lemma app_string (c : ascii) (s t : string) : String c s +:+ t = String c (s +:+ t).
Proof. done. Qed.

Lemma find_char_app (c : ascii) (s t : string) : find_char c s = None ->
  find_char c (s +:+ t) = Nat.add (String.length s) <$> find_char c t.
Proof.
  induction s as [|x s IH]; rewrite ?app_empty, ?app_string; simpl; [by destruct (find_char c t)|].
  destruct (Ascii.eqb x c); [done|].
  destruct (find_char c s) as [n|]; [done|]. intros _. rewrite IH by done. by destruct (find_char c t).
Qed.

Lemma substr_from_app (s t : string) (n : nat) : substr_from (s +:+ t) (String.length s + n) = substr_from t n.
Proof. induction s as [|x s IH]; [done|]. rewrite app_string. exact IH. Qed.

Lemma substring_app (s t : string) : String.substring 0 (String.length s) (s +:+ t) = s.
Proof. induction s as [|x s IH]; [by destruct t|]. rewrite app_string. simpl. by rewrite IH. Qed.

Lemma split_at_app (c : ascii) (s t : string) : find_char c s = None ->
  split_at c (s +:+ String c t) = s :: split_at c t.
Proof.
  intros Hs. rewrite find_char_split, find_char_app by done. simpl. rewrite Ascii.eqb_refl. simpl.
  rewrite Nat.add_0_r, substring_app, substr_from_app. by rewrite substr_from_cons, substr_from_0.
Qed.

Lemma field_no_separator (kv : string * string) : field_ok kv -> find_char ";" (render_field kv) = None.
Proof.
  intros (_ & Hk & Hv). unfold render_field. rewrite find_char_app, app_string, app_empty by done. simpl. by rewrite Hv.
Qed.

Lemma split_render (kvs : list (string * string)) : kvs <> [] -> Forall field_ok kvs ->
  split_at ";" (render kvs) = map render_field kvs.
Proof.
  intros Hne HF. induction HF as [|kv kvs Hkv HF IH]; [done|]. apply field_no_separator in Hkv.
  destruct kvs as [|kv' kvs]; simpl.
  - by rewrite find_char_split, Hkv.
  - rewrite app_string, app_empty, split_at_app by done. f_equal. by apply IH.
Qed.

Lemma add_token_render (values : gmap string string) (kv : string * string) : field_ok kv ->
  add_token values (render_field kv) = emplace values kv.1 kv.2.
Proof.
  intros (Hk & _). unfold add_token, render_field. rewrite find_char_app, app_string, app_empty by done. simpl.
  rewrite Nat.add_0_r, substring_app, substr_from_app. simpl. by rewrite substr_from_cons, substr_from_0.
Qed.

Lemma foldl_emplace (kvs : list (string * string)) : forall values : gmap string string,
  foldl (fun m kv => emplace m kv.1 kv.2) values kvs = values ∪ list_to_map kvs.
Proof.
  induction kvs as [|[k v] kvs IH]; intros values; simpl; [by rewrite right_id_L by apply _|].
  rewrite IH. apply map_eq. intros x. rewrite !lookup_union. unfold emplace.
  destruct (values !! k) as [w|] eqn:Ek; destruct (decide (x = k)) as [->|Hne];
    rewrite ?lookup_insert_eq, ?lookup_insert_ne, ?Ek by done; by destruct (list_to_map kvs !! _).
Qed.

Lemma fields_render (kvs : list (string * string)) : Forall field_ok kvs ->
  fields_of (render kvs) = list_to_map kvs.
Proof.
  intros HF. unfold fields_of. destruct kvs as [|kv kvs]; [done|].
  rewrite split_render by done.
  transitivity (foldl (fun m kv => emplace m kv.1 kv.2) (∅ : gmap string string) (kv :: kvs)).
  - generalize (∅ : gmap string string) as m. induction HF as [|x l Hx HF IH]; intros m; [done|].
    simpl. rewrite add_token_render by done. apply IH.
  - rewrite foldl_emplace. by rewrite (left_id_L ∅ (∪)).
Qed.

(** ** Numbers *)

Lemma parse_decimal_fin (value : string) (x : double) : parse_decimal value = Some x -> fin x = true.
Proof.
  unfold parse_decimal. case_bool_decide; [done|]. destruct (_ || negb (is_finite _)) eqn:E; [done|].
  intros [= <-]. apply orb_false_iff in E as [_ E]. apply negb_false_iff in E.
  unfold fin. by rewrite E, strtod_valid.
Qed.

(** Accepted texts are the numbers of the grammar. *)
Lemma parse_decimal_spec (value : string) (x : double) : parse_decimal value = Some x <-> reads_number value x.
Proof.
  rewrite reads_number_spec. unfold parse_decimal. case_bool_decide as Hv; [by split; [|intros [? _]]|].
  destruct (sd_erange _); simpl; [by split; [|intros (_ & _ & ? & _)]|].
  case_bool_decide as Hr; simpl; [|by split; [|intros (_ & ? & _)]].
  destruct (is_finite _); simpl; [|by split; [|intros (_ & _ & _ & ? & _)]].
  split; [by intros [= <-]|by intros (_ & _ & _ & _ & ->)].
Qed.

(** ** First fields *)

(** [value] stands in the first token [key=...] of the payload. *)
Definition first_in (tokens : list string) (key value : string) : Prop :=
  find_char "=" key = None /\ exists before after, tokens = before ++ (key +:+ "=" +:+ value) :: after /\
    forall other, (key +:+ "=" +:+ other) ∉ before.

Lemma find_char_cut (c : ascii) (s : string) : forall n, find_char c s = Some n ->
  s = String.substring 0 n s +:+ String c (substr_from s (n + 1)) /\ find_char c (String.substring 0 n s) = None.
Proof.
  induction s as [|x s IH]; simpl; intros n; [done|]. destruct (Ascii.eqb x c) eqn:Ex.
  - intros [= <-]. apply Ascii.eqb_eq in Ex as ->. change (0 + 1)%nat with 1%nat.
    by rewrite substr_from_cons, substr_from_0.
  - destruct (find_char c s) as [m|]; [|done]. intros [= <-]. destruct (IH m eq_refl) as [E1 E2].
    cbn [Nat.add String.substring]. rewrite substr_from_cons, app_string, <- E1. cbn [find_char]. by rewrite Ex, E2.
Qed.

Lemma find_char_field (k v : string) : find_char "=" (k +:+ "=" +:+ v) <> None.
Proof.
  induction k as [|c k IH]; [done|]. rewrite app_string. simpl. destruct (Ascii.eqb c "="); [done|].
  by destruct (find_char _ _).
Qed.

(** A token is a field of a key, or no field. *)
Lemma token_cases (token : string) :
  (exists k v, find_char "=" k = None /\ token = k +:+ "=" +:+ v /\ forall m, add_token m token = emplace m k v) \/
  ((forall k v, token <> k +:+ "=" +:+ v) /\ forall m, add_token m token = m).
Proof.
  unfold add_token. destruct (find_char "=" token) as [n|] eqn:En; [left|right].
  - destruct (find_char_cut _ _ _ En) as [E1 E2]. eexists _, _. split; [exact E2|]. split; [exact E1|done].
  - split; [|done]. intros k v ->. by apply find_char_field in En.
Qed.

Lemma field_inj (k k' v v' : string) : find_char "=" k = None -> find_char "=" k' = None ->
  k +:+ "=" +:+ v = k' +:+ "=" +:+ v' -> k = k' /\ v = v'.
Proof.
  intros Hk Hk' E.
  assert (En : find_char "=" (k +:+ "=" +:+ v) = Some (String.length k))
    by (rewrite find_char_app by done; simpl; by rewrite Nat.add_0_r).
  assert (En' : find_char "=" (k' +:+ "=" +:+ v') = Some (String.length k'))
    by (rewrite find_char_app by done; simpl; by rewrite Nat.add_0_r).
  rewrite E, En' in En. injection En as Hl.
  pose proof (substring_app k ("=" +:+ v)) as S. rewrite E, <- Hl, substring_app in S. subst k'. split; [done|].
  pose proof (substr_from_app k ("=" +:+ v) 1) as R. rewrite E, substr_from_app in R.
  change ("=" +:+ v) with (String "=" v) in R. change ("=" +:+ v') with (String "=" v') in R.
  by rewrite !substr_from_cons, !substr_from_0 in R.
Qed.

Lemma first_in_fields (tokens : list string) (key value : string) : forall m : gmap string string,
  foldl add_token m tokens !! key = Some value <->
  m !! key = Some value \/ m !! key = None /\ first_in tokens key value.
Proof.
  assert (Hnil : ~ first_in [] key value) by (intros (_ & before & after & E & _); by destruct before).
  induction tokens as [|token tokens IH]; intros m; cbn [foldl].
  { split; [by left|]. by intros [?|[_ ?]]. }
  rewrite IH. destruct (token_cases token) as [(k & v & Hk & Et & Ha)|[Hn Ha]]; rewrite Ha.
  - assert (Hcons : first_in (token :: tokens) key value <->
      (k = key /\ v = value) \/ (k <> key /\ first_in tokens key value)).
    { split.
      - intros (Hkey & before & after & E & Hb). destruct before as [|x before].
        + injection E as E _. left. rewrite Et in E. by apply field_inj in E.
        + injection E as <- E. right. split.
          * intros ->. apply (Hb v). rewrite Et. apply elem_of_cons. by left.
          * split; [done|]. exists before, after. split; [done|]. intros o Ho. apply (Hb o). apply elem_of_cons. by right.
      - intros [[-> ->]|[Hne (Hkey & before & after & -> & Hb)]].
        + split; [done|]. exists [], tokens. rewrite Et. split; [done|]. intros o. apply not_elem_of_nil.
        + split; [done|]. exists (token :: before), after. split; [done|]. intros o [E|Ho]%elem_of_cons; [|by apply (Hb o)].
          rewrite Et in E. apply field_inj in E as [-> _]; done. }
    rewrite Hcons. unfold emplace. destruct (m !! k) as [w|] eqn:Ek.
    + destruct (decide (k = key)) as [->|Hne]; [rewrite Ek|]; intuition congruence.
    + destruct (decide (k = key)) as [->|Hne].
      * rewrite lookup_insert_eq, Ek. intuition congruence.
      * rewrite lookup_insert_ne by done. intuition congruence.
  - assert (Hcons : first_in (token :: tokens) key value <-> first_in tokens key value); [|by rewrite Hcons].
    split; intros (Hkey & before & after & E & Hb); (split; [done|]).
    + destruct before as [|x before]; [injection E as E _; by apply Hn in E|]. injection E as <- ->.
      exists before, after. split; [done|]. intros o Ho. apply (Hb o). apply elem_of_cons. by right.
    + exists (token :: before), after. rewrite E. split; [done|].
      intros o [E'|Ho]%elem_of_cons; [by apply (Hn key o)|by apply (Hb o)].
Qed.

Lemma fields_first (payload key value : string) :
  fields_of payload !! key = Some value <-> first_in (split_at ";" payload) key value.
Proof. unfold fields_of. rewrite first_in_fields, lookup_empty. intuition done. Qed.

(** ** What an accepted payload says *)

(** What an accepted payload says, and what the order carries. *)
Record parsed_from (values : gmap string string) (request : ForwardedRequest) (o : ParsedOrder) : Prop := {
  pf_order_id : values !! "order_id" = Some (po_order_id o);
  pf_symbol : values !! "symbol" = Some (po_symbol o);
  pf_source_ip : values !! "source_ip" = Some (po_source_ip o);
  pf_side : values !! "side" = Some (match po_matching_side o with kBuy => "buy" | kSell => "sell" end);
  pf_risk_side : po_risk_side o = match po_matching_side o with kBuy => kRiskBuy | kSell => kRiskSell end;
  pf_type : values !! "type" = Some (match po_matching_type o with kLimit => "limit" | kMarket => "market" end);
  pf_risk_type : po_risk_type o = match po_matching_type o with kLimit => kRiskLimit | kMarket => kRiskMarket end;
  pf_tif : values !! "tif" = Some (match po_tif o with
    | kGtc => "gtc" | kIoc => "ioc" | kFok => "fok" | kGtx => "gtx" end);
  pf_quantity : exists quantity, values !! "quantity" = Some quantity /\ reads_number quantity (po_quantity o);
  pf_price : match values !! "price" with
    | Some price => reads_number price (po_price o)
    | None => po_price o = dzero
    end;
  pf_user : po_user_id o = fw_user_id request;
  pf_time : po_timestamp_ms o = fw_timestamp_ms request
}.

Lemma order_of_fields_spec (values : gmap string string) (request : ForwardedRequest) (o : ParsedOrder) :
  order_of_fields values request = Some o <-> parsed_from values request o.
Proof.
  unfold order_of_fields. split.
  - intros E. repeat (apply bind_Some in E as (? & ? & E)). simplify_eq/=.
    match goal with E : parse_decimal _ = Some _ |- _ => apply parse_decimal_spec in E end.
    unfold parse_matching_side, parse_risk_side, parse_matching_type, parse_risk_type, parse_tif in *.
    assert (Hp : forall y, match values !! "price" with Some price => parse_decimal price | None => Some dzero end = Some y ->
      match values !! "price" with Some price => reads_number price y | None => y = dzero end)
      by (intros y; destruct (values !! "price"); [by rewrite parse_decimal_spec|by intros [= <-]]).
    repeat case_bool_decide; simplify_eq/=; split; simpl; try done; eauto; by apply Hp.
  - intros []. destruct o as [id user symbol ip ms rs mt rt tif price quantity t]. simpl in *. subst.
    rewrite pf_order_id0, pf_symbol0, pf_source_ip0, pf_side0, pf_type0, pf_tif0.
    destruct pf_quantity0 as (qty & -> & Hq%parse_decimal_spec). simpl in *. rewrite Hq.
    replace (match values !! "price" with Some price0 => parse_decimal price0 | None => Some dzero end)
      with (Some price) by (destruct (values !! "price"); [symmetry; by apply parse_decimal_spec|by subst]).
    by destruct ms, mt, tif.
Qed.

Lemma parsed_fin (values : gmap string string) (request : ForwardedRequest) (o : ParsedOrder) :
  parsed_from values request o -> fin (po_price o) = true /\ fin (po_quantity o) = true.
Proof.
  intros F. split.
  - pose proof (pf_price _ _ _ F) as Hp. destruct (values !! "price"); [by eapply parse_decimal_fin, parse_decimal_spec|].
    rewrite Hp. apply fin_dzero.
  - destruct (pf_quantity _ _ _ F) as (v & _ & Hq). by eapply parse_decimal_fin, parse_decimal_spec.
Qed.

Lemma parse_order_spec (request : ForwardedRequest) :
  parse_order request = Ret (order_of_fields (fields_of (fw_payload request)) request).
Proof. unfold parse_order. by rewrite parse_key_values_spec, bind_ret. Qed.

(** ** The property *)

(** C16. Parsing a payload ends on every input and is exact. The fields are the first
    tokens [key=value] of each key between the semicolons. An order results precisely
    when each of the seven required fields is present with a value of its vocabulary,
    and the quantity and, if present, the price are numbers: the whole text, but for
    white space in front, is an optionally signed decimal or hexadecimal numeral with
    an optional point and power, in the range of double (no overflow, and below the
    normal range only exact values). The order then carries those values, the nearest
    doubles, 0 for a missing price, with the user and the time of the gateway's
    envelope; the matching and the risk vocabulary agree, and its numbers are finite.
    Rendering any list of fields without separators in them and parsing it gives the
    list back as a map in which the first field of a key counts. *)
Theorem payload_parse_correct (request : ForwardedRequest) :
  exists fields r, parse_key_values (fw_payload request) = Ret fields /\ parse_order request = Ret r /\
    (forall key value, fields !! key = Some value <-> first_in (split_at ";" (fw_payload request)) key value) /\
    (forall o, r = Some o <-> parsed_from fields request o) /\
    (forall o, r = Some o -> fin (po_price o) = true /\ fin (po_quantity o) = true) /\
    forall kvs, Forall field_ok kvs -> fw_payload request = render kvs -> fields = list_to_map kvs.
Proof.
  eexists _, _. split; [apply parse_key_values_spec|]. split; [apply parse_order_spec|]. split_and!.
  - intros key value. apply fields_first.
  - intros o. apply order_of_fields_spec.
  - intros o Ho. by eapply parsed_fin, order_of_fields_spec.
  - intros kvs HF ->. by apply fields_render.
Qed.

Definition sample_fields : list (string * string) :=
  [("order_id", "ask-1"); ("symbol", "BTCUSDT"); ("side", "sell"); ("type", "limit"); ("tif", "gtc");
   ("price", "100.0"); ("quantity", "1.0"); ("source_ip", "10.0.0.1"); ("price", "7")].

Definition sample_envelope (payload : string) : ForwardedRequest :=
  mkForwarded "req-maker" "maker" "/v1/orders/place" payload kRisk kRest 1.

Definition sample_parsed : ParsedOrder :=
  mkParsed "ask-1" "maker" "BTCUSDT" "10.0.0.1" kSell kRiskSell kLimit kRiskLimit kGtc
    (double_of_Z 100) (double_of_Z 1) 1.

Lemma payload_parse_correct_witness :
  parse_key_values (render sample_fields) = Ret (list_to_map sample_fields) /\
  parse_order (sample_envelope (render sample_fields)) = Ret (Some sample_parsed) /\
  reads_number "100.0" (po_price sample_parsed) /\
  parse_order (sample_envelope "order_id=1;quantity=1x") = Ret None.
Proof.
  destruct (payload_parse_correct (sample_envelope (render sample_fields))) as (fields & r & Ef & E & _ & HP & _ & HR).
  assert (Er : parse_order (sample_envelope (render sample_fields)) = Ret (Some sample_parsed))
    by (vm_compute; reflexivity).
  assert (Hf : fields = list_to_map sample_fields) by (apply HR; [repeat constructor|reflexivity]). subst fields.
  split_and!.
  - exact Ef.
  - exact Er.
  - rewrite Er in E. injection E as <-. destruct (HP sample_parsed) as [HF _].
    exact (pf_price _ _ _ (HF eq_refl)).
  - vm_compute. reflexivity.
Defined.

(** A number must end where its text ends, and fit. *)
Example parse_decimal_texts :
  parse_decimal "1x" = None /\ parse_decimal "1e400" = None /\ parse_decimal "1e-400" = None /\
  parse_decimal "inf" = None /\ parse_decimal " 0x10" = Some (double_of_Z 16) /\ parse_decimal "1 " = None.
Proof. vm_compute. done. Qed.
