(* ===== verification/Pipeline.v ===== *)
(** * The exchange pipeline: data and operations
    ([integration/exchange-pipeline])

    One request at a time runs through the gateway, the parser, the risk engine, the
    reservation of a hold, matching, and the settlement of its trades; the pipeline
    keeps the registry that says who owns which order, and feeds balances, resting
    orders and prices back into the risk engine. Each stage is a definition over the
    state of the pipeline and the workflow result it fills in.

    The queues, the allocators and [std::sort] are parameters as in the components;
    [unordered] is the iteration order of an [std::unordered_map] given its keys. *)

From S2P Require Import Prelude Double MarketTypes DepthBook Broadcaster Queue Allocator Outbox Orderbook Clearing Risk Gateway Payload.

Local Open Scope Z_scope.

Inductive WorkflowStatus :=
| kCompleted
| kRouteRejected
| kParseRejected
| kRiskRejected
| kClearingRejected
| kMatchingRejected
| kSettlementRejected
| kWorkflowInvariantViolation.
#[export] Instance WorkflowStatus_eq_dec : EqDecision WorkflowStatus.
Proof. solve_decision. Defined.

Record WorkflowResult := mkWorkflow {
  wf_status : WorkflowStatus;
  wf_error_detail : string;
  wf_accepted : bool;
  wf_route_result : RouteResult;
  wf_risk_decision : RiskDecision;
  wf_match_result : MatchResult;
  wf_settlements : list SettlementResult;
  wf_route_events : list BroadcastMessage;
  wf_trade_events : list BroadcastMessage;
  wf_depth_events : list BroadcastMessage;
  wf_outbox_messages : list OutboxMessage
}.

Definition workflow_ok (w : WorkflowResult) : bool := bool_decide (wf_status w = kCompleted).

(** The default member initialisers. *)
Definition WorkflowResult_new : WorkflowResult :=
  mkWorkflow kCompleted "" false (mkRouteResult false kGateNone kRisk "" 0)
    (mkDecision false kRiskNone "" "" "" "" dzero dzero 0)
    (mkMatchResult false kRejected kNone dzero dzero []) [] [] [] [] [].

(** ** Assignments to the workflow *)

Definition set_status (w : WorkflowResult) (status : WorkflowStatus) (detail : string) : WorkflowResult :=
  mkWorkflow status detail (wf_accepted w) (wf_route_result w) (wf_risk_decision w) (wf_match_result w)
    (wf_settlements w) (wf_route_events w) (wf_trade_events w) (wf_depth_events w) (wf_outbox_messages w).
Definition set_accepted (w : WorkflowResult) (accepted : bool) : WorkflowResult :=
  mkWorkflow (wf_status w) (wf_error_detail w) accepted (wf_route_result w) (wf_risk_decision w)
    (wf_match_result w) (wf_settlements w) (wf_route_events w) (wf_trade_events w) (wf_depth_events w)
    (wf_outbox_messages w).
Definition set_route (w : WorkflowResult) (r : RouteResult) (events : list BroadcastMessage) : WorkflowResult :=
  mkWorkflow (wf_status w) (wf_error_detail w) (wf_accepted w) r (wf_risk_decision w)
    (wf_match_result w) (wf_settlements w) events (wf_trade_events w) (wf_depth_events w)
    (wf_outbox_messages w).
Definition set_decision (w : WorkflowResult) (d : RiskDecision) : WorkflowResult :=
  mkWorkflow (wf_status w) (wf_error_detail w) (wf_accepted w) (wf_route_result w) d
    (wf_match_result w) (wf_settlements w) (wf_route_events w) (wf_trade_events w) (wf_depth_events w)
    (wf_outbox_messages w).
Definition set_match (w : WorkflowResult) (m : MatchResult) : WorkflowResult :=
  mkWorkflow (wf_status w) (wf_error_detail w) (wf_accepted w) (wf_route_result w) (wf_risk_decision w)
    m (wf_settlements w) (wf_route_events w) (wf_trade_events w) (wf_depth_events w) (wf_outbox_messages w).
Definition add_settlement (w : WorkflowResult) (s : SettlementResult) : WorkflowResult :=
  mkWorkflow (wf_status w) (wf_error_detail w) (wf_accepted w) (wf_route_result w) (wf_risk_decision w)
    (wf_match_result w) (wf_settlements w ++ [s]) (wf_route_events w) (wf_trade_events w) (wf_depth_events w)
    (wf_outbox_messages w).
Definition set_outputs (w : WorkflowResult) (trades depth : list BroadcastMessage) (outbox : list OutboxMessage)
    : WorkflowResult :=
  mkWorkflow (wf_status w) (wf_error_detail w) (wf_accepted w) (wf_route_result w) (wf_risk_decision w)
    (wf_match_result w) (wf_settlements w) (wf_route_events w) trades depth outbox.

Record ManagedOrder := mkManaged {
  mo_user_id : string;
  mo_symbol : string;
  mo_side : Side;
  mo_hold_id : string
}.

(** The pipeline's own [is_zero] and [hold_id_for]. *)
Definition residual_is_zero (value : double) : bool := dle (dabs value) eps.
Definition hold_id_for (order_id : string) : string := "hold-" +:+ order_id.

Definition to_risk_reject_reason (status : ClearingStatus) (side : Side) : RiskRejectReason :=
  match status with
  | kInsufficientQuoteBalance => kInsufficientBalance
  | kInsufficientBasePosition => kInsufficientPosition
  | kAccountNotFound | kInvalidInput | kHoldAlreadyExists => kInvalidRequest
  | _ => match side with kBuy => kInsufficientBalance | kSell => kInsufficientPosition end
  end.

Definition to_matching_request (o : ParsedOrder) : OrderRequest :=
  mkOrderRequest (po_order_id o) (po_matching_side o) (po_matching_type o) (po_tif o) (po_price o)
    (po_quantity o) (u64_of_i64 (po_timestamp_ms o)).

Definition to_risk_request (o : ParsedOrder) : RiskOrderRequest :=
  mkRiskRequest (po_order_id o) (po_user_id o) (po_symbol o) (po_source_ip o) (po_risk_side o)
    (po_risk_type o) (po_price o) (po_quantity o) (po_timestamp_ms o).

Definition to_risk_side (side : Side) : RiskSide :=
  match side with kBuy => kRiskBuy | kSell => kRiskSell end.

Definition trade_id_of (t : Trade) : string := tr_maker_order_id t +:+ "->" +:+ tr_taker_order_id t.

Section Pipeline.
Context {QF QD A B : Type} `{QueueOps QF ForwardedRequest} `{QueueOps QD RiskDecision}
  `{BlockAllocator A} `{BlockAllocator B} (tid : Z).
Context (std_sort : (RouteConfig -> RouteConfig -> bool) -> list RouteConfig -> list RouteConfig).
Context (unordered : list string -> list string).

Record ExchangePipeline := mkPipeline {
  ep_symbol : string;
  ep_best_bid : double;
  ep_best_ask : double;
  ep_fee_schedule : FeeSchedule;
  ep_gateway : UnifiedAccessGateway QF;
  ep_risk : PreTradeRiskEngine QD;
  ep_matching : Engine A;
  ep_clearing : AccountClearingSystem B;
  ep_order_registry : gmap string ManagedOrder;
  ep_known_users : gset string;
  ep_resting_users : gset string
}.

(** ** Field updates *)

Definition with_gateway (p : ExchangePipeline) (g : UnifiedAccessGateway QF) : ExchangePipeline :=
  mkPipeline (ep_symbol p) (ep_best_bid p) (ep_best_ask p) (ep_fee_schedule p) g (ep_risk p) (ep_matching p)
    (ep_clearing p) (ep_order_registry p) (ep_known_users p) (ep_resting_users p).
Definition with_risk (p : ExchangePipeline) (r : PreTradeRiskEngine QD) : ExchangePipeline :=
  mkPipeline (ep_symbol p) (ep_best_bid p) (ep_best_ask p) (ep_fee_schedule p) (ep_gateway p) r (ep_matching p)
    (ep_clearing p) (ep_order_registry p) (ep_known_users p) (ep_resting_users p).
Definition with_matching (p : ExchangePipeline) (m : Engine A) : ExchangePipeline :=
  mkPipeline (ep_symbol p) (ep_best_bid p) (ep_best_ask p) (ep_fee_schedule p) (ep_gateway p) (ep_risk p) m
    (ep_clearing p) (ep_order_registry p) (ep_known_users p) (ep_resting_users p).
Definition with_clearing (p : ExchangePipeline) (c : AccountClearingSystem B) : ExchangePipeline :=
  mkPipeline (ep_symbol p) (ep_best_bid p) (ep_best_ask p) (ep_fee_schedule p) (ep_gateway p) (ep_risk p)
    (ep_matching p) c (ep_order_registry p) (ep_known_users p) (ep_resting_users p).
Definition with_registry (p : ExchangePipeline) (m : gmap string ManagedOrder) : ExchangePipeline :=
  mkPipeline (ep_symbol p) (ep_best_bid p) (ep_best_ask p) (ep_fee_schedule p) (ep_gateway p) (ep_risk p)
    (ep_matching p) (ep_clearing p) m (ep_known_users p) (ep_resting_users p).
Definition with_known (p : ExchangePipeline) (s : gset string) : ExchangePipeline :=
  mkPipeline (ep_symbol p) (ep_best_bid p) (ep_best_ask p) (ep_fee_schedule p) (ep_gateway p) (ep_risk p)
    (ep_matching p) (ep_clearing p) (ep_order_registry p) s (ep_resting_users p).
Definition with_resting (p : ExchangePipeline) (r : PreTradeRiskEngine QD) (s : gset string) : ExchangePipeline :=
  mkPipeline (ep_symbol p) (ep_best_bid p) (ep_best_ask p) (ep_fee_schedule p) (ep_gateway p) r
    (ep_matching p) (ep_clearing p) (ep_order_registry p) (ep_known_users p) s.
Definition with_prices (p : ExchangePipeline) (bid ask : double) : ExchangePipeline :=
  mkPipeline (ep_symbol p) bid ask (ep_fee_schedule p) (ep_gateway p) (ep_risk p) (ep_matching p)
    (ep_clearing p) (ep_order_registry p) (ep_known_users p) (ep_resting_users p).
Definition with_fees (p : ExchangePipeline) (f : FeeSchedule) : ExchangePipeline :=
  mkPipeline (ep_symbol p) (ep_best_bid p) (ep_best_ask p) f (ep_gateway p) (ep_risk p) (ep_matching p)
    (ep_clearing p) (ep_order_registry p) (ep_known_users p) (ep_resting_users p).

(** ** Construction *)

(** The members are constructed first; an empty symbol makes the matching engine
    throw before the pipeline tests it itself. *)
Definition Pipeline_new (ingress : QF) (audit : QD) (order_storage : A) (journal_storage : B) (symbol : string)
    : outcome ExchangePipeline :=
  matching ← Engine_new order_storage symbol 4096;
  if bool_decide (symbol = "") then Throw "symbol must not be empty"
  else
    let gateway := Gateway_configure_route std_sort (Gateway_new ingress) "/v1/orders" kRisk "risk_ingress" in
    Ret (mkPipeline symbol dzero dzero (mkFees dzero dzero) gateway (RiskEngine_new audit) matching
           (Clearing_new journal_storage) ∅ ∅ ∅).

(** ** Feedback into the risk engine *)

Definition sync_account_state (p : ExchangePipeline) (user_id : string) : ExchangePipeline :=
  match Clearing_account (ep_clearing p) user_id with
  | None => p
  | Some snapshot =>
    with_risk p (Risk_set_account_state (ep_risk p) user_id (ep_symbol p)
      (mkAccountRisk (ac_available_quote snapshot) (ac_available_base snapshot)))
  end.

(** The loop over the resting orders of [sync_resting_orders]. *)
Fixpoint track_loop (symbol : string) (registry : gmap string ManagedOrder) (resting : list RestingOrderView)
    (risk : PreTradeRiskEngine QD) (users : gset string) : PreTradeRiskEngine QD * gset string :=
  match resting with
  | [] => (risk, users)
  | r :: resting =>
    match registry !! rv_order_id r with
    | None => track_loop symbol registry resting risk users
    | Some managed =>
      track_loop symbol registry resting
        (Risk_track_resting_order risk symbol
           (mkRiskResting (mo_user_id managed) (to_risk_side (mo_side managed)) (Orderbook.rv_price r)
              (rv_open_quantity r)))
        ({[mo_user_id managed]} ∪ users)
    end
  end.

Definition sync_resting_orders (p : ExchangePipeline) : outcome ExchangePipeline :=
  let risk := foldl (fun r user => Risk_clear_user_resting_orders r (ep_symbol p) user) (ep_risk p)
    (unordered (elements (ep_resting_users p))) in
  resting ← Engine_resting_orders (ep_matching p);
  let '(risk, users) := track_loop (ep_symbol p) (ep_order_registry p) resting risk ∅ in
  Ret (with_resting p risk users).

Definition refresh_market_reference (p : ExchangePipeline) : outcome ExchangePipeline :=
  let snapshot := Engine_snapshot (ep_matching p) 1 in
  let bid := match ds_bids snapshot with level :: _ => bl_price level | [] => ep_best_bid p end in
  let ask := match ds_asks snapshot with level :: _ => bl_price level | [] => ep_best_ask p end in
  let p := with_prices p bid ask in
  risk ← Risk_update_top_of_book (ep_risk p) (ep_symbol p) bid ask;
  Ret (with_risk p risk).

(** ** Configuration *)

(** A call that throws half way leaves what it has assigned. *)
Definition Pipeline_configure_market (p : ExchangePipeline) (best_bid best_ask : double) (fees : FeeSchedule)
    (config : MarketRiskConfig) : outcome unit * ExchangePipeline :=
  let p := with_fees (with_prices p best_bid best_ask) fees in
  match Risk_configure_market (ep_risk p) config with
  | Ret risk =>
    let p := with_risk p risk in
    match Risk_update_top_of_book (ep_risk p) (ep_symbol p) best_bid best_ask with
    | Ret risk => (Ret tt, with_risk p risk)
    | Throw what => (Throw what, p)
    | Undef why => (Undef why, p)
    end
  | Throw what => (Throw what, p)
  | Undef why => (Undef why, p)
  end.

Definition Pipeline_register_user (p : ExchangePipeline) (api_key secret user_id : string)
    (account : AccountSnapshot) (max_requests window_ms : Z) : ExchangePipeline :=
  let g := Gateway_register_credential (ep_gateway p) api_key secret user_id in
  let g := Gateway_set_user_rate_limit g user_id max_requests window_ms in
  let p := with_gateway p g in
  let p := with_clearing p (Clearing_upsert_account (ep_clearing p) user_id account) in
  let p := with_known p ({[user_id]} ∪ ep_known_users p) in
  sync_account_state p user_id.

(** ** The stages of [submit] *)

Definition route_request (p : ExchangePipeline) (request : GatewayRequest) (w : WorkflowResult)
    : outcome (option ForwardedRequest * WorkflowResult * ExchangePipeline) :=
  '(r, g) ← Gateway_route (ep_gateway p) request;
  let p := with_gateway p g in
  let w := set_route w r (Gateway_replay_route_events g 0) in
  if negb (rt_accepted r) then Ret (None, set_status w kRouteRejected (wf_error_detail w), p)
  else
    '(forwarded, g) ← Gateway_poll_forwarded_request g;
    let p := with_gateway p g in
    match forwarded with
    | None => Ret (None, set_status w kWorkflowInvariantViolation "gateway_forwarded_request_missing", p)
    | Some f => Ret (Some f, w, p)
    end.

Definition parse_forwarded_request (p : ExchangePipeline) (request : ForwardedRequest) (w : WorkflowResult)
    : outcome (option ParsedOrder * WorkflowResult) :=
  parsed ← parse_order request;
  match parsed with
  | Some o => Ret (Some o, w)
  | None =>
    Ret (None, set_decision (set_status w kParseRejected (wf_error_detail w))
      (mkDecision false kInvalidRequest "request_parse" "" (fw_user_id request) (ep_symbol p) dzero dzero
         (fw_timestamp_ms request)))
  end.

Definition evaluate_risk_stage (p : ExchangePipeline) (o : ParsedOrder) (w : WorkflowResult)
    : outcome (bool * WorkflowResult * ExchangePipeline) :=
  '(d, risk) ← Risk_evaluate (ep_risk p) (to_risk_request o);
  let p := with_risk p risk in
  let w := set_decision w d in
  if negb (rd_accepted d) then Ret (false, set_status w kRiskRejected (wf_error_detail w), p)
  else Ret (true, w, p).

Definition reserve_amount (p : ExchangePipeline) (o : ParsedOrder) : double :=
  match po_matching_side o with
  | kSell => po_quantity o
  | kBuy =>
    let reference_price :=
      if bool_decide (po_matching_type o = kMarket) || dle (po_price o) dzero
      then match ds_asks (Engine_snapshot (ep_matching p) 1) with
           | level :: _ => bl_price level
           | [] => ep_best_ask p
           end
      else po_price o in
    dmul (dmul reference_price (po_quantity o))
      (dadd done_ (ddiv (fs_taker_fee_bps (ep_fee_schedule p)) (double_of_Z 10000)))
  end.

(** The decision of a refused reservation overwrites the accepted one. *)
Definition hold_rejected (d : RiskDecision) (status : ClearingStatus) (side : Side) : RiskDecision :=
  mkDecision false (to_risk_reject_reason status side) "clearing_hold_reservation" (rd_order_id d)
    (rd_user_id d) (rd_symbol d) (rd_reference_price d) (rd_estimated_notional d) (rd_timestamp_ms d).

Definition reserve_order_hold (p : ExchangePipeline) (o : ParsedOrder) (w : WorkflowResult)
    : outcome (option string * WorkflowResult * ExchangePipeline) :=
  let hold_id := hold_id_for (po_order_id o) in
  let reserved := reserve_amount p o in
  '(status, c) ← match po_matching_side o with
                 | kBuy => Clearing_freeze_quote tid (ep_clearing p) (po_user_id o) hold_id reserved (po_timestamp_ms o)
                 | kSell => Clearing_freeze_base tid (ep_clearing p) (po_user_id o) hold_id reserved (po_timestamp_ms o)
                 end;
  let p := with_clearing p c in
  if negb (operation_ok status)
  then Ret (None, set_decision (set_status w kClearingRejected (status_message status))
                    (hold_rejected (wf_risk_decision w) status (po_matching_side o)), p)
  else Ret (Some hold_id, w, p).

Definition track_managed_order (p : ExchangePipeline) (o : ParsedOrder) (hold_id : string) : ExchangePipeline :=
  let p := sync_account_state p (po_user_id o) in
  with_registry p (<[po_order_id o := mkManaged (po_user_id o) (po_symbol o) (po_matching_side o) hold_id]>
    (ep_order_registry p)).

Definition release_residual_hold (p : ExchangePipeline) (hold_id : string) (timestamp_ms : Z)
    : outcome (ClearingStatus * ExchangePipeline) :=
  match Clearing_hold_amount (ep_clearing p) hold_id with
  | None => Ret (kApplied, p)
  | Some amount =>
    if residual_is_zero amount then Ret (kApplied, p)
    else
      '(status, c) ← Clearing_release_hold tid (ep_clearing p) hold_id timestamp_ms;
      Ret (status, with_clearing p c)
  end.

Definition handle_rejected_match (p : ExchangePipeline) (o : ParsedOrder) (hold_id : string) (w : WorkflowResult)
    : outcome (bool * WorkflowResult * ExchangePipeline) :=
  let w := set_status w kMatchingRejected (wf_error_detail w) in
  t ← add_i64 (po_timestamp_ms o) 1;
  '(status, p) ← release_residual_hold p hold_id t;
  if negb (operation_ok status)
  then Ret (false, set_status w kWorkflowInvariantViolation (status_message status), p)
  else
    let p := with_registry p (delete (po_order_id o) (ep_order_registry p)) in
    let p := sync_account_state p (po_user_id o) in
    p ← sync_resting_orders p;
    Ret (true, set_outputs w (Engine_replay_market_data (ep_matching p) ("trades." +:+ ep_symbol p) 0)
                 (Engine_replay_market_data (ep_matching p) ("depth." +:+ ep_symbol p) 0)
                 (wf_outbox_messages w), p).

Definition fill_of (p : ExchangePipeline) (o : ParsedOrder) (t : Trade) (maker taker : ManagedOrder) : TradeFill :=
  let taker_is_buy := bool_decide (mo_side taker = kBuy) in
  mkFill (trade_id_of t) (ep_symbol p)
    (if taker_is_buy then mo_user_id taker else mo_user_id maker)
    (if taker_is_buy then mo_user_id maker else mo_user_id taker)
    (if taker_is_buy then mo_hold_id taker else mo_hold_id maker)
    (if taker_is_buy then mo_hold_id maker else mo_hold_id taker)
    (tr_price t) (tr_quantity t) taker_is_buy (po_timestamp_ms o).

Fixpoint settle_loop (p : ExchangePipeline) (o : ParsedOrder) (trades : list Trade) (w : WorkflowResult)
    : outcome (bool * WorkflowResult * ExchangePipeline) :=
  match trades with
  | [] => Ret (true, w, p)
  | t :: trades =>
    match ep_order_registry p !! tr_maker_order_id t, ep_order_registry p !! tr_taker_order_id t with
    | Some maker, Some taker =>
      let fill := fill_of p o t maker taker in
      '(settlement, c) ← Clearing_settle_spot_trade tid (ep_clearing p) fill (ep_fee_schedule p);
      let p := with_clearing p c in
      let w := add_settlement w settlement in
      if negb (settlement_ok settlement)
      then Ret (false, set_accepted (set_status w kSettlementRejected (status_message (sr_status settlement))) false, p)
      else
        let p := sync_account_state p (tf_buyer_account_id fill) in
        let p := sync_account_state p (tf_seller_account_id fill) in
        settle_loop p o trades w
    | _, _ =>
      Ret (false, set_accepted (set_status w kWorkflowInvariantViolation "missing_order_ownership_for_matched_trade")
                    false, p)
    end
  end.

Definition settle_trades (p : ExchangePipeline) (o : ParsedOrder) (w : WorkflowResult)
    : outcome (bool * WorkflowResult * ExchangePipeline) :=
  settle_loop p o (mr_trades (wf_match_result w)) w.

Fixpoint release_loop (p : ExchangePipeline) (o : ParsedOrder) (live : gset string) (tracked : list string)
    (w : WorkflowResult) : outcome (bool * WorkflowResult * ExchangePipeline) :=
  match tracked with
  | [] => Ret (true, w, p)
  | order_id :: tracked =>
    if bool_decide (order_id ∈ live) then release_loop p o live tracked w
    else
      match ep_order_registry p !! order_id with
      | None => release_loop p o live tracked w
      | Some managed =>
        t ← add_i64 (po_timestamp_ms o) 2;
        '(status, p) ← release_residual_hold p (mo_hold_id managed) t;
        if negb (operation_ok status)
        then Ret (false, set_accepted (set_status w kWorkflowInvariantViolation (status_message status)) false, p)
        else
          let p := sync_account_state p (mo_user_id managed) in
          release_loop (with_registry p (delete order_id (ep_order_registry p))) o live tracked w
      end
  end.

(** The ids of the registry in iteration order, those of the symbol only. *)
Definition tracked_orders (p : ExchangePipeline) : list string :=
  List.filter (fun id => match ep_order_registry p !! id with
                         | Some managed => bool_decide (mo_symbol managed = ep_symbol p)
                         | None => false
                         end) (unordered (map fst (map_to_list (ep_order_registry p)))).

Definition release_closed_orders (p : ExchangePipeline) (o : ParsedOrder) (w : WorkflowResult)
    : outcome (bool * WorkflowResult * ExchangePipeline) :=
  resting ← Engine_resting_orders (ep_matching p);
  release_loop p o (list_to_set (map rv_order_id resting)) (tracked_orders p) w.

Definition populate_market_outputs (p : ExchangePipeline) (w : WorkflowResult) : WorkflowResult :=
  set_outputs w (Engine_replay_market_data (ep_matching p) ("trades." +:+ ep_symbol p) 0)
    (Engine_replay_market_data (ep_matching p) ("depth." +:+ ep_symbol p) 0)
    (Clearing_pending_outbox (ep_clearing p) 32).

(** The part of [submit] after a hold has been reserved. *)
Definition execute_order (p : ExchangePipeline) (o : ParsedOrder) (hold_id : string) (w : WorkflowResult)
    : outcome (WorkflowResult * ExchangePipeline) :=
  let p := track_managed_order p o hold_id in
  '(result, matching) ← Engine_submit tid (ep_matching p) (to_matching_request o);
  let p := with_matching p matching in
  let w := set_accepted (set_match w result) (mr_accepted result) in
  if negb (mr_accepted result) && bool_decide (mr_trades result = [])
  then '(_, w, p) ← handle_rejected_match p o hold_id w; Ret (w, p)
  else
    '(settled, w, p) ← settle_trades p o w;
    if negb settled then Ret (w, p)
    else
      '(released, w, p) ← release_closed_orders p o w;
      if negb released then Ret (w, p)
      else
        p ← sync_resting_orders p;
        p ← refresh_market_reference p;
        Ret (populate_market_outputs p (set_status w kCompleted (wf_error_detail w)), p).

Definition Pipeline_submit (p : ExchangePipeline) (request : GatewayRequest)
    : outcome (WorkflowResult * ExchangePipeline) :=
  '(forwarded, w, p) ← route_request p request WorkflowResult_new;
  match forwarded with
  | None => Ret (w, p)
  | Some forwarded =>
    '(parsed, w) ← parse_forwarded_request p forwarded w;
    match parsed with
    | None => Ret (w, p)
    | Some o =>
      '(approved, w, p) ← evaluate_risk_stage p o w;
      if negb approved then Ret (w, p)
      else
        '(hold_id, w, p) ← reserve_order_hold p o w;
        match hold_id with
        | None => Ret (w, p)
        | Some hold_id => execute_order p o hold_id w
        end
    end
  end.

(** ** Queries *)

Definition Pipeline_account (p : ExchangePipeline) (user_id : string) : option AccountSnapshot :=
  Clearing_account (ep_clearing p) user_id.
Definition Pipeline_pending_outbox (p : ExchangePipeline) (max_items : Z) : list OutboxMessage :=
  Clearing_pending_outbox (ep_clearing p) max_items.
Definition Pipeline_audit_log (p : ExchangePipeline) : list RiskDecision := Risk_audit_log (ep_risk p).
Definition Pipeline_replay_market_data (p : ExchangePipeline) (topic : string) (after : Z) : list BroadcastMessage :=
  Engine_replay_market_data (ep_matching p) topic after.
Definition Pipeline_replay_route_events (p : ExchangePipeline) (after : Z) : list BroadcastMessage :=
  Gateway_replay_route_events (ep_gateway p) after.

(** ** Sequences of calls *)

Inductive pipeline_op :=
| PpConfigure (best_bid best_ask : double) (fees : FeeSchedule) (config : MarketRiskConfig)
| PpRegister (api_key secret user_id : string) (account : AccountSnapshot) (max_requests window_ms : Z)
| PpSubmit (request : GatewayRequest).

(** The caller goes on after an exception of [configure_market]. *)
Definition pipeline_step (p : ExchangePipeline) (op : pipeline_op)
    : outcome (option WorkflowResult * ExchangePipeline) :=
  match op with
  | PpConfigure bid ask fees config =>
    match Pipeline_configure_market p bid ask fees config with
    | (Undef why, _) => Undef why
    | (_, p) => Ret (None, p)
    end
  | PpRegister key secret user account n window =>
    Ret (None, Pipeline_register_user p key secret user account n window)
  | PpSubmit request => '(w, p) ← Pipeline_submit p request; Ret (Some w, p)
  end.

Fixpoint pipeline_run (p : ExchangePipeline) (ops : list pipeline_op)
    : outcome (list (option WorkflowResult) * ExchangePipeline) :=
  match ops with
  | [] => Ret ([], p)
  | op :: ops =>
    '(r, p) ← pipeline_step p op;
    '(rs, p) ← pipeline_run p ops;
    Ret (r :: rs, p)
  end.
End Pipeline.
Arguments ExchangePipeline QF QD A B : clear implicits.
