(* ===== verification/PipelineLedger.v ===== *)
(** * The exchange pipeline: the ledger calls of one submission

    What [submit] does to the clearing system is a sequence of its public calls:
    one reservation, one settlement per trade, one release per hold given back. *)

From S2P Require Import Prelude Double MarketTypes Broadcaster Queue Spsc Allocator Outbox Orderbook MatchSpec Matching Clearing ClearingProofs ClearingTheorems Risk Gateway Payload Pipeline.

Local Open Scope Z_scope.

Section Ledger.
Context {QF QD A B : Type} `{QueueOps QF ForwardedRequest} `{QueueOps QD RiskDecision}
  `{BlockAllocator A} `{BlockAllocator B} (tid : Z) (unordered : list string -> list string).

Implicit Types p : ExchangePipeline QF QD A B.
Implicit Types c : AccountClearingSystem B.

Lemma clearing_run_app (ops ops' : list clearing_op) : forall c rs c',
  clearing_run tid c ops = Ret (rs, c') ->
  clearing_run tid c (ops ++ ops') = ('(rs', c'') ← clearing_run tid c' ops'; Ret (rs ++ rs', c'')).
Proof using Type.
  induction ops as [|op ops IH]; intros c rs c' E; simpl in *.
  { injection E as <- <-. by destruct (clearing_run tid c ops') as [[]| |]. }
  apply bind_ret_inv in E as ([r c1] & -> & E). rewrite bind_ret.
  apply bind_ret_inv in E as ([rs1 c2] & E1 & [= <- <-]). rewrite (IH _ _ _ E1).
  by destruct (clearing_run tid c2 ops') as [[]| |].
Qed.

(** Releases that all succeed. *)
Definition releases (closed : list (string * Z)) : list clearing_op :=
  map (fun x => ClRelease x.1 x.2) closed.
Definition released c (closed : list (string * Z)) c' : Prop :=
  clearing_run tid c (releases closed) = Ret (replicate (length closed) (settlement_status kApplied), c').

Lemma released_app c c1 c2 (l l' : list (string * Z)) :
  released c l c1 -> released c1 l' c2 -> released c (l ++ l') c2.
Proof using Type.
  unfold released, releases. intros E1 E2. rewrite map_app, (clearing_run_app _ _ _ _ _ E1), E2, bind_ret.
  by rewrite length_app, replicate_add.
Qed.

Lemma sync_clearing p (u : string) : ep_clearing (sync_account_state p u) = ep_clearing p /\
  ep_order_registry (sync_account_state p u) = ep_order_registry p /\
  ep_fee_schedule (sync_account_state p u) = ep_fee_schedule p /\
  ep_symbol (sync_account_state p u) = ep_symbol p.
Proof using Type. unfold sync_account_state. by destruct (Clearing_account _ _). Qed.

Lemma sync_both p (u v : string) : let p' := sync_account_state (sync_account_state p u) v in
  ep_clearing p' = ep_clearing p /\ ep_order_registry p' = ep_order_registry p /\
  ep_fee_schedule p' = ep_fee_schedule p /\ ep_symbol p' = ep_symbol p.
Proof using Type.
  cbv zeta. destruct (sync_clearing (sync_account_state p u) v) as (-> & -> & -> & ->). apply sync_clearing.
Qed.

(** ** Giving back what is left of a hold *)

Lemma release_residual_ledger p p' (hold : string) (t : Z) (status : ClearingStatus) :
  release_residual_hold tid p hold t = Ret (status, p') -> operation_ok status = true ->
  exists closed, released (ep_clearing p) closed (ep_clearing p') /\ Forall (fun x => x.1 = hold) closed /\
    ep_order_registry p' = ep_order_registry p.
Proof using Type.
  unfold release_residual_hold. intros E Hok.
  destruct (Clearing_hold_amount _ _); [|injection E as _ <-; by exists []].
  destruct (residual_is_zero _); [injection E as _ <-; by exists []|].
  apply bind_ret_inv in E as ([st c] & E & [= -> <-]). exists [(hold, t)]. split; [|by repeat constructor].
  unfold released, releases. simpl. rewrite E, !bind_ret. unfold operation_ok in Hok.
  apply bool_decide_eq_true in Hok. by subst.
Qed.

Lemma release_loop_ledger (o : ParsedOrder) (live : gset string) (tracked : list string) (w : WorkflowResult) :
  forall p ok w' p', release_loop tid p o live tracked w = Ret (ok, w', p') -> ok = true ->
  exists closed, released (ep_clearing p) closed (ep_clearing p') /\
    Forall (fun x => exists id m, id ∉ live /\ ep_order_registry p !! id = Some m /\ x.1 = mo_hold_id m) closed.
Proof using Type.
  induction tracked as [|id tracked IH]; intros p ok w' p' E Hok; simpl in E.
  { injection E as _ _ <-. by exists []. }
  case_bool_decide as Hlive; [by apply (IH p ok w')|].
  destruct (ep_order_registry p !! id) as [m|] eqn:Em; [|by apply (IH p ok w')].
  apply bind_ret_inv in E as (t & _ & E). apply bind_ret_inv in E as ([st p1] & E1 & E).
  destruct (operation_ok st) eqn:Est; simpl in E; [|injection E as <- _ _; done].
  destruct (release_residual_ledger _ _ _ _ _ E1 Est) as (l1 & R1 & F1 & Er).
  destruct (IH _ _ _ _ E Hok) as (l2 & R2 & F2).
  destruct (sync_clearing p1 (mo_user_id m)) as (Ec & Er2 & _). simpl in R2. rewrite Ec in R2.
  exists (l1 ++ l2). split; [by eapply released_app|]. apply Forall_app. split.
  - eapply Forall_impl; [exact F1|]. intros x ->. by exists id, m.
  - eapply Forall_impl; [exact F2|]. intros x (i & n & Hi & Hn & Hx). exists i, n. split_and!; try done.
    simpl in Hn. rewrite Er2, Er in Hn. by apply lookup_delete_Some in Hn as [_ Hn].
Qed.

(** ** Settling the trades *)

(** The fill the loop makes of a trade. *)
Definition fills p (o : ParsedOrder) (t : Trade) (f : TradeFill) : Prop :=
  exists maker taker, ep_order_registry p !! tr_maker_order_id t = Some maker /\
    ep_order_registry p !! tr_taker_order_id t = Some taker /\ f = fill_of p o t maker taker.

Definition settles (fees : FeeSchedule) (l : list TradeFill) : list clearing_op :=
  map (fun f => ClSettle f fees) l.

Lemma settle_loop_ledger (o : ParsedOrder) (trades : list Trade) : forall p w ok w' p',
  settle_loop tid p o trades w = Ret (ok, w', p') ->
  exists l rs, clearing_run tid (ep_clearing p) (settles (ep_fee_schedule p) l) = Ret (rs, ep_clearing p') /\
    wf_settlements w' = wf_settlements w ++ rs /\ Forall2 (fills p o) (take (length l) trades) l /\
    (ok = true -> length l = length trades).
Proof using Type.
  induction trades as [|t trades IH]; intros p w ok w' p' E; simpl in E.
  { injection E as _ <- <-. exists [], []. simpl. by rewrite app_nil_r. }
  destruct (ep_order_registry p !! tr_maker_order_id t) as [maker|] eqn:Em.
  2: { injection E as <- <- <-. exists [], []. simpl. by rewrite app_nil_r. }
  destruct (ep_order_registry p !! tr_taker_order_id t) as [taker|] eqn:Et.
  2: { injection E as <- <- <-. exists [], []. simpl. by rewrite app_nil_r. }
  apply bind_ret_inv in E as ([s c] & Es & E).
  assert (Hf : fills p o t (fill_of p o t maker taker)) by (by exists maker, taker).
  destruct (settlement_ok s); simpl in E.
  2: { injection E as <- <- <-. exists [fill_of p o t maker taker], [s]. simpl. rewrite Es, !bind_ret.
       split_and!; try done. by repeat constructor. }
  apply IH in E as (l & rs & E & Hw & HF & Hl).
  set (p1 := sync_account_state _ _) in *.
  assert (Hp : ep_clearing p1 = c /\ ep_order_registry p1 = ep_order_registry p /\
    ep_fee_schedule p1 = ep_fee_schedule p /\ ep_symbol p1 = ep_symbol p).
  { apply (sync_both (with_clearing p c)). }
  destruct Hp as (E1 & E2 & E3 & E4). rewrite E1, E3 in E.
  exists (fill_of p o t maker taker :: l), (s :: rs). cbn [settles map clearing_run clearing_step].
  rewrite Es, bind_ret. fold (settles (ep_fee_schedule p) l). rewrite E, bind_ret.
  split_and!; [done|simpl in Hw; by rewrite Hw, <- app_assoc| |intros Hok; simpl; by rewrite (Hl Hok)].
  constructor; [done|]. eapply Forall2_impl; [exact HF|]. intros x f (mk & tk & Hm & Ht & ->).
  exists mk, tk. rewrite E2 in Hm, Ht. split_and!; try done. unfold fill_of. by rewrite E4.
Qed.
End Ledger.
