(* ===== verification/PipelineProofs.v ===== *)
(** * The exchange pipeline: its stages

    The invariant that ties the components together, and what each stage of
    [submit] does to it. *)

From S2P Require Import Prelude Double MarketTypes DepthBook Broadcaster Queue Spsc RateWindow Allocator Outbox Orderbook MatchSpec Matching EngineProofs EngineTheorems Clearing ClearingProofs ClearingTheorems Risk RiskProofs Gateway GatewayProofs Payload Pipeline PipelineLedger.

Local Open Scope Z_scope.

(** ** Keys *)

Lemma append_length (s t : string) : (String.length (s +:+ t) = String.length s + String.length t)%nat.
Proof. induction s as [|c s IH]; [done|]. rewrite app_string. simpl. by rewrite IH. Qed.

Lemma append_cancel_r (s s' t : string) : s +:+ t = s' +:+ t -> s = s'.
Proof.
  intros E. assert (Hl : String.length s = String.length s').
  { apply (f_equal String.length) in E. rewrite !append_length in E. lia. }
  revert s' E Hl. induction s as [|c s IH]; intros [|c' s']; simpl; intros E Hl; try lia; [done|].
  rewrite !app_string in E. injection E as <- E. f_equal. apply IH; [done|lia].
Qed.

(** The balances of different users in one market are different entries. *)
Lemma account_key_user (u u' symbol : string) : account_key u symbol = account_key u' symbol -> u = u'.
Proof. apply append_cancel_r. Qed.

Lemma hold_id_inj (i j : string) : hold_id_for i = hold_id_for j -> i = j.
Proof. unfold hold_id_for. intros E. by apply (inj _) in E. Qed.

Lemma hold_id_named (i : string) : hold_id_for i <> "".
Proof. done. Qed.

(** ** Holds *)

(** Consuming a hold changes neither its owner nor its asset. *)
Lemma consume_owner (holds holds' : gmap string HoldRecord) (hold id : string) (amount : double) (h' : HoldRecord) :
  consume_hold_amount holds hold amount = Ret holds' -> holds' !! id = Some h' ->
  exists h, holds !! id = Some h /\ hr_account_id h = hr_account_id h' /\ hr_asset h = hr_asset h'.
Proof.
  unfold consume_hold_amount. case_bool_decide; [intros [= <-]; by exists h'|].
  destruct (holds !! hold) as [h|] eqn:Eh; [|done]. simpl. destruct (clearing_is_zero _); intros [= <-].
  - intros [_ Hi]%lookup_delete_Some. by exists h'.
  - intros [[<- <-]|[_ Hi]]%lookup_insert_Some; [by exists h|by exists h'].
Qed.

(** ... and leaves the other holds alone. *)
Lemma consume_other (holds holds' : gmap string HoldRecord) (hold id : string) (amount : double) :
  consume_hold_amount holds hold amount = Ret holds' -> id <> hold -> holds' !! id = holds !! id.
Proof.
  unfold consume_hold_amount. case_bool_decide; [by intros [= <-]|].
  destruct (holds !! hold) as [h|]; [|done]. simpl.
  destruct (clearing_is_zero _); intros [= <-] Hne; [by apply lookup_delete_ne|by apply lookup_insert_ne].
Qed.

Lemma alter_some (f : AccountSnapshot -> AccountSnapshot) (i j : string) (m : gmap string AccountSnapshot) :
  is_Some (alter f i m !! j) <-> is_Some (m !! j).
Proof.
  destruct (decide (j = i)) as [->|Hne]; [by rewrite lookup_alter_eq, fmap_is_Some|by rewrite lookup_alter_ne].
Qed.

(** ** What a submission does to the book *)

Definition book_orders (b : Book) : list RestingOrder := bk_bids b ++ bk_asks b.

Lemma book_orders_side (b : Book) (s : MarketSide) (o : RestingOrder) :
  o ∈ book_orders b <-> o ∈ side_of b s \/ o ∈ side_of b (other s).
Proof. unfold book_orders. rewrite elem_of_app. destruct s; simpl; tauto. Qed.

(** A trade is with an order of the other side of the book, at its price, within
    the limit. *)
Definition trade_with (b : Book) (request : OrderRequest) (t : Trade) : Prop :=
  tr_taker_order_id t = rq_order_id request /\
  beyond_limit (opposite (rq_side request)) request (tr_price t) = false /\
  exists m, m ∈ side_of b (opposite (rq_side request)) /\ ro_order_id m = tr_maker_order_id t /\
    ro_price m = tr_price t.

Lemma consume_trade_with (b : Book) (request : OrderRequest) (makers : list RestingOrder) : forall q,
  Forall (fun m => m ∈ side_of b (opposite (rq_side request))) makers ->
  Forall (trade_with b request) (consume (opposite (rq_side request)) request q makers).1.2.
Proof.
  induction makers as [|m makers IH]; intros q HF; simpl; [constructor|].
  apply Forall_cons in HF as [Hm HF]. destruct (dgt q _); simpl; [|constructor].
  destruct (beyond_limit _ request (ro_price m)) eqn:Hb; simpl; [constructor|].
  set (fill := dmin q _). specialize (IH (dsub q fill) HF).
  assert (Ht : trade_with b request (mkTrade (ro_order_id m) (rq_order_id request) (ro_price m) fill))
    by (split_and!; [done|done|by exists m]).
  destruct (dle _ _); [|by apply Forall_singleton].
  destruct (consume _ request (dsub q fill) makers) as [[r ts] rest]. simpl in *. by constructor.
Qed.

Lemma submit_trades (b : Book) (request : OrderRequest) :
  Forall (trade_with b request) (mr_trades (spec_submit b request).1).
Proof.
  destruct (submit_cases b request) as [(reason & -> & _)|(-> & _)]; [constructor|].
  pose proof (execute_facts b request) as F. cbv zeta in F.
  pose proof (consume_trade_with b request (side_of b (opposite (rq_side request))) (rq_quantity request)) as HT.
  destruct (consume _ _ _ _) as [[r ts] rest]. destruct F as (-> & _). apply HT. apply Forall_forall. by intros m.
Qed.

(** The orders afterwards are old ones, or the request's own. *)
Lemma submit_orders (b : Book) (request : OrderRequest) (o : RestingOrder) : book_wf b -> request_ok request ->
  o ∈ book_orders (spec_submit b request).2 ->
  (ro_order_id o = rq_order_id request /\ ro_side o = rq_side request) \/
  exists m, m ∈ book_orders b /\ ro_order_id m = ro_order_id o /\ ro_side m = ro_side o.
Proof.
  intros W Hok Ho. pose proof (spec_submit_wf b request W Hok) as W'.
  destruct (submit_cases b request) as [(reason & E & _)|(E & Hq & _)]; rewrite E in *; [right; by exists o|].
  set (s := opposite (rq_side request)). pose proof (execute_facts b request) as F. cbv zeta in F. fold s in F.
  pose proof (consume_ok s request (side_of b s) (rq_quantity request) (proj2 Hok) (book_wf_side b s W) (proj1 Hok)) as HC.
  apply positive_quantity in Hq; [|done].
  destruct (consume _ _ _ _) as [[r ts] rest]. destruct F as (_ & _ & _ & Fs & Fo & _).
  destruct HC as (_ & _ & _ & Hsuf & _); [lia|].
  assert (Hside : forall b' s' x, book_wf b' -> x ∈ side_of b' s' -> depth_side (ro_side x) = s').
  { intros b' s' x Wb Hx. pose proof (bw_orders _ Wb s') as HF. rewrite Forall_forall in HF. by destruct (HF x Hx). }
  assert (Hinj : forall x y, depth_side x = depth_side y -> x = y) by by intros [] [].
  apply (book_orders_side _ s) in Ho as [Ho|Ho].
  - right. pose proof (Hside _ _ _ W' Ho) as Hs. rewrite Fs in Ho.
    destruct Hsuf as (k & Hids & _). assert (Hin : ro_order_id o ∈ map ro_order_id rest) by by apply list_elem_of_fmap_2.
    rewrite Hids in Hin. assert (Hin' : ro_order_id o ∈ map ro_order_id (side_of b s)).
    { rewrite <- (take_drop k (map ro_order_id (side_of b s))). apply elem_of_app. by right. }
    apply list_elem_of_fmap in Hin' as (m & Hid & Hm). exists m. split; [apply (book_orders_side _ s); by left|].
    split; [done|]. apply Hinj. rewrite (Hside _ _ _ W Hm). done.
  - replace (other s) with (depth_side (rq_side request)) in Ho
      by (subst s; rewrite opposite_other; by rewrite other_other).
    rewrite Fo in Ho. assert (Hold : o ∈ side_of b (depth_side (rq_side request)) -> o ∈ book_orders b).
    { intros Hx. apply (book_orders_side _ (depth_side (rq_side request))). by left. }
    destruct (rests request r); [|right; exists o; split; [by apply Hold|done]].
    rewrite insert_resting_perm in Ho. apply elem_of_cons in Ho as [->|Ho]; [by left|].
    right. exists o. split; [by apply Hold|done].
Qed.

Lemma consume_untouched (s : MarketSide) (request : OrderRequest) (makers : list RestingOrder) (q : double) :
  (consume s request q makers).1.2 = [] -> (consume s request q makers).2 = makers.
Proof.
  destruct makers as [|m makers]; [done|]. simpl. destruct (_ && _); [|done]. destruct (dle _ _); [|done].
  by destruct (consume _ _ _ _) as [[r ts] rest].
Qed.

(** A request that is refused without trading leaves the book alone. *)
Lemma submit_refused (b : Book) (request : OrderRequest) : mr_accepted (spec_submit b request).1 = false ->
  mr_trades (spec_submit b request).1 = [] -> (spec_submit b request).2 = b.
Proof.
  destruct (submit_cases b request) as [(reason & -> & _)|(-> & _)]; [done|].
  unfold spec_execute. set (s := opposite (rq_side request)).
  pose proof (consume_untouched s request (side_of b s) (rq_quantity request)) as HU.
  destruct (consume _ _ _ _) as [[r ts] rest]. simpl in HU.
  destruct (is_zero r); [done|]. destruct (_ || _); [done|]. case_bool_decide; [done|]. simpl.
  intros _ Hts. rewrite (HU Hts). destruct b, s; done.
Qed.

(** ** The views the risk engine is given *)

Definition account_view (s : AccountSnapshot) : AccountRiskState :=
  mkAccountRisk (ac_available_quote s) (ac_available_base s).

Definition owner_view (registry : gmap string ManagedOrder) (r : RestingOrderView) : option RiskRestingView :=
  managed ← registry !! rv_order_id r;
  Some (mkRiskResting (mo_user_id managed) (to_risk_side (mo_side managed)) (Orderbook.rv_price r)
          (rv_open_quantity r)).

Section Pipeline.
Context {QF QD A B : Type} `{HF : QueueLaws QF ForwardedRequest} `{HD : QueueLaws QD RiskDecision}
  `{HA : BlockAllocatorLaws A} `{HB : BlockAllocatorLaws B} (tid : Z).
Context (std_sort : (RouteConfig -> RouteConfig -> bool) -> list RouteConfig -> list RouteConfig)
  `{!SortLaws std_sort} (unordered : list string -> list string) `{!UnorderedLaws unordered}.

Implicit Types p : ExchangePipeline QF QD A B.
Implicit Types r : PreTradeRiskEngine QD.

(** ** Risk engines that differ in balances and resting orders *)

Definition risk_core r r' : Prop :=
  re_markets r' = re_markets r /\ re_request_windows r' = re_request_windows r /\
  re_audit_queue r' = re_audit_queue r /\ re_audit_history r' = re_audit_history r.

#[local] Instance risk_core_refl : Reflexive risk_core.
Proof using Type. done. Qed.
#[local] Instance risk_core_trans : Transitive risk_core.
Proof using Type. intros x y z (?&?&?&?) (?&?&?&?). by split_and!; etransitivity. Qed.

Lemma risk_inv_core r r' : risk_core r r' -> risk_inv r -> risk_inv r'.
Proof using Type.
  intros (E1 & E2 & E3 & E4) [I1 I2]. split; [|by rewrite E1]. unfold audit_ok in *. by rewrite E3.
Qed.

(** Evaluating reads balances and resting orders only. *)
Lemma finalize_books r r' (d d' : RiskDecision) : finalize_decision r d = Ret (d', r') ->
  re_accounts r' = re_accounts r /\ re_resting_orders r' = re_resting_orders r.
Proof using Type.
  unfold finalize_decision, enqueue_audit. intros E.
  apply bind_ret_inv in E as (r1 & E1 & E). apply bind_ret_inv in E as (r2 & E2 & [= _ <-]).
  assert (HFl : forall r r', flush_audit_queue r = Ret r' ->
    re_accounts r' = re_accounts r /\ re_resting_orders r' = re_resting_orders r).
  { intros x y Ex. unfold flush_audit_queue in Ex. apply bind_ret_inv in Ex as ([q h] & _ & [= <-]). done. }
  apply HFl in E2 as [-> ->]. apply bind_ret_inv in E1 as ([b q] & _ & E1). destruct b.
  - by injection E1 as <-.
  - apply bind_ret_inv in E1 as (r3 & E3 & E1). apply HFl in E3 as [X1 X2].
    apply bind_ret_inv in E1 as ([b' q'] & _ & E1). destruct b'; [|done]. by injection E1 as <-.
Qed.

Lemma evaluate_books r r' (request : RiskOrderRequest) (d : RiskDecision) : Risk_evaluate r request = Ret (d, r') ->
  re_accounts r' = re_accounts r /\ re_resting_orders r' = re_resting_orders r.
Proof using Type.
  unfold Risk_evaluate. destruct (validate_request_shape r request); [apply finalize_books|].
  destruct (validate_market_presence r request); [apply finalize_books|]. intros E.
  apply bind_ret_inv in E as (m & _ & E). apply bind_ret_inv in E as (w & _ & E). by apply finalize_books in E.
Qed.

(** ** The invariant *)

(** What the money stages leave alone. *)
Record money_step p p' : Prop := {
  mn_symbol : ep_symbol p' = ep_symbol p;
  mn_prices : ep_best_bid p' = ep_best_bid p /\ ep_best_ask p' = ep_best_ask p;
  mn_fees : ep_fee_schedule p' = ep_fee_schedule p;
  mn_gateway : ep_gateway p' = ep_gateway p;
  mn_matching : ep_matching p' = ep_matching p;
  mn_risk : risk_core (ep_risk p) (ep_risk p');
  mn_resting : re_resting_orders (ep_risk p') = re_resting_orders (ep_risk p);
  mn_users : ep_resting_users p' = ep_resting_users p
}.

#[local] Instance money_step_refl : Reflexive money_step.
Proof using Type. intros p. by split. Qed.
#[local] Instance money_step_trans : Transitive money_step.
Proof using Type.
  intros p q s [] []. split; try congruence; [|by etransitivity].
  destruct mn_prices0, mn_prices1. split; congruence.
Qed.

(** Components in their invariants, except for the books of the users. *)
Record base_inv (n : Z) p : Prop := {
  bi_gateway : exists c, gateway_inv (ep_gateway p) [] c /\ 1 <= c;
  bi_sequence : br_next_sequence (gw_broadcaster (ep_gateway p)) <= n;
  bi_risk : risk_inv (ep_risk p);
  bi_market : forall s m, re_markets (ep_risk p) !! s = Some m -> s = ep_symbol p;
  bi_matching : engine_rel (ep_matching p) (view (ep_matching p));
  bi_resting : forall o, In o (resting_orders_for (ep_risk p) (ep_symbol p)) -> rv_user_id o ∈ ep_resting_users p
}.

(** The risk engine knows the available balances of every account not in [X]. *)
Definition synced_except (X : list string) p : Prop := forall u s,
  cs_accounts (ep_clearing p) !! u = Some s ->
  u ∈ X \/ re_accounts (ep_risk p) !! account_key u (ep_symbol p) = Some (account_view s).

(** A registered order names the hold of its id, and the hold its user. *)
Definition registry_ok p : Prop := forall id m, ep_order_registry p !! id = Some m ->
  mo_hold_id m = hold_id_for id /\ mo_symbol m = ep_symbol p /\
  forall h, cs_holds (ep_clearing p) !! mo_hold_id m = Some h -> hr_account_id h = mo_user_id m.

Definition holds_owned (c : AccountClearingSystem B) : Prop := forall id h,
  cs_holds c !! id = Some h -> is_Some (cs_accounts c !! hr_account_id h).

(** A hold backs a registered order, or is dust. *)
Definition holds_tracked p : Prop := forall k h, cs_holds (ep_clearing p) !! k = Some h ->
  residual_is_zero (hr_amount h) = true \/
  exists id, k = hold_id_for id /\ is_Some (ep_order_registry p !! id).

Record money_inv (X : list string) p : Prop := {
  mi_clearing : exists init, clearing_inv init (ep_clearing p);
  mi_holds : holds_owned (ep_clearing p);
  mi_registry : registry_ok p;
  mi_synced : synced_except X p;
  mi_tracked : holds_tracked p
}.

Definition pipeline_inv (n : Z) p : Prop := base_inv n p /\ money_inv [] p.

Lemma base_inv_step (n : Z) p p' : money_step p p' -> base_inv n p -> base_inv n p'.
Proof using Type.
  intros [E1 E2 E3 E4 E5 E6 E7 E8] [I1 I2 I3 I4 I5 I6]. split; rewrite ?E1, ?E4, ?E5, ?E8; try done.
  - by apply (risk_inv_core (ep_risk p)).
  - destruct E6 as (-> & _). done.
  - unfold resting_orders_for in *. by rewrite E7.
Qed.

Lemma with_clearing_same p : with_clearing p (ep_clearing p) = p.
Proof using Type. by destruct p. Qed.
Lemma with_risk_same p : with_risk p (ep_risk p) = p.
Proof using Type. by destruct p. Qed.

(** ** Synchronising balances *)

Lemma sync_synced p (u : string) (X : list string) : synced_except (u :: X) p ->
  money_step p (sync_account_state p u) /\ synced_except X (sync_account_state p u) /\
  ep_clearing (sync_account_state p u) = ep_clearing p /\
  ep_order_registry (sync_account_state p u) = ep_order_registry p.
Proof using Type.
  intros S. unfold sync_account_state, Clearing_account.
  destruct (cs_accounts (ep_clearing p) !! u) as [s|] eqn:Es.
  - split; [by split|]. split; [|done]. intros v t Hv. simpl in *.
    destruct (S v t Hv) as [[->|Hin]%elem_of_cons|Hk]; [|by left|].
    + right. rewrite Es in Hv. injection Hv as <-. apply lookup_insert_eq.
    + right. destruct (decide (v = u)) as [->|Hne].
      * rewrite Es in Hv. injection Hv as <-. apply lookup_insert_eq.
      * rewrite lookup_insert_ne; [done|]. intros Ek%account_key_user. congruence.
  - split; [done|]. split; [|done]. intros v t Hv.
    destruct (S v t Hv) as [[->|Hin]%elem_of_cons|Hk]; [congruence|by left|by right].
Qed.

Lemma sync_account_spec p (u : string) (X : list string) : money_inv (u :: X) p ->
  money_step p (sync_account_state p u) /\ money_inv X (sync_account_state p u) /\
  ep_clearing (sync_account_state p u) = ep_clearing p /\
  ep_order_registry (sync_account_state p u) = ep_order_registry p.
Proof using Type.
  intros [C O R S T]. destruct (sync_synced p u X S) as (M & S' & Ec & Er).
  split; [done|]. split; [|done]. split; rewrite ?Ec; try done.
  - intros id m. rewrite Er, Ec, (mn_symbol _ _ M). apply R.
  - intros k h. rewrite Er, Ec. apply T.
Qed.

(** ** Reserving *)

Lemma synced_alter p c' (f : AccountSnapshot -> AccountSnapshot) (u : string) (X : list string) :
  synced_except X p -> cs_accounts c' = alter f u (cs_accounts (ep_clearing p)) ->
  synced_except (u :: X) (with_clearing p c').
Proof using Type.
  intros S E v t Hv. simpl in *. rewrite E in Hv. destruct (decide (v = u)) as [->|Hne].
  - left. apply elem_of_cons. by left.
  - rewrite lookup_alter_ne in Hv by done. destruct (S v t Hv); [left; apply elem_of_cons; by right|by right].
Qed.

Definition side_asset (s : Side) : HoldAsset := match s with kBuy => kQuote | kSell => kBase end.

(** Either nothing is reserved, or the hold of the order is new and covers the
    reserved amount. *)
Lemma reserve_spec p (o : ParsedOrder) (w : WorkflowResult) : money_inv [] p -> po_symbol o = ep_symbol p ->
  let hold := hold_id_for (po_order_id o) in
  (exists st, st <> kApplied /\ reserve_order_hold tid p o w =
     Ret (None, set_decision (set_status w kClearingRejected (status_message st))
                  (hold_rejected (wf_risk_decision w) st (po_matching_side o)), p)) \/
  (exists c', reserve_order_hold tid p o w = Ret (Some hold, w, with_clearing p c') /\
     cs_holds (ep_clearing p) !! hold = None /\
     cs_holds c' = <[hold := mkHold (po_user_id o) (side_asset (po_matching_side o)) (reserve_amount p o)]>
       (cs_holds (ep_clearing p)) /\
     (forall u, u <> po_user_id o -> cs_accounts c' !! u = cs_accounts (ep_clearing p) !! u) /\
     money_inv [] (track_managed_order (with_clearing p c') o hold) /\
     money_step p (track_managed_order (with_clearing p c') o hold) /\
     freeze tid (side_asset (po_matching_side o)) (ep_clearing p) (po_user_id o) hold (reserve_amount p o)
       (po_timestamp_ms o) = Ret (kApplied, c')).
Proof using Type*.
  intros [[init C] O R S T] Hsym hold. unfold reserve_order_hold. fold hold.
  set (asset := side_asset (po_matching_side o)).
  destruct (freeze_spec tid init (ep_clearing p) asset (po_user_id o) hold (reserve_amount p o) (po_timestamp_ms o) C)
    as (st & c' & E & C' & Hsame & _ & Happ).
  assert (Em : (match po_matching_side o with
      | kBuy => Clearing_freeze_quote tid (ep_clearing p) (po_user_id o) hold (reserve_amount p o) (po_timestamp_ms o)
      | kSell => Clearing_freeze_base tid (ep_clearing p) (po_user_id o) hold (reserve_amount p o) (po_timestamp_ms o)
      end) = Ret (st, c')) by (subst asset; by destruct (po_matching_side o)).
  cbv zeta. rewrite Em, bind_ret. unfold operation_ok. case_bool_decide as Hst; simpl negb; cbn match.
  - right. destruct (Happ Hst) as (s & Hs & _ & Hh & _ & Ha & Hhs). exists c'. split; [done|].
    split; [done|]. split; [done|]. split; [intros u Hu; rewrite Ha; by apply lookup_alter_ne|].
    destruct (sync_synced (with_clearing p c') _ _ (synced_alter p c' _ _ [] S Ha)) as (M & S' & Ec & Er).
    unfold track_managed_order. rewrite Er. simpl in Ec, Er |- *. split; [|split; [by destruct M|by rewrite <- Hst]].
    split; simpl; rewrite ?Ec.
    + by exists init.
    + intros id h. rewrite Hhs, Ha. intros Hl. apply alter_some.
      apply lookup_insert_Some in Hl as [[_ <-]|[_ Hl]]; [simpl; by rewrite Hs|by apply (O id)].
    + intros id m. simpl. rewrite Ec, Hhs, (mn_symbol _ _ M). simpl.
      intros [[<- <-]|[Hne Hm]]%lookup_insert_Some; simpl.
      * split_and!; [done|done|]. intros h. rewrite lookup_insert_eq. by intros [= <-].
      * destruct (R id m Hm) as (R1 & R2 & R3). split_and!; [done|done|].
        intros h [[Hl _]|[_ Hl]]%lookup_insert_Some; [|by apply R3].
        rewrite R1 in Hl. by apply hold_id_inj in Hl.
    + exact S'.
    + intros k h. simpl. rewrite Ec, Hhs. intros [[<- _]|[_ Hk]]%lookup_insert_Some.
      * right. exists (po_order_id o). split; [done|]. rewrite lookup_insert_eq. by eexists.
      * destruct (T k h Hk) as [Hz|(id & -> & Hid)]; [by left|right]. exists id. split; [done|].
        apply lookup_insert_is_Some'. by right.
  - left. exists st. split; [done|]. by rewrite (Hsame Hst), with_clearing_same.
Qed.

(** ** Releasing *)

(** The residual hold of a registered order: gone afterwards, or dust. *)
Lemma release_residual_spec p (id : string) (m : ManagedOrder) (t : Z) (X : list string) :
  money_inv X p -> ep_order_registry p !! id = Some m ->
  exists p', release_residual_hold tid p (mo_hold_id m) t = Ret (kApplied, p') /\ money_step p p' /\
    ep_order_registry p' = ep_order_registry p /\ money_inv (mo_user_id m :: X) p' /\
    (forall k h, cs_holds (ep_clearing p') !! k = Some h -> cs_holds (ep_clearing p) !! k = Some h) /\
    (forall h, cs_holds (ep_clearing p') !! mo_hold_id m = Some h -> residual_is_zero (hr_amount h) = true) /\
    (forall u, u <> mo_user_id m -> cs_accounts (ep_clearing p') !! u = cs_accounts (ep_clearing p) !! u).
Proof using Type*.
  intros [[init C] O R S T] Hm. destruct (R id m Hm) as (R1 & R2 & R3).
  assert (S' : synced_except (mo_user_id m :: X) p).
  { intros u s Hu. destruct (S u s Hu); [left; apply elem_of_cons; by right|by right]. }
  unfold release_residual_hold, Clearing_hold_amount.
  destruct (cs_holds (ep_clearing p) !! mo_hold_id m) as [h|] eqn:Eh; simpl.
  2: { exists p. split_and!; try done; [|by intros h; rewrite Eh]. split; [by exists init|done..]. }
  destruct (residual_is_zero (hr_amount h)) eqn:Ez.
  { exists p. split_and!; try done; [|by intros h'; rewrite Eh; intros [= <-]]. split; [by exists init|done..]. }
  destruct (release_spec tid init (ep_clearing p) (mo_hold_id m) t C) as (st & c' & E & C' & Hsame & _ & Happ).
  destruct (decide (st = kApplied)) as [->|Hne].
  2: { exfalso. unfold Clearing_release_hold in E. rewrite Eh in E.
       destruct (O _ _ Eh) as [s Es]. rewrite Es in E. apply bind_ret_inv in E as (c2 & _ & [= <- _]). done. }
  rewrite E, bind_ret. destruct (Happ eq_refl) as (h' & s & Eh' & Es & Ha & Hh).
  rewrite Eh in Eh'. injection Eh' as <-. rewrite (R3 h eq_refl) in Ha.
  exists (with_clearing p c'). split; [done|]. split; [by split|]. split; [done|]. split; [|split_and!].
  - split; simpl.
    + by exists init.
    + intros k x. rewrite Hh, Ha. intros [_ Hk]%lookup_delete_Some. apply alter_some. by apply (O k).
    + intros i n Hn. simpl. destruct (R i n Hn) as (N1 & N2 & N3). split_and!; [done|done|].
      intros x. rewrite Hh. intros [_ Hx]%lookup_delete_Some. by apply N3.
    + by apply (synced_alter p c' (release_update h)).
    + intros k x. simpl. rewrite Hh. intros [_ Hk]%lookup_delete_Some. by apply (T k).
  - simpl. intros k x. rewrite Hh. by intros [_ Hk]%lookup_delete_Some.
  - simpl. intros x. rewrite Hh. by rewrite lookup_delete_eq.
  - simpl. intros u Hu. rewrite Ha. by apply lookup_alter_ne.
Qed.

(** Forgetting a registered order that holds no funds. *)
Lemma forget_order p (id : string) (X : list string) : money_inv X p ->
  (forall h, cs_holds (ep_clearing p) !! hold_id_for id = Some h -> residual_is_zero (hr_amount h) = true) ->
  money_inv X (with_registry p (delete id (ep_order_registry p))).
Proof using Type.
  intros [C O R S T] Hz. split; simpl; try done.
  - intros i m Hm. simpl in Hm. apply lookup_delete_Some in Hm as [_ Hm]. by apply R.
  - intros k h Hk. simpl in Hk. destruct (T k h Hk) as [?|(i & -> & Hi)]; [by left|].
    destruct (decide (i = id)) as [->|Hne]; [left; by apply Hz|right]. exists i. split; [done|].
    simpl. by rewrite lookup_delete_ne.
Qed.

Lemma forget_step p (id : string) : money_step p (with_registry p (delete id (ep_order_registry p))).
Proof using Type. by split. Qed.

Lemma release_loop_spec (o : ParsedOrder) (live : gset string) (w : WorkflowResult) :
  - two63 <= po_timestamp_ms o + 2 < two63 ->
  forall tracked p, money_inv [] p ->
  exists p', release_loop tid p o live tracked w = Ret (true, w, p') /\ money_step p p' /\ money_inv [] p' /\
    (forall id m, ep_order_registry p' !! id = Some m <->
       ep_order_registry p !! id = Some m /\ (id ∈ live \/ id ∉ tracked)) /\
    (forall k h, cs_holds (ep_clearing p') !! k = Some h -> cs_holds (ep_clearing p) !! k = Some h).
Proof using Type*.
  intros Ht. induction tracked as [|id tracked IH]; intros p M; simpl.
  { exists p. split_and!; try done. intros i m. split; [|tauto]. intros Hi. split; [done|right]. apply not_elem_of_nil. }
  case_bool_decide as Hlive.
  { destruct (IH p M) as (p' & -> & S & M' & Hr & Hh). exists p'. split_and!; try done.
    intros i m. rewrite Hr, not_elem_of_cons. destruct (decide (i = id)) as [->|]; tauto. }
  destruct (ep_order_registry p !! id) as [m|] eqn:Em.
  2: { destruct (IH p M) as (p' & -> & S & M' & Hr & Hh). exists p'. split_and!; try done.
       intros i n. rewrite Hr, not_elem_of_cons. destruct (decide (i = id)) as [->|]; [|tauto]. rewrite Em. by split; intros [[=] _]. }
  unfold add_i64. rewrite checked_i64_ret, bind_ret by done.
  destruct (release_residual_spec p id m (po_timestamp_ms o + 2) [] M Em) as (p1 & -> & S1 & E1 & M1 & Sub & Hz & _).
  rewrite bind_ret. simpl negb. cbn match.
  destruct (sync_account_spec p1 _ _ M1) as (S2 & M2 & E2 & R2).
  set (p2 := with_registry _ _). rewrite (proj1 (mi_registry _ _ M id m Em)), <- E2 in Hz.
  destruct (IH p2 (forget_order _ id _ M2 Hz)) as (p' & -> & S3 & M3 & Hr & Hh).
  exists p'. split; [done|]. split; [|split; [done|split]].
  - rewrite S1, S2. by rewrite (forget_step (sync_account_state p1 (mo_user_id m)) id).
  - intros i n. rewrite Hr. simpl. rewrite R2, E1, not_elem_of_cons, lookup_delete_Some.
    destruct (decide (i = id)) as [->|]; [|intuition congruence]. split; [by intros [[? _] _]|by intros [_ [?|[? _]]]].
  - intros k h Hk. apply Sub. rewrite <- E2. by apply Hh.
Qed.

(** ** Settling *)

Lemma settle_one_spec p (fill : TradeFill) : money_inv [] p ->
  (forall k, k = tf_buyer_hold_id fill \/ k = tf_seller_hold_id fill ->
     exists id, k = hold_id_for id /\ is_Some (ep_order_registry p !! id)) ->
  exists s c', Clearing_settle_spot_trade tid (ep_clearing p) fill (ep_fee_schedule p) = Ret (s, c') /\
    (settlement_ok s = false -> c' = ep_clearing p) /\
    (forall u, u <> tf_buyer_account_id fill -> u <> tf_seller_account_id fill ->
       cs_accounts c' !! u = cs_accounts (ep_clearing p) !! u) /\
    money_inv [tf_buyer_account_id fill; tf_seller_account_id fill] (with_clearing p c').
Proof using Type*.
  intros [[init C] O R S T] Hids.
  destruct (settle_spec tid init (ep_clearing p) fill (ep_fee_schedule p) C)
    as (s & c' & E & C' & Hsame & _ & Happ & _).
  exists s, c'. split; [done|].
  destruct (decide (sr_status s = kApplied)) as [Hs|Hs].
  2: { rewrite (Hsame Hs), with_clearing_same. split_and!; try done. split; try done; [by exists init|].
       intros u t Hu. destruct (S u t Hu) as [Hn|Hk]; [by apply not_elem_of_nil in Hn|by right]. }
  split; [unfold settlement_ok; by rewrite Hs|].
  destruct (Happ Hs) as (buyer & seller & D & _). destruct D as [_ Db Ds _ a _ _ _ _ Da Dh _ _]. subst a.
  apply bind_ret_inv in Dh as (h1 & Dh1 & Dh2).
  assert (Howner : forall k h, cs_holds c' !! k = Some h ->
    exists h0, cs_holds (ep_clearing p) !! k = Some h0 /\ hr_account_id h0 = hr_account_id h).
  { intros k h Hk. destruct (consume_owner _ _ _ _ _ _ Dh2 Hk) as (x & Hx & Ex & _).
    destruct (consume_owner _ _ _ _ _ _ Dh1 Hx) as (y & Hy & Ey & _). exists y. split; [done|congruence]. }
  split.
  { intros u Hb Hss. rewrite Da, !lookup_alter_ne by done. done. }
  split; simpl.
  - by exists init.
  - intros k h Hk. rewrite Da. apply alter_some, alter_some. destruct (Howner k h Hk) as (h0 & H0' & <-). by apply (O k).
  - intros id m Hm. destruct (R id m Hm) as (R1 & R2 & R3). split_and!; [done|done|].
    intros h Hh. destruct (Howner _ h Hh) as (h0 & H0' & <-). by apply R3.
  - intros u t Hu. simpl in Hu. rewrite Da in Hu.
    destruct (decide (u = tf_buyer_account_id fill)) as [->|Hb]; [left; apply elem_of_cons; by left|].
    destruct (decide (u = tf_seller_account_id fill)) as [->|Hs'].
    { left. apply elem_of_cons. right. apply elem_of_cons. by left. }
    rewrite !lookup_alter_ne in Hu by done. destruct (S u t Hu) as [Hn|Hk]; [by apply not_elem_of_nil in Hn|by right].
  - intros k h Hk. simpl in Hk. destruct (decide (k = tf_buyer_hold_id fill)) as [Hkb|Hb]; [right; apply Hids; by left|].
    destruct (decide (k = tf_seller_hold_id fill)) as [Hks|Hs']; [right; apply Hids; by right|].
    rewrite (consume_other _ _ _ _ _ Dh2 Hs'), (consume_other _ _ _ _ _ Dh1 Hb) in Hk. by apply (T k).
Qed.

(** Both parties of a trade are registered. *)
Definition has_owners p (t : Trade) : Prop :=
  is_Some (ep_order_registry p !! tr_maker_order_id t) /\ is_Some (ep_order_registry p !! tr_taker_order_id t).

(** The workflow with the settlements of a run of the loop. *)
Definition settled_workflow (w w' : WorkflowResult) (l : list SettlementResult) : Prop :=
  wf_settlements w' = wf_settlements w ++ l /\ wf_match_result w' = wf_match_result w /\
  wf_route_result w' = wf_route_result w /\ wf_risk_decision w' = wf_risk_decision w.

(** The loop stops at a trade without owners. *)
Lemma missing_owner (w : WorkflowResult) p (t : Trade) (trades : list Trade) : ~ has_owners p t ->
  exists w', set_accepted (set_status w kWorkflowInvariantViolation "missing_order_ownership_for_matched_trade") false = w' /\
    settled_workflow w w' [] /\ wf_accepted w' = false /\
    (wf_status w' = kSettlementRejected \/
     wf_status w' = kWorkflowInvariantViolation /\ exists t', t' ∈ t :: trades /\ ~ has_owners p t').
Proof using Type.
  intros Hn. eexists. split; [done|]. split; [unfold settled_workflow; simpl; by rewrite app_nil_r|].
  split; [done|]. right. split; [done|]. exists t. split; [apply elem_of_cons; by left|done].
Qed.

Lemma settle_loop_spec (o : ParsedOrder) : forall trades w p, money_inv [] p ->
  exists ok w' p' l, settle_loop tid p o trades w = Ret (ok, w', p') /\ money_step p p' /\ money_inv [] p' /\
    ep_order_registry p' = ep_order_registry p /\ settled_workflow w w' l /\
    if (ok : bool)
    then wf_status w' = wf_status w /\ wf_accepted w' = wf_accepted w /\ length l = length trades /\
      Forall (fun s => settlement_ok s = true) l
    else wf_accepted w' = false /\
      (wf_status w' = kSettlementRejected \/
       wf_status w' = kWorkflowInvariantViolation /\ exists t, t ∈ trades /\ ~ has_owners p t).
Proof using Type*.
  induction trades as [|t trades IH]; intros w p M; simpl.
  { exists true, w, p, []. split_and!; try done. split_and!; try done. simpl. by rewrite app_nil_r. }
  destruct (ep_order_registry p !! tr_maker_order_id t) as [maker|] eqn:Em.
  2: { destruct (missing_owner w p t trades) as (w' & E & W); [by intros [[? ?] _]; congruence|].
       destruct W as (W1 & W2 & W3). rewrite E. exists false, w', p, []. split_and!; done. }
  destruct (ep_order_registry p !! tr_taker_order_id t) as [taker|] eqn:Et.
  2: { destruct (missing_owner w p t trades) as (w' & E & W); [by intros [_ [? ?]]; congruence|].
       destruct W as (W1 & W2 & W3). rewrite E. exists false, w', p, []. split_and!; done. }
  set (fill := fill_of p o t maker taker).
  assert (Hids : forall k, k = tf_buyer_hold_id fill \/ k = tf_seller_hold_id fill ->
    exists id, k = hold_id_for id /\ is_Some (ep_order_registry p !! id)).
  { destruct (mi_registry _ _ M _ _ Em) as [Hm _], (mi_registry _ _ M _ _ Et) as [Ht _].
    intros k Hk. assert (Hk' : k = mo_hold_id taker \/ k = mo_hold_id maker).
    { subst fill. simpl in Hk. destruct (bool_decide _); tauto. }
    destruct Hk' as [-> | ->]; [exists (tr_taker_order_id t)|exists (tr_maker_order_id t)]; (split; [done|by eexists]). }
  destruct (settle_one_spec p fill M Hids) as (s & c' & -> & Hbad & _ & M1). rewrite bind_ret.
  destruct (settlement_ok s) eqn:Eok; simpl negb; cbn match.
  2: { eexists false, _, _, [s]. split; [done|]. rewrite (Hbad eq_refl), with_clearing_same.
       split_and!; try done. by left. }
  destruct (sync_account_spec _ _ _ M1) as (S2 & M2 & E2 & R2).
  destruct (sync_account_spec _ _ _ M2) as (S3 & M3 & E3 & R3).
  set (p3 := sync_account_state (sync_account_state _ _) _) in *.
  destruct (IH (add_settlement w s) p3 M3) as (ok & w' & p' & l & -> & S4 & M4 & R4 & W & Hok).
  assert (Rp : ep_order_registry p3 = ep_order_registry p) by (rewrite R3, R2; done).
  exists ok, w', p', (s :: l). split; [done|]. split; [|split; [done|split; [congruence|split]]].
  - transitivity (with_clearing p c'); [by split|]. by rewrite S2, S3.
  - destruct W as (W1 & W2 & W3 & W4). split_and!; try done. simpl in W1. by rewrite W1, <- app_assoc.
  - destruct ok.
    + destruct Hok as (H1' & H2' & H3' & H4'). split_and!; [done|done|simpl; lia|by constructor].
    + destruct Hok as [Ha Hok]. split; [done|]. destruct Hok as [Hok|[Hok (u & Hu & Hn)]]; [by left|right]. split; [done|].
      exists u. split; [apply elem_of_cons; by right|]. unfold has_owners in *. by rewrite Rp in Hn.
Qed.

(** ** Resting orders *)

Lemma clear_loop_spec (symbol : string) (users : list string) : forall r,
  let r' := foldl (fun r u => Risk_clear_user_resting_orders r symbol u) r users in
  risk_core r r' /\ re_accounts r' = re_accounts r /\
  resting_orders_for r' symbol =
    List.filter (fun o => negb (bool_decide (rv_user_id o ∈ users))) (resting_orders_for r symbol).
Proof using Type.
  induction users as [|u users IH]; intros r; simpl.
  { split_and!; try done. symmetry. apply List.forallb_filter_id.
    by apply List.forallb_forall. }
  destruct (IH (Risk_clear_user_resting_orders r symbol u)) as (C & A1 & E).
  assert (Hone : risk_core r (Risk_clear_user_resting_orders r symbol u) /\
    re_accounts (Risk_clear_user_resting_orders r symbol u) = re_accounts r /\
    resting_orders_for (Risk_clear_user_resting_orders r symbol u) symbol =
      List.filter (fun o => negb (bool_decide (rv_user_id o = u))) (resting_orders_for r symbol)).
  { unfold Risk_clear_user_resting_orders, resting_orders_for.
    destruct (re_resting_orders r !! symbol) as [l|] eqn:El; simpl; [|by rewrite El].
    by rewrite lookup_insert_eq. }
  destruct Hone as (C1 & A2 & E1). split_and!; [by etransitivity|congruence|].
  rewrite E, E1, filter_filter_and. apply List.filter_ext. intros o.
  destruct (decide (rv_user_id o = u)) as [Hu|Hu], (decide (rv_user_id o ∈ users)) as [Hi|Hi];
    rewrite ?(bool_decide_eq_true_2 (rv_user_id o = u)), ?(bool_decide_eq_false_2 (rv_user_id o = u)),
      ?(bool_decide_eq_true_2 (rv_user_id o ∈ users)), ?(bool_decide_eq_false_2 (rv_user_id o ∈ users)) by done;
    symmetry; simpl; rewrite ?negb_true_iff, ?negb_false_iff, ?bool_decide_eq_true, ?bool_decide_eq_false, elem_of_cons; tauto.
Qed.

Lemma track_loop_spec (symbol : string) (registry : gmap string ManagedOrder) (resting : list RestingOrderView) :
  forall r users, let '(r', users') := track_loop symbol registry resting r users in
  risk_core r r' /\ re_accounts r' = re_accounts r /\
  resting_orders_for r' symbol = resting_orders_for r symbol ++ omap (owner_view registry) resting /\
  users ⊆ users' /\ forall o, o ∈ omap (owner_view registry) resting -> rv_user_id o ∈ users'.
Proof using Type.
  clear dependent unordered std_sort.
  induction resting as [|v resting IH]; intros r users; simpl.
  { rewrite app_nil_r. split_and!; try done. by intros o ?%not_elem_of_nil. }
  change (owner_view registry v) with (m ← registry !! rv_order_id v;
    Some (mkRiskResting (mo_user_id m) (to_risk_side (mo_side m)) (Orderbook.rv_price v) (rv_open_quantity v))).
  destruct (registry !! rv_order_id v) as [m|]; simpl; [|apply IH].
  set (o := mkRiskResting _ _ _ _). specialize (IH (Risk_track_resting_order r symbol o) ({[mo_user_id m]} ∪ users)).
  destruct (track_loop _ _ _ _ _) as [r' users']. destruct IH as (C & A1 & E & U & HU).
  split_and!; [done|done| |set_solver|].
  - rewrite E. unfold resting_orders_for at 1. simpl. rewrite lookup_insert_eq. simpl. by rewrite <- app_assoc.
  - intros x [->|Hx]%elem_of_cons; [simpl; set_solver|by apply HU].
Qed.

(** What a completed synchronisation establishes. *)
Definition aligned p : Prop := exists views, Engine_resting_orders (ep_matching p) = Ret views /\
  resting_orders_for (ep_risk p) (ep_symbol p) = omap (owner_view (ep_order_registry p)) views.

Lemma sync_resting_spec (n : Z) p : pipeline_inv n p ->
  exists p', sync_resting_orders unordered p = Ret p' /\ pipeline_inv n p' /\ aligned p' /\
    ep_symbol p' = ep_symbol p /\ ep_matching p' = ep_matching p /\ ep_clearing p' = ep_clearing p /\
    ep_order_registry p' = ep_order_registry p /\ ep_gateway p' = ep_gateway p /\
    re_markets (ep_risk p') = re_markets (ep_risk p) /\ re_audit_history (ep_risk p') = re_audit_history (ep_risk p).
Proof using Type*.
  intros [[I1 I2 I3 I4 I5 I6] [C O R S Tr]]. unfold sync_resting_orders.
  destruct (resting_orders_spec (ep_matching p)) as (views & Ev & _); [by destruct I5|].
  rewrite Ev, bind_ret.
  destruct (clear_loop_spec (ep_symbol p) (unordered (elements (ep_resting_users p))) (ep_risk p)) as (C1 & A1 & E1).
  set (r1 := foldl _ _ _) in *. pose proof (track_loop_spec (ep_symbol p) (ep_order_registry p) views r1 ∅) as T.
  destruct (track_loop _ _ _ _ _) as [r2 users]. destruct T as (C2 & A2 & E2 & _ & HU).
  assert (Hnil : resting_orders_for r1 (ep_symbol p) = []).
  { rewrite E1. apply list_filter_none. intros o Ho. rewrite negb_false_iff, bool_decide_eq_true.
    rewrite unordered_perm. apply elem_of_elements. by apply I6. }
  rewrite Hnil in E2. simpl in E2. pose proof (transitivity C1 C2) as C3.
  eexists. split; [done|]. split; [split|].
  - split; simpl; try done.
    + by apply (risk_inv_core (ep_risk p)).
    + destruct C3 as (-> & _). done.
    + intros o Ho. apply HU. rewrite <- E2. by apply list_elem_of_In.
  - split; simpl; try done. intros u s Hu. destruct (S u s Hu) as [Hn|Hk]; [by left|right]. simpl. by rewrite A2, A1.
  - split; [by exists views|]. destruct C3 as (? & _ & _ & ?). by split_and!.
Qed.

(** ** The reference prices *)

Lemma refresh_spec (n : Z) p (m : MarketState) : pipeline_inv n p -> re_markets (ep_risk p) !! ep_symbol p = Some m ->
  exists p', refresh_market_reference p = Ret p' /\ pipeline_inv n p' /\
    ep_symbol p' = ep_symbol p /\ ep_matching p' = ep_matching p /\ ep_clearing p' = ep_clearing p /\
    ep_order_registry p' = ep_order_registry p /\ ep_gateway p' = ep_gateway p /\
    re_resting_orders (ep_risk p') = re_resting_orders (ep_risk p) /\
    re_audit_history (ep_risk p') = re_audit_history (ep_risk p).
Proof using Type*.
  intros [[I1 I2 I3 I4 I5 I6] [C O R S T]] Em. unfold refresh_market_reference. cbv zeta.
  set (bid := match ds_bids (Engine_snapshot (ep_matching p) 1) with
              | level :: _ => bl_price level | [] => ep_best_bid p end).
  set (ask := match ds_asks (Engine_snapshot (ep_matching p) 1) with
              | level :: _ => bl_price level | [] => ep_best_ask p end).
  simpl ep_risk. simpl ep_symbol. pose proof (top_inv (ep_risk p) (ep_symbol p) bid ask I3) as HT.
  unfold Risk_update_top_of_book in *. rewrite Em in *. rewrite bind_ret. destruct HT as [HT Hh].
  eexists. split; [done|]. split; [split; split; simpl; try done|done].
  - intros s x [[<- _]|[_ Hx]]%lookup_insert_Some; [done|by apply (I4 s x)].
Qed.

(** ** Executing an order that holds funds *)

Definition owned (registry : gmap string ManagedOrder) (b : Book) : Prop := forall o, o ∈ book_orders b ->
  exists m, registry !! ro_order_id o = Some m /\ mo_side m = ro_side o.

Definition managed_of (o : ParsedOrder) : ManagedOrder :=
  mkManaged (po_user_id o) (po_symbol o) (po_matching_side o) (hold_id_for (po_order_id o)).

(** The registry while the order is matched. *)
Definition tracked_registry p (o : ParsedOrder) : gmap string ManagedOrder :=
  <[po_order_id o := managed_of o]> (ep_order_registry p).

Definition resting_ids (b : Book) : list string := map ro_order_id (book_orders b).

(** How the execution of [o], whose hold was taken in [p], may end. *)
Record executed p (o : ParsedOrder) (w : WorkflowResult) p' : Prop := {
  ex_spec := spec_submit (view (ep_matching p)) (to_matching_request o);
  ex_result : wf_match_result w = ex_spec.1;
  ex_book : view (ep_matching p') = ex_spec.2;
  ex_end : match wf_status w with
    | kMatchingRejected =>
      mr_accepted ex_spec.1 = false /\ mr_trades ex_spec.1 = [] /\ wf_settlements w = [] /\ aligned p' /\
      ep_order_registry p' = delete (po_order_id o) (ep_order_registry p)
    | kCompleted =>
      Forall (fun s => settlement_ok s = true) (wf_settlements w) /\
      length (wf_settlements w) = length (mr_trades ex_spec.1) /\ wf_accepted w = mr_accepted ex_spec.1 /\ aligned p' /\
      forall id m, ep_order_registry p' !! id = Some m <->
        tracked_registry p o !! id = Some m /\ id ∈ resting_ids ex_spec.2
    | kSettlementRejected => wf_accepted w = false /\ ep_order_registry p' = tracked_registry p o
    | kWorkflowInvariantViolation =>
      wf_accepted w = false /\ ep_order_registry p' = tracked_registry p o /\
      exists t, t ∈ mr_trades ex_spec.1 /\
        ~ (is_Some (tracked_registry p o !! tr_maker_order_id t) /\ is_Some (tracked_registry p o !! tr_taker_order_id t))
    | _ => False
    end
}.

Lemma base_inv_matching (n : Z) p (e : Engine A) : base_inv n p -> engine_rel e (view e) ->
  base_inv n (with_matching p e).
Proof using Type. intros [] R. by split. Qed.

Lemma money_inv_matching p (e : Engine A) (X : list string) : money_inv X p -> money_inv X (with_matching p e).
Proof using Type. intros []. by split. Qed.

Lemma rel_view (e : Engine A) (b : Book) : engine_rel e b -> engine_rel e (view e) /\ view e = b.
Proof using Type. intros (I & E & <- & W). by split. Qed.

(** The ids that are live are those of the book. *)
Lemma live_ids_spec p : engine_rel (ep_matching p) (view (ep_matching p)) ->
  exists views, Engine_resting_orders (ep_matching p) = Ret views /\
    forall id, id ∈ (list_to_set (map rv_order_id views) : gset string) <-> id ∈ resting_ids (view (ep_matching p)).
Proof using Type*.
  intros (I & _). destruct (resting_orders_spec (ep_matching p) I) as (views & E & _ & P). exists views. split; [done|].
  intros id. rewrite elem_of_list_to_set. unfold resting_ids, book_orders. simpl.
  assert (Em : map rv_order_id views ≡ₚ
    map ro_order_id (makers (ep_matching p) kBid ++ makers (ep_matching p) kAsk)).
  { rewrite P, map_map. done. }
  by rewrite Em.
Qed.

Lemma tracked_all p : registry_ok p -> forall id m, ep_order_registry p !! id = Some m ->
  id ∈ tracked_orders unordered p.
Proof using Type*.
  intros R id m Hm. unfold tracked_orders. apply list_elem_of_In, filter_In. rewrite <- list_elem_of_In.
  split; [|rewrite Hm; destruct (R id m Hm) as (_ & -> & _); by apply bool_decide_eq_true_2].
  rewrite unordered_perm. apply list_elem_of_fmap. exists (id, m). split; [done|]. by apply elem_of_map_to_list.
Qed.

(** What the later stages keep of the workflow and of the pipeline. *)
Record carried p (w : WorkflowResult) p' (w' : WorkflowResult) : Prop := {
  ca_symbol : ep_symbol p' = ep_symbol p;
  ca_gateway : ep_gateway p' = ep_gateway p;
  ca_history : re_audit_history (ep_risk p') = re_audit_history (ep_risk p);
  ca_route : wf_route_result w' = wf_route_result w;
  ca_decision : wf_risk_decision w' = wf_risk_decision w
}.

Lemma carried_step p p' (w w' : WorkflowResult) : money_step p p' -> wf_route_result w' = wf_route_result w ->
  wf_risk_decision w' = wf_risk_decision w -> carried p w p' w'.
Proof using Type. intros [] ? ?. split; try done. by destruct mn_risk0 as (_ & _ & _ & ?). Qed.

Lemma carried_trans p (w : WorkflowResult) p' w' p'' w'' :
  carried p w p' w' -> carried p' w' p'' w'' -> carried p w p'' w''.
Proof using Type. intros [] []. split; congruence. Qed.

(** The order was refused by the engine: its hold is given back. *)
Lemma rejected_match_spec (n : Z) p (o : ParsedOrder) (w : WorkflowResult) :
  pipeline_inv n p -> ep_order_registry p !! po_order_id o = Some (managed_of o) ->
  - two63 <= po_timestamp_ms o + 1 < two63 ->
  exists w' p', handle_rejected_match tid unordered p o (hold_id_for (po_order_id o)) w = Ret (true, w', p') /\
    pipeline_inv n p' /\ aligned p' /\ carried p w p' w' /\ ep_matching p' = ep_matching p /\
    ep_order_registry p' = delete (po_order_id o) (ep_order_registry p) /\
    wf_status w' = kMatchingRejected /\ wf_match_result w' = wf_match_result w /\ wf_settlements w' = wf_settlements w /\
    exists closed, released tid (ep_clearing p) closed (ep_clearing p') /\
      Forall (fun x => x.1 = hold_id_for (po_order_id o)) closed.
Proof using Type*.
  intros [Ib Im] Hreg Ht. unfold handle_rejected_match, add_i64. rewrite checked_i64_ret, bind_ret by done.
  destruct (release_residual_spec p _ _ (po_timestamp_ms o + 1) [] Im Hreg) as (p1 & E1 & S1 & R1 & M1 & _ & Hz & _).
  simpl mo_hold_id in E1. rewrite E1, bind_ret. simpl negb. cbn match.
  destruct (release_residual_ledger tid _ _ _ _ _ E1 eq_refl) as (closed & Rl & Fl & _).
  pose proof (forget_order p1 (po_order_id o) _ M1 Hz) as M2. simpl mo_user_id in M2.
  destruct (sync_account_spec _ _ _ M2) as (S3 & M3 & Ec3 & R3).
  set (p3 := sync_account_state _ _) in *.
  assert (S : money_step p p3) by (rewrite S1; rewrite (forget_step p1 (po_order_id o)); exact S3).
  destruct (sync_resting_spec n p3) as (p4 & -> & I4 & A4 & E4 & Em & Ec & Er & Eg & _ & Eh).
  { split; [by apply (base_inv_step n p)|done]. }
  rewrite bind_ret. eexists _, p4. split; [done|]. split_and!; try done.
  - destruct S as [X1 _ _ X2 _ (_ & _ & _ & X3) _ _]. split; simpl; congruence.
  - destruct S. congruence.
  - rewrite Er, R3. simpl. by rewrite R1.
  - exists closed. by rewrite Ec, Ec3.
Qed.

(** The end of an order whose trades are settled: closed orders leave the registry,
    resting orders and prices go to the risk engine, the outputs are filled in. *)
Lemma close_orders_spec (n : Z) p (o : ParsedOrder) (w : WorkflowResult) (mk : MarketState) :
  pipeline_inv n p -> - two63 <= po_timestamp_ms o < two63 - 2 -> re_markets (ep_risk p) !! ep_symbol p = Some mk ->
  exists w' p',
    ('(released, w, p) ← release_closed_orders tid unordered p o w;
     if negb released then Ret (w, p)
     else
       p ← sync_resting_orders unordered p;
       p ← refresh_market_reference p;
       Ret (populate_market_outputs p (set_status w kCompleted (wf_error_detail w)), p)) = Ret (w', p') /\
    pipeline_inv n p' /\ aligned p' /\ carried p w p' w' /\ ep_matching p' = ep_matching p /\
    wf_status w' = kCompleted /\ wf_settlements w' = wf_settlements w /\ wf_accepted w' = wf_accepted w /\
    wf_match_result w' = wf_match_result w /\
    (forall id m, ep_order_registry p' !! id = Some m <->
      ep_order_registry p !! id = Some m /\ id ∈ resting_ids (view (ep_matching p))) /\
    exists closed, released tid (ep_clearing p) closed (ep_clearing p') /\
      Forall (fun x => exists id, x.1 = hold_id_for id /\ is_Some (ep_order_registry p !! id) /\
                id ∉ resting_ids (view (ep_matching p))) closed.
Proof using Type*.
  intros I Ht Hmk. unfold release_closed_orders.
  destruct (live_ids_spec p (bi_matching _ _ (proj1 I))) as (views & -> & Hlive). rewrite bind_ret.
  set (live := list_to_set _) in *.
  destruct (release_loop_spec o live w ltac:(lia) (tracked_orders unordered p) p (proj2 I))
    as (p3 & E3 & S3 & M3 & R3 & _). rewrite E3, bind_ret. simpl negb. cbn match.
  destruct (release_loop_ledger tid o live _ w p _ _ _ E3 eq_refl) as (closed & Rl & Fl).
  assert (I3 : pipeline_inv n p3) by (split; [by apply (base_inv_step n p); [|apply I]|done]).
  destruct (sync_resting_spec n p3 I3) as (p4 & -> & I4 & (v4 & V4 & A4) & E4 & Em4 & Ec4 & Er4 & Eg4 & Emk4 & Eh4). rewrite bind_ret.
  destruct S3 as [X1 X2 X3 X4 X5 (Y1 & Y2 & Y3 & Y4) X6 X7].
  destruct (refresh_spec n p4 mk I4) as (p5 & -> & I5 & E5 & Em5 & Ec5 & Er5 & Eg5 & Erst5 & Eh5).
  { rewrite Emk4, E4. by rewrite Y1, X1. }
  rewrite bind_ret. eexists _, p5. split; [done|]. split; [done|]. split_and!; try done.
  - exists v4. rewrite Em5. split; [done|]. unfold resting_orders_for in *. rewrite Erst5, E5, Er5, Er4. by rewrite A4, Er4.
  - split; simpl; congruence.
  - congruence.
  - intros id m. rewrite Er5, Er4, R3, Hlive.
    split; intros [Hm Hi]; (split; [done|]); [|by left]. destruct Hi as [Hi|Hi]; [done|].
    exfalso. apply Hi. by apply (tracked_all p (mi_registry _ _ (proj2 I)) id m).
  - exists closed. rewrite Ec5, Ec4. split; [done|]. eapply Forall_impl; [exact Fl|].
    intros x (id & m & Hi & Hm & Hx). exists id. rewrite <- Hlive.
    split_and!; [|by eexists|done]. rewrite Hx. by apply (mi_registry _ _ (proj2 I) id m).
Qed.

(** The fill a trade of [o] is to be settled with: the price and quantity of the
    trade, the owner of [o] on one side and the maker's on the other, each with the
    hold of the order's id. *)
Definition settlement_fill (symbol : string) (o : ParsedOrder) (maker : ManagedOrder) (t : Trade) : TradeFill :=
  let id := tr_maker_order_id t +:+ "->" +:+ po_order_id o in
  let maker_hold := hold_id_for (tr_maker_order_id t) in
  let own_hold := hold_id_for (po_order_id o) in
  match po_matching_side o with
  | kBuy => mkFill id symbol (po_user_id o) (mo_user_id maker) own_hold maker_hold
      (tr_price t) (tr_quantity t) true (po_timestamp_ms o)
  | kSell => mkFill id symbol (mo_user_id maker) (po_user_id o) maker_hold own_hold
      (tr_price t) (tr_quantity t) false (po_timestamp_ms o)
  end.

(** The ledger calls of the execution of [o], from the ledger [c] that has its hold:
    the trades are settled in order, as many as the status says, and then only
    holds of orders that are gone are released. *)
Definition exec_ledger p c (o : ParsedOrder) (w : WorkflowResult) p' : Prop :=
  let trades := mr_trades (wf_match_result w) in
  exists l closed,
    clearing_run tid c (settles (ep_fee_schedule p) l ++ releases closed) =
      Ret (wf_settlements w ++ replicate (length closed) (settlement_status kApplied), ep_clearing p') /\
    Forall2 (fun t f => exists maker, tracked_registry p o !! tr_maker_order_id t = Some maker /\
               f = settlement_fill (ep_symbol p) o maker t) (take (length l) trades) l /\
    match wf_status w with
    | kCompleted => length l = length trades /\
        Forall (fun x => exists id, x.1 = hold_id_for id /\ is_Some (tracked_registry p o !! id) /\
                  id ∉ resting_ids (view (ep_matching p'))) closed
    | kMatchingRejected => l = [] /\ Forall (fun x => x.1 = hold_id_for (po_order_id o)) closed
    | _ => closed = []
    end.

Lemma run_then_release c c1 p' (fees : FeeSchedule) (l : list TradeFill) (rs : list SettlementResult)
    (closed : list (string * Z)) :
  clearing_run tid c (settles fees l) = Ret (rs, c1) -> released tid c1 closed (ep_clearing p') ->
  clearing_run tid c (settles fees l ++ releases closed) =
    Ret (rs ++ replicate (length closed) (settlement_status kApplied), ep_clearing p').
Proof using Type. intros E R. by rewrite (clearing_run_app tid _ _ _ _ _ E), R, bind_ret. Qed.

(** The fills of the loop are the expected ones. *)
Lemma fills_expected p pm (o : ParsedOrder) (trades : list Trade) (l : list TradeFill) :
  registry_ok pm -> ep_order_registry pm = tracked_registry p o -> ep_symbol pm = ep_symbol p ->
  Forall (fun t => tr_taker_order_id t = po_order_id o) trades ->
  Forall2 (fills pm o) trades l ->
  Forall2 (fun t f => exists maker, tracked_registry p o !! tr_maker_order_id t = Some maker /\
             f = settlement_fill (ep_symbol p) o maker t) trades l.
Proof using Type.
  intros R Er Es HT. induction 1 as [|t f trades l Hf Hfs IH]; constructor; apply Forall_cons in HT as [Ht HT]; [|by apply IH].
  destruct Hf as (maker & taker & Hm & Htk & ->). exists maker. rewrite <- Er. split; [done|].
  destruct (R _ _ Hm) as (Hh & _). rewrite Ht, Er in Htk. unfold tracked_registry in Htk.
  rewrite lookup_insert_eq in Htk. injection Htk as <-. unfold fill_of, settlement_fill, trade_id_of.
  rewrite Hh, Es, Ht. simpl. by destruct (po_matching_side o).
Qed.

Lemma execute_order_spec (n : Z) p (c' : AccountClearingSystem B) (o : ParsedOrder) (w : WorkflowResult) :
  let hold := hold_id_for (po_order_id o) in
  let pt := track_managed_order (with_clearing p c') o hold in
  pipeline_inv n p -> money_inv [] pt -> money_step p pt -> request_ok (to_matching_request o) ->
  - two63 <= po_timestamp_ms o < two63 - 2 -> is_Some (re_markets (ep_risk p) !! ep_symbol p) ->
  wf_settlements w = [] ->
  exists w' p', execute_order tid unordered (with_clearing p c') o hold w = Ret (w', p') /\
    pipeline_inv n p' /\ executed p o w' p' /\ carried p w p' w' /\ exec_ledger p c' o w' p'.
Proof using Type*.
  intros hold pt [Ib _] Mt St Hok Ht [mk Hmk] Hw. unfold execute_order. fold hold pt.
  assert (Ec : ep_clearing pt = c') by exact (proj1 (sync_clearing (with_clearing p c') (po_user_id o))).
  assert (Et : ep_order_registry pt = tracked_registry p o).
  { unfold pt, track_managed_order, sync_account_state. by destruct (Clearing_account _ _). }
  assert (Rt : registry_ok pt) by apply Mt.
  pose proof (base_inv_step n p pt St Ib) as Bt. clearbody pt. subst hold.
  destruct (submit_spec tid (ep_matching pt) (view (ep_matching pt)) (to_matching_request o)
    (bi_matching _ _ Bt) Hok) as (e & -> & Re). apply rel_view in Re as [Re Ve]. rewrite bind_ret.
  rewrite (mn_matching _ _ St) in *. set (x := spec_submit _ _) in *.
  set (w1 := set_accepted (set_match w x.1) (mr_accepted x.1)).
  set (pm := with_matching pt e).
  assert (Im : pipeline_inv n pm) by (split; [by apply base_inv_matching|by apply money_inv_matching]).
  assert (Hid : ep_order_registry pm !! po_order_id o = Some (managed_of o)).
  { simpl. rewrite Et. apply lookup_insert_eq. }
  assert (Cm : carried p w pm w1) by (destruct St as [X1 _ _ X2 _ (_ & _ & _ & X3) _ _]; by split).
  destruct (negb (mr_accepted x.1) && bool_decide (mr_trades x.1 = [])) eqn:Erej.
  { apply andb_true_iff in Erej as [Ea%negb_true_iff Etr%bool_decide_eq_true].
    destruct (rejected_match_spec n pm o w1 Im Hid ltac:(lia))
      as (w' & p' & -> & I' & A' & C' & Em & Er & Hs & Hm & Hl & closed & Rl & Fl). rewrite bind_ret.
    exists w', p'. split; [done|]. split; [done|].
    split; [|split; [by apply (carried_trans _ _ pm w1)|]].
    2: { exists [], closed. rewrite Hl, Hs. simpl in Rl. rewrite Ec in Rl. split_and!; try done.
         simpl wf_settlements. rewrite Hw. exact (run_then_release _ _ _ _ [] [] _ eq_refl Rl). }
    split; [by rewrite Hm|by rewrite Em|]. rewrite Hs, Hl. split_and!; try done.
    rewrite Er. simpl. rewrite Et. apply delete_insert_eq. }
  unfold settle_trades.
  destruct (settle_loop_spec o (mr_trades (wf_match_result w1)) w1 pm (proj2 Im))
    as (ok & w2 & p2 & l & E2 & S2 & M2 & R2 & (W1 & W2 & W3 & W4) & Hok2). rewrite E2, bind_ret. cbn match.
  destruct (settle_loop_ledger tid o _ _ _ _ _ _ E2) as (fl & rs & Ers & Hrs & Hfl & Hlen2).
  rewrite W1 in Hrs. apply app_inv_head in Hrs as <-.
  simpl in Ers. rewrite Ec, (mn_fees _ _ St) in Ers.
  assert (HT : Forall (fun t => tr_taker_order_id t = po_order_id o) (mr_trades x.1)).
  { pose proof (submit_trades (view (ep_matching p)) (to_matching_request o)) as HT.
    eapply Forall_impl; [exact HT|]. by intros t (? & _). }
  apply (fills_expected p pm o) in Hfl; [|done|done|by destruct St|by apply Forall_take].
  assert (I2 : pipeline_inv n p2) by (split; [by apply (base_inv_step n pm); [|apply Im]|done]).
  pose proof (carried_step pm p2 w1 w2 S2 W3 W4) as C2. pose proof (carried_trans _ _ _ _ _ _ Cm C2) as C2'.
  assert (Ve2 : view (ep_matching p2) = x.2) by by rewrite (mn_matching _ _ S2).
  simpl in W1, W2. rewrite Hw in W1. simpl in R2. rewrite Et in R2. simpl in W1.
  destruct ok; simpl negb; cbn match.
  2: { exists w2, p2. split; [done|]. split; [done|]. split; [|split; [done|]].
       2: { exists fl, []. rewrite W1, W2. split_and!; [|done|by destruct Hok2 as [_ [->|[-> _]]]].
            by apply (run_then_release _ _ _ _ _ _ [] Ers). }
       split; [done|done|].
       destruct Hok2 as [Ha [->|[-> (t & Hin & Hn)]]]; [done|]. split_and!; try done. exists t. split; [done|].
       unfold has_owners in Hn. simpl in Hn. by rewrite Et in Hn. }
  destruct Hok2 as (Hst & Hac & Hlen & HFl).
  destruct (close_orders_spec n p2 o w2 mk I2 Ht) as (w' & p5 & -> & I5 & A5 & C5 & Vm & T1 & T2 & T3 & T4 & Hreg & closed & Rl & Fl).
  { destruct S2 as [X2 _ _ _ _ (Y2 & _) _ _], St as [X3 _ _ _ _ (Y3 & _) _ _].
    simpl in X2, Y2. by rewrite Y2, Y3, X2, X3. }
  exists w', p5. split; [done|]. split; [done|].
  split; [split|split; [by apply (carried_trans _ _ _ _ _ _ C2')|]].
  - by rewrite T4.
  - by rewrite Vm.
  - rewrite T1, T2, T3, W1. split_and!; try done. intros id m. by rewrite Hreg, R2, Ve2.
  - exists fl, closed. rewrite T1, T2, T4, Vm, W1, W2. split; [by apply (run_then_release _ _ _ _ _ _ _ Ers)|].
    split; [done|]. split; [by apply Hlen2|]. rewrite R2 in Fl. exact Fl.
Qed.

(** ** Submitting *)

(** The order a payload describes, whatever its backend. *)
Definition order_of (request : GatewayRequest) : option ParsedOrder :=
  order_of_fields (fields_of (gq_payload request)) (make_forwarded_request request kRisk).

Definition rejected_early (s : WorkflowStatus) : bool :=
  match s with kRouteRejected | kParseRejected | kRiskRejected | kClearingRejected => true | _ => false end.

(** Nothing but the gateway, the request windows and the audit log has changed. *)
Record untouched p (w : WorkflowResult) p' : Prop := {
  un_matching : ep_matching p' = ep_matching p;
  un_clearing : ep_clearing p' = ep_clearing p;
  un_registry : ep_order_registry p' = ep_order_registry p;
  un_accounts : re_accounts (ep_risk p') = re_accounts (ep_risk p);
  un_resting : re_resting_orders (ep_risk p') = re_resting_orders (ep_risk p);
  un_accepted : wf_accepted w = false;
  un_trades : mr_trades (wf_match_result w) = [];
  un_settlements : wf_settlements w = []
}.

(** The risk engine approved [o] in [p]. *)
Definition approved p (o : ParsedOrder) (d : RiskDecision) : Prop :=
  rd_accepted d = true /\ po_symbol o = ep_symbol p /\ exists m, re_markets (ep_risk p) !! ep_symbol p = Some m /\
    d = rules_decision (ep_risk p) (to_risk_request o) m.

(** The amount reserved for [o]: its quantity if it sells; if it buys, the reference
    price times the quantity and the taker's fee on top, the reference being the
    limit unless the order has none. *)
Definition reservation p (o : ParsedOrder) (amount : double) : Prop :=
  amount = reserve_amount p o /\
  match po_matching_side o with
  | kSell => amount = po_quantity o
  | kBuy => po_matching_type o = kLimit -> dle (po_price o) dzero = false ->
      amount = dmul (dmul (po_price o) (po_quantity o))
        (dadd done_ (ddiv (fs_taker_fee_bps (ep_fee_schedule p)) (double_of_Z 10000)))
  end.

(** What the submission of [o] does to the ledger. *)
Definition ledgered p (o : ParsedOrder) (w : WorkflowResult) p' : Prop :=
  exists amount c, reservation p o amount /\
    freeze tid (side_asset (po_matching_side o)) (ep_clearing p) (po_user_id o) (hold_id_for (po_order_id o))
      amount (po_timestamp_ms o) = Ret (kApplied, c) /\
    exec_ledger p c o w p'.

Lemma reserve_reservation p p2 (o : ParsedOrder) : ep_matching p2 = ep_matching p ->
  ep_best_ask p2 = ep_best_ask p -> ep_fee_schedule p2 = ep_fee_schedule p -> reservation p o (reserve_amount p2 o).
Proof using Type.
  intros E1 E2 E3. unfold reservation, reserve_amount. rewrite E1, E2, E3. split; [done|].
  destruct (po_matching_side o); [|done]. intros Ht Hp. by rewrite Hp, bool_decide_eq_false_2 by congruence.
Qed.

Lemma exec_ledger_ext p p2 c (o : ParsedOrder) (w : WorkflowResult) p' : ep_symbol p2 = ep_symbol p ->
  ep_fee_schedule p2 = ep_fee_schedule p -> ep_order_registry p2 = ep_order_registry p ->
  exec_ledger p2 c o w p' -> exec_ledger p c o w p'.
Proof using Type. unfold exec_ledger, tracked_registry. by intros -> -> ->. Qed.

Record submitted (n : Z) p (request : GatewayRequest) (w : WorkflowResult) p' : Prop := {
  su_inv : pipeline_inv (n + 1) p';
  su_symbol : ep_symbol p' = ep_symbol p;
  su_early : rejected_early (wf_status w) = true -> untouched p w p';
  su_late : rejected_early (wf_status w) = false -> exists o, order_of request = Some o /\
    approved p o (wf_risk_decision w) /\ executed p o w p';
  su_ledger : rejected_early (wf_status w) = false -> forall o, order_of request = Some o -> ledgered p o w p';
  su_audit : exists ds, re_audit_history (ep_risk p') = re_audit_history (ep_risk p) ++ ds /\
    match wf_status w with
    | kRouteRejected => rt_accepted (wf_route_result w) = false /\ ds = []
    | kParseRejected => rt_accepted (wf_route_result w) = true /\ order_of request = None /\ ds = []
    | kRiskRejected => rt_accepted (wf_route_result w) = true /\ rd_accepted (wf_risk_decision w) = false /\
        ds = [wf_risk_decision w]
    | kClearingRejected => rt_accepted (wf_route_result w) = true /\
        exists d o st, ds = [d] /\ rd_accepted d = true /\ order_of request = Some o /\
          wf_risk_decision w = hold_rejected d st (po_matching_side o)
    | _ => rt_accepted (wf_route_result w) = true /\ ds = [wf_risk_decision w]
    end
}.

Lemma executed_start p p1 (o : ParsedOrder) (w : WorkflowResult) p' : ep_matching p1 = ep_matching p ->
  ep_order_registry p1 = ep_order_registry p -> executed p1 o w p' -> executed p o w p'.
Proof using Type.
  intros E1 E2 [x Hr Hb He]. subst x. unfold tracked_registry in *. rewrite E1, E2 in *. by split.
Qed.

Lemma order_fin (request : GatewayRequest) (o : ParsedOrder) : order_of request = Some o ->
  request_ok (to_matching_request o) /\ po_timestamp_ms o = gq_timestamp_ms request.
Proof using Type.
  intros Ho%order_of_fields_spec. destruct (parsed_fin _ _ _ Ho). split; [done|]. by rewrite (pf_time _ _ _ Ho).
Qed.

(** Routing leaves the request, and nothing else, to be polled. *)
Lemma route_request_spec (n : Z) p (request : GatewayRequest) : pipeline_inv n p ->
  gq_timestamp_ms request < two63 -> n + 2 < two64 ->
  exists f w p', route_request p request WorkflowResult_new = Ret (f, w, p') /\ pipeline_inv (n + 1) p' /\
    (exists g, p' = with_gateway p g) /\ wf_settlements w = [] /\ wf_accepted w = false /\
    mr_trades (wf_match_result w) = [] /\ wf_error_detail w = "" /\
    match f with
    | None => wf_status w = kRouteRejected /\ rt_accepted (wf_route_result w) = false
    | Some f => wf_status w = kCompleted /\ rt_accepted (wf_route_result w) = true /\ 0 < gq_timestamp_ms request /\
        exists b, f = make_forwarded_request request b
    end.
Proof using Type*.
  intros [[(c & G & Hc) I2 I3 I4 I5 I6] M] Ht Hn. unfold route_request.
  destruct (route_spec (ep_gateway p) [] c request G Ht ltac:(lia)) as (r & g & -> & Rt). rewrite bind_ret.
  destruct Rt as [fwd Ri _ Rs _ _ Ra _]. subst fwd. cbv zeta.
  assert (HI : forall g', gateway_inv g' [] c -> gw_broadcaster g' = gw_broadcaster g ->
    pipeline_inv (n + 1) (with_gateway p g')).
  { intros g' G' Hb. split; [|by destruct M]. split; simpl; try done; [by exists c|]. rewrite Hb. lia. }
  destruct (rt_accepted r) eqn:Er; simpl negb; cbn match.
  - destruct (Ra eq_refl) as (_ & route & Ad & _). simpl in Ri.
    destruct (pop_front (gw_ingress_queue g) _ [] (gv_queue _ _ _ Ri)) as (q & Eq & Hq & Hroom).
    unfold Gateway_poll_forwarded_request. simpl. rewrite Eq, !bind_ret.
    eexists (Some _), _, _. split; [done|].
    assert (Gi : gateway_inv (set_ingress g q (gw_broadcaster g)) [] c).
    { destruct Ri as [? Rroom ? ? ? ?]. split; simpl; try done. by rewrite Hroom. }
    split; [exact (HI _ Gi eq_refl)|]. split; [by eexists|]. split_and!; try done.
    + pose proof (ad_shape _ _ _ _ _ Ad) as Hs. unfold has_valid_request_shape in Hs.
      rewrite !andb_true_iff, Z.ltb_lt in Hs. tauto.
    + by eexists.
  - eexists None, _, _. split; [done|]. simpl in Ri. split; [exact (HI g Ri eq_refl)|].
    split; [by eexists|]. by split_and!.
Qed.

Lemma rules_reject_market r (request : RiskOrderRequest) (b : bool) (x y : RiskRejectReason) (s t : string) :
  rd_accepted (make_decision r request false (if b then x else y) (if b then s else t)) = false.
Proof using Type. done. Qed.

(** The risk stage decides, and changes only windows and audit log. *)
Lemma risk_stage_spec (n : Z) p (o : ParsedOrder) (w : WorkflowResult) : pipeline_inv n p ->
  po_timestamp_ms o < two63 ->
  exists d r', Risk_evaluate (ep_risk p) (to_risk_request o) = Ret (d, r') /\
    evaluate_risk_stage p o w = Ret (rd_accepted d,
      (if rd_accepted d then set_decision w d else set_status (set_decision w d) kRiskRejected (wf_error_detail w)),
      with_risk p r') /\
    pipeline_inv n (with_risk p r') /\ re_accounts r' = re_accounts (ep_risk p) /\
    re_resting_orders r' = re_resting_orders (ep_risk p) /\ re_markets r' = re_markets (ep_risk p) /\
    re_audit_history r' = re_audit_history (ep_risk p) ++ [d] /\
    (rd_accepted d = true -> approved p o d).
Proof using Type*.
  intros [[I1 I2 I3 I4 I5 I6] [C O R S T]] Ht.
  destruct (evaluate_spec (ep_risk p) (to_risk_request o) I3 Ht) as (d & r' & E & I' & Ea & Em & Hd).
  destruct (evaluate_books _ _ _ _ E) as [Eacc Erest].
  exists d, r'. split; [done|]. split; [|split_and!; try done].
  - unfold evaluate_risk_stage. rewrite E, bind_ret. cbv zeta. by destruct (rd_accepted d).
  - split; split; simpl; try done.
    + by rewrite Em.
    + unfold resting_orders_for in *. by rewrite Erest.
    + intros u s Hu. simpl. rewrite Eacc. by apply S.
  - intros Hacc. simpl kr_symbol in Hd.
    destruct (re_markets (ep_risk p) !! po_symbol o) as [m|] eqn:Emk.
    + destruct (shape_ok (to_risk_request o)); [|destruct Hd as [-> _]; done]. destruct Hd as [-> _].
      pose proof (I4 _ _ Emk) as Hs. split_and!; [done|done|]. exists m. by rewrite <- Hs.
    + destruct Hd as [-> _]. done.
Qed.

Lemma pipeline_submit_spec (n : Z) p (request : GatewayRequest) : pipeline_inv n p ->
  gq_timestamp_ms request < two63 - 2 -> n + 2 < two64 ->
  exists w p', Pipeline_submit tid unordered p request = Ret (w, p') /\ submitted n p request w p'.
Proof using Type*.
  intros I Ht Hn. unfold Pipeline_submit.
  destruct (route_request_spec n p request I ltac:(lia) Hn)
    as (f & w & p1 & -> & I1 & (g & Eg) & Ws & Wa & Wt & Wd & Hf). rewrite bind_ret.
  assert (E1 : ep_matching p1 = ep_matching p /\ ep_clearing p1 = ep_clearing p /\
    ep_order_registry p1 = ep_order_registry p /\ ep_risk p1 = ep_risk p /\ ep_symbol p1 = ep_symbol p /\
    ep_best_ask p1 = ep_best_ask p /\ ep_fee_schedule p1 = ep_fee_schedule p) by by subst p1.
  clear Eg g. destruct E1 as (Em1 & Ec1 & Er1 & Ek1 & Es1 & Eb1 & Ef1).
  destruct f as [f|].
  2: { destruct Hf as [Hs Hr]. exists w, p1. split; [done|]. split; try done.
       - intros _. split; by rewrite ?Ek1.
       - by rewrite Hs.
       - by rewrite Hs.
       - exists []. rewrite Hs, Ek1. by rewrite app_nil_r. }
  destruct Hf as (Hs & Hr & Hpos & (b & ->)). unfold parse_forwarded_request. rewrite parse_order_spec, bind_ret.
  change (order_of_fields _ _) with (order_of request).
  destruct (order_of request) as [o|] eqn:Eo; rewrite bind_ret.
  2: { eexists _, p1. split; [done|]. split; simpl; try done.
       - intros _. split; by rewrite ?Ek1.
       - exists []. rewrite Ek1. by rewrite app_nil_r. }
  destruct (order_fin _ _ Eo) as [Hok Hto].
  destruct (risk_stage_spec (n + 1) p1 o w I1 ltac:(lia)) as (d & r & _ & -> & I2 & Ea & Erest & Emk & Eh & Hap).
  rewrite bind_ret. cbn match. set (p2 := with_risk p1 r) in *.
  assert (Hap' : rd_accepted d = true -> approved p o d) by (intros Hd; specialize (Hap Hd); unfold approved in *; by rewrite <- Ek1, <- Es1).
  rewrite Ek1 in Ea, Erest, Emk, Eh.
  destruct (rd_accepted d) eqn:Ed; simpl negb; cbn match.
  2: { eexists _, p2. split; [done|]. split; simpl; try done.
       - exists [d]. by split_and!. }
  specialize (Hap eq_refl). destruct Hap as (_ & Hsym & m & Hm & _).
  destruct (reserve_spec p2 o (set_decision w d) (proj2 I2) Hsym)
    as [(st & Hst & ->)|(c' & -> & _ & _ & _ & Mt & St & Efr)]; rewrite bind_ret; cbn match.
  { eexists _, p2. split; [done|]. split; simpl; try done.
    - exists [d]. split; [done|]. split; [done|]. exists d, o, st. by split_and!. }
  destruct (execute_order_spec (n + 1) p2 c' o (set_decision w d) I2 Mt St Hok) as (w' & p' & E & I' & X & Ca & Lg).
  { unfold two63 in *. lia. }
  { change (ep_risk p2) with r. rewrite Emk. exists m. change (ep_symbol p2) with (ep_symbol p1). by rewrite <- Ek1. }
  { done. }
  rewrite E. exists w', p'. split; [done|].
  apply (executed_start p) in X; [|done|done]. destruct Ca as [K1 K2 K3 K4 K5]. simpl in K1, K3, K4, K5.
  pose proof (ex_end _ _ _ _ X) as Xe.
  split; [done|congruence| | | |].
  - intros He. exfalso. destruct (wf_status w'); done.
  - intros _. exists o. split; [done|]. rewrite K5. by split; [apply Hap'|].
  - intros _ o' Ho'. rewrite Eo in Ho'. injection Ho' as <-. exists (reserve_amount p2 o), c'. rewrite <- Ec1.
    split; [by apply reserve_reservation|]. split; [exact Efr|]. by apply (exec_ledger_ext p p2).
  - exists [d]. rewrite K3, Eh. split; [done|]. rewrite K4, K5. by destruct (wf_status w').
Qed.

(** ** Construction, configuration and registration *)

Lemma pipeline_new_spec (ingress : QF) (audit : QD) (orders : A) (journal : B) (symbol : string) :
  represents ingress [] -> 1 <= room ingress -> represents audit [] -> 1 <= room audit ->
  outstanding orders ∅ -> outstanding journal ∅ -> symbol <> "" ->
  exists p, Pipeline_new std_sort ingress audit orders journal symbol = Ret p /\ pipeline_inv 0 p /\
    aligned p /\ ep_symbol p = symbol /\ view (ep_matching p) = empty_book /\ ep_order_registry p = ∅ /\
    re_audit_history (ep_risk p) = [].
Proof using Type*.
  intros Hi Hir Hq Hqr Ho Hj Hs. unfold Pipeline_new.
  destruct (new_spec (A := A) orders symbol 4096 Ho Hs ltac:(unfold two63; lia)) as (e & -> & R). rewrite bind_ret.
  rewrite bool_decide_eq_false_2 by done. apply rel_view in R as [R V].
  eexists. split; [done|]. split; [split|split].
  - split; simpl; try done.
    + exists (room ingress). split; [|done]. destruct (gateway_new_inv ingress Hi) as [X1 X2 X3 X4 X5 X6].
      split; simpl; try done. apply sort_sorted.
  - split; simpl; try done.
    + exists (from_start (init_accounts [])). by apply (setup_inv journal []).
  - pose proof R as (I & _). destruct (resting_orders_spec e I) as (views & E & _ & P). exists views.
    split; [done|]. unfold resting_orders_for. simpl.
    assert (Hv : views = []).
    { injection V as V1 V2. rewrite V1, V2 in P. by apply Permutation_nil_r in P. }
    by rewrite Hv.
  - by split_and!.
Qed.

(** A market configuration whose numbers are in the range of their types. *)
Definition pipeline_op_ok (symbol : string) (op : pipeline_op) : Prop :=
  match op with
  | PpConfigure _ _ _ config => rc_symbol config = symbol /\ 0 <= rc_max_requests_per_window config /\
      rc_rate_limit_window_ms config < two63
  | PpRegister _ _ _ _ max_requests window_ms => 0 <= max_requests /\ time_ok window_ms
  | PpSubmit request => gq_timestamp_ms request < two63 - 2
  end.

(** What configuring and registering leave alone. *)
Definition same_trading p p' : Prop :=
  ep_symbol p' = ep_symbol p /\ ep_matching p' = ep_matching p /\ ep_order_registry p' = ep_order_registry p /\
  re_resting_orders (ep_risk p') = re_resting_orders (ep_risk p) /\
  re_audit_history (ep_risk p') = re_audit_history (ep_risk p).

Lemma aligned_ext p p' : ep_symbol p' = ep_symbol p -> ep_matching p' = ep_matching p ->
  ep_order_registry p' = ep_order_registry p -> re_resting_orders (ep_risk p') = re_resting_orders (ep_risk p) ->
  aligned p -> aligned p'.
Proof using Type.
  intros E1 E2 E3 E4 (views & Ev & Er). exists views. rewrite E2. split; [done|].
  unfold resting_orders_for in *. by rewrite E1, E3, E4.
Qed.

Lemma configure_spec (n : Z) p (bid ask : double) (fees : FeeSchedule) (config : MarketRiskConfig) :
  pipeline_inv n p -> pipeline_op_ok (ep_symbol p) (PpConfigure bid ask fees config) ->
  let '(res, p') := Pipeline_configure_market p bid ask fees config in
  (forall why, res <> Undef why) /\ pipeline_inv n p' /\ same_trading p p'.
Proof using Type*.
  intros [[I1 I2 I3 I4 I5 I6] [C O R S T]] (Hsym & H1' & H2'). unfold Pipeline_configure_market. simpl ep_risk.
  simpl ep_symbol. pose proof (configure_inv (ep_risk p) config I3 H1' H2') as HC.
  assert (Hun : forall b a f, pipeline_inv n (with_fees (with_prices p b a) f)) by by split; split.
  unfold Risk_configure_market in *.
  destruct (bool_decide (rc_symbol config = "")); [by split_and!|]. destruct (_ || _); [by split_and!|].
  destruct (_ || _); [by split_and!|]. destruct HC as [HC Hh].
  set (r1 := set_markets (ep_risk p) _) in *. pose proof (top_inv r1 (ep_symbol p) bid ask HC) as HT.
  unfold Risk_update_top_of_book in *.
  assert (Em : re_markets r1 !! ep_symbol p = Some (MarketState_new config)) by (subst r1; simpl; rewrite Hsym; apply lookup_insert_eq).
  rewrite Em in *. destruct HT as [HT Hh2]. split; [done|]. split; [|done]. split; split; simpl; try done.
  intros s m [[<- _]|[_ Hm]]%lookup_insert_Some; [done|].
  apply lookup_insert_Some in Hm as [[<- _]|[_ Hm]]; [done|by apply (I4 s m)].
Qed.

Lemma register_spec (n : Z) p (key secret user : string) (account : AccountSnapshot) (k window : Z) :
  pipeline_inv n p -> pipeline_op_ok (ep_symbol p) (PpRegister key secret user account k window) ->
  pipeline_inv n (Pipeline_register_user p key secret user account k window) /\
  same_trading p (Pipeline_register_user p key secret user account k window).
Proof using Type*.
  intros [[(c & G & Hc) I2 I3 I4 I5 I6] [(init & C) O R S T]] [Hk Hw]. unfold Pipeline_register_user. cbv zeta.
  set (g := Gateway_set_user_rate_limit _ _ _ _).
  assert (Gi : gateway_inv g [] c).
  { destruct G as [X1 X2 X3 X4 X5 X6]. split; simpl; try done. intros u l [[<- <-]|[_ Hl]]%lookup_insert_Some; [done|].
    by apply (X4 u). }
  set (p1 := with_known _ _).
  assert (M1 : money_inv [user] p1).
  { split; simpl.
    - exists (rebase init (ep_clearing p) user account). by apply upsert_inv.
    - intros id h Hh. simpl in *. destruct (O id h Hh) as [s Hs]. destruct (decide (hr_account_id h = user)) as [->|Hne].
      + by rewrite lookup_insert_eq.
      + rewrite lookup_insert_ne by done. by exists s.
    - exact R.
    - intros u s Hu. simpl in *. apply lookup_insert_Some in Hu as [[<- _]|[_ Hu]]; [left; apply elem_of_cons; by left|].
      right. destruct (S u s Hu) as [Hn|Hs]; [by apply not_elem_of_nil in Hn|done].
    - exact T. }
  destruct (sync_account_spec _ _ _ M1) as (St & M2 & _ & Er).
  split; [split; [|done]|].
  - apply (base_inv_step n p1); [done|]. split; simpl; try done. by exists c.
  - destruct St as [E1 _ _ _ E2 (_ & _ & _ & E3) E4 _]. by split_and!.
Qed.

Lemma pipeline_step_spec (n : Z) p (op : pipeline_op) : pipeline_inv n p -> pipeline_op_ok (ep_symbol p) op ->
  n + 2 < two64 ->
  exists res p', pipeline_step tid unordered p op = Ret (res, p') /\ pipeline_inv (n + 1) p' /\ ep_symbol p' = ep_symbol p /\
    match op with
    | PpSubmit request => exists w, res = Some w /\ Pipeline_submit tid unordered p request = Ret (w, p') /\
        submitted n p request w p'
    | _ => res = None /\ same_trading p p'
    end.
Proof using Type*.
  intros I Ho Hn.
  assert (Hw : forall q, pipeline_inv n q -> pipeline_inv (n + 1) q).
  { intros q [[] M]. split; [|done]. split; try done. lia. }
  destruct op as [bid ask fees config|key secret user account k window|request]; simpl pipeline_step.
  - pose proof (configure_spec n p bid ask fees config I Ho) as HC.
    destruct (Pipeline_configure_market p bid ask fees config) as [res p']. destruct HC as (Hres & I' & ST).
    exists None, p'. split; [destruct res; [done..|by destruct (Hres why)]|]. split; [by apply Hw|].
    split; [apply ST|by split].
  - destruct (register_spec n p key secret user account k window I Ho) as [I' ST].
    eexists None, _. split; [done|]. split; [by apply Hw|]. split; [apply ST|by split].
  - destruct (pipeline_submit_spec n p request I Ho Hn) as (w & p' & E & Su). rewrite E, bind_ret.
    exists (Some w), p'. split; [done|]. split; [apply Su|]. split; [apply Su|]. by exists w.
Qed.
End Pipeline.
