(* ===== verification/PipelineTheorems.v ===== *)
(** * The exchange pipeline: what it guarantees

    Every call returns; a request is refused without effect or goes through the
    whole workflow; the risk engine stays in step with the accounts and the book;
    trades always have owners; users do not trade with themselves. *)

From S2P Require Import Prelude Double MarketTypes Broadcaster Queue Spsc Allocator Pool Outbox Orderbook MatchSpec Matching EngineProofs EngineTheorems Clearing ClearingProofs ClearingTheorems Risk RiskProofs Gateway GatewayProofs Payload Pipeline PipelineLedger PipelineProofs.

Local Open Scope Z_scope.

(** ** Reading the results of a run *)

(** Whether the workflow got as far as the risk engine. *)
Definition was_decided (w : WorkflowResult) : bool :=
  match wf_status w with kRouteRejected | kParseRejected => false | _ => true end.

Definition decided_count (rs : list (option WorkflowResult)) : nat :=
  length (List.filter (fun r => match r with Some w => was_decided w | None => false end) rs).

(** Matching and settlement did not come apart. *)
Definition settled_well (r : option WorkflowResult) : Prop :=
  match r with
  | Some w => wf_status w <> kSettlementRejected /\ wf_status w <> kWorkflowInvariantViolation
  | None => True
  end.

(** The ids of the orders the submitted payloads describe. *)
Definition order_ids (ops : list pipeline_op) : list string :=
  omap (fun op => match op with PpSubmit request => po_order_id <$> order_of request | _ => None end) ops.

Section Runs.
Context {QF QD A B : Type} `{HF : QueueLaws QF ForwardedRequest} `{HD : QueueLaws QD RiskDecision}
  `{HA : BlockAllocatorLaws A} `{HB : BlockAllocatorLaws B} (tid : Z).
Context (std_sort : (RouteConfig -> RouteConfig -> bool) -> list RouteConfig -> list RouteConfig)
  `{!SortLaws std_sort} (unordered : list string -> list string) `{!UnorderedLaws unordered}.

Implicit Types p : ExchangePipeline QF QD A B.

(** Fresh parts for a new pipeline. *)
Record parts_ok (ingress : QF) (audit : QD) (orders : A) (journal : B) (symbol : string) : Prop := {
  pt_ingress : represents ingress [] /\ 1 <= room ingress;
  pt_audit : represents audit [] /\ 1 <= room audit;
  pt_orders : outstanding orders ∅;
  pt_journal : outstanding journal ∅;
  pt_symbol : symbol <> ""
}.

(** [p] is reached from construction by [ops], whose results are [rs]. *)
Definition pipeline_reaches (symbol : string) (ops : list pipeline_op) (rs : list (option WorkflowResult)) p : Prop :=
  exists ingress audit orders journal p0, parts_ok ingress audit orders journal symbol /\
    Pipeline_new std_sort ingress audit orders journal symbol = Ret p0 /\
    pipeline_run tid unordered p0 ops = Ret (rs, p) /\
    Forall (pipeline_op_ok symbol) ops /\ Z.of_nat (length ops) + 3 < two64.

Lemma pipeline_run_spec (ops : list pipeline_op) : forall (n : Z) p, pipeline_inv n p ->
  Forall (pipeline_op_ok (ep_symbol p)) ops -> n + Z.of_nat (length ops) + 2 < two64 ->
  exists rs p', pipeline_run tid unordered p ops = Ret (rs, p') /\ length rs = length ops /\
    pipeline_inv (n + Z.of_nat (length ops)) p' /\ ep_symbol p' = ep_symbol p /\
    length (re_audit_history (ep_risk p')) = (length (re_audit_history (ep_risk p)) + decided_count rs)%nat.
Proof using Type*.
  induction ops as [|op ops IH]; intros n p I Ho Hn.
  { exists [], p. split; [done|]. split; [done|]. simpl. rewrite Z.add_0_r. split_and!; [done|done|]. simpl. unfold decided_count. simpl. lia. }
  apply Forall_cons in Ho as [Ho HFo]. simpl length in *. simpl pipeline_run.
  destruct (pipeline_step_spec tid unordered n p op I Ho ltac:(lia)) as (r & p1 & -> & I1 & E1 & Hop).
  rewrite bind_ret.
  destruct (IH (n + 1) p1 I1) as (rs & p' & -> & Hl & I' & E' & Ha); [by rewrite E1|lia|]. rewrite bind_ret.
  exists (r :: rs), p'. split; [done|]. split; [simpl; by rewrite Hl|].
  split; [replace (n + Z.of_nat (S (length ops))) with (n + 1 + Z.of_nat (length ops)) by lia; done|].
  split; [congruence|]. rewrite Ha. unfold decided_count. simpl List.filter.
  destruct op as [bid ask fees config|key secret user account k window|request].
  1, 2: destruct Hop as [-> (_ & _ & _ & _ & ->)]; lia.
  destruct Hop as (w & -> & _ & Su). destruct (su_audit _ _ _ _ _ _ Su) as (ds & -> & Hds). rewrite length_app.
  unfold was_decided. destruct (wf_status w); simpl; try (destruct Hds as [_ ->]; simpl; lia).
  - destruct Hds as (_ & _ & ->). simpl. lia.
  - destruct Hds as (_ & _ & ->). simpl. lia.
  - destruct Hds as (_ & d & o & st & -> & _). simpl. lia.
Qed.

Lemma reaches_inv (symbol : string) (ops : list pipeline_op) (rs : list (option WorkflowResult)) p :
  pipeline_reaches symbol ops rs p -> pipeline_inv (Z.of_nat (length ops)) p /\ ep_symbol p = symbol.
Proof using Type*.
  intros (ingress & audit & orders & journal & p0 & [[X1 X2] [X3 X4] X5 X6 X7] & E0 & Er & Ho & Hn).
  destruct (pipeline_new_spec std_sort ingress audit orders journal symbol X1 X2 X3 X4 X5 X6 X7)
    as (p0' & E0' & I & _ & Es & _). rewrite E0 in E0'. injection E0' as <-.
  destruct (pipeline_run_spec ops 0 p0 I) as (rs' & p' & Er' & _ & I' & Es' & _); [by rewrite Es|lia|].
  rewrite Er in Er'. injection Er' as <- <-. split; [done|congruence].
Qed.

(** ** Properties that hold from one call to the next *)

(** Submitting to an invariant pipeline: [submitted], read back from the result. *)
Lemma reached_submit (n : Z) p (request : GatewayRequest) (w : WorkflowResult) p' : pipeline_inv n p ->
  gq_timestamp_ms request < two63 - 2 -> n + 2 < two64 -> Pipeline_submit tid unordered p request = Ret (w, p') ->
  submitted tid n p request w p'.
Proof using Type*.
  intros I Ht Hn E. destruct (pipeline_submit_spec tid unordered n p request I Ht Hn) as (w' & p'' & E' & S).
  rewrite E in E'. by injection E' as <- <-.
Qed.

(** The risk engine lists the resting orders of the book, and the registry names
    no other orders. *)
Definition in_step p : Prop :=
  aligned p /\ forall id, is_Some (ep_order_registry p !! id) -> id ∈ resting_ids (view (ep_matching p)).

Lemma in_step_ext p p' : ep_symbol p' = ep_symbol p -> ep_matching p' = ep_matching p ->
  ep_order_registry p' = ep_order_registry p -> re_resting_orders (ep_risk p') = re_resting_orders (ep_risk p) ->
  in_step p -> in_step p'.
Proof using Type. intros E1 E2 E3 E4 [Al Ti]. split; [by apply (aligned_ext p)|by rewrite E2, E3]. Qed.

Lemma in_step_submit (n : Z) p (request : GatewayRequest) (w : WorkflowResult) p' :
  submitted tid n p request w p' -> settled_well (Some w) -> in_step p -> in_step p'.
Proof using Type.
  intros Su [Hw1 Hw2] St. destruct (rejected_early (wf_status w)) eqn:Ee.
  { destruct (su_early _ _ _ _ _ _ Su Ee). apply (in_step_ext p); try done. apply Su. }
  destruct (su_late _ _ _ _ _ _ Su Ee) as (o & _ & _ & [x _ Hbook He]). destruct St as [_ Ti].
  destruct (wf_status w); try done.
  - destruct He as (_ & _ & _ & Al & Hreg). split; [done|]. intros id [m Hm]. rewrite Hbook. by apply (Hreg id m).
  - destruct He as (Ha & Ht & _ & Al & Hreg). split; [done|]. rewrite Hbook, Hreg. subst x. rewrite submit_refused by done.
    intros id Hid. apply Ti. by apply lookup_delete_is_Some in Hid as [_ Hid].
Qed.

Lemma in_step_run (ops : list pipeline_op) : forall (n : Z) p rs p', pipeline_inv n p -> in_step p ->
  Forall (pipeline_op_ok (ep_symbol p)) ops -> n + Z.of_nat (length ops) + 2 < two64 ->
  pipeline_run tid unordered p ops = Ret (rs, p') -> Forall settled_well rs -> in_step p'.
Proof using Type*.
  induction ops as [|op ops IH]; intros n p rs p' I Al Ho Hn E Hs; simpl in E; [by injection E as <- <-|].
  apply Forall_cons in Ho as [Ho HFo]. simpl length in *.
  destruct (pipeline_step_spec tid unordered n p op I Ho ltac:(lia)) as (r & p1 & E1 & I1 & Es & Hop).
  rewrite E1, bind_ret in E. apply bind_ret_inv in E as ([rs1 p2] & E2 & [= <- <-]).
  apply Forall_cons in Hs as [Hs1 Hs]. apply (IH (n + 1) p1 rs1 p2); try done; [|by rewrite Es|lia].
  destruct op as [bid ask fees config|key secret user account k window|request].
  1, 2: destruct Hop as [_ (X1 & X2 & X3 & X4 & _)]; by apply (in_step_ext p).
  destruct Hop as (w & -> & _ & Su). by apply (in_step_submit n p request w).
Qed.

(** ** Ownership *)

(** Every resting order has an owner, and its id has been used. *)
Definition owns (used : list string) p : Prop :=
  owned (ep_order_registry p) (view (ep_matching p)) /\
  forall id, id ∈ resting_ids (view (ep_matching p)) -> id ∈ used.

Lemma owns_ext (used : list string) p p' : ep_matching p' = ep_matching p ->
  ep_order_registry p' = ep_order_registry p -> owns used p -> owns used p'.
Proof using Type. unfold owns. by intros -> ->. Qed.

Lemma owns_more (used used' : list string) p : used ⊆ used' -> owns used p -> owns used' p.
Proof using Type. intros Hs [Ho Hu]. split; [done|]. intros id Hid. by apply Hs, Hu. Qed.

Lemma resting_id_order (b : Book) (o : RestingOrder) : o ∈ book_orders b -> ro_order_id o ∈ resting_ids b.
Proof using Type. intros Ho. by apply list_elem_of_fmap_2. Qed.

(** While a fresh order is matched, both it and the resting orders have owners. *)
Lemma tracked_owned (used : list string) p (o : ParsedOrder) :
  owns used p -> po_order_id o ∉ used ->
  forall m, m ∈ book_orders (view (ep_matching p)) -> exists mm,
    tracked_registry p o !! ro_order_id m = Some mm /\ ep_order_registry p !! ro_order_id m = Some mm /\
    mo_side mm = ro_side m /\ ro_order_id m <> po_order_id o.
Proof using Type.
  intros [Ho Hu] Hn m Hm. destruct (Ho m Hm) as (mm & Emm & Es). exists mm.
  assert (Hne : ro_order_id m <> po_order_id o).
  { intros E. apply Hn. rewrite <- E. by apply Hu, resting_id_order. }
  split_and!; try done. unfold tracked_registry. by rewrite lookup_insert_ne.
Qed.

Lemma owns_step (n : Z) (used : list string) p (request : GatewayRequest) (w : WorkflowResult) p' :
  pipeline_inv n p -> submitted tid n p request w p' -> owns used p ->
  (forall o, order_of request = Some o -> po_order_id o ∉ used) ->
  wf_status w <> kWorkflowInvariantViolation /\
  owns (used ++ option_list (po_order_id <$> order_of request)) p'.
Proof using Type*.
  intros I Su Ow Hfresh.
  destruct (rejected_early (wf_status w)) eqn:Ee.
  { split; [by destruct (wf_status w)|]. destruct (su_early _ _ _ _ _ _ Su Ee).
    apply (owns_more used); [by intros ? ?; apply elem_of_app; left|]. by apply (owns_ext used p). }
  destruct (su_late _ _ _ _ _ _ Su Ee) as (o & Eo & _ & X). rewrite Eo. simpl. specialize (Hfresh o Eo).
  destruct (order_fin _ _ Eo) as [Hok _].
  pose proof (tracked_owned used p o Ow Hfresh) as Htr.
  set (b := view (ep_matching p)) in *. destruct X as [x Hres Hbook Hend]. fold b in x.
  assert (Wb : book_wf b) by (destruct I as [[_ _ _ _ (_ & _ & _ & ?) _] _]; done).
  assert (Htaker : tracked_registry p o !! po_order_id o = Some (managed_of o)) by apply lookup_insert_eq.
  assert (Hnew : owned (tracked_registry p o) x.2 /\ forall id, id ∈ resting_ids x.2 -> id ∈ used ++ [po_order_id o]).
  { split.
    - intros y Hy. destruct (submit_orders b _ y Wb Hok Hy) as [[-> ->]|(m & Hm & <- & <-)].
      + exists (managed_of o). done.
      + destruct (Htr m Hm) as (mm & E1 & _ & E2 & _). by exists mm.
    - intros id (y & -> & Hy)%list_elem_of_fmap. apply elem_of_app.
      destruct (submit_orders b _ y Wb Hok Hy) as [[-> _]|(m & Hm & <- & _)].
      + right. by apply list_elem_of_singleton.
      + left. by apply Ow, resting_id_order. }
  assert (Hno : forall t, t ∈ mr_trades x.1 ->
    is_Some (tracked_registry p o !! tr_maker_order_id t) /\ is_Some (tracked_registry p o !! tr_taker_order_id t)).
  { intros t Ht. pose proof (submit_trades b (to_matching_request o)) as HT. rewrite Forall_forall in HT.
    destruct (HT t Ht) as (-> & _ & m & Hm & <- & _). simpl rq_order_id. rewrite Htaker. split; [|by eexists].
    destruct (Htr m) as (mm & -> & _); [|by eexists]. apply (book_orders_side b (opposite (po_matching_side o))). by left. }
  unfold owns. rewrite Hbook. destruct Hnew as [Hnew Hids].
  destruct (wf_status w); try done.
  - destruct Hend as (_ & _ & _ & _ & Hreg). split; [done|]. split; [|done].
    intros y Hy. destruct (Hnew y Hy) as (m & Em & Es). exists m. split; [|done].
    apply Hreg. split; [done|]. by apply resting_id_order.
  - destruct Hend as (Ha & Ht & _ & _ & Hreg). split; [done|]. split; [|done].
    assert (Hb : x.2 = b) by exact (submit_refused b _ Ha Ht). rewrite Hb, Hreg.
    intros y Hy. destruct (Htr y Hy) as (mm & _ & E & Es & Hne). exists mm.
    split; [|done]. by rewrite lookup_delete_ne.
  - destruct Hend as [_ ->]. by split.
  - destruct Hend as (_ & _ & t & Ht & Hn). by destruct (Hn (Hno t Ht)).
Qed.

Lemma owns_run (ops : list pipeline_op) : forall (n : Z) (used : list string) p rs p', pipeline_inv n p -> owns used p ->
  Forall (pipeline_op_ok (ep_symbol p)) ops -> n + Z.of_nat (length ops) + 2 < two64 ->
  NoDup (used ++ order_ids ops) ->
  pipeline_run tid unordered p ops = Ret (rs, p') ->
  owns (used ++ order_ids ops) p' /\
  Forall (fun r => match r with Some w => wf_status w <> kWorkflowInvariantViolation | None => True end) rs.
Proof using Type*.
  induction ops as [|op ops IH]; intros n used p rs p' I Ow Ho Hn Hnd E; simpl in E.
  { injection E as <- <-. split; [|done]. by apply (owns_more used); [by intros ? ?; apply elem_of_app; left|]. }
  apply Forall_cons in Ho as [Ho HFo]. simpl length in *.
  destruct (pipeline_step_spec tid unordered n p op I Ho ltac:(lia)) as (r & p1 & E1 & I1 & Es & Hop).
  rewrite E1, bind_ret in E. apply bind_ret_inv in E as ([rs1 p2] & E2 & [= <- <-]).
  destruct op as [bid ask fees config|key secret user account k window|request].
  1, 2: destruct Hop as [-> (X1 & X2 & X3 & X4 & _)];
    destruct (IH (n + 1) used p1 rs1 p2 I1) as [Ow' HF']; [by apply (owns_ext used p)|by rewrite Es|lia|done|done|];
    split; [done|by constructor].
  destruct Hop as (w & -> & _ & Su).
  assert (Hids : used ++ order_ids (PpSubmit request :: ops) =
    (used ++ option_list (po_order_id <$> order_of request)) ++ order_ids ops).
  { rewrite <- app_assoc. f_equal. unfold order_ids. simpl. by destruct (order_of request). }
  rewrite Hids in *. destruct (owns_step n used p request w p1 I Su Ow) as [Hst Ow1].
  { intros o Eo Hin. rewrite Eo in Hnd. simpl in Hnd. apply NoDup_app in Hnd as [Hnd _].
    apply NoDup_app in Hnd as (_ & Hd & _). apply (Hd _ Hin). by apply list_elem_of_singleton. }
  destruct (IH (n + 1) _ p1 rs1 p2 I1 Ow1) as [Ow' HF']; [by rewrite Es|lia|done|done|].
  split; [done|by constructor].
Qed.

(** ** Self-trade prevention *)

(** The only trades with oneself: worse than the limit, but within the matching
    engine's tolerance. *)
Definition within_tolerance (o : ParsedOrder) (t : Trade) : Prop :=
  po_matching_type o = kLimit /\
  rnd (overshoot (opposite (po_matching_side o)) (to_matching_request o) (tr_price t)) <= val eps /\
  match po_matching_side o with
  | kBuy => val (po_price o) < val (tr_price t)
  | kSell => val (tr_price t) < val (po_price o)
  end.

Lemma approved_not_self (r : PreTradeRiskEngine QD) (request : RiskOrderRequest) (m : MarketState) :
  rd_accepted (rules_decision r request m) = true -> rc_enable_self_trade_prevention (ms_config m) = true ->
  would_self_trade request (resting_orders_for r (kr_symbol request)) = false.
Proof using Type.
  unfold rules_decision, evaluate_market_rules. intros Ha He. rewrite He in Ha.
  repeat (match type of Ha with context [if ?b then _ else _] => destruct b eqn:? end; [done|]). done.
Qed.

(** In a market in step with the book, an approved order of the owner stays
    behind the owner's orders on the other side. *)
Lemma own_order_clear (n : Z) p (o : ParsedOrder) (d : RiskDecision) (mk : MarketState)
    (m : RestingOrder) (mm : ManagedOrder) :
  pipeline_inv n p -> aligned p -> approved p o d ->
  re_markets (ep_risk p) !! ep_symbol p = Some mk -> rc_enable_self_trade_prevention (ms_config mk) = true ->
  po_risk_side o = to_risk_side (po_matching_side o) ->
  po_risk_type o = (match po_matching_type o with kLimit => kRiskLimit | kMarket => kRiskMarket end) ->
  fin (po_price o) = true -> owned (ep_order_registry p) (view (ep_matching p)) ->
  m ∈ side_of (view (ep_matching p)) (opposite (po_matching_side o)) ->
  ep_order_registry p !! ro_order_id m = Some mm -> mo_user_id mm = po_user_id o ->
  po_matching_type o = kLimit /\
  match po_matching_side o with
  | kBuy => val (po_price o) < val (ro_price m)
  | kSell => val (ro_price m) < val (po_price o)
  end.
Proof using Type*.
  intros [Ib _] (views & Ev & Er) (Ha & Hsym & mk' & Emk' & ->) Emk Hen Hside Htype Hfin Ow Hm Emm Hu.
  rewrite Emk in Emk'. injection Emk' as <-.
  pose proof (approved_not_self _ _ _ Ha Hen) as Hno. simpl kr_symbol in Hno. rewrite Hsym, Er in Hno.
  destruct (bi_matching _ _ Ib) as (I & _ & _ & W).
  pose proof (bw_orders _ W (opposite (po_matching_side o))) as HFo. rewrite Forall_forall in HFo.
  destruct (HFo m Hm) as (Hs & Hp & Hq & Hpos).
  assert (Hb : m ∈ book_orders (view (ep_matching p))) by (apply (book_orders_side _ (opposite (po_matching_side o))); by left).
  destruct (Ow m Hb) as (mm' & Emm' & Eside). rewrite Emm in Emm'. injection Emm' as <-.
  destruct (resting_orders_spec (ep_matching p) I) as (views' & Ev' & _ & P). rewrite Ev in Ev'. injection Ev' as <-.
  set (v := mkRiskResting (mo_user_id mm) (to_risk_side (mo_side mm)) (ro_price m) (ro_open_quantity m)).
  assert (Hv : crosses_own (to_risk_request o) v = false).
  { apply not_true_is_false. intros Hx. apply not_true_iff_false in Hno. apply Hno. apply existsb_exists. exists v.
    split; [|done]. apply list_elem_of_In, list_elem_of_omap. exists (order_view m).
    split; [rewrite P; by apply list_elem_of_fmap_2|]. unfold owner_view. simpl. by rewrite Emm. }
  unfold crosses_own in Hv. simpl in Hv. rewrite (bool_decide_eq_true_2 _ Hu) in Hv.
  assert (Hz : dle (ro_open_quantity m) dzero = false).
  { rewrite dle_val by (done || apply fin_dzero). apply Z.leb_gt. change (val dzero) with 0. pose proof eps_pos. lia. }
  rewrite Hz, Eside, Hside, Htype in Hv. simpl in Hv.
  destruct (po_matching_type o); [|destruct (po_matching_side o), (ro_side m); done].
  split; [done|]. destruct (po_matching_side o), (ro_side m); simpl in *; try done.
  - rewrite dge_val in Hv by done. by apply Z.leb_gt in Hv.
  - rewrite dle_val in Hv by done. by apply Z.leb_gt in Hv.
Qed.

(** The two readings of a payload's side and type agree. *)
Lemma parsed_consistent (request : GatewayRequest) (o : ParsedOrder) : order_of request = Some o ->
  po_risk_side o = to_risk_side (po_matching_side o) /\
  po_risk_type o = (match po_matching_type o with kLimit => kRiskLimit | kMarket => kRiskMarket end) /\
  fin (po_price o) = true.
Proof using Type.
  intros F%order_of_fields_spec. destruct (parsed_fin _ _ _ F) as [Hfin _].
  destruct F. split_and!; [by destruct (po_matching_side o)|by destruct (po_matching_type o)|done].
Qed.

Lemma reaches_run (symbol : string) (ops : list pipeline_op) (rs : list (option WorkflowResult)) p :
  pipeline_reaches symbol ops rs p -> exists p0, pipeline_run tid unordered p0 ops = Ret (rs, p) /\
    pipeline_inv 0 p0 /\ in_step p0 /\ owns [] p0 /\ ep_symbol p0 = symbol /\
    Forall (pipeline_op_ok (ep_symbol p0)) ops /\ Z.of_nat (length ops) + 3 < two64.
Proof using Type*.
  intros (ingress & audit & orders & journal & p0 & [[X1 X2] [X3 X4] X5 X6 X7] & E0 & Er & Ho & Hn).
  destruct (pipeline_new_spec std_sort ingress audit orders journal symbol X1 X2 X3 X4 X5 X6 X7)
    as (p0' & E0' & I & Al & Es & Ev & Ereg & _). rewrite E0 in E0'. injection E0' as <-. exists p0.
  assert (Hno : forall id, ~ id ∈ resting_ids (view (ep_matching p0))).
  { rewrite Ev. intros id. apply not_elem_of_nil. }
  split; [done|]. split; [done|]. split; [split; [done|]|split; [split|split; [done|by rewrite Es]]].
  - intros id. rewrite Ereg, lookup_empty. by intros [? ?].
  - intros o Ho'. rewrite Ev in Ho'. by apply not_elem_of_nil in Ho'.
  - intros id Hid. by apply Hno in Hid.
Qed.

Lemma reaches_in_step (symbol : string) (ops : list pipeline_op) (rs : list (option WorkflowResult)) p :
  pipeline_reaches symbol ops rs p -> Forall settled_well rs -> in_step p.
Proof using Type*.
  intros (p0 & Er & I & St & _ & _ & Ho & Hn)%reaches_run Hs. apply (in_step_run ops 0 p0 rs); (done || lia).
Qed.

Lemma reaches_owns (symbol : string) (ops : list pipeline_op) (rs : list (option WorkflowResult)) p :
  pipeline_reaches symbol ops rs p -> NoDup (order_ids ops) -> owns (order_ids ops) p /\
  Forall (fun r => match r with Some w => wf_status w <> kWorkflowInvariantViolation | None => True end) rs.
Proof using Type*.
  intros (p0 & Er & I & _ & Ow & _ & Ho & Hn)%reaches_run Hd. apply (owns_run ops 0 [] p0); (done || lia).
Qed.

(** Settlement has never failed. *)
Definition settled (r : option WorkflowResult) : Prop :=
  match r with Some w => wf_status w <> kSettlementRejected | None => True end.

Lemma settled_all (rs : list (option WorkflowResult)) : Forall settled rs ->
  Forall (fun r => match r with Some w => wf_status w <> kWorkflowInvariantViolation | None => True end) rs ->
  Forall settled_well rs.
Proof using Type.
  intros Hs Hall. rewrite Forall_forall in *. intros [w|] Hw; [|done]. split; [exact (Hs _ Hw)|exact (Hall _ Hw)].
Qed.

(** ** Properties *)




(** C12. No funds stay locked: in a pipeline configured for its own symbol only, and
    as long as no call reported a refused settlement or an invariant violation, every
    hold of more than the balance tolerance backs an order that rests in the book,
    registered to the account the funds were taken from. *)
Theorem pipeline_no_stranded_funds (symbol : string) (ops : list pipeline_op) (rs : list (option WorkflowResult)) p
    (hold_id : string) (h : HoldRecord) :
  pipeline_reaches symbol ops rs p -> Forall settled_well rs ->
  cs_holds (ep_clearing p) !! hold_id = Some h -> residual_is_zero (hr_amount h) = false ->
  exists o m, o ∈ book_orders (view (ep_matching p)) /\ hold_id = hold_id_for (ro_order_id o) /\
    ep_order_registry p !! ro_order_id o = Some m /\ mo_user_id m = hr_account_id h.
Proof using Type*.
  intros Hr Hs Hh Hz. pose proof Hr as [[_ M] Es]%reaches_inv.
  destruct (reaches_in_step symbol ops rs p Hr Hs) as [_ Ti].
  destruct (mi_tracked _ _ M _ _ Hh) as [?|(id & -> & m & Hm)]; [congruence|].
  assert (Hid : id ∈ resting_ids (view (ep_matching p))) by (apply Ti; by eexists).
  apply list_elem_of_fmap in Hid as (o & -> & Ho). exists o, m. split; [done|]. split; [done|]. split; [done|].
  destruct (mi_registry _ _ M _ _ Hm) as (Ehold & _ & Hu). symmetry. apply Hu. by rewrite Ehold.
Qed.

(** As long as order ids are not used twice, every trade finds the owners of its
    two orders (no call reports an invariant violation) and every resting order is
    registered with its side; if no settlement was refused either, the registry
    lists exactly the resting orders. *)
Lemma pipeline_orders_owned (symbol : string) (ops : list pipeline_op) (rs : list (option WorkflowResult)) p :
  pipeline_reaches symbol ops rs p -> NoDup (order_ids ops) ->
  Forall (fun r => match r with Some w => wf_status w <> kWorkflowInvariantViolation | None => True end) rs /\
  (forall o, o ∈ book_orders (view (ep_matching p)) ->
     exists m, ep_order_registry p !! ro_order_id o = Some m /\ mo_side m = ro_side o) /\
  (Forall settled rs -> forall id,
     is_Some (ep_order_registry p !! id) <-> id ∈ resting_ids (view (ep_matching p))).
Proof using Type*.
  intros Hr Hd. destruct (reaches_owns symbol ops rs p Hr Hd) as [[Ow _] Hall]. split; [done|]. split; [done|].
  intros Hs id. split.
  - apply (reaches_in_step symbol ops rs p Hr). by apply settled_all.
  - intros (o & -> & Ho)%list_elem_of_fmap. destruct (Ow o Ho) as (m & -> & _). by eexists.
Qed.

(** C14. In a pipeline configured for its own symbol only, with self-trade prevention
    on, no order id submitted twice so far and no settlement refused so far, a user's
    order does not trade with an order of the same user: the only exception is a
    limit order whose maker asks for a price beyond its limit, by no more than the
    matching engine's tolerance of 1e-9. (After a refused settlement it can:
    [pipeline_self_trade_after_rejection].) *)
Theorem pipeline_no_self_trade (symbol : string) (ops : list pipeline_op) (rs : list (option WorkflowResult)) p
    (request : GatewayRequest) (market : MarketState) (o : ParsedOrder) (w : WorkflowResult) p'
    (t : Trade) (maker : ManagedOrder) :
  pipeline_reaches symbol ops rs p -> NoDup (order_ids ops) -> Forall settled rs ->
  re_markets (ep_risk p) !! symbol = Some market -> rc_enable_self_trade_prevention (ms_config market) = true ->
  gq_timestamp_ms request < two63 - 2 -> order_of request = Some o ->
  Pipeline_submit tid unordered p request = Ret (w, p') -> t ∈ mr_trades (wf_match_result w) ->
  ep_order_registry p !! tr_maker_order_id t = Some maker -> mo_user_id maker = po_user_id o ->
  within_tolerance o t.
Proof using Type*.
  intros Hr Hd Hs Emk Hen Ht Ho E Htr Emm Hu. destruct (reaches_owns symbol ops rs p Hr Hd) as [[Ow _] Hall].
  pose proof Hr as (_ & _ & _ & _ & _ & _ & _ & _ & _ & Hn).
  pose proof (reaches_in_step symbol ops rs p Hr (settled_all rs Hs Hall)) as [Al _].
  apply reaches_inv in Hr as [I <-].
  pose proof (reached_submit _ p request w p' I Ht ltac:(lia) E) as Su.
  destruct (rejected_early (wf_status w)) eqn:Ee.
  { destruct (su_early _ _ _ _ _ _ Su Ee). rewrite un_trades in Htr. by apply not_elem_of_nil in Htr. }
  destruct (su_late _ _ _ _ _ _ Su Ee) as (o' & Ho' & Ap & [x Hres _ _]). rewrite Ho in Ho'. injection Ho' as <-.
  rewrite Hres in Htr. pose proof (submit_trades (view (ep_matching p)) (to_matching_request o)) as HT.
  rewrite Forall_forall in HT. destruct (HT t Htr) as (_ & Hb & m & Hm & Eid & Ep). rewrite <- Eid in Emm.
  destruct (parsed_consistent request o Ho) as (Hside & Htype & Hfin).
  destruct (own_order_clear _ p o _ market m maker I Al Ap Emk Hen Hside Htype Hfin Ow Hm Emm Hu) as [Hl Hp].
  split; [done|]. split; [|by rewrite <- Ep].
  apply limit_respected; [done| |exact Hl|exact Hb]. destruct I as [Ib _]. destruct (bi_matching _ _ Ib) as (_ & _ & _ & W).
  pose proof (bw_orders _ W (opposite (po_matching_side o))) as HFo. rewrite Forall_forall in HFo.
  rewrite <- Ep. by apply (HFo m Hm).
Qed.
End Runs.

(** ** A concrete pipeline *)

Definition ingress_ring : SpscRingQueue ForwardedRequest := mkSpsc 4 3 (replicate 4 None) 0 0.
Definition audit_ring : SpscRingQueue RiskDecision := mkSpsc 4 3 (replicate 4 None) 0 0.

Definition sample_pipeline :=
  ExchangePipeline (SpscRingQueue ForwardedRequest) (SpscRingQueue RiskDecision) FixedBlockPool FixedBlockPool.

Definition sample_trace (ops : list pipeline_op) : outcome (list (option WorkflowResult) * sample_pipeline) :=
  p ← Pipeline_new stable_sort ingress_ring audit_ring sample_storage sample_storage "BTC";
  pipeline_run 1 (fun l => l) p ops.

(** What [f] reads off the results and the final state. *)
Definition after {T} (f : list (option WorkflowResult) -> sample_pipeline -> T) (ops : list pipeline_op) : option T :=
  match sample_trace ops with Ret (rs, p) => Some (f rs p) | _ => None end.

Definition statuses (rs : list (option WorkflowResult)) : list WorkflowStatus :=
  omap (fun r => wf_status <$> r) rs.

Definition last_result (rs : list (option WorkflowResult)) : option WorkflowResult := mjoin (last rs).

Definition order_in (symbol id side type tif price quantity : string) : string :=
  render [("order_id", id); ("symbol", symbol); ("side", side); ("type", type); ("tif", tif);
          ("price", price); ("quantity", quantity); ("source_ip", "10.0.0.1")].

Definition order_payload (id side type tif price quantity : string) : string :=
  order_in "BTC" id side type tif price quantity.

Definition order_request (request_id user payload : string) (t : Z) : GatewayRequest :=
  mkGatewayRequest request_id user ("key-" +:+ user)
    (expected_signature ("key-" +:+ user) "secret" request_id) "/v1/orders/place" payload kRest t.

Definition user_with (user : string) (quote base : Z) : pipeline_op :=
  PpRegister ("key-" +:+ user) "secret" user
    (mkAccount (double_of_Z quote) dzero (double_of_Z base) dzero dzero dzero) 100 1000.

(** Taker fee 5 basis points, prices within 5 percent of the touch. *)
Definition market_of (symbol : string) : pipeline_op :=
  PpConfigure (double_of_Z 99) (double_of_Z 101) (mkFees (double_of_Z 2) (double_of_Z 5))
    (mkRiskConfig symbol (double_of_Z 10) (double_of_Z 1000000) (dlit 5 2) 100 1000 true).

Definition pipeline_setup : list pipeline_op :=
  [market_of "BTC"; user_with "alice" 0 10; user_with "bob" 1000 0].

Definition ask_1 : pipeline_op :=
  PpSubmit (order_request "r1" "alice" (order_payload "ask-1" "sell" "limit" "gtc" "100.0" "1") 1).
Definition buy_1 : GatewayRequest :=
  order_request "r2" "bob" (order_payload "buy-1" "buy" "limit" "ioc" "100.0" "1.0") 2.


(** An ask just above the price its owner later bids. *)
Definition own_ask : list pipeline_op :=
  [market_of "BTC"; user_with "carol" 1000 10;
   PpSubmit (order_request "r1" "carol" (order_payload "ask-1" "sell" "limit" "gtc" "100.0000000005" "1") 1)].
Definition own_bid : GatewayRequest :=
  order_request "r2" "carol" (order_payload "bid-1" "buy" "limit" "gtc" "100" "1") 2.

(** Two ask levels, and a market order that needs both. *)
Definition walk_the_book : list pipeline_op :=
  pipeline_setup ++
  [ask_1; PpSubmit (order_request "r2" "alice" (order_payload "ask-2" "sell" "limit" "gtc" "102" "1") 2);
   PpSubmit (order_request "r3" "bob" (order_payload "buy-1" "buy" "market" "ioc" "0" "2") 3)].

(** Both ids of a settled trade again. *)
Definition same_ids_again : list pipeline_op :=
  pipeline_setup ++ [ask_1; PpSubmit buy_1; ask_1; PpSubmit buy_1].

Definition foreign_symbol : list pipeline_op :=
  market_of "ETH" :: pipeline_setup ++
  [ask_1; PpSubmit (order_request "r2" "bob" (order_in "ETH" "buy-1" "buy" "market" "ioc" "0" "1") 2)].

(** Enough for the price, not for the fee. *)
Definition fee_missing : list pipeline_op :=
  [market_of "BTC"; user_with "dave" 100 0;
   PpSubmit (order_request "r1" "dave" (order_payload "bid-1" "buy" "limit" "gtc" "100" "1") 1)].

(** ** What the pipeline lets happen *)

(** A market buy reserves funds at the best ask only. When it walks the book the
    matching engine trades, the settlement of the second trade is refused, and the
    asks are gone from the book while the hold of the unsettled one stays. *)
Fact pipeline_market_buy_underfunded :
  after (fun rs p => (statuses rs, resting_ids (view (ep_matching p)), map fst (map_to_list (cs_holds (ep_clearing p)))))
    walk_the_book =
  Some ([kCompleted; kCompleted; kSettlementRejected], [], ["hold-ask-2"; "hold-buy-1"]).
Proof. vm_compute. reflexivity. Qed.

(** Trades are named after their orders: when both ids are used again, the second
    trade counts as a settled duplicate and no asset changes hands. *)
Fact pipeline_reused_ids_unsettled :
  after (fun rs p => (statuses rs, (fun w => (length (mr_trades (wf_match_result w)), map sr_status (wf_settlements w))) <$> last_result rs,
      ac_available_base <$> Pipeline_account p "bob")) same_ids_again =
  Some ([kCompleted; kCompleted; kCompleted; kCompleted], Some (1%nat, [kDuplicate]), Some done_).
Proof. vm_compute. reflexivity. Qed.

(** The name of a trade does not determine its orders. *)
Fact trade_id_ambiguous (price quantity : double) :
  trade_id_of (mkTrade "a->b" "c" price quantity) = trade_id_of (mkTrade "a" "b->c" price quantity).
Proof. reflexivity. Qed.

(** The symbol of an order is only checked by the risk engine: once another market
    is configured, a market order for it executes in this pipeline's book. *)
Fact pipeline_foreign_symbol_executes :
  after (fun rs _ => (statuses rs, (fun w => (rd_symbol (wf_risk_decision w), length (mr_trades (wf_match_result w)))) <$> last_result rs))
    foreign_symbol =
  Some ([kCompleted; kCompleted], Some ("ETH", 1%nat)).
Proof. vm_compute. reflexivity. Qed.

(** A refused reservation changes the decision of the result, not the audit log. *)
Fact pipeline_audit_keeps_accepted :
  after (fun rs p => (statuses rs, (fun w => rd_accepted (wf_risk_decision w)) <$> last_result rs,
      map rd_accepted (Pipeline_audit_log p))) fee_missing =
  Some ([kClearingRejected], Some false, [true]).
Proof. vm_compute. reflexivity. Qed.

(** The risk engine compares prices exactly, the matching engine with a tolerance,
    and the hold covers the limit only: a bid just below its owner's ask trades with
    it and cannot be settled. *)
Fact pipeline_tolerance_unsettled :
  after (fun rs _ => (statuses rs, (fun w => (length (mr_trades (wf_match_result w)), map sr_status (wf_settlements w))) <$> last_result rs))
    (own_ask ++ [PpSubmit own_bid]) =
  Some ([kCompleted; kSettlementRejected], Some (1%nat, [kBuyerFrozenQuoteInsufficient])).
Proof. vm_compute. reflexivity. Qed.

(** Alice's ask is in the book when she is registered again without funds; then bob
    bids for twice as much: the trade cannot be settled, and the rest of his bid stays
    in the book unknown to the risk engine. *)
Definition stale : list pipeline_op :=
  [market_of "BTC"; user_with "alice" 0 10; user_with "bob" 1000 10; ask_1; user_with "alice" 0 0;
   PpSubmit (order_request "r2" "bob" (order_payload "bid-1" "buy" "limit" "gtc" "100" "2") 2)].
Definition bob_sells : pipeline_op :=
  PpSubmit (order_request "r3" "bob" (order_payload "ask-2" "sell" "limit" "gtc" "100" "1") 3).

(** After a refused settlement the risk engine does not list the orders that rest. *)
Fact pipeline_stale_after_rejection :
  after (fun rs p => (statuses rs, resting_ids (view (ep_matching p)),
      map rv_user_id (resting_orders_for (ep_risk p) "BTC"))) stale =
  Some ([kCompleted; kSettlementRejected], ["bid-1"], ["alice"]).
Proof. vm_compute. reflexivity. Qed.

(** Then, with prevention on, bob sells to himself at exactly his own price. *)
Fact pipeline_self_trade_after_rejection :
  after (fun rs p => (statuses rs, (fun w => map (fun t => (tr_maker_order_id t, tr_taker_order_id t)) (mr_trades (wf_match_result w))) <$> last_result rs,
      (fun m => rc_enable_self_trade_prevention (ms_config m)) <$> re_markets (ep_risk p) !! "BTC")) (stale ++ [bob_sells]) =
  Some ([kCompleted; kSettlementRejected; kCompleted], Some [("bid-1", "ask-2")], Some true).
Proof. vm_compute. reflexivity. Qed.

(** Only another market is configured (the call throws, but only after it has stored
    the other market): an order for that market is matched, and then [submit] throws. *)
Fact pipeline_foreign_market_throws :
  sample_trace [market_of "ETH"; user_with "bob" 1000 10;
    PpSubmit (order_request "r1" "bob" (order_in "ETH" "bid-1" "buy" "limit" "gtc" "0" "1") 1)] =
  Throw "Market must be configured before price updates".
Proof. vm_compute. reflexivity. Qed.

(** ** Witnesses *)

Lemma sample_parts_ok : parts_ok ingress_ring audit_ring sample_storage sample_storage "BTC".
Proof.
  destruct (Spsc_new_spec (T := ForwardedRequest) 4 ltac:(done)) as (q1 & E1 & R1 & _).
  destruct (Spsc_new_spec (T := RiskDecision) 4 ltac:(done)) as (q2 & E2 & R2 & _).
  vm_compute in E1, E2. injection E1 as <-. injection E2 as <-.
  split; [split; [by exists 0|done]|split; [by exists 0|done]|apply sample_storage_ok..|done].
Qed.

(** A run that is given exists and is reached. *)
Lemma sample_reaches (ops : list pipeline_op) : Forall (pipeline_op_ok "BTC") ops ->
  Z.of_nat (length ops) + 3 < two64 ->
  exists rs (p : sample_pipeline), sample_trace ops = Ret (rs, p) /\
    pipeline_reaches 1 stable_sort (fun l => l) "BTC" ops rs p.
Proof.
  intros Ho Hn. pose proof sample_parts_ok as HP. pose proof HP as [[X1 X2] [X3 X4] X5 X6 X7].
  destruct (pipeline_new_spec stable_sort ingress_ring audit_ring sample_storage sample_storage "BTC" X1 X2 X3 X4 X5 X6 X7)
    as (p0 & E0 & I & _ & Es & _).
  destruct (pipeline_run_spec 1 (fun l => l) ops 0 p0 I) as (rs & p & Er & _); [by rewrite Es|lia|].
  exists rs, p. split; [unfold sample_trace; by rewrite E0, bind_ret|].
  exists ingress_ring, audit_ring, sample_storage, sample_storage, p0. by split_and!.
Qed.

Lemma after_ret {T} (f : list (option WorkflowResult) -> sample_pipeline -> T) (ops : list pipeline_op) rs p :
  sample_trace ops = Ret (rs, p) -> after f ops = Some (f rs p).
Proof. unfold after. by intros ->. Qed.

Lemma no_dup_ids (l : list string) : bool_decide (NoDup l) = true -> NoDup l.
Proof. apply bool_decide_eq_true_1. Qed.

Ltac ops_ok := repeat constructor; vm_compute; congruence.




(** Settlement went well where the statuses say so. *)
Lemma settled_statuses (rs : list (option WorkflowResult)) :
  Forall (fun s => s <> kSettlementRejected /\ s <> kWorkflowInvariantViolation) (statuses rs) -> Forall settled_well rs.
Proof.
  induction rs as [|[w|] rs IH]; intros Hs; [done| |by constructor; [|apply IH]].
  apply Forall_cons in Hs as [Hw Hs]. constructor; [exact Hw|by apply IH].
Qed.

Lemma settled_well_settled (rs : list (option WorkflowResult)) : Forall settled_well rs -> Forall settled rs.
Proof. apply List.Forall_impl. intros [w|]; [by intros [Hw _]|done]. Qed.

Lemma pipeline_no_stranded_funds_witness :
  exists rs (p : sample_pipeline) h o, sample_trace (pipeline_setup ++ [ask_1]) = Ret (rs, p) /\
    cs_holds (ep_clearing p) !! "hold-ask-1" = Some h /\ hr_account_id h = "alice" /\
    o ∈ book_orders (view (ep_matching p)) /\ hold_id_for (ro_order_id o) = "hold-ask-1".
Proof.
  destruct (sample_reaches (pipeline_setup ++ [ask_1])) as (rs & p & E & Hr); [ops_ok|done|].
  assert (Hs : after (fun rs p => (statuses rs, cs_holds (ep_clearing p) !! "hold-ask-1")) (pipeline_setup ++ [ask_1]) =
    Some ([kCompleted], Some (mkHold "alice" kBase done_))) by (vm_compute; reflexivity).
  rewrite (after_ret _ _ _ _ E) in Hs. injection Hs as Hst Hh.
  assert (Hw : Forall settled_well rs) by (apply settled_statuses; rewrite Hst; by repeat constructor).
  destruct (pipeline_no_stranded_funds 1 stable_sort (fun l => l) "BTC" _ rs p "hold-ask-1" _ Hr Hw Hh
    ltac:(vm_compute; reflexivity)) as (o & m & Ho & Eo & _). exists rs, p, (mkHold "alice" kBase done_), o.
  split; [exact E|]. split; [exact Hh|]. split; [reflexivity|]. split; [exact Ho|by symmetry].
Defined.

Example pipeline_orders_owned_sample :
  exists rs (p : sample_pipeline), sample_trace (pipeline_setup ++ [ask_1]) = Ret (rs, p) /\
    resting_ids (view (ep_matching p)) = ["ask-1"] /\ is_Some (ep_order_registry p !! "ask-1").
Proof.
  destruct (sample_reaches (pipeline_setup ++ [ask_1])) as (rs & p & E & Hr); [ops_ok|done|].
  destruct (pipeline_orders_owned 1 stable_sort (fun l => l) "BTC" _ rs p Hr) as (_ & _ & Hreg).
  { apply no_dup_ids. vm_compute. reflexivity. }
  assert (Hs : after (fun rs p => (statuses rs, resting_ids (view (ep_matching p)))) (pipeline_setup ++ [ask_1]) =
    Some ([kCompleted], ["ask-1"])) by (vm_compute; reflexivity).
  rewrite (after_ret _ _ _ _ E) in Hs. injection Hs as Hst Hids.
  assert (Hw : Forall settled_well rs) by (apply settled_statuses; rewrite Hst; by repeat constructor).
  exists rs, p. split; [exact E|]. split; [exact Hids|]. apply (Hreg (settled_well_settled rs Hw)). rewrite Hids.
  by apply list_elem_of_singleton.
Defined.

Lemma pipeline_no_self_trade_witness :
  exists rs (p : sample_pipeline) w p' t o, sample_trace own_ask = Ret (rs, p) /\
    Pipeline_submit 1 (fun l => l) p own_bid = Ret (w, p') /\ t ∈ mr_trades (wf_match_result w) /\
    order_of own_bid = Some o /\ within_tolerance o t.
Proof.
  destruct (sample_reaches own_ask) as (rs & p & E & Hr); [ops_ok|done|].
  assert (Hs : after (fun rs p => (statuses rs, ep_order_registry p !! "ask-1")) own_ask =
    Some ([kCompleted], Some (mkManaged "carol" "BTC" kSell "hold-ask-1"))) by (vm_compute; reflexivity).
  rewrite (after_ret _ _ _ _ E) in Hs. injection Hs as Hst Hm.
  assert (Hw : Forall settled_well rs) by (apply settled_statuses; rewrite Hst; by repeat constructor).
  assert (Hk : after (fun _ p => (fun m => rc_enable_self_trade_prevention (ms_config m)) <$> re_markets (ep_risk p) !! "BTC")
    own_ask = Some (Some true)) by (vm_compute; reflexivity).
  rewrite (after_ret _ _ _ _ E) in Hk. injection Hk as Hk. apply fmap_Some in Hk as (market & Emk & Hen).
  assert (Hb : after (fun _ p => match Pipeline_submit 1 (fun l => l) p own_bid with
    | Ret (w, _) => map tr_maker_order_id (mr_trades (wf_match_result w)) | _ => [] end) own_ask = Some ["ask-1"])
    by (vm_compute; reflexivity).
  rewrite (after_ret _ _ _ _ E) in Hb. injection Hb as Hb.
  destruct (Pipeline_submit 1 (fun l => l) p own_bid) as [[w p']| |] eqn:Es; [|done|done].
  destruct (mr_trades (wf_match_result w)) as [|t ts] eqn:Et; [done|]. injection Hb as Hid _.
  assert (Ho : exists o, order_of own_bid = Some o /\ po_user_id o = "carol") by (eexists; split; vm_compute; reflexivity).
  destruct Ho as (o & Ho & Hu). exists rs, p, w, p', t, o. split; [exact E|]. split; [exact Es|].
  assert (Hin : t ∈ mr_trades (wf_match_result w)) by (rewrite Et; apply elem_of_cons; by left). clear Et.
  split; [exact Hin|]. split; [exact Ho|].
  assert (Hmt : ep_order_registry p !! tr_maker_order_id t = Some (mkManaged "carol" "BTC" kSell "hold-ask-1"))
    by (rewrite Hid; exact Hm).
  refine (pipeline_no_self_trade 1 stable_sort (fun l => l) "BTC" own_ask rs p own_bid market o w p' t
    (mkManaged "carol" "BTC" kSell "hold-ask-1") Hr _ (settled_well_settled rs Hw) Emk (eq_sym Hen) eq_refl Ho Es Hin Hmt (eq_sym Hu)).
  apply no_dup_ids. vm_compute. reflexivity.
Defined.
