(* ===== verification/PooledQueue.v ===== *)
(** * Queues of pool-allocated objects

    The tooling passes objects through a queue of pointers into an object pool: a
    producer creates an object and pushes its address, or destroys it when the queue
    is full; the consumer pops the address, reads the object and destroys it. The
    lemmas here are about any queue and any storage behind the two interfaces. *)

From S2P Require Import Prelude Queue Allocator.

Local Open Scope Z_scope.

Section PooledQueue.
Context {Q A T : Type} `{HQ : QueueLaws Q block} `{HA : BlockAllocatorLaws A} (tid : Z).

Implicit Types (q : Q) (pool : ObjectPool A T).

(** The queued addresses are those of the live objects, which are [l], in order. *)
Record pointed q pool (l : list T) : Prop := {
  pq_blocks : exists bl, represents q bl /\ NoDup bl /\ dom (op_objects pool) = list_to_set bl /\
    Forall2 (fun b v => op_objects pool !! b = Some v) bl l;
  pq_pool : object_pool_wf pool
}.

Lemma lookups_change (m m' : gmap block T) (bl : list block) (l : list T) :
  (forall b, b ∈ bl -> m' !! b = m !! b) ->
  Forall2 (fun b v => m !! b = Some v) bl l -> Forall2 (fun b v => m' !! b = Some v) bl l.
Proof using Type.
  intros Hm Hl. induction Hl as [|b v bl l Hb Hl IH]; [constructor|]. constructor.
  - rewrite Hm; [done|]. apply elem_of_cons. by left.
  - apply IH. intros c Hc. apply Hm. apply elem_of_cons. by right.
Qed.

Lemma pointed_empty q (storage : A) : represents q [] -> outstanding storage ∅ ->
  pointed q (mkObjectPool storage ∅) [].
Proof using Type.
  intros R Ho. split.
  - exists []. split; [done|]. split; [constructor|]. split; [simpl; by rewrite dom_empty_L|constructor].
  - unfold object_pool_wf. simpl. by rewrite dom_empty_L.
Qed.

Lemma pointed_length q pool (l : list T) : pointed q pool l -> size_approx_impl q = Z.of_nat (length l).
Proof using Type*.
  intros [(bl & R & _ & _ & HF) _]. rewrite (size_represents _ _ R). by rewrite (Forall2_length _ _ _ HF).
Qed.

Lemma pointed_live q pool (l : list T) : pointed q pool l -> size (op_objects pool) = length l.
Proof using Type.
  intros [(bl & _ & Hnd & Hdom & HF) _]. rewrite <- size_dom, Hdom, size_list_to_set by done.
  apply (Forall2_length _ _ _ HF).
Qed.

(** Pushing the address of a new object, or destroying the object again. *)
Lemma pointed_push q pool pool' (l : list T) (b : block) (v : T) : pointed q pool l ->
  op_objects pool !! b = None -> op_objects pool' = <[b := v]> (op_objects pool) -> object_pool_wf pool' ->
  if Z.of_nat (length l) <? room q
  then exists q', push_impl q b = Ret (true, q') /\ room q' = room q /\ pointed q' pool' (l ++ [v])
  else push_impl q b = Ret (false, q) /\
    exists pool'', ObjectPool_destroy tid pool' (Some b) = Ret pool'' /\ pointed q pool'' l.
Proof using Type*.
  intros [(bl & R & Hnd & Hdom & HF) _] Hb Eo HP.
  assert (Hbl : b ∉ bl).
  { rewrite <- (elem_of_list_to_set (C := gset block)), <- Hdom. by apply not_elem_of_dom. }
  rewrite <- (Forall2_length _ _ _ HF). destruct (Z.ltb_spec (Z.of_nat (length bl)) (room q)) as [Hlt|Hge].
  - destruct (push_room _ _ b R Hlt) as (q' & -> & Rq & Hr). exists q'. split; [done|]. split; [done|]. split; [|done].
    exists (bl ++ [b]). split; [done|]. split; [|split].
    + apply NoDup_app. split; [done|]. split; [|by apply NoDup_singleton]. intros c Hc ->%list_elem_of_singleton. by apply Hbl.
    + rewrite Eo, dom_insert_L, Hdom, list_to_set_app_L. simpl. rewrite (right_id_L ∅ (∪)). by rewrite (comm_L (∪)).
    + apply Forall2_app; [|constructor; [|constructor]; by rewrite Eo, lookup_insert_eq].
      apply (lookups_change (op_objects pool)); [|done]. intros c Hc. rewrite Eo, lookup_insert_ne; [done|].
      intros ->. by apply Hbl.
  - split; [apply (push_full _ _ b R Hge)|].
    destruct (destroy_spec tid pool' b v HP) as (storage & -> & HP'); [by rewrite Eo, lookup_insert_eq|].
    eexists. split; [reflexivity|]. split; [|done]. exists bl. simpl. by rewrite Eo, delete_insert_id.
Qed.

(** Popping gives the oldest object, which can be read and then destroyed. *)
Lemma pointed_pop q pool (l : list T) (v : T) : pointed q pool (v :: l) ->
  exists b q' pool', try_pop_impl q = Ret (Some b, q') /\ room q' = room q /\
    ObjectPool_read pool b = Ret v /\ ObjectPool_destroy tid pool (Some b) = Ret pool' /\ pointed q' pool' l.
Proof using Type*.
  intros [(bl & R & Hnd & Hdom & HF) HP]. apply Forall2_cons_inv_r in HF as (b & bl' & Hb & HF & ->).
  destruct (pop_front _ _ _ R) as (q' & Eq & Rq & Hr).
  destruct (destroy_spec tid _ b v HP Hb) as (storage & Ed & HP').
  eexists b, q', _. split; [done|]. split; [done|]. split; [by apply read_spec|]. split; [exact Ed|]. split; [|done].
  apply NoDup_cons in Hnd as [Hnb Hnd]. exists bl'. split; [done|]. split; [done|]. simpl. split.
  - rewrite dom_delete_L, Hdom. simpl. apply set_eq. intros x.
    rewrite elem_of_difference, elem_of_union, !elem_of_singleton, elem_of_list_to_set.
    split; [tauto|]. intros Hx. split; [by right|]. intros ->. by apply Hnb.
  - apply (lookups_change (op_objects pool)); [|done]. intros c Hc. rewrite lookup_delete_ne; [done|].
    intros ->. by apply Hnb.
Qed.

Lemma pointed_pop_empty q pool : pointed q pool [] -> try_pop_impl q = Ret (None, q) /\ op_objects pool = ∅.
Proof using Type*.
  intros [(bl & R & _ & Hdom & HF) _]. apply Forall2_nil_inv_r in HF as ->. split; [apply (pop_empty _ R)|].
  by apply dom_empty_inv_L.
Qed.
End PooledQueue.
