(* ===== verification/Observability.v ===== *)
(** * Observability stack: data and operations
    ([tooling/observability-stack])

    Metrics and spans are put into pool-allocated envelopes whose addresses go
    through a queue; [flush] processes and destroys them: it updates the metric's
    accumulator, evaluates the alert rules and appends to a bounded history. The
    queue is any [QueueOps] of addresses, the storage of the pool any
    [BlockAllocator]; [unordered] is the iteration order of the rules. *)

From S2P Require Import Prelude Double Queue Allocator Format.

Local Open Scope Z_scope.

Inductive EventKind := kMetric | kSpan | kAlert.
Inductive MetricType := kCounter | kGauge | kHistogram.
Inductive AlertSeverity := kInfo | kWarning | kCritical.
Inductive PublishStatus := kEnqueued | kQueueFull.

#[export] Instance EventKind_eq_dec : EqDecision EventKind.
Proof. solve_decision. Defined.
#[export] Instance PublishStatus_eq_dec : EqDecision PublishStatus.
Proof. solve_decision. Defined.

Record TraceContext := mkTrace {
  tc_trace_id : string;
  tc_span_id : string;
  tc_parent_span_id : string;
  tc_component : string
}.

Record MetricPoint := mkMetricPoint {
  mp_name : string;
  mp_value : double;
  mp_timestamp : Z;
  mp_type : MetricType;
  mp_trace_context : TraceContext
}.

Record TraceSpan := mkSpan {
  ts_context : TraceContext;
  ts_operation : string;
  ts_start_timestamp : Z;
  ts_end_timestamp : Z;
  ts_success : bool
}.

Record AlertRule := mkRule {
  ar_rule_id : string;
  ar_metric_name : string;
  ar_threshold : double;
  ar_consecutive_breaches : Z;
  ar_severity : AlertSeverity
}.

Record AlertNotification := mkAlert {
  an_rule_id : string;
  an_metric_name : string;
  an_observed_value : double;
  an_threshold : double;
  an_breach_count : Z;
  an_timestamp : Z;
  an_severity : AlertSeverity;
  an_trace_context : TraceContext
}.

Record MetricSnapshot := mkMetricSnapshot {
  sn_name : string;
  sn_type : MetricType;
  sn_samples : Z;
  sn_sum : double;
  sn_last : double;
  sn_min : double;
  sn_max : double
}.

Record TelemetryEvent := mkEvent {
  te_kind : EventKind;
  te_name : string;
  te_component : string;
  te_trace_id : string;
  te_value : double;
  te_timestamp : Z;
  te_success : bool;
  te_severity : AlertSeverity
}.

Record Envelope := mkEnvelope {
  ev_kind : EventKind;
  ev_metric : MetricPoint;
  ev_span : TraceSpan
}.

Record MetricAccumulator := mkAccumulator {
  ma_type : MetricType;
  ma_samples : Z;
  ma_sum : double;
  ma_last : double;
  ma_min : double;
  ma_max : double
}.

(** The default member initialisers. *)
Definition TraceContext_new : TraceContext := mkTrace "" "" "" "".
Definition MetricPoint_new : MetricPoint := mkMetricPoint "" dzero 0 kCounter TraceContext_new.
Definition TraceSpan_new : TraceSpan := mkSpan TraceContext_new "" 0 0 true.
Definition Envelope_new : Envelope := mkEnvelope kMetric MetricPoint_new TraceSpan_new.
Definition MetricAccumulator_new : MetricAccumulator := mkAccumulator kCounter 0 dzero dzero dzero dzero.

Definition publish_ok (status : PublishStatus) : bool := bool_decide (status = kEnqueued).

Definition child_context (parent : TraceContext) (component : string) (sequence : Z) : TraceContext :=
  let suffix := decimal sequence in
  mkTrace
    (if bool_decide (tc_trace_id parent = "") then component +:+ "-trace-" +:+ suffix else tc_trace_id parent)
    (if bool_decide (tc_span_id parent = "") then component +:+ "-span-" +:+ suffix
     else tc_span_id parent +:+ "." +:+ suffix)
    (tc_span_id parent) component.

(** One sample, on the accumulator of its metric. *)
Definition accumulate (a : MetricAccumulator) (point : MetricPoint) : MetricAccumulator :=
  let a := if ma_samples a =? 0
           then mkAccumulator (mp_type point) (ma_samples a) (ma_sum a) (ma_last a) (mp_value point) (mp_value point)
           else mkAccumulator (ma_type a) (ma_samples a) (ma_sum a) (ma_last a)
                  (dmin (ma_min a) (mp_value point)) (dmax (ma_max a) (mp_value point)) in
  mkAccumulator (ma_type a) (wrap_u64 (ma_samples a + 1)) (dadd (ma_sum a) (mp_value point)) (mp_value point)
    (ma_min a) (ma_max a).

Section Observability.
Context {Q A : Type} `{QueueOps Q block} `{BlockAllocator A} (tid : Z).
Context (unordered : list string -> list string).

Record ObservabilityStack := mkStack {
  os_history_limit : Z;
  os_queue : Q;
  os_envelope_pool : ObjectPool A Envelope;
  os_metrics : gmap string MetricAccumulator;
  os_rules : gmap string AlertRule;
  os_breach_counts : gmap string Z;
  os_alerts : list AlertNotification;
  os_history : list TelemetryEvent;
  os_dropped_events : Z
}.

Definition set_store (o : ObservabilityStack) (q : Q) (pool : ObjectPool A Envelope) : ObservabilityStack :=
  mkStack (os_history_limit o) q pool (os_metrics o) (os_rules o) (os_breach_counts o) (os_alerts o)
    (os_history o) (os_dropped_events o).
Definition set_metrics (o : ObservabilityStack) (m : gmap string MetricAccumulator) : ObservabilityStack :=
  mkStack (os_history_limit o) (os_queue o) (os_envelope_pool o) m (os_rules o) (os_breach_counts o)
    (os_alerts o) (os_history o) (os_dropped_events o).
Definition set_rules (o : ObservabilityStack) (r : gmap string AlertRule) (b : gmap string Z) : ObservabilityStack :=
  mkStack (os_history_limit o) (os_queue o) (os_envelope_pool o) (os_metrics o) r b
    (os_alerts o) (os_history o) (os_dropped_events o).
Definition set_reports (o : ObservabilityStack) (a : list AlertNotification) (h : list TelemetryEvent)
    : ObservabilityStack :=
  mkStack (os_history_limit o) (os_queue o) (os_envelope_pool o) (os_metrics o) (os_rules o)
    (os_breach_counts o) a h (os_dropped_events o).
Definition count_dropped (o : ObservabilityStack) : ObservabilityStack :=
  mkStack (os_history_limit o) (os_queue o) (os_envelope_pool o) (os_metrics o) (os_rules o)
    (os_breach_counts o) (os_alerts o) (os_history o) (wrap_u64 (os_dropped_events o + 1)).

(** The queue and the pool are constructed before the limit is tested. *)
Definition Observability_new (queue : Q) (storage : A) (history_limit : Z) : outcome ObservabilityStack :=
  if history_limit =? 0 then Throw "ObservabilityStack history_limit must be positive"
  else Ret (mkStack history_limit queue (mkObjectPool storage ∅) ∅ ∅ ∅ [] [] 0).

(** ** Publishing *)

(** [create()] followed by the assignments to the members. *)
Definition make_envelope (o : ObservabilityStack) (e : Envelope) : outcome (block * ObservabilityStack) :=
  '(created, pool) ← ObjectPool_create tid (os_envelope_pool o) (inr Envelope_new);
  match created with
  | inl what => Throw what
  | inr envelope =>
    pool ← ObjectPool_write pool envelope (fun _ => e);
    Ret (envelope, set_store o (os_queue o) pool)
  end.

Definition make_metric_envelope (o : ObservabilityStack) (point : MetricPoint) : outcome (block * ObservabilityStack) :=
  make_envelope o (mkEnvelope kMetric point TraceSpan_new).
Definition make_span_envelope (o : ObservabilityStack) (span : TraceSpan) : outcome (block * ObservabilityStack) :=
  make_envelope o (mkEnvelope kSpan MetricPoint_new span).

(** The common part of the two [publish] members. *)
Definition enqueue_envelope (o : ObservabilityStack) (envelope : block)
    : outcome (PublishStatus * ObservabilityStack) :=
  '(pushed, q) ← push_impl (os_queue o) envelope;
  if negb pushed
  then
    pool ← ObjectPool_destroy tid (os_envelope_pool o) (Some envelope);
    Ret (kQueueFull, count_dropped (set_store o q pool))
  else Ret (kEnqueued, set_store o q (os_envelope_pool o)).

Definition Observability_publish_metric (o : ObservabilityStack) (point : MetricPoint)
    : outcome (PublishStatus * ObservabilityStack) :=
  '(envelope, o) ← make_metric_envelope o point;
  enqueue_envelope o envelope.

Definition Observability_publish_span (o : ObservabilityStack) (span : TraceSpan)
    : outcome (PublishStatus * ObservabilityStack) :=
  '(envelope, o) ← make_span_envelope o span;
  enqueue_envelope o envelope.

Definition Observability_register_rule (o : ObservabilityStack) (rule : AlertRule) : outcome ObservabilityStack :=
  if bool_decide (ar_rule_id rule = "") then Throw "AlertRule rule_id must not be empty"
  else if bool_decide (ar_metric_name rule = "") then Throw "AlertRule metric_name must not be empty"
  else if ar_consecutive_breaches rule =? 0 then Throw "AlertRule consecutive_breaches must be positive"
  else Ret (set_rules o (<[ar_rule_id rule := rule]> (os_rules o)) (delete (ar_rule_id rule) (os_breach_counts o))).

(** ** Processing *)

Definition record_event (o : ObservabilityStack) (event : TelemetryEvent) : ObservabilityStack :=
  let history := if Z.of_nat (length (os_history o)) =? os_history_limit o
                 then tail (os_history o) else os_history o in
  set_reports o (os_alerts o) (history ++ [event]).

Definition alert_of (rule : AlertRule) (point : MetricPoint) (breach_count : Z) : AlertNotification :=
  mkAlert (ar_rule_id rule) (ar_metric_name rule) (mp_value point) (ar_threshold rule) breach_count
    (mp_timestamp point) (ar_severity rule) (mp_trace_context point).

Definition emit_alert (o : ObservabilityStack) (rule : AlertRule) (point : MetricPoint) (breach_count : Z)
    : ObservabilityStack :=
  let o := set_reports o (os_alerts o ++ [alert_of rule point breach_count]) (os_history o) in
  record_event o (mkEvent kAlert (ar_rule_id rule) (tc_component (mp_trace_context point))
    (tc_trace_id (mp_trace_context point)) (mp_value point) (mp_timestamp point) false (ar_severity rule)).

(** The body of the loop over the rules; [breach_counts_[rule_id]] starts at 0. *)
Definition evaluate_rule (o : ObservabilityStack) (rule_id : string) (rule : AlertRule) (point : MetricPoint)
    : ObservabilityStack :=
  if negb (bool_decide (ar_metric_name rule = mp_name point)) then o
  else if dge (mp_value point) (ar_threshold rule)
  then
    let breach_count := wrap_u64 (default 0 (os_breach_counts o !! rule_id) + 1) in
    let o := if breach_count =? ar_consecutive_breaches rule then emit_alert o rule point breach_count else o in
    set_rules o (os_rules o) (<[rule_id := Z.min breach_count (ar_consecutive_breaches rule)]> (os_breach_counts o))
  else set_rules o (os_rules o) (<[rule_id := 0]> (os_breach_counts o)).

Fixpoint evaluate_loop (o : ObservabilityStack) (rule_ids : list string) (point : MetricPoint) : ObservabilityStack :=
  match rule_ids with
  | [] => o
  | rule_id :: rule_ids =>
    match os_rules o !! rule_id with
    | Some rule => evaluate_loop (evaluate_rule o rule_id rule point) rule_ids point
    | None => evaluate_loop o rule_ids point
    end
  end.

Definition evaluate_rules (o : ObservabilityStack) (point : MetricPoint) : ObservabilityStack :=
  evaluate_loop o (unordered (map fst (map_to_list (os_rules o)))) point.

Definition process_metric (o : ObservabilityStack) (point : MetricPoint) : ObservabilityStack :=
  let a := accumulate (default MetricAccumulator_new (os_metrics o !! mp_name point)) point in
  let o := set_metrics o (<[mp_name point := a]> (os_metrics o)) in
  let o := record_event o (mkEvent kMetric (mp_name point) (tc_component (mp_trace_context point))
    (tc_trace_id (mp_trace_context point)) (mp_value point) (mp_timestamp point) true kInfo) in
  evaluate_rules o point.

Definition process_span (o : ObservabilityStack) (span : TraceSpan) : outcome ObservabilityStack :=
  duration ← sub_i64 (ts_end_timestamp span) (ts_start_timestamp span);
  Ret (record_event o (mkEvent kSpan (ts_operation span) (tc_component (ts_context span))
    (tc_trace_id (ts_context span)) (double_of_Z duration) (ts_end_timestamp span) (ts_success span) kInfo)).

(** The [switch] on the kind of an envelope. *)
Definition process_envelope (o : ObservabilityStack) (e : Envelope) : outcome ObservabilityStack :=
  match ev_kind e with
  | kMetric => Ret (process_metric o (ev_metric e))
  | kSpan => process_span o (ev_span e)
  | kAlert => Ret o
  end.

Fixpoint telemetry_flush_loop (fuel : nat) (o : ObservabilityStack) (processed : Z) : outcome (Z * ObservabilityStack) :=
  match fuel with
  | O => Undef "flush does not end"
  | S fuel =>
    '(envelope, q) ← try_pop_impl (os_queue o);
    let o := set_store o q (os_envelope_pool o) in
    match envelope with
    | None => Ret (processed, o)
    | Some value =>
      e ← ObjectPool_read (os_envelope_pool o) value;
      o ← process_envelope o e;
      pool ← ObjectPool_destroy tid (os_envelope_pool o) (Some value);
      telemetry_flush_loop fuel (set_store o (os_queue o) pool) (wrap_u64 (processed + 1))
    end
  end.

(** A round takes one element, the last finds none. *)
Definition Observability_flush (o : ObservabilityStack) : outcome (Z * ObservabilityStack) :=
  telemetry_flush_loop (S (Z.to_nat (size_approx_impl (os_queue o)))) o 0.

Fixpoint dispose_loop (fuel : nat) (o : ObservabilityStack) : outcome ObservabilityStack :=
  match fuel with
  | O => Undef "drain does not end"
  | S fuel =>
    '(envelope, q) ← try_pop_impl (os_queue o);
    let o := set_store o q (os_envelope_pool o) in
    match envelope with
    | None => Ret o
    | Some value =>
      pool ← ObjectPool_destroy tid (os_envelope_pool o) (Some value);
      dispose_loop fuel (set_store o (os_queue o) pool)
    end
  end.

Definition drain_and_dispose_pending (o : ObservabilityStack) : outcome ObservabilityStack :=
  dispose_loop (S (Z.to_nat (size_approx_impl (os_queue o)))) o.

(** ** Queries *)

Definition Observability_metric_snapshot (o : ObservabilityStack) (metric_name : string) : option MetricSnapshot :=
  match os_metrics o !! metric_name with
  | None => None
  | Some a => Some (mkMetricSnapshot metric_name (ma_type a) (ma_samples a) (ma_sum a) (ma_last a) (ma_min a) (ma_max a))
  end.

Definition Observability_pending_events (o : ObservabilityStack) : Z := size_approx_impl (os_queue o).

(** ** Sequences of calls *)

Inductive telemetry_op :=
| ObMetric (point : MetricPoint)
| ObSpan (span : TraceSpan)
| ObRule (rule : AlertRule)
| ObFlush.

Inductive telemetry_result :=
| ObPublished (status : PublishStatus)
| ObRegistered (accepted : bool)
| ObFlushed (processed : Z).

(** The caller goes on after an exception of [register_rule]. *)
Definition telemetry_step (o : ObservabilityStack) (op : telemetry_op)
    : outcome (telemetry_result * ObservabilityStack) :=
  match op with
  | ObMetric point => '(s, o) ← Observability_publish_metric o point; Ret (ObPublished s, o)
  | ObSpan span => '(s, o) ← Observability_publish_span o span; Ret (ObPublished s, o)
  | ObRule rule =>
    match Observability_register_rule o rule with
    | Ret o => Ret (ObRegistered true, o)
    | Throw _ => Ret (ObRegistered false, o)
    | Undef why => Undef why
    end
  | ObFlush => '(n, o) ← Observability_flush o; Ret (ObFlushed n, o)
  end.

Fixpoint telemetry_run (o : ObservabilityStack) (ops : list telemetry_op)
    : outcome (list telemetry_result * ObservabilityStack) :=
  match ops with
  | [] => Ret ([], o)
  | op :: ops =>
    '(r, o) ← telemetry_step o op;
    '(rs, o) ← telemetry_run o ops;
    Ret (r :: rs, o)
  end.
End Observability.
Arguments ObservabilityStack Q A : clear implicits.
