(* ===== verification/ObservabilityTheorems.v ===== *)
(** * Observability stack: what it guarantees

    Published events are processed exactly once and in order or counted as dropped;
    the metrics are those of the processed points; an alert fires exactly when the
    run of consecutive breaches reaches the number its rule asks for. *)

From S2P Require Import Prelude Double Queue Spsc Allocator Pool PooledQueue Format Observability.

Local Open Scope Z_scope.

(** ** Specification

    What has taken effect is a list of actions: rules registered and events
    processed. Published events wait in a list of bounded length. *)

Inductive telemetry_action :=
| AcRule (rule : AlertRule)
| AcEvent (e : Envelope).

Record TelemetryQueue := mkTelemetry {
  tq_actions : list telemetry_action;
  tq_pending : list Envelope;
  tq_dropped : Z
}.

Definition rule_valid (rule : AlertRule) : bool :=
  negb (bool_decide (ar_rule_id rule = "")) && negb (bool_decide (ar_metric_name rule = "")) &&
  negb (ar_consecutive_breaches rule =? 0).

Definition publish_spec (capacity : Z) (t : TelemetryQueue) (e : Envelope) : telemetry_result * TelemetryQueue :=
  if Z.of_nat (length (tq_pending t)) <? capacity
  then (ObPublished kEnqueued, mkTelemetry (tq_actions t) (tq_pending t ++ [e]) (tq_dropped t))
  else (ObPublished kQueueFull, mkTelemetry (tq_actions t) (tq_pending t) (tq_dropped t + 1)).

Definition telemetry_spec (capacity : Z) (t : TelemetryQueue) (op : telemetry_op)
    : telemetry_result * TelemetryQueue :=
  match op with
  | ObMetric point => publish_spec capacity t (mkEnvelope kMetric point TraceSpan_new)
  | ObSpan span => publish_spec capacity t (mkEnvelope kSpan MetricPoint_new span)
  | ObRule rule =>
    (ObRegistered (rule_valid rule),
     if rule_valid rule then mkTelemetry (tq_actions t ++ [AcRule rule]) (tq_pending t) (tq_dropped t) else t)
  | ObFlush =>
    (ObFlushed (Z.of_nat (length (tq_pending t))),
     mkTelemetry (tq_actions t ++ map AcEvent (tq_pending t)) [] (tq_dropped t))
  end.

Fixpoint telemetry_spec_run (capacity : Z) (t : TelemetryQueue) (ops : list telemetry_op)
    : list telemetry_result * TelemetryQueue :=
  match ops with
  | [] => ([], t)
  | op :: ops =>
    let '(r, t) := telemetry_spec capacity t op in
    let '(rs, t) := telemetry_spec_run capacity t ops in
    (r :: rs, t)
  end.

(** Durations fit the type of timestamps. *)
Definition span_ok (span : TraceSpan) : Prop :=
  - two63 <= ts_end_timestamp span - ts_start_timestamp span < two63.
Definition telemetry_op_ok (op : telemetry_op) : Prop :=
  match op with ObSpan span => span_ok span | _ => True end.
Definition envelope_ok (e : Envelope) : Prop :=
  match ev_kind e with kSpan => span_ok (ev_span e) | _ => True end.

(** ** Metric summaries *)

(** The points of a metric among the actions. *)
Definition point_of (name : string) (a : telemetry_action) : option MetricPoint :=
  match a with
  | AcEvent e =>
    match ev_kind e with
    | kMetric => if bool_decide (mp_name (ev_metric e) = name) then Some (ev_metric e) else None
    | _ => None
    end
  | AcRule _ => None
  end.
Definition points_of (name : string) (l : list telemetry_action) : list MetricPoint := omap (point_of name) l.

(** What a snapshot must say of the points of its metric, oldest first. *)
Record summarises (points : list MetricPoint) (s : MetricSnapshot) : Prop := {
  sm_samples : sn_samples s = Z.of_nat (length points);
  sm_type : Some (sn_type s) = mp_type <$> head points;
  sm_last : Some (sn_last s) = mp_value <$> last points;
  sm_sum : sn_sum s = foldl dadd dzero (map mp_value points);
  sm_bounds : Forall (fun p => fin (mp_value p) = true) points ->
    (exists p, p ∈ points /\ mp_value p = sn_min s) /\ (exists p, p ∈ points /\ mp_value p = sn_max s) /\
    forall p, p ∈ points -> val (sn_min s) <= val (mp_value p) <= val (sn_max s)
}.

Definition snapshot_of (name : string) (a : MetricAccumulator) : MetricSnapshot :=
  mkMetricSnapshot name (ma_type a) (ma_samples a) (ma_sum a) (ma_last a) (ma_min a) (ma_max a).

Lemma accumulate_first (name : string) (p : MetricPoint) :
  summarises [p] (snapshot_of name (accumulate MetricAccumulator_new p)).
Proof.
  split; simpl; try done. intros HF. apply Forall_cons in HF as [Hp _].
  split; [exists p; split; [by apply list_elem_of_singleton|done]|].
  split; [exists p; split; [by apply list_elem_of_singleton|done]|].
  intros q ->%list_elem_of_singleton. lia.
Qed.

Lemma accumulate_next (name : string) (points : list MetricPoint) (a : MetricAccumulator) (p : MetricPoint) :
  points <> [] -> Z.of_nat (length points) + 1 < two64 -> summarises points (snapshot_of name a) ->
  summarises (points ++ [p]) (snapshot_of name (accumulate a p)).
Proof.
  intros Hne Hlen [S1 S2 S3 S4 S5]. simpl in *.
  assert (Hpos : 0 < Z.of_nat (length points)) by (destruct points; simpl; [done|lia]).
  assert (Hz : (ma_samples a =? 0) = false) by (rewrite S1; apply Z.eqb_neq; lia).
  split; simpl; rewrite ?Hz; simpl.
  - rewrite S1, wrap_u64_id, length_app; simpl; [lia|]. unfold in_u64. lia.
  - rewrite S2. by destruct points.
  - by rewrite last_snoc.
  - rewrite map_app, foldl_app. simpl. by rewrite S4.
  - intros HF. apply Forall_app in HF as [HF Hp]. apply Forall_cons in Hp as [Hp _].
    destruct (S5 HF) as ((pl & Hl & El) & (ph & Hh & Eh) & Hb). rewrite Forall_forall in HF.
    rewrite <- El in *. rewrite <- Eh in *.
    destruct (dmin_fin (mp_value pl) (mp_value p) (HF pl Hl) Hp) as [_ Vl].
    destruct (dmax_fin (mp_value ph) (mp_value p) (HF ph Hh) Hp) as [_ Vh].
    split; [|split].
    + unfold dmin. destruct (dlt _ _); [exists p|exists pl]; (split; [apply elem_of_app|done]); [right; by apply list_elem_of_singleton|by left].
    + unfold dmax. destruct (dlt _ _); [exists p|exists ph]; (split; [apply elem_of_app|done]); [right; by apply list_elem_of_singleton|by left].
    + intros q [Hq|Hq%list_elem_of_singleton]%elem_of_app; [|subst q]; rewrite Vl, Vh; [specialize (Hb q Hq)|]; lia.
Qed.

(** ** Alerts *)

Definition breaches (rule : AlertRule) (p : MetricPoint) : bool := dge (mp_value p) (ar_threshold rule).

(** The length of the run of breaches at the end of [points]. *)
Fixpoint leading_breaches (rule : AlertRule) (reversed : list MetricPoint) : Z :=
  match reversed with
  | [] => 0
  | p :: l => if breaches rule p then 1 + leading_breaches rule l else 0
  end.
Definition breach_run (rule : AlertRule) (points : list MetricPoint) : Z := leading_breaches rule (rev points).

(** The alert for the [i]-th point: the run that ends there has the asked length. *)
Definition fires_at (rule : AlertRule) (points : list MetricPoint) (i : nat) : option AlertNotification :=
  p ← points !! i;
  if breach_run rule (take (S i) points) =? ar_consecutive_breaches rule
  then Some (alert_of rule p (ar_consecutive_breaches rule)) else None.
Definition fired (rule : AlertRule) (points : list MetricPoint) : list AlertNotification :=
  omap (fires_at rule points) (seq 0 (length points)).

Lemma breach_run_snoc (rule : AlertRule) (points : list MetricPoint) (p : MetricPoint) :
  breach_run rule (points ++ [p]) = if breaches rule p then 1 + breach_run rule points else 0.
Proof. unfold breach_run. by rewrite rev_app_distr. Qed.

Lemma breach_run_bounds (rule : AlertRule) (points : list MetricPoint) :
  0 <= breach_run rule points <= Z.of_nat (length points).
Proof.
  unfold breach_run. rewrite <- length_rev. induction (rev points) as [|p l IH]; simpl; [lia|].
  destruct (breaches rule p); lia.
Qed.

Lemma fired_snoc (rule : AlertRule) (points : list MetricPoint) (p : MetricPoint) :
  fired rule (points ++ [p]) = fired rule points ++
    (if breach_run rule (points ++ [p]) =? ar_consecutive_breaches rule
     then [alert_of rule p (ar_consecutive_breaches rule)] else []).
Proof.
  unfold fired. rewrite length_app. simpl. rewrite Nat.add_1_r, seq_S, omap_app. simpl. f_equal.
  - apply list_omap_ext, Forall_Forall2_diag, Forall_forall. intros i Hi%elem_of_seq. unfold fires_at.
    rewrite lookup_app_l, take_app_le by lia. done.
  - unfold fires_at. rewrite lookup_app_r, Nat.sub_diag by lia. simpl.
    rewrite take_ge by (rewrite length_app; simpl; lia). by destruct (_ =? _).
Qed.

Section Runs.
Context {Q A : Type} `{HQ : QueueLaws Q block} `{HA : BlockAllocatorLaws A} (tid : Z).
Context (unordered : list string -> list string) `{HU : !UnorderedLaws unordered}.

Implicit Types o : ObservabilityStack Q A.

(** ** Processing does not touch queue and pool *)

Definition same_store o o' : Prop :=
  os_queue o' = os_queue o /\ os_envelope_pool o' = os_envelope_pool o /\
  os_history_limit o' = os_history_limit o /\ os_dropped_events o' = os_dropped_events o.

#[local] Instance same_store_refl : Reflexive same_store.
Proof using Type. done. Qed.
#[local] Instance same_store_trans : Transitive same_store.
Proof using Type. intros x y z (?&?&?&?) (?&?&?&?). split_and!; congruence. Qed.

(** What an action does to the rest of the state. *)
Definition take_action o (a : telemetry_action) : ObservabilityStack Q A :=
  match a with
  | AcRule rule =>
    set_rules o (<[ar_rule_id rule := rule]> (os_rules o)) (delete (ar_rule_id rule) (os_breach_counts o))
  | AcEvent e =>
    match ev_kind e with
    | kMetric => process_metric unordered o (ev_metric e)
    | kSpan => record_event o (mkEvent kSpan (ts_operation (ev_span e)) (tc_component (ts_context (ev_span e)))
        (tc_trace_id (ts_context (ev_span e))) (double_of_Z (ts_end_timestamp (ev_span e) - ts_start_timestamp (ev_span e)))
        (ts_end_timestamp (ev_span e)) (ts_success (ev_span e)) kInfo)
    | kAlert => o
    end
  end.

Lemma process_ret o (e : Envelope) : envelope_ok e ->
  process_envelope unordered o e = Ret (take_action o (AcEvent e)).
Proof using Type.
  unfold process_envelope, envelope_ok, take_action, process_span, sub_i64. destruct (ev_kind e); try done.
  intros Hok. by rewrite checked_i64_ret, bind_ret.
Qed.

Lemma evaluate_rule_store o (id : string) (rule : AlertRule) (p : MetricPoint) :
  same_store o (evaluate_rule o id rule p).
Proof using Type.
  unfold evaluate_rule. destruct (negb _); [done|]. destruct (dge _ _); [|done]. cbv zeta.
  by destruct (_ =? ar_consecutive_breaches rule).
Qed.

(** The same telemetry with another queue, pool and count of dropped events. *)
Definition relocate o (q : Q) (pool : ObjectPool A Envelope) (dropped : Z) : ObservabilityStack Q A :=
  mkStack (os_history_limit o) q pool (os_metrics o) (os_rules o) (os_breach_counts o) (os_alerts o)
    (os_history o) dropped.

Lemma evaluate_rule_swap o (id : string) (rule : AlertRule) (p : MetricPoint) q pool d :
  evaluate_rule (relocate o q pool d) id rule p = relocate (evaluate_rule o id rule p) q pool d.
Proof using Type.
  unfold evaluate_rule. destruct (negb _); [done|]. destruct (dge _ _); [|done]. cbv zeta. simpl os_breach_counts.
  by destruct (_ =? ar_consecutive_breaches rule).
Qed.

Lemma evaluate_rule_rules o (id : string) (rule : AlertRule) (p : MetricPoint) :
  os_rules (evaluate_rule o id rule p) = os_rules o /\ os_metrics (evaluate_rule o id rule p) = os_metrics o.
Proof using Type.
  unfold evaluate_rule. destruct (negb _); [done|]. destruct (dge _ _); [|done]. cbv zeta.
  by destruct (_ =? ar_consecutive_breaches rule).
Qed.

Lemma evaluate_loop_frame (p : MetricPoint) (ids : list string) : forall o,
  same_store o (evaluate_loop o ids p) /\ os_rules (evaluate_loop o ids p) = os_rules o /\
  os_metrics (evaluate_loop o ids p) = os_metrics o /\
  forall q pool d, evaluate_loop (relocate o q pool d) ids p = relocate (evaluate_loop o ids p) q pool d.
Proof using Type.
  induction ids as [|id ids IH]; intros o; simpl; [done|]. destruct (os_rules o !! id) as [rule|]; [|apply IH].
  destruct (IH (evaluate_rule o id rule p)) as (S & R & M & C). destruct (evaluate_rule_rules o id rule p) as [R1 M1].
  split; [by rewrite <- S; apply evaluate_rule_store|]. split; [congruence|]. split; [congruence|].
  intros q pool d. by rewrite evaluate_rule_swap, C.
Qed.

Lemma take_action_store o (a : telemetry_action) : same_store o (take_action o a).
Proof using Type.
  destruct a as [rule|e]; [done|]. simpl. destruct (ev_kind e); try done.
  unfold process_metric, evaluate_rules. cbv zeta.
  match goal with |- same_store _ (evaluate_loop ?o' ?ids ?p) => destruct (evaluate_loop_frame p ids o') as [S _] end.
  by rewrite <- S.
Qed.

Lemma take_action_relocate o (a : telemetry_action) q pool d :
  take_action (relocate o q pool d) a = relocate (take_action o a) q pool d.
Proof using Type.
  destruct a as [rule|e]; [done|]. simpl. destruct (ev_kind e); try done.
  unfold process_metric, evaluate_rules. cbv zeta.
  match goal with |- _ = relocate (evaluate_loop ?o' ?ids ?p) _ _ _ => destruct (evaluate_loop_frame p ids o') as (_ & _ & _ & C) end.
  by rewrite <- C.
Qed.

Lemma take_action_swap o (a : telemetry_action) q pool :
  take_action (set_store o q pool) a = set_store (take_action o a) q pool.
Proof using Type.
  change (set_store o q pool) with (relocate o q pool (os_dropped_events o)). rewrite take_action_relocate.
  destruct (take_action_store o a) as (_ & _ & _ & <-). done.
Qed.

Lemma set_store_same o : set_store o (os_queue o) (os_envelope_pool o) = o.
Proof using Type. by destruct o. Qed.
Lemma set_store_twice o q pool q' pool' : set_store (set_store o q pool) q' pool' = set_store o q' pool'.
Proof using Type. done. Qed.

(** ** Envelopes in flight *)

Definition in_flight o (l : list Envelope) : Prop := pointed (os_queue o) (os_envelope_pool o) l.

Lemma in_flight_ext o o' (l : list Envelope) : same_store o o' -> in_flight o l -> in_flight o' l.
Proof using Type. unfold in_flight. by intros (-> & -> & _ & _). Qed.

(** ** Publishing *)

Lemma make_envelope_spec o (l : list Envelope) (e : Envelope) : in_flight o l ->
  exists b pool, make_envelope tid o e = Ret (b, set_store o (os_queue o) pool) /\
    op_objects (os_envelope_pool o) !! b = None /\ object_pool_wf pool /\
    op_objects pool = <[b := e]> (op_objects (os_envelope_pool o)).
Proof using Type*.
  intros [_ HP]. unfold make_envelope.
  destruct (create_spec tid (os_envelope_pool o) Envelope_new HP) as (b & storage & Hb & -> & HP1). rewrite bind_ret. cbn match.
  destruct (write_spec _ b (fun _ => e) Envelope_new HP1 (lookup_insert_eq _ _ _)) as [-> HP2]. rewrite bind_ret.
  simpl in *. rewrite insert_insert_eq in *. eexists b, _. by split_and!.
Qed.

Lemma publish_envelope_spec o (l : list Envelope) (e : Envelope) : in_flight o l ->
  exists q pool, room q = room (os_queue o) /\
    if Z.of_nat (length l) <? room (os_queue o)
    then ('(b, o1) ← make_envelope tid o e; enqueue_envelope tid o1 b) = Ret (kEnqueued, set_store o q pool) /\
      in_flight (set_store o q pool) (l ++ [e])
    else ('(b, o1) ← make_envelope tid o e; enqueue_envelope tid o1 b) = Ret (kQueueFull, count_dropped (set_store o q pool)) /\
      in_flight (set_store o q pool) l.
Proof using Type*.
  intros F. destruct (make_envelope_spec o l e F) as (b & pool & -> & Hb & HP & Eo). rewrite bind_ret.
  unfold enqueue_envelope. cbn [set_store os_queue os_envelope_pool].
  pose proof (pointed_push tid _ _ pool l b e F Hb Eo HP) as HS. destruct (_ <? _).
  - destruct HS as (q & -> & Hr & F'). rewrite bind_ret. exists q, pool. by split_and!.
  - destruct HS as (-> & pool' & Hd & F'). rewrite bind_ret. cbn [negb]. cbn match. rewrite Hd, bind_ret.
    by exists (os_queue o), pool'.
Qed.

(** ** Flushing *)

Definition take_actions o (l : list telemetry_action) : ObservabilityStack Q A := foldl take_action o l.

Lemma take_actions_swap (l : list telemetry_action) : forall o q pool,
  take_actions (set_store o q pool) l = set_store (take_actions o l) q pool.
Proof using Type. induction l as [|a l IH]; intros o q pool; simpl; [done|]. by rewrite take_action_swap, IH. Qed.

Lemma take_actions_store (l : list telemetry_action) : forall o, same_store o (take_actions o l).
Proof using Type. induction l as [|a l IH]; intros o; simpl; [done|]. rewrite <- IH. apply take_action_store. Qed.


Lemma telemetry_flush_loop_spec (l : list Envelope) : forall fuel o n, in_flight o l -> Forall envelope_ok l ->
  (length l < fuel)%nat ->
  exists q pool, telemetry_flush_loop tid unordered fuel o (wrap_u64 n) =
      Ret (wrap_u64 (n + Z.of_nat (length l)), set_store (take_actions o (map AcEvent l)) q pool) /\
    in_flight (set_store (take_actions o (map AcEvent l)) q pool) [] /\ room q = room (os_queue o).
Proof using Type*.
  induction l as [|e l IH]; intros [|fuel] o n F Hok Hf; simpl in Hf; try lia; cbn [telemetry_flush_loop map length].
  - destruct (pointed_pop_empty _ _ F) as [-> _]. rewrite bind_ret. exists (os_queue o), (os_envelope_pool o).
    rewrite Z.add_0_r. simpl. by rewrite !set_store_same.
  - destruct (pointed_pop tid _ _ _ _ F) as (b & q & pool & -> & Hr & Hb & Hd & F'). rewrite bind_ret. cbn match. cbv zeta.
    cbn [set_store os_queue os_envelope_pool]. rewrite Hb, bind_ret. apply Forall_cons in Hok as [Hoe Hok].
    rewrite (process_ret _ e Hoe), bind_ret.
    destruct (take_action_store (set_store o q (os_envelope_pool o)) (AcEvent e)) as (Eq & Ep & _ & _).
    rewrite Ep. cbn [set_store os_queue os_envelope_pool] in *. rewrite Hd, bind_ret, Eq.
    rewrite take_action_swap, set_store_twice. set (o1 := set_store (take_action o (AcEvent e)) q pool).
    rewrite wrap_u64_add. destruct (IH fuel o1 (n + 1) F' Hok ltac:(lia)) as (q' & pool' & -> & F2 & Hr').
    unfold o1 in *. rewrite take_actions_swap, set_store_twice in *. simpl in Hr'.
    exists q', pool'. split; [|split; [exact F2|congruence]]. do 2 f_equal. f_equal. lia.
Qed.

Lemma flush_spec o (l : list Envelope) : in_flight o l -> Forall envelope_ok l -> Z.of_nat (length l) < two64 ->
  exists q pool, Observability_flush tid unordered o =
      Ret (Z.of_nat (length l), set_store (take_actions o (map AcEvent l)) q pool) /\
    in_flight (set_store (take_actions o (map AcEvent l)) q pool) [] /\ room q = room (os_queue o).
Proof using Type*.
  intros F Hok Hl. unfold Observability_flush. rewrite (pointed_length _ _ _ F), Nat2Z.id.
  destruct (telemetry_flush_loop_spec l (S (length l)) o 0 F Hok ltac:(lia)) as (q & pool & E & F' & Hr).
  change (wrap_u64 0) with 0 in E. rewrite wrap_u64_id in E by (unfold in_u64; lia). by exists q, pool.
Qed.

(** ** Runs *)

Lemma take_actions_relocate (l : list telemetry_action) : forall o q pool d,
  take_actions (relocate o q pool d) l = relocate (take_actions o l) q pool d.
Proof using Type. induction l as [|a l IH]; intros o q pool d; simpl; [done|]. by rewrite take_action_relocate, IH. Qed.

(** The state [o], started from [o0], is at [t]. *)
Record telemetry_at o0 o (t : TelemetryQueue) : Prop := {
  ta_state : exists q pool, o = relocate (take_actions o0 (tq_actions t)) q pool (tq_dropped t) /\ room q = room (os_queue o0);
  ta_flight : in_flight o (tq_pending t);
  ta_ok : Forall envelope_ok (tq_pending t)
}.

Lemma publish_at o0 o (t : TelemetryQueue) (e : Envelope) : telemetry_at o0 o t -> envelope_ok e ->
  0 <= tq_dropped t -> tq_dropped t + 1 < two64 ->
  exists s o', ('(b, o1) ← make_envelope tid o e; enqueue_envelope tid o1 b) = Ret (s, o') /\
    ObPublished s = (publish_spec (room (os_queue o0)) t e).1 /\
    telemetry_at o0 o' (publish_spec (room (os_queue o0)) t e).2.
Proof using Type*.
  intros [(q & pool & Eo & Hr) F Hok] He Hd0 Hd. destruct (publish_envelope_spec o _ e F) as (q' & pool' & Hr' & HP).
  unfold publish_spec. assert (Hq : room (os_queue o) = room (os_queue o0)) by by rewrite Eo. rewrite Hq in *.
  destruct (_ <? _); destruct HP as [-> F']; (eexists _, _; split; [done|]; split; [done|]); split; simpl; try done.
  - exists q', pool'. split; [by rewrite Eo|done].
  - apply Forall_app. by split; [|constructor].
  - exists q', pool'. split; [|done]. rewrite Eo. unfold count_dropped, relocate. simpl.
    rewrite wrap_u64_id; [done|]. unfold in_u64. lia.
Qed.

Lemma telemetry_step_at o0 o (t : TelemetryQueue) (op : telemetry_op) : telemetry_at o0 o t -> telemetry_op_ok op ->
  0 <= tq_dropped t -> tq_dropped t + 1 < two64 -> Z.of_nat (length (tq_pending t)) < two64 ->
  exists o', telemetry_step tid unordered o op = Ret ((telemetry_spec (room (os_queue o0)) t op).1, o') /\
    telemetry_at o0 o' (telemetry_spec (room (os_queue o0)) t op).2.
Proof using Type*.
  intros T Hop Hd0 Hd Hl. destruct op as [point|span|rule|]; simpl.
  - destruct (publish_at o0 o t (mkEnvelope kMetric point TraceSpan_new) T I Hd0 Hd) as (s & o' & E & Er & T').
    unfold Observability_publish_metric, make_metric_envelope. rewrite E, bind_ret, <- Er. by exists o'.
  - destruct (publish_at o0 o t (mkEnvelope kSpan MetricPoint_new span) T Hop Hd0 Hd) as (s & o' & E & Er & T').
    unfold Observability_publish_span, make_span_envelope. rewrite E, bind_ret, <- Er. by exists o'.
  - pose proof T as [(q & pool & Eo & Hr) F Hok]. unfold Observability_register_rule, rule_valid.
    destruct (bool_decide _); [by exists o|]. destruct (bool_decide _); [by exists o|].
    destruct (_ =? 0); [by exists o|]. simpl. eexists. split; [done|]. split; simpl; [|by apply (in_flight_ext o)|done].
    exists q, pool. split; [|done]. rewrite Eo. unfold take_actions. by rewrite foldl_app.
  - destruct T as [(q & pool & Eo & Hr) F Hok].
    destruct (flush_spec o _ F Hok Hl) as (q' & pool' & -> & F' & Hr'). rewrite bind_ret. eexists. split; [done|].
    split; simpl; [|done|done]. exists q', pool'. split; [|by rewrite Hr', Eo].
    rewrite Eo, take_actions_relocate. unfold take_actions. by rewrite foldl_app.
Qed.

Lemma telemetry_spec_bounds (c : Z) (t : TelemetryQueue) (op : telemetry_op) :
  0 <= tq_dropped t -> let t' := (telemetry_spec c t op).2 in
  0 <= tq_dropped t' <= tq_dropped t + 1 /\ (length (tq_pending t') <= length (tq_pending t) + 1)%nat /\
  (length (tq_actions t') + length (tq_pending t') <= length (tq_actions t) + length (tq_pending t) + 1)%nat.
Proof using Type.
  clear. intros Hd. destruct op; simpl; unfold publish_spec; repeat case_match; simpl;
    rewrite ?length_app, ?length_map; simpl; lia.
Qed.

Lemma telemetry_run_at o0 (ops : list telemetry_op) : forall (n : Z) o (t : TelemetryQueue), telemetry_at o0 o t ->
  Forall telemetry_op_ok ops -> 0 <= tq_dropped t <= n -> Z.of_nat (length (tq_pending t)) <= n ->
  n + Z.of_nat (length ops) < two64 ->
  exists o', telemetry_run tid unordered o ops = Ret ((telemetry_spec_run (room (os_queue o0)) t ops).1, o') /\
    telemetry_at o0 o' (telemetry_spec_run (room (os_queue o0)) t ops).2.
Proof using Type*.
  induction ops as [|op ops IH]; intros n o t T Hops Hd Hp Hn; simpl; [by exists o|].
  apply Forall_cons in Hops as [Hop Hops]. simpl length in Hn.
  destruct (telemetry_step_at o0 o t op T Hop ltac:(lia) ltac:(lia) ltac:(lia)) as (o1 & -> & T1). rewrite bind_ret.
  pose proof (telemetry_spec_bounds (room (os_queue o0)) t op ltac:(lia)) as HB. cbv zeta in HB.
  destruct (telemetry_spec _ t op) as [r t1]. simpl in *.
  destruct (IH (n + 1) o1 t1 T1 Hops ltac:(lia) ltac:(lia) ltac:(lia)) as (o' & -> & T'). rewrite bind_ret.
  destruct (telemetry_spec_run _ t1 ops) as [rs t']. by exists o'.
Qed.

(** ** Metrics *)

Lemma take_action_metrics o (a : telemetry_action) (name : string) :
  os_metrics (take_action o a) !! name =
    match point_of name a with
    | Some p => Some (accumulate (default MetricAccumulator_new (os_metrics o !! name)) p)
    | None => os_metrics o !! name
    end.
Proof using Type.
  destruct a as [rule|e]; [done|]. simpl. destruct (ev_kind e); [|done|done].
  unfold process_metric, evaluate_rules. cbv zeta.
  match goal with |- context [evaluate_loop ?o' ?ids ?p] => destruct (evaluate_loop_frame p ids o') as (_ & _ & -> & _) end.
  simpl. case_bool_decide as Hn; [by rewrite Hn, lookup_insert_eq|by rewrite lookup_insert_ne].
Qed.

Lemma points_of_length (name : string) (l : list telemetry_action) : (length (points_of name l) <= length l)%nat.
Proof using Type.
  clear. unfold points_of. induction l as [|a l IH]; [done|]. simpl. destruct (point_of name a); simpl.
  all: change (list_omap telemetry_action MetricPoint (point_of name) l) with (omap (point_of name) l); lia.
Qed.

Lemma take_actions_metrics o (l : list telemetry_action) (name : string) : os_metrics o = ∅ ->
  Z.of_nat (length l) < two64 ->
  match os_metrics (take_actions o l) !! name with
  | None => points_of name l = []
  | Some a => points_of name l <> [] /\ summarises (points_of name l) (snapshot_of name a)
  end.
Proof using Type.
  intros E0. induction l as [|a l IH] using rev_ind; intros Hl.
  { simpl. rewrite E0, lookup_empty. done. }
  rewrite length_app in Hl. simpl in Hl. specialize (IH ltac:(lia)). pose proof (points_of_length name l) as Hp.
  unfold take_actions, points_of in *. rewrite foldl_app, omap_app. simpl. rewrite take_action_metrics.
  destruct (point_of name a) as [p|]; [|by rewrite app_nil_r].
  split; [by destruct (omap _ l)|].
  destruct (os_metrics _ !! name) as [acc|]; simpl.
  - destruct IH as [Hne IH]. apply accumulate_next; [done|lia|done].
  - rewrite IH. apply accumulate_first.
Qed.

(** ** Rules *)

Definition alerts_for (id : string) o : list AlertNotification :=
  List.filter (fun a => bool_decide (an_rule_id a = id)) (os_alerts o).

Definition rules_keyed o : Prop := forall id rule, os_rules o !! id = Some rule -> ar_rule_id rule = id.

(** One rule, evaluated for one point of its metric. *)
Lemma evaluate_rule_self o (rule : AlertRule) (p : MetricPoint) (run : Z) :
  let id := ar_rule_id rule in
  let o' := evaluate_rule o id rule p in
  let n := ar_consecutive_breaches rule in
  0 < n < two64 - 1 -> 0 <= run -> default 0 (os_breach_counts o !! id) = Z.min run n ->
  if bool_decide (ar_metric_name rule = mp_name p)
  then let run' := if breaches rule p then 1 + run else 0 in
    default 0 (os_breach_counts o' !! id) = Z.min run' n /\
    alerts_for id o' = alerts_for id o ++ (if run' =? n then [alert_of rule p n] else [])
  else os_breach_counts o' = os_breach_counts o /\ os_alerts o' = os_alerts o.
Proof using Type.
  intros id o' n. set (m := ar_consecutive_breaches rule) in n. subst n. intros Hn Hrun Hc. subst o'. unfold evaluate_rule. case_bool_decide; simpl; [|done].
  unfold breaches. destruct (dge _ _).
  - rewrite Hc. rewrite wrap_u64_id by (unfold in_u64, two64 in *; lia). fold m.
    assert (Heq : (Z.min run m + 1 =? m) = (1 + run =? m)) by lia. rewrite Heq.
    simpl. rewrite lookup_insert_eq. simpl. split; [lia|].
    destruct (Z.eqb_spec (1 + run) m) as [E|]; [|by rewrite app_nil_r].
    unfold alerts_for. simpl. rewrite List.filter_app. simpl. rewrite bool_decide_eq_true_2 by done.
    by replace (Z.min run m + 1) with m by lia.
  - assert (Hz : (0 =? m) = false) by (apply Z.eqb_neq; lia). rewrite Hz. simpl.
    rewrite lookup_insert_eq. simpl. split; [lia|]. by rewrite app_nil_r.
Qed.

Lemma evaluate_rule_other o (id id' : string) (rule : AlertRule) (p : MetricPoint) :
  ar_rule_id rule = id' -> id' <> id ->
  os_breach_counts (evaluate_rule o id' rule p) !! id = os_breach_counts o !! id /\
  alerts_for id (evaluate_rule o id' rule p) = alerts_for id o.
Proof using Type.
  intros Er Hne. unfold evaluate_rule. destruct (negb _); [done|].
  destruct (dge _ _); [|simpl; by rewrite lookup_insert_ne]. cbv zeta. simpl.
  destruct (_ =? ar_consecutive_breaches rule); simpl; (split; [by rewrite lookup_insert_ne|]); [|done].
  unfold alerts_for. simpl. rewrite List.filter_app. simpl. rewrite Er, bool_decide_eq_false_2 by done. by rewrite app_nil_r.
Qed.

(** A loop over other rules. *)
Lemma evaluate_loop_other (id : string) (p : MetricPoint) (ids : list string) : forall o, rules_keyed o -> id ∉ ids ->
  os_breach_counts (evaluate_loop o ids p) !! id = os_breach_counts o !! id /\
  alerts_for id (evaluate_loop o ids p) = alerts_for id o.
Proof using Type.
  induction ids as [|i ids IH]; intros o K Hid; simpl; [done|]. apply not_elem_of_cons in Hid as [Hne Hid].
  destruct (os_rules o !! i) as [rule|] eqn:Ei; [|by apply IH].
  destruct (IH (evaluate_rule o i rule p)) as [-> ->]; [|done|].
  - unfold rules_keyed. rewrite (proj1 (evaluate_rule_rules o i rule p)). exact K.
  - apply evaluate_rule_other; [by apply K|done].
Qed.

(** A loop that meets the rule once does what evaluating the rule does. *)
Lemma evaluate_loop_self (rule : AlertRule) (p : MetricPoint) (ids : list string) : forall o, rules_keyed o ->
  let id := ar_rule_id rule in
  os_rules o !! id = Some rule -> NoDup ids -> id ∈ ids -> forall run, 0 <= run ->
  0 < ar_consecutive_breaches rule < two64 - 1 ->
  default 0 (os_breach_counts o !! id) = Z.min run (ar_consecutive_breaches rule) ->
  let run' := if bool_decide (ar_metric_name rule = mp_name p) then if breaches rule p then 1 + run else 0 else run in
  default 0 (os_breach_counts (evaluate_loop o ids p) !! id) = Z.min run' (ar_consecutive_breaches rule) /\
  alerts_for id (evaluate_loop o ids p) = alerts_for id o ++
    (if bool_decide (ar_metric_name rule = mp_name p) && (run' =? ar_consecutive_breaches rule)
     then [alert_of rule p (ar_consecutive_breaches rule)] else []).
Proof using Type.
  induction ids as [|i ids IH]; intros o K id Hrule Hnd Hin run Hrun Hn Hc; simpl; [by apply not_elem_of_nil in Hin|].
  apply NoDup_cons in Hnd as [Hi Hnd]. destruct (decide (i = id)) as [->|Hne].
  - rewrite Hrule. pose proof (evaluate_rule_self o rule p run Hn Hrun Hc) as HS. cbv zeta in HS. fold id in HS.
    destruct (evaluate_loop_other id p ids (evaluate_rule o id rule p)) as [-> ->].
    { unfold rules_keyed. rewrite (proj1 (evaluate_rule_rules o id rule p)). exact K. }
    { done. }
    case_bool_decide; simpl; [exact HS|]. destruct HS as [-> Hal]. unfold alerts_for. rewrite Hal, app_nil_r. done.
  - apply elem_of_cons in Hin as [Hx|Hin]; [by symmetry in Hx|].
    destruct (os_rules o !! i) as [rule'|] eqn:Ei; [|by apply IH].
    destruct (evaluate_rule_other o id i rule' p (K _ _ Ei) Hne) as [Eb Ea].
    destruct (evaluate_rule_rules o i rule' p) as [Er _]. rewrite <- Ea. apply IH; try done.
    + unfold rules_keyed. rewrite Er. exact K.
    + rewrite Er; exact Hrule.
    + rewrite <- Hc. f_equal. exact Eb.
Qed.

(** Since its registration the rule has seen [points]. *)
Record rule_at (rule : AlertRule) (before : list AlertNotification) (points : list MetricPoint) o : Prop := {
  ra_keyed : rules_keyed o;
  ra_rule : os_rules o !! ar_rule_id rule = Some rule;
  ra_count : default 0 (os_breach_counts o !! ar_rule_id rule) =
    Z.min (breach_run rule points) (ar_consecutive_breaches rule);
  ra_alerts : alerts_for (ar_rule_id rule) o = before ++ fired rule points
}.

Lemma take_action_keyed o (a : telemetry_action) : rules_keyed o -> rules_keyed (take_action o a).
Proof using Type.
  intros K. destruct a as [rule|e]; simpl.
  - intros id r. simpl. intros [[<- <-]|[_ Hr]]%lookup_insert_Some; [done|by apply K].
  - destruct (ev_kind e); try done. unfold process_metric, evaluate_rules, rules_keyed. cbv zeta.
    match goal with |- context [evaluate_loop ?o' ?ids ?p] => destruct (evaluate_loop_frame p ids o') as (_ & -> & _ & _) end.
    exact K.
Qed.

Lemma rule_registered o (rule : AlertRule) : rules_keyed o -> 0 < ar_consecutive_breaches rule ->
  rule_at rule (alerts_for (ar_rule_id rule) o) [] (take_action o (AcRule rule)).
Proof using Type.
  intros K Hn. split; simpl.
  - by apply (take_action_keyed o (AcRule rule)).
  - apply lookup_insert_eq.
  - rewrite lookup_delete_eq. simpl. unfold breach_run. simpl. lia.
  - by rewrite app_nil_r.
Qed.

Lemma rule_event o (rule : AlertRule) (before : list AlertNotification) (points : list MetricPoint) (e : Envelope) :
  0 < ar_consecutive_breaches rule < two64 - 1 -> rule_at rule before points o ->
  rule_at rule before (points ++ option_list (point_of (ar_metric_name rule) (AcEvent e))) (take_action o (AcEvent e)).
Proof using HU.
  intros Hn [K R C Al]. pose proof (take_action_keyed o (AcEvent e) K) as K'. simpl in *.
  destruct (ev_kind e); simpl; rewrite ?app_nil_r; try (by split).
  unfold process_metric, evaluate_rules in *. cbv zeta in *.
  set (o1 := record_event _ _) in *. set (p := ev_metric e) in *. set (ids := unordered _) in *.
  destruct (evaluate_loop_frame p ids o1) as (_ & Er & _ & _).
  assert (Hids : Permutation ids (map fst (map_to_list (os_rules o)))) by apply unordered_perm.
  assert (Hnd : NoDup ids) by (rewrite Hids; apply NoDup_fst_map_to_list).
  assert (Hin : ar_rule_id rule ∈ ids).
  { rewrite Hids. apply list_elem_of_fmap. exists (ar_rule_id rule, rule). split; [done|]. by apply elem_of_map_to_list. }
  destruct (evaluate_loop_self rule p ids o1 K R Hnd Hin (breach_run rule points)
    (proj1 (breach_run_bounds rule points)) Hn C) as [C' A'].
  change (alerts_for (ar_rule_id rule) o1) with (alerts_for (ar_rule_id rule) o) in A'. rewrite Al in A'.
  rewrite (bool_decide_ext (mp_name p = ar_metric_name rule) (ar_metric_name rule = mp_name p)) by (split; congruence).
  split; [done|by rewrite Er|rewrite C'|rewrite A'].
  - case_bool_decide; simpl; [by rewrite breach_run_snoc|by rewrite app_nil_r].
  - case_bool_decide; simpl; [|by rewrite !app_nil_r]. by rewrite fired_snoc, breach_run_snoc, <- app_assoc.
Qed.

Lemma rule_other o (rule other : AlertRule) (before : list AlertNotification) (points : list MetricPoint) :
  ar_rule_id other <> ar_rule_id rule -> rule_at rule before points o ->
  rule_at rule before points (take_action o (AcRule other)).
Proof using Type.
  intros Hne [K R C Al]. split; simpl.
  - by apply (take_action_keyed o (AcRule other)).
  - by rewrite lookup_insert_ne.
  - by rewrite lookup_delete_ne.
  - exact Al.
Qed.

(** The action is not a registration under the rule's id. *)
Definition keeps_rule (rule : AlertRule) (a : telemetry_action) : Prop :=
  match a with AcRule other => ar_rule_id other <> ar_rule_id rule | AcEvent _ => True end.

#[export] Instance keeps_rule_dec (rule : AlertRule) (a : telemetry_action) : Decision (keeps_rule rule a).
Proof using Type. destruct a; apply _. Defined.

Lemma keeps_all (rule : AlertRule) (l : list telemetry_action) :
  bool_decide (Forall (keeps_rule rule) l) = true -> Forall (keeps_rule rule) l.
Proof using Type. apply bool_decide_eq_true_1. Qed.

Lemma rule_actions (rule : AlertRule) (l : list telemetry_action) : forall before points o,
  0 < ar_consecutive_breaches rule < two64 - 1 -> Forall (keeps_rule rule) l -> rule_at rule before points o ->
  rule_at rule before (points ++ points_of (ar_metric_name rule) l) (take_actions o l).
Proof using HU.
  induction l as [|a l IH]; intros before points o Hn Hk R; simpl; [by rewrite app_nil_r|].
  apply Forall_cons in Hk as [Ha Hk].
  assert (R' : rule_at rule before (points ++ option_list (point_of (ar_metric_name rule) a)) (take_action o a)).
  { destruct a as [other|e]; [simpl; rewrite app_nil_r; by apply rule_other|by apply rule_event]. }
  specialize (IH before _ _ Hn Hk R'). rewrite <- app_assoc in IH.
  change (points_of (ar_metric_name rule) (a :: l)) with
    (match point_of (ar_metric_name rule) a with
     | Some p => p :: points_of (ar_metric_name rule) l | None => points_of (ar_metric_name rule) l end).
  by destruct (point_of (ar_metric_name rule) a).
Qed.

Lemma take_actions_keyed (l : list telemetry_action) : forall o, rules_keyed o -> rules_keyed (take_actions o l).
Proof using Type. induction l as [|a l IH]; intros o K; simpl; [done|]. by apply IH, take_action_keyed. Qed.

(** ** History *)

Definition newest {T} (limit : Z) (l : list T) : list T := drop (length l - Z.to_nat limit) l.

Definition alert_event (a : AlertNotification) : TelemetryEvent :=
  mkEvent kAlert (an_rule_id a) (tc_component (an_trace_context a)) (tc_trace_id (an_trace_context a))
    (an_observed_value a) (an_timestamp a) false (an_severity a).

(** The event a processed envelope leaves. *)
Definition event_of (a : telemetry_action) : option TelemetryEvent :=
  match a with
  | AcEvent e =>
    match ev_kind e with
    | kMetric => Some (mkEvent kMetric (mp_name (ev_metric e)) (tc_component (mp_trace_context (ev_metric e)))
        (tc_trace_id (mp_trace_context (ev_metric e))) (mp_value (ev_metric e)) (mp_timestamp (ev_metric e)) true kInfo)
    | kSpan => Some (mkEvent kSpan (ts_operation (ev_span e)) (tc_component (ts_context (ev_span e)))
        (tc_trace_id (ts_context (ev_span e))) (double_of_Z (ts_end_timestamp (ev_span e) - ts_start_timestamp (ev_span e)))
        (ts_end_timestamp (ev_span e)) (ts_success (ev_span e)) kInfo)
    | kAlert => None
    end
  | AcRule _ => None
  end.

Definition is_alert (e : TelemetryEvent) : bool := bool_decide (te_kind e = kAlert).

(** The history is the end of the complete record [all]. *)
Record recorded (events all : list TelemetryEvent) o : Prop := {
  rc_history : os_history o = newest (os_history_limit o) all;
  rc_events : List.filter (fun e => negb (is_alert e)) all = events;
  rc_alerts : List.filter is_alert all = map alert_event (os_alerts o)
}.

Lemma newest_snoc {T} (limit : Z) (l : list T) (e : T) : 0 < limit ->
  (if Z.of_nat (length (newest limit l)) =? limit then tail (newest limit l) else newest limit l) ++ [e] =
  newest limit (l ++ [e]).
Proof using Type.
  clear. intros Hl. unfold newest. rewrite !length_app, length_drop. simpl.
  destruct (decide (length l < Z.to_nat limit)%nat) as [Hs|Hs].
  - replace (length l - Z.to_nat limit)%nat with O by lia. replace (length l + 1 - Z.to_nat limit)%nat with O by lia.
    simpl. rewrite (proj2 (Z.eqb_neq _ _)) by lia. done.
  - rewrite (proj2 (Z.eqb_eq _ _)) by lia.
    replace (length l + 1 - Z.to_nat limit)%nat with (S (length l - Z.to_nat limit)) by lia.
    rewrite drop_app_le by lia. f_equal. rewrite <- (Nat.add_1_r (length l - Z.to_nat limit)), <- drop_drop.
    by destruct (drop _ l).
Qed.

Lemma record_event_recorded (events all : list TelemetryEvent) o (e : TelemetryEvent) : 0 < os_history_limit o ->
  recorded events all o -> is_alert e = false -> recorded (events ++ [e]) (all ++ [e]) (record_event o e).
Proof using Type.
  intros Hl [R1 R2 R3] He. split; simpl.
  - rewrite R1. by apply newest_snoc.
  - rewrite List.filter_app, R2. simpl. by rewrite He.
  - rewrite List.filter_app, R3. simpl. by rewrite He, app_nil_r.
Qed.

Lemma emit_alert_recorded (events all : list TelemetryEvent) o (rule : AlertRule) (p : MetricPoint) (n : Z) :
  0 < os_history_limit o -> recorded events all o ->
  recorded events (all ++ [alert_event (alert_of rule p n)]) (emit_alert o rule p n).
Proof using Type.
  intros Hl [R1 R2 R3]. split; simpl.
  - rewrite R1. by apply newest_snoc.
  - rewrite List.filter_app, R2. simpl. by rewrite app_nil_r.
  - rewrite List.filter_app, R3, map_app. done.
Qed.

Lemma evaluate_loop_recorded (events : list TelemetryEvent) (p : MetricPoint) (ids : list string) : forall all o,
  0 < os_history_limit o -> recorded events all o ->
  exists all', recorded events all' (evaluate_loop o ids p).
Proof using Type.
  induction ids as [|id ids IH]; intros all o Hl R; simpl; [by exists all|].
  destruct (os_rules o !! id) as [rule|]; [|by apply (IH all)].
  assert (Hone : exists all', recorded events all' (evaluate_rule o id rule p)).
  { unfold evaluate_rule. destruct (negb _); [by exists all|]. destruct (dge _ _); [|exists all; by destruct R]. cbv zeta.
    destruct (_ =? ar_consecutive_breaches rule); [|exists all; by destruct R].
    eexists. destruct (emit_alert_recorded events all o rule p
      (wrap_u64 (default 0 (os_breach_counts o !! id) + 1)) Hl R) as [R1 R2 R3]. split; [exact R1|exact R2|exact R3]. }
  destruct Hone as (all' & R'). apply (IH all'); [|done].
  destruct (evaluate_rule_store o id rule p) as (_ & _ & -> & _). done.
Qed.

Lemma take_actions_recorded (l : list telemetry_action) : forall events all o, 0 < os_history_limit o -> recorded events all o ->
  exists all', recorded (events ++ omap event_of l) all' (take_actions o l).
Proof using Type.
  induction l as [|a l IH]; intros events all o Hl R; simpl; [rewrite app_nil_r; by exists all|].
  assert (Hone : exists all', recorded (events ++ option_list (event_of a)) all' (take_action o a)).
  { destruct a as [rule|e]; simpl; [rewrite app_nil_r; exists all; by destruct R|].
    destruct (ev_kind e); simpl; [|eexists; by apply record_event_recorded|rewrite app_nil_r; by exists all].
    unfold process_metric, evaluate_rules. cbv zeta.
    match goal with |- context [evaluate_loop ?o' ?ids ?p] =>
      apply (evaluate_loop_recorded _ p ids (all ++ option_list (event_of (AcEvent (mkEnvelope kMetric p TraceSpan_new)))) o') end.
    - done.
    - apply record_event_recorded; [done|by destruct R|done]. }
  destruct Hone as (all' & R'). destruct (IH _ _ _ ltac:(by destruct (take_action_store o a) as (_ & _ & -> & _)) R') as (all2 & R2).
  exists all2. rewrite <- app_assoc in R2. by destruct (event_of a).
Qed.

(** ** Alerts without a rule *)

Lemma rule_absent (id : string) (l : list telemetry_action) : forall o, rules_keyed o ->
  os_rules o !! id = None -> Forall (fun a => match a with AcRule r => ar_rule_id r <> id | _ => True end) l ->
  alerts_for id (take_actions o l) = alerts_for id o.
Proof using HU.
  induction l as [|a l IH]; intros o K Hn Hl; simpl; [done|]. apply Forall_cons in Hl as [Ha Hl].
  assert (Hone : os_rules (take_action o a) !! id = None /\ alerts_for id (take_action o a) = alerts_for id o).
  { destruct a as [rule|e]; simpl; [by rewrite lookup_insert_ne|]. destruct (ev_kind e); [|done|done].
    unfold process_metric, evaluate_rules. cbv zeta. set (o1 := record_event _ _). set (ids := unordered _).
    destruct (evaluate_loop_frame (ev_metric e) ids o1) as (_ & -> & _ & _). split; [done|].
    apply (evaluate_loop_other id (ev_metric e) ids o1 K). unfold ids. rewrite unordered_perm.
    intros ([i r] & -> & Hi)%list_elem_of_fmap. apply elem_of_map_to_list in Hi. simpl in *. congruence. }
  destruct Hone as [Hr <-]. apply IH; [by apply take_action_keyed|done|done].
Qed.

(** ** Destruction *)

Lemma dispose_loop_spec (l : list Envelope) : forall fuel o, in_flight o l -> (length l < fuel)%nat ->
  exists o', dispose_loop tid fuel o = Ret o' /\ op_objects (os_envelope_pool o') = ∅.
Proof using Type*.
  induction l as [|e l IH]; intros [|fuel] o F Hf; simpl in Hf; try lia; cbn [dispose_loop].
  - destruct (pointed_pop_empty _ _ F) as [-> Hnone]. rewrite bind_ret. exists o. by rewrite set_store_same.
  - destruct (pointed_pop tid _ _ _ _ F) as (b & q & pool & -> & _ & _ & Hd & F'). rewrite bind_ret. cbn match. cbv zeta in *.
    cbn [set_store os_queue os_envelope_pool]. rewrite Hd, bind_ret. apply IH; [exact F'|lia].
Qed.

Lemma telemetry_spec_run_bounds (c : Z) (ops : list telemetry_op) : forall t, 0 <= tq_dropped t ->
  let t' := (telemetry_spec_run c t ops).2 in
  (length (tq_actions t') + length (tq_pending t') <= length (tq_actions t) + length (tq_pending t) + length ops)%nat.
Proof using Type.
  induction ops as [|op ops IH]; intros t Hd; simpl; [lia|]. pose proof (telemetry_spec_bounds c t op Hd) as HB. cbv zeta in HB.
  destruct (telemetry_spec c t op) as [r t1]. simpl in HB. specialize (IH t1 ltac:(lia)). cbv zeta in IH.
  destruct (telemetry_spec_run c t1 ops) as [rs t2]. simpl in *. lia.
Qed.

(** The specification of a run from construction. *)
Definition telemetry_start : TelemetryQueue := mkTelemetry [] [] 0.
Definition telemetry_end (queue : Q) (ops : list telemetry_op) : TelemetryQueue :=
  (telemetry_spec_run (room queue) telemetry_start ops).2.

Lemma telemetry_from_new (queue : Q) (storage : A) (limit : Z) (ops : list telemetry_op) :
  represents queue [] -> outstanding storage ∅ -> 0 < limit -> Forall telemetry_op_ok ops ->
  Z.of_nat (length ops) < two64 ->
  let o0 := mkStack limit queue (mkObjectPool storage ∅) ∅ ∅ ∅ [] [] 0 in
  Observability_new queue storage limit = Ret o0 /\
  exists o, telemetry_run tid unordered o0 ops = Ret ((telemetry_spec_run (room queue) telemetry_start ops).1, o) /\
    telemetry_at o0 o (telemetry_end queue ops).
Proof using Type*.
  intros Rq Ho Hl Hops Hn o0. split.
  { unfold Observability_new. by rewrite (proj2 (Z.eqb_neq _ _)) by lia. }
  assert (T : telemetry_at o0 o0 telemetry_start).
  { split; [|by apply pointed_empty|constructor]. exists queue, (mkObjectPool storage ∅). by split. }
  apply (telemetry_run_at o0 ops 0 o0 telemetry_start T Hops); simpl; lia.
Qed.

(** ** Properties *)

(** C36. Every sequence of publications, registrations and flushes returns exactly what a
    bounded list of events returns: an event is accepted unless the queue is full, in
    which case it is counted as dropped; a flush processes all accepted events once
    and in order and returns their number. No envelope leaks: the live objects of the
    pool are the pending events, and destruction disposes of all of them. *)
Theorem telemetry_refines_queue (queue : Q) (storage : A) (limit : Z) (ops : list telemetry_op) :
  represents queue [] -> outstanding storage ∅ -> 0 < limit -> Forall telemetry_op_ok ops ->
  Z.of_nat (length ops) < two64 ->
  exists o0 o, Observability_new queue storage limit = Ret o0 /\
    telemetry_run tid unordered o0 ops = Ret ((telemetry_spec_run (room queue) telemetry_start ops).1, o) /\
    Observability_pending_events o = Z.of_nat (length (tq_pending (telemetry_end queue ops))) /\
    os_dropped_events o = tq_dropped (telemetry_end queue ops) /\
    size (op_objects (os_envelope_pool o)) = length (tq_pending (telemetry_end queue ops)) /\
    exists o', drain_and_dispose_pending tid o = Ret o' /\ op_objects (os_envelope_pool o') = ∅.
Proof using Type*.
  intros Rq Ho Hl Hops Hn. destruct (telemetry_from_new queue storage limit ops Rq Ho Hl Hops Hn) as (E0 & o & E & T).
  eexists _, o. split; [exact E0|]. split; [exact E|]. destruct T as [(q & pool & Eo & _) F _].
  pose proof (pointed_length _ _ _ F) as Hlen. split; [exact Hlen|]. split; [by rewrite Eo|].
  split; [apply (pointed_live _ _ _ F)|].
  unfold drain_and_dispose_pending. rewrite Hlen, Nat2Z.id. apply (dispose_loop_spec _ _ o F). lia.
Qed.

(** C38. The snapshot of a metric summarises exactly the processed points of its name: how
    many, the type of the first, the last value, the sum in order of arrival, and, for
    finite values, a minimum and a maximum that occur and bound all of them. A metric
    without points has no snapshot. *)
Theorem telemetry_metrics_correct (queue : Q) (storage : A) (limit : Z) (ops : list telemetry_op) rs o0 o (name : string) :
  represents queue [] -> outstanding storage ∅ -> 0 < limit -> Forall telemetry_op_ok ops ->
  Z.of_nat (length ops) < two64 -> Observability_new queue storage limit = Ret o0 ->
  telemetry_run tid unordered o0 ops = Ret (rs, o) ->
  match Observability_metric_snapshot o name with
  | None => points_of name (tq_actions (telemetry_end queue ops)) = []
  | Some s => sn_name s = name /\ points_of name (tq_actions (telemetry_end queue ops)) <> [] /\
      summarises (points_of name (tq_actions (telemetry_end queue ops))) s
  end.
Proof using Type*.
  intros Rq Ho Hl Hops Hn E0 E. destruct (telemetry_from_new queue storage limit ops Rq Ho Hl Hops Hn) as (E0' & o' & E' & T).
  rewrite E0 in E0'. injection E0' as ->. rewrite E in E'. injection E' as _ <-.
  destruct T as [(q & pool & Eo & _) _ _]. unfold Observability_metric_snapshot.
  pose proof (telemetry_spec_run_bounds (room queue) ops telemetry_start ltac:(done)) as HB. cbv zeta in HB.
  fold (telemetry_end queue ops) in HB. simpl in HB.
  pose proof (take_actions_metrics (mkStack limit queue (mkObjectPool storage ∅) ∅ ∅ ∅ [] [] 0)
    (tq_actions (telemetry_end queue ops)) name eq_refl ltac:(lia)) as HM.
  assert (Em : os_metrics o = os_metrics (take_actions (mkStack limit queue (mkObjectPool storage ∅) ∅ ∅ ∅ [] [] 0)
    (tq_actions (telemetry_end queue ops)))) by by rewrite Eo.
  rewrite Em. destruct (os_metrics _ !! name) as [a|]; [|done]. by split.
Qed.

(** C37. From the registration of a rule on, an alert fires for a processed point of its
    metric exactly when the run of consecutive breaches ending at that point has
    reached the configured number: once per run, with the observed value; before its
    first registration there is no alert for it, and registering it again starts a new
    count. *)
Theorem telemetry_alerts_correct (queue : Q) (storage : A) (limit : Z) (ops : list telemetry_op) rs o0 o
    (rule : AlertRule) (pre post : list telemetry_action) :
  represents queue [] -> outstanding storage ∅ -> 0 < limit -> Forall telemetry_op_ok ops ->
  Z.of_nat (length ops) < two64 -> Observability_new queue storage limit = Ret o0 ->
  telemetry_run tid unordered o0 ops = Ret (rs, o) ->
  tq_actions (telemetry_end queue ops) = pre ++ AcRule rule :: post ->
  0 < ar_consecutive_breaches rule < two64 - 1 -> Forall (keeps_rule rule) post ->
  alerts_for (ar_rule_id rule) o =
    alerts_for (ar_rule_id rule) (take_actions o0 pre) ++ fired rule (points_of (ar_metric_name rule) post) /\
  (Forall (keeps_rule rule) pre -> alerts_for (ar_rule_id rule) (take_actions o0 pre) = []).
Proof using Type*.
  intros Rq Ho Hl Hops Hn E0 E Ea Hc Hk.
  destruct (telemetry_from_new queue storage limit ops Rq Ho Hl Hops Hn) as (E0' & o' & E' & T).
  rewrite E0 in E0'. injection E0' as ->. rewrite E in E'. injection E' as _ <-.
  destruct T as [(q & pool & Eo & _) _ _]. set (o0 := mkStack _ _ _ _ _ _ _ _ _) in *.
  assert (K0 : rules_keyed o0) by (intros id r; simpl; by rewrite lookup_empty). split.
  - pose proof (rule_registered (take_actions o0 pre) rule (take_actions_keyed pre o0 K0) ltac:(lia)) as R.
    pose proof (ra_alerts _ _ _ _ (rule_actions rule post _ _ _ Hc Hk R)) as Hal. rewrite app_nil_l in Hal. rewrite <- Hal, Eo, Ea.
    unfold take_actions. by rewrite foldl_app.
  - intros Hpre. rewrite (rule_absent (ar_rule_id rule) pre o0 K0); [done|apply lookup_empty|].
    eapply List.Forall_impl; [|exact Hpre]. by intros [r|e].
Qed.

(** The history holds the newest events, as many as its limit, of a complete record in
    which every processed metric and span appears once and in order, and so does every
    alert. *)
Lemma telemetry_history_correct (queue : Q) (storage : A) (limit : Z) (ops : list telemetry_op) rs o0 o :
  represents queue [] -> outstanding storage ∅ -> 0 < limit -> Forall telemetry_op_ok ops ->
  Z.of_nat (length ops) < two64 -> Observability_new queue storage limit = Ret o0 ->
  telemetry_run tid unordered o0 ops = Ret (rs, o) ->
  exists all, os_history o = newest limit all /\
    List.filter (fun e => negb (is_alert e)) all = omap event_of (tq_actions (telemetry_end queue ops)) /\
    List.filter is_alert all = map alert_event (os_alerts o).
Proof using Type*.
  intros Rq Ho Hl Hops Hn E0 E. destruct (telemetry_from_new queue storage limit ops Rq Ho Hl Hops Hn) as (E0' & o' & E' & T).
  rewrite E0 in E0'. injection E0' as ->. rewrite E in E'. injection E' as _ <-.
  destruct T as [(q & pool & Eo & _) _ _]. set (o0 := mkStack _ _ _ _ _ _ _ _ _) in *.
  assert (R0 : recorded [] [] o0) by by split.
  destruct (take_actions_recorded (tq_actions (telemetry_end queue ops)) [] [] o0 Hl R0) as (all & [R1 R2 R3]).
  exists all. rewrite Eo. split; [|by split]. simpl. rewrite R1.
  by destruct (take_actions_store (tq_actions (telemetry_end queue ops)) o0) as (_ & _ & -> & _).
Qed.
End Runs.

(** ** A concrete stack *)

Definition telemetry_ring : SpscRingQueue block := mkSpsc 4 3 (replicate 4 None) 0 0.

Lemma telemetry_ring_ok : represents telemetry_ring [] /\ room telemetry_ring = 4.
Proof.
  destruct (Spsc_new_spec (T := block) 4 ltac:(done)) as (q & E & R & _).
  vm_compute in E. injection E as <-. split; [by exists 0|done].
Qed.

Definition latency (value : Z) (t : Z) : telemetry_op :=
  ObMetric (mkMetricPoint "latency" (double_of_Z value) t kHistogram TraceContext_new).
Definition slow_rule : AlertRule := mkRule "slow" "latency" (double_of_Z 10) 2 kCritical.

(** Two runs of breaches of length three and one; the fifth event does not fit. *)
Definition sample_telemetry : list telemetry_op :=
  [latency 50 1; ObFlush; ObRule slow_rule; latency 12 2; latency 15 3; latency 11 4; latency 3 5; latency 99 6;
   ObFlush; latency 20 7; ObSpan (mkSpan TraceContext_new "match" 5 9 true); ObFlush].

Definition sample_stack : ObservabilityStack (SpscRingQueue block) FixedBlockPool :=
  mkStack 3 telemetry_ring (mkObjectPool sample_storage ∅) ∅ ∅ ∅ [] [] 0.

Lemma sample_telemetry_ok : Forall telemetry_op_ok sample_telemetry /\ Z.of_nat (length sample_telemetry) < two64.
Proof. split; [repeat constructor; vm_compute; congruence|done]. Qed.

Lemma sample_telemetry_run : exists rs o, telemetry_run 1 (fun l => l) sample_stack sample_telemetry = Ret (rs, o).
Proof.
  destruct telemetry_ring_ok as [R _], sample_telemetry_ok as [Hok Hn].
  destruct (telemetry_from_new 1 (fun l => l) telemetry_ring sample_storage 3 sample_telemetry R sample_storage_ok
    ltac:(lia) Hok Hn) as (_ & o & E & _). by eexists _, o.
Qed.

Lemma telemetry_refines_queue_witness :
  exists rs o, telemetry_run 1 (fun l => l) sample_stack sample_telemetry = Ret (rs, o) /\
    last rs = Some (ObFlushed 2) /\ os_dropped_events o = 1 /\ Observability_pending_events o = 0.
Proof.
  destruct telemetry_ring_ok as [R _], sample_telemetry_ok as [Hok Hn].
  destruct (telemetry_refines_queue 1 (fun l => l) telemetry_ring sample_storage 3 sample_telemetry R sample_storage_ok
    ltac:(lia) Hok Hn) as (o0 & o & E0 & E & Hp & Hd & _).
  injection E0 as <-. eexists _, o. split; [exact E|]. rewrite Hp, Hd. vm_compute. by split_and!.
Defined.

Lemma telemetry_metrics_correct_witness :
  exists rs o s, telemetry_run 1 (fun l => l) sample_stack sample_telemetry = Ret (rs, o) /\
    Observability_metric_snapshot o "latency" = Some s /\ sn_samples s = 6 /\ sn_last s = double_of_Z 20 /\
    sn_sum s = double_of_Z 111.
Proof.
  destruct telemetry_ring_ok as [R _], sample_telemetry_ok as [Hok Hn].
  destruct sample_telemetry_run as (rs & o & E).
  pose proof (telemetry_metrics_correct 1 (fun l => l) telemetry_ring sample_storage 3 sample_telemetry rs sample_stack o
    "latency" R sample_storage_ok ltac:(lia) Hok Hn eq_refl E) as HM.
  assert (Hl : length (points_of "latency" (tq_actions (telemetry_end telemetry_ring sample_telemetry))) = 6%nat)
    by (vm_compute; reflexivity).
  assert (Hlast : mp_value <$> last (points_of "latency" (tq_actions (telemetry_end telemetry_ring sample_telemetry))) =
    Some (double_of_Z 20)) by (vm_compute; reflexivity).
  assert (Hsum : foldl dadd dzero (map mp_value (points_of "latency"
    (tq_actions (telemetry_end telemetry_ring sample_telemetry)))) = double_of_Z 111) by (vm_compute; reflexivity).
  destruct (Observability_metric_snapshot o "latency") as [s|] eqn:Es; [|rewrite HM in Hl; discriminate Hl].
  destruct HM as (_ & _ & [S1 _ S3 S4 _]). exists rs, o, s. split; [exact E|]. split; [exact Es|].
  split; [by rewrite S1, Hl|]. rewrite Hlast in S3. split; [by apply (inj Some)|by rewrite S4].
Defined.

Lemma telemetry_alerts_correct_witness :
  exists rs o, telemetry_run 1 (fun l => l) sample_stack sample_telemetry = Ret (rs, o) /\
    map (fun a => (an_observed_value a, an_timestamp a)) (alerts_for "slow" o) = [(double_of_Z 15, 3)].
Proof.
  destruct telemetry_ring_ok as [R _], sample_telemetry_ok as [Hok Hn].
  destruct sample_telemetry_run as (rs & o & E). exists rs, o. split; [exact E|].
  destruct (telemetry_alerts_correct 1 (fun l => l) telemetry_ring sample_storage 3 sample_telemetry rs sample_stack o
    slow_rule (take 1 (tq_actions (telemetry_end telemetry_ring sample_telemetry)))
    (drop 2 (tq_actions (telemetry_end telemetry_ring sample_telemetry))) R sample_storage_ok ltac:(lia) Hok Hn eq_refl E)
    as [HA H0].
  - vm_compute. reflexivity.
  - vm_compute. by split.
  - apply keeps_all. vm_compute. reflexivity.
  - change "slow" with (ar_rule_id slow_rule).
    rewrite HA, H0 by (apply keeps_all; vm_compute; reflexivity). vm_compute. reflexivity.
Defined.

Example telemetry_history_correct_sample :
  exists rs o, telemetry_run 1 (fun l => l) sample_stack sample_telemetry = Ret (rs, o) /\
    exists all, os_history o = newest 3 all /\
      List.filter (fun e => negb (is_alert e)) all =
        omap event_of (tq_actions (telemetry_end telemetry_ring sample_telemetry)).
Proof.
  destruct telemetry_ring_ok as [R _], sample_telemetry_ok as [Hok Hn].
  destruct sample_telemetry_run as (rs & o & E). exists rs, o. split; [exact E|].
  destruct (telemetry_history_correct 1 (fun l => l) telemetry_ring sample_storage 3 sample_telemetry rs sample_stack o
    R sample_storage_ok ltac:(lia) Hok Hn eq_refl E) as (all & H1 & H2 & _). exists all.
  split; [exact H1|exact H2].
Defined.
