(* ===== verification/Toolkit.v ===== *)
(** * Performance toolkit: data and operations
    ([tooling/performance-toolkit])

    Synthetic order flow is generated into a queue of pool-allocated requests;
    latencies are recorded and summarised by their percentiles. The queue is any
    [QueueOps] of addresses, the storage of the pool any [BlockAllocator]. *)

From S2P Require Import Prelude Double Queue Allocator Format.

Local Open Scope Z_scope.

Inductive FlowPattern := kLimitOnly | kMarketBurst | kMixed.

Record WorkloadConfig := mkWorkload {
  wc_scenario_name : string;
  wc_pattern : FlowPattern;
  wc_request_count : Z;
  wc_burst_size : Z;
  wc_concurrency : Z;
  wc_base_timestamp_ms : Z
}.

Record SyntheticRequest := mkSynthetic {
  sy_request_id : string;
  sy_is_market : bool;
  sy_price : double;
  sy_quantity : double;
  sy_timestamp_ms : Z
}.

Record LatencySummary := mkSummary {
  ls_samples : Z;
  ls_min_ns : Z;
  ls_p50_ns : Z;
  ls_p99_ns : Z;
  ls_p999_ns : Z;
  ls_max_ns : Z;
  ls_throughput_per_second : double;
  ls_success_ratio : double
}.

Record LatencyRecord := mkLatency {
  lr_latency_ns : Z;
  lr_success : bool
}.

Definition LatencySummary_new : LatencySummary := mkSummary 0 0 0 0 0 0 dzero dzero.

(** [static_cast<std::int64_t>] of an unsigned value. *)
Definition i64_of_u64 (z : Z) : Z := if z <? two63 then z else z - two64.

(** [static_cast<std::size_t>(std::ceil(x))]: undefined out of range. *)
Definition size_of_ceil (x : double) : outcome Z :=
  let c := - ((- val x) / 2 ^ 1074) in
  if is_finite x && in_u64 c then Ret c else Undef "conversion out of range".

Definition is_market_at (config : WorkloadConfig) (index : Z) : bool :=
  match wc_pattern config with
  | kMarketBurst => index mod Z.max (wc_burst_size config) 1 =? 0
  | kMixed => index mod 3 =? 0
  | kLimitOnly => false
  end.

Definition make_request (config : WorkloadConfig) (index : Z) : outcome SyntheticRequest :=
  let is_market := is_market_at config index in
  let spread := double_of_Z (index mod 11 - 5) in
  timestamp_ms ← add_i64 (wc_base_timestamp_ms config) (i64_of_u64 (index / wc_concurrency config));
  Ret (mkSynthetic (wc_scenario_name config +:+ "-" +:+ decimal (wrap_u64 (index + 1))) is_market
    (if is_market then dzero else dadd (double_of_Z 10000) spread)
    (dadd (dlit 1 1) (dmul (double_of_Z (index mod 5)) (dlit 5 2))) timestamp_ms).

(** The index is bounded by the size before the access. *)
Definition percentile (sorted_values : list Z) (rank : double) : outcome Z :=
  match sorted_values with
  | [] => Ret 0
  | _ =>
    index ← size_of_ceil (dmul rank (double_of_Z (Z.of_nat (length sorted_values))));
    deref (sorted_values !! Z.to_nat (Z.min (if index =? 0 then 0 else index - 1)
             (Z.of_nat (length sorted_values) - 1))) "vector index out of range"
  end.

(** [std::sort] of integers has one possible result. *)
Definition sort_latencies (l : list Z) : list Z := merge_sort Z.le l.

Section Toolkit.
Context {Q A : Type} `{QueueOps Q block} `{BlockAllocator A} (tid : Z).

Record PerformanceToolkit := mkToolkit {
  pt_queue : Q;
  pt_envelope_pool : ObjectPool A SyntheticRequest;
  pt_latencies : list LatencyRecord;
  pt_dropped_requests : Z
}.

Definition Toolkit_new (queue : Q) (storage : A) : PerformanceToolkit :=
  mkToolkit queue (mkObjectPool storage ∅) [] 0.

Definition Toolkit_record_latency (k : PerformanceToolkit) (latency_ns : Z) (success : bool) : PerformanceToolkit :=
  mkToolkit (pt_queue k) (pt_envelope_pool k) (pt_latencies k ++ [mkLatency latency_ns success])
    (pt_dropped_requests k).

(** One round of the loop: the request is accepted or dropped. *)
Definition enqueue_request (k : PerformanceToolkit) (request : SyntheticRequest)
    : outcome (bool * PerformanceToolkit) :=
  '(created, pool) ← ObjectPool_create tid (pt_envelope_pool k) (inr request);
  match created with
  | inl what => Throw what
  | inr envelope =>
    '(pushed, q) ← push_impl (pt_queue k) envelope;
    if negb pushed
    then
      pool ← ObjectPool_destroy tid pool (Some envelope);
      Ret (false, mkToolkit q pool (pt_latencies k) (wrap_u64 (pt_dropped_requests k + 1)))
    else Ret (true, mkToolkit q pool (pt_latencies k) (pt_dropped_requests k))
  end.

(** The loop from [index] on; [rounds] are left. *)
Fixpoint enqueue_loop (rounds : nat) (config : WorkloadConfig) (index accepted : Z) (k : PerformanceToolkit)
    : outcome (Z * PerformanceToolkit) :=
  match rounds with
  | O => Ret (accepted, k)
  | S rounds =>
    request ← make_request config index;
    '(ok, k) ← enqueue_request k request;
    enqueue_loop rounds config (index + 1) (if (ok : bool) then wrap_u64 (accepted + 1) else accepted) k
  end.

Definition Toolkit_enqueue_workload (k : PerformanceToolkit) (config : WorkloadConfig)
    : outcome (Z * PerformanceToolkit) :=
  if bool_decide (wc_scenario_name config = "") || (wc_request_count config =? 0) || (wc_concurrency config =? 0)
  then Throw "WorkloadConfig must specify scenario_name, request_count, and concurrency"
  else enqueue_loop (Z.to_nat (wc_request_count config)) config 0 0 k.

Definition Toolkit_poll_request (k : PerformanceToolkit) : outcome (option SyntheticRequest * PerformanceToolkit) :=
  '(envelope, q) ← try_pop_impl (pt_queue k);
  match envelope with
  | None => Ret (None, mkToolkit q (pt_envelope_pool k) (pt_latencies k) (pt_dropped_requests k))
  | Some value =>
    request ← ObjectPool_read (pt_envelope_pool k) value;
    pool ← ObjectPool_destroy tid (pt_envelope_pool k) (Some value);
    Ret (Some request, mkToolkit q pool (pt_latencies k) (pt_dropped_requests k))
  end.

Definition success_count (l : list LatencyRecord) : Z := Z.of_nat (length (List.filter lr_success l)).

Definition Toolkit_summarize (k : PerformanceToolkit) (duration_seconds : double) : outcome LatencySummary :=
  match pt_latencies k with
  | [] => Ret LatencySummary_new
  | _ =>
    let sorted_latencies := sort_latencies (map lr_latency_ns (pt_latencies k)) in
    let samples := Z.of_nat (length sorted_latencies) in
    min_ns ← deref (head sorted_latencies) "front of an empty vector";
    p50_ns ← percentile sorted_latencies (dlit 50 2);
    p99_ns ← percentile sorted_latencies (dlit 99 2);
    p999_ns ← percentile sorted_latencies (dlit 999 3);
    max_ns ← deref (last sorted_latencies) "back of an empty vector";
    Ret (mkSummary samples min_ns p50_ns p99_ns p999_ns max_ns
      (if dgt duration_seconds dzero then ddiv (double_of_Z samples) duration_seconds else dzero)
      (ddiv (double_of_Z (success_count (pt_latencies k))) (double_of_Z samples)))
  end.

Definition newline : string := String (Ascii.ascii_of_nat 10) EmptyString.

Definition Toolkit_render_report (k : PerformanceToolkit) (scenario_name : string) (duration_seconds : double)
    : outcome string :=
  summary ← Toolkit_summarize k duration_seconds;
  Ret ("scenario=" +:+ scenario_name +:+ newline +:+
    "samples=" +:+ decimal (ls_samples summary) +:+ " throughput=" +:+
      format_double (ls_throughput_per_second summary) +:+ newline +:+
    "p50_ns=" +:+ decimal (ls_p50_ns summary) +:+ " p99_ns=" +:+ decimal (ls_p99_ns summary) +:+
      " p999_ns=" +:+ decimal (ls_p999_ns summary) +:+ newline +:+
    "success_ratio=" +:+ format_double (ls_success_ratio summary) +:+ " dropped_requests=" +:+
      decimal (pt_dropped_requests k) +:+ newline +:+
    (if 5000000 <? ls_p99_ns summary then "bottleneck_hint=tail_latency_hot_path"
     else if 0 <? pt_dropped_requests k then "bottleneck_hint=ingress_queue_pressure"
     else "bottleneck_hint=stable") +:+ newline).

Definition Toolkit_pending_requests (k : PerformanceToolkit) : Z := size_approx_impl (pt_queue k).

Fixpoint drain_pending_loop (fuel : nat) (k : PerformanceToolkit) : outcome PerformanceToolkit :=
  match fuel with
  | O => Undef "drain does not end"
  | S fuel =>
    '(envelope, q) ← try_pop_impl (pt_queue k);
    match envelope with
    | None => Ret (mkToolkit q (pt_envelope_pool k) (pt_latencies k) (pt_dropped_requests k))
    | Some value =>
      pool ← ObjectPool_destroy tid (pt_envelope_pool k) (Some value);
      drain_pending_loop fuel (mkToolkit q pool (pt_latencies k) (pt_dropped_requests k))
    end
  end.

Definition Toolkit_drain_pending (k : PerformanceToolkit) : outcome PerformanceToolkit :=
  drain_pending_loop (S (Z.to_nat (size_approx_impl (pt_queue k)))) k.
End Toolkit.
Arguments PerformanceToolkit Q A : clear implicits.
