(* ===== verification/ToolkitTheorems.v ===== *)
(** * Performance toolkit: what it guarantees

    A workload is accepted as far as the queue has room and dropped beyond, requests
    come out as generated and in order, and the reported percentiles are those of the
    nearest-rank definition although they are computed in floating point. *)

From S2P Require Import Prelude Double Queue Spsc Allocator Pool PooledQueue Format Toolkit.
From Stdlib Require Import SpecFloat.

Local Open Scope Z_scope.

(** ** The rank of a percentile *)

(** A positive count as a double: a 53-bit mantissa and a negative exponent. *)
Lemma count_double (n : Z) : 0 < n <= 2 ^ 40 ->
  exists my j, double_of_Z n = S754_finite false my (- j) /\ Zpos my = n * 2 ^ j /\ 12 <= j <= 52 /\
    2 ^ 52 <= Zpos my < 2 ^ 53.
Proof.
  intros Hn. destruct (normalize_spec n 0 false ltac:(lia)) as (_ & Hf & _). fold (double_of_Z n) in Hf.
  change (0 + 1074) with 1074 in Hf.
  assert (Hr : rnd (n * 2 ^ 1074) = n * 2 ^ 1074).
  { apply rnd_exact; [|lia]. rewrite Z.abs_eq by lia. transitivity (2 ^ 40); [lia|by apply Z.pow_le_mono_r]. }
  rewrite Hr in Hf. assert (Hb : Z.abs (n * 2 ^ 1074) < dbig).
  { rewrite Z.abs_eq by (apply Z.mul_nonneg_nonneg; [lia|by apply Z.pow_nonneg]). unfold dbig.
    rewrite Z.pow_add_r, (Z.mul_comm n), (Z.mul_comm (2 ^ 1024)) by lia. apply Z.mul_lt_mono_pos_l; [by apply Z.pow_pos_nonneg|].
    transitivity (2 ^ 41); [lia|by apply Z.pow_lt_mono_r]. }
  destruct (Hf Hb) as [Hfin Hval]. clear Hf Hr Hb. pose proof (fin_inv _ Hfin) as HI.
  destruct (double_of_Z n) as [s|s| |s m e]; try done.
  { exfalso. change (0 = n * 2 ^ 1074) in Hval. symmetry in Hval. apply Z.mul_eq_0 in Hval as [Hz|Hz]; [lia|].
    revert Hz. apply Z.pow_nonzero; lia. }
  change (cond_Zopp s (Zpos m * 2 ^ (e + 1074)) = n * 2 ^ 1074) in Hval. destruct HI as (Hl & He & Hc).
  pose proof (Z.pow_pos_nonneg 2 1074 ltac:(lia) ltac:(lia)) as HT.
  assert (Hs : s = false).
  { destruct s; [|done]. exfalso. pose proof (Z.pow_nonneg 2 (e + 1074) ltac:(lia)). unfold cond_Zopp in Hval.
    assert (0 <= Zpos m * 2 ^ (e + 1074)) by nia. assert (0 < n * 2 ^ 1074) by (apply Z.mul_pos_pos; [lia|exact HT]). lia. }
  subst s. unfold cond_Zopp in Hval.
  assert (Hlog : (e + 1074) + Z.log2 (Zpos m) = 1074 + Z.log2 n).
  { rewrite <- !Z.log2_mul_pow2 by lia. by rewrite Hval. }
  pose proof (Z.log2_nonneg n) as Hl0.
  assert (Hl40 : Z.log2 n <= 40).
  { rewrite <- (Z.log2_pow2 40) by lia. apply Z.log2_le_mono. lia. }
  specialize (Hc ltac:(lia)). exists m, (- e). rewrite Z.opp_involutive.
  assert (Hm : Zpos m = n * 2 ^ (- e)).
  { assert (Hsplit : n * 2 ^ 1074 = n * 2 ^ (- e) * 2 ^ (e + 1074)).
    { rewrite <- Z.mul_assoc, <- Z.pow_add_r by lia. do 2 f_equal. lia. }
    rewrite Hsplit in Hval. apply Z.mul_cancel_r in Hval; [done|]. apply Z.pow_nonzero; lia. }
  pose proof (Z.log2_spec (Zpos m) ltac:(lia)) as HL. rewrite Hc in HL. change (Z.succ 52) with 53 in HL.
  split_and!; (done || lia).
Qed.

(** The rank [k * n / 1000], rounded up. *)
Definition exact_rank (k n : Z) : Z := (k * n + 999) / 1000.

Lemma exact_rank_spec (k n : Z) : 0 < k <= 1000 -> 0 < n ->
  1000 * (exact_rank k n - 1) + 1 <= k * n <= 1000 * exact_rank k n /\ 1 <= exact_rank k n <= n.
Proof.
  intros Hk Hn. unfold exact_rank.
  pose proof (Z.div_mod (k * n + 999) 1000 ltac:(lia)). pose proof (Z.mod_pos_bound (k * n + 999) 1000 ltac:(lia)).
  assert (1000 * ((k * n + 999) / 1000 - 1) + 1 <= k * n <= 1000 * ((k * n + 999) / 1000)) by lia. split; [done|nia].
Qed.

(** The product of the mantissas of the fraction [m / 2^53] just below [k / 1000] and of
    the count [n], rounded to 53 bits, lies between the exact rank and its predecessor. *)
Lemma rank_product (k d n j : Z) (m my : positive) : 2 ^ 52 <= Zpos m < 2 ^ 53 -> 1000 * Zpos m = k * 2 ^ 53 - d ->
  0 <= d <= 80 -> 0 < k <= 1000 -> 0 < n <= 2 ^ 40 ->
  Zpos my = n * 2 ^ j -> 12 <= j <= 52 -> 2 ^ 52 <= Zpos my < 2 ^ 53 ->
  let P := Zpos m * Zpos my in
  let R := rne P (Z.log2 P - 52) * 2 ^ (Z.log2 P - 52) in
  104 <= Z.log2 P <= 105 /\ (exact_rank k n - 1) * 2 ^ (53 + j) < R <= exact_rank k n * 2 ^ (53 + j).
Proof.
  intros Hm Hk Hd Hk1 Hn Hmy Hj Hb P R. destruct (exact_rank_spec k n Hk1 ltac:(lia)) as [Hq Hqn].
  set (q := exact_rank k n) in *.
  assert (HP : 2 ^ 104 <= P < 2 ^ 106).
  { change (2 ^ 104) with (2 ^ 52 * 2 ^ 52). change (2 ^ 106) with (2 ^ 53 * 2 ^ 53). subst P.
    split; [apply Z.mul_le_mono_nonneg; lia|apply Z.mul_lt_mono_nonneg; lia]. }
  assert (HL : 104 <= Z.log2 P <= 105).
  { pose proof (Z.log2_le_mono _ _ (proj1 HP)) as H1. rewrite Z.log2_pow2 in H1 by lia.
    pose proof (proj1 (Z.log2_lt_pow2 P 106 ltac:(lia)) (proj2 HP)). lia. }
  split; [done|]. pose proof (Z.pow_pos_nonneg 2 j ltac:(lia) ltac:(lia)) as H2j. split.
  - pose proof (rne_error P (Z.log2 P - 52) ltac:(lia)) as Herr. fold R in Herr.
    assert (Hg : (q - 1) * 2 ^ 53 + 2 ^ 43 <= Zpos m * n).
    { assert (1000 * (Zpos m * n) = k * n * 2 ^ 53 - d * n) by nia.
      assert (d * n <= 80 * 2 ^ 40) by nia. lia. }
    assert (HPj : (q - 1) * 2 ^ (53 + j) + 2 ^ (43 + j) <= P).
    { subst P. rewrite Hmy, !Z.pow_add_r by lia. nia. }
    assert (2 ^ (Z.log2 P - 52) <= 2 ^ 53) by (apply Z.pow_le_mono_r; lia).
    assert (2 ^ 55 <= 2 ^ (43 + j)) by (apply Z.pow_le_mono_r; lia). lia.
  - assert (HRr : R = rnd_pos P).
    { unfold R, rnd_pos, excess, prec. by replace (Z.max (Z.log2 P + 1 - 53) 0) with (Z.log2 P - 52) by lia. }
    rewrite HRr, <- (rnd_pos_exact q (53 + j)) by lia. apply rnd_pos_mono. split; [lia|].
    subst P. rewrite Hmy, Z.pow_add_r by lia. assert (Zpos m * n <= q * 2 ^ 53) by nia. nia.
Qed.

(** The conversion to [std::size_t] of [std::ceil] of a double between two counts. *)
Lemma size_of_ceil_spec (x : double) (q : Z) : is_finite x = true -> 1 <= q < two64 ->
  (q - 1) * 2 ^ 1074 < val x <= q * 2 ^ 1074 -> size_of_ceil x = Ret q.
Proof.
  intros Hf Hq Hv. unfold size_of_ceil. rewrite Hf.
  pose proof (Z.pow_pos_nonneg 2 1074 ltac:(lia) ltac:(lia)) as HT. set (T := 2 ^ 1074) in *. clearbody T.
  assert (Hc : - ((- val x) / T) = q).
  { assert ((- val x) / T = - q); [|lia]. symmetry. apply (Z.div_unique_pos _ _ _ (q * T - val x)); nia. }
  rewrite Hc. unfold in_u64. by rewrite (proj2 (Z.leb_le 0 q)), (proj2 (Z.ltb_lt q two64)) by lia.
Qed.

(** Multiplying the fraction by the count and rounding up gives the exact rank. *)
Lemma rank_exact (k d n : Z) (m : positive) : 2 ^ 52 <= Zpos m < 2 ^ 53 -> 1000 * Zpos m = k * 2 ^ 53 - d ->
  0 <= d <= 80 -> 0 < k <= 1000 -> 0 < n <= 2 ^ 40 ->
  size_of_ceil (dmul (S754_finite false m (-53)) (double_of_Z n)) = Ret (exact_rank k n).
Proof.
  intros Hm Hk Hd Hk1 Hn. destruct (exact_rank_spec k n Hk1 ltac:(lia)) as [_ Hqn]. set (q := exact_rank k n) in *.
  destruct (count_double n Hn) as (my & j & -> & Hmy & Hj & Hb).
  change (dmul _ _) with (binary_round_aux prec emax false (Zpos (m * my)) (-53 + - j) loc_Exact).
  destruct (rank_product k d n j m my Hm Hk Hd Hk1 Hn Hmy Hj Hb) as [HL HR]. fold q in HR.
  pose proof (round_aux_spec false (m * my) (-53 + - j)) as HS. cbv zeta in HS.
  change (Zpos (m * my)) with (Zpos m * Zpos my) in *. set (P := Zpos m * Zpos my) in *.
  set (t := fexp prec emax (Z.log2 P + 1 + (-53 + - j))) in *.
  assert (Ht : t = Z.log2 P - 52 + (-53 + - j)) by (subst t; rewrite fexp_eq; lia).
  destruct (HS ltac:(lia)) as (_ & Hfin & _). clear HS.
  replace (t - (-53 + - j)) with (Z.log2 P - 52) in Hfin by lia.
  set (R := rne P (Z.log2 P - 52) * 2 ^ (Z.log2 P - 52)) in *.
  assert (HRv : rne P (Z.log2 P - 52) * 2 ^ (t + 1074) = R * 2 ^ (1021 - j)).
  { subst R. rewrite <- Z.mul_assoc, <- Z.pow_add_r by lia. do 2 f_equal. lia. }
  rewrite HRv in Hfin. clearbody R. clear HRv.
  assert (HU : (q - 1) * 2 ^ 1074 < R * 2 ^ (1021 - j) <= q * 2 ^ 1074).
  { replace 1074 with (53 + j + (1021 - j)) by lia. rewrite !(Z.pow_add_r 2 (53 + j)), !Z.mul_assoc by lia.
    pose proof (Z.pow_pos_nonneg 2 (1021 - j) ltac:(lia) ltac:(lia)). split; nia. }
  destruct Hfin as [Hf Hv].
  { apply (Z.le_lt_trans _ (q * 2 ^ 1074)); [apply HU|]. unfold dbig. rewrite Z.pow_add_r by lia.
    assert (q < 2 ^ 1024) by (apply (Z.le_lt_trans _ (2 ^ 40)); [lia|by apply Z.pow_lt_mono_r]).
    pose proof (Z.pow_pos_nonneg 2 1074 ltac:(lia) ltac:(lia)). nia. }
  simpl in Hv. apply size_of_ceil_spec; [done|unfold two64; lia|]. by rewrite Hv.
Qed.

(** ** Nearest rank *)

(** [v] is the value of rank [k] in a thousand: it occurs, at least that share of the
    values does not exceed it, and a smaller share lies below it. *)
Definition nearest_rank (k : Z) (values : list Z) (v : Z) : Prop :=
  v ∈ values /\
  k * Z.of_nat (length values) <= 1000 * Z.of_nat (length (List.filter (fun x => x <=? v) values)) /\
  1000 * Z.of_nat (length (List.filter (fun x => x <? v) values)) < k * Z.of_nat (length values).

Lemma filter_length_perm (f : Z -> bool) (l l' : list Z) : l ≡ₚ l' ->
  length (List.filter f l) = length (List.filter f l').
Proof. induction 1 as [|x l l' _ IH|x y l|l l' l'' _ IH1 _ IH2]; simpl; [done|destruct (f x); simpl; congruence| |congruence].
  by destruct (f x), (f y). Qed.

Lemma nearest_rank_perm (k : Z) (l l' : list Z) (v : Z) : l ≡ₚ l' -> nearest_rank k l v -> nearest_rank k l' v.
Proof.
  intros P (H1 & H2 & H3). unfold nearest_rank.
  rewrite <- (Permutation_length P), <- !(filter_length_perm _ _ _ P). split; [by rewrite <- P|done].
Qed.

Lemma sorted_counts (l : list Z) (i : nat) (v : Z) : StronglySorted Z.le l -> l !! i = Some v ->
  (S i <= length (List.filter (fun x => (x <=? v)%Z) l))%nat /\ (length (List.filter (fun x => (x <? v)%Z) l) <= i)%nat.
Proof.
  intros Hs. revert i. induction Hs as [|x l Hs IH Hx]; intros i Hi; [done|]. destruct i as [|i]; simpl in *.
  - injection Hi as <-. rewrite Z.leb_refl, Z.ltb_irrefl. simpl. split; [lia|].
    rewrite list_filter_none; [done|]. intros y Hy. rewrite Forall_forall in Hx. apply Z.ltb_ge, Hx. by apply list_elem_of_In.
  - destruct (IH i Hi) as [H1 H2]. rewrite Forall_forall in Hx. pose proof (Hx v ltac:(by eapply list_elem_of_lookup_2)) as Hv.
    rewrite (proj2 (Z.leb_le x v)) by done. simpl. destruct (x <? v); simpl; lia.
Qed.

Lemma percentile_correct (k d : Z) (m : positive) (values : list Z) (rank : double) :
  rank = S754_finite false m (-53) -> 2 ^ 52 <= Zpos m < 2 ^ 53 -> 1000 * Zpos m = k * 2 ^ 53 - d ->
  0 <= d <= 80 -> 0 < k <= 1000 ->
  StronglySorted Z.le values -> values <> [] -> Z.of_nat (length values) <= 2 ^ 40 ->
  exists v, percentile values rank = Ret v /\ nearest_rank k values v.
Proof.
  intros -> Hm Hd Hd1 Hk Hs Hne Hlen. set (n := Z.of_nat (length values)) in *.
  assert (Hn : 0 < n) by (destruct values; [done|simpl in n; lia]).
  pose proof (rank_exact k d n m Hm Hd Hd1 Hk ltac:(lia)) as HR.
  destruct (exact_rank_spec k n Hk Hn) as [Hq Hqn]. set (q := exact_rank k n) in *.
  assert (HE : percentile values (S754_finite false m (-53)) = deref (values !! Z.to_nat (q - 1)) "vector index out of range").
  { unfold percentile. destruct values as [|x l]; [done|]. fold n. rewrite HR, bind_ret.
    rewrite (proj2 (Z.eqb_neq q 0)), Z.min_l by lia. done. }
  destruct (lookup_lt_is_Some_2 values (Z.to_nat (q - 1))) as [v Hv]; [lia|]. exists v. rewrite HE, Hv. split; [done|].
  destruct (sorted_counts values _ v Hs Hv) as [H1 H2]. split; [by eapply list_elem_of_lookup_2|]. fold n. lia.
Qed.

(** ** Workloads *)





Section Toolkit.
Context {Q A : Type} `{HQ : QueueLaws Q block} `{HA : BlockAllocatorLaws A} (tid : Z).

Implicit Types k : PerformanceToolkit Q A.






(** ** Runs *)

















(** ** Properties *)

(** C39. The percentiles of a summary are nearest-rank percentiles of the recorded latencies,
    for any number of samples up to 2^40: the rank is computed with a rounded product
    of an inexact fraction and the number of samples, and still never off by one.
    Minimum and maximum occur and bound all latencies. *)
Theorem toolkit_percentiles_exact k (duration_seconds : double) :
  pt_latencies k <> [] -> Z.of_nat (length (pt_latencies k)) <= 2 ^ 40 ->
  let values := map lr_latency_ns (pt_latencies k) in
  exists s, Toolkit_summarize k duration_seconds = Ret s /\ ls_samples s = Z.of_nat (length values) /\
    nearest_rank 500 values (ls_p50_ns s) /\ nearest_rank 990 values (ls_p99_ns s) /\
    nearest_rank 999 values (ls_p999_ns s) /\ ls_min_ns s ∈ values /\ ls_max_ns s ∈ values /\
    forall v, v ∈ values -> ls_min_ns s <= v <= ls_max_ns s.
Proof using Type.
  intros Hne Hlen values. unfold Toolkit_summarize.
  assert (Hvals : values <> []) by (subst values; by destruct (pt_latencies k)).
  assert (Hcount : Z.of_nat (length values) <= 2 ^ 40) by (subst values; by rewrite length_map).
  destruct (pt_latencies k) as [|r rs] eqn:Ek; [done|]. cbv zeta. fold values. clearbody values. clear Hne Hlen.
  set (sorted := sort_latencies values).
  assert (Hperm : sorted ≡ₚ values) by apply merge_sort_Permutation.
  assert (Hs : StronglySorted Z.le sorted) by (apply StronglySorted_merge_sort; apply _).
  assert (Hvne : sorted <> []).
  { intros E. rewrite E in Hperm. by apply Permutation_nil in Hperm. }
  assert (Hl : Z.of_nat (length sorted) <= 2 ^ 40).
  { by rewrite (Permutation_length Hperm). }
  destruct (percentile_correct 500 0 4503599627370496 sorted (dlit 50 2)) as (v50 & E50 & N50); try done; try lia.
  destruct (percentile_correct 990 80 8917127262193582 sorted (dlit 99 2)) as (v99 & E99 & N99); try done; try lia.
  destruct (percentile_correct 999 8 8998192055486251 sorted (dlit 999 3)) as (v999 & E999 & N999); try done; try lia.
  rewrite E50, E99, E999.
  destruct sorted as [|x l] eqn:Esorted; [done|]. cbn [head deref]. rewrite !bind_ret.
  destruct (last (x :: l)) as [y|] eqn:Elast; [|by apply last_None in Elast]. cbn [deref]. rewrite bind_ret.
  eexists. split; [reflexivity|]. cbn [ls_samples ls_min_ns ls_p50_ns ls_p99_ns ls_p999_ns ls_max_ns].
  split; [by rewrite (Permutation_length Hperm)|].
  split; [exact (nearest_rank_perm _ _ _ _ Hperm N50)|]. split; [exact (nearest_rank_perm _ _ _ _ Hperm N99)|].
  split; [exact (nearest_rank_perm _ _ _ _ Hperm N999)|]. split; [|split].
  - rewrite <- Hperm. apply elem_of_cons. by left.
  - rewrite <- Hperm. by apply last_Some_elem_of.
  - intros v. rewrite <- Hperm. apply StronglySorted_inv in Hs as [Hs Hx]. rewrite Forall_forall in Hx.
    assert (Hy : forall z, z ∈ x :: l -> z <= y).
    { clear -Hs Hx Elast. apply last_Some in Elast as [l' El]. intros z Hz. rewrite El in Hz.
      apply elem_of_app in Hz as [Hz| ->%list_elem_of_singleton]; [|lia].
      assert (HS : StronglySorted Z.le (l' ++ [y])) by (rewrite <- El; constructor; [done|by apply Forall_forall]).
      eapply StronglySorted_app_1_elem_of; [exact HS|exact Hz|by apply list_elem_of_singleton]. }
    intros Hv. split; [|by apply Hy]. apply elem_of_cons in Hv as [->|Hv]; [lia|by apply Hx].
Qed.

End Toolkit.

(** ** A concrete toolkit *)

Definition request_ring : SpscRingQueue block := mkSpsc 4 3 (replicate 4 None) 0 0.





(** Ten latencies out of order. *)
Definition sample_latencies : PerformanceToolkit (SpscRingQueue block) FixedBlockPool :=
  foldl (fun k ns => Toolkit_record_latency k ns true) (Toolkit_new request_ring sample_storage)
    [70; 10; 90; 30; 50; 20; 100; 40; 80; 60].

Lemma toolkit_percentiles_exact_witness :
  exists s, Toolkit_summarize sample_latencies (double_of_Z 2) = Ret s /\
    nearest_rank 990 (map lr_latency_ns (pt_latencies sample_latencies)) (ls_p99_ns s) /\
    ls_p50_ns s = 50 /\ ls_p99_ns s = 100 /\ ls_throughput_per_second s = double_of_Z 5.
Proof.
  destruct (toolkit_percentiles_exact sample_latencies (double_of_Z 2)) as (s & E & _ & _ & N & _).
  - discriminate.
  - vm_compute. congruence.
  - exists s. split; [exact E|]. split; [exact N|].
    assert (H : Toolkit_summarize sample_latencies (double_of_Z 2) =
      Ret (mkSummary 10 10 50 100 100 100 (double_of_Z 5) done_)) by (vm_compute; reflexivity).
    rewrite H in E. assert (Hs : s = mkSummary 10 10 50 100 100 100 (double_of_Z 5) done_) by (by injection E).
    rewrite Hs. by split_and!.
Defined.
