(* ===== verification/Mpmc.v ===== *)
(** * Multi-producer, multi-consumer linked queue

    [MpmcLinkedQueue] of [src/infrastructure/lock-free-structures/mpmc_linked_queue.hpp]
    as a machine of interleaved threads. The heap is a finite map from addresses to
    nodes: [new] may return any address that is not allocated, so addresses are
    reused, and an access to an address that is not allocated is [Undef]. A thread is
    a token with a program counter; a step ([mpmc_step]) is one access to shared
    memory by one thread, in the order of the code. A weak compare-and-exchange may
    fail spuriously and an allocation may fail, as the [Go] move says. The
    interleavings are sequentially consistent: memory orders are not modelled.

    The events of a step mark the calls, the returns and the two successful
    exchanges that change the queue; [fifo] replays them on a list. *)

From S2P Require Import Prelude.

Local Open Scope Z_scope.

(** ** Backoff

    [ExponentialBackoff] of [backoff.hpp], which the loops pause with: it spins, then
    yields; it touches nothing that threads share, so the steps below leave it out. *)
Record ExponentialBackoff := mkBackoff { bo_spins : Z }.

Definition kYieldThreshold : Z := 16.

(** The first component says whether the thread yields. *)
Definition Backoff_pause (b : ExponentialBackoff) : bool * ExponentialBackoff :=
  if bo_spins b <? kYieldThreshold then (false, mkBackoff (wrap_u64 (bo_spins b + 1))) else (true, b).

Definition Backoff_reset (b : ExponentialBackoff) : ExponentialBackoff := mkBackoff 0.

Section Mpmc.
Context {T : Type}.

Record Node := mkNode { nd_next : option Z; nd_value : option T }.

Record RetiredNode := mkRetired { rt_node : Z; rt_epoch : Z }.

Record EpochSlot := mkSlot {
  sl_occupied : bool;
  sl_active : bool;
  sl_epoch : Z;
  sl_retired : list RetiredNode
}.

Record MpmcQueue := mkMpmc {
  mq_heap : gmap Z Node;
  mq_head : Z;
  mq_tail : Z;
  mq_size : Z;
  mq_epoch : Z;
  mq_slots : list EpochSlot
}.

Definition kRetireThreshold : nat := 32.
Definition kMaxEpoch : Z := two64 - 1.

(** The constructor; [stub] is the address of the first node. *)
Definition Mpmc_new (max_threads : nat) (stub : Z) : MpmcQueue :=
  mkMpmc {[ stub := mkNode None None ]} stub stub 0 1 (replicate max_threads (mkSlot false false 0 [])).

(** ** Calls, results and program counters *)

(** [OpExit] is the end of a thread: its token is destroyed. *)
Inductive mpmc_op := OpPush (value : T) | OpPop | OpExit.

Inductive mpmc_result := RPushed | RPopped (result : option T) | RExited | RThrew (what : string).

(** [acquire_slot], from the exchange on the slot [index] on. *)
Inductive acquire_pc := AcqExchange (index : nat) | AcqClear | AcqLoad | AcqStore (epoch : Z).

(** [push_with_token]. *)
Inductive push_pc :=
| PuAlloc
| PuTail (node : Z)
| PuNext (node tail : Z)
| PuRecheck (node tail : Z) (next : option Z)
| PuLink (node tail : Z)
| PuSwing (node tail : Z)
| PuSize
| PuHelp (node tail next : Z).

(** [try_pop_with_token]. *)
Inductive pop_pc :=
| PoHead
| PoTail (head : Z)
| PoNext (head tail : Z)
| PoRecheck (head tail : Z) (next : option Z)
| PoHelp (tail next : Z)
| PoExchange (head next : Z)
| PoTake (head next : Z)
| PoReset (head next : Z) (result : option T)
| PoSize (head : Z) (result : option T).

(** [retire_node], [min_active_epoch] and [collect_retired]. *)
Inductive reclaim_pc :=
| RtLoad (node : Z)
| RtPush (node epoch : Z)
| RtBump
| ScGlobal
| ScOccupied (index : nat) (minimum : Z)
| ScActive (index : nat) (minimum : Z)
| ScEpoch (index : nat) (minimum : Z)
| Collect (force_all : bool) (safe_epoch : Z) (kept todo : list RetiredNode).

(** What follows a collection: the end of a pop, or the rest of [unregister_slot]. *)
Inductive reclaim_end := ThenLeave (r : mpmc_result) | ThenUnregister.

Inductive mpmc_pc :=
| PcIdle
| PcAcquire (op : mpmc_op) (p : acquire_pc)
| PcEnterLoad (op : mpmc_op)
| PcEnterEpoch (op : mpmc_op) (epoch : Z)
| PcEnterActive (op : mpmc_op)
| PcPush (value : T) (p : push_pc)
| PcPop (p : pop_pc)
| PcReclaim (p : reclaim_pc) (k : reclaim_end)
| PcLeave (r : mpmc_result)
| PcInactive
| PcUnoccupied.

(** A thread and the slot of its token; [None] when it holds no token. *)
Record MpmcThread := mkThread { th_token : option nat; th_pc : mpmc_pc }.

(** The choices left open: the next call; the address of an allocation ([None] when
    it throws) and whether a weak exchange fails spuriously. *)
Inductive mpmc_move := Start (op : mpmc_op) | Go (fresh : option Z) (spurious : bool).

Inductive mpmc_event :=
| EvCall (t : nat) (op : mpmc_op)
| EvLink (t : nat) (value : T)
| EvUnlink (t : nat)
| EvReturn (t : nat) (r : mpmc_result).

(** ** Accesses *)

Definition access (q : MpmcQueue) (a : Z) : outcome Node :=
  deref (mq_heap q !! a) "access to a node that is not allocated".

Definition mq_with_heap (q : MpmcQueue) (heap : gmap Z Node) : MpmcQueue :=
  mkMpmc heap (mq_head q) (mq_tail q) (mq_size q) (mq_epoch q) (mq_slots q).
Definition mq_with_head (q : MpmcQueue) (head : Z) : MpmcQueue :=
  mkMpmc (mq_heap q) head (mq_tail q) (mq_size q) (mq_epoch q) (mq_slots q).
Definition mq_with_tail (q : MpmcQueue) (tail : Z) : MpmcQueue :=
  mkMpmc (mq_heap q) (mq_head q) tail (mq_size q) (mq_epoch q) (mq_slots q).
Definition mq_with_size (q : MpmcQueue) (size : Z) : MpmcQueue :=
  mkMpmc (mq_heap q) (mq_head q) (mq_tail q) size (mq_epoch q) (mq_slots q).
Definition mq_with_epoch (q : MpmcQueue) (epoch : Z) : MpmcQueue :=
  mkMpmc (mq_heap q) (mq_head q) (mq_tail q) (mq_size q) epoch (mq_slots q).
Definition mq_with_slots (q : MpmcQueue) (slots : list EpochSlot) : MpmcQueue :=
  mkMpmc (mq_heap q) (mq_head q) (mq_tail q) (mq_size q) (mq_epoch q) slots.

(** Write to [slots_[slot]]. *)
Definition on_slot (q : MpmcQueue) (slot : nat) (f : EpochSlot -> EpochSlot) : outcome MpmcQueue :=
  s ← deref (mq_slots q !! slot) "slot out of range";
  Ret (mq_with_slots q (<[slot := f s]> (mq_slots q))).

Definition with_occupied (b : bool) (s : EpochSlot) : EpochSlot := mkSlot b (sl_active s) (sl_epoch s) (sl_retired s).
Definition with_active (b : bool) (s : EpochSlot) : EpochSlot := mkSlot (sl_occupied s) b (sl_epoch s) (sl_retired s).
Definition with_epoch (e : Z) (s : EpochSlot) : EpochSlot := mkSlot (sl_occupied s) (sl_active s) e (sl_retired s).
Definition with_retired (l : list RetiredNode) (s : EpochSlot) : EpochSlot :=
  mkSlot (sl_occupied s) (sl_active s) (sl_epoch s) l.

(** [delete]; freeing what is not allocated is undefined. *)
Definition free_node (q : MpmcQueue) (a : Z) : outcome MpmcQueue :=
  _ ← deref (mq_heap q !! a) "delete of a node that is not allocated";
  Ret (mq_with_heap q (delete a (mq_heap q))).

Definition mpmc_size_approx (q : MpmcQueue) : Z := mq_size q.
Definition mpmc_empty (q : MpmcQueue) : bool := mpmc_size_approx q =? 0.

(** ** The steps of each function *)

(** [acquire_slot] within a call: the events, the queue, the token and what comes next. *)
Definition acquire_step (t : nat) (q : MpmcQueue) (token : option nat) (op : mpmc_op) (p : acquire_pc)
    : outcome (list mpmc_event * MpmcQueue * MpmcThread) :=
  match p with
  | AcqExchange index =>
    match mq_slots q !! index with
    | None =>
      Ret ([EvReturn t (RThrew "MpmcLinkedQueue thread registration limit exceeded")], q, mkThread None PcIdle)
    | Some s =>
      if sl_occupied s then Ret ([], q, mkThread token (PcAcquire op (AcqExchange (S index))))
      else
        q ← on_slot q index (with_occupied true);
        Ret ([], q, mkThread (Some index) (PcAcquire op AcqClear))
    end
  | AcqClear =>
    slot ← deref token "no token";
    q ← on_slot q slot (with_retired []);
    Ret ([], q, mkThread token (PcAcquire op AcqLoad))
  | AcqLoad => Ret ([], q, mkThread token (PcAcquire op (AcqStore (mq_epoch q))))
  | AcqStore e =>
    slot ← deref token "no token";
    q ← on_slot q slot (with_epoch e);
    Ret ([], q, mkThread token (PcEnterLoad op))
  end.

Definition push_step (t : nat) (q : MpmcQueue) (value : T) (p : push_pc) (fresh : option Z) (spurious : bool)
    : outcome (list mpmc_event * MpmcQueue * mpmc_pc) :=
  match p with
  | PuAlloc =>
    match fresh with
    | Some node =>
      Ret ([], mq_with_heap q (<[node := mkNode None (Some value)]> (mq_heap q)), PcPush value (PuTail node))
    | None => Ret ([], q, PcLeave (RThrew "std::bad_alloc"))
    end
  | PuTail node => Ret ([], q, PcPush value (PuNext node (mq_tail q)))
  | PuNext node tail =>
    n ← access q tail;
    Ret ([], q, PcPush value (PuRecheck node tail (nd_next n)))
  | PuRecheck node tail next =>
    if negb (tail =? mq_tail q) then Ret ([], q, PcPush value (PuTail node))
    else
      match next with
      | None => Ret ([], q, PcPush value (PuLink node tail))
      | Some next => Ret ([], q, PcPush value (PuHelp node tail next))
      end
  | PuLink node tail =>
    n ← access q tail;
    match nd_next n with
    | None =>
      if spurious then Ret ([], q, PcPush value (PuTail node))
      else Ret ([EvLink t value], mq_with_heap q (<[tail := mkNode (Some node) (nd_value n)]> (mq_heap q)),
             PcPush value (PuSwing node tail))
    | Some _ => Ret ([], q, PcPush value (PuTail node))
    end
  | PuSwing node tail =>
    Ret ([], (if mq_tail q =? tail then mq_with_tail q node else q), PcPush value PuSize)
  | PuSize => Ret ([], mq_with_size q (wrap_u64 (mq_size q + 1)), PcLeave RPushed)
  | PuHelp node tail next =>
    Ret ([], (if negb spurious && (mq_tail q =? tail) then mq_with_tail q next else q), PcPush value (PuTail node))
  end.

Definition pop_step (t : nat) (q : MpmcQueue) (p : pop_pc) (spurious : bool)
    : outcome (list mpmc_event * MpmcQueue * mpmc_pc) :=
  match p with
  | PoHead => Ret ([], q, PcPop (PoTail (mq_head q)))
  | PoTail head => Ret ([], q, PcPop (PoNext head (mq_tail q)))
  | PoNext head tail =>
    n ← access q head;
    Ret ([], q, PcPop (PoRecheck head tail (nd_next n)))
  | PoRecheck head tail next =>
    if negb (head =? mq_head q) then Ret ([], q, PcPop PoHead)
    else
      match next with
      | None => Ret ([], q, PcLeave (RPopped None))
      | Some next =>
        if head =? tail then Ret ([], q, PcPop (PoHelp tail next))
        else Ret ([], q, PcPop (PoExchange head next))
      end
  | PoHelp tail next =>
    Ret ([], (if negb spurious && (mq_tail q =? tail) then mq_with_tail q next else q), PcPop PoHead)
  | PoExchange head next =>
    if negb spurious && (mq_head q =? head)
    then Ret ([EvUnlink t], mq_with_head q next, PcPop (PoTake head next))
    else Ret ([], q, PcPop PoHead)
  | PoTake head next =>
    n ← access q next;
    Ret ([], q, PcPop (PoReset head next (nd_value n)))
  | PoReset head next result =>
    n ← access q next;
    Ret ([], mq_with_heap q (<[next := mkNode (nd_next n) None]> (mq_heap q)), PcPop (PoSize head result))
  | PoSize head result =>
    Ret ([], mq_with_size q (wrap_u64 (mq_size q - 1)), PcReclaim (RtLoad head) (ThenLeave (RPopped result)))
  end.

Definition reclaim_next (k : reclaim_end) : mpmc_pc :=
  match k with
  | ThenLeave r => PcLeave r
  | ThenUnregister => PcInactive
  end.

(** The start of the loop of [collect_retired], which does nothing without nodes. *)
Definition collect_begin (force_all : bool) (safe_epoch : Z) (retired : list RetiredNode) (k : reclaim_end)
    : mpmc_pc :=
  match retired with
  | [] => reclaim_next k
  | _ => PcReclaim (Collect force_all safe_epoch [] retired) k
  end.

Definition reclaim_step (q : MpmcQueue) (slot : nat) (p : reclaim_pc) (k : reclaim_end)
    : outcome (list mpmc_event * MpmcQueue * mpmc_pc) :=
  match p with
  | RtLoad node => Ret ([], q, PcReclaim (RtPush node (mq_epoch q)) k)
  | RtPush node epoch =>
    s ← deref (mq_slots q !! slot) "slot out of range";
    let retired := sl_retired s ++ [mkRetired node epoch] in
    q ← on_slot q slot (with_retired retired);
    Ret ([], q, if (kRetireThreshold <=? length retired)%nat then PcReclaim RtBump k else reclaim_next k)
  | RtBump => Ret ([], mq_with_epoch q (wrap_u64 (mq_epoch q + 1)), PcReclaim ScGlobal k)
  | ScGlobal => Ret ([], q, PcReclaim (ScOccupied 0 (wrap_u64 (mq_epoch q + 1))) k)
  | ScOccupied index minimum =>
    match mq_slots q !! index with
    | None =>
      s ← deref (mq_slots q !! slot) "slot out of range";
      Ret ([], q, collect_begin false minimum (sl_retired s) k)
    | Some s =>
      Ret ([], q, PcReclaim (if sl_occupied s then ScActive index minimum else ScOccupied (S index) minimum) k)
    end
  | ScActive index minimum =>
    s ← deref (mq_slots q !! index) "slot out of range";
    Ret ([], q, PcReclaim (if sl_active s then ScEpoch index minimum else ScOccupied (S index) minimum) k)
  | ScEpoch index minimum =>
    s ← deref (mq_slots q !! index) "slot out of range";
    Ret ([], q, PcReclaim (ScOccupied (S index) (Z.min minimum (sl_epoch s))) k)
  | Collect force_all safe_epoch kept todo =>
    match todo with
    | [] =>
      q ← on_slot q slot (with_retired kept);
      Ret ([], q, reclaim_next k)
    | r :: todo =>
      if force_all || (rt_epoch r <? safe_epoch)
      then
        q ← free_node q (rt_node r);
        Ret ([], q, PcReclaim (Collect force_all safe_epoch kept todo) k)
      else Ret ([], q, PcReclaim (Collect force_all safe_epoch (kept ++ [r]) todo) k)
    end
  end.

(** The first step of a call once the guard is in place. *)
Definition op_begin (op : mpmc_op) : mpmc_pc :=
  match op with
  | OpPush v => PcPush v PuAlloc
  | OpPop => PcPop PoHead
  | OpExit => PcInactive
  end.

(** A call that is under way. *)
Definition go_step (t : nat) (q : MpmcQueue) (th : MpmcThread) (fresh : option Z) (spurious : bool)
    : outcome (list mpmc_event * MpmcQueue * MpmcThread) :=
  let token := th_token th in
  match th_pc th with
  | PcIdle => Ret ([], q, th)
  | PcAcquire op p => acquire_step t q token op p
  | PcEnterLoad op => Ret ([], q, mkThread token (PcEnterEpoch op (mq_epoch q)))
  | PcEnterEpoch op e =>
    slot ← deref token "no token";
    q ← on_slot q slot (with_epoch e);
    Ret ([], q, mkThread token (PcEnterActive op))
  | PcEnterActive op =>
    slot ← deref token "no token";
    q ← on_slot q slot (with_active true);
    Ret ([], q, mkThread token (op_begin op))
  | PcPush v p => '(evs, q, pc) ← push_step t q v p fresh spurious; Ret (evs, q, mkThread token pc)
  | PcPop p => '(evs, q, pc) ← pop_step t q p spurious; Ret (evs, q, mkThread token pc)
  | PcReclaim p k =>
    slot ← deref token "no token";
    '(evs, q, pc) ← reclaim_step q slot p k;
    Ret (evs, q, mkThread token pc)
  | PcLeave r =>
    slot ← deref token "no token";
    q ← on_slot q slot (with_active false);
    Ret ([EvReturn t r], q, mkThread token PcIdle)
  | PcInactive =>
    slot ← deref token "no token";
    q ← on_slot q slot (with_active false);
    Ret ([], q, mkThread token PcUnoccupied)
  | PcUnoccupied =>
    slot ← deref token "no token";
    q ← on_slot q slot (with_occupied false);
    Ret ([EvReturn t RExited], q, mkThread None PcIdle)
  end.

(** A call: [local_token] registers the thread first when it has no token; the
    destruction of a token frees its retired nodes at once. *)
Definition start_step (t : nat) (q : MpmcQueue) (th : MpmcThread) (op : mpmc_op)
    : outcome (list mpmc_event * MpmcQueue * MpmcThread) :=
  match op, th_token th with
  | OpExit, None => Ret ([EvCall t OpExit; EvReturn t RExited], q, th)
  | OpExit, Some slot =>
    s ← deref (mq_slots q !! slot) "slot out of range";
    Ret ([EvCall t OpExit], q, mkThread (Some slot) (collect_begin true kMaxEpoch (sl_retired s) ThenUnregister))
  | _, None => Ret ([EvCall t op], q, mkThread None (PcAcquire op (AcqExchange 0)))
  | _, Some slot => Ret ([EvCall t op], q, mkThread (Some slot) (PcEnterLoad op))
  end.

(** A thread that is idle starts a call; one that is not goes on, and its
    allocation returns an address that is free. *)
Definition move_enabled (q : MpmcQueue) (th : MpmcThread) (m : mpmc_move) : bool :=
  match m, th_pc th with
  | Start _, PcIdle => true
  | Start _, _ => false
  | Go _ _, PcIdle => false
  | Go (Some node) _, PcPush _ PuAlloc => bool_decide (mq_heap q !! node = None)
  | Go _ _, _ => true
  end.

Definition thread_step (t : nat) (q : MpmcQueue) (th : MpmcThread) (m : mpmc_move)
    : outcome (list mpmc_event * MpmcQueue * MpmcThread) :=
  match m with
  | Start op => start_step t q th op
  | Go fresh spurious => go_step t q th fresh spurious
  end.

(** ** The machine *)

Record mpmc_state := mkMpmcState { ms_queue : MpmcQueue; ms_threads : list MpmcThread }.

(** One step of the thread [t]; [None] when the move is not possible. *)
Definition mpmc_step (s : mpmc_state) (t : nat) (m : mpmc_move) : option (outcome (list mpmc_event * mpmc_state)) :=
  match ms_threads s !! t with
  | None => None
  | Some th =>
    if move_enabled (ms_queue s) th m
    then Some ('(evs, q, th) ← thread_step t (ms_queue s) th m;
               Ret (evs, mkMpmcState q (<[t := th]> (ms_threads s))))
    else None
  end.

Definition mpmc_initial (max_threads threads : nat) (stub : Z) : mpmc_state :=
  mkMpmcState (Mpmc_new max_threads stub) (replicate threads (mkThread None PcIdle)).

(** A schedule, and what it does. *)
Fixpoint mpmc_run (s : mpmc_state) (schedule : list (nat * mpmc_move))
    : option (outcome (list mpmc_event * mpmc_state)) :=
  match schedule with
  | [] => Some (Ret ([], s))
  | (t, m) :: schedule =>
    match mpmc_step s t m with
    | None => None
    | Some (Ret (evs, s)) =>
      match mpmc_run s schedule with
      | Some (Ret (evs', s)) => Some (Ret (evs ++ evs', s))
      | r => r
      end
    | Some r => Some r
    end
  end.

(** ** Destruction *)

Fixpoint drain_nodes (fuel : nat) (q : MpmcQueue) (current : option Z) : outcome MpmcQueue :=
  match fuel with
  | O => Undef "out of fuel"
  | S fuel =>
    match current with
    | None => Ret q
    | Some a =>
      n ← access q a;
      q ← free_node q a;
      drain_nodes fuel q (nd_next n)
    end
  end.

Fixpoint free_retired (q : MpmcQueue) (l : list RetiredNode) : outcome MpmcQueue :=
  match l with
  | [] => Ret q
  | r :: l => q ← free_node q (rt_node r); free_retired q l
  end.

Fixpoint reclaim_slots (q : MpmcQueue) (slots : list EpochSlot) : outcome MpmcQueue :=
  match slots with
  | [] => Ret q
  | s :: slots => q ← free_retired q (sl_retired s); reclaim_slots q slots
  end.

(** [~MpmcLinkedQueue]: what remains allocated. *)
Definition Mpmc_destruct (q : MpmcQueue) : outcome (gmap Z Node) :=
  q ← drain_nodes (S (size (mq_heap q))) q (Some (mq_head q));
  q ← reclaim_slots q (mq_slots q);
  Ret (mq_heap q).

(** ** The queue that the exchanges describe *)

Definition fifo_event (l : list T) (e : mpmc_event) : list T :=
  match e with
  | EvLink _ v => l ++ [v]
  | EvUnlink _ => tail l
  | _ => l
  end.

Definition fifo (tr : list mpmc_event) : list T := fold_left fifo_event tr [].

End Mpmc.

Arguments Node : clear implicits.
Arguments MpmcQueue : clear implicits.
Arguments mpmc_op : clear implicits.
Arguments mpmc_result : clear implicits.
Arguments pop_pc : clear implicits.
Arguments reclaim_end : clear implicits.
Arguments mpmc_pc : clear implicits.
Arguments MpmcThread : clear implicits.
Arguments mpmc_move : clear implicits.
Arguments mpmc_event : clear implicits.
Arguments mpmc_state : clear implicits.
