(* ===== verification/MpmcProofs.v ===== *)
(** * The linked queue: its invariant

    The nodes form a chain from [head_], whose values are the contents; every other
    allocated node belongs to one thread (not yet linked, or unlinked and awaiting
    its deletion). A pointer that a thread may follow is in the chain, or it was
    retired no earlier than the epoch its thread announced. *)

From S2P Require Import Prelude Mpmc.

Local Open Scope Z_scope.

Section MpmcInv.
Context {T : Type}.

(** ** What a program counter says *)

(** The node the thread may follow or compare by address. *)
Definition held (pc : mpmc_pc T) : option Z :=
  match pc with
  | PcPush _ (PuNext _ a | PuRecheck _ a _ | PuLink _ a | PuSwing _ a | PuHelp _ a _) => Some a
  | PcPop (PoTail a | PoNext a _ | PoRecheck a _ _ | PoHelp a _ | PoExchange a _) => Some a
  | PcPop (PoTake _ a | PoReset _ a _) => Some a
  | _ => None
  end.

(** A node that is allocated and not linked yet, with its value. *)
Definition new_node (pc : mpmc_pc T) : option (Z * T) :=
  match pc with
  | PcPush v (PuTail a | PuNext a _ | PuRecheck a _ _ | PuLink a _ | PuHelp a _ _) => Some (a, v)
  | _ => None
  end.

(** A node that the thread has unlinked, with the epoch it read for it. *)
Definition unlinked (pc : mpmc_pc T) : option (Z * option Z) :=
  match pc with
  | PcPop (PoTake h _ | PoReset h _ _ | PoSize h _) => Some (h, None)
  | PcReclaim (RtLoad h) _ => Some (h, None)
  | PcReclaim (RtPush h e) _ => Some (h, Some e)
  | _ => None
  end.

(** The node whose value the thread is moving out. *)
Definition taking (pc : mpmc_pc T) : option Z :=
  match pc with
  | PcPop (PoTake _ a | PoReset _ a _) => Some a
  | _ => None
  end.

(** Between [enter_critical] and [leave_critical]. *)
Definition inside (pc : mpmc_pc T) : bool :=
  match pc with
  | PcPush _ _ | PcPop _ | PcReclaim _ (ThenLeave _) | PcLeave _ => true
  | _ => false
  end.

Definition tokenless (pc : mpmc_pc T) : bool :=
  match pc with
  | PcIdle | PcAcquire _ (AcqExchange _) => true
  | _ => false
  end.

(** The minimum computed so far, and the slots it accounts for. *)
Definition scanned (q : MpmcQueue T) (pc : mpmc_pc T) : option (Z * nat) :=
  match pc with
  | PcReclaim (ScOccupied i m | ScActive i m | ScEpoch i m) _ => Some (m, i)
  | PcReclaim (Collect _ m _ _) _ => Some (m, length (mq_slots q))
  | _ => None
  end.

Definition slot_of (q : MpmcQueue T) (th : MpmcThread T) : option EpochSlot :=
  i ← th_token th; mq_slots q !! i.

(** The retired nodes of a thread that are still allocated. *)
Definition retired_of (q : MpmcQueue T) (th : MpmcThread T) : list RetiredNode :=
  match th_pc th with
  | PcReclaim (Collect _ _ kept todo) _ => kept ++ todo
  | _ => default [] (sl_retired <$> slot_of q th)
  end.

Definition dead_of (q : MpmcQueue T) (th : MpmcThread T) : list (Z * option Z) :=
  option_list (unlinked (th_pc th)) ++ map (fun r => (rt_node r, Some (rt_epoch r))) (retired_of q th).

Definition owned (q : MpmcQueue T) (th : MpmcThread T) : list Z :=
  option_list (fst <$> new_node (th_pc th)) ++ map fst (dead_of q th).

Definition next_of (q : MpmcQueue T) (a : Z) : option (option Z) := nd_next <$> mq_heap q !! a.

Definition value_at (q : MpmcQueue T) (a : Z) : option T := mq_heap q !! a ≫= nd_value.

(** [rest] is the chain behind [head_]. *)
Definition chain (q : MpmcQueue T) (rest : list Z) : list Z := mq_head q :: rest.

Definition guarded (q : MpmcQueue T) (ths : list (MpmcThread T)) (rest : list Z) (th : MpmcThread T) (a : Z) : Prop :=
  a ∈ chain q rest \/
  exists s t' th' r, slot_of q th = Some s /\ ths !! t' = Some th' /\ (a, r) ∈ dead_of q th' /\
    forall e, r = Some e -> sl_epoch s <= e.

(** A pointer read from [head_]: once it is not the head, it has left the chain. *)
Definition was_head (q : MpmcQueue T) (rest : list Z) (h : Z) : Prop := h = mq_head q \/ h ∉ chain q rest.

Definition pc_fact (q : MpmcQueue T) (rest : list Z) (th : MpmcThread T) : Prop :=
  match th_pc th with
  | PcAcquire op (AcqExchange _) => op <> OpExit /\ th_token th = None
  | PcAcquire op (AcqClear) => op <> OpExit /\ retired_of q th = []
  | PcAcquire op (AcqLoad) => op <> OpExit
  | PcAcquire op (AcqStore e) => op <> OpExit /\ 0 <= e <= mq_epoch q
  | PcEnterEpoch op e => op <> OpExit /\ 0 <= e <= mq_epoch q
  | PcEnterLoad op | PcEnterActive op => op <> OpExit
  | PcInactive | PcUnoccupied => retired_of q th = []
  | PcPush _ (PuRecheck _ a (Some n)) | PcPush _ (PuHelp _ a n) | PcPush _ (PuSwing n a) =>
    next_of q a = Some (Some n)
  | PcPop (PoTail h) => was_head q rest h
  | PcPop (PoNext h t) => was_head q rest h /\ (h = mq_head q -> t <> h -> mq_tail q <> h)
  | PcPop (PoRecheck h t n) =>
    was_head q rest h /\ (h = mq_head q -> t <> h -> mq_tail q <> h) /\
    (forall x, n = Some x -> next_of q h = Some (Some x))
  | PcPop (PoHelp t n) => next_of q t = Some (Some n)
  | PcPop (PoExchange h n) =>
    was_head q rest h /\ (h = mq_head q -> mq_tail q <> h) /\ next_of q h = Some (Some n)
  | PcPop (PoTake _ n | PoReset _ n _) => n ∉ rest
  | PcReclaim (Collect true m kept _) k => k = ThenUnregister /\ kept = [] /\ m = kMaxEpoch
  | PcReclaim (ScActive j _ | ScEpoch j _) k => (exists r, k = ThenLeave r) /\ (j < length (mq_slots q))%nat
  | PcReclaim _ k => exists r, k = ThenLeave r
  | _ => True
  end.

Record thread_ok (q : MpmcQueue T) (ths : list (MpmcThread T)) (rest : list Z) (th : MpmcThread T) : Prop := {
  tk_slot : forall i, th_token th = Some i ->
    exists s, mq_slots q !! i = Some s /\ sl_occupied s = true /\ (inside (th_pc th) = true -> sl_active s = true);
  tk_token : tokenless (th_pc th) = false -> th_token th <> None;
  tk_new : forall a v, new_node (th_pc th) = Some (a, v) -> mq_heap q !! a = Some (mkNode None (Some v));
  tk_dead : forall a r, (a, r) ∈ dead_of q th ->
    (exists b, next_of q a = Some (Some b)) /\ forall e, r = Some e -> e <= mq_epoch q;
  tk_held : forall a, held (th_pc th) = Some a -> guarded q ths rest th a;
  tk_fact : pc_fact q rest th
}.

Record mpmc_inv (n : Z) (q : MpmcQueue T) (ths : list (MpmcThread T)) (rest : list Z) (vals : list T) : Prop := {
  mv_chain : forall i a, chain q rest !! i = Some a -> next_of q a = Some (rest !! i);
  mv_nodup : NoDup (chain q rest);
  mv_tail : mq_tail q ∈ chain q rest;
  mv_values : Forall2 (fun a v => value_at q a = Some v) rest vals;
  mv_cover : forall a, is_Some (mq_heap q !! a) <->
    a ∈ chain q rest \/ exists t th, ths !! t = Some th /\ a ∈ owned q th;
  mv_unlinked : forall t th a, ths !! t = Some th -> a ∈ owned q th -> a ∉ chain q rest;
  mv_apart : forall t1 t2 th1 th2 a, ths !! t1 = Some th1 -> ths !! t2 = Some th2 ->
    a ∈ owned q th1 -> a ∈ owned q th2 -> t1 = t2;
  mv_once : forall t th, ths !! t = Some th -> NoDup (owned q th);
  mv_tokens : forall t1 t2 th1 th2 i, ths !! t1 = Some th1 -> ths !! t2 = Some th2 ->
    th_token th1 = Some i -> th_token th2 = Some i -> t1 = t2;
  mv_slots : forall i s, mq_slots q !! i = Some s ->
    0 <= sl_epoch s <= mq_epoch q /\ (sl_occupied s = false -> sl_retired s = []);
  mv_epoch : 0 < mq_epoch q <= n;
  mv_threads : forall t th, ths !! t = Some th -> thread_ok q ths rest th;
  mv_scan : forall t th m i x, ths !! t = Some th -> scanned q (th_pc th) = Some (m, i) ->
    x ∈ retired_of q th -> rt_epoch x < m ->
    forall t2 th2 j, ths !! t2 = Some th2 -> th_token th2 = Some j -> (j < i)%nat ->
      held (th_pc th2) <> Some (rt_node x);
  mv_taking : forall t1 t2 th1 th2 a, ths !! t1 = Some th1 -> ths !! t2 = Some th2 ->
    taking (th_pc th1) = Some a -> taking (th_pc th2) = Some a -> t1 = t2
}.

(** ** What one thread's step may do to the others *)

Record transition (q : MpmcQueue T) (ths : list (MpmcThread T)) (rest : list Z) (t : nat) (th : MpmcThread T)
    (q' : MpmcQueue T) (th' : MpmcThread T) (rest' : list Z) : Prop := {
  tr_dead : forall a r, (a, r) ∈ dead_of q th ->
    (exists r', (a, r') ∈ dead_of q' th' /\ (r' = r \/ r = None /\ forall e, r' = Some e -> mq_epoch q <= e)) \/
    forall t2 th2, t2 <> t -> ths !! t2 = Some th2 -> held (th_pc th2) <> Some a;
  tr_out : forall a, a ∈ chain q rest -> a ∈ chain q' rest' \/ (a, None) ∈ dead_of q' th';
  tr_in : forall a, a ∈ chain q' rest' -> a ∈ chain q rest \/ exists v, new_node (th_pc th) = Some (a, v);
  tr_owned : forall a, a ∈ owned q' th' ->
    a ∉ chain q' rest' /\ (a ∈ owned q th \/ a ∈ chain q rest \/ mq_heap q !! a = None);
  tr_next : forall a n, next_of q a = Some (Some n) ->
    next_of q' a = Some (Some n) \/
    a ∈ owned q th /\ forall t2 th2, t2 <> t -> ths !! t2 = Some th2 -> held (th_pc th2) <> Some a;
  tr_new : forall t2 th2 a v, t2 <> t -> ths !! t2 = Some th2 -> new_node (th_pc th2) = Some (a, v) ->
    mq_heap q' !! a = mq_heap q !! a;
  tr_slots : forall t2 th2 i, t2 <> t -> ths !! t2 = Some th2 -> th_token th2 = Some i ->
    mq_slots q' !! i = mq_slots q !! i;
  tr_length : length (mq_slots q') = length (mq_slots q);
  tr_epoch : mq_epoch q <= mq_epoch q';
  tr_head : mq_head q' = mq_head q \/ mq_head q ∉ chain q' rest';
  tr_tail : mq_head q' = mq_head q -> mq_tail q <> mq_head q -> mq_tail q' <> mq_head q';
  tr_rest : forall a, a ∈ rest' -> a ∈ rest \/ exists v, new_node (th_pc th) = Some (a, v);
  tr_held : forall a, held (th_pc th') = Some a -> held (th_pc th) = Some a \/ a ∈ chain q' rest';
  tr_taking : forall a, taking (th_pc th') = Some a -> taking (th_pc th) = Some a \/ a ∈ rest;
  tr_token : forall i, th_token th' = Some i -> th_token th = Some i \/
    held (th_pc th') = None /\ exists s, mq_slots q !! i = Some s /\ sl_occupied s = false
}.

Lemma retired_of_slots q q' (th : MpmcThread T) :
  (forall i, th_token th = Some i -> mq_slots q' !! i = mq_slots q !! i) ->
  slot_of q' th = slot_of q th /\ retired_of q' th = retired_of q th /\ dead_of q' th = dead_of q th /\
  owned q' th = owned q th.
Proof using Type.
  intros H. assert (E : slot_of q' th = slot_of q th).
  { unfold slot_of. destruct (th_token th) as [i|]; [|done]. simpl. by apply H. }
  unfold owned, dead_of, retired_of. by rewrite E.
Qed.

Lemma dead_owned q (th : MpmcThread T) a r : (a, r) ∈ dead_of q th -> a ∈ owned q th.
Proof using Type.
  intros H. unfold owned. apply elem_of_app. right. apply (list_elem_of_fmap_2 fst) in H. exact H.
Qed.

Lemma new_owned q (th : MpmcThread T) a v : new_node (th_pc th) = Some (a, v) -> a ∈ owned q th.
Proof using Type. intros H. unfold owned. rewrite H. simpl. left. Qed.

Section Inv.
Context (n : Z) (q : MpmcQueue T) (ths : list (MpmcThread T)) (rest : list Z) (vals : list T).
Context (I : mpmc_inv n q ths rest vals).

Lemma new_not_dead t1 t2 th1 th2 a v r :
  ths !! t1 = Some th1 -> ths !! t2 = Some th2 -> new_node (th_pc th1) = Some (a, v) -> (a, r) ∉ dead_of q th2.
Proof using I.
  intros E1 E2 Hn Hd. pose proof (mv_apart _ _ _ _ _ I _ _ _ _ _ E1 E2 (new_owned _ _ _ _ Hn) (dead_owned _ _ _ _ Hd)).
  subst t2. rewrite E1 in E2. injection E2 as <-. pose proof (mv_once _ _ _ _ _ I _ _ E1) as N.
  unfold owned in N. rewrite Hn in N. simpl in N. apply NoDup_cons in N as [N _]. apply N.
  by apply (list_elem_of_fmap_2 fst) in Hd.
Qed.

(** A pointer that may be followed is not one of a node that is not linked yet. *)
Lemma guarded_not_new th a t2 th2 v :
  guarded q ths rest th a -> ths !! t2 = Some th2 -> new_node (th_pc th2) <> Some (a, v).
Proof using I.
  intros [Hc|(s & t' & th' & r & _ & E' & Hd & _)] E2 Hn.
  - by apply (mv_unlinked _ _ _ _ _ I _ _ _ E2 (new_owned _ _ _ _ Hn)).
  - by apply (new_not_dead _ _ _ _ _ _ r E2 E' Hn).
Qed.

Lemma guarded_alloc th a : guarded q ths rest th a -> is_Some (mq_heap q !! a).
Proof using I.
  intros G. apply (mv_cover _ _ _ _ _ I). destruct G as [Hc|(s & t' & th' & r & _ & E' & Hd & _)]; [by left|].
  right. exists t', th'. split; [done|]. by eapply dead_owned.
Qed.

(** One that has no successor is the last of the chain. *)
Lemma guarded_last th a : guarded q ths rest th a -> next_of q a = Some None ->
  exists i, chain q rest !! i = Some a /\ rest !! i = None.
Proof using I.
  intros [Hc|(s & t' & th' & r & _ & E' & Hd & _)] Hn.
  - apply list_elem_of_lookup in Hc as [i Hi]. exists i. split; [done|].
    rewrite (mv_chain _ _ _ _ _ I _ _ Hi) in Hn. by injection Hn.
  - destruct (tk_dead _ _ _ _ (mv_threads _ _ _ _ _ I _ _ E') _ _ Hd) as [[b Hb] _]. congruence.
Qed.

Lemma owned_not_next t th a : ths !! t = Some th -> a ∈ owned q th -> a ∉ chain q rest.
Proof using I. intros E. by apply (mv_unlinked _ _ _ _ _ I _ _ _ E). Qed.

Section Others.
Context (t : nat) (th th' : MpmcThread T) (q' : MpmcQueue T) (rest' : list Z).
Context (E : ths !! t = Some th) (R : transition q ths rest t th q' th' rest').

Lemma lookup_other t2 : t2 <> t -> (<[t := th']> ths) !! t2 = ths !! t2.
Proof using Type. intros. by apply list_lookup_insert_ne. Qed.

Lemma lookup_self : (<[t := th']> ths) !! t = Some th'.
Proof using E. apply list_lookup_insert_eq. by eapply lookup_lt_Some. Qed.

Lemma lookup_threads t2 th2 : (<[t := th']> ths) !! t2 = Some th2 ->
  t2 = t /\ th2 = th' \/ t2 <> t /\ ths !! t2 = Some th2.
Proof using E.
  destruct (decide (t2 = t)) as [->|Hne].
  - rewrite lookup_self. intros H. injection H. auto.
  - rewrite lookup_other by done. auto.
Qed.

Lemma other_slots t2 th2 : t2 <> t -> ths !! t2 = Some th2 ->
  slot_of q' th2 = slot_of q th2 /\ retired_of q' th2 = retired_of q th2 /\ dead_of q' th2 = dead_of q th2 /\
  owned q' th2 = owned q th2.
Proof using R. intros Hne E2. apply retired_of_slots. intros i. by apply (tr_slots _ _ _ _ _ _ _ _ R t2). Qed.

Lemma other_guarded t2 th2 a : t2 <> t -> ths !! t2 = Some th2 -> held (th_pc th2) = Some a ->
  guarded q ths rest th2 a -> guarded q' (<[t := th']> ths) rest' th2 a.
Proof using E R I.
  intros Hne E2 Hh G. destruct (other_slots t2 th2 Hne E2) as (Es & _ & _ & _).
  destruct G as [Hc|(s & t3 & th3 & r & Hs & E3 & Hd & He)].
  - destruct (tr_out _ _ _ _ _ _ _ _ R a Hc) as [Hc'|Hd]; [by left|right].
    pose proof (mv_threads _ _ _ _ _ I _ _ E2) as K.
    destruct (th_token th2) as [i|] eqn:Et.
    + destruct (tk_slot _ _ _ _ K i Et) as (s & Hs & _). exists s, t, th', None.
      rewrite Es. unfold slot_of. rewrite Et. simpl. rewrite lookup_self. by repeat split.
    + exfalso. apply (tk_token _ _ _ _ K); [|done]. destruct th2 as [tk [ | | | | |v []|[]| | | | ]]; done.
  - destruct (decide (t3 = t)) as [->|Hn3].
    + rewrite E in E3. injection E3 as <-.
      destruct (tr_dead _ _ _ _ _ _ _ _ R a r Hd) as [(r' & Hd' & Hr)|Hno]; [|by edestruct Hno].
      right. exists s, t, th', r'. rewrite Es, lookup_self. repeat split; try done.
      destruct Hr as [->|[-> Hr]]; [done|]. intros e ->. specialize (Hr e eq_refl).
      unfold slot_of in Hs. destruct (th_token th2) as [i|]; [|done]. simpl in Hs.
      destruct (mv_slots _ _ _ _ _ I _ _ Hs). lia.
    + right. exists s, t3, th3, r. destruct (other_slots t3 th3 Hn3 E3) as (_ & _ & Ed & _).
      rewrite Es, lookup_other, Ed by done. done.
Qed.

Lemma other_was_head h : was_head q rest h -> (forall v, new_node (th_pc th) <> Some (h, v)) ->
  was_head q' rest' h.
Proof using R.
  intros [->|Hn] Hnew.
  - destruct (tr_head _ _ _ _ _ _ _ _ R) as [<-|H]; [by left|by right].
  - right. intros Hc. destruct (tr_in _ _ _ _ _ _ _ _ R h Hc) as [|[v Hv]]; [done|]. by apply (Hnew v).
Qed.

Lemma other_next t2 th2 a b : t2 <> t -> ths !! t2 = Some th2 ->
  held (th_pc th2) = Some a \/ a ∈ owned q th2 -> next_of q a = Some (Some b) -> next_of q' a = Some (Some b).
Proof using E R I.
  intros Hne E2 Ha Hb. destruct (tr_next _ _ _ _ _ _ _ _ R a b Hb) as [|[Ho Hno]]; [done|].
  destruct Ha as [Ha|Ha]; [by destruct (Hno t2 th2)|].
  by destruct Hne; apply (mv_apart _ _ _ _ _ I _ _ _ _ a E2 E).
Qed.

(** A thread that saw [head_] at [h] and [tail_] elsewhere. *)
Lemma other_head_tail h : was_head q rest h -> (forall v, new_node (th_pc th) <> Some (h, v)) ->
  (h = mq_head q -> mq_tail q <> h) -> h = mq_head q' -> mq_tail q' <> h.
Proof using R.
  intros W Hnew Ht ->.
  assert (Hh : mq_head q' = mq_head q).
  { destruct W as [|Hn]; [done|]. destruct (tr_in _ _ _ _ _ _ _ _ R (mq_head q')) as [|[v Hv]].
    - left.
    - done.
    - by destruct (Hnew v). }
  apply (tr_tail _ _ _ _ _ _ _ _ R); [done|]. rewrite <- Hh. by apply Ht.
Qed.

Lemma other_fact t2 th2 : t2 <> t -> ths !! t2 = Some th2 -> pc_fact q rest th2 -> pc_fact q' rest' th2.
Proof using E R I.
  intros Hne E2 F. pose proof (mv_threads _ _ _ _ _ I _ _ E2) as K.
  assert (Hnew : forall a, held (th_pc th2) = Some a -> forall v, new_node (th_pc th) <> Some (a, v)).
  { intros a Ha v. apply (guarded_not_new th2 a t th v); [by apply (tk_held _ _ _ _ K)|done]. }
  assert (Hnx : forall a b, held (th_pc th2) = Some a -> next_of q a = Some (Some b) -> next_of q' a = Some (Some b)).
  { intros a b Ha. apply (other_next t2 th2); auto. }
  assert (HW : forall a, held (th_pc th2) = Some a -> was_head q rest a -> was_head q' rest' a).
  { intros a Ha W. apply other_was_head; auto. }
  assert (HT : forall a, held (th_pc th2) = Some a -> was_head q rest a ->
    (a = mq_head q -> mq_tail q <> a) -> a = mq_head q' -> mq_tail q' <> a).
  { intros a Ha W. apply other_head_tail; auto. }
  assert (HR : forall a, held (th_pc th2) = Some a -> a ∉ rest -> a ∉ rest').
  { intros a Ha Hr Hr'. destruct (tr_rest _ _ _ _ _ _ _ _ R a Hr') as [|[v Hv]]; [done|]. by apply (Hnew a Ha v). }
  destruct (other_slots t2 th2 Hne E2) as (_ & Er & _ & _).
  pose proof (tr_epoch _ _ _ _ _ _ _ _ R) as He.
  unfold pc_fact in *. rewrite ?Er. destruct (th_pc th2) as [|op p|op|op e|op|v p|p|p k|r| |]; try done.
  - destruct p; try done. destruct F. split; [done|lia].
  - destruct F. split; [done|lia].
  - destruct p as [| | |node tail nx| | | |]; try (by apply Hnx); try done.
    destruct nx; [|done]. by apply Hnx.
  - destruct p; try (by apply Hnx); try (by apply HR); try (by apply HW); try done.
    + destruct F as [W F]. split; [by apply HW|]. intros Hh Ht. apply HT; auto.
    + destruct F as (W & F & Fn). repeat split; [by apply HW| |].
      * intros Hh Ht. apply HT; auto.
      * intros x Hx. apply Hnx; [done|]. by apply Fn.
    + destruct F as (W & F & Fn). repeat split; [by apply HW| |by apply Hnx]. apply HT; auto.
  - by rewrite (tr_length _ _ _ _ _ _ _ _ R).
Qed.

Lemma other_ok t2 th2 : t2 <> t -> ths !! t2 = Some th2 -> thread_ok q' (<[t := th']> ths) rest' th2.
Proof using E R I.
  intros Hne E2. pose proof (mv_threads _ _ _ _ _ I _ _ E2) as K.
  destruct (other_slots t2 th2 Hne E2) as (_ & _ & Ed & _). split.
  - intros i Hi. rewrite (tr_slots _ _ _ _ _ _ _ _ R t2 th2 i Hne E2 Hi). by apply (tk_slot _ _ _ _ K).
  - apply (tk_token _ _ _ _ K).
  - intros a v Hn. rewrite (tr_new _ _ _ _ _ _ _ _ R t2 th2 a v Hne E2 Hn). by apply (tk_new _ _ _ _ K).
  - rewrite Ed. intros a r Hd. destruct (tk_dead _ _ _ _ K a r Hd) as [[b Hb] He]. split.
    + exists b. apply (other_next t2 th2); [done|done| |done]. right. by eapply dead_owned.
    + intros e Hr. specialize (He e Hr). pose proof (tr_epoch _ _ _ _ _ _ _ _ R). lia.
  - intros a Ha. apply (other_guarded t2); auto. by apply (tk_held _ _ _ _ K).
  - apply (other_fact t2); [done|done|]. apply (tk_fact _ _ _ _ K).
Qed.

Lemma other_not_chain t2 th2 a : t2 <> t -> ths !! t2 = Some th2 -> a ∈ owned q th2 ->
  a ∉ chain q' rest' /\ a ∉ owned q' th'.
Proof using E R I.
  intros Hne E2 Ha. pose proof (mv_unlinked _ _ _ _ _ I _ _ _ E2 Ha) as Hc.
  assert (Ho : a ∉ owned q th) by (intros Ho; by destruct Hne; apply (mv_apart _ _ _ _ _ I _ _ _ _ a E2 E)).
  split.
  - intros Hc'. destruct (tr_in _ _ _ _ _ _ _ _ R a Hc') as [|[v Hv]]; [done|]. by eapply Ho, new_owned.
  - intros Ho'. destruct (tr_owned _ _ _ _ _ _ _ _ R a Ho') as [_ [|[|Hn]]]; [done|done|].
    assert (is_Some (mq_heap q !! a)) as [? ?] by (apply (mv_cover _ _ _ _ _ I); eauto). congruence.
Qed.

(** The part of the invariant that a step has to establish itself. *)
Record own_part (n' : Z) (vals' : list T) : Prop := {
  op_chain : forall i a, chain q' rest' !! i = Some a -> next_of q' a = Some (rest' !! i);
  op_nodup : NoDup (chain q' rest');
  op_tail : mq_tail q' ∈ chain q' rest';
  op_values : Forall2 (fun a v => value_at q' a = Some v) rest' vals';
  op_alloc : forall a, a ∈ chain q' rest' \/ a ∈ owned q' th' -> is_Some (mq_heap q' !! a);
  op_cover : forall a, a ∉ chain q' rest' -> a ∉ owned q' th' ->
    is_Some (mq_heap q' !! a) <-> is_Some (mq_heap q !! a) /\ a ∉ chain q rest /\ a ∉ owned q th;
  op_once : NoDup (owned q' th');
  op_slots : forall i s, mq_slots q' !! i = Some s ->
    0 <= sl_epoch s <= mq_epoch q' /\ (sl_occupied s = false -> sl_retired s = []);
  op_epoch : 0 < mq_epoch q' <= n';
  op_thread : thread_ok q' (<[t := th']> ths) rest' th';
  op_scan : forall m i x, scanned q' (th_pc th') = Some (m, i) -> x ∈ retired_of q' th' -> rt_epoch x < m ->
    forall t2 th2 j, (<[t := th']> ths) !! t2 = Some th2 -> th_token th2 = Some j -> (j < i)%nat ->
      held (th_pc th2) <> Some (rt_node x)
}.

(** What at most one thread has, at most one thread has after the step. *)
Lemma apart_update {A} (P P' : MpmcThread T -> A -> Prop) :
  (forall t1 t2 th1 th2 a, ths !! t1 = Some th1 -> ths !! t2 = Some th2 -> P th1 a -> P th2 a -> t1 = t2) ->
  (forall t2 th2 a, t2 <> t -> ths !! t2 = Some th2 -> P' th2 a -> P th2 a /\ ~ P' th' a) ->
  forall t1 t2 th1 th2 a, (<[t := th']> ths) !! t1 = Some th1 -> (<[t := th']> ths) !! t2 = Some th2 ->
    P' th1 a -> P' th2 a -> t1 = t2.
Proof using E.
  intros H1 H2 t1 t2 th1 th2 a E1 E2 P1 P2.
  destruct (lookup_threads t1 th1 E1) as [[-> ->]|[Hne1 E1']], (lookup_threads t2 th2 E2) as [[-> ->]|[Hne2 E2']]; [done| | |].
  - by destruct (H2 t2 th2 a Hne2 E2' P2).
  - by destruct (H2 t1 th1 a Hne1 E1' P1).
  - apply (H1 t1 t2 th1 th2 a E1' E2'); [by apply (H2 t1)|by apply (H2 t2)].
Qed.

Lemma other_owned t2 th2 : t2 <> t -> ths !! t2 = Some th2 -> owned q' th2 = owned q th2.
Proof using R. intros Hne E2. by destruct (other_slots t2 th2 Hne E2) as (_ & _ & _ & ->). Qed.

Lemma step_cover n' vals' : own_part n' vals' -> forall a,
  is_Some (mq_heap q' !! a) <->
  a ∈ chain q' rest' \/ exists t2 th2, (<[t := th']> ths) !! t2 = Some th2 /\ a ∈ owned q' th2.
Proof using E R I.
  intros P a. split.
  - intros Ha. destruct (decide (a ∈ chain q' rest')) as [|Hc]; [by left|right].
    destruct (decide (a ∈ owned q' th')) as [|Ho]; [exists t, th'; split; [by eapply lookup_self|done]|].
    apply (op_cover _ _ P a Hc Ho) in Ha as (Ha & Hnc & Hno).
    apply (mv_cover _ _ _ _ _ I) in Ha as [|(t2 & th2 & E2 & Ha)]; [done|].
    assert (t2 <> t) by (intros ->; rewrite E in E2; by injection E2 as ->).
    exists t2, th2. rewrite lookup_other, (other_owned t2 th2) by done. done.
  - intros [Hc|(t2 & th2 & [[-> ->]|[Hne E2]]%lookup_threads & Ha)]; [by apply (op_alloc _ _ P); left|by apply (op_alloc _ _ P); right|].
    rewrite (other_owned t2 th2) in Ha by done. destruct (other_not_chain t2 th2 a Hne E2 Ha) as [Hc Ho].
    apply (op_cover _ _ P a Hc Ho). repeat split.
    + apply (mv_cover _ _ _ _ _ I). eauto.
    + by apply (mv_unlinked _ _ _ _ _ I t2 th2).
    + intros Ho'. by destruct Hne; apply (mv_apart _ _ _ _ _ I _ _ _ _ a E2 E).
Qed.

(** The scans of the other threads. *)
Lemma step_scan t2 th2 m i x : t2 <> t -> ths !! t2 = Some th2 -> scanned q' (th_pc th2) = Some (m, i) ->
  x ∈ retired_of q' th2 -> rt_epoch x < m ->
  forall t3 th3 j, (<[t := th']> ths) !! t3 = Some th3 -> th_token th3 = Some j -> (j < i)%nat ->
    held (th_pc th3) <> Some (rt_node x).
Proof using E R I.
  intros Hne E2 Hs Hx Hm.
  assert (Hs2 : scanned q (th_pc th2) = Some (m, i)).
  { revert Hs. unfold scanned. by rewrite (tr_length _ _ _ _ _ _ _ _ R). }
  assert (Hr : retired_of q' th2 = retired_of q th2) by (by destruct (other_slots t2 th2 Hne E2) as (_ & -> & _)).
  rewrite Hr in Hx. intros t3 th3 j [[-> ->]|[Hne3 E3]]%lookup_threads Hj Hlt Hh.
  - destruct (tr_held _ _ _ _ _ _ _ _ R _ Hh) as [Hh0|Hc].
    + destruct (tr_token _ _ _ _ _ _ _ _ R j Hj) as [Hj0|[Hno _]]; [|congruence].
      by apply (mv_scan _ _ _ _ _ I t2 th2 m i x E2 Hs2 Hx Hm t th j E Hj0 Hlt).
    + assert (Ho : rt_node x ∈ owned q th2).
      { apply (dead_owned _ _ _ (Some (rt_epoch x))). unfold dead_of. apply elem_of_app. right.
        by apply (list_elem_of_fmap_2 (fun r => (rt_node r, Some (rt_epoch r)))). }
      by destruct (other_not_chain t2 th2 _ Hne E2 Ho).
  - by apply (mv_scan _ _ _ _ _ I t2 th2 m i x E2 Hs2 Hx Hm t3 th3 j E3).
Qed.

Lemma step_inv n' vals' : own_part n' vals' -> mpmc_inv n' q' (<[t := th']> ths) rest' vals'.
Proof using E R I.
  intros P. split; try apply P; try by apply (step_cover n' vals').
  - intros t2 th2 a [[-> ->]|[Hne E2]]%lookup_threads Ha; [by apply (tr_owned _ _ _ _ _ _ _ _ R a Ha)|].
    rewrite (other_owned t2 th2) in Ha by done. by apply (other_not_chain t2 th2 a Hne E2 Ha).
  - apply (apart_update (fun th2 a => a ∈ owned q th2) (fun th2 a => a ∈ owned q' th2)); [apply (mv_apart _ _ _ _ _ I)|].
    intros t2 th2 a Hne E2 Ha. rewrite (other_owned t2 th2) in Ha by done. split; [done|].
    by apply (other_not_chain t2 th2 a Hne E2 Ha).
  - intros t2 th2 [[-> ->]|[Hne E2]]%lookup_threads; [apply (op_once _ _ P)|].
    rewrite (other_owned t2 th2) by done. by apply (mv_once _ _ _ _ _ I t2).
  - apply (apart_update (fun th2 i => th_token th2 = Some i) (fun th2 i => th_token th2 = Some i)); [apply (mv_tokens _ _ _ _ _ I)|].
    intros t2 th2 i Hne E2 H2. split; [done|]. intros H1. destruct (tr_token _ _ _ _ _ _ _ _ R i H1) as [H|(_ & s & Hs & Ho)].
    + by destruct Hne; apply (mv_tokens _ _ _ _ _ I _ _ _ _ i E2 E).
    + destruct (tk_slot _ _ _ _ (mv_threads _ _ _ _ _ I _ _ E2) i H2) as (s' & Hs' & Ho' & _). congruence.
  - intros t2 th2 [[-> ->]|[Hne E2]]%lookup_threads; [apply P|by apply (other_ok t2)].
  - intros t2 th2 m i x [[-> ->]|[Hne E2]]%lookup_threads Hs Hx Hm; [by apply (op_scan _ _ P m i x)|by apply (step_scan t2 th2 m)].
  - apply (apart_update (fun th2 a => taking (th_pc th2) = Some a) (fun th2 a => taking (th_pc th2) = Some a)); [apply (mv_taking _ _ _ _ _ I)|].
    intros t2 th2 a Hne E2 H2. split; [done|]. intros H1. destruct (tr_taking _ _ _ _ _ _ _ _ R a H1) as [H|H].
    + by destruct Hne; apply (mv_taking _ _ _ _ _ I _ _ _ _ a E2 E).
    + pose proof (tk_fact _ _ _ _ (mv_threads _ _ _ _ _ I _ _ E2)) as F. unfold pc_fact in F.
      destruct (th_pc th2) as [| | | | | |[]| | | |]; try done; injection H2 as ->; done.
Qed.
End Others.

(** ** Steps that leave the nodes alone *)

Section Private.
Context (t : nat) (th th' : MpmcThread T) (q' : MpmcQueue T).
Context (E : ths !! t = Some th).
Context (Hheap : mq_heap q' = mq_heap q) (Hhead : mq_head q' = mq_head q) (Htail : mq_tail q' = mq_tail q).
Context (Hown : owned q' th' ≡ₚ owned q th).

Definition dead_kept : Prop := forall a r, (a, r) ∈ dead_of q th ->
  exists r', (a, r') ∈ dead_of q' th' /\ (r' = r \/ r = None /\ forall e, r' = Some e -> mq_epoch q <= e).

Lemma private_chain : chain q' rest = chain q rest.
Proof using Hhead. unfold chain. by rewrite Hhead. Qed.

Lemma private_next a : next_of q' a = next_of q a.
Proof using Hheap. unfold next_of. by rewrite Hheap. Qed.

Lemma inv_private n' :
  dead_kept ->
  (forall t2 th2 i, t2 <> t -> ths !! t2 = Some th2 -> th_token th2 = Some i -> mq_slots q' !! i = mq_slots q !! i) ->
  length (mq_slots q') = length (mq_slots q) ->
  mq_epoch q <= mq_epoch q' <= n' ->
  (forall a, held (th_pc th') = Some a -> held (th_pc th) = Some a \/ a ∈ chain q rest) ->
  (forall a, taking (th_pc th') = Some a -> taking (th_pc th) = Some a) ->
  (forall i, th_token th' = Some i -> th_token th = Some i \/
    held (th_pc th') = None /\ exists s, mq_slots q !! i = Some s /\ sl_occupied s = false) ->
  (forall i s, mq_slots q' !! i = Some s ->
    0 <= sl_epoch s <= mq_epoch q' /\ (sl_occupied s = false -> sl_retired s = [])) ->
  thread_ok q' (<[t := th']> ths) rest th' ->
  (forall m i x, scanned q' (th_pc th') = Some (m, i) -> x ∈ retired_of q' th' -> rt_epoch x < m ->
    forall t2 th2 j, (<[t := th']> ths) !! t2 = Some th2 -> th_token th2 = Some j -> (j < i)%nat ->
      held (th_pc th2) <> Some (rt_node x)) ->
  mpmc_inv n' q' (<[t := th']> ths) rest vals.
Proof using E Hheap Hhead Htail Hown I.
  intros Hd Hs Hl He Hh Ht Htk Hsl Hok Hsc.
  assert (Hin : forall a, a ∈ owned q' th' <-> a ∈ owned q th) by (intros a; by rewrite Hown).
  assert (Hcov : forall a, a ∈ chain q rest \/ a ∈ owned q th -> is_Some (mq_heap q !! a)).
  { intros a Ha. apply (mv_cover _ _ _ _ _ I). destruct Ha as [|Ha]; [by left|right]. eauto. }
  apply (step_inv t th th' q' rest E).
  - split; rewrite ?private_chain, ?Hheap, ?Hhead, ?Htail; try done; try (by auto); try lia.
    + intros a Ha. rewrite Hin in Ha. split; [|by left]. by apply (mv_unlinked _ _ _ _ _ I _ _ _ E).
    + intros a b. rewrite private_next. by left.
  - split; rewrite ?private_chain, ?Hheap, ?Htail; try done; try apply I.
    + intros i a. rewrite private_next. apply (mv_chain _ _ _ _ _ I).
    + eapply Forall2_impl; [apply (mv_values _ _ _ _ _ I)|]. intros a v. unfold value_at. by rewrite Hheap.
    + intros a. rewrite Hin. apply Hcov.
    + intros a Hc. rewrite Hin. intros Ho. naive_solver.
    + rewrite Hown. apply (mv_once _ _ _ _ _ I _ _ E).
    + pose proof (mv_epoch _ _ _ _ _ I). lia.
Qed.
End Private.

(** Steps that only read shared memory, or count: the thread keeps its nodes, except
    that it may note the epoch at which it retires one. *)
Section Read.
Context (t : nat) (th : MpmcThread T) (pc : mpmc_pc T) (z : Z).

Definition reads_unlinked : Prop :=
  unlinked pc = unlinked (th_pc th) \/
  exists h, unlinked (th_pc th) = Some (h, None) /\ unlinked pc = Some (h, Some (mq_epoch q)).

Context (Hr : reads_unlinked) (Hret : retired_of q (mkThread (th_token th) pc) = retired_of q th).

Lemma read_dead_kept : dead_kept th (mkThread (th_token th) pc) (mq_with_size q z).
Proof using Hr Hret.
  intros a e. unfold dead_of. change (retired_of (mq_with_size q z) (mkThread (th_token th) pc)) with (retired_of q (mkThread (th_token th) pc)).
  rewrite Hret, !elem_of_app. intros [Ha|Ha]; [|exists e; split; [apply elem_of_app; by right|by left]].
  simpl (th_pc _). destruct Hr as [->|(h & Hu & Hu')]; [exists e; split; [apply elem_of_app; by left|by left]|].
  rewrite Hu in Ha. simpl in Ha. apply list_elem_of_singleton in Ha. injection Ha as -> ->.
  rewrite Hu'. eexists. split; [left|]. right. split; [done|]. intros e He. injection He as <-. simpl. lia.
Qed.

Lemma read_dead a e : (a, e) ∈ dead_of (mq_with_size q z) (mkThread (th_token th) pc) ->
  (a, e) ∈ dead_of q th \/ (a, None) ∈ dead_of q th /\ e = Some (mq_epoch q).
Proof using Hr Hret.
  unfold dead_of. change (retired_of (mq_with_size q z) (mkThread (th_token th) pc)) with (retired_of q (mkThread (th_token th) pc)).
  rewrite Hret, !elem_of_app. intros [Ha|Ha]; [|left; by right].
  simpl (th_pc _) in Ha. destruct Hr as [Hu'|(h & Hu & Hu')]; rewrite Hu' in Ha; [left; by left|].
  rewrite Hu. simpl in Ha. apply list_elem_of_singleton in Ha. injection Ha as -> ->.
  right. split; [left; left|done].
Qed.

Lemma read_owned : new_node pc = new_node (th_pc th) -> owned (mq_with_size q z) (mkThread (th_token th) pc) = owned q th.
Proof using Hr Hret.
  intros Hn. unfold owned, dead_of.
  change (retired_of (mq_with_size q z) (mkThread (th_token th) pc)) with (retired_of q (mkThread (th_token th) pc)).
  rewrite Hret. simpl (th_pc _). rewrite Hn, !map_app. do 2 f_equal. by destruct Hr as [->|(h & -> & ->)].
Qed.

(** A pointer the thread may follow stays one. *)
Lemma read_guarded a : ths !! t = Some th -> guarded q ths rest th a ->
  guarded (mq_with_size q z) (<[t := mkThread (th_token th) pc]> ths) rest (mkThread (th_token th) pc) a.
Proof using I Hr Hret.
  intros E [Hc|(s & t2 & th2 & e & Hs & E2 & Ha2 & He)]; [by left|right].
  destruct (decide (t2 = t)) as [->|Hne].
  - rewrite E in E2. injection E2 as <-. destruct (read_dead_kept a e Ha2) as (e' & Hd' & He').
    exists s, t, (mkThread (th_token th) pc), e'. rewrite (lookup_self t th _ E). split_and!; [exact Hs|done|done|].
    intros x ->. destruct He' as [<-|[-> He']]; [by apply He|]. specialize (He' x eq_refl).
    unfold slot_of in Hs. destruct (th_token th) as [i|]; [|done]. simpl in Hs.
    pose proof (mv_slots _ _ _ _ _ I _ _ Hs). lia.
  - exists s, t2, th2, e. rewrite lookup_other by done. done.
Qed.
End Read.

Lemma inv_read (t : nat) (th : MpmcThread T) (pc : mpmc_pc T) (z : Z) :
  ths !! t = Some th ->
  let th' := mkThread (th_token th) pc in
  new_node pc = new_node (th_pc th) ->
  (unlinked pc = unlinked (th_pc th) \/
    exists h, unlinked (th_pc th) = Some (h, None) /\ unlinked pc = Some (h, Some (mq_epoch q))) ->
  retired_of q th' = retired_of q th ->
  (inside pc = true -> inside (th_pc th) = true) ->
  (tokenless pc = false -> th_token th <> None) ->
  (forall a, held pc = Some a -> held (th_pc th) = Some a \/ a ∈ chain q rest) ->
  (forall a, taking pc = Some a -> taking (th_pc th) = Some a) ->
  pc_fact q rest th' ->
  (forall m i x, scanned q pc = Some (m, i) -> x ∈ retired_of q th -> rt_epoch x < m ->
    forall t2 th2 j, ths !! t2 = Some th2 -> th_token th2 = Some j -> (j < i)%nat ->
      held (th_pc th2) <> Some (rt_node x)) ->
  mpmc_inv n (mq_with_size q z) (<[t := th']> ths) rest vals.
Proof using I.
  intros E th' Hn Hr Hret Hin Htk Hh Ht Hf Hsc.
  pose proof (mv_threads _ _ _ _ _ I _ _ E) as K. pose proof (read_owned th pc z Hr Hret Hn) as Hown.
  apply (inv_private t th th' (mq_with_size q z)); try done.
  - unfold th'. by rewrite Hown.
  - by apply read_dead_kept.
  - simpl. pose proof (mv_epoch _ _ _ _ _ I). lia.
  - by left.
  - apply (mv_slots _ _ _ _ _ I).
  - split; simpl.
    + intros i Hi. destruct (tk_slot _ _ _ _ K i Hi) as (s & ? & ? & ?). exists s. auto.
    + done.
    + intros a v Hv. rewrite Hn in Hv. by apply (tk_new _ _ _ _ K).
    + intros a e Ha. destruct (read_dead th pc z Hr Hret a e Ha) as [Ha'|[Ha' ->]].
      * apply (tk_dead _ _ _ _ K a e Ha').
      * split; [apply (tk_dead _ _ _ _ K a None Ha')|]. intros e He. injection He as <-. done.
    + intros a Ha. destruct (Hh a Ha) as [Hh'|Hc]; [|by left].
      apply (read_guarded t th pc z Hr Hret a E). by apply (tk_held _ _ _ _ K a).
    + exact Hf.
  - simpl (th_pc th'). change (retired_of (mq_with_size q z) th') with (retired_of q th'). rewrite Hret.
    intros m i x Hs Hx Hm t2 th2 j E2 Hj Hlt Hh2.
    destruct (lookup_threads t th th' E t2 th2 E2) as [[-> ->]|[Hne E2']].
    + destruct (Hh _ Hh2) as [Hh3|Hc].
      * by apply (Hsc m i x Hs Hx Hm t th j E Hj Hlt).
      * apply (mv_unlinked _ _ _ _ _ I t th (rt_node x) E); [|done].
        apply (dead_owned _ _ _ (Some (rt_epoch x))). unfold dead_of. apply elem_of_app. right.
        by apply (list_elem_of_fmap_2 (fun r => (rt_node r, Some (rt_epoch r)))).
    + by apply (Hsc m i x Hs Hx Hm t2 th2 j E2').
Qed.
End Inv.
End MpmcInv.
