(* ===== verification/MpmcSteps.v ===== *)
(** * The linked queue: every step keeps the invariant

    One lemma per effect (a write to the thread's own slot, an allocation, the link
    of a node, the advance of [tail_], the unlinking of the head, the reset of a
    value, a deletion, a change of epoch), and from them one per function: the step
    is defined, and the invariant holds after it. *)

From S2P Require Import Prelude Mpmc MpmcProofs.

Local Open Scope Z_scope.

Section MpmcSteps.
Context {T : Type}.

Lemma inv_mono n n' (q : MpmcQueue T) ths rest vals :
  n <= n' -> mpmc_inv n q ths rest vals -> mpmc_inv n' q ths rest vals.
Proof. intros Hn I. destruct I. split; try done. lia. Qed.

Lemma with_size_id (q : MpmcQueue T) : mq_with_size q (mq_size q) = q.
Proof. by destruct q. Qed.

Section Effects.
Context (n : Z) (q : MpmcQueue T) (ths : list (MpmcThread T)) (rest : list Z) (vals : list T).
Context (I : mpmc_inv n q ths rest vals).
Context (t : nat) (th : MpmcThread T) (E : ths !! t = Some th).

Lemma own_ok : thread_ok q ths rest th.
Proof using E I. by apply (mv_threads _ _ _ _ _ I t). Qed.

(** The values stay when each node behind the head keeps its own. *)
Lemma values_kept (q' : MpmcQueue T) :
  (forall a v, a ∈ rest -> value_at q a = Some v -> value_at q' a = Some v) ->
  Forall2 (fun a v => value_at q' a = Some v) rest vals.
Proof using I.
  intros H. apply Forall2_same_length_lookup_2; [by eapply Forall2_length, I|]. intros i a v Ha Hv.
  apply H; [by eapply list_elem_of_lookup_2|]. exact (Forall2_lookup_lr _ _ _ _ _ _ (mv_values _ _ _ _ _ I) Ha Hv).
Qed.

Lemma other_token t2 th2 i : t2 <> t -> ths !! t2 = Some th2 -> th_token th = Some i -> th_token th2 <> Some i.
Proof using E I. intros Hne E2 H1 H2. destruct Hne. by apply (mv_tokens _ _ _ _ _ I _ _ _ _ i E2 E). Qed.

(** ** Writes to the thread's own slot *)

Lemma inv_slot i s s' tk pc :
  th_token th = Some i -> mq_slots q !! i = Some s ->
  let q' := mq_with_slots q (<[i := s']> (mq_slots q)) in
  let th' := mkThread tk pc in
  (tk = Some i /\ sl_occupied s' = true \/ tk = None /\ sl_occupied s' = false /\ sl_retired s' = []) ->
  (inside pc = true -> sl_active s' = true) ->
  0 <= sl_epoch s' <= mq_epoch q ->
  held pc = None -> taking pc = None -> new_node pc = None -> scanned q' pc = None -> new_node (th_pc th) = None ->
  dead_of q' th' ≡ₚ dead_of q th ->
  (tokenless pc = false -> tk <> None) ->
  pc_fact q' rest th' ->
  mpmc_inv n q' (<[t := th']> ths) rest vals.
Proof using E I.
  intros Ht Hs q' th' Hocc Hact Hep Hh Htk Hn Hsc Hn0 Hd Htl Hf.
  assert (Hl : (i < length (mq_slots q))%nat) by (by eapply lookup_lt_Some).
  assert (Hi : mq_slots q' !! i = Some s') by (by apply list_lookup_insert_eq).
  apply (inv_private n q ths rest vals I t th th' q' E); try done.
  - unfold owned. simpl. rewrite Hn, Hn0. by rewrite Hd.
  - intros a r Ha. exists r. rewrite Hd. split; [done|by left].
  - intros t2 th2 j Hne E2 Hj. simpl. apply list_lookup_insert_ne. intros ->.
    by apply (other_token t2 th2 j Hne E2).
  - simpl. apply length_insert.
  - simpl. pose proof (mv_epoch _ _ _ _ _ I). lia.
  - simpl. intros a Ha. congruence.
  - simpl. intros a Ha. congruence.
  - simpl. intros j Hj. left. destruct Hocc as [[-> _]|[-> _]]; congruence.
  - intros j r. destruct (decide (j = i)) as [->|Hne].
    + rewrite Hi. intros Hr. injection Hr as <-. simpl. split; [done|]. destruct Hocc as [[_ ->]|(_ & _ & ->)]; done.
    + simpl. rewrite list_lookup_insert_ne by done. apply (mv_slots _ _ _ _ _ I).
  - split; simpl; try done.
    + intros j Hj. destruct Hocc as [[-> Ho]|[-> _]]; [|done]. injection Hj as <-. exists s'. rewrite list_lookup_insert_eq by done. done.
    + intros a v Ha. congruence.
    + intros a r. rewrite Hd. intros Ha. apply (tk_dead _ _ _ _ own_ok a r Ha).
    + intros a Ha. congruence.
  - simpl (th_pc th'). rewrite Hsc. done.
Qed.

Lemma slot_ret i s f (k : MpmcQueue T -> outcome (list (mpmc_event T) * MpmcQueue T * MpmcThread T)) :
  mq_slots q !! i = Some s ->
  (q ← on_slot q i f; k q) = k (mq_with_slots q (<[i := f s]> (mq_slots q))).
Proof using Type. intros Hs. unfold on_slot. rewrite Hs. done. Qed.

(** ** Registration *)

Definition preserved (r : outcome (list (mpmc_event T) * MpmcQueue T * MpmcThread T)) : Prop :=
  exists evs q' th' rest', r = Ret (evs, q', th') /\
    mpmc_inv (n + 1) q' (<[t := th']> ths) rest' (fold_left fifo_event evs vals).

Lemma preserved_intro evs q' th' rest' vals' :
  fold_left fifo_event evs vals = vals' -> mpmc_inv n q' (<[t := th']> ths) rest' vals' ->
  preserved (Ret (evs, q', th')).
Proof using Type.
  intros <- H. exists evs, q', th', rest'. split; [done|]. eapply inv_mono; [|done]. lia.
Qed.

Lemma inv_same pc :
  mpmc_inv n (mq_with_size q (mq_size q)) (<[t := mkThread (th_token th) pc]> ths) rest vals ->
  mpmc_inv n q (<[t := mkThread (th_token th) pc]> ths) rest vals.
Proof using Type. by rewrite with_size_id. Qed.

Lemma retired_no_token : th_token th = None -> tokenless (th_pc th) = true -> retired_of q th = [].
Proof using Type. unfold retired_of, slot_of. intros ->. by destruct (th_pc th). Qed.

Lemma inv_register op index s : th_pc th = PcAcquire op (AcqExchange index) -> th_token th = None ->
  mq_slots q !! index = Some s -> sl_occupied s = false ->
  mpmc_inv n (mq_with_slots q (<[index := with_occupied true s]> (mq_slots q)))
    (<[t := mkThread (Some index) (PcAcquire op AcqClear)]> ths) rest vals.
Proof using E I.
  intros Hp Hnt Hs Ho. assert (Hop : op <> OpExit).
  { pose proof (tk_fact _ _ _ _ own_ok) as F. unfold pc_fact in F. rewrite Hp in F. by destruct F. }
  assert (Hl : (index < length (mq_slots q))%nat) by (by eapply lookup_lt_Some).
  assert (Hfree : forall t2 th2, ths !! t2 = Some th2 -> th_token th2 <> Some index).
  { intros t2 th2 E2 H2. destruct (tk_slot _ _ _ _ (mv_threads _ _ _ _ _ I _ _ E2) _ H2) as (s2 & ? & ? & _). congruence. }
  assert (Hr : sl_retired s = []) by (by apply (mv_slots _ _ _ _ _ I index)).
  assert (Hret : retired_of q th = []) by (apply retired_no_token; [done|by rewrite Hp]).
  set (s' := with_occupied true s). set (th' := mkThread _ _).
  assert (Hret' : retired_of (mq_with_slots q (<[index:=s']> (mq_slots q))) th' = []).
  { unfold retired_of, slot_of. simpl. rewrite list_lookup_insert_eq by done. simpl. done. }
  apply (inv_private n q ths rest vals I t th th'); try done.
  - unfold owned, dead_of. rewrite Hret, Hret'. simpl. by rewrite Hp.
  - intros a r. unfold dead_of. rewrite Hret. simpl. rewrite Hp. by intros ?%not_elem_of_nil.
  - intros t2 th2 i Hne E2 Hi. simpl. apply list_lookup_insert_ne. intros ->. by apply (Hfree t2 th2).
  - apply length_insert.
  - simpl. pose proof (mv_epoch _ _ _ _ _ I). lia.
  - simpl. intros i Hi. injection Hi as <-. right. eauto.
  - simpl. intros i s2. destruct (decide (i = index)) as [->|Hne].
    + rewrite list_lookup_insert_eq by done. intros H2. injection H2 as <-. simpl.
      split; [|done]. by apply (mv_slots _ _ _ _ _ I index).
    + rewrite list_lookup_insert_ne by done. apply (mv_slots _ _ _ _ _ I).
  - split; simpl; try done.
    + intros i Hi. injection Hi as <-. rewrite list_lookup_insert_eq by done. by exists s'.
    + unfold dead_of. rewrite Hret'. simpl. by intros a r ?%not_elem_of_nil.
Qed.

Lemma acquire_preserved op p : th_pc th = PcAcquire op p -> preserved (acquire_step t q (th_token th) op p).
Proof using E I.
  intros Hp. pose proof own_ok as K. pose proof (tk_fact _ _ _ _ K) as F. unfold pc_fact in F. rewrite Hp in F.
  pose proof (tk_token _ _ _ _ K) as Htk. rewrite Hp in Htk.
  destruct p as [index| | |e]; simpl.
  - destruct F as [Hop Hnt]. destruct (mq_slots q !! index) as [s|] eqn:Hs.
    2:{ eapply preserved_intro; [done|]. rewrite <- Hnt. apply inv_same.
        apply inv_read; rewrite ?Hp; auto; try done. unfold retired_of. simpl. by rewrite Hp. }
    destruct (sl_occupied s) eqn:Ho.
    { eapply preserved_intro; [done|]. apply inv_same.
      apply inv_read; rewrite ?Hp; auto; try done. unfold retired_of. simpl. by rewrite Hp. }
    rewrite (slot_ret index s) by done. eapply preserved_intro; [done|]. by apply inv_register.
  - destruct (th_token th) as [i|] eqn:Ht; [|by destruct Htk]. destruct F as [Hop Hret]. simpl.
    destruct (tk_slot _ _ _ _ K i Ht) as (s & Hs & Ho & _). rewrite (slot_ret i s) by done.
    eapply preserved_intro; [done|].
    assert (Hr : sl_retired s = []).
    { unfold retired_of, slot_of in Hret. rewrite Hp, Ht in Hret. simpl in Hret. by rewrite Hs in Hret. }
    apply (inv_slot i s); try done; simpl; rewrite ?Hp; auto.
    + apply (mv_slots _ _ _ _ _ I i s Hs).
    + unfold dead_of. rewrite Hret. unfold retired_of, slot_of. simpl. rewrite Hp.
      rewrite list_lookup_insert_eq by (by eapply lookup_lt_Some). done.
  - eapply preserved_intro; [done|]. apply inv_same. apply inv_read; rewrite ?Hp; auto; try done.
    + unfold retired_of. simpl. by rewrite Hp.
    + simpl. split; [done|]. pose proof (mv_epoch _ _ _ _ _ I). lia.
  - destruct (th_token th) as [i|] eqn:Ht; [|by destruct Htk]. destruct F as [Hop He]. simpl.
    destruct (tk_slot _ _ _ _ K i Ht) as (s & Hs & Ho & _). rewrite (slot_ret i s) by done.
    eapply preserved_intro; [done|].
    apply (inv_slot i s); try done; simpl; rewrite ?Hp; auto.
    unfold dead_of, retired_of, slot_of. simpl. rewrite Hp, Ht. simpl.
    rewrite list_lookup_insert_eq by (by eapply lookup_lt_Some). by rewrite Hs.
Qed.

(** ** Allocation of a node *)

Lemma retired_of_pc pc :
  (forall f m k todo e, pc <> PcReclaim (Collect f m k todo) e) -> retired_of q (mkThread (th_token th) pc) =
    default [] (sl_retired <$> slot_of q th).
Proof using Type. intros H. unfold retired_of, slot_of. simpl. destruct pc as [| | | | | | |[] ?| | |]; try done. by destruct (H force_all safe_epoch kept todo k). Qed.

Lemma inv_alloc v a : th_pc th = PcPush v PuAlloc -> mq_heap q !! a = None ->
  mpmc_inv n (mq_with_heap q (<[a := mkNode None (Some v)]> (mq_heap q)))
    (<[t := mkThread (th_token th) (PcPush v (PuTail a))]> ths) rest vals.
Proof using E I.
  intros Hp Ha. pose proof own_ok as K.
  set (q' := mq_with_heap _ _). set (th' := mkThread _ _).
  assert (Hnc : forall x, x ∈ chain q rest \/ x ∈ owned q th -> is_Some (mq_heap q !! x)).
  { intros x Hx. apply (mv_cover _ _ _ _ _ I). destruct Hx; [by left|right; eauto]. }
  assert (Hne : forall x, is_Some (mq_heap q !! x) -> x <> a) by (intros x [? Hx] ->; congruence).
  assert (Hlk : forall x, x <> a -> mq_heap q' !! x = mq_heap q !! x) by (intros; by apply lookup_insert_ne).
  assert (Hla : mq_heap q' !! a = Some (mkNode None (Some v))) by apply lookup_insert_eq.
  assert (Hnx : forall x b, next_of q x = Some b -> next_of q' x = Some b).
  { intros x b. unfold next_of. destruct (decide (x = a)) as [->|Hxa]; [by rewrite Ha|]. by rewrite Hlk. }
  assert (Hd : dead_of q' th' = dead_of q th) by (unfold dead_of, retired_of; simpl; by rewrite Hp).
  assert (Ho : owned q' th' = a :: owned q th) by (unfold owned; rewrite Hd; simpl; by rewrite Hp).
  apply (step_inv n q ths rest vals I t th th' q' rest E).
  - split; try done; simpl; try by auto.
    + intros x r Hx. left. exists r. rewrite Hd. split; [done|by left].
    + intros x. rewrite Ho, elem_of_cons. intros [->|Hx].
      * split; [|by auto]. intros Hc. by apply (Hne a); auto.
      * split; [by apply (owned_not_next n q ths rest vals I t th)|by auto].
    + intros t2 th2 x w H2 E2 Hw. apply Hlk, Hne. eapply (ex_intro (fun y => _ = Some y)).
      by apply (tk_new _ _ _ _ (mv_threads _ _ _ _ _ I _ _ E2)).
  - split; try done; try by apply I.
    + intros i x Hx. apply Hnx. by apply (mv_chain _ _ _ _ _ I).
    + apply values_kept. intros x w _ Hv. unfold value_at in *. rewrite Hlk; [done|]. intros ->. by rewrite Ha in Hv.
    + intros x. rewrite Ho, elem_of_cons. intros Hx. destruct (decide (x = a)) as [->|Hxa]; [rewrite Hla; eauto|].
      rewrite Hlk by done. apply Hnc. naive_solver.
    + intros x Hc. rewrite Ho, not_elem_of_cons. intros [Hxa Hx]. rewrite Hlk by done. naive_solver.
    + rewrite Ho. constructor; [|by apply (mv_once _ _ _ _ _ I t)]. intros Hx. by apply (Hne a); auto.
    + split.
      * intros i Hi. destruct (tk_slot _ _ _ _ K i Hi) as (s & ? & ? & Hs). exists s. rewrite Hp in Hs. auto.
      * intros _. apply (tk_token _ _ _ _ K). by rewrite Hp.
      * intros x w Hx. injection Hx as <- <-. exact Hla.
      * intros x r. rewrite Hd. intros Hx. destruct (tk_dead _ _ _ _ K x r Hx) as [[b Hb] Hr]. split; [|done].
        exists b. by apply Hnx.
      * done.
      * done.
Qed.

(** ** The advance of [tail_] *)

Lemma chain_next a b : a ∈ chain q rest -> next_of q a = Some (Some b) ->
  b ∈ rest /\ b <> mq_head q.
Proof using I.
  intros [i Hi]%list_elem_of_lookup Hb. rewrite (mv_chain _ _ _ _ _ I _ _ Hi) in Hb. injection Hb as Hb.
  apply list_elem_of_lookup_2 in Hb. split; [done|]. intros ->.
  pose proof (mv_nodup _ _ _ _ _ I) as N. apply NoDup_cons in N as [N _]. done.
Qed.

Lemma owned_alloc x : x ∈ chain q rest \/ x ∈ owned q th -> is_Some (mq_heap q !! x).
Proof using E I. intros Hx. apply (mv_cover _ _ _ _ _ I). destruct Hx; [by left|right; eauto]. Qed.

Lemma inv_tail b pc :
  next_of q (mq_tail q) = Some (Some b) ->
  let q' := mq_with_tail q b in let th' := mkThread (th_token th) pc in
  new_node pc = new_node (th_pc th) -> unlinked pc = unlinked (th_pc th) -> retired_of q th' = retired_of q th ->
  held pc = None -> taking pc = None -> scanned q' pc = None ->
  (inside pc = true -> inside (th_pc th) = true) -> (tokenless pc = false -> th_token th <> None) ->
  pc_fact q' rest th' ->
  mpmc_inv n q' (<[t := th']> ths) rest vals.
Proof using E I.
  intros Hb q' th' Hn Hu Hr Hh Ht Hs Hi Htl Hf. pose proof own_ok as K.
  destruct (chain_next _ b (mv_tail _ _ _ _ _ I) Hb) as [Hbr Hbh].
  assert (Hd : dead_of q' th' = dead_of q th).
  { unfold dead_of. change (retired_of q' th') with (retired_of q th'). by rewrite Hr, <- Hu. }
  assert (Ho : owned q' th' = owned q th) by (unfold owned; by rewrite Hd, <- Hn).
  apply (step_inv n q ths rest vals I t th th' q' rest E).
  - split; try done; try by auto.
    + intros a r Ha. left. exists r. rewrite Hd. split; [done|by left].
    + intros a. rewrite Ho. intros Ha. split; [by apply (owned_not_next n q ths rest vals I t th)|by left].
    + intros a Ha. simpl in Ha. congruence.
    + intros a Ha. simpl in Ha. congruence.
  - split; try done; try by apply I.
    + by right.
    + intros a. rewrite Ho. apply owned_alloc.
    + intros a. rewrite Ho. intros Hc Ha. naive_solver.
    + rewrite Ho. by apply (mv_once _ _ _ _ _ I t).
    + split.
      * intros i Hti. destruct (tk_slot _ _ _ _ K i Hti) as (s & ? & ? & ?). exists s. auto.
      * done.
      * intros a v Ha. simpl in Ha. rewrite Hn in Ha. by apply (tk_new _ _ _ _ K).
      * rewrite Hd. intros a r Ha. apply (tk_dead _ _ _ _ K a r Ha).
      * intros a Ha. simpl in Ha. congruence.
      * done.
    + intros m i x Hx. simpl in Hx. unfold th' in Hx. simpl in Hx. congruence.
Qed.

(** ** The link of a node *)

Lemma link_chain a x w v : chain q rest !! length rest = Some x -> mq_heap q !! x = Some (mkNode None w) ->
  mq_heap q !! a = Some (mkNode None (Some v)) -> a <> x ->
  let q' := mq_with_heap q (<[x := mkNode (Some a) w]> (mq_heap q)) in
  forall j y, chain q' (rest ++ [a]) !! j = Some y -> next_of q' y = Some ((rest ++ [a]) !! j).
Proof using I.
  intros Hi Hx Ha Hax q' j y Hj.
  assert (Hlk : forall y, y <> x -> next_of q' y = next_of q y).
  { intros z Hz. unfold next_of. simpl. by rewrite lookup_insert_ne. }
  unfold chain in Hj. rewrite app_comm_cons in Hj. apply lookup_app_Some in Hj as [Hj|[Hl Hj]].
  - destruct (decide (y = x)) as [->|Hyx].
    + assert (j = length rest) as -> by (eapply NoDup_lookup; [apply (mv_nodup _ _ _ _ _ I)|exact Hj|exact Hi]).
      unfold next_of. simpl. rewrite lookup_insert_eq. simpl. by rewrite lookup_app_r, Nat.sub_diag by lia.
    + rewrite Hlk, (mv_chain _ _ _ _ _ I j y Hj) by done. f_equal.
      destruct (decide (j < length rest)%nat) as [Hlt|Hge]; [by rewrite lookup_app_l|].
      destruct Hyx. apply lookup_lt_Some in Hj as Hjl. simpl in Hjl.
      assert (j = length rest) as -> by lia. change (chain q rest !! length rest = Some y) in Hj. congruence.
  - simpl in Hl. destruct (j - length (mq_head q' :: rest))%nat eqn:Hj0; [|done]. injection Hj as <-.
    simpl in Hj0. rewrite Hlk by done. unfold next_of. rewrite Ha. simpl.
    rewrite lookup_ge_None_2; [done|]. rewrite length_app. simpl. lia.
Qed.

Lemma inv_link v a x w : th_pc th = PcPush v (PuLink a x) -> mq_heap q !! x = Some (mkNode None w) ->
  mpmc_inv n (mq_with_heap q (<[x := mkNode (Some a) w]> (mq_heap q)))
    (<[t := mkThread (th_token th) (PcPush v (PuSwing a x))]> ths) (rest ++ [a]) (vals ++ [v]).
Proof using E I.
  intros Hp Hx. pose proof own_ok as K. pose proof (mv_nodup _ _ _ _ _ I) as N.
  set (q' := mq_with_heap _ _). set (th' := mkThread _ _).
  assert (Hg : guarded q ths rest th x) by (apply (tk_held _ _ _ _ K); by rewrite Hp).
  destruct (guarded_last n q ths rest vals I th x Hg) as (i & Hi & Hlast); [by unfold next_of; rewrite Hx|].
  assert (Hc : x ∈ chain q rest) by (by eapply list_elem_of_lookup_2).
  assert (Ha : mq_heap q !! a = Some (mkNode None (Some v))) by (apply (tk_new _ _ _ _ K); by rewrite Hp).
  assert (Hao : a ∈ owned q th) by (apply (new_owned _ _ _ v); by rewrite Hp).
  assert (Hac : a ∉ chain q rest) by (by apply (owned_not_next n q ths rest vals I t th)).
  assert (Hax : a <> x) by (by intros ->).
  assert (Hlk : forall y, y <> x -> mq_heap q' !! y = mq_heap q !! y) by (intros; by apply lookup_insert_ne).
  assert (Hlx : mq_heap q' !! x = Some (mkNode (Some a) w)) by apply lookup_insert_eq.
  assert (Hnx : forall y b, next_of q y = Some (Some b) -> next_of q' y = Some (Some b)).
  { intros y b. unfold next_of. destruct (decide (y = x)) as [->|Hyx]; [by rewrite Hx|]. by rewrite Hlk. }
  assert (Hin : forall y, y ∈ chain q' (rest ++ [a]) <-> y ∈ chain q rest \/ y = a).
  { intros y. unfold chain. simpl. rewrite !elem_of_cons, elem_of_app, list_elem_of_singleton. tauto. }
  assert (Hd : dead_of q' th' = dead_of q th) by (unfold dead_of, retired_of; simpl; by rewrite Hp).
  assert (Ho : owned q th = a :: owned q' th') by (unfold owned; rewrite Hd; simpl; by rewrite Hp).
  assert (Hsz : forall y, is_Some (mq_heap q' !! y) <-> is_Some (mq_heap q !! y)).
  { intros y. destruct (decide (y = x)) as [->|Hyx]; [rewrite Hlx, Hx; split; eauto|]. by rewrite Hlk. }
  assert (Hil : i = length rest).
  { apply lookup_ge_None in Hlast. apply lookup_lt_Some in Hi. simpl in Hi. lia. }
  apply (step_inv n q ths rest vals I t th th' q' (rest ++ [a]) E).
  - split; try done; try by auto.
    + intros y r Hy. left. exists r. rewrite Hd. split; [done|by left].
    + intros y Hy. left. rewrite Hin. by left.
    + intros y. rewrite Hin. intros [| ->]; [by left|right]. exists v. by rewrite Hp.
    + intros y Hy. rewrite Hin. pose proof (mv_once _ _ _ _ _ I t th E) as NO. rewrite Ho in NO.
      apply NoDup_cons in NO as [NO _].
      assert (y ∈ owned q th) by (rewrite Ho; by right). split; [|by left].
      intros [Hyc| ->]; [|done]. by apply (owned_not_next n q ths rest vals I t th y).
    + intros t2 th2 y u Hne E2 Hy. apply Hlk. intros ->.
      apply (guarded_not_new n q ths rest vals I th x t2 th2 u Hg E2 Hy).
    + intros y. rewrite elem_of_app, list_elem_of_singleton. intros [| ->]; [by left|right]. exists v. by rewrite Hp.
    + intros y Hy. left. by rewrite Hp.
  - split; try done; try by apply I.
    + by apply (link_chain a x w v); [rewrite <- Hil|..].
    + unfold chain. rewrite app_comm_cons. apply NoDup_app. split; [exact N|]. split; [|apply NoDup_singleton].
      intros y Hy ->%list_elem_of_singleton. done.
    + rewrite Hin. left. apply (mv_tail _ _ _ _ _ I).
    + apply Forall2_app.
      * apply values_kept. intros y u _ Hv. unfold value_at in *. destruct (decide (y = x)) as [->|Hyx]; [rewrite Hlx; by rewrite Hx in Hv|by rewrite Hlk].
      * constructor; [|constructor]. unfold value_at. by rewrite Hlk, Ha.
    + intros y Hy. rewrite Hsz. apply owned_alloc. rewrite Hin in Hy. rewrite Ho, elem_of_cons. naive_solver.
    + intros y. rewrite Hsz, Hin, Ho, elem_of_cons. naive_solver.
    + pose proof (mv_once _ _ _ _ _ I t th E) as NO. rewrite Ho in NO. by apply NoDup_cons in NO as [_ NO].
    + split.
      * intros j Hj. destruct (tk_slot _ _ _ _ K j Hj) as (s & ? & ? & Hs). exists s. rewrite Hp in Hs. auto.
      * intros _. apply (tk_token _ _ _ _ K). by rewrite Hp.
      * done.
      * rewrite Hd. intros y r Hy. destruct (tk_dead _ _ _ _ K y r Hy) as [[b Hb] Hr]. split; [|done].
        exists b. by apply Hnx.
      * intros y Hy. injection Hy as <-. left. rewrite Hin. by left.
      * unfold pc_fact. simpl. unfold next_of. by rewrite Hlx.
Qed.

(** ** The unlinking of the head *)

Lemma exchange_split h x : th_pc th = PcPop (PoExchange h x) -> mq_head q = h ->
  exists rest1 v vals1, rest = x :: rest1 /\ vals = v :: vals1 /\ value_at q x = Some v.
Proof using E I.
  intros Hp Hh. pose proof (tk_fact _ _ _ _ own_ok) as F. unfold pc_fact in F. rewrite Hp in F.
  destruct F as (_ & _ & Hx). rewrite <- Hh in Hx.
  rewrite (mv_chain _ _ _ _ _ I 0%nat (mq_head q) eq_refl) in Hx. injection Hx as Hx.
  destruct rest as [|y rest1]; [done|]. injection Hx as ->.
  pose proof (mv_values _ _ _ _ _ I) as V. inversion V as [|? v ? vals1 Hv Hvs]; subst.
  by exists rest1, v, vals1.
Qed.

Lemma inv_unlink h x rest1 v vals1 :
  th_pc th = PcPop (PoExchange h x) -> mq_head q = h -> rest = x :: rest1 -> vals = v :: vals1 ->
  mpmc_inv n (mq_with_head q x) (<[t := mkThread (th_token th) (PcPop (PoTake h x))]> ths) rest1 vals1.
Proof using E I.
  intros Hp Hh Hrest Hvals. pose proof own_ok as K. pose proof (mv_nodup _ _ _ _ _ I) as N.
  set (q' := mq_with_head _ _). set (th' := mkThread _ _).
  pose proof (tk_fact _ _ _ _ K) as F. unfold pc_fact in F. rewrite Hp in F. destruct F as (_ & Ht & Hx).
  specialize (Ht (eq_sym Hh)).
  assert (Hch : chain q rest = h :: chain q' rest1) by (unfold chain; by rewrite Hrest, Hh).
  rewrite Hch in N. apply NoDup_cons in N as [Nh N].
  assert (Hin : forall y, y ∈ chain q rest <-> y = h \/ y ∈ chain q' rest1) by (intros y; by rewrite Hch, elem_of_cons).
  assert (Hd : dead_of q' th' = (h, None) :: dead_of q th) by (unfold dead_of, retired_of; simpl; by rewrite Hp).
  assert (Ho : owned q' th' = h :: owned q th) by (unfold owned; rewrite Hd; simpl; by rewrite Hp).
  apply (step_inv n q ths rest vals I t th th' q' rest1 E).
  - split; try done; try by auto.
    + intros y r Hy. left. exists r. rewrite Hd. split; [by right|by left].
    + intros y. rewrite Hin. intros [->|]; [right|by left]. rewrite Hd. left.
    + intros y Hy. left. rewrite Hin. by right.
    + intros y. rewrite Ho, elem_of_cons. intros [->|Hy]; [split; [done|]; right; left; rewrite Hin; by left|].
      split; [|by left]. intros Hc. apply (owned_not_next n q ths rest vals I t th y E Hy). rewrite Hin. by right.
    + right. by rewrite Hh.
    + intros He. simpl in He. destruct Nh. rewrite <- Hh, <- He. left.
    + intros y Hy. left. rewrite Hrest. by right.
    + intros y Hy. injection Hy as <-. right. left.
    + intros y Hy. injection Hy as <-. right. rewrite Hrest. left.
  - split; try done; try by apply I.
    + intros i y Hy. change (next_of q y = Some (rest1 !! i)).
      rewrite (mv_chain _ _ _ _ _ I (S i) y); [by rewrite Hrest|]. by rewrite Hch.
    + pose proof (mv_tail _ _ _ _ _ I) as Hta. rewrite Hin in Hta. by destruct Hta.
    + pose proof (mv_values _ _ _ _ _ I) as V. rewrite Hrest, Hvals in V. by inversion V.
    + intros y Hy. apply owned_alloc. rewrite Hin. rewrite Ho, elem_of_cons in Hy. naive_solver.
    + intros y. rewrite Hin, Ho, elem_of_cons. naive_solver.
    + rewrite Ho. constructor; [|by apply (mv_once _ _ _ _ _ I t)].
      intros Hy. apply (owned_not_next n q ths rest vals I t th h E Hy). rewrite Hin. by left.
    + split.
      * intros j Hj. destruct (tk_slot _ _ _ _ K j Hj) as (s & ? & ? & Hs). exists s. rewrite Hp in Hs. auto.
      * intros _. apply (tk_token _ _ _ _ K). by rewrite Hp.
      * done.
      * rewrite Hd. intros y r. rewrite elem_of_cons. intros [Hy|Hy]; [|apply (tk_dead _ _ _ _ K y r Hy)].
        injection Hy as -> ->. split; [by exists x|done].
      * intros y Hy. injection Hy as <-. left. left.
      * apply NoDup_cons in N as [N _]. exact N.
Qed.

(** ** The reset of a taken value *)

Lemma inv_reset h x r nd : th_pc th = PcPop (PoReset h x r) -> mq_heap q !! x = Some nd ->
  mpmc_inv n (mq_with_heap q (<[x := mkNode (nd_next nd) None]> (mq_heap q)))
    (<[t := mkThread (th_token th) (PcPop (PoSize h r))]> ths) rest vals.
Proof using E I.
  intros Hp Hx. pose proof own_ok as K.
  set (q' := mq_with_heap _ _). set (th' := mkThread _ _).
  assert (Hg : guarded q ths rest th x) by (apply (tk_held _ _ _ _ K); by rewrite Hp).
  pose proof (tk_fact _ _ _ _ K) as F. unfold pc_fact in F. rewrite Hp in F.
  assert (Hlk : forall y, y <> x -> mq_heap q' !! y = mq_heap q !! y) by (intros; by apply lookup_insert_ne).
  assert (Hlx : mq_heap q' !! x = Some (mkNode (nd_next nd) None)) by apply lookup_insert_eq.
  assert (Hnx : forall y, next_of q' y = next_of q y).
  { intros y. unfold next_of. destruct (decide (y = x)) as [->|Hyx]; [by rewrite Hlx, Hx|]. by rewrite Hlk. }
  assert (Hsz : forall y, is_Some (mq_heap q' !! y) <-> is_Some (mq_heap q !! y)).
  { intros y. destruct (decide (y = x)) as [->|Hyx]; [rewrite Hlx, Hx; split; eauto|]. by rewrite Hlk. }
  assert (Hd : dead_of q' th' = dead_of q th) by (unfold dead_of, retired_of; simpl; by rewrite Hp).
  assert (Ho : owned q' th' = owned q th) by (unfold owned; rewrite Hd; simpl; by rewrite Hp).
  apply (step_inv n q ths rest vals I t th th' q' rest E).
  - split; try done; try by auto.
    + intros y e Hy. left. exists e. rewrite Hd. split; [done|by left].
    + intros y. rewrite Ho. intros Hy. split; [by apply (owned_not_next n q ths rest vals I t th)|by left].
    + intros y b Hb. left. by rewrite Hnx.
    + intros t2 th2 y u Hne E2 Hy. apply Hlk. intros ->.
      apply (guarded_not_new n q ths rest vals I th x t2 th2 u Hg E2 Hy).
  - split; try done; try by apply I.
    + intros i y. rewrite Hnx. apply (mv_chain _ _ _ _ _ I).
    + apply values_kept. intros y u Hy Hv. unfold value_at in *. rewrite Hlk; [done|]. by intros ->.
    + intros y. rewrite Hsz, Ho. apply owned_alloc.
    + intros y. rewrite Hsz, Ho. naive_solver.
    + rewrite Ho. by apply (mv_once _ _ _ _ _ I t).
    + split.
      * intros j Hj. destruct (tk_slot _ _ _ _ K j Hj) as (s & ? & ? & Hs). exists s. rewrite Hp in Hs. auto.
      * intros _. apply (tk_token _ _ _ _ K). by rewrite Hp.
      * done.
      * rewrite Hd. intros y e Hy. rewrite Hnx. apply (tk_dead _ _ _ _ K y e Hy).
      * done.
      * done.
Qed.

(** ** The deletion of a retired node *)

(** Nobody holds a node that the collector is about to delete. *)
Lemma collect_unheld f m kept x todo k :
  th_pc th = PcReclaim (Collect f m kept (x :: todo)) k -> (f = true \/ rt_epoch x < m) -> n < kMaxEpoch ->
  forall t2 th2, ths !! t2 = Some th2 -> held (th_pc th2) <> Some (rt_node x).
Proof using E I.
  intros Hp Hfree Hmax. pose proof own_ok as K.
  pose proof (tk_fact _ _ _ _ K) as F. unfold pc_fact in F. rewrite Hp in F.
  assert (Hxr : x ∈ retired_of q th) by (unfold retired_of; rewrite Hp; apply elem_of_app; right; left).
  assert (Hxa : (rt_node x, Some (rt_epoch x)) ∈ dead_of q th).
  { unfold dead_of. apply elem_of_app. right. by apply (list_elem_of_fmap_2 (fun r => (rt_node r, Some (rt_epoch r)))). }
  assert (Hlt : rt_epoch x < m).
  { destruct Hfree as [->|]; [|done]. destruct F as (_ & _ & ->).
    destruct (tk_dead _ _ _ _ K _ _ Hxa) as [_ He]. specialize (He _ eq_refl).
    pose proof (mv_epoch _ _ _ _ _ I). lia. }
  intros t2 th2 E2 Hh. pose proof (mv_threads _ _ _ _ _ I _ _ E2) as K2.
  destruct (th_token th2) as [j|] eqn:Hj.
  - destruct (tk_slot _ _ _ _ K2 j Hj) as (s & Hs & _). apply lookup_lt_Some in Hs.
    apply (mv_scan _ _ _ _ _ I t th m (length (mq_slots q)) x E) with t2 th2 j; try done. by rewrite Hp.
  - apply (tk_token _ _ _ _ K2); [|done]. by destruct (th_pc th2).
Qed.

Lemma inv_free f m kept x todo k :
  th_pc th = PcReclaim (Collect f m kept (x :: todo)) k ->
  (f = true \/ rt_epoch x < m) -> n < kMaxEpoch ->
  mpmc_inv n (mq_with_heap q (delete (rt_node x) (mq_heap q)))
    (<[t := mkThread (th_token th) (PcReclaim (Collect f m kept todo) k)]> ths) rest vals.
Proof using E I.
  intros Hp Hfree Hmax. pose proof own_ok as K.
  set (a := rt_node x). set (q' := mq_with_heap _ _). set (th' := mkThread _ _).
  pose proof (tk_fact _ _ _ _ K) as F. unfold pc_fact in F. rewrite Hp in F.
  assert (Hret : retired_of q th = kept ++ x :: todo) by (unfold retired_of; by rewrite Hp).
  assert (Hxr : x ∈ retired_of q th) by (rewrite Hret; apply elem_of_app; right; left).
  assert (Hd : dead_of q th ≡ₚ (a, Some (rt_epoch x)) :: dead_of q' th').
  { unfold dead_of. rewrite Hret. unfold retired_of. simpl. rewrite Hp. simpl.
    rewrite !map_app. simpl. by rewrite <- Permutation_middle. }
  assert (Ho : owned q th ≡ₚ a :: owned q' th').
  { unfold owned. rewrite Hp. simpl. by rewrite Hd. }
  assert (Hxa : (a, Some (rt_epoch x)) ∈ dead_of q th) by (rewrite Hd; left).
  pose proof (collect_unheld f m kept x todo k Hp Hfree Hmax) as Hno.
  assert (NO : NoDup (a :: owned q' th')) by (rewrite <- Ho; by apply (mv_once _ _ _ _ _ I t)).
  apply NoDup_cons in NO as [Na NO].
  assert (Hao : a ∈ owned q th) by (rewrite Ho; left).
  assert (Hac : a ∉ chain q rest) by (by apply (owned_not_next n q ths rest vals I t th)).
  assert (Hlk : forall y, y <> a -> mq_heap q' !! y = mq_heap q !! y) by (intros; by apply lookup_delete_ne).
  assert (Hla : mq_heap q' !! a = None) by apply lookup_delete_eq.
  assert (Hnx : forall y, y <> a -> next_of q' y = next_of q y) by (intros y Hy; unfold next_of; by rewrite Hlk).
  apply (step_inv n q ths rest vals I t th th' q' rest E).
  - split; try done; try by auto.
    + intros y r. rewrite Hd, elem_of_cons. intros [Hy|Hy]; [|left; exists r; split; [done|by left]].
      injection Hy as -> ->. right. intros t2 th2 _. apply Hno.
    + intros y Hy. assert (y ∈ owned q th) by (rewrite Ho; by right).
      split; [by apply (owned_not_next n q ths rest vals I t th)|by left].
    + intros y b Hb. destruct (decide (y = a)) as [->|Hya]; [|left; by rewrite Hnx].
      right. split; [done|]. intros t2 th2 _. apply Hno.
    + intros t2 th2 y u Hne E2 Hy. apply Hlk. intros ->.
      apply (new_not_dead n q ths rest vals I t2 t th2 th a u _ E2 E Hy Hxa).
  - split; try done; try by apply I.
    + intros i y Hy. rewrite Hnx; [by apply (mv_chain _ _ _ _ _ I)|]. intros ->. destruct Hac. by eapply list_elem_of_lookup_2.
    + apply values_kept. intros y u Hy Hv. unfold value_at in *. rewrite Hlk; [done|]. intros ->. destruct Hac. by right.
    + intros y Hy. assert (Hya : y <> a) by (intros ->; naive_solver). rewrite Hlk by done. apply owned_alloc.
      rewrite Ho, elem_of_cons. naive_solver.
    + intros y Hc Hyo. rewrite Ho, not_elem_of_cons. destruct (decide (y = a)) as [->|Hya].
      * rewrite Hla. split; [by intros [? ?]|naive_solver].
      * rewrite Hlk by done. naive_solver.
    + split.
      * intros j Hj. destruct (tk_slot _ _ _ _ K j Hj) as (s & ? & ? & Hs). exists s. rewrite Hp in Hs. auto.
      * intros _. apply (tk_token _ _ _ _ K). by rewrite Hp.
      * done.
      * intros y e Hy. assert (Hyd : (y, e) ∈ dead_of q th) by (rewrite Hd; by right).
        rewrite Hnx; [apply (tk_dead _ _ _ _ K y e Hyd)|]. intros ->. by apply dead_owned in Hy.
      * done.
      * exact F.
    + intros m' i y Hs Hy Hm. injection Hs as <- <-.
      assert (Hyr : y ∈ retired_of q th).
      { rewrite Hret. unfold retired_of in Hy. simpl in Hy. rewrite elem_of_app in Hy. rewrite elem_of_app, elem_of_cons. tauto. }
      intros t2 th2 j E2 Hj Hjl. destruct (lookup_threads ths t th th' E t2 th2 E2) as [[-> ->]|[Hne E2']]; [done|].
      apply (mv_scan _ _ _ _ _ I t th m (length (mq_slots q)) y E) with t2 j; try done. by rewrite Hp.
Qed.

(** ** The scan of the epochs *)

Lemma retired_dead x : x ∈ retired_of q th -> (rt_node x, Some (rt_epoch x)) ∈ dead_of q th.
Proof using Type.
  intros Hx. unfold dead_of. apply elem_of_app. right.
  by apply (list_elem_of_fmap_2 (fun r => (rt_node r, Some (rt_epoch r)))).
Qed.

Lemma held_inside t2 th2 a : ths !! t2 = Some th2 -> held (th_pc th2) = Some a ->
  inside (th_pc th2) = true /\ exists j, th_token th2 = Some j.
Proof using I.
  intros E2 Hh. pose proof (mv_threads _ _ _ _ _ I _ _ E2) as K2. split; [by destruct (th_pc th2) as [| | | | | | |? []| | |]|].
  destruct (th_token th2) as [j|] eqn:Hj; [by exists j|]. exfalso.
  apply (tk_token _ _ _ _ K2); [by destruct (th_pc th2)|done].
Qed.

(** The holder of a node that [th] has retired announced an epoch no later than the
    one recorded with the node. *)
Lemma held_epoch x t2 th2 j s : x ∈ retired_of q th -> ths !! t2 = Some th2 -> th_token th2 = Some j ->
  mq_slots q !! j = Some s -> held (th_pc th2) = Some (rt_node x) -> sl_epoch s <= rt_epoch x.
Proof using E I.
  intros Hx E2 Hj Hs Hh. pose proof (mv_threads _ _ _ _ _ I _ _ E2) as K2.
  pose proof (retired_dead x Hx) as Hd. pose proof (dead_owned _ _ _ _ Hd) as Hxo.
  destruct (tk_held _ _ _ _ K2 _ Hh) as [Hc|(s2 & t3 & th3 & r & Hs2 & E3 & Hd3 & He)].
  { by destruct (owned_not_next n q ths rest vals I t th _ E Hxo). }
  assert (s2 = s) as -> by (unfold slot_of in Hs2; rewrite Hj in Hs2; simpl in Hs2; congruence).
  assert (t3 = t) as -> by (apply (mv_apart _ _ _ _ _ I _ _ _ _ _ E3 E (dead_owned _ _ _ _ Hd3) Hxo)).
  rewrite E in E3. injection E3 as <-. apply He.
  assert (ND : NoDup (map fst (dead_of q th))).
  { pose proof (mv_once _ _ _ _ _ I t th E) as N. unfold owned in N. by apply NoDup_app in N as (_ & _ & N). }
  apply list_elem_of_lookup in Hd as [i1 H1]. apply list_elem_of_lookup in Hd3 as [i2 H2].
  assert (i1 = i2) as ->.
  { eapply NoDup_lookup; [exact ND| |]; rewrite list_lookup_fmap; [rewrite H1|rewrite H2]; done. }
  congruence.
Qed.

Definition scan_ok (m : Z) (i : nat) : Prop := forall x, x ∈ retired_of q th -> rt_epoch x < m ->
  forall t2 th2 j, ths !! t2 = Some th2 -> th_token th2 = Some j -> (j < i)%nat ->
    held (th_pc th2) <> Some (rt_node x).

Lemma scan_next m m' i :
  scan_ok m i -> m' <= m ->
  (forall x t2 th2, x ∈ retired_of q th -> rt_epoch x < m' -> ths !! t2 = Some th2 -> th_token th2 = Some i ->
    held (th_pc th2) <> Some (rt_node x)) ->
  scan_ok m' (S i).
Proof using Type.
  intros H Hm Hi x Hx Hlt t2 th2 j E2 Hj Hji. destruct (decide (j = i)) as [->|Hne].
  - by apply (Hi x t2 th2).
  - apply (H x Hx ltac:(lia) t2 th2 j E2 Hj). lia.
Qed.

Lemma scan_now m i p k : th_pc th = PcReclaim p k -> scanned q (PcReclaim p k) = Some (m, i) -> scan_ok m i.
Proof using E I. intros Hp Hs x Hx Hlt. apply (mv_scan _ _ _ _ _ I t th m i x E); [by rewrite Hp|done|done]. Qed.

(** A step of the collector that writes nothing. *)
Lemma inv_scan p k pc m i :
  th_pc th = PcReclaim p k -> unlinked (PcReclaim p k) = None ->
  (forall f m kept todo, p <> Collect f m kept todo) ->
  held pc = None -> taking pc = None -> new_node pc = None -> unlinked pc = None ->
  retired_of q (mkThread (th_token th) pc) = retired_of q th ->
  (inside pc = true -> inside (PcReclaim p k) = true) ->
  pc_fact q rest (mkThread (th_token th) pc) ->
  (scanned q pc = None \/ scanned q pc = Some (m, i) /\ scan_ok m i) ->
  mpmc_inv n q (<[t := mkThread (th_token th) pc]> ths) rest vals.
Proof using E I.
  intros Hp Hu Hnc Hh Ht Hn Hu' Hr Hi Hf Hs. apply inv_same. apply inv_read; rewrite ?Hp; try done.
  - left. congruence.
  - intros _. apply (tk_token _ _ _ _ own_ok). by rewrite Hp.
  - intros a Ha. congruence.
  - intros a Ha. congruence.
  - intros m' i' x Hs' Hx Hlt. destruct Hs as [Hs|[Hs Hok]]; [congruence|].
    rewrite Hs in Hs'. injection Hs' as <- <-. by apply Hok.
Qed.

Definition preserved_pc (r : outcome (list (mpmc_event T) * MpmcQueue T * mpmc_pc T)) : Prop :=
  exists evs q' pc' rest', r = Ret (evs, q', pc') /\
    mpmc_inv (n + 1) q' (<[t := mkThread (th_token th) pc']> ths) rest' (fold_left fifo_event evs vals).

Lemma preserved_pc_intro evs q' pc' rest' vals' :
  fold_left fifo_event evs vals = vals' ->
  mpmc_inv n q' (<[t := mkThread (th_token th) pc']> ths) rest' vals' ->
  preserved_pc (Ret (evs, q', pc')).
Proof using Type.
  intros <- H. exists evs, q', pc', rest'. split; [done|]. eapply inv_mono; [|done]. lia.
Qed.

(** ** Retirement and collection *)

Lemma own_slot : tokenless (th_pc th) = false ->
  exists i s, th_token th = Some i /\ mq_slots q !! i = Some s /\ sl_occupied s = true /\
    (inside (th_pc th) = true -> sl_active s = true) /\ 0 <= sl_epoch s <= mq_epoch q /\
    slot_of q th = Some s.
Proof using E I.
  intros Ht. pose proof own_ok as K. destruct (th_token th) as [i|] eqn:Hi; [|by destruct (tk_token _ _ _ _ K Ht)].
  destruct (tk_slot _ _ _ _ K i Hi) as (s & Hs & Ho & Ha). exists i, s. unfold slot_of. rewrite Hi.
  repeat split; try done; apply (mv_slots _ _ _ _ _ I i s Hs).
Qed.

Lemma retired_slot s : (forall f m kept todo k, th_pc th <> PcReclaim (Collect f m kept todo) k) ->
  slot_of q th = Some s -> retired_of q th = sl_retired s.
Proof using Type.
  unfold retired_of. intros H ->. destruct (th_pc th) as [| | | | | | |[] k| | |]; try done. by destruct (H force_all safe_epoch kept todo k).
Qed.

Lemma retire_preserved i s h e k : th_pc th = PcReclaim (RtPush h e) k ->
  th_token th = Some i -> mq_slots q !! i = Some s -> preserved_pc (reclaim_step q i (RtPush h e) k).
Proof using E I.
  intros Hp Hi Hs. destruct own_slot as (i' & s' & Hi' & Hs' & Ho & Ha & He & Hso); [by rewrite Hp|].
  assert (i' = i) as -> by congruence. assert (s' = s) as -> by congruence.
  pose proof (tk_fact _ _ _ _ own_ok) as F. unfold pc_fact in F. rewrite Hp in F. destruct F as [r ->].
  rewrite Hp in Ha. simpl in Ha. specialize (Ha eq_refl).
  assert (Hil : (i < length (mq_slots q))%nat) by (by eapply lookup_lt_Some).
  cbn [reclaim_step]. unfold on_slot. rewrite Hs. cbn [deref]. rewrite !bind_ret.
  set (retired := sl_retired s ++ _). set (s1 := with_retired retired s).
  eapply preserved_pc_intro; [done|].
  assert (Hd : forall pc, (forall f m kept todo k, pc <> PcReclaim (Collect f m kept todo) k) -> unlinked pc = None ->
    dead_of (mq_with_slots q (<[i:=s1]> (mq_slots q))) (mkThread (Some i) pc) ≡ₚ dead_of q th).
  { intros pc Hc Hu. unfold dead_of. simpl. rewrite Hu, Hp. simpl.
    assert (retired_of (mq_with_slots q (<[i:=s1]> (mq_slots q))) (mkThread (Some i) pc) = retired) as ->.
    { unfold retired_of, slot_of. simpl. rewrite list_lookup_insert_eq by done. simpl.
      destruct pc as [| | | | | | |[] k| | |]; try done. by destruct (Hc force_all safe_epoch kept todo k). }
    rewrite (retired_slot s) by (done || by rewrite Hp). unfold retired. rewrite map_app. simpl.
    by rewrite <- Permutation_cons_append. }
  rewrite Hi. destruct (kRetireThreshold <=? length retired)%nat;
    (apply (inv_slot i s s1); [done|done|by left|intros _; exact Ha|exact He|done|done|done|done|by rewrite Hp|by apply Hd|done|]).
  - by exists r.
  - done.
Qed.

Lemma bump_preserved i k : th_pc th = PcReclaim RtBump k -> n + 1 < kMaxEpoch -> preserved_pc (reclaim_step q i RtBump k).
Proof using E I.
  intros Hp Hmax. pose proof own_ok as K. pose proof (mv_epoch _ _ _ _ _ I) as He.
  pose proof (tk_fact _ _ _ _ K) as F. unfold pc_fact in F. rewrite Hp in F.
  simpl. rewrite wrap_u64_id.
  2:{ unfold in_u64. apply andb_true_iff. rewrite Z.leb_le, Z.ltb_lt. unfold kMaxEpoch in *. lia. }
  eexists _, _, _, rest. split; [done|]. simpl.
  set (q' := mq_with_epoch _ _). set (th' := mkThread _ _).
  assert (Hd : dead_of q' th' = dead_of q th) by (unfold dead_of, retired_of; simpl; by rewrite Hp).
  assert (Ho : owned q' th' = owned q th) by (unfold owned; rewrite Hd; simpl; by rewrite Hp).
  apply (inv_private n q ths rest vals I t th th' q' E); try done.
  - by rewrite Ho.
  - intros a r Ha. exists r. rewrite Hd. split; [done|by left].
  - simpl. lia.
  - by left.
  - intros j s Hs. simpl. destruct (mv_slots _ _ _ _ _ I j s Hs). split; [lia|done].
  - split; try done.
    + intros j Hj. destruct (tk_slot _ _ _ _ K j Hj) as (s & ? & ? & Hs). exists s. rewrite Hp in Hs. auto.
    + intros _. apply (tk_token _ _ _ _ K). by rewrite Hp.
    + rewrite Hd. intros a r Ha. destruct (tk_dead _ _ _ _ K a r Ha) as [Hb Hr]. split; [done|].
      intros e H. specialize (Hr e H). simpl. lia.
Qed.

Lemma erase_preserved i s f m kept k : th_pc th = PcReclaim (Collect f m kept []) k ->
  th_token th = Some i -> mq_slots q !! i = Some s -> preserved_pc (reclaim_step q i (Collect f m kept []) k).
Proof using E I.
  intros Hp Hi Hs. destruct own_slot as (i' & s' & Hi' & Hs' & Ho & Ha & He & Hso); [by rewrite Hp|].
  assert (i' = i) as -> by congruence. assert (s' = s) as -> by congruence.
  pose proof (tk_fact _ _ _ _ own_ok) as F. unfold pc_fact in F. rewrite Hp in F.
  assert (Hil : (i < length (mq_slots q))%nat) by (by eapply lookup_lt_Some).
  simpl. unfold on_slot. rewrite Hs. simpl. eapply preserved_pc_intro; [done|]. rewrite Hi.
  assert (Hr : forall pc, (forall f m kept todo k, pc <> PcReclaim (Collect f m kept todo) k) ->
    retired_of (mq_with_slots q (<[i:=with_retired kept s]> (mq_slots q))) (mkThread (Some i) pc) = kept).
  { intros pc Hc. unfold retired_of, slot_of. simpl. rewrite list_lookup_insert_eq by done. simpl.
    destruct pc as [| | | | | | |[] k'| | |]; try done. by destruct (Hc force_all safe_epoch kept0 todo k'). }
  rewrite Hp in Ha.
  apply (inv_slot i s); try done; try (rewrite Hp; done); try (by left); try (by destruct k).
  - unfold dead_of. rewrite Hr by (by destruct k). simpl. rewrite Hp. unfold retired_of. rewrite Hp.
    rewrite app_nil_r. by destruct k.
  - unfold pc_fact. simpl. destruct k; [done|]. simpl. rewrite Hr by done. destruct f; [by destruct F as (_ & -> & _)|by destruct F].
Qed.

Lemma scan_occupied_preserved i j m k : th_pc th = PcReclaim (ScOccupied j m) k -> th_token th = Some i ->
  preserved_pc (reclaim_step q i (ScOccupied j m) k).
Proof using E I.
  intros Hp Hi. destruct own_slot as (i' & s & Hi' & Hs & Ho & Ha & He & Hso); [by rewrite Hp|].
  assert (i' = i) as -> by congruence. clear Hi'.
  pose proof (tk_fact _ _ _ _ own_ok) as F. unfold pc_fact in F. rewrite Hp in F.
  pose proof (scan_now m j _ k Hp eq_refl) as Hok. destruct F as [r ->].
  simpl. destruct (mq_slots q !! j) as [sj|] eqn:Hj.
  + simpl. eapply preserved_pc_intro; [done|]. destruct (sl_occupied sj) eqn:Hoj.
    * apply (inv_scan _ _ _ m j Hp); try done; [|split; [by exists r|by eapply lookup_lt_Some]|by right].
      unfold retired_of. simpl. by rewrite Hp.
    * apply (inv_scan _ _ _ m (S j) Hp); try done; try (by exists r).
      { unfold retired_of. simpl. by rewrite Hp. }
      right. split; [done|]. apply (scan_next m); [done|lia|]. intros x t2 th2 _ _ E2 Hj2.
      destruct (tk_slot _ _ _ _ (mv_threads _ _ _ _ _ I _ _ E2) j Hj2) as (s2 & ? & ? & _). congruence.
  + rewrite Hs. simpl. eapply preserved_pc_intro; [done|].
    assert (Hr : retired_of q th = sl_retired s) by (apply retired_slot; [by rewrite Hp|done]).
    unfold collect_begin. destruct (sl_retired s) as [|x l] eqn:Hl.
    * apply (inv_scan _ _ _ m j Hp); try done; [|by left]. unfold retired_of at 1. simpl.
      unfold slot_of. simpl. rewrite Hi. simpl. rewrite Hs. simpl. by rewrite Hl, Hr.
    * apply (inv_scan _ _ _ m (length (mq_slots q)) Hp); try done; try (by exists r).
      right. split; [done|]. intros y Hy Hlt t2 th2 j2 E2 Hj2 Hlt2.
      apply (Hok y Hy Hlt t2 th2 j2 E2 Hj2). apply lookup_ge_None in Hj. lia.
Qed.

Lemma scan_active_preserved i j m k : th_pc th = PcReclaim (ScActive j m) k -> th_token th = Some i ->
  preserved_pc (reclaim_step q i (ScActive j m) k).
Proof using E I.
  intros Hp Hi. destruct own_slot as (i' & s & Hi' & Hs & Ho & Ha & He & Hso); [by rewrite Hp|].
  assert (i' = i) as -> by congruence. clear Hi'.
  pose proof (tk_fact _ _ _ _ own_ok) as F. unfold pc_fact in F. rewrite Hp in F.
  pose proof (scan_now m j _ k Hp eq_refl) as Hok. destruct F as [[r ->] [sj Hj]%lookup_lt_is_Some].
  simpl. rewrite Hj. simpl. eapply preserved_pc_intro; [done|]. destruct (sl_active sj) eqn:Haj.
  + apply (inv_scan _ _ _ m j Hp); try done; [|split; [by exists r|by eapply lookup_lt_Some]|by right].
    unfold retired_of. simpl. by rewrite Hp.
  + apply (inv_scan _ _ _ m (S j) Hp); try done; try (by exists r).
    { unfold retired_of. simpl. by rewrite Hp. }
    right. split; [done|]. apply (scan_next m); [done|lia|]. intros x t2 th2 _ _ E2 Hj2 Hh.
    destruct (held_inside t2 th2 _ E2 Hh) as [Hin _].
    destruct (tk_slot _ _ _ _ (mv_threads _ _ _ _ _ I _ _ E2) j Hj2) as (s2 & ? & _ & Hs2).
    specialize (Hs2 Hin). congruence.
Qed.

Lemma scan_epoch_preserved i j m k : th_pc th = PcReclaim (ScEpoch j m) k -> th_token th = Some i ->
  preserved_pc (reclaim_step q i (ScEpoch j m) k).
Proof using E I.
  intros Hp Hi. destruct own_slot as (i' & s & Hi' & Hs & Ho & Ha & He & Hso); [by rewrite Hp|].
  assert (i' = i) as -> by congruence. clear Hi'.
  pose proof (tk_fact _ _ _ _ own_ok) as F. unfold pc_fact in F. rewrite Hp in F.
  pose proof (scan_now m j _ k Hp eq_refl) as Hok. destruct F as [[r ->] [sj Hj]%lookup_lt_is_Some].
  simpl. rewrite Hj. simpl. eapply preserved_pc_intro; [done|].
  apply (inv_scan _ _ _ (Z.min m (sl_epoch sj)) (S j) Hp); try done; try (by exists r).
  { unfold retired_of. simpl. by rewrite Hp. }
  right. split; [done|]. apply (scan_next m); [done|lia|]. intros x t2 th2 Hx Hlt E2 Hj2 Hh.
  pose proof (held_epoch x t2 th2 j sj Hx E2 Hj2 Hj Hh). lia.
Qed.

Lemma reclaim_preserved i p k : th_pc th = PcReclaim p k -> th_token th = Some i -> n + 1 < kMaxEpoch ->
  preserved_pc (reclaim_step q i p k).
Proof using E I.
  intros Hp Hi Hmax. destruct own_slot as (i' & s & Hi' & Hs & Ho & Ha & He & Hso); [by rewrite Hp|].
  assert (i' = i) as -> by congruence. clear Hi'.
  pose proof (tk_fact _ _ _ _ own_ok) as F. unfold pc_fact in F. rewrite Hp in F.
  pose proof (mv_epoch _ _ _ _ _ I) as Hep.
  destruct p as [h|h e| | |j m|j m|j m|f m kept todo].
  - simpl. eapply preserved_pc_intro; [done|]. apply inv_same. apply inv_read; rewrite ?Hp; try done.
    + right. by exists h.
    + unfold retired_of. simpl. by rewrite Hp.
    + intros _. by rewrite Hi.
  - by apply (retire_preserved i s).
  - by apply bump_preserved.
  - simpl. eapply preserved_pc_intro; [done|].
    apply (inv_scan ScGlobal k _ (wrap_u64 (mq_epoch q + 1)) 0); try done.
    + unfold retired_of. simpl. by rewrite Hp.
    + right. split; [done|]. intros x _ _ t2 th2 j _ _ Hj. lia.
  - by apply scan_occupied_preserved.
  - by apply scan_active_preserved.
  - by apply scan_epoch_preserved.
  - destruct todo as [|x todo]; [by apply (erase_preserved i s)|].
    cbn [reclaim_step]. destruct (f || (rt_epoch x <? m)) eqn:Hfree.
    + assert (Hx : is_Some (mq_heap q !! rt_node x)).
      { apply owned_alloc. right. apply (dead_owned _ _ _ (Some (rt_epoch x))), retired_dead.
        unfold retired_of. rewrite Hp. apply elem_of_app. right. left. }
      destruct Hx as [nd Hx]. unfold free_node. rewrite Hx. simpl. eapply preserved_pc_intro; [done|].
      apply (inv_free f m kept x todo k Hp); [|unfold kMaxEpoch in *; lia].
      apply orb_true_iff in Hfree as [|Hlt%Z.ltb_lt]; auto.
    + apply orb_false_iff in Hfree as [-> Hge]. destruct F as [r ->].
      eapply preserved_pc_intro; [done|]. apply inv_same.
      apply inv_read; rewrite ?Hp; try done; try (by left).
      * unfold retired_of. simpl. rewrite Hp. by rewrite <- app_assoc.
      * intros _. by rewrite Hi.
      * by exists r.
      * intros m' i' y Hs' Hy Hlt. apply (mv_scan _ _ _ _ _ I t th m' i' y E); [by rewrite Hp|done|done].
Qed.

(** ** Push and pop *)

(** A step that reads: what is left is the pointer read and the fact about it. *)
Ltac read_step Hp :=
  eapply preserved_pc_intro; [done|]; apply inv_same; apply inv_read; rewrite ?Hp; try done; try (by left);
  try (unfold retired_of; simpl; by rewrite Hp); try (intros _; apply (tk_token _ _ _ _ own_ok); by rewrite Hp).

Lemma held_node a : held (th_pc th) = Some a -> exists nd, mq_heap q !! a = Some nd.
Proof using E I. intros Hh. apply (guarded_alloc n q ths rest vals I th a). by apply (tk_held _ _ _ _ own_ok). Qed.

Lemma push_preserved v p fresh spurious : th_pc th = PcPush v p ->
  (forall node, p = PuAlloc -> fresh = Some node -> mq_heap q !! node = None) ->
  preserved_pc (push_step t q v p fresh spurious).
Proof using E I.
  intros Hp Hfresh. pose proof (tk_fact _ _ _ _ own_ok) as F. unfold pc_fact in F. rewrite Hp in F.
  pose proof (mv_tail _ _ _ _ _ I) as Hta.
  assert (Hnode : forall a, held (PcPush v p) = Some a -> exists nd, mq_heap q !! a = Some nd).
  { intros a Ha. apply held_node. by rewrite Hp. }
  assert (Htail : forall b pc, next_of q (mq_tail q) = Some (Some b) ->
    new_node pc = new_node (PcPush v p) -> unlinked pc = None -> (forall f m k todo e, pc <> PcReclaim (Collect f m k todo) e) ->
    held pc = None -> taking pc = None -> scanned (mq_with_tail q b) pc = None ->
    pc_fact (mq_with_tail q b) rest (mkThread (th_token th) pc) ->
    preserved_pc (Ret ([], mq_with_tail q b, pc))).
  { intros b pc Hb Hn Hu Hc Hh Ht Hs Hf. eapply preserved_pc_intro; [done|]. apply inv_tail; rewrite ?Hp; try done.
    - rewrite retired_of_pc by done. unfold retired_of. by rewrite Hp.
    - intros _. apply (tk_token _ _ _ _ own_ok). by rewrite Hp. }
  destruct p as [|node|node tail|node tail nx|node tail|node tail| |node tail nx]; simpl.
  - destruct fresh as [node|]; [|by read_step Hp]. eapply preserved_pc_intro; [done|]. apply inv_alloc; auto.
  - read_step Hp. intros a Ha. injection Ha as <-. by right.
  - destruct (Hnode tail eq_refl) as [nd Hnd]. unfold access. rewrite Hnd. simpl. read_step Hp.
    unfold pc_fact. simpl. destruct (nd_next nd) eqn:Hn; [|done]. unfold next_of. rewrite Hnd. simpl. by rewrite Hn.
  - destruct (tail =? mq_tail q) eqn:He; simpl; [|by read_step Hp]. destruct nx as [nx|]; [|by read_step Hp].
    by read_step Hp.
  - destruct (Hnode tail eq_refl) as [nd Hnd]. unfold access. rewrite Hnd. simpl.
    destruct (nd_next nd) as [b|] eqn:Hn; [by read_step Hp|]. destruct spurious; [by read_step Hp|].
    eapply preserved_pc_intro; [done|]. apply (inv_link v node tail); [done|]. destruct nd as [nx w]. simpl in *. by subst.
  - destruct (mq_tail q =? tail) eqn:He; [|by read_step Hp]. apply Z.eqb_eq in He. subst tail. by apply Htail.
  - eapply preserved_pc_intro; [done|]. apply inv_read; rewrite ?Hp; try done; try (by left).
    + unfold retired_of. simpl. by rewrite Hp.
    + intros _. apply (tk_token _ _ _ _ own_ok). by rewrite Hp.
  - destruct (negb spurious && (mq_tail q =? tail)) eqn:He; [|by read_step Hp].
    apply andb_true_iff in He as [_ He%Z.eqb_eq]. subst tail. by apply Htail.
Qed.

Lemma pop_preserved p spurious : th_pc th = PcPop p -> preserved_pc (pop_step t q p spurious).
Proof using E I.
  intros Hp. pose proof (tk_fact _ _ _ _ own_ok) as F. unfold pc_fact in F. rewrite Hp in F.
  assert (Hnode : forall a, held (PcPop p) = Some a -> exists nd, mq_heap q !! a = Some nd).
  { intros a Ha. apply held_node. by rewrite Hp. }
  destruct p as [|h|h tl|h tl nx|tl nx|h nx|h nx|h nx r|h r]; simpl.
  - read_step Hp. intros a Ha. injection Ha as <-. right. left.
  - by read_step Hp.
  - destruct (Hnode h eq_refl) as [nd Hnd]. unfold access. rewrite Hnd. simpl. read_step Hp.
    destruct F as [W F]. split; [done|]. split; [done|]. intros x Hx. unfold next_of. rewrite Hnd. simpl. by rewrite Hx.
  - destruct F as (W & F & Fn). destruct (h =? mq_head q) eqn:He; simpl; [|by read_step Hp].
    destruct nx as [nx|]; [|by read_step Hp]. destruct (Z.eqb_spec h tl) as [<-|Hne].
    + read_step Hp. by apply Fn.
    + read_step Hp. split; [done|]. split; [by intros ?; apply F|by apply Fn].
  - destruct (negb spurious && (mq_tail q =? tl)) eqn:He; [|by read_step Hp].
    apply andb_true_iff in He as [_ He%Z.eqb_eq]. subst tl. eapply preserved_pc_intro; [done|].
    apply inv_tail; rewrite ?Hp; try done.
    + unfold retired_of. simpl. by rewrite Hp.
    + intros _. apply (tk_token _ _ _ _ own_ok). by rewrite Hp.
  - destruct (negb spurious && (mq_head q =? h)) eqn:He; [|by read_step Hp].
    apply andb_true_iff in He as [_ He%Z.eqb_eq].
    destruct (exchange_split h nx Hp He) as (rest1 & v & vals1 & Hr & Hv & _).
    apply (preserved_pc_intro _ _ _ rest1 vals1); [simpl; by rewrite Hv|]. by apply (inv_unlink h nx rest1 v).
  - destruct (Hnode nx eq_refl) as [nd Hnd]. unfold access. rewrite Hnd. simpl. by read_step Hp.
  - destruct (Hnode nx eq_refl) as [nd Hnd]. unfold access. rewrite Hnd. simpl.
    eapply preserved_pc_intro; [done|]. by apply (inv_reset h nx r).
  - eapply preserved_pc_intro; [done|]. apply inv_read; rewrite ?Hp; try done; try (by left).
    + unfold retired_of. simpl. by rewrite Hp.
    + intros _. apply (tk_token _ _ _ _ own_ok). by rewrite Hp.
    + by exists (RPopped r).
Qed.

(** ** Every step *)

Lemma preserved_of_pc (m : outcome (list (mpmc_event T) * MpmcQueue T * mpmc_pc T)) :
  preserved_pc m -> preserved ('(evs, q, pc) ← m; Ret (evs, q, mkThread (th_token th) pc)).
Proof using Type.
  intros (evs & q' & pc' & rest' & -> & H). exists evs, q', (mkThread (th_token th) pc'), rest'. by split.
Qed.

(** A write to the thread's own slot that keeps its retired nodes. *)
Lemma slot_preserved i s f tk pc evs :
  th_token th = Some i -> mq_slots q !! i = Some s -> fold_left fifo_event evs vals = vals ->
  (tk = Some i /\ sl_occupied (f s) = true \/ tk = None /\ sl_occupied (f s) = false /\ sl_retired (f s) = []) ->
  (inside pc = true -> sl_active (f s) = true) -> 0 <= sl_epoch (f s) <= mq_epoch q ->
  sl_retired (f s) = sl_retired s ->
  (forall m k todo g e, pc <> PcReclaim (Collect g m k todo) e) ->
  (forall m k todo g e, th_pc th <> PcReclaim (Collect g m k todo) e) ->
  held pc = None -> taking pc = None -> new_node pc = None -> scanned q pc = None -> unlinked pc = None ->
  new_node (th_pc th) = None -> unlinked (th_pc th) = None ->
  (tokenless pc = false -> tk <> None) ->
  pc_fact (mq_with_slots q (<[i := f s]> (mq_slots q))) rest (mkThread tk pc) ->
  preserved (q ← on_slot q i f; Ret (evs, q, mkThread tk pc)).
Proof using E I.
  intros Hi Hs Hev Hocc Hact He Hr Hc Hc0 Hh Ht Hn Hsc Hu Hn0 Hu0 Htk Hf.
  rewrite (slot_ret i s) by done. eapply preserved_intro; [exact Hev|].
  apply (inv_slot i s (f s)); try done; [by destruct pc as [| | | | | | |[] ?| | |]|].
  unfold dead_of. simpl. rewrite Hu, Hu0. simpl.
  assert (retired_of q th = sl_retired s) as ->.
  { apply retired_slot; [intros; apply Hc0|]. unfold slot_of. by rewrite Hi. }
  assert (retired_of (mq_with_slots q (<[i:=f s]> (mq_slots q))) (mkThread tk pc) = sl_retired s) as ->; [|done].
  unfold retired_of, slot_of. simpl.
  assert (default [] (sl_retired <$> (i0 ← tk; (<[i:=f s]> (mq_slots q)) !! i0)) = sl_retired s) as ->.
  { destruct Hocc as [[-> _]|(-> & _ & Hnil)]; simpl; [|congruence].
    rewrite list_lookup_insert_eq by (by eapply lookup_lt_Some). done. }
  destruct pc as [| | | | | | |[] ?| | |]; try done.
Qed.

Lemma go_preserved fresh spurious : n + 1 < kMaxEpoch -> move_enabled q th (Go fresh spurious) = true ->
  preserved (go_step t q th fresh spurious).
Proof using E I.
  intros Hmax Hen. unfold go_step. pose proof (tk_fact _ _ _ _ own_ok) as F. unfold pc_fact in F.
  destruct (th_pc th) as [|op p|op|op e|op|v p|p|p k|r| |] eqn:Hp; try done.
  - unfold move_enabled in Hen. rewrite Hp in Hen. by destruct fresh.
  - by apply acquire_preserved.
  - eapply preserved_intro; [done|]. apply inv_same. apply inv_read; rewrite ?Hp; try done; try (by left).
    + unfold retired_of. simpl. by rewrite Hp.
    + intros _. apply (tk_token _ _ _ _ own_ok). by rewrite Hp.
    + simpl. split; [done|]. pose proof (mv_epoch _ _ _ _ _ I). lia.
  - destruct own_slot as (i & s & Hi & Hs & Ho & Ha & He & Hso); [by rewrite Hp|]. rewrite Hi. simpl.
    apply (slot_preserved i s); try (rewrite Hp); try done; [by left|by destruct F|by destruct F].
  - destruct own_slot as (i & s & Hi & Hs & Ho & Ha & He & Hso); [by rewrite Hp|]. rewrite Hi. simpl.
    apply (slot_preserved i s); try (rewrite Hp); try done; try (by destruct op); by left.
  - apply preserved_of_pc, push_preserved; [done|]. intros node -> ->.
    unfold move_enabled in Hen. rewrite Hp in Hen. by apply bool_decide_eq_true in Hen.
  - by apply preserved_of_pc, pop_preserved.
  - destruct own_slot as (i & s & Hi & _); [by rewrite Hp|]. rewrite Hi. simpl. rewrite <- Hi.
    apply preserved_of_pc. by apply reclaim_preserved.
  - destruct own_slot as (i & s & Hi & Hs & Ho & Ha & He & Hso); [by rewrite Hp|]. rewrite Hi. simpl.
    apply (slot_preserved i s); try (rewrite Hp); try done; by left.
  - destruct own_slot as (i & s & Hi & Hs & Ho & Ha & He & Hso); [by rewrite Hp|]. rewrite Hi. simpl.
    rewrite (retired_slot s) in F by (done || by rewrite Hp).
    apply (slot_preserved i s); try (rewrite Hp); try done; [by left|].
    unfold pc_fact, retired_of, slot_of. simpl. rewrite list_lookup_insert_eq by (by eapply lookup_lt_Some). done.
  - destruct own_slot as (i & s & Hi & Hs & Ho & Ha & He & Hso); [by rewrite Hp|]. rewrite Hi. simpl.
    rewrite (retired_slot s) in F by (done || by rewrite Hp).
    apply (slot_preserved i s); try (rewrite Hp); try done. by right.
Qed.

Lemma start_preserved op : n < kMaxEpoch -> th_pc th = PcIdle ->
  (op = OpExit -> forall t2 th2, t2 <> t -> ths !! t2 = Some th2 -> held (th_pc th2) = None) ->
  preserved (start_step t q th op).
Proof using E I.
  intros Hmax Hp Hquiet. unfold start_step.
  assert (Hread : forall pc evs, fold_left fifo_event evs vals = vals ->
    new_node pc = None -> unlinked pc = None -> held pc = None -> taking pc = None -> inside pc = false ->
    (tokenless pc = false -> th_token th <> None) -> scanned q pc = None ->
    (forall f m k todo e, pc <> PcReclaim (Collect f m k todo) e) ->
    pc_fact q rest (mkThread (th_token th) pc) ->
    preserved (Ret (evs, q, mkThread (th_token th) pc))).
  { intros pc evs Hev Hn Hu Hh Ht Hi Htk Hs Hc Hf. eapply preserved_intro; [exact Hev|]. apply inv_same.
    apply inv_read; rewrite ?Hp; try done; try (intros; congruence); [by left|].
    rewrite retired_of_pc by done. unfold retired_of. by rewrite Hp. }
  destruct op as [v| |], (th_token th) as [i|] eqn:Hi; try (apply Hread; done).
  - destruct (tk_slot _ _ _ _ own_ok i Hi) as (s & Hs & _). rewrite Hs. simpl.
    assert (Hr : retired_of q th = sl_retired s).
    { apply retired_slot; [by rewrite Hp|]. unfold slot_of. by rewrite Hi. }
    unfold collect_begin. destruct (sl_retired s) as [|x l] eqn:Hl.
    + apply Hread; try done. unfold pc_fact, retired_of, slot_of. simpl. rewrite Hs. by simpl.
    + eapply preserved_intro; [done|]. rewrite <- Hi. apply inv_same.
      apply inv_read; rewrite ?Hp; try done; [by left|by rewrite Hi|].
      intros m j y _ _ _ t2 th2 j2 E2 _ _. destruct (decide (t2 = t)) as [->|Hne].
      * rewrite E in E2. injection E2 as <-. by rewrite Hp.
      * by rewrite (Hquiet eq_refl t2 th2 Hne E2).
  - eapply preserved_intro; [done|]. destruct th as [tk pc]. simpl in *. subst tk pc.
    by rewrite list_insert_id.
Qed.
End Effects.
End MpmcSteps.
