(* ===== verification/MpmcTrace.v ===== *)
(** * The linked queue: executions and their traces

    An execution is a sequence of steps of any threads in any order. Each thread
    follows the abstract automaton [advance]: a call, one atomic action on a list,
    and a return whose result that action determined. *)

From S2P Require Import Prelude Mpmc MpmcProofs MpmcSteps.

Local Open Scope Z_scope.

(** Case analysis on a step that succeeded. *)
Ltac step_cases H :=
  unfold access, free_node in H;
  repeat first
    [ apply bind_ret_inv in H as ([[? ?] ?] & ? & H)
    | apply bind_ret_inv in H as (? & ? & H)
    | match type of H with context [match ?x with _ => _ end] => destruct x eqn:? end ];
  try done.

Section MpmcTrace.
Context {T : Type}.

(** A thread exits only while no other thread is inside a call: the deletions of
    [unregister_slot] are unconditional. *)
Definition quiet_exit (s : mpmc_state T) (t : nat) (m : mpmc_move T) : Prop :=
  m = Start OpExit -> forall t2 th2, t2 <> t -> ms_threads s !! t2 = Some th2 -> th_pc th2 = PcIdle.

Inductive mpmc_exec (s0 : mpmc_state T) : nat -> list (mpmc_event T) -> mpmc_state T -> Prop :=
| exec_start : mpmc_exec s0 0 [] s0
| exec_step k tr s t m evs s' :
  mpmc_exec s0 k tr s -> quiet_exit s t m -> mpmc_step s t m = Some (Ret (evs, s')) ->
  mpmc_exec s0 (S k) (tr ++ evs) s'.

(** ** The invariant of an execution *)

Lemma initial_inv max_threads threads stub :
  mpmc_inv 1 (Mpmc_new (T := T) max_threads stub) (replicate threads (mkThread None PcIdle)) [] [].
Proof.
  assert (Hth : forall t th, replicate threads (mkThread (T := T) None PcIdle) !! t = Some th -> th = mkThread None PcIdle).
  { intros t th H. by apply lookup_replicate in H as [-> _]. }
  assert (Hsl : forall i s, replicate max_threads (mkSlot false false 0 []) !! i = Some s -> s = mkSlot false false 0 []).
  { intros i s H. by apply lookup_replicate in H as [-> _]. }
  split; try done; unfold chain; simpl.
  - intros [|i] a Ha; [|done]. injection Ha as <-. unfold next_of. simpl. by rewrite lookup_singleton_eq.
  - apply NoDup_singleton.
  - left.
  - intros a. rewrite list_elem_of_singleton. split.
    + intros [nd Hnd]. apply lookup_singleton_Some in Hnd as [-> _]. by left.
    + intros [->|(t & th & E & Ha)]; [rewrite lookup_singleton_eq; eauto|].
      apply Hth in E as ->. by apply not_elem_of_nil in Ha.
  - intros t th a E Ha. apply Hth in E as ->. by apply not_elem_of_nil in Ha.
  - intros t1 t2 th1 th2 a E1 E2 Ha. apply Hth in E1 as ->. by apply not_elem_of_nil in Ha.
  - intros t th E. apply Hth in E as ->. constructor.
  - intros t1 t2 th1 th2 i E1 E2 Ha. by apply Hth in E1 as ->.
  - intros i s H. apply Hsl in H as ->. simpl. split; [lia|done].
  - intros t th E. apply Hth in E as ->. split; try done. by intros a r Ha%not_elem_of_nil.
  - intros t th m i x E Hs. by apply Hth in E as ->.
  - intros t1 t2 th1 th2 a E1 E2 Ha. by apply Hth in E1 as ->.
Qed.

Lemma thread_preserved n (q : MpmcQueue T) ths rest vals t th m :
  mpmc_inv n q ths rest vals -> ths !! t = Some th -> move_enabled q th m = true -> n + 1 < kMaxEpoch ->
  quiet_exit (mkMpmcState q ths) t m -> preserved n ths vals t (thread_step t q th m).
Proof.
  intros I E Hen Hn Hq. destruct m as [op|fresh spurious]; simpl.
  - assert (Hp : th_pc th = PcIdle) by (unfold move_enabled in Hen; by destruct (th_pc th)).
    apply (start_preserved n q ths rest vals I t th E op); [lia|done|].
    intros -> t2 th2 Hne E2. by rewrite (Hq eq_refl t2 th2 Hne E2).
  - by apply (go_preserved n q ths rest vals I t th E).
Qed.

Lemma step_defined s n rest vals t m r :
  mpmc_inv n (ms_queue s) (ms_threads s) rest vals -> n + 1 < kMaxEpoch -> quiet_exit s t m ->
  mpmc_step s t m = Some r ->
  exists th evs q' th' rest', ms_threads s !! t = Some th /\ move_enabled (ms_queue s) th m = true /\
    thread_step t (ms_queue s) th m = Ret (evs, q', th') /\
    r = Ret (evs, mkMpmcState q' (<[t := th']> (ms_threads s))) /\
    mpmc_inv (n + 1) q' (<[t := th']> (ms_threads s)) rest' (fold_left fifo_event evs vals).
Proof.
  intros I Hn Hq Hs. unfold mpmc_step in Hs. destruct (ms_threads s !! t) as [th|] eqn:E; [|done].
  destruct (move_enabled (ms_queue s) th m) eqn:Hen; [|done].
  destruct (thread_preserved n (ms_queue s) (ms_threads s) rest vals t th m I E Hen Hn) as (evs & q' & th' & rest' & Hts & I').
  { by destruct s. }
  rewrite Hts in Hs. injection Hs as <-. by exists th, evs, q', th', rest'.
Qed.

Lemma exec_inv max_threads threads stub k tr s :
  mpmc_exec (mpmc_initial max_threads threads stub) k tr s -> Z.of_nat k + 1 < kMaxEpoch ->
  exists rest, mpmc_inv (Z.of_nat k + 1) (ms_queue s) (ms_threads s) rest (fifo tr).
Proof.
  intros X. induction X as [|k tr s t m evs s' X IH Hq Hs]; intros Hk; [exists []; apply initial_inv|].
  destruct IH as [rest I]; [lia|].
  destruct (step_defined s _ rest _ t m _ I ltac:(lia) Hq Hs) as (th & evs' & q' & th' & rest' & _ & _ & _ & Hr & I').
  injection Hr as <- ->. exists rest'. simpl. unfold fifo. rewrite fold_left_app.
  replace (Z.of_nat (S k) + 1) with (Z.of_nat k + 1 + 1) by lia. exact I'.
Qed.

(** ** What each thread does to the queue *)

(** A call is before its atomic action, or after it with its result determined. *)
Inductive stage := Before (op : mpmc_op T) | After (r : mpmc_result T).

Definition stage_of (q : MpmcQueue T) (pc : mpmc_pc T) : option stage :=
  match pc with
  | PcIdle => None
  | PcAcquire op _ | PcEnterLoad op | PcEnterEpoch op _ | PcEnterActive op => Some (Before op)
  | PcPush _ (PuSwing _ _ | PuSize) => Some (After RPushed)
  | PcPush v _ => Some (Before (OpPush v))
  | PcPop (PoRecheck _ _ None) => Some (After (RPopped None))
  | PcPop (PoTake _ a) => Some (After (RPopped (value_at q a)))
  | PcPop (PoReset _ _ r | PoSize _ r) => Some (After (RPopped r))
  | PcPop _ => Some (Before OpPop)
  | PcReclaim _ (ThenLeave r) | PcLeave r => Some (After r)
  | PcReclaim _ ThenUnregister | PcInactive | PcUnoccupied => Some (Before OpExit)
  end.

Inductive advance (vals : list T) (t : nat) : option stage -> list (mpmc_event T) -> option stage -> Prop :=
| adv_stay st : advance vals t st [] st
| adv_call op : advance vals t None [EvCall t op] (Some (Before op))
| adv_link v : advance vals t (Some (Before (OpPush v))) [EvLink t v] (Some (After RPushed))
| adv_unlink v l : vals = v :: l ->
  advance vals t (Some (Before OpPop)) [EvUnlink t] (Some (After (RPopped (Some v))))
| adv_empty : vals = [] -> advance vals t (Some (Before OpPop)) [] (Some (After (RPopped None)))
| adv_retry : advance vals t (Some (After (RPopped None))) [] (Some (Before OpPop))
| adv_throw op what : op <> OpExit -> advance vals t (Some (Before op)) [] (Some (After (RThrew what)))
| adv_return r : advance vals t (Some (After r)) [EvReturn t r] None
| adv_refuse op what : op <> OpExit -> advance vals t (Some (Before op)) [EvReturn t (RThrew what)] None
| adv_exit : advance vals t (Some (Before OpExit)) [EvReturn t RExited] None
| adv_no_token : advance vals t None [EvCall t OpExit; EvReturn t RExited] None.

Lemma adv_same vals t st st' : st = st' -> advance vals t st [] st'.
Proof. intros ->. constructor. Qed.

Lemma stage_next q k : stage_of q (reclaim_next k) = stage_of q (PcReclaim RtBump k).
Proof. by destruct k. Qed.

Lemma stage_collect q f m l k : stage_of q (collect_begin f m l k) = stage_of q (PcReclaim RtBump k).
Proof. destruct l; [apply stage_next|by destruct k]. Qed.

Section Advance.
Context (n : Z) (q : MpmcQueue T) (ths : list (MpmcThread T)) (rest : list Z) (vals : list T).
Context (I : mpmc_inv n q ths rest vals).
Context (t : nat) (th : MpmcThread T) (E : ths !! t = Some th).

Lemma on_slot_inv i f (q' : MpmcQueue T) : on_slot q i f = Ret q' ->
  exists s, mq_slots q !! i = Some s /\ q' = mq_with_slots q (<[i := f s]> (mq_slots q)).
Proof using Type. unfold on_slot. destruct (mq_slots q !! i) as [s|]; [|done]. intros H. injection H as <-. eauto. Qed.

Lemma acquire_advance op p evs q' th' : th_pc th = PcAcquire op p ->
  acquire_step t q (th_token th) op p = Ret (evs, q', th') ->
  advance vals t (Some (Before op)) evs (stage_of q' (th_pc th')).
Proof using E I.
  intros Hp H. pose proof (tk_fact _ _ _ _ (own_ok n q ths rest vals I t th E)) as F.
  unfold pc_fact in F. rewrite Hp in F.
  destruct p as [index| | |e]; simpl in H.
  - destruct (mq_slots q !! index) as [s|]; [destruct (sl_occupied s)|].
    + injection H as <- <- <-. by apply adv_same.
    + apply bind_ret_inv in H as (q1 & _ & H). injection H as <- <- <-. by apply adv_same.
    + injection H as <- <- <-. apply adv_refuse. by destruct F.
  - apply bind_ret_inv in H as (i & _ & H). apply bind_ret_inv in H as (q1 & _ & H).
    injection H as <- <- <-. by apply adv_same.
  - injection H as <- <- <-. by apply adv_same.
  - apply bind_ret_inv in H as (i & _ & H). apply bind_ret_inv in H as (q1 & _ & H).
    injection H as <- <- <-. by apply adv_same.
Qed.

Lemma push_advance v p fresh spurious evs q' pc : push_step t q v p fresh spurious = Ret (evs, q', pc) ->
  advance vals t (stage_of q (PcPush v p)) evs (stage_of q' pc).
Proof using Type.
  intros H. destruct p as [|node|node tail|node tail nx|node tail|node tail| |node tail nx]; simpl in H.
  - destruct fresh; injection H as <- <- <-; [by apply adv_same|by apply adv_throw].
  - injection H as <- <- <-. by apply adv_same.
  - apply bind_ret_inv in H as (nd & _ & H). injection H as <- <- <-. by apply adv_same.
  - destruct (negb (tail =? mq_tail q)); [|destruct nx]; injection H as <- <- <-; by apply adv_same.
  - apply bind_ret_inv in H as (nd & _ & H). destruct (nd_next nd); [|destruct spurious];
      injection H as <- <- <-; try (by apply adv_same). apply adv_link.
  - injection H as <- <- <-. by apply adv_same.
  - injection H as <- <- <-. by apply adv_same.
  - injection H as <- <- <-. by apply adv_same.
Qed.

Lemma empty_chain h : guarded q ths rest th h -> was_head q rest h -> next_of q h = Some None -> vals = [].
Proof using I.
  intros G W Hn. destruct (guarded_last n q ths rest vals I th h G Hn) as (i & Hi & Hr).
  destruct W as [->|Hc]; [|by destruct Hc; eapply list_elem_of_lookup_2].
  assert (i = 0%nat) as -> by (eapply NoDup_lookup; [apply (mv_nodup _ _ _ _ _ I)|exact Hi|done]).
  pose proof (mv_values _ _ _ _ _ I) as V. destruct rest; [by inversion V|done].
Qed.

Lemma pop_advance p spurious evs q' pc : th_pc th = PcPop p -> pop_step t q p spurious = Ret (evs, q', pc) ->
  advance vals t (stage_of q (PcPop p)) evs (stage_of q' pc).
Proof using E I.
  intros Hp H. pose proof (own_ok n q ths rest vals I t th E) as K.
  pose proof (tk_fact _ _ _ _ K) as F. unfold pc_fact in F. rewrite Hp in F.
  destruct p as [|h|h tl|h tl nx|tl nx|h nx|h nx|h nx r|h r]; simpl in H.
  - injection H as <- <- <-. by apply adv_same.
  - injection H as <- <- <-. by apply adv_same.
  - apply bind_ret_inv in H as (nd & Hnd & H). apply deref_ret in Hnd. injection H as <- <- <-.
    simpl. destruct (nd_next nd) eqn:Hn; [by apply adv_same|]. apply adv_empty. apply (empty_chain h).
    + apply (tk_held _ _ _ _ K). by rewrite Hp.
    + by destruct F.
    + unfold next_of. rewrite Hnd. simpl. by rewrite Hn.
  - destruct (negb (h =? mq_head q)).
    + injection H as <- <- <-. simpl. destruct nx; [by apply adv_same|apply adv_retry].
    + destruct nx as [nx|]; [destruct (h =? tl)|]; injection H as <- <- <-; by apply adv_same.
  - injection H as <- <- <-. by apply adv_same.
  - destruct (negb spurious && (mq_head q =? h)) eqn:He; injection H as <- <- <-; [|by apply adv_same].
    apply andb_true_iff in He as [_ He%Z.eqb_eq].
    destruct (exchange_split n q ths rest vals I t th E h nx Hp He) as (rest1 & v & vals1 & _ & Hv & Hval).
    simpl. change (value_at (mq_with_head q nx) nx) with (value_at q nx). rewrite Hval. by apply adv_unlink with vals1.
  - apply bind_ret_inv in H as (nd & Hnd & H). apply deref_ret in Hnd. injection H as <- <- <-.
    apply adv_same. simpl. unfold value_at. by rewrite Hnd.
  - apply bind_ret_inv in H as (nd & _ & H). injection H as <- <- <-. by apply adv_same.
  - injection H as <- <- <-. by apply adv_same.
Qed.

Lemma reclaim_advance i p k evs q' pc : reclaim_step q i p k = Ret (evs, q', pc) ->
  evs = [] /\ stage_of q' pc = stage_of q (PcReclaim p k).
Proof using Type.
  intros H. destruct p as [h|h e| | |j m|j m|j m|f m kept todo]; cbn [reclaim_step] in H.
  - injection H as <- <- <-. by destruct k.
  - apply bind_ret_inv in H as (s & _ & H). apply bind_ret_inv in H as (q1 & _ & H).
    injection H as <- <- <-. split; [done|].
    match goal with |- context [if ?b then _ else _] => destruct b end; by destruct k.
  - injection H as <- <- <-. by destruct k.
  - injection H as <- <- <-. by destruct k.
  - destruct (mq_slots q !! j) as [sj|].
    + injection H as <- <- <-. split; [done|]. by destruct (sl_occupied sj), k.
    + apply bind_ret_inv in H as (s & _ & H). injection H as <- <- <-. split; [done|]. rewrite stage_collect. by destruct k.
  - apply bind_ret_inv in H as (s & _ & H). injection H as <- <- <-. split; [done|]. by destruct (sl_active s), k.
  - apply bind_ret_inv in H as (s & _ & H). injection H as <- <- <-. by destruct k.
  - destruct todo as [|x todo].
    + apply bind_ret_inv in H as (q1 & _ & H). injection H as <- <- <-. by destruct k.
    + destruct (f || _); [apply bind_ret_inv in H as (q1 & _ & H)|]; injection H as <- <- <-; by destruct k.
Qed.

Lemma thread_advance m evs q' th' : move_enabled q th m = true -> thread_step t q th m = Ret (evs, q', th') ->
  advance vals t (stage_of q (th_pc th)) evs (stage_of q' (th_pc th')).
Proof using E I.
  intros Hen H. destruct m as [op|fresh spurious]; simpl in H.
  - assert (Hp : th_pc th = PcIdle) by (unfold move_enabled in Hen; by destruct (th_pc th)). rewrite Hp.
    unfold start_step in H. destruct op as [v| |], (th_token th); try (injection H as <- <- <-; apply adv_call).
    + apply bind_ret_inv in H as (s & _ & H). injection H as <- <- <-.
      simpl. rewrite stage_collect. apply adv_call.
    + injection H as <- <- <-. rewrite Hp. apply adv_no_token.
  - pose proof (tk_fact _ _ _ _ (own_ok n q ths rest vals I t th E)) as F. unfold pc_fact in F.
    unfold go_step in H. destruct (th_pc th) as [|op p|op|op e|op|v p|p|p k|r| |] eqn:Hp.
    + injection H as <- <- <-. rewrite Hp. by apply adv_same.
    + by apply (acquire_advance op p).
    + injection H as <- <- <-. by apply adv_same.
    + apply bind_ret_inv in H as (i & _ & H). apply bind_ret_inv in H as (q1 & _ & H).
      injection H as <- <- <-. by apply adv_same.
    + apply bind_ret_inv in H as (i & _ & H). apply bind_ret_inv in H as (q1 & _ & H).
      injection H as <- <- <-. apply adv_same. by destruct op.
    + apply bind_ret_inv in H as ([[evs1 q1] pc] & H1 & H). injection H as <- <- <-.
      by apply (push_advance v p fresh spurious).
    + apply bind_ret_inv in H as ([[evs1 q1] pc] & H1 & H). injection H as <- <- <-.
      by apply (pop_advance p spurious).
    + apply bind_ret_inv in H as (i & _ & H). apply bind_ret_inv in H as ([[evs1 q1] pc] & H1 & H).
      injection H as <- <- <-. apply reclaim_advance in H1 as [-> Hst]. by apply adv_same.
    + apply bind_ret_inv in H as (i & _ & H). apply bind_ret_inv in H as (q1 & _ & H).
      injection H as <- <- <-. apply adv_return.
    + apply bind_ret_inv in H as (i & _ & H). apply bind_ret_inv in H as (q1 & _ & H).
      injection H as <- <- <-. by apply adv_same.
    + apply bind_ret_inv in H as (i & _ & H). apply bind_ret_inv in H as (q1 & _ & H).
      injection H as <- <- <-. apply adv_exit.
Qed.

(** ** What a step does to the nodes *)

Inductive heap_effect : gmap Z (Node T) -> Prop :=
| he_same : heap_effect (mq_heap q)
| he_alloc a nd : mq_heap q !! a = None -> heap_effect (<[a := nd]> (mq_heap q))
| he_link a nd b : mq_heap q !! a = Some nd -> heap_effect (<[a := mkNode b (nd_value nd)]> (mq_heap q))
| he_reset a nd : taking (th_pc th) = Some a -> heap_effect (<[a := nd]> (mq_heap q))
| he_free a : heap_effect (delete a (mq_heap q)).

Lemma on_slot_heap i f (q' : MpmcQueue T) : on_slot q i f = Ret q' -> mq_heap q' = mq_heap q.
Proof using Type. intros (s & _ & ->)%on_slot_inv. done. Qed.

Lemma push_heap v p fresh spurious evs q' pc :
  (forall a, p = PuAlloc -> fresh = Some a -> mq_heap q !! a = None) ->
  push_step t q v p fresh spurious = Ret (evs, q', pc) -> heap_effect (mq_heap q').
Proof using Type.
  intros Hf H. destruct p; simpl in H; step_cases H; injection H as <- <- <-; try apply he_same.
  - by apply he_alloc, Hf.
  - apply he_link. match goal with X : deref _ _ = Ret _ |- _ => apply deref_ret in X; exact X end.
Qed.

Lemma pop_heap p spurious evs q' pc : th_pc th = PcPop p -> pop_step t q p spurious = Ret (evs, q', pc) ->
  heap_effect (mq_heap q').
Proof using Type.
  intros Hp H. destruct p; simpl in H; step_cases H; injection H as <- <- <-; try apply he_same.
  apply he_reset. by rewrite Hp.
Qed.

Lemma slot_heap i f q' : on_slot q i f = Ret q' -> heap_effect (mq_heap q').
Proof using Type. intros H. rewrite (on_slot_heap i f q' H). apply he_same. Qed.

Lemma reclaim_heap i p k evs q' pc : reclaim_step q i p k = Ret (evs, q', pc) -> heap_effect (mq_heap q').
Proof using Type.
  intros H. destruct p; cbn [reclaim_step] in H; step_cases H; injection H as <- <- <-;
    try apply he_same; try (eapply slot_heap; eassumption).
  match goal with X : _ = Ret ?y |- heap_effect (mq_heap ?y) => apply bind_ret_inv in X as (nd & _ & X); injection X as <- end.
  apply he_free.
Qed.

Lemma thread_heap m evs q' th' : move_enabled q th m = true -> thread_step t q th m = Ret (evs, q', th') ->
  heap_effect (mq_heap q').
Proof using Type.
  intros Hen H. destruct m as [op|fresh spurious]; simpl in H.
  { unfold start_step in H. step_cases H; injection H as <- <- <-; apply he_same. }
  unfold go_step in H. destruct (th_pc th) as [|op p|op|op e|op|v p|p|p k|r| |] eqn:Hp;
    try (injection H as <- <- <-; apply he_same);
    try (apply bind_ret_inv in H as ([[evs1 q1] pc] & H1 & H));
    try (apply bind_ret_inv in H as (i & _ & H));
    try (apply bind_ret_inv in H as (q1 & H1 & H); injection H as <- <- <-; eapply slot_heap; eassumption).
  - unfold acquire_step in H. step_cases H; injection H as <- <- <-; try apply he_same; eapply slot_heap; eassumption.
  - injection H as <- <- <-. apply (push_heap v p fresh spurious evs1 q1 pc); [|done].
    intros a -> ->. unfold move_enabled in Hen. rewrite Hp in Hen. by apply bool_decide_eq_true in Hen.
  - injection H as <- <- <-. by apply (pop_heap p spurious evs1 q1 pc).
  - apply bind_ret_inv in H as ([[evs1 q1] pc] & H1 & H). injection H as <- <- <-. by apply (reclaim_heap i p k evs1 q1 pc).
Qed.

(** The stage of a thread is its own affair. *)
Lemma other_stage m evs q' th' n' rest' vals' t2 th2 :
  move_enabled q th m = true -> thread_step t q th m = Ret (evs, q', th') ->
  mpmc_inv n' q' (<[t := th']> ths) rest' vals' -> t2 <> t -> ths !! t2 = Some th2 ->
  stage_of q' (th_pc th2) = stage_of q (th_pc th2).
Proof using E I.
  intros Hen H I' Hne E2. pose proof (thread_heap m evs q' th' Hen H) as He.
  destruct (th_pc th2) as [| | | | | |[| | | | | |h a| |]| | | |] eqn:Hp2; try done.
  assert (Hh : held (th_pc th2) = Some a) by (by rewrite Hp2).
  assert (E2' : (<[t := th']> ths) !! t2 = Some th2) by (by rewrite list_lookup_insert_ne).
  assert (Ha : is_Some (mq_heap q !! a)).
  { apply (guarded_alloc n q ths rest vals I th2). by apply (tk_held _ _ _ _ (mv_threads _ _ _ _ _ I _ _ E2)). }
  assert (Ha' : is_Some (mq_heap q' !! a)).
  { apply (guarded_alloc n' q' _ rest' vals' I' th2). by apply (tk_held _ _ _ _ (mv_threads _ _ _ _ _ I' _ _ E2')). }
  simpl. do 3 f_equal. unfold value_at. revert Ha'. inversion He as [Hq|x nd Hx Hq|x nd b Hx Hq|x nd Hx Hq|x Hq].
  - done.
  - intros _. rewrite lookup_insert_ne; [done|]. intros ->. rewrite Hx in Ha. by destruct Ha.
  - intros _. destruct (decide (x = a)) as [->|Hxa]; [by rewrite lookup_insert_eq, Hx|by rewrite lookup_insert_ne].
  - intros _. rewrite lookup_insert_ne; [done|]. intros ->.
    destruct Hne. apply (mv_taking _ _ _ _ _ I _ _ _ _ a E2 E); [by rewrite Hp2|done].
  - intros [nd Hnd]. rewrite lookup_delete_ne; [done|]. intros ->. by rewrite lookup_delete_eq in Hnd.
Qed.
End Advance.

(** ** Traces *)

Definition event_thread (e : mpmc_event T) : nat :=
  match e with EvCall t _ | EvLink t _ | EvUnlink t | EvReturn t _ => t end.

(** The thread [t] changes the queue. *)
Definition acts (t : nat) (e : mpmc_event T) : bool :=
  match e with EvLink t' _ | EvUnlink t' => (t' =? t)%nat | _ => false end.

Definition calls (t : nat) (e : mpmc_event T) : bool :=
  match e with EvCall t' _ => (t' =? t)%nat | _ => false end.

Definition own_acts (t : nat) (l : list (mpmc_event T)) : list (mpmc_event T) := List.filter (acts t) l.

(** The call [op] of the thread [t], made after the events [pre], may return [r] after
    the further events [mid]: it acted on the queue once, between its call and its
    return, and [r] is what that action gives on the list the queue held then. *)
Definition linearized (t : nat) (pre : list (mpmc_event T)) (op : mpmc_op T) (mid : list (mpmc_event T))
    (r : mpmc_result T) : Prop :=
  match op, r with
  | OpPush v, RPushed => own_acts t mid = [EvLink t v]
  | OpPop, RPopped (Some v) =>
    exists m1 m2 l, mid = m1 ++ EvUnlink t :: m2 /\ own_acts t m1 = [] /\ own_acts t m2 = [] /\
      fifo (pre ++ EvCall t op :: m1) = v :: l
  | OpPop, RPopped None =>
    own_acts t mid = [] /\ exists m1 m2, mid = m1 ++ m2 /\ fifo (pre ++ EvCall t op :: m1) = []
  | OpPush _, RThrew _ | OpPop, RThrew _ | OpExit, RExited => own_acts t mid = []
  | _, _ => False
  end.

Definition staged (tr : list (mpmc_event T)) (t : nat) (st : stage) : Prop :=
  exists pre op mid, tr = pre ++ EvCall t op :: mid /\ List.filter (calls t) mid = [] /\
    match st with
    | Before op' => op = op' /\ own_acts t mid = []
    | After r => linearized t pre op mid r
    end.

Lemma fifo_snoc (tr : list (mpmc_event T)) (e : mpmc_event T) : fifo (tr ++ [e]) = fifo_event (fifo tr) e.
Proof. unfold fifo. by rewrite fold_left_app. Qed.

Lemma linearized_more t pre op mid r e :
  event_thread e <> t -> linearized t pre op mid r -> linearized t pre op (mid ++ [e]) r.
Proof.
  intros He L.
  assert (Ha : acts t e = false) by (destruct e; try done; by apply Nat.eqb_neq).
  assert (Hf : forall l, own_acts t (l ++ [e]) = own_acts t l).
  { intros l. unfold own_acts. rewrite List.filter_app. simpl. rewrite Ha. apply app_nil_r. }
  destruct op as [v| |], r as [|[x|]| |what]; simpl in *; rewrite ?Hf; try done.
  - destruct L as (m1 & m2 & l & -> & H1 & H2 & H3). exists m1, (m2 ++ [e]), l.
    rewrite Hf. split; [|done]. by rewrite <- app_assoc.
  - destruct L as (H1 & m1 & m2 & -> & H2). split; [done|]. exists m1, (m2 ++ [e]). by rewrite app_assoc.
Qed.

Lemma staged_other tr t st e : event_thread e <> t -> staged tr t st -> staged (tr ++ [e]) t st.
Proof.
  intros He (pre & op & mid & -> & Hc & H). exists pre, op, (mid ++ [e]).
  split; [by rewrite <- app_assoc|]. split.
  { rewrite List.filter_app, Hc. destruct e; try done. simpl. simpl in He. by apply Nat.eqb_neq in He as ->. }
  destruct st as [op'|r].
  - destruct H as [-> H]. split; [done|]. unfold own_acts in *. rewrite List.filter_app, H.
    destruct e; try done; simpl; simpl in He; by apply Nat.eqb_neq in He as ->.
  - by apply linearized_more.
Qed.

Lemma staged_others tr t st evs : Forall (fun e => event_thread e <> t) evs -> staged tr t st -> staged (tr ++ evs) t st.
Proof.
  revert tr. induction evs as [|e evs IH]; intros tr Hall H; [by rewrite app_nil_r|].
  apply Forall_cons in Hall as [He Hall]. rewrite cons_middle, app_assoc. apply IH; [done|]. by apply staged_other.
Qed.

Lemma advance_thread vals t st evs st' : advance vals t st evs st' -> Forall (fun e => event_thread e = t) evs.
Proof. intros A. destruct A; repeat constructor. Qed.

(** The stage keeps track of the trace. *)
Lemma staged_advance tr t st evs st' : advance (fifo tr) t st evs (Some st') ->
  (forall x, st = Some x -> staged tr t x) -> staged (tr ++ evs) t st'.
Proof.
  intros A H. inversion A as [x|op|v|v l Hv|Hv| |op what Hop| | | |]; subst; rewrite ?app_nil_r.
  - by apply H.
  - exists tr, op, []. by repeat split.
  - destruct (H _ eq_refl) as (pre & op & mid & -> & Hc & -> & Ho). exists pre, (OpPush v), (mid ++ [EvLink t v]).
    split; [by rewrite <- app_assoc|]. split; [by rewrite List.filter_app, Hc|].
    simpl. unfold own_acts in *. rewrite List.filter_app, Ho. simpl. by rewrite Nat.eqb_refl.
  - destruct (H _ eq_refl) as (pre & op & mid & -> & Hc & -> & Ho). exists pre, OpPop, (mid ++ [EvUnlink t]).
    split; [by rewrite <- app_assoc|]. split; [by rewrite List.filter_app, Hc|].
    exists mid, [], l. repeat split; done.
  - destruct (H _ eq_refl) as (pre & op & mid & -> & Hc & -> & Ho). exists pre, OpPop, mid.
    repeat split; try done. exists mid, []. by rewrite app_nil_r.
  - destruct (H _ eq_refl) as (pre & op & mid & -> & Hc & L). exists pre, op, mid.
    destruct op as [v| |]; try done. destruct L as [Ho _]. by repeat split.
  - destruct (H _ eq_refl) as (pre & op' & mid & -> & Hc & -> & Ho). exists pre, op, mid.
    repeat split; try done. by destruct op.
Qed.

(** A return happens with the result that the stage determined. *)
Lemma advance_returns tr t st evs st' r : advance (fifo tr) t st evs st' ->
  (forall x, st = Some x -> staged tr t x) -> EvReturn t r ∈ evs ->
  evs = [EvReturn t r] /\
    (exists pre op mid, tr = pre ++ EvCall t op :: mid /\ List.filter (calls t) mid = [] /\ linearized t pre op mid r) \/
  evs = [EvCall t OpExit; EvReturn t r] /\ r = RExited.
Proof.
  intros A H Hr. inversion A as [x|op|v|v l Hv|Hv| |op what Hop|r'|op what Hop| |]; subst;
    rewrite ?elem_of_cons, ?elem_of_nil in Hr; try done; try (by destruct Hr).
  - destruct Hr as [Hr|[]]. injection Hr as <-. left. split; [done|].
    destruct (H _ eq_refl) as (pre & op & mid & -> & Hc & L). by exists pre, op, mid.
  - destruct Hr as [Hr|[]]. injection Hr as ->. left. split; [done|].
    destruct (H _ eq_refl) as (pre & op' & mid & -> & Hc & -> & Ho). exists pre, op, mid.
    repeat split; try done. by destruct op.
  - destruct Hr as [Hr|[]]. injection Hr as ->. left. split; [done|].
    destruct (H _ eq_refl) as (pre & op' & mid & -> & Hc & -> & Ho). by exists pre, OpExit, mid.
  - right. destruct Hr as [Hr|[Hr|[]]]; [done|]. injection Hr as ->. done.
Qed.

Lemma calls_app t op (l1 l2 : list (mpmc_event T)) : List.filter (calls t) (l1 ++ EvCall t op :: l2) <> [].
Proof.
  rewrite List.filter_app. simpl. rewrite Nat.eqb_refl. by destruct (List.filter (calls t) l1).
Qed.

(** The last call of a thread is determined. *)
Lemma last_call_unique t op1 op2 (pre1 mid1 pre2 mid2 : list (mpmc_event T)) :
  pre1 ++ EvCall t op1 :: mid1 = pre2 ++ EvCall t op2 :: mid2 ->
  List.filter (calls t) mid1 = [] -> List.filter (calls t) mid2 = [] ->
  pre1 = pre2 /\ op1 = op2 /\ mid1 = mid2.
Proof.
  revert pre2. induction pre1 as [|x pre1 IH]; intros [|y pre2] Heq H1 H2; simpl in Heq.
  - by injection Heq as -> ->.
  - injection Heq as <- ->. by apply calls_app in H1.
  - injection Heq as -> <-. by apply calls_app in H2.
  - injection Heq as -> Heq. by destruct (IH pre2 Heq H1 H2) as (-> & -> & ->).
Qed.

Definition all_linearized (tr : list (mpmc_event T)) : Prop :=
  forall t op r pre mid post, tr = pre ++ EvCall t op :: mid ++ EvReturn t r :: post ->
    List.filter (calls t) mid = [] -> linearized t pre op mid r.

Lemma all_linearized_step tr t st evs st' :
  advance (fifo tr) t st evs st' -> (forall x, st = Some x -> staged tr t x) ->
  all_linearized tr -> all_linearized (tr ++ evs).
Proof.
  intros A Hst IH t' op r pre mid post Heq Hc. rewrite app_comm_cons, app_assoc in Heq.
  apply app_eq_inv in Heq as [(l & Htr & Hevs)|(l & Htr & Hevs)].
  - destruct l as [|x l]; simpl in Htr.
    + rewrite app_nil_r in Htr. simpl in Hevs.
      assert (Hr : EvReturn t' r ∈ evs) by (rewrite <- Hevs; left).
      pose proof (advance_thread _ _ _ _ _ A) as Hall. rewrite Forall_forall in Hall. specialize (Hall _ Hr). simpl in Hall. subst t'.
      destruct (advance_returns _ _ _ _ _ _ A Hst Hr) as [(He & pre2 & op2 & mid2 & Htr2 & Hc2 & L)|[He ->]].
      * rewrite Htr in Htr2. destruct (last_call_unique _ _ _ _ _ _ _ Htr2 Hc Hc2) as (-> & -> & ->). done.
      * rewrite He in Hevs. done.
    + simpl in Hevs. injection Hevs as <- Hevs. apply (IH t' op r pre mid l); [|done]. rewrite Htr, <- app_assoc. done.
  - assert (Hr : EvReturn t' r ∈ evs) by (rewrite Hevs; apply elem_of_app; right; left).
    pose proof (advance_thread _ _ _ _ _ A) as Hall. rewrite Forall_forall in Hall. specialize (Hall _ Hr). simpl in Hall. subst t'.
    destruct (advance_returns _ _ _ _ _ _ A Hst Hr) as [(He & pre2 & op2 & mid2 & Htr2 & Hc2 & L)|[He ->]].
    + rewrite He in Hevs. destruct l as [|x l]; [|by destruct l]. rewrite app_nil_r in Htr.
      rewrite <- Htr in Htr2. destruct (last_call_unique _ _ _ _ _ _ _ Htr2 Hc Hc2) as (-> & -> & ->). done.
    + rewrite He in Hevs. destruct l as [|x [|y l]]; simpl in Hevs; [done| |by destruct l].
      injection Hevs as <- _.
      destruct (last_call_unique t op OpExit pre mid tr [] Htr Hc eq_refl) as (-> & -> & ->). done.
Qed.

Lemma exec_staged max_threads threads stub k tr s :
  mpmc_exec (mpmc_initial max_threads threads stub) k tr s -> Z.of_nat k + 1 < kMaxEpoch ->
  (forall t th st, ms_threads s !! t = Some th -> stage_of (ms_queue s) (th_pc th) = Some st -> staged tr t st) /\
  all_linearized tr.
Proof.
  intros X. induction X as [|k tr s t m evs s' X IH Hq Hs]; intros Hk.
  { split.
    - intros t th st E Hst. apply lookup_replicate in E as [-> _]. done.
    - intros t op r pre mid post Heq. by destruct pre. }
  destruct IH as [IHs IHl]; [lia|].
  destruct (exec_inv _ _ _ _ _ _ X) as [rest I]; [lia|].
  destruct (step_defined s _ rest _ t m _ I ltac:(lia) Hq Hs) as (th & evs' & q' & th' & rest' & E & Hen & Hts & Hr & I').
  injection Hr as <- ->. simpl.
  pose proof (thread_advance _ _ _ _ _ I t th E m evs q' th' Hen Hts) as A.
  assert (Hst : forall x, stage_of (ms_queue s) (th_pc th) = Some x -> staged tr t x) by (intros x; by apply IHs).
  split; [|by apply (all_linearized_step tr t _ _ _ A)].
  intros t2 th2 st E2 Hst2.
  destruct (lookup_threads (ms_threads s) t th th' E t2 th2 E2) as [[-> ->]|[Hne E2']].
  - rewrite Hst2 in A. by apply (staged_advance tr t _ evs st A).
  - rewrite (other_stage _ _ _ _ _ I t th E m evs q' th' _ rest' _ t2 th2 Hen Hts I' Hne E2') in Hst2.
    apply staged_others; [|by apply (IHs t2 th2)].
    eapply Forall_impl; [apply (advance_thread _ _ _ _ _ A)|]. simpl. intros e He. congruence.
Qed.
End MpmcTrace.
