(* ===== verification/MpmcTheorems.v ===== *)
(** * The linked queue: theorems

    Memory safety and linearizability of every execution, what the destructor
    leaves, the size at rest, the exclusive use of the slots, and the progress of a
    thread that runs alone; with the runs in which the code does not keep what it
    promises. *)

From S2P Require Import Prelude Mpmc MpmcProofs MpmcSteps MpmcTrace.

Local Open Scope Z_scope.

Section MpmcEffects.
Context {T : Type}.

(** ** The slots *)

Inductive slots_effect (q : MpmcQueue T) (tk : option nat) : list EpochSlot -> option nat -> Prop :=
| se_same : slots_effect q tk (mq_slots q) tk
| se_own i s s' : tk = Some i -> mq_slots q !! i = Some s -> sl_occupied s' = sl_occupied s ->
  slots_effect q tk (<[i := s']> (mq_slots q)) tk
| se_acquire i s s' : tk = None -> mq_slots q !! i = Some s -> sl_occupied s = false -> sl_occupied s' = true ->
  slots_effect q tk (<[i := s']> (mq_slots q)) (Some i)
| se_release i s s' : tk = Some i -> mq_slots q !! i = Some s -> sl_occupied s' = false ->
  slots_effect q tk (<[i := s']> (mq_slots q)) None.

(** Increments that are due minus decrements that are due. *)
Definition due (pc : mpmc_pc T) : Z :=
  match pc with
  | PcPush _ (PuSwing _ _ | PuSize) => 1
  | PcPop (PoTake _ _ | PoReset _ _ _ | PoSize _ _) => -1
  | _ => 0
  end.

Definition net (evs : list (mpmc_event T)) : Z :=
  foldr (fun e acc => match e with EvLink _ _ => 1 | EvUnlink _ => -1 | _ => 0 end + acc) 0 evs.

Definition all_due (ths : list (MpmcThread T)) : Z := foldr (fun th acc => due (th_pc th) + acc) 0 ths.

Lemma all_due_insert ths t th th' : ths !! t = Some th ->
  all_due (<[t := th']> ths) = all_due ths - due (th_pc th) + due (th_pc th').
Proof.
  revert t. induction ths as [|x ths IH]; intros [|t] H; try done; simpl in *.
  - injection H as ->. unfold all_due. lia.
  - rewrite (IH t H). lia.
Qed.

Lemma all_due_idle (ths : list (MpmcThread T)) :
  (forall t th, ths !! t = Some th -> th_pc th = PcIdle) -> all_due ths = 0.
Proof.
  induction ths as [|x ths IH]; intros H; [done|]. simpl. rewrite (H 0%nat x eq_refl), IH; [done|].
  intros t th. apply (H (S t)).
Qed.

(** The slots and the size after a step. *)
Definition effect_ok (q : MpmcQueue T) (th : MpmcThread T) (evs : list (mpmc_event T)) (q' : MpmcQueue T)
    (th' : MpmcThread T) : Prop :=
  slots_effect q (th_token th) (mq_slots q') (th_token th') /\
  wrap_u64 (mq_size q' + due (th_pc th')) = wrap_u64 (mq_size q + due (th_pc th) + net evs) /\
  (mq_size q' = mq_size q \/ exists z, mq_size q' = wrap_u64 z).

Lemma effect_read q th evs q' pc : mq_slots q' = mq_slots q -> mq_size q' = mq_size q ->
  due pc = due (th_pc th) + net evs -> effect_ok q th evs q' (mkThread (th_token th) pc).
Proof.
  intros Hs Hz Hd. unfold effect_ok. rewrite Hs, Hz. simpl. split; [constructor|]. split; [f_equal; lia|by left].
Qed.

Lemma effect_slot q th i f q' tk pc evs : on_slot q i f = Ret q' -> due pc = due (th_pc th) -> net evs = 0 ->
  (forall s, mq_slots q !! i = Some s -> slots_effect q (th_token th) (<[i := f s]> (mq_slots q)) tk) ->
  effect_ok q th evs q' (mkThread tk pc).
Proof.
  intros (s & Hs & ->)%on_slot_inv Hd Hn He. split; [by apply He|]. simpl. split; [f_equal; lia|by left].
Qed.

Lemma effect_count q th z pc : due pc + z = due (th_pc th) ->
  effect_ok q th [] (mq_with_size q (wrap_u64 (mq_size q + z))) (mkThread (th_token th) pc).
Proof.
  intros Hd. split; [exact (se_same q (th_token th))|]. split; [|right; eexists; done]. cbn [mq_with_size mq_size th_pc net foldr].
  rewrite wrap_u64_add. f_equal. lia.
Qed.

Lemma start_effect t q th op evs q' th' : start_step t q th op = Ret (evs, q', th') -> th_pc th = PcIdle ->
  effect_ok q th evs q' th'.
Proof.
  intros H Hp. unfold start_step in H. destruct th as [tk pc]. simpl in *. subst pc.
  destruct op as [v| |], tk as [i|]; try (injection H as <- <- <-; by apply (effect_read q (mkThread _ PcIdle))).
  apply bind_ret_inv in H as (s & _ & H). injection H as <- <- <-.
  apply (effect_read q (mkThread _ PcIdle)); try done. by destruct (sl_retired s).
Qed.

Lemma op_begin_due (op : mpmc_op T) : due (op_begin op) = 0.
Proof. by destruct op. Qed.

Lemma push_effect t q th v p fresh spurious evs q' pc : th_pc th = PcPush v p ->
  push_step t q v p fresh spurious = Ret (evs, q', pc) -> effect_ok q th evs q' (mkThread (th_token th) pc).
Proof.
  intros Hp H. destruct p; simpl in H; step_cases H; injection H as <- <- <-;
    try (apply effect_read; rewrite ?Hp; done).
  apply effect_count. by rewrite Hp.
Qed.

Lemma pop_effect t q th p spurious evs q' pc : th_pc th = PcPop p ->
  pop_step t q p spurious = Ret (evs, q', pc) -> effect_ok q th evs q' (mkThread (th_token th) pc).
Proof.
  intros Hp H. destruct p; simpl in H; step_cases H; injection H as <- <- <-;
    try (apply effect_read; rewrite ?Hp; done).
  apply (effect_count q th (-1)). by rewrite Hp.
Qed.

Lemma due_next (k : reclaim_end T) : due (reclaim_next k) = 0.
Proof. by destruct k. Qed.

Lemma due_collect f m l (k : reclaim_end T) : due (collect_begin f m l k) = 0.
Proof. destruct l; [apply due_next|done]. Qed.

Lemma reclaim_effect q th i p k evs q' pc : th_pc th = PcReclaim p k -> th_token th = Some i ->
  reclaim_step q i p k = Ret (evs, q', pc) -> effect_ok q th evs q' (mkThread (th_token th) pc).
Proof.
  intros Hp Hi H. destruct p; cbn [reclaim_step] in H; step_cases H; injection H as <- <- <-;
    try (apply effect_read; rewrite ?Hp, ?due_collect; done).
  1-3: (eapply effect_slot; [eassumption| |done|intros s0 Hs0; by apply (se_own q _ i s0)]);
    rewrite Hp, ?due_next; done.
  match goal with X : _ = Ret x |- _ => apply bind_ret_inv in X as (nd & _ & X); injection X as <- end.
  apply effect_read; by rewrite ?Hp.
Qed.

Lemma acquire_effect t q th op p evs q' th' : th_pc th = PcAcquire op p ->
  acquire_step t q (th_token th) op p = Ret (evs, q', th') ->
  (tokenless (th_pc th) = true -> th_token th = None) -> effect_ok q th evs q' th'.
Proof.
  intros Hp H Ht. rewrite Hp in Ht. destruct p; simpl in H; step_cases H; injection H as <- <- <-;
    try (apply effect_read; rewrite ?Hp; done).
  - eapply effect_slot; [eassumption|by rewrite Hp|done|]. intros s0 Hs0.
    apply (se_acquire q _ _ s0); [by apply Ht|done|congruence|done].
  - specialize (Ht eq_refl). rewrite <- Ht. apply effect_read; rewrite ?Hp; done.
  - eapply effect_slot; [eassumption|by rewrite Hp|done|]. intros s0 Hs0.
    match goal with X : deref (th_token th) _ = Ret _ |- _ => apply deref_ret in X end. by apply (se_own q _ _ s0).
  - eapply effect_slot; [eassumption|by rewrite Hp|done|]. intros s0 Hs0.
    match goal with X : deref (th_token th) _ = Ret _ |- _ => apply deref_ret in X end. by apply (se_own q _ _ s0).
Qed.

Lemma thread_effect n q ths rest vals t th m evs q' th' :
  mpmc_inv n q ths rest vals -> ths !! t = Some th -> move_enabled q th m = true ->
  thread_step t q th m = Ret (evs, q', th') -> effect_ok q th evs q' th'.
Proof.
  intros I E Hen H. pose proof (tk_fact _ _ _ _ (own_ok n q ths rest vals I t th E)) as F. unfold pc_fact in F.
  destruct m as [op|fresh spurious]; simpl in H.
  { apply (start_effect t q th op); [done|]. unfold move_enabled in Hen. by destruct (th_pc th). }
  unfold go_step in H. destruct (th_pc th) as [|op p|op|op e|op|v p|p|p k|r| |] eqn:Hp;
    try (apply bind_ret_inv in H as (i & Hi & H); apply deref_ret in Hi).
  - injection H as <- <- <-. destruct th as [tk pc]. simpl in *. subst pc. by apply (effect_read q (mkThread tk PcIdle)).
  - apply (acquire_effect t q th op p); [done|done|]. rewrite Hp. destruct p; try done. intros _. by destruct F.
  - injection H as <- <- <-. apply effect_read; by rewrite ?Hp.
  - apply bind_ret_inv in H as (q1 & H1 & H). injection H as <- <- <-.
    apply (effect_slot q th _ _ _ _ _ _ H1); [by rewrite Hp|done|]. intros s Hs. by apply (se_own q _ i s).
  - apply bind_ret_inv in H as (q1 & H1 & H). injection H as <- <- <-.
    apply (effect_slot q th _ _ _ _ _ _ H1); [by rewrite Hp, op_begin_due|done|]. intros s Hs. by apply (se_own q _ i s).
  - apply bind_ret_inv in H as ([[evs1 q1] pc] & H1 & H). injection H as <- <- <-. by apply (push_effect t q th v p fresh spurious).
  - apply bind_ret_inv in H as ([[evs1 q1] pc] & H1 & H). injection H as <- <- <-. by apply (pop_effect t q th p spurious).
  - apply bind_ret_inv in H as ([[evs1 q1] pc] & H1 & H). injection H as <- <- <-. by apply (reclaim_effect q th i p k).
  - apply bind_ret_inv in H as (q1 & H1 & H). injection H as <- <- <-.
    apply (effect_slot q th _ _ _ _ _ _ H1); [by rewrite Hp|done|]. intros s Hs. by apply (se_own q _ i s).
  - apply bind_ret_inv in H as (q1 & H1 & H). injection H as <- <- <-.
    apply (effect_slot q th _ _ _ _ _ _ H1); [by rewrite Hp|done|]. intros s Hs. by apply (se_own q _ i s).
  - apply bind_ret_inv in H as (q1 & H1 & H). injection H as <- <- <-.
    apply (effect_slot q th _ _ _ _ _ _ H1); [by rewrite Hp|done|]. intros s Hs. by apply (se_release q _ i s).
Qed.

Lemma advance_net (vals : list T) t st evs st' : advance vals t st evs st' ->
  Z.of_nat (length (fold_left fifo_event evs vals)) = Z.of_nat (length vals) + net evs.
Proof.
  intros A. destruct A; simpl; try lia.
  - rewrite length_app. simpl. lia.
  - subst. simpl. lia.
Qed.

(** Two more invariants of an execution: an occupied slot has an owner, and the
    counter is the length up to the updates that are due. *)
Lemma exec_count max_threads threads stub k tr s :
  mpmc_exec (mpmc_initial (T := T) max_threads threads stub) k tr s -> Z.of_nat k + 1 < kMaxEpoch ->
  (forall i sl, mq_slots (ms_queue s) !! i = Some sl -> sl_occupied sl = true ->
    exists t th, ms_threads s !! t = Some th /\ th_token th = Some i) /\
  wrap_u64 (mq_size (ms_queue s) + all_due (ms_threads s)) = wrap_u64 (Z.of_nat (length (fifo tr))) /\
  (exists z, mq_size (ms_queue s) = wrap_u64 z) /\ (length (fifo tr) <= k)%nat /\
  length (mq_slots (ms_queue s)) = max_threads /\ length (ms_threads s) = threads.
Proof.
  intros X. induction X as [|k tr s t m evs s' X IH Hq Hs]; intros Hk.
  { split; [|split; [|split_and!]]; simpl; try apply length_replicate; try lia; try (by exists 0).
    - intros i sl Hi. apply lookup_replicate in Hi as [-> _]. done.
    - rewrite all_due_idle; [done|]. intros t th Ht. by apply lookup_replicate in Ht as [-> _]. }
  destruct IH as (IHo & IHs & [z IHz] & IHl & IHn & IHt); [lia|].
  destruct (exec_inv _ _ _ _ _ _ X) as [rest I]; [lia|].
  destruct (step_defined s _ rest _ t m _ I ltac:(lia) Hq Hs) as (th & evs' & q' & th' & rest' & E & Hen & Hts & Hr & I').
  injection Hr as <- ->. cbn [ms_queue ms_threads].
  pose proof (thread_effect _ _ _ _ _ t th m evs q' th' I E Hen Hts) as (Hse & Hz & Hzw).
  pose proof (advance_net _ _ _ _ _ (thread_advance _ _ _ _ _ I t th E m evs q' th' Hen Hts)) as Hnet.
  assert (Hfifo : fold_left fifo_event evs (fifo tr) = fifo (tr ++ evs)) by (unfold fifo; by rewrite fold_left_app).
  rewrite Hfifo in Hnet. split; [|split; [|split; [|split; [|split]]]].
  - intros i sl Hi Ho.
    assert (Hold : forall j s0, mq_slots (ms_queue s) !! j = Some s0 -> sl_occupied s0 = true -> th_token th <> Some j ->
      exists t2 th2, (<[t:=th']> (ms_threads s)) !! t2 = Some th2 /\ th_token th2 = Some j).
    { intros j s0 Hj Hoj Hne. destruct (IHo j s0 Hj Hoj) as (t2 & th2 & E2 & H2).
      assert (t2 <> t) by (intros ->; congruence). exists t2, th2. by rewrite list_lookup_insert_ne. }
    assert (Hself : th_token th' = Some i -> exists t2 th2, (<[t:=th']> (ms_threads s)) !! t2 = Some th2 /\ th_token th2 = Some i).
    { intros Ht. exists t, th'. split; [|done]. by apply (lookup_self (ms_threads s) t th th' E). }
    destruct (decide (th_token th' = Some i)) as [|Hni]; [by apply Hself|].
    remember (mq_slots q') as sl' eqn:Hsl. remember (th_token th') as tk' eqn:Htk.
    destruct Hse as [|j s0 s1 Hj H0 H1|j s0 s1 H0 Hf H1|j s0 s1 Hj H0 H1].
    + by apply (Hold i sl).
    + assert (i <> j) by congruence. rewrite list_lookup_insert_ne in Hi by done. by apply (Hold i sl).
    + assert (i <> j) by congruence. rewrite list_lookup_insert_ne in Hi by done.
      apply (Hold i sl); [done|done|congruence].
    + destruct (decide (i = j)) as [->|Hne].
      * rewrite list_lookup_insert_eq in Hi by (by eapply lookup_lt_Some). congruence.
      * rewrite list_lookup_insert_ne in Hi by done. apply (Hold i sl); [done|done|congruence].
  - rewrite (all_due_insert _ t th th' E). rewrite Hnet.
    replace (mq_size q' + (all_due (ms_threads s) - due (th_pc th) + due (th_pc th')))
      with (mq_size q' + due (th_pc th') + (all_due (ms_threads s) - due (th_pc th))) by lia.
    rewrite <- (wrap_u64_add (mq_size q' + due (th_pc th'))), Hz, wrap_u64_add.
    rewrite <- (wrap_u64_add (Z.of_nat (length (fifo tr)))), <- IHs, wrap_u64_add. f_equal. lia.
  - destruct Hzw as [->|Hzw]; [by exists z|done].
  - assert (net evs <= 1); [|lia].
    destruct (thread_advance _ _ _ _ _ I t th E m evs q' th' Hen Hts); simpl; lia.
  - rewrite <- IHn. destruct Hse; rewrite ?length_insert; done.
  - by rewrite length_insert.
Qed.
End MpmcEffects.

(** ** Backoff *)

Fixpoint pauses (n : nat) (b : ExponentialBackoff) : list bool * ExponentialBackoff :=
  match n with
  | O => ([], b)
  | S n =>
    let '(ys, b) := pauses n b in
    let '(y, b) := Backoff_pause b in
    (ys ++ [y], b)
  end.

(** Sixteen pauses spin and all later ones yield, whatever was counted before the reset. *)
Lemma backoff_spins_then_yields (n : nat) (b : ExponentialBackoff) :
  pauses n (Backoff_reset b) =
    (replicate (Nat.min n 16) false ++ replicate (n - 16) true, mkBackoff (Z.min (Z.of_nat n) kYieldThreshold)).
Proof.
  induction n as [|n IH]; [done|]. cbn [pauses]. rewrite IH. unfold Backoff_pause, kYieldThreshold. cbn [bo_spins].
  destruct (Z.ltb_spec (Z.min (Z.of_nat n) 16) 16) as [Hlt|Hge].
  - rewrite wrap_u64_id by (unfold in_u64, two64; apply andb_true_iff; rewrite Z.leb_le, Z.ltb_lt; lia).
    f_equal; [|f_equal; lia].
    replace (n - 16)%nat with 0%nat by lia. replace (S n - 16)%nat with 0%nat by lia.
    replace (Nat.min n 16) with n by lia. replace (Nat.min (S n) 16) with (S n) by lia.
    rewrite !app_nil_r. change [false] with (replicate 1 false). rewrite <- replicate_add. f_equal. lia.
  - f_equal; [|f_equal; lia]. replace (Nat.min (S n) 16) with (Nat.min n 16) by lia.
    rewrite <- app_assoc. f_equal. change [true] with (replicate 1 true). rewrite <- replicate_add. f_equal. lia.
Qed.

(** ** The contents and the destructor *)

Section MpmcHeap.
Context {T : Type}.

(** The values behind the node [a]. *)
Fixpoint chain_values (fuel : nat) (q : MpmcQueue T) (a : Z) : list T :=
  match fuel with
  | O => []
  | S fuel =>
    match mq_heap q !! a ≫= nd_next with
    | Some b => option_list (value_at q b) ++ chain_values fuel q b
    | None => []
    end
  end.

Definition Mpmc_contents (q : MpmcQueue T) : list T := chain_values (size (mq_heap q)) q (mq_head q).

Lemma chain_values_spec (q : MpmcQueue T) l : forall a vals fuel,
  (forall i x, (a :: l) !! i = Some x -> next_of q x = Some (l !! i)) ->
  Forall2 (fun x v => value_at q x = Some v) l vals -> (length l < fuel)%nat -> chain_values fuel q a = vals.
Proof.
  induction l as [|b l IH]; intros a vals [|fuel] Hc Hv Hl; simpl in Hl; try lia.
  - inversion Hv; subst. simpl. specialize (Hc 0%nat a eq_refl). unfold next_of in Hc.
    destruct (mq_heap q !! a) as [nd|]; [|done]. simpl in *. by injection Hc as ->.
  - inversion Hv as [|? v ? vals1 H1 H2]; subst. pose proof (Hc 0%nat a eq_refl) as Ha. unfold next_of in Ha.
    simpl. destruct (mq_heap q !! a) as [nd|]; [|done]. simpl in *. injection Ha as ->. rewrite H1. simpl. f_equal.
    apply IH; [|done|lia]. intros i x Hx. by apply (Hc (S i) x).
Qed.

Lemma chain_size n (q : MpmcQueue T) ths rest vals : mpmc_inv n q ths rest vals ->
  (length (chain q rest) <= size (mq_heap q))%nat.
Proof.
  intros I. rewrite <- size_dom. rewrite <- (size_list_to_set (C := gset Z) (chain q rest)) by apply I.
  apply subseteq_size. intros a Ha%elem_of_list_to_set. apply elem_of_dom. apply (mv_cover _ _ _ _ _ I). by left.
Qed.

Lemma contents_vals n (q : MpmcQueue T) ths rest vals : mpmc_inv n q ths rest vals -> Mpmc_contents q = vals.
Proof.
  intros I. apply (chain_values_spec q rest); [apply (mv_chain _ _ _ _ _ I)|apply (mv_values _ _ _ _ _ I)|].
  apply chain_size in I. simpl in I. lia.
Qed.

(** Deleting the nodes [l]. *)
Definition without (l : list Z) (h h' : gmap Z (Node T)) : Prop :=
  forall a, h' !! a = if decide (a ∈ l) then None else h !! a.

Lemma without_cons a l h h1 h2 : h1 = delete a h -> a ∉ l -> without l h1 h2 -> without (a :: l) h h2.
Proof.
  intros -> Ha H b. rewrite H. destruct (decide (b ∈ l)) as [Hb|Hb].
  - rewrite decide_True; [done|by right].
  - destruct (decide (b = a)) as [->|Hne]; [rewrite lookup_delete_eq, decide_True by left; done|].
    rewrite lookup_delete_ne by done. rewrite decide_False; [done|]. by rewrite not_elem_of_cons.
Qed.

Lemma drain_spec l : forall (q : MpmcQueue T) fuel,
  (forall i x, l !! i = Some x -> next_of q x = Some (l !! S i)) -> NoDup l -> (length l < fuel)%nat ->
  exists h, drain_nodes fuel q (head l) = Ret (mq_with_heap q h) /\ without l (mq_heap q) h.
Proof.
  induction l as [|a l IH]; intros q [|fuel] Hc HN Hl; simpl in Hl; try lia.
  - exists (mq_heap q). split; [by destruct q|]. intros a. by rewrite decide_False by apply not_elem_of_nil.
  - apply NoDup_cons in HN as [Ha HN]. pose proof (Hc 0%nat a eq_refl) as Hna. unfold next_of in Hna.
    simpl. unfold access, free_node. destruct (mq_heap q !! a) as [nd|] eqn:Hnd; [|done]. simpl.
    simpl in Hna. injection Hna as Hna. rewrite Hna.
    destruct (IH (mq_with_heap q (delete a (mq_heap q))) fuel) as (h & Hr & Hw); [|done|lia|].
    + intros i x Hx. specialize (Hc (S i) x Hx). unfold next_of in *. simpl.
      rewrite lookup_delete_ne; [done|]. intros ->. destruct Ha. by eapply list_elem_of_lookup_2.
    + exists h. replace (head l) with (l !! 0%nat) in Hr by (by destruct l). rewrite Hr. split; [done|].
      by eapply without_cons.
Qed.

Lemma free_spec l : forall (q : MpmcQueue T), NoDup (map rt_node l) ->
  (forall x, x ∈ l -> is_Some (mq_heap q !! rt_node x)) ->
  exists h, free_retired q l = Ret (mq_with_heap q h) /\ without (map rt_node l) (mq_heap q) h.
Proof.
  induction l as [|x l IH]; intros q HN Hall; simpl in *.
  - exists (mq_heap q). split; [by destruct q|]. intros a. by rewrite decide_False by apply not_elem_of_nil.
  - apply NoDup_cons in HN as [Hx HN]. destruct (Hall x ltac:(left)) as [nd Hnd].
    unfold free_node. rewrite Hnd. simpl. destruct (IH (mq_with_heap q (delete (rt_node x) (mq_heap q)))) as (h & Hr & Hw).
    + done.
    + intros y Hy. simpl. rewrite lookup_delete_ne; [apply Hall; by right|]. intros He. destruct Hx.
      rewrite He. by apply list_elem_of_fmap_2.
    + exists h. rewrite Hr. split; [done|]. by eapply without_cons.
Qed.

Lemma without_app l1 l2 h h1 h2 : without l1 h h1 -> without l2 h1 h2 -> without (l1 ++ l2) h h2.
Proof.
  intros H1 H2 a. rewrite H2, H1. destruct (decide (a ∈ l1)), (decide (a ∈ l2)), (decide (a ∈ l1 ++ l2)) as [Hc|Hc];
    rewrite elem_of_app in Hc; tauto.
Qed.

Definition slot_nodes (slots : list EpochSlot) : list Z := flat_map (fun s => map rt_node (sl_retired s)) slots.

Lemma reclaim_spec slots : forall (q : MpmcQueue T), NoDup (slot_nodes slots) ->
  (forall a, a ∈ slot_nodes slots -> is_Some (mq_heap q !! a)) ->
  exists h, reclaim_slots q slots = Ret (mq_with_heap q h) /\ without (slot_nodes slots) (mq_heap q) h.
Proof.
  induction slots as [|s slots IH]; intros q HN Hall; simpl in *.
  - exists (mq_heap q). split; [by destruct q|]. intros a. by rewrite decide_False by apply not_elem_of_nil.
  - apply NoDup_app in HN as (HN1 & Hd & HN2).
    destruct (free_spec (sl_retired s) q HN1) as (h1 & Hr1 & Hw1).
    { intros x Hx. apply Hall. apply elem_of_app. left. by apply list_elem_of_fmap_2. }
    rewrite Hr1. simpl. destruct (IH (mq_with_heap q h1) HN2) as (h2 & Hr2 & Hw2).
    { intros a Ha. simpl. rewrite Hw1. rewrite decide_False; [|by intros Ha1; apply (Hd a Ha1)].
      apply Hall. apply elem_of_app. by right. }
    exists h2. rewrite Hr2. split; [done|]. by eapply without_app.
Qed.
End MpmcHeap.

(** ** Schedules as executions *)

Section MpmcSchedules.
Context {T : Type}.

Definition idle (th : MpmcThread T) : bool := match th_pc th with PcIdle => true | _ => false end.

Definition exit_ok (s : mpmc_state T) (t : nat) (m : mpmc_move T) : bool :=
  match m with
  | Start OpExit => forallb idle (<[t := mkThread None PcIdle]> (ms_threads s))
  | _ => true
  end.

Fixpoint quiet_schedule (s : mpmc_state T) (schedule : list (nat * mpmc_move T)) : bool :=
  match schedule with
  | [] => true
  | (t, m) :: schedule =>
    exit_ok s t m && match mpmc_step s t m with Some (Ret (_, s)) => quiet_schedule s schedule | _ => true end
  end.

Lemma exit_ok_quiet s t m : exit_ok s t m = true -> quiet_exit s t m.
Proof.
  intros H -> t2 th2 Hne E2. simpl in H. apply forallb_true_Forall in H. rewrite Forall_lookup in H.
  specialize (H t2 th2). rewrite list_lookup_insert_ne in H by done. specialize (H E2).
  unfold idle in H. by destruct (th_pc th2).
Qed.

Lemma run_exec s0 schedule : forall k tr0 s tr s',
  mpmc_exec s0 k tr0 s -> quiet_schedule s schedule = true -> mpmc_run s schedule = Some (Ret (tr, s')) ->
  mpmc_exec s0 (k + length schedule) (tr0 ++ tr) s'.
Proof.
  induction schedule as [|[t m] schedule IH]; intros k tr0 s tr s' X Hq Hr; simpl in *.
  - injection Hr as <- <-. by rewrite Nat.add_0_r, app_nil_r.
  - apply andb_true_iff in Hq as [He Hq]. destruct (mpmc_step s t m) as [[[evs s1]| |]|] eqn:Hs; try done.
    destruct (mpmc_run s1 schedule) as [[[evs' s2]| |]|] eqn:Hr1; try done. injection Hr as <- <-.
    rewrite app_assoc, <- Nat.add_succ_comm. apply (IH (S k) _ s1); [|done|done].
    apply (exec_step s0 k tr0 s t m evs s1); [done|by apply exit_ok_quiet|done].
Qed.

(** The thread [t] goes on alone for at most [fuel] steps, until its call returns. *)
Definition alone_move (s : mpmc_state T) : mpmc_move T := Go (Some (fresh (dom (mq_heap (ms_queue s))))) false.

Fixpoint run_alone (fuel : nat) (s : mpmc_state T) (t : nat) : option (outcome (list (mpmc_event T) * mpmc_state T)) :=
  match fuel with
  | O => Some (Ret ([], s))
  | S fuel =>
    match ms_threads s !! t with
    | None => None
    | Some th =>
      if idle th then Some (Ret ([], s))
      else
        match mpmc_step s t (alone_move s) with
        | Some (Ret (evs, s)) =>
          match run_alone fuel s t with
          | Some (Ret (evs', s)) => Some (Ret (evs ++ evs', s))
          | r => r
          end
        | r => r
        end
    end
  end.
End MpmcSchedules.

(** ** Theorems *)

Section MpmcMain.
Context {T : Type}.
Context (max_threads threads : nat) (stub : Z).

Lemma in_u64_bound (z : Z) : 0 <= z < two64 -> in_u64 z = true.
Proof using Type. intros Hz. unfold in_u64. apply andb_true_iff. rewrite Z.leb_le, Z.ltb_lt. exact Hz. Qed.

Abbreviation initial := (mpmc_initial (T := T) max_threads threads stub).

(** C25. Memory safety, when threads exit only while no other thread is inside a
    call, and before the 64-bit epoch can wrap (at most 2^64 - 4 steps): in every
    such interleaving of pushes, pops and exits, with nodes freed and their addresses
    reused, no step follows a pointer to a freed node, frees a node twice or uses a
    slot that does not exist; and no two threads move the value of one node. *)
Theorem mpmc_memory_safe (k : nat) (tr : list (mpmc_event T)) (s : mpmc_state T) (t : nat) (m : mpmc_move T) r :
  mpmc_exec initial k tr s -> Z.of_nat k + 2 < kMaxEpoch -> quiet_exit s t m -> mpmc_step s t m = Some r ->
  (exists evs s', r = Ret (evs, s')) /\
  forall t1 t2 th1 th2 a, ms_threads s !! t1 = Some th1 -> ms_threads s !! t2 = Some th2 ->
    taking (th_pc th1) = Some a -> taking (th_pc th2) = Some a -> t1 = t2.
Proof using Type.
  intros X Hk Hq Hs. destruct (exec_inv _ _ _ _ _ _ X) as [rest I]; [lia|]. split; [|apply (mv_taking _ _ _ _ _ I)].
  destruct (step_defined s _ rest _ t m r I ltac:(lia) Hq Hs) as (th & evs & q' & th' & rest' & _ & _ & _ & -> & _).
  eauto.
Qed.

(** C26. Linearizability: whatever the interleaving of fewer steps than the epoch has
    values, if threads exit only while no other is inside a call, the nodes behind [head_] hold
    what replaying the exchanges of the trace gives; every push and pop that returned
    took effect exactly once between its call and its return, a push by appending its
    value, a pop by removing the value it returns from the front, or by finding the
    list empty at some moment of the call; a call that threw changed nothing. *)
Theorem mpmc_linearizable (k : nat) (tr : list (mpmc_event T)) (s : mpmc_state T) :
  mpmc_exec initial k tr s -> Z.of_nat k + 1 < kMaxEpoch ->
  Mpmc_contents (ms_queue s) = fifo tr /\
  forall t op r pre mid post, tr = pre ++ EvCall t op :: mid ++ EvReturn t r :: post ->
    List.filter (calls t) mid = [] -> linearized t pre op mid r.
Proof using Type.
  intros X Hk. destruct (exec_inv _ _ _ _ _ _ X Hk) as [rest I]. split; [by eapply contents_vals|].
  apply (exec_staged _ _ _ _ _ _ X Hk).
Qed.

(** C29. Every state reached with threads exiting only while no other is inside a call
    and before the epoch can wrap is well formed: the tables keep their sizes, a token
    names an occupied slot that no other token names, the slot of a thread inside a
    call is active, an occupied slot has a token and a free one no retired nodes, and
    the epochs are 64-bit values not ahead of the global one. *)
Theorem mpmc_state_typed (k : nat) (tr : list (mpmc_event T)) (s : mpmc_state T) :
  mpmc_exec initial k tr s -> Z.of_nat k + 1 < kMaxEpoch ->
  let q := ms_queue s in
  length (mq_slots q) = max_threads /\ length (ms_threads s) = threads /\
  in_u64 (mq_size q) = true /\ in_u64 (mq_epoch q) = true /\
  (forall t th i, ms_threads s !! t = Some th -> th_token th = Some i ->
    exists sl, mq_slots q !! i = Some sl /\ sl_occupied sl = true /\ (inside (th_pc th) = true -> sl_active sl = true)) /\
  (forall t1 t2 th1 th2 i, ms_threads s !! t1 = Some th1 -> ms_threads s !! t2 = Some th2 ->
    th_token th1 = Some i -> th_token th2 = Some i -> t1 = t2) /\
  (forall i sl, mq_slots q !! i = Some sl -> 0 <= sl_epoch sl <= mq_epoch q /\
    (sl_occupied sl = true -> exists t th, ms_threads s !! t = Some th /\ th_token th = Some i) /\
    (sl_occupied sl = false -> sl_retired sl = [])).
Proof using Type.
  intros X Hk. destruct (exec_inv _ _ _ _ _ _ X Hk) as [rest I].
  destruct (exec_count _ _ _ _ _ _ X Hk) as (Ho & _ & [z Hz] & _ & Hl & Ht).
  split; [done|]. split; [done|]. split; [rewrite Hz; apply in_u64_bound; apply wrap_u64_bound|]. split.
  { apply in_u64_bound. pose proof (mv_epoch _ _ _ _ _ I). unfold kMaxEpoch in *. lia. }
  split; [|split; [apply (mv_tokens _ _ _ _ _ I)|]].
  - intros t th i E Hi. by apply (tk_slot _ _ _ _ (mv_threads _ _ _ _ _ I t th E)).
  - intros i sl Hi. destruct (mv_slots _ _ _ _ _ I i sl Hi). split; [done|]. split; [by apply Ho|done].
Qed.

Definition all_idle (s : mpmc_state T) : Prop := forall t th, ms_threads s !! t = Some th -> th_pc th = PcIdle.

(** At rest the counter is the number of values in the queue, modulo nothing: it
    has caught up with every push and pop, and [empty] is right. *)
Lemma mpmc_size_at_rest (k : nat) (tr : list (mpmc_event T)) (s : mpmc_state T) :
  mpmc_exec initial k tr s -> Z.of_nat k + 1 < kMaxEpoch -> all_idle s ->
  mpmc_size_approx (ms_queue s) = Z.of_nat (length (Mpmc_contents (ms_queue s))) /\
  (mpmc_empty (ms_queue s) = true <-> Mpmc_contents (ms_queue s) = []).
Proof using Type.
  intros X Hk Hidle. destruct (exec_inv _ _ _ _ _ _ X Hk) as [rest I]. rewrite (contents_vals _ _ _ _ _ I).
  destruct (exec_count _ _ _ _ _ _ X Hk) as (_ & Hs & [z Hz] & Hl & _).
  assert (Hsz : mpmc_size_approx (ms_queue s) = Z.of_nat (length (fifo tr))).
  { unfold mpmc_size_approx. rewrite all_due_idle, Z.add_0_r, Hz in Hs by done.
    rewrite Hz. unfold wrap_u64 in Hs. rewrite Zmod_mod in Hs. unfold wrap_u64. rewrite Hs.
    apply Z.mod_small. unfold kMaxEpoch in *. lia. }
  split; [done|]. unfold mpmc_empty. rewrite Hsz, Z.eqb_eq. destruct (fifo tr); simpl; split; try done; lia.
Qed.

Lemma NoDup_flat_map {A} (f : A -> list Z) (l : list A) :
  (forall i x, l !! i = Some x -> NoDup (f x)) ->
  (forall i j x y a, i <> j -> l !! i = Some x -> l !! j = Some y -> a ∈ f x -> a ∉ f y) ->
  NoDup (flat_map f l).
Proof using Type.
  induction l as [|x l IH]; intros H1 H2; simpl; [constructor|]. apply NoDup_app. split; [by apply (H1 0%nat)|]. split.
  - intros a Ha Hl. apply list_elem_of_In, in_flat_map in Hl as (y & Hy & Hay).
    apply list_elem_of_In, list_elem_of_lookup in Hy as [j Hj]. apply list_elem_of_In in Hay.
    by apply (H2 0%nat (S j) x y a).
  - apply IH; [intros i; apply (H1 (S i))|]. intros i j y z a Hij. apply (H2 (S i) (S j)). lia.
Qed.

Section AtRest.
Context (k : nat) (tr : list (mpmc_event T)) (s : mpmc_state T) (rest : list Z).
Context (I : mpmc_inv (Z.of_nat k + 1) (ms_queue s) (ms_threads s) rest (fifo tr)) (Hidle : all_idle s).
Context (Ho : forall i sl, mq_slots (ms_queue s) !! i = Some sl -> sl_occupied sl = true ->
  exists t th, ms_threads s !! t = Some th /\ th_token th = Some i).

Lemma rest_owned t th i sl : ms_threads s !! t = Some th -> th_token th = Some i ->
  mq_slots (ms_queue s) !! i = Some sl -> owned (ms_queue s) th = map rt_node (sl_retired sl).
Proof using Hidle.
  intros E Ht Hi. unfold owned, dead_of, retired_of, slot_of. rewrite (Hidle t th E), Ht. simpl. rewrite Hi.
  simpl. by rewrite map_map.
Qed.

Lemma rest_slot i sl a : mq_slots (ms_queue s) !! i = Some sl -> a ∈ map rt_node (sl_retired sl) ->
  exists t th, ms_threads s !! t = Some th /\ th_token th = Some i /\ a ∈ owned (ms_queue s) th.
Proof using Hidle Ho I.
  intros Hi Ha. destruct (sl_occupied sl) eqn:Hoc.
  - destruct (Ho i sl Hi Hoc) as (t & th & E & Ht). exists t, th. by rewrite (rest_owned t th i sl).
  - destruct (mv_slots _ _ _ _ _ I i sl Hi) as [_ Hr]. rewrite Hr in Ha by done. by apply not_elem_of_nil in Ha.
Qed.

Lemma rest_nodup : NoDup (slot_nodes (mq_slots (ms_queue s))).
Proof using Hidle Ho I.
  apply NoDup_flat_map.
  - intros i sl Hi. destruct (sl_occupied sl) eqn:Hoc.
    + destruct (Ho i sl Hi Hoc) as (t & th & E & Ht). rewrite <- (rest_owned t th i sl) by done.
      by apply (mv_once _ _ _ _ _ I t).
    + destruct (mv_slots _ _ _ _ _ I i sl Hi) as [_ Hr]. rewrite Hr by done. constructor.
  - intros i j sl1 sl2 a Hij Hi Hj Ha1 Ha2.
    destruct (rest_slot i sl1 a Hi Ha1) as (t1 & th1 & E1 & Ht1 & Ho1).
    destruct (rest_slot j sl2 a Hj Ha2) as (t2 & th2 & E2 & Ht2 & Ho2).
    pose proof (mv_apart _ _ _ _ _ I _ _ _ _ a E1 E2 Ho1 Ho2). congruence.
Qed.

Lemma rest_retired a : a ∈ slot_nodes (mq_slots (ms_queue s)) <->
  exists t th, ms_threads s !! t = Some th /\ a ∈ owned (ms_queue s) th.
Proof using Hidle Ho I.
  unfold slot_nodes. rewrite list_elem_of_In, in_flat_map. split.
  - intros (sl & Hsl & Ha). apply list_elem_of_In, list_elem_of_lookup in Hsl as [i Hi]. apply list_elem_of_In in Ha.
    destruct (rest_slot i sl a Hi Ha) as (t & th & E & _ & Hoa). eauto.
  - intros (t & th & E & Ha). destruct (th_token th) as [i|] eqn:Ht.
    + destruct (tk_slot _ _ _ _ (mv_threads _ _ _ _ _ I t th E) i Ht) as (sl & Hi & _).
      exists sl. rewrite (rest_owned t th i sl E Ht Hi) in Ha.
      split; apply list_elem_of_In; [by eapply list_elem_of_lookup_2|done].
    + unfold owned, dead_of, retired_of, slot_of in Ha. rewrite (Hidle t th E), Ht in Ha. by apply not_elem_of_nil in Ha.
Qed.
End AtRest.

(** C31. No leaks: once all threads are at rest, after any run in which threads exited
    only while no other was inside a call and the epoch did not wrap, the destructor frees every node that
    is still allocated, each exactly once. *)
Theorem mpmc_destructor_frees_all (k : nat) (tr : list (mpmc_event T)) (s : mpmc_state T) :
  mpmc_exec initial k tr s -> Z.of_nat k + 1 < kMaxEpoch -> all_idle s ->
  Mpmc_destruct (ms_queue s) = Ret ∅.
Proof using Type.
  intros X Hk Hidle. destruct (exec_inv _ _ _ _ _ _ X Hk) as [rest I].
  destruct (exec_count _ _ _ _ _ _ X Hk) as (Ho & _).
  pose proof (rest_retired k tr s rest I Hidle Ho) as Hin. unfold Mpmc_destruct. set (q := ms_queue s) in *.
  destruct (drain_spec (chain q rest) q (S (size (mq_heap q)))) as (h1 & Hr1 & Hw1).
  { intros i x. apply (mv_chain _ _ _ _ _ I). } { apply I. } { apply chain_size in I. lia. }
  simpl in Hr1. simpl. rewrite Hr1. cbn [mbind outcome_bind].
  destruct (reclaim_spec (mq_slots q) (mq_with_heap q h1) (rest_nodup k tr s rest I Hidle Ho)) as (h2 & Hr2 & Hw2).
  { intros a Ha. apply Hin in Ha as (t & th & E & Ha). simpl. rewrite Hw1.
    rewrite decide_False by (by apply (mv_unlinked _ _ _ _ _ I t th)). apply (mv_cover _ _ _ _ _ I). right. eauto. }
  simpl in Hr2. simpl. rewrite Hr2. simpl. f_equal. apply map_eq. intros a. rewrite Hw2, lookup_empty. simpl. rewrite Hw1.
  destruct (decide (a ∈ slot_nodes (mq_slots q))) as [|Hns]; [done|].
  destruct (decide (a ∈ chain q rest)) as [|Hnc]; [done|].
  destruct (mq_heap q !! a) as [nd|] eqn:Hnd; [|done]. exfalso.
  assert (Ha : is_Some (mq_heap q !! a)) by eauto. apply (mv_cover _ _ _ _ _ I) in Ha as [|Ha]; [done|].
  by apply Hns, Hin.
Qed.
End MpmcMain.

(** ** Sample runs *)

Section MpmcSamples.

Definition goes (n t : nat) (fresh : Z) : list (nat * mpmc_move Z) := replicate n (t, Go (Some fresh) false).

Definition two_threads : mpmc_state Z := mpmc_initial 2 2 100.

(** Thread 0 pushes 5; while it pushes 6, thread 1 pops; thread 1 fails one exchange
    spuriously. *)
Definition sample_schedule : list (nat * mpmc_move Z) :=
  (0%nat, Start (OpPush 5)) :: goes 15 0 101 ++ (1%nat, Start OpPop) :: goes 12 1 0 ++
  (0%nat, Start (OpPush 6)) :: goes 8 0 102 ++ [(1%nat, Go None true)] ++ goes 11 1 0 ++ goes 3 0 0.

Definition sample_end : list (mpmc_event Z) * mpmc_state Z :=
  match mpmc_run two_threads sample_schedule with Some (Ret r) => r | _ => ([], two_threads) end.

Lemma sample_exec : mpmc_exec (mpmc_initial 2 2 100) 53 sample_end.1 sample_end.2.
Proof.
  assert (Hr : mpmc_run two_threads sample_schedule = Some (Ret (sample_end.1, sample_end.2))) by (vm_compute; reflexivity).
  assert (Hq : quiet_schedule two_threads sample_schedule = true) by (vm_compute; reflexivity).
  exact (run_exec two_threads sample_schedule 0 [] two_threads _ _ (exec_start two_threads) Hq Hr).
Qed.

Lemma sample_bound (z : Z) : (z <=? 2) = true -> Z.of_nat 53 + z < kMaxEpoch.
Proof. rewrite Z.leb_le. unfold kMaxEpoch, two64. lia. Qed.

Lemma sample_idle : all_idle sample_end.2.
Proof. intros [|[|t]] th E; vm_compute in E; [by injection E as <-|by injection E as <-|done]. Qed.

Lemma mpmc_memory_safe_witness :
  exists r, mpmc_step sample_end.2 1 (Start OpPop) = Some r /\ exists evs s', r = Ret (evs, s').
Proof.
  destruct (mpmc_step sample_end.2 1 (Start OpPop)) as [r|] eqn:Hs; [|by vm_compute in Hs].
  exists r. split; [done|].
  exact (proj1 (mpmc_memory_safe 2 2 100 _ _ _ 1 (Start OpPop) r sample_exec (sample_bound 2 eq_refl)
    ltac:(by apply exit_ok_quiet) Hs)).
Defined.

Lemma mpmc_linearizable_witness : Mpmc_contents (ms_queue sample_end.2) = [6] /\ fifo sample_end.1 = [6].
Proof.
  pose proof (proj1 (mpmc_linearizable 2 2 100 _ _ _ sample_exec (sample_bound 1 eq_refl))) as H.
  assert (Hf : fifo sample_end.1 = [6]) by (vm_compute; reflexivity).
  split; [exact (eq_trans H Hf)|exact Hf].
Defined.

Lemma mpmc_state_typed_witness : in_u64 (mq_size (ms_queue sample_end.2)) = true.
Proof. exact (proj1 (proj2 (proj2 (mpmc_state_typed 2 2 100 _ _ _ sample_exec (sample_bound 1 eq_refl))))). Defined.

Example mpmc_size_at_rest_sample : mpmc_size_approx (ms_queue sample_end.2) = 1.
Proof.
  refine (eq_trans (proj1 (mpmc_size_at_rest 2 2 100 _ _ _ sample_exec (sample_bound 1 eq_refl) sample_idle)) _).
  vm_compute. reflexivity.
Defined.

Lemma mpmc_destructor_frees_all_witness : Mpmc_destruct (ms_queue sample_end.2) = Ret ∅.
Proof. exact (mpmc_destructor_frees_all 2 2 100 _ _ _ sample_exec (sample_bound 1 eq_refl) sample_idle). Defined.

(** ** What the queue does not promise *)

(** [unregister_slot] frees the nodes its thread retired at once: thread 1 is about
    to follow the head it read, thread 0 pops that node and exits, and the node is
    gone when thread 1 goes on. *)
Fact mpmc_exit_use_after_free :
  mpmc_run two_threads
    ((0%nat, Start (OpPush 5)) :: goes 15 0 101 ++ (1%nat, Start OpPop) :: goes 10 1 0 ++
     (0%nat, Start OpPop) :: goes 14 0 0 ++ (0%nat, Start OpExit) :: goes 4 0 0 ++ goes 1 1 0)
  = Some (Undef "access to a node that is not allocated").
Proof. vm_compute. reflexivity. Qed.

(** The counter lags: between the link and the increment the queue holds a value and
    [empty] says it does not. *)
Fact mpmc_empty_before_count :
  exists tr s, mpmc_run two_threads ((0%nat, Start (OpPush 5)) :: goes 13 0 101) = Some (Ret (tr, s)) /\
    Mpmc_contents (ms_queue s) = [5] /\ mpmc_empty (ms_queue s) = true.
Proof. eexists _, _. split; [vm_compute; reflexivity|]. by vm_compute. Qed.

(** And when another thread pops that value first, the counter passes through 2^64 - 1. *)
Fact mpmc_size_wraps :
  exists tr s, mpmc_run two_threads ((0%nat, Start (OpPush 5)) :: goes 13 0 101 ++ (1%nat, Start OpPop) :: goes 19 1 0)
      = Some (Ret (tr, s)) /\
    Mpmc_contents (ms_queue s) = [] /\ mpmc_size_approx (ms_queue s) = two64 - 1.
Proof. eexists _, _. split; [vm_compute; reflexivity|]. by vm_compute. Qed.

(** More threads than slots: the call throws and changes nothing. *)
Fact mpmc_registration_limit :
  exists s, mpmc_run (mpmc_initial (T := Z) 1 2 100) ((0%nat, Start (OpPush 5)) :: goes 15 0 101 ++ (1%nat, Start OpPop) :: goes 2 1 0)
    = Some (Ret ([EvCall 0 (OpPush 5); EvLink 0 5; EvReturn 0 RPushed; EvCall 1 OpPop;
                  EvReturn 1 (RThrew "MpmcLinkedQueue thread registration limit exceeded")], s)).
Proof. eexists. vm_compute. reflexivity. Qed.

(** The map of [local_token] is keyed by the address of the queue: when a queue is
    built where a destroyed one was, a thread that used the old one still has its
    token, for a slot that nobody has registered. *)
Definition stale_token : mpmc_state Z :=
  mkMpmcState (Mpmc_new 2 100) [mkThread (Some 0%nat) PcIdle; mkThread None PcIdle].

(** [n] pushes and pops of thread 1, at fresh addresses. *)
Definition churn (n : nat) : list (nat * mpmc_move Z) :=
  concat (map (fun i => (1%nat, Start (OpPush 0)) :: goes 11 1 (200 + Z.of_nat i) ++ (1%nat, Start OpPop) :: goes 14 1 0) (seq 0 n)).

(** Thread 1 then registers the same slot and overwrites the epoch that thread 0
    announced there, and a node that thread 0 is about to follow is freed. *)
Fact mpmc_stale_token_use_after_free :
  mpmc_run stale_token
    ((0%nat, Start OpPop) :: goes 5 0 0 ++
     (1%nat, Start (OpPush 0)) :: goes 15 1 150 ++ (1%nat, Start OpPop) :: goes 14 1 0 ++ churn 30 ++
     (1%nat, Start (OpPush 0)) :: goes 11 1 300 ++ (1%nat, Start OpPop) :: goes 54 1 0 ++
     (1%nat, Start (OpPush 0)) :: goes 11 1 301 ++ (1%nat, Start OpPop) :: goes 21 1 0 ++ goes 1 0 0)
  = Some (Undef "access to a node that is not allocated").
Proof. vm_compute. reflexivity. Qed.
End MpmcSamples.
