(* ===== verification/MpmcProgress.v ===== *)
(** * The linked queue: progress

    A thread that runs alone, from any reachable state, returns from its call within
    a bounded number of steps: the retries of the loops are due to other threads
    only. [work] bounds the steps that are left. *)

From S2P Require Import Prelude Mpmc MpmcProofs MpmcSteps MpmcTrace MpmcTheorems.

Local Open Scope Z_scope.

Section MpmcProgress.
Context {T : Type}.

(** The number of nodes behind [a]. *)
Inductive dist (q : MpmcQueue T) : Z -> nat -> Prop :=
| dist_last a : next_of q a = Some None -> dist q a 0
| dist_next a b l : next_of q a = Some (Some b) -> dist q b l -> dist q a (S l).

Lemma dist_unique q a l1 l2 : dist q a l1 -> dist q a l2 -> l1 = l2.
Proof.
  intros H1. revert l2. induction H1 as [a Ha|a b l Ha Hb IH]; intros l2 H2; inversion H2; subst; try congruence.
  f_equal. apply IH. congruence.
Qed.

Lemma dist_more q q' a l : (forall x b, next_of q x = Some b -> next_of q' x = Some b) -> dist q a l -> dist q' a l.
Proof. intros H D. induction D; econstructor; eauto. Qed.

Lemma dist_chain (q : MpmcQueue T) l : forall a,
  (forall i x, (a :: l) !! i = Some x -> next_of q x = Some (l !! i)) -> dist q a (length l).
Proof.
  induction l as [|b l IH]; intros a H; [by apply dist_last, (H 0%nat a)|].
  apply dist_next with b; [by apply (H 0%nat a)|]. apply IH. intros i x. apply (H (S i) x).
Qed.

Lemma dist_tail n (q : MpmcQueue T) ths rest vals : mpmc_inv n q ths rest vals ->
  exists l, dist q (mq_tail q) l /\ (l <= length vals)%nat.
Proof.
  intros I. pose proof (mv_tail _ _ _ _ _ I) as Ht. pose proof (mv_chain _ _ _ _ _ I) as Hc.
  apply list_elem_of_split in Ht as (c1 & c2 & Hs). exists (length c2). split.
  - apply dist_chain. intros i x Hx.
    assert (Hx2 : chain q rest !! (length c1 + i)%nat = Some x).
    { rewrite Hs, lookup_app_r by lia. by replace (length c1 + i - length c1)%nat with i by lia. }
    rewrite (Hc _ _ Hx2). f_equal. change (rest !! (length c1 + i)%nat) with (chain q rest !! S (length c1 + i)).
    rewrite Hs, lookup_app_r by lia. by replace (S (length c1 + i) - length c1)%nat with (S i) by lia.
  - rewrite <- (Forall2_length _ _ _ (mv_values _ _ _ _ _ I)).
    assert (Hl : length (chain q rest) = S (length rest)) by done. rewrite Hs, length_app in Hl. simpl in Hl. lia.
Qed.

(** ** The steps that are left *)

Section Work.
Context (q : MpmcQueue T) (lag retired : nat).

Definition slot_count : nat := length (mq_slots q).

Definition end_work (k : reclaim_end T) : nat := match k with ThenLeave _ => 1 | ThenUnregister => 2 end.

Definition reclaim_work (p : reclaim_pc) (k : reclaim_end T) : nat :=
  (match p with
   | RtLoad _ => 3 * slot_count + retired + 7
   | RtPush _ _ => 3 * slot_count + retired + 6
   | RtBump => 3 * slot_count + retired + 4
   | ScGlobal => 3 * slot_count + retired + 3
   | ScOccupied i _ => 3 * (slot_count - i) + retired + 2
   | ScActive i _ => 3 * (slot_count - i) + retired + 1
   | ScEpoch i _ => 3 * (slot_count - i) + retired
   | Collect _ _ _ todo => length todo + 1
   end + end_work k)%nat.

Definition exchange_work : nat := (3 * slot_count + retired + 12)%nat.

(** A retry costs at most one more round; a round that helps shortens [lag]. *)
Definition pop_work (p : pop_pc T) : nat :=
  (match p with
   | PoHead => 8 * lag + 4 + exchange_work
   | PoTail h => 8 * lag + (if (h =? mq_head q)%Z then 3 else 8) + exchange_work
   | PoNext h t => 8 * lag + (if (h =? mq_head q)%Z && (t =? mq_tail q)%Z then 2 else 7) + exchange_work
   | PoRecheck h t _ => 8 * lag + (if (h =? mq_head q)%Z && (t =? mq_tail q)%Z then 1 else 6) + exchange_work
   | PoHelp t _ => 8 * lag + (if (t =? mq_tail q)%Z then 0 else 5) + exchange_work
   | PoExchange h _ => (if (h =? mq_head q)%Z then 0 else 8 * lag + 5) + exchange_work
   | PoTake _ _ => 3 * slot_count + retired + 11
   | PoReset _ _ _ => 3 * slot_count + retired + 10
   | PoSize _ _ => 3 * slot_count + retired + 9
   end)%nat.

Definition push_work (p : push_pc) : nat :=
  (match p with
   | PuAlloc => 8 * lag + 9
   | PuTail _ => 8 * lag + 8
   | PuNext _ t => 8 * lag + (if (t =? mq_tail q)%Z then 7 else 12)
   | PuRecheck _ t nx => 8 * lag + (if (t =? mq_tail q)%Z && bool_decide (next_of q t = Some nx) then 6 else 11)
   | PuLink _ t => if bool_decide (next_of q t = Some None) then 4 else 8 * lag + 10
   | PuHelp _ t _ => 8 * lag + (if (t =? mq_tail q)%Z then 1 else 9)
   | PuSwing _ _ => 3
   | PuSize => 2
   end)%nat.

Definition begin_work (op : mpmc_op T) : nat :=
  match op with
  | OpPush _ => push_work PuAlloc
  | OpPop => pop_work PoHead
  | OpExit => 2
  end.

Definition pc_work (pc : mpmc_pc T) : nat :=
  (match pc with
   | PcIdle => 0
   | PcAcquire op (AcqExchange i) => slot_count - i + 7 + begin_work op
   | PcAcquire op AcqClear => 6 + begin_work op
   | PcAcquire op AcqLoad => 5 + begin_work op
   | PcAcquire op (AcqStore _) => 4 + begin_work op
   | PcEnterLoad op => 3 + begin_work op
   | PcEnterEpoch op _ => 2 + begin_work op
   | PcEnterActive op => 1 + begin_work op
   | PcPush _ p => push_work p
   | PcPop p => pop_work p
   | PcReclaim p k => reclaim_work p k
   | PcLeave _ => 1
   | PcInactive => 2
   | PcUnoccupied => 1
   end)%nat.
End Work.

Definition work (q : MpmcQueue T) (lag : nat) (th : MpmcThread T) : nat :=
  pc_work q lag (length (retired_of q th)) (th_pc th).

Section Decrease.
Context (n : Z) (q : MpmcQueue T) (ths : list (MpmcThread T)) (rest : list Z) (vals : list T).
Context (I : mpmc_inv n q ths rest vals).
Context (t : nat) (th : MpmcThread T) (E : ths !! t = Some th).
Context (lag : nat) (D : dist q (mq_tail q) lag).

Lemma swing_lag b lag' : next_of q (mq_tail q) = Some (Some b) -> dist (mq_with_tail q b) b lag' -> lag = S lag'.
Proof using D.
  intros Hb D'. apply (dist_unique q (mq_tail q)); [exact D|]. apply dist_next with b; [done|].
  apply (dist_more (mq_with_tail q b)); [done|exact D'].
Qed.

Lemma same_lag (q' : MpmcQueue T) lag' : mq_heap q' = mq_heap q -> mq_tail q' = mq_tail q ->
  dist q' (mq_tail q') lag' -> lag = lag'.
Proof using D.
  intros Hh Ht D'. rewrite Ht in D'. apply (dist_unique q (mq_tail q)); [exact D|].
  apply (dist_more q'); [|done]. intros x b. unfold next_of. by rewrite Hh.
Qed.

Lemma push_decreases v p a evs q' pc lag' r : th_pc th = PcPush v p -> mq_heap q !! a = None ->
  push_step t q v p (Some a) false = Ret (evs, q', pc) -> dist q' (mq_tail q') lag' ->
  (pc_work q' lag' r pc < pc_work q lag r (PcPush v p))%nat.
Proof using D E I.
  intros Hp Ha H D'. pose proof (tk_fact _ _ _ _ (own_ok n q ths rest vals I t th E)) as F.
  unfold pc_fact in F. rewrite Hp in F.
  destruct p as [|node|node tl|node tl nx|node tl|node tl| |node tl nx]; simpl in H.
  - injection H as <- <- <-. simpl.
    assert (lag = lag') as ->; [|lia]. apply (dist_unique (mq_with_heap q (<[a:=mkNode None (Some v)]> (mq_heap q))) (mq_tail q)); [|done].
    apply (dist_more q); [|done]. intros x b. unfold next_of. simpl. destruct (decide (x = a)) as [->|Hne]; [by rewrite Ha|].
    by rewrite lookup_insert_ne.
  - injection H as <- <- <-. rewrite (dist_unique _ _ _ _ D D'). simpl. rewrite Z.eqb_refl. lia.
  - apply bind_ret_inv in H as (nd & Hnd & H). apply deref_ret in Hnd. injection H as <- <- <-.
    rewrite (dist_unique _ _ _ _ D D'). simpl. unfold next_of. rewrite Hnd. simpl. rewrite bool_decide_true by done.
    destruct (tl =? mq_tail q); simpl; lia.
  - destruct (tl =? mq_tail q) eqn:He; simpl in H; [destruct nx as [nx|]|]; injection H as <- <- <-;
      rewrite (dist_unique _ _ _ _ D D'); simpl; rewrite ?He; simpl; try lia; destruct (bool_decide _); lia.
  - apply bind_ret_inv in H as (nd & Hnd & H). apply deref_ret in Hnd. destruct (nd_next nd) as [b|] eqn:Hn.
    + injection H as <- <- <-. rewrite (dist_unique _ _ _ _ D D'). simpl. unfold next_of. rewrite Hnd. simpl. rewrite Hn.
      rewrite bool_decide_false by done. lia.
    + injection H as <- <- <-. simpl. unfold next_of. rewrite Hnd. simpl. rewrite Hn. rewrite bool_decide_true by done. lia.
  - injection H as <- <- <-. simpl. lia.
  - injection H as <- <- <-. simpl. lia.
  - rewrite Z.eqb_sym in H. destruct (tl =? mq_tail q) eqn:He; injection H as <- <- <-; simpl; rewrite He.
    + apply Z.eqb_eq in He. subst tl. rewrite (swing_lag nx lag' F D'). lia.
    + rewrite (dist_unique _ _ _ _ D D'). lia.
Qed.

Lemma pop_decreases p evs q' pc lag' r : th_pc th = PcPop p ->
  pop_step t q p false = Ret (evs, q', pc) -> dist q' (mq_tail q') lag' ->
  (pc_work q' lag' r pc < pc_work q lag r (PcPop p))%nat.
Proof using D E I.
  intros Hp H D'. pose proof (tk_fact _ _ _ _ (own_ok n q ths rest vals I t th E)) as F.
  unfold pc_fact in F. rewrite Hp in F.
  destruct p as [|h|h tl|h tl nx|tl nx|h nx|h nx|h nx x|h x]; simpl in H.
  - injection H as <- <- <-. rewrite (dist_unique _ _ _ _ D D'). simpl. rewrite Z.eqb_refl. lia.
  - injection H as <- <- <-. rewrite (dist_unique _ _ _ _ D D'). simpl. rewrite Z.eqb_refl, andb_true_r.
    destruct (h =? mq_head q); lia.
  - apply bind_ret_inv in H as (nd & _ & H). injection H as <- <- <-. rewrite (dist_unique _ _ _ _ D D'). simpl.
    destruct (_ && _); lia.
  - destruct (h =? mq_head q) eqn:Hh; simpl in H.
    + destruct nx as [nx|]; [destruct (h =? tl) eqn:Ht|]; injection H as <- <- <-;
        rewrite (dist_unique _ _ _ _ D D'); simpl; unfold exchange_work; rewrite ?Hh; simpl; destruct (tl =? mq_tail q); lia.
    + injection H as <- <- <-. rewrite (dist_unique _ _ _ _ D D'). simpl. rewrite Hh. simpl. lia.
  - rewrite Z.eqb_sym in H. destruct (tl =? mq_tail q) eqn:He; injection H as <- <- <-; simpl; rewrite He.
    + apply Z.eqb_eq in He. subst tl. rewrite (swing_lag nx lag' F D'). unfold exchange_work, slot_count. simpl. lia.
    + rewrite (dist_unique _ _ _ _ D D'). lia.
  - rewrite Z.eqb_sym in H. destruct (h =? mq_head q) eqn:He; injection H as <- <- <-; simpl; rewrite He;
      unfold exchange_work, slot_count; simpl; [lia|]. rewrite (dist_unique _ _ _ _ D D'). lia.
  - apply bind_ret_inv in H as (nd & _ & H). injection H as <- <- <-. simpl. unfold slot_count. lia.
  - apply bind_ret_inv in H as (nd & _ & H). injection H as <- <- <-. simpl. unfold slot_count. simpl. lia.
  - injection H as <- <- <-. simpl. unfold reclaim_work, slot_count. simpl. lia.
Qed.

Lemma next_work (q' : MpmcQueue T) l r k : pc_work q' l r (reclaim_next k) = end_work k.
Proof using Type. by destruct k. Qed.

Lemma reclaim_decreases i p k evs q' pc lag' : th_pc th = PcReclaim p k -> th_token th = Some i ->
  reclaim_step q i p k = Ret (evs, q', pc) ->
  (work q' lag' (mkThread (th_token th) pc) < work q lag th)%nat.
Proof using E I.
  intros Hp Hi H. pose proof (tk_fact _ _ _ _ (own_ok n q ths rest vals I t th E)) as F.
  unfold pc_fact in F. rewrite Hp in F. unfold work. rewrite Hp. cbn [th_pc].
  destruct (own_slot n q ths rest vals I t th E) as (i' & s & Hi' & Hs & _ & _ & _ & Hso); [by rewrite Hp|].
  assert (i' = i) as -> by congruence.
  assert (Hret : (forall f m kept todo, p <> Collect f m kept todo) -> retired_of q th = sl_retired s).
  { intros Hc. apply retired_slot; [|done]. intros f m kept todo k'. rewrite Hp. intros Hx. injection Hx as Hx _. by apply (Hc f m kept todo). }
  assert (Hsame : forall pc1, (forall f m kept todo k, pc1 <> PcReclaim (Collect f m kept todo) k) ->
    retired_of q (mkThread (th_token th) pc1) = sl_retired s).
  { intros pc1 Hc. rewrite retired_of_pc by done. by rewrite Hso. }
  destruct p as [h|h e| | |j m|j m|j m|f m kept todo]; cbn [reclaim_step] in H.
  - injection H as <- <- <-. rewrite Hsame, Hret by done. simpl. unfold reclaim_work. lia.
  - rewrite Hs in H. cbn [deref] in H. rewrite bind_ret in H. apply bind_ret_inv in H as (q1 & H1 & H).
    apply on_slot_inv in H1 as (s1 & Hs1 & ->). assert (s1 = s) as -> by congruence.
    injection H as <- <- <-. rewrite Hret by done. rewrite Hi.
    assert (Hr : retired_of (mq_with_slots q (<[i:=with_retired (sl_retired s ++ [mkRetired h e]) s]> (mq_slots q)))
      (mkThread (Some i) (PcReclaim RtBump k)) = sl_retired s ++ [mkRetired h e]).
    { unfold retired_of, slot_of. simpl. rewrite list_lookup_insert_eq by (by eapply lookup_lt_Some). done. }
    match goal with |- context [if ?b then _ else _] => destruct b end.
    + rewrite Hr. simpl. unfold reclaim_work, slot_count. simpl. rewrite length_insert, length_app. simpl. lia.
    + rewrite next_work. simpl. unfold reclaim_work. lia.
  - injection H as <- <- <-. rewrite (Hret ltac:(done)). cbn [pc_work].
    change (retired_of (mq_with_epoch q (wrap_u64 (mq_epoch q + 1))) (mkThread (th_token th) (PcReclaim ScGlobal k)))
      with (retired_of q (mkThread (th_token th) (PcReclaim ScGlobal k))). rewrite Hsame by done.
    unfold reclaim_work, slot_count. simpl. lia.
  - injection H as <- <- <-. rewrite Hsame, Hret by done. simpl. unfold reclaim_work. lia.
  - destruct (mq_slots q !! j) as [sj|] eqn:Hj.
    + apply lookup_lt_Some in Hj. injection H as <- <- <-. destruct (sl_occupied sj);
        rewrite Hsame, Hret by done; simpl; unfold reclaim_work, slot_count; lia.
    + rewrite Hs in H. cbn [deref] in H. rewrite bind_ret in H. injection H as <- <- <-. rewrite (Hret ltac:(done)).
      unfold collect_begin. destruct (sl_retired s) as [|x l]; [rewrite next_work|]; simpl; unfold reclaim_work; simpl; lia.
  - destruct F as [_ Hj]. apply bind_ret_inv in H as (sj & _ & H). injection H as <- <- <-. destruct (sl_active sj);
      rewrite Hsame, Hret by done; simpl; unfold reclaim_work, slot_count; lia.
  - destruct F as [_ Hj]. apply bind_ret_inv in H as (sj & _ & H). injection H as <- <- <-.
    rewrite Hsame, Hret by done; simpl; unfold reclaim_work, slot_count; lia.
  - destruct todo as [|x todo]; [|destruct (f || _)].
    + apply bind_ret_inv in H as (q1 & _ & H). injection H as <- <- <-. rewrite next_work. simpl. unfold reclaim_work. lia.
    + apply bind_ret_inv in H as (q1 & _ & H). injection H as <- <- <-. simpl. unfold reclaim_work. simpl. lia.
    + injection H as <- <- <-. simpl. unfold reclaim_work. simpl. lia.
Qed.

Lemma begin_pc_work (q' : MpmcQueue T) l r op : op <> OpExit ->
  pc_work q' l r (op_begin op) = begin_work q' l r op.
Proof using Type. by destruct op. Qed.

Lemma begin_work_slots (q' : MpmcQueue T) slots l r op : length slots = length (mq_slots q') ->
  begin_work (mq_with_slots q' slots) l r op = begin_work q' l r op.
Proof using Type. intros Hl. destruct op; simpl; unfold exchange_work, slot_count; simpl; by rewrite ?Hl. Qed.

Lemma push_slots v p a evs (q' : MpmcQueue T) pc : push_step t q v p a false = Ret (evs, q', pc) ->
  mq_slots q' = mq_slots q /\ (forall f m kept todo k, pc <> PcReclaim (Collect f m kept todo) k).
Proof using Type. intros H. destruct p; simpl in H; step_cases H; by injection H as <- <- <-. Qed.

Lemma pop_slots p evs (q' : MpmcQueue T) pc : pop_step t q p false = Ret (evs, q', pc) ->
  mq_slots q' = mq_slots q /\ (forall f m kept todo k, pc <> PcReclaim (Collect f m kept todo) k).
Proof using Type. intros H. destruct p; simpl in H; step_cases H; by injection H as <- <- <-. Qed.

(** The steps around a call: registering, entering and leaving. *)
Lemma guard_decreases i f (q' : MpmcQueue T) pc lag' s :
  th_token th = Some i -> mq_slots q !! i = Some s -> sl_retired (f s) = sl_retired s ->
  on_slot q i f = Ret q' -> dist q' (mq_tail q') lag' ->
  (forall g m kept todo k, th_pc th <> PcReclaim (Collect g m kept todo) k) ->
  (forall g m kept todo k, pc <> PcReclaim (Collect g m kept todo) k) ->
  (forall l r, pc_work q' l r pc < pc_work q l r (th_pc th))%nat ->
  (work q' lag' (mkThread (Some i) pc) < work q lag th)%nat.
Proof using D.
  intros Hi Hs Hr H D' Hc1 Hc2 Hw. apply on_slot_inv in H as (s1 & Hs1 & ->).
  assert (s1 = s) as -> by congruence. pose proof (fun X Y => same_lag _ lag' X Y D') as Hl. rewrite (Hl eq_refl eq_refl). unfold work. cbn [th_pc].
  assert (slot_of q th = Some s) as Hso by (unfold slot_of; by rewrite Hi).
  rewrite (retired_slot q th s) by done.
  assert (retired_of (mq_with_slots q (<[i:=f s]> (mq_slots q))) (mkThread (Some i) pc) = sl_retired s) as ->; [|apply Hw].
  unfold retired_of, slot_of. simpl. rewrite list_lookup_insert_eq by (by eapply lookup_lt_Some). simpl. rewrite Hr.
  destruct pc as [| | | | | | |[] ?| | |]; try done. by destruct (Hc2 force_all safe_epoch kept todo k).
Qed.

Lemma acquire_decreases op p evs q' th' lag' : th_pc th = PcAcquire op p ->
  acquire_step t q (th_token th) op p = Ret (evs, q', th') -> dist q' (mq_tail q') lag' ->
  (work q' lag' th' < work q lag th)%nat.
Proof using D E I.
  intros Hp H D'. pose proof (own_ok n q ths rest vals I t th E) as K.
  pose proof (tk_fact _ _ _ _ K) as F. unfold pc_fact in F. rewrite Hp in F.
  assert (Hc : forall g m kept todo k, th_pc th <> PcReclaim (Collect g m kept todo) k) by (by rewrite Hp).
  destruct p as [index| | |e]; simpl in H.
  - destruct F as [Hop Ht]. destruct (mq_slots q !! index) as [s|] eqn:Hs; [destruct (sl_occupied s) eqn:Ho|].
    + injection H as <- <- <-. apply lookup_lt_Some in Hs. rewrite (dist_unique _ _ _ _ D D'). unfold work.
      rewrite Hp, retired_of_pc by done. rewrite (retired_no_token q th) by (by rewrite ?Hp).
      unfold slot_of. rewrite Ht. simpl. unfold slot_count. lia.
    + apply bind_ret_inv in H as (q1 & H1 & H). apply on_slot_inv in H1 as (s1 & Hs1 & ->).
      assert (s1 = s) as -> by congruence. injection H as <- <- <-. pose proof (fun X Y => same_lag _ lag' X Y D') as Hl. rewrite (Hl eq_refl eq_refl).
      unfold work. rewrite Hp, (retired_no_token q th) by (by rewrite ?Hp).
      assert (Hr : sl_retired s = []) by (by apply (mv_slots _ _ _ _ _ I index s)).
      unfold retired_of, slot_of. simpl. rewrite list_lookup_insert_eq by (by eapply lookup_lt_Some). simpl. rewrite Hr.
      rewrite begin_work_slots by apply length_insert. simpl. lia.
    + injection H as <- <- <-. unfold work. rewrite Hp. simpl. lia.
  - destruct F as [Hop Hr]. apply bind_ret_inv in H as (i & Hi & H). apply deref_ret in Hi.
    apply bind_ret_inv in H as (q1 & H1 & H). injection H as <- <- <-.
    destruct (tk_slot _ _ _ _ K i Hi) as (s & Hs & _). rewrite Hi.
    apply (guard_decreases i _ _ _ lag' s Hi Hs) with (2 := H1); try done.
    + simpl. rewrite <- Hr. apply retired_slot; [done|]. unfold slot_of. by rewrite Hi.
    + intros l r. apply on_slot_inv in H1 as (s1 & _ & ->). rewrite Hp. cbn [pc_work].
      rewrite begin_work_slots by apply length_insert. lia.
  - injection H as <- <- <-. rewrite (dist_unique _ _ _ _ D D'). unfold work. rewrite Hp, retired_of_pc by done.
    unfold retired_of. rewrite Hp. simpl. lia.
  - destruct F as [Hop _]. apply bind_ret_inv in H as (i & Hi & H). apply deref_ret in Hi.
    apply bind_ret_inv in H as (q1 & H1 & H). injection H as <- <- <-.
    destruct (tk_slot _ _ _ _ K i Hi) as (s & Hs & _). rewrite Hi.
    apply (guard_decreases i _ _ _ lag' s Hi Hs) with (2 := H1); try done.
    intros l r. apply on_slot_inv in H1 as (s1 & _ & ->). rewrite Hp. cbn [pc_work].
    rewrite begin_work_slots by apply length_insert. lia.
Qed.

Lemma alone_decreases a evs q' th' lag' : th_pc th <> PcIdle -> mq_heap q !! a = None ->
  thread_step t q th (Go (Some a) false) = Ret (evs, q', th') -> dist q' (mq_tail q') lag' ->
  (work q' lag' th' < work q lag th)%nat.
Proof using D E I.
  intros Hni Ha H D'. pose proof (own_ok n q ths rest vals I t th E) as K.
  pose proof (tk_fact _ _ _ _ K) as F. unfold pc_fact in F. simpl in H. unfold go_step in H.
  assert (Hguard : forall i f q1 pc, th_token th = Some i -> on_slot q i f = Ret q1 ->
    (forall s, sl_retired (f s) = sl_retired s) -> dist q1 (mq_tail q1) lag' ->
    (forall g m kept todo k, th_pc th <> PcReclaim (Collect g m kept todo) k) ->
    (forall g m kept todo k, pc <> PcReclaim (Collect g m kept todo) k) ->
    (forall l r, pc_work q1 l r pc < pc_work q l r (th_pc th))%nat ->
    (work q1 lag' (mkThread (th_token th) pc) < work q lag th)%nat).
  { intros i f q1 pc Hi H1 Hf D1 Hc1 Hc2 Hw. destruct (tk_slot _ _ _ _ K i Hi) as (s & Hs & _). rewrite Hi.
    by apply (guard_decreases i f q1 pc lag' s). }
  destruct (th_pc th) as [|op p|op|op e|op|v p|p|p k|r| |] eqn:Hp; [done| | | | | | | | | |].
  - by apply (acquire_decreases op p evs).
  - injection H as <- <- <-. rewrite (dist_unique _ _ _ _ D D'). unfold work. rewrite Hp, retired_of_pc by done.
    unfold retired_of. rewrite Hp. simpl. lia.
  - apply bind_ret_inv in H as (i & Hi & H). apply deref_ret in Hi. apply bind_ret_inv in H as (q1 & H1 & H).
    injection H as <- <- <-. apply (Hguard i _ q1 _ Hi H1); try done.
    intros l r. apply on_slot_inv in H1 as (s1 & _ & ->). cbn [pc_work]. rewrite begin_work_slots by apply length_insert. lia.
  - apply bind_ret_inv in H as (i & Hi & H). apply deref_ret in Hi. apply bind_ret_inv in H as (q1 & H1 & H).
    injection H as <- <- <-. apply (Hguard i _ q1 _ Hi H1); try done; [by destruct op|].
    intros l r. apply on_slot_inv in H1 as (s1 & _ & ->). rewrite begin_pc_work by done. cbn [pc_work].
    rewrite begin_work_slots by apply length_insert. lia.
  - apply bind_ret_inv in H as ([[evs1 q1] pc] & H1 & H). injection H as <- <- <-.
    destruct (push_slots v p (Some a) evs1 q1 pc H1) as [Hs Hc]. unfold work. rewrite Hp. cbn [th_pc].
    assert (retired_of q1 (mkThread (th_token th) pc) = retired_of q th) as ->.
    { rewrite retired_of_pc by done. unfold slot_of. rewrite Hs. unfold retired_of. by rewrite Hp. }
    by apply (push_decreases v p a evs1).
  - apply bind_ret_inv in H as ([[evs1 q1] pc] & H1 & H). injection H as <- <- <-.
    destruct (pop_slots p evs1 q1 pc H1) as [Hs Hc]. unfold work. rewrite Hp. cbn [th_pc].
    assert (retired_of q1 (mkThread (th_token th) pc) = retired_of q th) as ->.
    { rewrite retired_of_pc by done. unfold slot_of. rewrite Hs. unfold retired_of. by rewrite Hp. }
    by apply (pop_decreases p evs1).
  - apply bind_ret_inv in H as (i & Hi & H). apply deref_ret in Hi.
    apply bind_ret_inv in H as ([[evs1 q1] pc] & H1 & H). injection H as <- <- <-. by apply (reclaim_decreases i p k evs1).
  - apply bind_ret_inv in H as (i & Hi & H). apply deref_ret in Hi. apply bind_ret_inv in H as (q1 & H1 & H).
    injection H as <- <- <-. apply (Hguard i _ q1 _ Hi H1); try done. intros l r0. simpl. lia.
  - apply bind_ret_inv in H as (i & Hi & H). apply deref_ret in Hi. apply bind_ret_inv in H as (q1 & H1 & H).
    injection H as <- <- <-. apply (Hguard i _ q1 _ Hi H1); try done. intros l r0. simpl. lia.
  - apply bind_ret_inv in H as (i & Hi & H). apply deref_ret in Hi. apply bind_ret_inv in H as (q1 & H1 & H).
    injection H as <- <- <-. unfold work. rewrite Hp. simpl. lia.
Qed.
End Decrease.

Lemma stage_some q (pc : mpmc_pc T) : pc <> PcIdle -> exists st, stage_of q pc = Some st.
Proof. destruct pc as [| | | | |? []|[| | |? ? []| | | | |]|? []| | |]; try done; intros _; eexists; done. Qed.

Lemma advance_ends (vals : list T) t st evs : advance vals t (Some st) evs None -> exists r, evs = [EvReturn t r].
Proof. intros A. inversion A; subst; eauto. Qed.

Lemma alone_enabled (s : mpmc_state T) th : th_pc th <> PcIdle -> move_enabled (ms_queue s) th (alone_move s) = true.
Proof.
  intros Hni. unfold move_enabled, alone_move. destruct (th_pc th) as [| | | | |v []| | | | |]; try done.
  apply bool_decide_eq_true. apply not_elem_of_dom. apply is_fresh.
Qed.

Lemma pc_work_pos (q : MpmcQueue T) l r pc : pc <> PcIdle -> (0 < pc_work q l r pc)%nat.
Proof.
  destruct pc as [|op []|op|op e|op|v []|[]|[] k|x| |]; try done; intros _; simpl;
    unfold reclaim_work, exchange_work; try destruct k; simpl; repeat case_match; lia.
Qed.

Lemma run_alone_ends fuel : forall n (s : mpmc_state T) rest vals t th lag,
  mpmc_inv n (ms_queue s) (ms_threads s) rest vals -> ms_threads s !! t = Some th ->
  dist (ms_queue s) (mq_tail (ms_queue s)) lag -> (work (ms_queue s) lag th <= fuel)%nat ->
  n + Z.of_nat fuel < kMaxEpoch ->
  exists evs s' th', run_alone fuel s t = Some (Ret (evs, s')) /\ ms_threads s' !! t = Some th' /\
    th_pc th' = PcIdle /\ (th_pc th <> PcIdle -> exists r, EvReturn t r ∈ evs).
Proof.
  induction fuel as [|fuel IH]; intros n s rest vals t th lag I E D Hw Hn; cbn [run_alone].
  { exists [], s, th. split; [done|]. split; [done|]. unfold work in Hw.
    destruct (th_pc th) eqn:Hp; [done|..];
      match type of Hw with (pc_work ?q ?l ?r ?pc <= 0)%nat => pose proof (pc_work_pos q l r pc ltac:(done)); lia end. }
  rewrite E. destruct (idle th) eqn:Hid.
  { assert (Hp : th_pc th = PcIdle) by (unfold idle in Hid; by destruct (th_pc th)). by exists [], s, th. }
  assert (Hni : th_pc th <> PcIdle) by (intros Hp; unfold idle in Hid; by rewrite Hp in Hid).
  pose proof (alone_enabled s th Hni) as Hen.
  destruct (thread_preserved n (ms_queue s) (ms_threads s) rest vals t th (alone_move s) I E Hen ltac:(lia))
    as (evs & q' & th' & rest' & Hts & I'); [done|].
  unfold mpmc_step. rewrite E, Hen, Hts. cbn [mbind outcome_bind].
  destruct (dist_tail _ _ _ _ _ I') as (lag' & D' & _).
  pose proof (alone_decreases n _ _ rest vals I t th E lag D _ evs q' th' lag' Hni
    ltac:(apply not_elem_of_dom, is_fresh) Hts D') as Hd.
  destruct (IH (n + 1) (mkMpmcState q' (<[t:=th']> (ms_threads s))) rest' _ t th' lag' I') as (evs' & s' & th2 & Hr & E' & Hp & Hret).
  { by apply (lookup_self (ms_threads s) t th th' E). } { done. } { cbn [ms_queue]. lia. } { lia. }
  rewrite Hr. exists (evs ++ evs'), s', th2. split; [done|]. split; [done|]. split; [done|]. intros _.
  destruct (th_pc th') eqn:Hp'; try (destruct Hret as [x Hret]; [done|]; exists x; apply elem_of_app; by right).
  destruct (stage_some (ms_queue s) (th_pc th) Hni) as [st Hst].
  pose proof (thread_advance n _ _ rest vals I t th E (alone_move s) evs q' th' Hen Hts) as A.
  rewrite Hst, Hp' in A. destruct (advance_ends vals t st evs A) as [r ->]. exists r. left.
Qed.

(** The steps a call needs when no other thread takes one. *)
Definition alone_bound (q : MpmcQueue T) (th : MpmcThread T) : nat :=
  (8 * length (Mpmc_contents q) + 4 * length (mq_slots q) + length (retired_of q th) + 23)%nat.

Lemma work_bound n (q : MpmcQueue T) ths rest vals t th lag :
  mpmc_inv n q ths rest vals -> ths !! t = Some th -> (lag <= length (Mpmc_contents q))%nat ->
  (work q lag th <= alone_bound q th)%nat.
Proof.
  intros I E Hl. pose proof (tk_fact _ _ _ _ (mv_threads _ _ _ _ _ I t th E)) as F. unfold pc_fact in F.
  unfold work, alone_bound, retired_of. generalize dependent (length (Mpmc_contents q)). intros c Hl.
  destruct (th_pc th) as [|op []|op|op e|op|v []|[]|[] k|r| |]; cbn [pc_work]; unfold reclaim_work;
    try (destruct op); try (destruct k); simpl; unfold exchange_work, slot_count; repeat case_match; rewrite ?length_app; lia.
Qed.

(** C27. Obstruction freedom: from every state reached with threads exiting only while
    no other is inside a call and before the epoch can wrap, a thread that takes steps
    alone, with exchanges that do not fail spuriously, returns from its call, and
    within [alone_bound] steps: eight for each value in the queue, four for each slot,
    one for each node it has retired, and a constant. *)
Theorem mpmc_obstruction_free (max_threads threads : nat) (stub : Z) (k : nat) (tr : list (mpmc_event T))
    (s : mpmc_state T) (t : nat) (th : MpmcThread T) :
  mpmc_exec (mpmc_initial max_threads threads stub) k tr s -> ms_threads s !! t = Some th ->
  let bound := alone_bound (ms_queue s) th in
  Z.of_nat k + Z.of_nat bound + 1 < kMaxEpoch ->
  exists evs s' th', run_alone bound s t = Some (Ret (evs, s')) /\ ms_threads s' !! t = Some th' /\
    th_pc th' = PcIdle /\ (th_pc th <> PcIdle -> exists r, EvReturn t r ∈ evs).
Proof.
  intros X E bound Hk. destruct (exec_inv _ _ _ _ _ _ X) as [rest I]; [lia|].
  destruct (dist_tail _ _ _ _ _ I) as (lag & D & Hl). rewrite <- (contents_vals _ _ _ _ _ I) in Hl.
  apply (run_alone_ends bound _ s rest _ t th lag I E D); [|lia]. by apply (work_bound _ _ _ _ _ t th lag I).
Qed.
End MpmcProgress.


(** ** A sample *)

(** Thread 1 is in the middle of a push when thread 0 pushes alone. *)
Definition stalled_schedule : list (nat * mpmc_move Z) :=
  (1%nat, Start (OpPush 7)) :: goes 13 1 101 ++ [(0%nat, Start (OpPush 8))].

Definition stalled : list (mpmc_event Z) * mpmc_state Z :=
  match mpmc_run two_threads stalled_schedule with Some (Ret r) => r | _ => ([], two_threads) end.

Lemma stalled_exec : mpmc_exec (mpmc_initial 2 2 100) 15 stalled.1 stalled.2.
Proof.
  assert (Hr : mpmc_run two_threads stalled_schedule = Some (Ret (stalled.1, stalled.2))) by (vm_compute; reflexivity).
  assert (Hq : quiet_schedule two_threads stalled_schedule = true) by (vm_compute; reflexivity).
  exact (run_exec two_threads stalled_schedule 0 [] two_threads _ _ (exec_start two_threads) Hq Hr).
Qed.

Lemma mpmc_obstruction_free_witness :
  exists evs s', run_alone 39 stalled.2 0 = Some (Ret (evs, s')).
Proof.
  assert (Ht : ms_threads stalled.2 !! 0%nat = Some (mkThread None (PcAcquire (OpPush 8) (AcqExchange 0)))) by (vm_compute; reflexivity).
  assert (Hb : alone_bound (ms_queue stalled.2) (mkThread None (PcAcquire (OpPush 8) (AcqExchange 0))) = 39%nat) by (vm_compute; reflexivity).
  pose proof (mpmc_obstruction_free 2 2 100 15 _ _ 0 _ stalled_exec Ht) as H. cbv zeta in H. rewrite Hb in H.
  destruct H as (evs & s' & th' & Hr & _); [unfold kMaxEpoch, two64; lia|]. by exists evs, s'.
Defined.
