(* ===== verification/MpmcSequential.v ===== *)
(** * The linked queue: one thread that calls it

    [Mpmc_call] is a whole call of a thread that nobody interrupts. The queue with
    the other threads at rest keeps the promise of [QueueFacade]: it returns what a
    FIFO list returns, drains included, as long as the calls cannot wrap the epoch. *)

From S2P Require Import Prelude Queue Mpmc MpmcProofs MpmcSteps MpmcTrace MpmcTheorems MpmcProgress.

Local Open Scope Z_scope.

(** ** Calls *)

Section Calls.
Context {T : Type}.

Definition enabled {A} (m : option (outcome A)) : outcome A := default (Undef "no such step") m.

Definition returned (evs : list (mpmc_event T)) : option (mpmc_result T) :=
  match last evs with Some (EvReturn _ r) => Some r | _ => None end.

(** The thread [t] makes the call [op] and runs until it returns. *)
Definition Mpmc_call (s : mpmc_state T) (t : nat) (op : mpmc_op T) : outcome (mpmc_result T * mpmc_state T) :=
  '(evs, s) ← enabled (mpmc_step s t (Start op));
  th ← deref (ms_threads s !! t) "no such thread";
  '(evs', s) ← enabled (run_alone (alone_bound (ms_queue s) th) s t);
  r ← deref (returned (evs ++ evs')) "the call does not return";
  Ret (r, s).

Definition Mpmc_push_impl (t : nat) (s : mpmc_state T) (value : T) : outcome (bool * mpmc_state T) :=
  '(r, s) ← Mpmc_call s t (OpPush value);
  match r with
  | RPushed => Ret (true, s)
  | RThrew what => Throw what
  | _ => Undef "not the result of a push"
  end.

Definition Mpmc_try_pop_impl (t : nat) (s : mpmc_state T) : outcome (option T * mpmc_state T) :=
  '(r, s) ← Mpmc_call s t OpPop;
  match r with
  | RPopped result => Ret (result, s)
  | RThrew what => Throw what
  | _ => Undef "not the result of a pop"
  end.

(** The queue as the thread [t] uses it. *)
Definition mpmc_ops (t : nat) : QueueOps (mpmc_state T) T := {|
  push_impl := Mpmc_push_impl t;
  try_pop_impl := Mpmc_try_pop_impl t;
  size_approx_impl s := mpmc_size_approx (ms_queue s);
  empty_impl s := mpmc_empty (ms_queue s)
|}.
End Calls.

(** ** A thread that runs alone *)

Section Alone.
Context {T : Type}.

(** The node that a pop is going to retire. *)
Definition pending_node (pc : mpmc_pc T) : nat :=
  match pc with
  | PcAcquire OpPop _ | PcEnterLoad OpPop | PcEnterEpoch OpPop _ | PcEnterActive OpPop | PcPop _
  | PcReclaim (RtLoad _ | RtPush _ _) _ => 1
  | _ => 0
  end.

Definition burden (q : MpmcQueue T) (th : MpmcThread T) : nat :=
  (length (retired_of q th) + pending_node (th_pc th))%nat.

(** The call of the thread is a push or a pop and nothing makes it throw. *)
Definition calm (q : MpmcQueue T) (th : MpmcThread T) : Prop :=
  match th_pc th with
  | PcAcquire op (AcqExchange i) =>
    op <> OpExit /\ exists j s, (i <= j)%nat /\ mq_slots q !! j = Some s /\ sl_occupied s = false
  | PcAcquire op _ | PcEnterLoad op | PcEnterEpoch op _ | PcEnterActive op => op <> OpExit /\ th_token th <> None
  | PcLeave r | PcReclaim _ (ThenLeave r) => th_token th <> None /\ forall what, r <> RThrew what
  | PcReclaim _ ThenUnregister | PcInactive | PcUnoccupied => False
  | _ => th_token th <> None
  end.

Definition silent (e : mpmc_event T) : Prop :=
  match e with EvCall _ _ | EvReturn _ (RThrew _) => False | _ => True end.

Definition stays_calm (q : MpmcQueue T) (th : MpmcThread T) (evs : list (mpmc_event T)) (q' : MpmcQueue T)
    (th' : MpmcThread T) : Prop :=
  calm q' th' /\ (burden q' th' <= burden q th)%nat /\ Forall silent evs.

Section Step.
Context (n : Z) (q : MpmcQueue T) (ths : list (MpmcThread T)) (rest : list Z) (vals : list T).
Context (I : mpmc_inv n q ths rest vals).
Context (t : nat) (th : MpmcThread T) (E : ths !! t = Some th).

(** Steps that leave the thread's retired nodes alone. *)
Lemma burden_same (q' : MpmcQueue T) pc : 
  (forall f m kept todo k, th_pc th <> PcReclaim (Collect f m kept todo) k) ->
  (forall f m kept todo k, pc <> PcReclaim (Collect f m kept todo) k) ->
  sl_retired <$> slot_of q' (mkThread (th_token th) pc) = sl_retired <$> slot_of q th ->
  (pending_node pc <= pending_node (th_pc th))%nat ->
  (burden q' (mkThread (th_token th) pc) <= burden q th)%nat.
Proof using Type.
  intros H1 H2 Hs Hp. unfold burden.
  assert (retired_of q' (mkThread (th_token th) pc) = retired_of q th) as ->; [|simpl; lia].
  assert (Hd : forall (q0 : MpmcQueue T) th0, (forall f m kept todo k, th_pc th0 <> PcReclaim (Collect f m kept todo) k) ->
    retired_of q0 th0 = default [] (sl_retired <$> slot_of q0 th0)).
  { intros q0 th0 H0. unfold retired_of. destruct (th_pc th0) as [| | | | | | |[] k| | |]; try done. by destruct (H0 force_all safe_epoch kept todo k). }
  rewrite !Hd by done. by rewrite Hs.
Qed.
(** Writes to the own slot that leave the list of retired nodes alone. *)
Lemma slot_kept i f (q' : MpmcQueue T) pc : th_token th = Some i -> (forall s, sl_retired (f s) = sl_retired s) ->
  on_slot q i f = Ret q' -> sl_retired <$> slot_of q' (mkThread (th_token th) pc) = sl_retired <$> slot_of q th.
Proof using Type.
  intros Hi Hf H. apply on_slot_inv in H as (s & Hs & ->). unfold slot_of. simpl. rewrite Hi. simpl.
  rewrite Hs, list_lookup_insert_eq by (by eapply lookup_lt_Some). simpl. by rewrite Hf.
Qed.

Lemma acquire_calm op p evs q' th' : th_pc th = PcAcquire op p ->
  acquire_step t q (th_token th) op p = Ret (evs, q', th') -> calm q th -> stays_calm q th evs q' th'.
Proof using E I.
  intros Hp H C. pose proof (tk_fact _ _ _ _ (own_ok n q ths rest vals I t th E)) as F.
  unfold pc_fact in F. unfold calm in C. rewrite Hp in F, C. destruct p as [index| | |e]; simpl in H.
  - destruct F as [_ Ht], C as (Hop & j & s & Hij & Hj & Ho). destruct (mq_slots q !! index) as [s1|] eqn:Hs1.
    2: { apply lookup_ge_None in Hs1. apply lookup_lt_Some in Hj. lia. }
    destruct (sl_occupied s1) eqn:Ho1.
    + injection H as <- <- <-. split_and!; [|apply burden_same; rewrite ?Hp; try done; by destruct op|constructor].
      split; [done|]. exists j, s. split; [|done]. assert (index <> j) by congruence. lia.
    + apply bind_ret_inv in H as (q1 & H1 & H). apply on_slot_inv in H1 as (s2 & Hs2 & ->). injection H as <- <- <-.
      assert (s2 = s1) as -> by congruence. split_and!; [split; [done|discriminate]| |constructor]. unfold burden.
      assert (retired_of (mq_with_slots q (<[index:=with_occupied true s1]> (mq_slots q))) (mkThread (Some index) (PcAcquire op AcqClear)) = []) as ->.
      { unfold retired_of, slot_of. simpl. rewrite list_lookup_insert_eq by (by eapply lookup_lt_Some). simpl.
        by apply (mv_slots _ _ _ _ _ I index). }
      rewrite Hp. simpl. destruct op; lia.
  - apply bind_ret_inv in H as (i & Hi & H). apply deref_ret in Hi. apply bind_ret_inv in H as (q1 & H1 & H).
    injection H as <- <- <-. split_and!; [done| |constructor]. destruct F as [_ Hr].
    apply on_slot_inv in H1 as (s1 & Hs1 & ->). unfold burden.
    assert (retired_of (mq_with_slots q (<[i:=with_retired [] s1]> (mq_slots q))) (mkThread (th_token th) (PcAcquire op AcqLoad)) = []) as ->.
    { unfold retired_of, slot_of. simpl. rewrite Hi. simpl. by rewrite list_lookup_insert_eq by (by eapply lookup_lt_Some). }
    rewrite Hp. simpl. destruct op; lia.
  - injection H as <- <- <-. split_and!; [done|apply burden_same; rewrite ?Hp; try done; by destruct op|constructor].
  - apply bind_ret_inv in H as (i & Hi & H). apply deref_ret in Hi. apply bind_ret_inv in H as (q1 & H1 & H).
    injection H as <- <- <-. split_and!; [done| |constructor].
    apply burden_same; rewrite ?Hp; try done. by eapply slot_kept; [exact Hi| |exact H1].
Qed.

Lemma push_calm v p a evs q' pc : th_pc th = PcPush v p -> push_step t q v p (Some a) false = Ret (evs, q', pc) ->
  calm q th -> stays_calm q th evs q' (mkThread (th_token th) pc).
Proof using Type.
  intros Hp H C. unfold calm in C. rewrite Hp in C. destruct (push_slots q t v p (Some a) evs q' pc H) as [Hs Hc].
  assert (Hb : (pending_node pc <= 0)%nat -> (burden q' (mkThread (th_token th) pc) <= burden q th)%nat).
  { intros Hn. apply burden_same; rewrite ?Hp; try done. unfold slot_of. by rewrite Hs. }
  destruct p; simpl in H; step_cases H; injection H as <- <- <-; (split_and!; [|apply Hb; simpl; lia|repeat constructor]);
    done.
Qed.

Lemma pop_calm p evs q' pc : th_pc th = PcPop p -> pop_step t q p false = Ret (evs, q', pc) ->
  calm q th -> stays_calm q th evs q' (mkThread (th_token th) pc).
Proof using Type.
  intros Hp H C. unfold calm in C. rewrite Hp in C. destruct (pop_slots q t p evs q' pc H) as [Hs Hc].
  assert (Hb : (burden q' (mkThread (th_token th) pc) <= burden q th)%nat).
  { apply burden_same; rewrite ?Hp; try done; [by unfold slot_of; rewrite Hs|].
    destruct pc as [|[] ?|[]|[] ?|[]|? ?|?|[] ?|?| |]; simpl; lia. }
  destruct p; simpl in H; step_cases H; injection H as <- <- <-; (split_and!; [|apply Hb|repeat constructor]); done.
Qed.
(** While it retires a node and collects, the list grows by that node only. *)
Lemma reclaim_calm i p k evs q' pc : th_pc th = PcReclaim p k -> th_token th = Some i ->
  reclaim_step q i p k = Ret (evs, q', pc) -> calm q th -> stays_calm q th evs q' (mkThread (th_token th) pc).
Proof using E I.
  intros Hp Hi H C. unfold calm in C. rewrite Hp in C. destruct k as [r|]; [|done]. destruct C as [Ht Hr].
  destruct (own_slot n q ths rest vals I t th E) as (i' & s & Hi' & Hs & _ & _ & _ & Hso); [by rewrite Hp|].
  assert (i' = i) as -> by congruence.
  assert (Hpc : forall p', calm q' (mkThread (th_token th) (PcReclaim p' (ThenLeave r)))) by done.
  destruct p as [h|h e| | |j m|j m|j m|f m kept todo]; cbn [reclaim_step] in H.
  - injection H as <- <- <-. split_and!; [done|by apply burden_same; rewrite ?Hp|constructor].
  - rewrite Hs in H. cbn [deref] in H. rewrite bind_ret in H. apply bind_ret_inv in H as (q1 & H1 & H).
    apply on_slot_inv in H1 as (s1 & Hs1 & ->). assert (s1 = s) as -> by congruence. injection H as <- <- <-.
    split_and!; [by case_match| |constructor].
    assert (Hb : forall pc', (forall f m kept todo k, pc' <> PcReclaim (Collect f m kept todo) k) -> pending_node pc' = 0%nat ->
      (burden (mq_with_slots q (<[i:=with_retired (sl_retired s ++ [mkRetired h e]) s]> (mq_slots q))) (mkThread (th_token th) pc')
        <= burden q th)%nat).
    { intros pc' Hc Hn. unfold burden. rewrite (retired_slot q th s) by (by rewrite ?Hp).
      rewrite (retired_slot _ _ (with_retired (sl_retired s ++ [mkRetired h e]) s)), Hp; [|done|].
      - simpl. rewrite Hn, length_app. simpl. lia.
      - unfold slot_of. simpl. rewrite Hi. simpl. by rewrite list_lookup_insert_eq by (by eapply lookup_lt_Some). }
    case_match; by apply Hb.
  - injection H as <- <- <-. split_and!; [done|by apply burden_same; rewrite ?Hp|constructor].
  - injection H as <- <- <-. split_and!; [done|by apply burden_same; rewrite ?Hp|constructor].
  - destruct (mq_slots q !! j) as [sj|]; [injection H as <- <- <-; split_and!; [done| |constructor]|].
    { apply burden_same; rewrite ?Hp; try done; by destruct (sl_occupied sj). }
    rewrite Hs in H. cbn [deref] in H. rewrite bind_ret in H. injection H as <- <- <-.
    split_and!; [unfold collect_begin; by case_match| |constructor].
    unfold burden. rewrite (retired_slot q th s) by (by rewrite ?Hp). rewrite Hp. unfold collect_begin.
    destruct (sl_retired s) eqn:Hrs; [|simpl; lia].
    rewrite (retired_slot _ _ s), Hrs; [simpl; lia|done|]. unfold slot_of. simpl. by rewrite Hi.
  - apply bind_ret_inv in H as (sj & _ & H). injection H as <- <- <-. split_and!; [done| |constructor].
    apply burden_same; rewrite ?Hp; try done; by destruct (sl_active sj).
  - apply bind_ret_inv in H as (sj & _ & H). injection H as <- <- <-.
    split_and!; [done|by apply burden_same; rewrite ?Hp|constructor].
  - assert (Hb : burden q th = (length kept + length todo)%nat).
    { unfold burden, retired_of. rewrite Hp. simpl. rewrite length_app. lia. }
    unfold stays_calm. rewrite Hb. destruct todo as [|x todo]; [|destruct (f || _)].
    + apply bind_ret_inv in H as (q1 & H1 & H). apply on_slot_inv in H1 as (s1 & Hs1 & ->). injection H as <- <- <-.
      split_and!; [done| |constructor]. unfold burden. rewrite (retired_slot _ _ (with_retired kept s1)); [simpl; lia|done|].
      unfold slot_of. simpl. rewrite Hi. simpl. by rewrite list_lookup_insert_eq by (by eapply lookup_lt_Some).
    + apply bind_ret_inv in H as (q1 & _ & H). injection H as <- <- <-.
      split_and!; [done| |constructor]. unfold burden, retired_of. simpl. rewrite length_app. lia.
    + injection H as <- <- <-. split_and!; [done| |constructor]. unfold burden, retired_of. simpl. rewrite !length_app. simpl. lia.
Qed.

Lemma alone_calm a evs q' th' : thread_step t q th (Go (Some a) false) = Ret (evs, q', th') -> calm q th ->
  th_pc th <> PcIdle -> stays_calm q th evs q' th'.
Proof using E I.
  intros H C Hni. simpl in H. unfold go_step in H.
  assert (Hguard : forall i f q1 pc evs1, th_token th = Some i -> on_slot q i f = Ret q1 ->
    (forall s, sl_retired (f s) = sl_retired s) -> calm q1 (mkThread (th_token th) pc) -> Forall silent evs1 ->
    (forall f m kept todo k, th_pc th <> PcReclaim (Collect f m kept todo) k) ->
    (forall f m kept todo k, pc <> PcReclaim (Collect f m kept todo) k) ->
    (pending_node pc <= pending_node (th_pc th))%nat -> stays_calm q th evs1 q1 (mkThread (th_token th) pc)).
  { intros i f q1 pc evs1 Hi H1 Hf HC He Hc1 Hc2 Hn. split_and!; [done| |done]. apply burden_same; [done..|by eapply slot_kept|done]. }
  destruct (th_pc th) as [|op p|op|op e|op|v p|p|p k|r| |] eqn:Hp; unfold calm in C; rewrite Hp in C; try done.
  - apply (acquire_calm op p); [done|done|]. unfold calm. by rewrite Hp.
  - injection H as <- <- <-. split_and!; [done| |constructor]. apply burden_same; rewrite ?Hp; try done; by destruct op.
  - apply bind_ret_inv in H as (i & Hi & H). apply deref_ret in Hi. apply bind_ret_inv in H as (q1 & H1 & H).
    injection H as <- <- <-. apply (Hguard i _ q1 _ _ Hi H1); try done; by destruct op.
  - apply bind_ret_inv in H as (i & Hi & H). apply deref_ret in Hi. apply bind_ret_inv in H as (q1 & H1 & H).
    injection H as <- <- <-. destruct C as [Hop Ht]. apply (Hguard i _ q1 _ _ Hi H1); try done; by destruct op.
  - apply bind_ret_inv in H as ([[evs1 q1] pc] & H1 & H). injection H as <- <- <-.
    apply (push_calm v p a); [done|done|]. unfold calm. by rewrite Hp.
  - apply bind_ret_inv in H as ([[evs1 q1] pc] & H1 & H). injection H as <- <- <-.
    apply (pop_calm p); [done|done|]. unfold calm. by rewrite Hp.
  - apply bind_ret_inv in H as (i & Hi & H). apply deref_ret in Hi. apply bind_ret_inv in H as ([[evs1 q1] pc] & H1 & H).
    injection H as <- <- <-. apply (reclaim_calm i p k); [done|done|done|]. unfold calm. by rewrite Hp.
  - apply bind_ret_inv in H as (i & Hi & H). apply deref_ret in Hi. apply bind_ret_inv in H as (q1 & H1 & H).
    injection H as <- <- <-. destruct C as [Ht Hr]. apply (Hguard i _ q1 _ _ Hi H1); try done.
    repeat constructor. destruct r; try done. by destruct (Hr what).
Qed.
End Step.

(** ** Whole calls *)

(** The events of one thread change the list through its own exchanges. *)
Lemma fifo_own t (l : list (mpmc_event T)) : forall vals, Forall (fun e => event_thread e = t) l ->
  fold_left fifo_event l vals = fold_left fifo_event (own_acts t l) vals.
Proof.
  induction l as [|e l IH]; intros vals H; [done|]. apply Forall_cons in H as [He H].
  destruct e; simpl in *; subst; rewrite ?Nat.eqb_refl; by apply IH.
Qed.

Lemma linearized_alone t op (mid : list (mpmc_event T)) (tr : list (mpmc_event T)) r :
  Forall (fun e => event_thread e = t) mid -> (forall what, r <> RThrew what) -> op <> OpExit ->
  linearized t tr op mid r ->
  match op with
  | OpPush v => r = RPushed /\ fifo (tr ++ EvCall t op :: mid) = fifo tr ++ [v]
  | _ => r = RPopped (head (fifo tr)) /\ fifo (tr ++ EvCall t op :: mid) = tail (fifo tr)
  end.
Proof.
  intros Hall Hr Hop L. unfold fifo in *. rewrite fold_left_app. simpl. rewrite (fifo_own t) by done.
  destruct op as [v| |], r as [|[x|]| |what]; try done; try (by destruct (Hr what)); simpl in L; unfold fifo in L.
  - by rewrite L.
  - destruct L as (m1 & m2 & l & -> & H1 & H2 & H3). rewrite fold_left_app in H3. simpl in H3.
    apply Forall_app in Hall as [Hm1 Hm2]. rewrite (fifo_own t), H1 in H3 by done. simpl in H3. rewrite H3.
    unfold own_acts in *. rewrite List.filter_app, H1. simpl. rewrite Nat.eqb_refl, H2. done.
  - destruct L as (Ho & m1 & m2 & -> & H3). rewrite fold_left_app in H3. simpl in H3.
    apply Forall_app in Hall as [Hm1 Hm2]. unfold own_acts in *. rewrite List.filter_app in Ho. apply app_eq_nil in Ho as [H1 H2].
    rewrite (fifo_own t) in H3 by done. unfold own_acts in H3. rewrite H1 in H3. simpl in H3. rewrite H3.
    rewrite List.filter_app, H1, H2. done.
Qed.

Section Sequence.
Context (max_threads threads : nat) (stub : Z) (t : nat).

Abbreviation runs := (mpmc_exec (mpmc_initial (T := T) max_threads threads stub)).

Lemma run_alone_traced fuel : forall k tr s evs s' th,
  runs k tr s -> Z.of_nat (k + fuel) + 1 < kMaxEpoch -> ms_threads s !! t = Some th -> calm (ms_queue s) th ->
  run_alone fuel s t = Some (Ret (evs, s')) ->
  exists k' th', runs k' (tr ++ evs) s' /\ (k' <= k + fuel)%nat /\ ms_threads s' = <[t := th']> (ms_threads s) /\
    stays_calm (ms_queue s) th evs (ms_queue s') th' /\ Forall (fun e => event_thread e = t) evs /\
    (th_pc th <> PcIdle -> th_pc th' = PcIdle -> exists mid r, evs = mid ++ [EvReturn t r]).
Proof.
  induction fuel as [|fuel IH]; intros k tr s evs s' th X Hk E C H; cbn [run_alone] in H.
  { injection H as <- <-. exists k, th. rewrite app_nil_r, list_insert_id by done. split_and!; first [done|lia|constructor]. }
  rewrite E in H. destruct (idle th) eqn:Hid.
  { injection H as <- <-. exists k, th. rewrite app_nil_r, list_insert_id by done. assert (Hp : th_pc th = PcIdle) by (unfold idle in Hid; by destruct (th_pc th)).
    split_and!; first [done|lia|constructor]. }
  assert (Hni : th_pc th <> PcIdle) by (intros Hp; unfold idle in Hid; by rewrite Hp in Hid).
  destruct (exec_inv _ _ _ _ _ _ X) as [rest I]; [lia|].
  assert (Hq : quiet_exit s t (alone_move s)) by done.
  destruct (mpmc_step s t (alone_move s)) as [r|] eqn:Hs; [|done].
  destruct (step_defined s _ rest _ t _ r I ltac:(lia) Hq Hs) as (th0 & evs1 & q1 & th1 & rest1 & E0 & Hen & Hts & -> & I1).
  assert (th0 = th) as -> by congruence.
  pose proof (alone_calm _ _ _ _ _ I t th E _ _ _ _ Hts C Hni) as (C1 & Hb1 & Hs1).
  pose proof (thread_advance _ _ _ _ _ I t th E _ evs1 q1 th1 Hen Hts) as A.
  pose proof (advance_thread _ _ _ _ _ A) as Ht1.
  pose proof (exec_step _ _ _ _ _ _ _ _ X Hq Hs) as X1. set (s1 := mkMpmcState q1 (<[t:=th1]> (ms_threads s))) in *.
  assert (E1 : ms_threads s1 !! t = Some th1) by (by apply (lookup_self (ms_threads s) t th th1 E)).
  destruct (run_alone fuel s1 t) as [[[evs2 s2]| |]|] eqn:Hr; try done. injection H as <- <-.
  destruct (IH (S k) _ s1 evs2 s2 th1 X1 ltac:(lia) E1 C1 Hr) as (k' & th' & X' & Hk' & Hth & (C' & Hb' & Hs') & Ht' & Hend).
  exists k', th'. rewrite app_assoc. split; [done|]. split; [lia|].
  split; [rewrite Hth; apply list_insert_insert_eq|]. split.
  { split_and!; [done| |by apply Forall_app]. unfold s1 in Hb'. simpl in Hb'. lia. }
  split; [by apply Forall_app|]. intros _ Hp'.
  assert (Hd : th_pc th1 = PcIdle \/ th_pc th1 <> PcIdle) by (destruct (th_pc th1); auto).
  destruct Hd as [Hp1|Hp1].
  - destruct (stage_some (ms_queue s) (th_pc th) Hni) as [st Hst]. rewrite Hst, Hp1 in A.
    destruct (advance_ends _ t st evs1 A) as [r ->]. exists [], r. simpl. f_equal.
    assert (Hi1 : idle th1 = true) by (unfold idle; by rewrite Hp1).
    destruct fuel as [|fuel]; cbn [run_alone] in Hr; [by injection Hr as <- <-|].
    rewrite E1, Hi1 in Hr. by injection Hr as <- <-.
  - destruct (Hend Hp1 Hp') as (mid & r & ->). exists (evs1 ++ mid), r. by rewrite app_assoc.
Qed.

(** A thread that has a token, or that finds a free slot. *)
Definition admitted_thread (s : mpmc_state T) (th : MpmcThread T) : Prop :=
  th_token th <> None \/ exists j sl, mq_slots (ms_queue s) !! j = Some sl /\ sl_occupied sl = false.

Lemma start_alone (s : mpmc_state T) th op : ms_threads s !! t = Some th -> th_pc th = PcIdle -> op <> OpExit ->
  admitted_thread s th ->
  exists th1, mpmc_step s t (Start op) = Some (Ret ([EvCall t op], mkMpmcState (ms_queue s) (<[t := th1]> (ms_threads s)))) /\
    calm (ms_queue s) th1 /\ th_pc th1 <> PcIdle /\ retired_of (ms_queue s) th1 = retired_of (ms_queue s) th /\
    (pending_node (th_pc th1) <= 1)%nat.
Proof using Type.
  intros E Hp Hop Ha. destruct s as [q ths], th as [tk pc]. simpl in *. subst pc.
  unfold mpmc_step. simpl. rewrite E. simpl. unfold start_step. simpl. destruct tk as [i|].
  - exists (mkThread (Some i) (PcEnterLoad op)). destruct op; try done; (split_and!; try done; simpl; lia).
  - exists (mkThread None (PcAcquire op (AcqExchange 0))). destruct Ha as [|(j & sl & Hj & Ho)]; [done|].
    assert (Hc : calm q (mkThread None (PcAcquire op (AcqExchange 0)))).
    { split; [done|]. exists j, sl. split; [lia|done]. }
    destruct op; try done; (split_and!; try done; simpl; lia).
Qed.

(** The steps of one call, the start included. *)
Definition call_steps (q : MpmcQueue T) (th : MpmcThread T) : nat := S (alone_bound q th).

Lemma call_alone k tr s th op : runs k tr s -> ms_threads s !! t = Some th -> th_pc th = PcIdle -> op <> OpExit ->
  admitted_thread s th -> Z.of_nat (k + call_steps (ms_queue s) th) + 1 < kMaxEpoch ->
  exists r s' k' tr' th', Mpmc_call s t op = Ret (r, s') /\ runs k' tr' s' /\
    (k' <= k + call_steps (ms_queue s) th)%nat /\ ms_threads s' = <[t := th']> (ms_threads s) /\
    th_pc th' = PcIdle /\ th_token th' <> None /\
    (length (retired_of (ms_queue s') th') <= S (length (retired_of (ms_queue s) th)))%nat /\
    match op with
    | OpPush v => r = RPushed /\ fifo tr' = fifo tr ++ [v]
    | _ => r = RPopped (head (fifo tr)) /\ fifo tr' = tail (fifo tr)
    end.
Proof using Type.
  intros X E Hp Hop Ha Hk. unfold call_steps in *.
  destruct (start_alone s th op E Hp Hop Ha) as (th1 & Hs & C1 & Hni & Hr1 & Hb1).
  set (s1 := mkMpmcState (ms_queue s) (<[t:=th1]> (ms_threads s))) in *.
  assert (Hq : quiet_exit s t (Start op)) by (intros H; injection H as ->; done).
  pose proof (exec_step _ _ _ _ _ _ _ _ X Hq Hs) as X1.
  assert (E1 : ms_threads s1 !! t = Some th1) by (by apply (lookup_self (ms_threads s) t th th1 E)).
  assert (Hbd : alone_bound (ms_queue s1) th1 = alone_bound (ms_queue s) th) by (unfold alone_bound; simpl; by rewrite Hr1).
  destruct (exec_inv _ _ _ _ _ _ X1) as [rest1 I1]; [lia|].
  destruct (dist_tail _ _ _ _ _ I1) as (lag & D & Hl). rewrite <- (contents_vals _ _ _ _ _ I1) in Hl.
  destruct (run_alone_ends (alone_bound (ms_queue s1) th1) _ s1 rest1 _ t th1 lag I1 E1 D) as (evs & s' & th' & Hr & E' & Hp' & _).
  { by apply (work_bound _ _ _ _ _ t th1 lag I1). } { rewrite Hbd. lia. }
  assert (Hk1 : Z.of_nat (S k + alone_bound (ms_queue s1) th1) + 1 < kMaxEpoch) by (rewrite Hbd; lia).
  destruct (run_alone_traced _ _ _ s1 evs s' th1 X1 Hk1 E1 C1 Hr)
    as (k' & th2 & X' & Hk' & Hth & (C' & Hb' & Hsil) & Hall & Hend).
  assert (th2 = th') as -> by (rewrite Hth, list_lookup_insert_eq in E' by (by eapply lookup_lt_Some); congruence).
  destruct (Hend Hni Hp') as (mid & r & ->). apply Forall_app in Hall as [Hmid _].
  apply Forall_app in Hsil as [Hsil Hrs]. apply Forall_inv in Hrs.
  exists r, s', k', ((tr ++ [EvCall t op]) ++ mid ++ [EvReturn t r]), th'. split_and!; try done.
  - unfold Mpmc_call. rewrite Hs. unfold enabled. cbn [from_option id]. rewrite bind_ret, E1. cbn [deref]. rewrite bind_ret, Hr.
    cbn [from_option id]. rewrite bind_ret. unfold returned. change ([EvCall t op] ++ mid ++ [EvReturn t r]) with ((EvCall t op :: mid) ++ [EvReturn t r]).
    by rewrite last_snoc.
  - lia.
  - rewrite Hth. apply list_insert_insert_eq.
  - unfold calm in C'. by rewrite Hp' in C'.
  - unfold burden in Hb'. change (ms_queue s1) with (ms_queue s) in Hb'. rewrite Hr1 in Hb'. lia.
  - destruct (exec_staged _ _ _ _ _ _ X') as [_ L]; [lia|].
    specialize (L t op r tr mid []). rewrite <- app_assoc in L. specialize (L eq_refl).
    assert (Hc : List.filter (calls t) mid = []).
    { clear -Hsil. induction mid as [|e mid IH]; [done|]. apply Forall_cons in Hsil as [He Hsil].
      simpl. rewrite IH by done. by destruct e. }
    pose proof (linearized_alone t op mid tr r Hmid ltac:(intros what ->; done) Hop (L Hc)) as R.
    assert (Hf : fifo ((tr ++ [EvCall t op]) ++ mid ++ [EvReturn t r]) = fifo (tr ++ EvCall t op :: mid)).
    { rewrite app_assoc, fifo_snoc, <- app_assoc. done. }
    by rewrite Hf.
Qed.

(** ** The promise of the facade *)

(** The steps of [n] calls on a queue that holds [len] values, by a thread that has
    retired [retired] nodes: each call adds at most a value or a retired node. *)
Definition steps_of_calls (n len retired : nat) : nat := n * (9 * n + 8 * len + retired + 4 * max_threads + 24).

Definition solo (n : nat) (s : mpmc_state T) (l : list T) : Prop :=
  exists k tr th, runs k tr s /\ all_idle s /\ ms_threads s !! t = Some th /\ admitted_thread s th /\ fifo tr = l /\
    Z.of_nat (k + steps_of_calls n (length l) (length (retired_of (ms_queue s) th))) + 1 < kMaxEpoch.

Lemma steps_of_calls_more n len len' retired retired' : (len' <= S len)%nat -> (retired' <= S retired)%nat ->
  (steps_of_calls n len' retired' + (8 * len + 4 * max_threads + retired + 24) <= steps_of_calls (S n) len retired)%nat.
Proof using Type. unfold steps_of_calls. nia. Qed.

Lemma solo_call n s l op : solo (S n) s l -> op <> OpExit ->
  exists r s' l', Mpmc_call s t op = Ret (r, s') /\ solo n s' l' /\
    match op with
    | OpPush v => r = RPushed /\ l' = l ++ [v]
    | _ => r = RPopped (head l) /\ l' = tail l
    end.
Proof using Type.
  intros (k & tr & th & X & Hid & E & Ha & <- & Hk) Hop.
  destruct (exec_inv _ _ _ _ _ _ X) as [rest I]; [lia|].
  destruct (exec_count _ _ _ _ _ _ X) as (_ & _ & _ & _ & Hsl & _); [lia|].
  assert (Hcs : call_steps (ms_queue s) th =
    (8 * length (fifo tr) + 4 * max_threads + length (retired_of (ms_queue s) th) + 24)%nat).
  { unfold call_steps, alone_bound. rewrite (contents_vals _ _ _ _ _ I), Hsl. lia. }
  assert (Hone : (call_steps (ms_queue s) th <= steps_of_calls (S n) (length (fifo tr)) (length (retired_of (ms_queue s) th)))%nat).
  { rewrite Hcs. unfold steps_of_calls. nia. }
  destruct (call_alone k tr s th op X E (Hid t th E) Hop Ha ltac:(lia))
    as (r & s' & k' & tr' & th' & Hc & X' & Hk' & Hth & Hp' & Htk & Hret & Hres).
  exists r, s', (fifo tr'). split; [done|]. split.
  - exists k', tr', th'. assert (E' : ms_threads s' !! t = Some th') by (rewrite Hth; by apply (lookup_self (ms_threads s) t th th' E)).
    split_and!; try done; [|by left|].
    + intros t2 th2 E2. rewrite Hth in E2.
      destruct (lookup_threads (ms_threads s) t th th' E t2 th2 E2) as [[-> ->]|[_ E2']]; [done|by apply (Hid t2)].
    + assert (Hlen : (length (fifo tr') <= S (length (fifo tr)))%nat).
      { destruct op as [v| |], Hres as [_ ->]; rewrite ?length_app; simpl; [lia| |]; destruct (fifo tr); simpl; lia. }
      pose proof (steps_of_calls_more n _ _ _ _ Hlen Hret). lia.
  - done.
Qed.

#[refine] Instance mpmc_metered : @MeteredQueueLaws (mpmc_state T) T (mpmc_ops t) := {
  metered := solo;
  metered_room _ := two64
}.
Proof.
  - intros n s l v R _. destruct (solo_call n s l (OpPush v) R) as (r & s' & l' & Hc & R' & -> & ->); [done|].
    exists s'. split; [|done]. simpl. unfold Mpmc_push_impl. rewrite Hc. by rewrite bind_ret.
  - intros n s l v (k & tr & th & X & _ & _ & _ & <- & Hk) Hl.
    destruct (exec_count _ _ _ _ _ _ X) as (_ & _ & _ & Hlen & _); [lia|]. unfold kMaxEpoch in Hk. lia.
  - intros n s l R. destruct (solo_call n s l OpPop R) as (r & s' & l' & Hc & R' & -> & ->); [done|].
    exists s'. split; [|done]. simpl. unfold Mpmc_try_pop_impl. rewrite Hc. by rewrite bind_ret.
  - intros n s l (k & tr & th & X & Hid & _ & _ & <- & Hk). destruct (exec_inv _ _ _ _ _ _ X) as [rest I]; [lia|].
    rewrite <- (contents_vals _ _ _ _ _ I). apply (mpmc_size_at_rest _ _ _ k tr s X); [lia|done].
  - intros n s l (k & tr & th & X & Hid & _ & _ & <- & Hk). destruct (exec_inv _ _ _ _ _ _ X) as [rest I]; [lia|].
    rewrite <- (contents_vals _ _ _ _ _ I). destruct (mpmc_size_at_rest _ _ _ k tr s X) as [_ He]; [lia|done|].
    apply eq_true_iff_eq. by rewrite bool_decide_eq_true.
  - intros n m s l (k & tr & th & X & Hid & E & Ha & Hf & Hk) Hm. exists k, tr, th. split_and!; try done.
    unfold steps_of_calls in *. nia.
Defined.
End Sequence.
End Alone.

(** ** Properties *)

(** C28. The linked queue behind [QueueFacade]: from any reachable state in which all
    threads are at rest, whatever happened before, any sequence of pushes, pops, size
    queries and drains of one thread returns exactly what an unbounded FIFO list
    returns that starts with the contents of the queue, and leaves the queue with the
    contents of that list and at rest; every call and every drain returns. The thread
    needs a token or a free slot, and the calls must not be able to wrap the epoch. *)
Theorem mpmc_sequential_fifo {T : Type} (max_threads threads : nat) (stub : Z) (k : nat) (tr : list (mpmc_event T))
    (s : mpmc_state T) (t : nat) (th : MpmcThread T) (cs : list (queue_call T)) :
  mpmc_exec (mpmc_initial max_threads threads stub) k tr s -> all_idle s ->
  ms_threads s !! t = Some th -> admitted_thread s th ->
  let contents := Mpmc_contents (ms_queue s) in
  let calls := (length contents + 2 * length cs)%nat in
  Z.of_nat k + Z.of_nat (steps_of_calls max_threads calls (length contents) (length (retired_of (ms_queue s) th))) + 1
    < kMaxEpoch ->
  exists s', @queue_run _ _ (mpmc_ops t) s cs = Ret ((fifo_run two64 contents cs).1, s') /\
    Mpmc_contents (ms_queue s') = (fifo_run two64 contents cs).2 /\ all_idle s'.
Proof.
  intros X Hid E Ha contents calls Hk. destruct (exec_inv _ _ _ _ _ _ X) as [rest I]; [lia|].
  pose proof (contents_vals _ _ _ _ _ I) as Hc. fold contents in Hc.
  destruct (@queue_run_refines _ _ _ (mpmc_metered max_threads threads stub t) cs 0 s contents) as (s' & Hr & M).
  { exists k, tr, th. split_and!; try done. rewrite Nat2Z.inj_add. exact Hk. }
  exists s'. split; [exact Hr|]. destruct M as (k' & tr' & th' & X' & Hid' & _ & _ & Hf & Hk').
  destruct (exec_inv _ _ _ _ _ _ X') as [rest' I']; [lia|]. rewrite (contents_vals _ _ _ _ _ I'). done.
Qed.

(** After the sample run, in which two threads interleave, one of them goes on alone. *)
Definition facade_calls : list (queue_call Z) :=
  [CallPush 7; CallPush 8; CallDrain 2; CallSize; CallPop; CallPop].

Lemma mpmc_sequential_fifo_witness :
  exists s', @queue_run _ _ (mpmc_ops 0) sample_end.2 facade_calls =
    Ret ([RetPush true; RetPush true; RetDrain 2 [6; 7]; RetSize 1 false; RetPop (Some 8); RetPop None], s').
Proof.
  assert (Hc : Mpmc_contents (ms_queue sample_end.2) = [6]) by (vm_compute; reflexivity).
  assert (E : exists th, ms_threads sample_end.2 !! 0%nat = Some th /\ th_token th = Some 0%nat /\
    retired_of (ms_queue sample_end.2) th = []).
  { eexists. vm_compute. split; [reflexivity|]. split; reflexivity. }
  destruct E as (th & E & Ht & Hr).
  destruct (mpmc_sequential_fifo 2 2 100 53 _ _ 0 th facade_calls sample_exec sample_idle E) as (s' & Hs & _).
  - left. by rewrite Ht.
  - rewrite Hc, Hr. by apply Z.ltb_lt.
  - exists s'. rewrite Hs, Hc. reflexivity.
Defined.
