(* ===== verification/MpmcTokens.v ===== *)
(** * The linked queue: tokens

    [MpmcLinkedQueue::Token] and the per-thread maps of tokens: construction, moves,
    release and the lifetime of the queues they refer to. A token lives at a place: a
    variable of the program, an entry of a thread's map, or a temporary. What the
    calls on a queue do to it is a parameter of a program ([CallsOn]): they keep the
    slots that are occupied, as [MpmcTheorems] shows. *)

From S2P Require Import Prelude Mpmc MpmcProofs MpmcTheorems.

Local Open Scope Z_scope.

(** ** Data *)

(** A queue is known by its address; [None] is [nullptr]. *)
Record Token := mkToken { tk_owner : option Z; tk_slot_index : nat }.

Inductive place :=
| Named (x : nat)
| Local (thread : nat) (queue : Z)
| Temporary.

#[export] Instance place_eq_dec : EqDecision place.
Proof. solve_decision. Defined.
#[export] Instance place_countable : Countable place.
Proof.
  refine (inj_countable'
    (fun p => match p with Named x => Some (inl x) | Local t a => Some (inr (t, a)) | Temporary => None end)
    (fun o => match o with Some (inl x) => Named x | Some (inr (t, a)) => Local t a | None => Temporary end) _).
  by intros [].
Defined.

Section Tokens.
Context {T : Type}.

(** The queues that exist, and the tokens. *)
Record TokenWorld := mkWorld { wd_queues : gmap Z (MpmcQueue T); wd_tokens : gmap place Token }.

Definition with_token (w : TokenWorld) (p : place) (token : Token) : TokenWorld :=
  mkWorld (wd_queues w) (<[p := token]> (wd_tokens w)).
Definition with_queue (w : TokenWorld) (a : Z) (q : MpmcQueue T) : TokenWorld :=
  mkWorld (<[a := q]> (wd_queues w)) (wd_tokens w).
Definition token_at (w : TokenWorld) (p : place) : outcome Token := deref (wd_tokens w !! p) "no token there".

(** ** Slots *)

(** The first slot whose exchange on [occupied] succeeds. *)
Fixpoint free_slot (slots : list EpochSlot) (index : nat) : option nat :=
  match slots with
  | [] => None
  | s :: slots => if sl_occupied s then free_slot slots (S index) else Some index
  end.

Definition acquire_slot (q : MpmcQueue T) : outcome (nat * MpmcQueue T) :=
  match free_slot (mq_slots q) 0 with
  | None => Throw "MpmcLinkedQueue thread registration limit exceeded"
  | Some index =>
    q ← on_slot q index (with_occupied true);
    q ← on_slot q index (with_retired []);
    q ← on_slot q index (with_epoch (mq_epoch q));
    Ret (index, q)
  end.

(** [collect_retired(slot, true)], then the two stores. *)
Definition unregister_slot (q : MpmcQueue T) (slot : nat) : outcome (MpmcQueue T) :=
  s ← deref (mq_slots q !! slot) "slot out of range";
  q ← free_retired q (sl_retired s);
  q ← on_slot q slot (with_retired []);
  q ← on_slot q slot (with_active false);
  on_slot q slot (with_occupied false).

(** ** Members of [Token] *)

Definition Token_default (w : TokenWorld) (p : place) : TokenWorld := with_token w p (mkToken None 0).

Definition Token_release (w : TokenWorld) (p : place) : outcome TokenWorld :=
  token ← token_at w p;
  match tk_owner token with
  | None => Ret w
  | Some a =>
    q ← deref (wd_queues w !! a) "a queue that does not exist";
    q ← unregister_slot q (tk_slot_index token);
    Ret (with_token (with_queue w a q) p (mkToken None (tk_slot_index token)))
  end.

Definition Token_swap (w : TokenWorld) (p other : place) : outcome TokenWorld :=
  token ← token_at w p;
  token' ← token_at w other;
  Ret (with_token (with_token w p token') other token).

(** [Token(Token &&other)]: the members are initialised first. *)
Definition Token_move (w : TokenWorld) (p other : place) : outcome TokenWorld :=
  Token_swap (Token_default w p) p other.

Definition Token_move_assign (w : TokenWorld) (p other : place) : outcome TokenWorld :=
  if decide (p = other) then Ret w
  else
    w ← Token_release w p;
    Token_swap w p other.

Definition Token_destroy (w : TokenWorld) (p : place) : outcome TokenWorld :=
  w ← Token_release w p;
  Ret (mkWorld (wd_queues w) (delete p (wd_tokens w))).

(** [make_token]: the result is constructed at [p]. *)
Definition Mpmc_make_token (w : TokenWorld) (p : place) (a : Z) : outcome TokenWorld :=
  q ← deref (wd_queues w !! a) "a queue that does not exist";
  '(slot, q) ← acquire_slot q;
  Ret (with_token (with_queue w a q) p (mkToken (Some a) slot)).

(** [tokens.try_emplace(&queue)] *)
Definition try_emplace (w : TokenWorld) (p : place) : TokenWorld :=
  if bool_decide (wd_tokens w !! p = None) then Token_default w p else w.

(** [iterator->second = queue.make_token()]; [Some what] when it throws. *)
Definition assign_new_token (w : TokenWorld) (p : place) (a : Z) : outcome (option string * TokenWorld) :=
  match Mpmc_make_token w Temporary a with
  | Throw what => Ret (Some what, w)
  | Undef why => Undef why
  | Ret w =>
    w ← Token_move_assign w p Temporary;
    w ← Token_destroy w Temporary;
    Ret (None, w)
  end.

(** [local_token_for] of the thread [t]. *)
Definition Mpmc_local_token_for (w : TokenWorld) (t : nat) (a : Z) : outcome (option string * TokenWorld) :=
  let p := Local t a in
  let inserted := bool_decide (wd_tokens w !! p = None) in
  let w := try_emplace w p in
  token ← token_at w p;
  if inserted || bool_decide (tk_owner token = None) then assign_new_token w p a else Ret (None, w).

Fixpoint destroy_tokens (w : TokenWorld) (ps : list place) : outcome TokenWorld :=
  match ps with
  | [] => Ret w
  | p :: ps => w ← Token_destroy w p; destroy_tokens w ps
  end.

Definition local_of (t : nat) (p : place) : bool := match p with Local t' _ => (t' =? t)%nat | _ => false end.

(** The entries of the map of the thread [t]. *)
Definition local_places (w : TokenWorld) (t : nat) : list place :=
  List.filter (local_of t) (map fst (map_to_list (wd_tokens w))).

(** ** Programs *)

Inductive token_op :=
| NewQueue (a : Z) (max_threads : nat) (stub : Z)
| DestroyQueue (a : Z)
| CallsOn (a : Z) (q : MpmcQueue T)
| DefaultToken (x : nat)
| MakeToken (x : nat) (a : Z)
| MoveToken (x other : nat)
| MoveAssign (x other : nat)
| EndToken (x : nat)
| LocalToken (t : nat) (a : Z)
| EndThread (t : nat).

Definition quietly (m : outcome TokenWorld) : outcome (option string * TokenWorld) := w ← m; Ret (None, w).

(** What is left when the statement throws is the world before it. *)
Definition token_exec (w : TokenWorld) (op : token_op) : outcome (option string * TokenWorld) :=
  match op with
  | NewQueue a max_threads stub => Ret (None, with_queue w a (Mpmc_new max_threads stub))
  | DestroyQueue a => Ret (None, mkWorld (delete a (wd_queues w)) (wd_tokens w))
  | CallsOn a q => Ret (None, with_queue w a q)
  | DefaultToken x => Ret (None, Token_default w (Named x))
  | MakeToken x a =>
    match Mpmc_make_token w (Named x) a with
    | Throw what => Ret (Some what, w)
    | m => quietly m
    end
  | MoveToken x other => quietly (Token_move w (Named x) (Named other))
  | MoveAssign x other => quietly (Token_move_assign w (Named x) (Named other))
  | EndToken x => quietly (Token_destroy w (Named x))
  | LocalToken t a => Mpmc_local_token_for w t a
  | EndThread t => quietly (destroy_tokens w (local_places w t))
  end.

Fixpoint token_run (w : TokenWorld) (ops : list token_op) : outcome (list (option string) * TokenWorld) :=
  match ops with
  | [] => Ret ([], w)
  | op :: ops =>
    '(r, w) ← token_exec w op;
    '(rs, w) ← token_run w ops;
    Ret (r :: rs, w)
  end.

(** The retired nodes of a queue are allocated, and each is listed once. *)
Definition retired_sound (q : MpmcQueue T) : Prop :=
  NoDup (slot_nodes (mq_slots q)) /\ Forall (fun a => is_Some (mq_heap q !! a)) (slot_nodes (mq_slots q)).

(** What the calls on a queue promise to the tokens. *)
Definition calls_keep (q q' : MpmcQueue T) : Prop :=
  map sl_occupied (mq_slots q') = map sl_occupied (mq_slots q) /\ retired_sound q'.
#[export] Instance calls_keep_dec q q' : Decision (calls_keep q q').
Proof. unfold calls_keep, retired_sound. apply _. Defined.

Definition exists_token (w : TokenWorld) (x : nat) : bool := bool_decide (is_Some (wd_tokens w !! Named x)).
Definition exists_queue (w : TokenWorld) (a : Z) : bool := bool_decide (is_Some (wd_queues w !! a)).

(** The statement is well scoped, and a queue is destroyed only when no token refers
    to it any more. *)
Definition token_op_ok (w : TokenWorld) (op : token_op) : bool :=
  match op with
  | NewQueue a _ _ => negb (exists_queue w a)
  | DestroyQueue a => exists_queue w a && bool_decide (map_Forall (fun _ token => tk_owner token <> Some a) (wd_tokens w))
  | CallsOn a q' => match wd_queues w !! a with Some q => bool_decide (calls_keep q q') | None => false end
  | DefaultToken x => negb (exists_token w x)
  | MakeToken x a => negb (exists_token w x) && exists_queue w a
  | MoveToken x other => negb (exists_token w x) && exists_token w other
  | MoveAssign x other => exists_token w x && exists_token w other
  | EndToken x => exists_token w x
  | LocalToken _ a => exists_queue w a
  | EndThread _ => true
  end.

Fixpoint token_program_ok (w : TokenWorld) (ops : list token_op) : bool :=
  match ops with
  | [] => true
  | op :: ops =>
    token_op_ok w op && match token_exec w op with Ret (_, w) => token_program_ok w ops | _ => true end
  end.

(** ** The invariant *)

Definition holds (w : TokenWorld) (p : place) (a : Z) (i : nat) : Prop := wd_tokens w !! p = Some (mkToken (Some a) i).

Definition taken (w : TokenWorld) (a : Z) (i : nat) : Prop :=
  exists q s, wd_queues w !! a = Some q /\ mq_slots q !! i = Some s /\ sl_occupied s = true.

Record world_ok (w : TokenWorld) : Prop := {
  wo_taken : forall p a i, holds w p a i -> taken w a i;
  wo_once : forall p1 p2 a i, holds w p1 a i -> holds w p2 a i -> p1 = p2;
  wo_held : forall a i, taken w a i -> exists p, holds w p a i;
  wo_retired : forall a q, wd_queues w !! a = Some q -> retired_sound q
}.

(** Tokens that move between places. *)
Lemma world_rename (f g : place -> place) w w' : world_ok w -> wd_queues w' = wd_queues w ->
  (forall p, g (f p) = p) -> (forall p, f (g p) = p) ->
  (forall p a i, holds w' p a i <-> holds w (f p) a i) -> world_ok w'.
Proof.
  intros [O1 O2 O3 O4] Hq Hgf Hfg Hh.
  assert (Ht : forall a i, taken w' a i <-> taken w a i) by (intros a i; unfold taken; by rewrite Hq).
  split.
  - intros p a i H. apply Ht. apply (O1 (f p)). by apply Hh.
  - intros p1 p2 a i H1 H2. rewrite <- (Hgf p1), <- (Hgf p2). f_equal. apply (O2 _ _ a i); by apply Hh.
  - intros a i H. apply Ht in H. destruct (O3 a i H) as [p Hp]. exists (g p). apply Hh. by rewrite Hfg.
  - rewrite Hq. exact O4.
Qed.

(** Tokens without an owner come and go. *)
Lemma world_idle w w' p : world_ok w -> wd_queues w' = wd_queues w ->
  (forall p', p' <> p -> wd_tokens w' !! p' = wd_tokens w !! p') ->
  (forall a i, ~ holds w p a i) -> (forall a i, ~ holds w' p a i) -> world_ok w'.
Proof.
  intros O Hq Ht H1 H2. apply (world_rename id id w); try done. intros p' a i. unfold id.
  destruct (decide (p' = p)) as [->|Hne]; [|unfold holds; by rewrite Ht].
  split; intros H; [by apply H2 in H|by apply H1 in H].
Qed.

(** ** Slots *)

Lemma slot_nodes_insert (slots : list EpochSlot) i s s' : slots !! i = Some s ->
  exists l1 l2, slot_nodes slots = l1 ++ map rt_node (sl_retired s) ++ l2 /\
    slot_nodes (<[i := s']> slots) = l1 ++ map rt_node (sl_retired s') ++ l2.
Proof.
  intros H. pose proof (take_drop_middle slots i s H) as Hs. exists (slot_nodes (take i slots)), (slot_nodes (drop (S i) slots)).
  unfold slot_nodes. split; [rewrite <- Hs at 1; by rewrite flat_map_app|].
  rewrite insert_take_drop by (by eapply lookup_lt_Some). by rewrite flat_map_app.
Qed.

(** Emptying the list of a slot, with its nodes freed or not. *)
Lemma retired_sound_cleared (q : MpmcQueue T) i s s' h : retired_sound q -> mq_slots q !! i = Some s -> sl_retired s' = [] ->
  (forall a, a ∉ map rt_node (sl_retired s) -> h !! a = mq_heap q !! a) ->
  retired_sound (mq_with_slots (mq_with_heap q h) (<[i := s']> (mq_slots q))).
Proof.
  intros [HN HA] Hs Hr Hh. destruct (slot_nodes_insert _ i s s' Hs) as (l1 & l2 & E1 & E2).
  rewrite E1 in HN, HA. unfold retired_sound. simpl. rewrite E2, Hr. simpl.
  apply NoDup_app in HN as (HN1 & Hd1 & HN). apply NoDup_app in HN as (_ & Hd2 & HN2).
  rewrite !Forall_app in HA. destruct HA as (HA1 & _ & HA2). split.
  - apply NoDup_app. split; [done|]. split; [|done]. intros a Ha Hb. apply (Hd1 a Ha), elem_of_app. by right.
  - apply Forall_app. split; apply Forall_forall; intros a Ha.
    + rewrite Hh; [by apply (proj1 (Forall_forall _ _) HA1)|]. intros Hb. apply (Hd1 a Ha), elem_of_app. by left.
    + rewrite Hh; [by apply (proj1 (Forall_forall _ _) HA2)|]. intros Hb. by apply (Hd2 a Hb).
Qed.

Lemma unregister_spec (q : MpmcQueue T) i s : retired_sound q -> mq_slots q !! i = Some s ->
  exists q', unregister_slot q i = Ret q' /\ mq_slots q' = <[i := mkSlot false false (sl_epoch s) []]> (mq_slots q) /\
    retired_sound q'.
Proof.
  intros R Hs. destruct (slot_nodes_insert _ i s s Hs) as (l1 & l2 & E1 & _). pose proof R as [HN HA]. rewrite E1 in HN, HA.
  apply NoDup_app in HN as (_ & _ & HN). apply NoDup_app in HN as (HN & _). rewrite !Forall_app in HA. destruct HA as (_ & HA & _).
  destruct (free_spec (sl_retired s) q HN) as (h & Hf & Hw).
  { intros x Hx. apply (proj1 (Forall_forall _ _) HA). by apply list_elem_of_fmap_2. }
  eexists. unfold unregister_slot, on_slot. rewrite Hs. simpl. rewrite Hf. simpl. rewrite Hs. simpl.
  assert (Hlt : (i < length (mq_slots q))%nat) by (by eapply lookup_lt_Some).
  rewrite list_lookup_insert_eq by done. simpl. rewrite list_lookup_insert_eq by (by rewrite length_insert). simpl.
  split; [reflexivity|]. rewrite !list_insert_insert_eq. unfold with_active, with_occupied, with_retired. simpl.
  split; [done|]. apply (retired_sound_cleared q i s); [done|done|done|].
  intros a Ha. rewrite Hw. by rewrite decide_False.
Qed.

Lemma free_slot_spec (slots : list EpochSlot) : forall index,
  match free_slot slots index with
  | Some i => exists s, (index <= i)%nat /\ slots !! (i - index)%nat = Some s /\ sl_occupied s = false
  | None => forall i s, slots !! i = Some s -> sl_occupied s = true
  end.
Proof.
  induction slots as [|s slots IH]; intros index; simpl; [by intros i s|]. destruct (sl_occupied s) eqn:Ho.
  - specialize (IH (S index)). destruct (free_slot slots (S index)) as [i|].
    + destruct IH as (s' & Hi & Hs & Ho'). exists s'. split; [lia|]. split; [|done].
      replace (i - index)%nat with (S (i - S index)) by lia. done.
    + intros [|i] s' H; [by injection H as <-|by apply (IH i)].
  - exists s. rewrite Nat.sub_diag. done.
Qed.

Lemma acquire_spec (q : MpmcQueue T) : retired_sound q ->
  (exists what, acquire_slot q = Throw what) \/
  exists i q' s, acquire_slot q = Ret (i, q') /\ mq_slots q !! i = Some s /\ sl_occupied s = false /\
    mq_slots q' = <[i := mkSlot true (sl_active s) (mq_epoch q) []]> (mq_slots q) /\ retired_sound q'.
Proof.
  intros R. unfold acquire_slot. pose proof (free_slot_spec (mq_slots q) 0) as F.
  destruct (free_slot (mq_slots q) 0) as [i|]; [right|left; by eexists].
  destruct F as (s & _ & Hs & Ho). rewrite Nat.sub_0_r in Hs.
  assert (Hlt : (i < length (mq_slots q))%nat) by (by eapply lookup_lt_Some).
  eexists i, _, s. unfold on_slot. rewrite Hs. simpl. rewrite list_lookup_insert_eq by done. simpl.
  rewrite list_lookup_insert_eq by (by rewrite length_insert). simpl. split; [reflexivity|].
  rewrite !list_insert_insert_eq. unfold with_epoch, with_occupied, with_retired. simpl.
  split_and!; try done. apply (retired_sound_cleared q i s _ (mq_heap q)); done.
Qed.

(** ** The same functions as steps

    Run alone, the steps of [Mpmc] that acquire and give up a slot do what the two
    functions do. *)
Fixpoint go_run (fuel : nat) (stop : mpmc_pc T -> bool) (t : nat) (q : MpmcQueue T) (th : MpmcThread T)
    : outcome (list (mpmc_event T) * MpmcQueue T * MpmcThread T) :=
  match fuel with
  | O => Undef "out of fuel"
  | S fuel =>
    if stop (th_pc th) then Ret ([], q, th)
    else
      '(evs, q, th) ← go_step t q th None false;
      '(evs', q, th) ← go_run fuel stop t q th;
      Ret (evs ++ evs', q, th)
  end.

Lemma go_run_S fuel stop t q th : go_run (S fuel) stop t q th =
  if stop (th_pc th) then Ret ([], q, th)
  else
    '(evs, q, th) ← go_step t q th None false;
    '(evs', q, th) ← go_run fuel stop t q th;
    Ret (evs ++ evs', q, th).
Proof. done. Qed.

Definition finished (pc : mpmc_pc T) : bool := match pc with PcIdle => true | _ => false end.
Definition registered (pc : mpmc_pc T) : bool := match pc with PcIdle | PcEnterLoad _ => true | _ => false end.

(** Run the writes to a slot of a table long enough. *)
Ltac run_slots Hs :=
  repeat (progress (unfold go_step, acquire_step, on_slot; simpl; rewrite ?Hs;
    rewrite ?list_lookup_insert_eq by (by rewrite ?length_insert))).

Lemma acquire_run_spec t op l : forall (q : MpmcQueue T) index fuel, drop index (mq_slots q) = l -> (length l + 5 <= fuel)%nat ->
  go_run fuel registered t q (mkThread None (PcAcquire op (AcqExchange index))) =
  match free_slot l index with
  | None => Ret ([EvReturn t (RThrew "MpmcLinkedQueue thread registration limit exceeded")], q, mkThread None PcIdle)
  | Some i =>
    q ← on_slot q i (with_occupied true);
    q ← on_slot q i (with_retired []);
    q ← on_slot q i (with_epoch (mq_epoch q));
    Ret ([], q, mkThread (Some i) (PcEnterLoad op))
  end.
Proof.
  induction l as [|s l IH]; intros q index fuel Hl Hf; simpl in Hf; (destruct fuel as [|[|[|[|[|fuel]]]]]; [lia..|]).
  - assert (Hs : mq_slots q !! index = None).
    { apply lookup_ge_None. apply (f_equal length) in Hl. rewrite length_drop in Hl. simpl in Hl. lia. }
    rewrite go_run_S. cbn [registered th_pc go_step th_token acquire_step free_slot]. by rewrite Hs.
  - assert (Hs : mq_slots q !! index = Some s).
    { rewrite <- (Nat.add_0_r index), <- lookup_drop, Hl. done. }
    assert (Hlt : (index < length (mq_slots q))%nat) by (by eapply lookup_lt_Some).
    rewrite go_run_S. cbn [registered th_pc go_step th_token acquire_step free_slot]. rewrite Hs. destruct (sl_occupied s) eqn:Ho.
    + rewrite bind_ret. rewrite (IH q (S index)); [|rewrite (drop_S _ s) in Hl by done; by injection Hl|lia].
      destruct (free_slot l (S index)); [|done]. 
      destruct (on_slot q n (with_occupied true)) as [q1| |]; [|done..]. rewrite !bind_ret.
      destruct (on_slot q1 n (with_retired [])) as [q2| |]; [|done..]. rewrite !bind_ret.
      by destruct (on_slot q2 n (with_epoch (mq_epoch q2))).
    + by run_slots Hs.
Qed.

Lemma acquire_slot_steps t op (q : MpmcQueue T) fuel : (length (mq_slots q) + 5 <= fuel)%nat ->
  go_run fuel registered t q (mkThread None (PcAcquire op (AcqExchange 0))) =
  match acquire_slot q with
  | Ret (slot, q) => Ret ([], q, mkThread (Some slot) (PcEnterLoad op))
  | Throw what => Ret ([EvReturn t (RThrew what)], q, mkThread None PcIdle)
  | Undef why => Undef why
  end.
Proof.
  intros Hf. rewrite (acquire_run_spec t op (mq_slots q)) by done. unfold acquire_slot.
  pose proof (free_slot_spec (mq_slots q) 0) as F. destruct (free_slot (mq_slots q) 0) as [i|]; [|done].
  destruct F as (s & _ & Hs & _). rewrite Nat.sub_0_r in Hs.
  assert (Hlt : (i < length (mq_slots q))%nat) by (by eapply lookup_lt_Some).
  by run_slots Hs.
Qed.

(** The loop of a forced collection. *)
Lemma collect_run_spec t i m todo : forall (q : MpmcQueue T) fuel, is_Some (mq_slots q !! i) -> (length todo + 4 <= fuel)%nat ->
  go_run fuel finished t q (mkThread (Some i) (PcReclaim (Collect true m [] todo) ThenUnregister)) =
  (q ← free_retired q todo;
   q ← on_slot q i (with_retired []);
   q ← on_slot q i (with_active false);
   q ← on_slot q i (with_occupied false);
   Ret ([EvReturn t RExited], q, mkThread None PcIdle)).
Proof.
  induction todo as [|r todo IH]; intros q fuel [s Hs] Hf; simpl in Hf; (destruct fuel as [|[|[|[|fuel]]]]; [lia..|]).
  - assert (Hlt : (i < length (mq_slots q))%nat) by (by eapply lookup_lt_Some).
    by run_slots Hs.
  - rewrite go_run_S. cbn [finished th_pc go_step th_token reclaim_step deref orb free_retired]. rewrite bind_ret.
    unfold free_node. destruct (mq_heap q !! rt_node r) as [nd|]; [|done]. cbn [deref]. rewrite !bind_ret, IH; [|by exists s|lia].
    destruct (free_retired _ todo) as [q1| |]; [|done..]. rewrite !bind_ret.
    destruct (on_slot q1 i (with_retired [])) as [q2| |]; [|done..]. rewrite !bind_ret.
    destruct (on_slot q2 i (with_active false)) as [q3| |]; [|done..]. rewrite !bind_ret.
    by destruct (on_slot q3 i (with_occupied false)).
Qed.

Lemma unregister_slot_steps t i s (q : MpmcQueue T) fuel : mq_slots q !! i = Some s -> (length (sl_retired s) + 5 <= fuel)%nat ->
  (match start_step t q (mkThread (Some i) PcIdle) OpExit with
   | Ret (_, q, th) => go_run fuel finished t q th
   | Throw what => Throw what
   | Undef why => Undef why
   end) =
  (q ← unregister_slot q i; Ret ([EvReturn t RExited], q, mkThread None PcIdle)).
Proof.
  intros Hs Hf. unfold start_step, unregister_slot. cbn [th_token]. rewrite Hs. cbn [deref]. rewrite !bind_ret.
  assert (Hlt : (i < length (mq_slots q))%nat) by (by eapply lookup_lt_Some).
  unfold collect_begin. destruct (sl_retired s) as [|r l] eqn:Hr; simpl in Hf.
  - destruct fuel as [|[|[|fuel]]]; [lia..|]. cbn [free_retired]. rewrite bind_ret.
    assert (Hc : on_slot q i (with_retired []) = Ret q).
    { unfold on_slot. rewrite Hs. simpl. unfold with_retired. rewrite <- Hr. destruct s; simpl in *.
      rewrite list_insert_id by done. by destruct q. }
    rewrite Hc, bind_ret. by run_slots Hs.
  - rewrite collect_run_spec by (by eauto || (simpl; lia)).
    destruct (free_retired q (r :: l)) as [q1| |]; [|done..]. rewrite !bind_ret.
    destruct (on_slot q1 i (with_retired [])) as [q2| |]; [|done..]. rewrite !bind_ret.
    destruct (on_slot q2 i (with_active false)) as [q3| |]; [|done..]. rewrite !bind_ret.
    by destruct (on_slot q3 i (with_occupied false)).
Qed.

(** ** The members keep the invariant *)

Lemma taken_slot (w : TokenWorld) a q q' i s s' b j : wd_queues w !! a = Some q -> mq_slots q !! i = Some s ->
  mq_slots q' = <[i := s']> (mq_slots q) ->
  taken (with_queue w a q') b j <-> (if decide (b = a /\ j = i) then sl_occupied s' = true else taken w b j).
Proof.
  intros Hq Hs Hsl. unfold taken. simpl. destruct (decide (b = a)) as [->|Hb].
  - rewrite lookup_insert_eq. split.
    + intros (q1 & s1 & Hq1 & Hs1 & Ho). injection Hq1 as <-. rewrite Hsl in Hs1. destruct (decide (a = a /\ j = i)) as [[_ ->]|Hne].
      * rewrite list_lookup_insert_eq in Hs1 by (by eapply lookup_lt_Some). by injection Hs1 as <-.
      * assert (i <> j) by naive_solver. rewrite list_lookup_insert_ne in Hs1 by done. by exists q, s1.
    + destruct (decide (a = a /\ j = i)) as [[_ ->]|Hne]; intros H.
      * exists q', s'. split; [done|]. split; [|done]. rewrite Hsl. by rewrite list_lookup_insert_eq by (by eapply lookup_lt_Some).
      * destruct H as (q1 & s1 & Hq1 & Hs1 & Ho). assert (q1 = q) as -> by congruence. exists q', s1. split; [done|].
        assert (i <> j) by naive_solver. by rewrite Hsl, list_lookup_insert_ne.
  - rewrite lookup_insert_ne by done. rewrite decide_False by naive_solver. done.
Qed.

(** [w'] has the queues of [w], with other slots, and the tokens [tokens]. *)
Definition becomes (w w' : TokenWorld) (tokens : gmap place Token) : Prop :=
  world_ok w' /\ wd_tokens w' = tokens /\ forall a, exists_queue w' a = exists_queue w a.

Lemma exists_queue_insert w a q q' p tk b : wd_queues w !! a = Some q ->
  exists_queue (with_token (with_queue w a q') p tk) b = exists_queue w b.
Proof.
  intros Hq. apply bool_decide_ext. simpl. destruct (decide (b = a)) as [->|Hne]; [|by rewrite lookup_insert_ne].
  rewrite lookup_insert_eq, Hq. by split; eauto.
Qed.

Lemma release_ok w p token : world_ok w -> wd_tokens w !! p = Some token ->
  exists w', Token_release w p = Ret w' /\
    becomes w w' (<[p := mkToken None (tk_slot_index token)]> (wd_tokens w)).
Proof.
  intros O Hp. unfold Token_release, token_at. rewrite Hp. destruct token as [[a|] i]; simpl.
  2: { exists w. split; [done|]. split; [done|]. split; [|done]. by rewrite insert_id. }
  assert (Hh : holds w p a i) by done. destruct (wo_taken w O p a i Hh) as (q & s & Hq & Hs & Ho).
  destruct (unregister_spec q i s (wo_retired w O a q Hq) Hs) as (q' & Hu & Hsl & Hr). rewrite Hq. simpl. rewrite Hu. simpl.
  eexists. split; [done|]. split; [|split; [done|intros b; by apply (exists_queue_insert w a q)]].
  assert (Ht : forall b j, taken (with_queue w a q') b j <-> taken w b j /\ ~ (b = a /\ j = i)).
  { intros b j. rewrite (taken_slot w a q q' i s _ b j Hq Hs Hsl). simpl.
    destruct (decide (b = a /\ j = i)); naive_solver. }
  assert (Hhold : forall p' b j, holds (with_token (with_queue w a q') p (mkToken None i)) p' b j <-> holds w p' b j /\ p' <> p).
  { intros p' b j. unfold holds. simpl. destruct (decide (p' = p)) as [->|Hne].
    - rewrite lookup_insert_eq. naive_solver.
    - rewrite lookup_insert_ne by done. naive_solver. }
  split.
  - intros p' b j H. apply Hhold in H as [H Hne]. apply Ht. split; [by apply (wo_taken w O p')|].
    intros [-> ->]. apply Hne. by apply (wo_once w O p' p a i).
  - intros p1 p2 b j H1 H2. apply Hhold in H1 as [H1 _]. apply Hhold in H2 as [H2 _]. by apply (wo_once w O p1 p2 b j).
  - intros b j H. apply Ht in H as [H Hne]. destruct (wo_held w O b j H) as [p' Hp']. exists p'. apply Hhold.
    split; [done|]. intros ->. unfold holds in Hp'. rewrite Hp in Hp'. naive_solver.
  - intros b q0 H. simpl in H. destruct (decide (b = a)) as [->|Hne].
    + rewrite lookup_insert_eq in H. by injection H as <-.
    + rewrite lookup_insert_ne in H by done. by apply (wo_retired w O b).
Qed.

Lemma make_ok w p a : world_ok w -> exists_queue w a = true -> (forall b j, ~ holds w p b j) ->
  (exists what, Mpmc_make_token w p a = Throw what) \/
  exists w' i, Mpmc_make_token w p a = Ret w' /\ becomes w w' (<[p := mkToken (Some a) i]> (wd_tokens w)).
Proof.
  intros O Ha Hp. apply bool_decide_eq_true in Ha as [q Hq]. unfold Mpmc_make_token. rewrite Hq. simpl.
  destruct (acquire_spec q (wo_retired w O a q Hq)) as [[what ->]|(i & q' & s & -> & Hs & Ho & Hsl & Hr)]; [by left; exists what|].
  right. eexists _, i. split; [done|]. split; [|split; [done|intros b; by apply (exists_queue_insert w a q)]].
  assert (Ht : forall b j, taken (with_queue w a q') b j <-> taken w b j \/ b = a /\ j = i).
  { intros b j. rewrite (taken_slot w a q q' i s _ b j Hq Hs Hsl). simpl.
    destruct (decide (b = a /\ j = i)); naive_solver. }
  assert (Hfree : ~ taken w a i) by (intros (q1 & s1 & Hq1 & Hs1 & Ho1); congruence).
  assert (Hhold : forall p' b j, holds (with_token (with_queue w a q') p (mkToken (Some a) i)) p' b j <->
    holds w p' b j \/ p' = p /\ b = a /\ j = i).
  { intros p' b j. unfold holds. simpl. destruct (decide (p' = p)) as [->|Hne].
    - rewrite lookup_insert_eq. split; [naive_solver|]. intros [H|(_ & -> & ->)]; [by apply Hp in H|done].
    - rewrite lookup_insert_ne by done. naive_solver. }
  split.
  - intros p' b j H. apply Ht. apply Hhold in H as [H|(_ & -> & ->)]; [left; by apply (wo_taken w O p')|by right].
  - intros p1 p2 b j H1 H2. apply Hhold in H1 as [H1|(-> & -> & ->)]; apply Hhold in H2 as [H2|(-> & E1 & E2)]; try done.
    + by apply (wo_once w O p1 p2 b j).
    + subst. destruct Hfree. by apply (wo_taken w O p1).
    + destruct Hfree. by apply (wo_taken w O p2).
  - intros b j H. apply Ht in H as [H|[-> ->]]; [|exists p; apply Hhold; by right].
    destruct (wo_held w O b j H) as [p' Hp']. exists p'. apply Hhold. by left.
  - intros b q0 H. simpl in H. destruct (decide (b = a)) as [->|Hne].
    + rewrite lookup_insert_eq in H. by injection H as <-.
    + rewrite lookup_insert_ne in H by done. by apply (wo_retired w O b).
Qed.

Lemma swap_ok w p other t1 t2 : world_ok w -> p <> other -> wd_tokens w !! p = Some t1 -> wd_tokens w !! other = Some t2 ->
  exists w', Token_swap w p other = Ret w' /\ becomes w w' (<[other := t1]> (<[p := t2]> (wd_tokens w))).
Proof.
  intros O Hne H1 H2. unfold Token_swap, token_at. rewrite H1, H2. simpl. eexists. split; [done|].
  split; [|done]. set (f := fun x => if decide (x = p) then other else if decide (x = other) then p else x).
  assert (Hf : forall x, f (f x) = x) by (intros x; unfold f; repeat case_decide; congruence).
  apply (world_rename f f w); try done. intros x a i. unfold holds, f. simpl. repeat case_decide; subst.
  - by rewrite lookup_insert_ne, lookup_insert_eq, H2.
  - by rewrite lookup_insert_eq, H1.
  - by rewrite !lookup_insert_ne.
Qed.

Lemma becomes_trans w1 w2 w3 m2 m3 : becomes w1 w2 m2 -> becomes w2 w3 m3 -> becomes w1 w3 m3.
Proof. intros (_ & _ & E2) (O & Ht & E3). split; [done|]. split; [done|]. intros a. by rewrite E3. Qed.

Lemma default_ok w p : world_ok w -> (forall a i, ~ holds w p a i) ->
  becomes w (Token_default w p) (<[p := mkToken None 0]> (wd_tokens w)).
Proof.
  intros O Hp. split; [|done]. apply (world_idle w _ p); try done.
  - intros p' Hne. simpl. by rewrite lookup_insert_ne.
  - intros a i. unfold holds. simpl. by rewrite lookup_insert_eq.
Qed.

Lemma destroy_ok w p token : world_ok w -> wd_tokens w !! p = Some token ->
  exists w', Token_destroy w p = Ret w' /\ becomes w w' (delete p (wd_tokens w)).
Proof.
  intros O Hp. unfold Token_destroy. destruct (release_ok w p token O Hp) as (w1 & -> & O1 & Ht & He). simpl.
  eexists. split; [done|]. split; [|split; [|done]].
  - apply (world_idle w1 _ p); try done.
    + intros p' Hne. simpl. by rewrite lookup_delete_ne.
    + intros a i. unfold holds. by rewrite Ht, lookup_insert_eq.
    + intros a i. unfold holds. simpl. by rewrite lookup_delete_eq.
  - simpl. rewrite Ht. apply delete_insert_eq.
Qed.

Lemma move_ok w p other token : world_ok w -> wd_tokens w !! p = None -> wd_tokens w !! other = Some token ->
  exists w', Token_move w p other = Ret w' /\
    becomes w w' (<[other := mkToken None 0]> (<[p := token]> (wd_tokens w))).
Proof.
  intros O Hp Ho. assert (Hne : p <> other) by congruence. unfold Token_move.
  assert (B : becomes w (Token_default w p) (<[p := mkToken None 0]> (wd_tokens w))).
  { apply default_ok; [done|]. intros a i. unfold holds. by rewrite Hp. }
  destruct (swap_ok (Token_default w p) p other (mkToken None 0) token) as (w' & Hs & B'); [apply B|done| |..].
  { simpl. apply lookup_insert_eq. } { simpl. by rewrite lookup_insert_ne. }
  exists w'. split; [done|]. eapply becomes_trans; [exact B|]. simpl in B'. by rewrite insert_insert_eq in B'.
Qed.

Lemma assign_ok w p other t1 t2 : world_ok w -> p <> other -> wd_tokens w !! p = Some t1 -> wd_tokens w !! other = Some t2 ->
  exists w', Token_move_assign w p other = Ret w' /\
    becomes w w' (<[other := mkToken None (tk_slot_index t1)]> (<[p := t2]> (wd_tokens w))).
Proof.
  intros O Hne H1 H2. unfold Token_move_assign. rewrite decide_False by done.
  destruct (release_ok w p t1 O H1) as (w1 & -> & B). simpl. destruct B as (O1 & Ht & He).
  destruct (swap_ok w1 p other (mkToken None (tk_slot_index t1)) t2) as (w' & Hs & B'); [done|done| |..].
  { rewrite Ht. apply lookup_insert_eq. } { rewrite Ht. by rewrite lookup_insert_ne. }
  exists w'. split; [done|]. eapply becomes_trans; [by split|]. rewrite Ht in B'. by rewrite insert_insert_eq in B'.
Qed.

(** Between two statements there is no temporary, and the entries of a thread's map
    belong to the queue they are filed under. *)
Definition program_inv (w : TokenWorld) : Prop :=
  world_ok w /\ wd_tokens w !! Temporary = None /\
  forall t a token, wd_tokens w !! Local t a = Some token -> tk_owner token = None \/ tk_owner token = Some a.

Lemma program_inv_local w w' t a token : program_inv w -> world_ok w' -> wd_tokens w' !! Temporary = None ->
  (forall p, p <> Local t a -> p <> Temporary -> wd_tokens w' !! p = wd_tokens w !! p) ->
  wd_tokens w' !! Local t a = Some token -> tk_owner token = None \/ tk_owner token = Some a -> program_inv w'.
Proof.
  intros (_ & _ & HL) O HT Hother Hp Ho. split; [done|]. split; [done|]. intros t' a' token' H.
  destruct (decide (Local t' a' = Local t a)) as [Heq|Hne].
  - injection Heq as -> ->. by rewrite Hp in H; injection H as <-.
  - rewrite Hother in H by done. by apply (HL t' a').
Qed.

Lemma emplace_ok w t a : program_inv w ->
  exists token, wd_tokens (try_emplace w (Local t a)) !! Local t a = Some token /\ program_inv (try_emplace w (Local t a)) /\
    (forall b, exists_queue (try_emplace w (Local t a)) b = exists_queue w b) /\
    (tk_owner token = None \/ tk_owner token = Some a) /\
    (wd_tokens w !! Local t a = None -> tk_owner token = None) /\
    (forall i, holds w (Local t a) a i -> try_emplace w (Local t a) = w /\ token = mkToken (Some a) i).
Proof.
  intros I. pose proof I as (O & HT & HL). unfold try_emplace, holds. case_bool_decide as Hp.
  - exists (mkToken None 0). assert (He : wd_tokens (Token_default w (Local t a)) !! Local t a = Some (mkToken None 0)) by apply lookup_insert_eq.
    split_and!; try done; [|by left|intros i Hi; by rewrite Hp in Hi].
    apply (program_inv_local w _ t a (mkToken None 0) I); try done; [|simpl; by rewrite lookup_insert_ne| |by left].
    + apply default_ok; [done|]. intros b j. unfold holds. by rewrite Hp.
    + intros p Hne _. simpl. by rewrite lookup_insert_ne.
  - destruct (wd_tokens w !! Local t a) as [token|] eqn:E; [|done]. exists token. split_and!; try done; [by apply (HL t a)|].
    intros i Hi. by injection Hi.
Qed.

Lemma assign_new_ok w t a token : program_inv w -> exists_queue w a = true ->
  wd_tokens w !! Local t a = Some token -> tk_owner token = None ->
  (exists what, assign_new_token w (Local t a) a = Ret (Some what, w)) \/
  exists i w', assign_new_token w (Local t a) a = Ret (None, w') /\ program_inv w' /\ holds w' (Local t a) a i.
Proof.
  intros I Ha E Hno. pose proof I as (O & HT & _). unfold assign_new_token.
  destruct (make_ok w Temporary a O Ha) as [[what ->]|(w2 & i & -> & O2 & Ht2 & _)].
  { intros b j. unfold holds. by rewrite HT. } { left. by exists what. }
  right. exists i. destruct (assign_ok w2 (Local t a) Temporary token (mkToken (Some a) i) O2 ltac:(done)) as (w3 & -> & O3 & Ht3 & _).
  { rewrite Ht2. by rewrite lookup_insert_ne. } { rewrite Ht2. apply lookup_insert_eq. }
  simpl. destruct (destroy_ok w3 Temporary (mkToken None (tk_slot_index token)) O3) as (w4 & -> & O4 & Ht4 & _).
  { rewrite Ht3. apply lookup_insert_eq. }
  simpl. assert (Hp4 : wd_tokens w4 !! Local t a = Some (mkToken (Some a) i)).
  { rewrite Ht4, lookup_delete_ne, Ht3, lookup_insert_ne by done. apply lookup_insert_eq. }
  exists w4. split; [done|]. split; [|done].
  apply (program_inv_local w w4 t a (mkToken (Some a) i) I); try done; [by rewrite Ht4, lookup_delete_eq| |by right].
  intros p H1 H2. by rewrite Ht4, lookup_delete_ne, Ht3, !lookup_insert_ne, Ht2, lookup_insert_ne by done.
Qed.

(** [local_token_for] returns the token it returned before, or registers one. *)
Lemma local_token_ok w t a : program_inv w -> exists_queue w a = true ->
  exists r w', Mpmc_local_token_for w t a = Ret (r, w') /\ program_inv w' /\
    (r = None -> exists i, holds w' (Local t a) a i) /\
    (forall i, holds w (Local t a) a i -> r = None /\ w' = w).
Proof.
  intros I Ha. unfold Mpmc_local_token_for, token_at.
  destruct (emplace_ok w t a I) as (token & E & I1 & He & Hown & Hins & Hold). rewrite E. simpl.
  destruct (bool_decide (wd_tokens w !! Local t a = None) || bool_decide (tk_owner token = None)) eqn:Hc.
  - assert (Hno : tk_owner token = None).
    { apply orb_true_iff in Hc as [Hc|Hc]; apply bool_decide_eq_true in Hc; [by apply Hins|done]. }
    assert (Hh : forall i, ~ holds w (Local t a) a i) by (intros i Hi; by destruct (Hold i Hi) as [_ ->]).
    destruct (assign_new_ok _ t a token I1) as [[what ->]|(i & w' & -> & I' & H')]; [by rewrite He|done|done| |].
    + exists (Some what), (try_emplace w (Local t a)). split_and!; try done. intros i Hi. by destruct (Hh i).
    + exists None, w'. split_and!; try done; [by exists i|]. intros j Hj. by destruct (Hh j).
  - apply orb_false_iff in Hc as [_ Hc]. apply bool_decide_eq_false in Hc. destruct Hown as [|Hown]; [done|].
    destruct token as [o i]. simpl in Hown. subst o. exists None, (try_emplace w (Local t a)). split_and!; try done; [by exists i|].
    intros j Hj. split; [done|]. by destruct (Hold j Hj).
Qed.

Definition named (p : place) : bool := match p with Named _ => true | _ => false end.

(** Statements about variables, and ones that end tokens. *)
Lemma program_inv_sub w w' : program_inv w -> world_ok w' ->
  (forall p, named p = false -> wd_tokens w' !! p = wd_tokens w !! p \/ wd_tokens w' !! p = None) -> program_inv w'.
Proof.
  intros (_ & HT & HL) O H. split; [done|]. split.
  - destruct (H Temporary eq_refl) as [->|]; done.
  - intros t a token E. destruct (H (Local t a) eq_refl) as [He|He]; rewrite He in E; [by apply (HL t a)|done].
Qed.

Lemma destroy_tokens_ok ps : forall w, program_inv w -> NoDup ps -> Forall (fun p => is_Some (wd_tokens w !! p)) ps ->
  exists w', destroy_tokens w ps = Ret w' /\ program_inv w' /\
    forall p, wd_tokens w' !! p = if decide (p ∈ ps) then None else wd_tokens w !! p.
Proof.
  induction ps as [|p ps IH]; intros w I HN HF; simpl.
  - exists w. split_and!; try done.
  - apply NoDup_cons in HN as [Hp HN]. apply Forall_cons in HF as [[token E] HF]. pose proof I as (O & _).
    destruct (destroy_ok w p token O E) as (w1 & -> & O1 & Ht1 & _). simpl. destruct (IH w1) as (w' & -> & I' & Ht').
    + apply (program_inv_sub w); [done..|]. intros p' _. rewrite Ht1. destruct (decide (p' = p)) as [->|Hne].
      * right. apply lookup_delete_eq.
      * left. by rewrite lookup_delete_ne.
    + done.
    + apply Forall_forall. intros p' Hin. rewrite Ht1, lookup_delete_ne by congruence. by apply (proj1 (Forall_forall _ _) HF).
    + exists w'. split; [done|]. split; [done|]. intros p'. rewrite Ht', Ht1. destruct (decide (p' = p)) as [->|Hne].
      * rewrite lookup_delete_eq. destruct (decide (p ∈ p :: ps)) as [|Hn]; [by case_decide|]. destruct Hn. left.
      * rewrite lookup_delete_ne by done. apply decide_ext. rewrite elem_of_cons. naive_solver.
Qed.

Lemma local_places_spec w t p : p ∈ local_places w t <-> local_of t p = true /\ is_Some (wd_tokens w !! p).
Proof.
  unfold local_places. rewrite list_elem_of_In, List.filter_In, <- list_elem_of_In, list_elem_of_fmap. split.
  - intros [([p' token] & -> & H) Ht]. split; [done|]. apply elem_of_map_to_list in H. by exists token.
  - intros [Ht [token H]]. split; [|done]. exists (p, token). split; [done|]. by apply elem_of_map_to_list.
Qed.

Lemma local_places_nodup w t : NoDup (local_places w t).
Proof.
  unfold local_places. apply NoDup_ListNoDup, List.NoDup_filter, NoDup_ListNoDup, NoDup_fst_map_to_list.
Qed.

(** A queue whose slots keep their occupation. *)
Lemma queue_ok w a q : world_ok w -> retired_sound q ->
  (forall i, (exists s, mq_slots q !! i = Some s /\ sl_occupied s = true) <-> taken w a i) -> world_ok (with_queue w a q).
Proof.
  intros [O1 O2 O3 O4] Hr Ht.
  assert (Hk : forall b j, taken (with_queue w a q) b j <-> taken w b j).
  { intros b j. unfold taken at 1. simpl. destruct (decide (b = a)) as [->|Hne].
    - rewrite lookup_insert_eq, <- Ht. naive_solver.
    - by rewrite lookup_insert_ne. }
  split.
  - intros p b j H. apply Hk. by apply (O1 p).
  - exact O2.
  - intros b j H. apply Hk in H. by apply O3.
  - intros b q0 H. simpl in H. destruct (decide (b = a)) as [->|Hne].
    + rewrite lookup_insert_eq in H. by injection H as <-.
    + rewrite lookup_insert_ne in H by done. by apply (O4 b).
Qed.

Lemma occupied_same (l l' : list EpochSlot) i : map sl_occupied l' = map sl_occupied l ->
  (exists s, l' !! i = Some s /\ sl_occupied s = true) <-> (exists s, l !! i = Some s /\ sl_occupied s = true).
Proof.
  intros H. assert (Hi : (map sl_occupied l') !! i = (map sl_occupied l) !! i) by (by rewrite H).
  rewrite !list_lookup_fmap in Hi. destruct (l' !! i) as [s'|], (l !! i) as [s|]; simpl in Hi; naive_solver.
Qed.

Lemma new_retired_sound max_threads stub : retired_sound (Mpmc_new (T := T) max_threads stub).
Proof.
  assert (Hn : slot_nodes (replicate max_threads (mkSlot false false 0 [])) = []).
  { induction max_threads as [|n IH]; [done|exact IH]. }
  split; simpl; rewrite Hn; constructor.
Qed.

(** A variable statement that keeps the tokens elsewhere. *)
Lemma variable_ok w w' tokens : program_inv w -> becomes w w' tokens ->
  (forall p, named p = false -> tokens !! p = wd_tokens w !! p) -> program_inv w'.
Proof.
  intros I (O & Ht & _) H. apply (program_inv_sub w); [done|done|]. intros p Hp. left. rewrite Ht. by apply H.
Qed.

Lemma absent_token w x : negb (exists_token w x) = true -> wd_tokens w !! Named x = None.
Proof. intros H. apply negb_true_iff, bool_decide_eq_false in H. by apply eq_None_not_Some. Qed.

Lemma new_queue_ok w a max_threads stub : world_ok w -> negb (exists_queue w a) = true ->
  world_ok (with_queue w a (Mpmc_new max_threads stub)).
Proof.
  intros O H. apply negb_true_iff, bool_decide_eq_false, eq_None_not_Some in H.
  apply queue_ok; [done|apply new_retired_sound|]. intros i. split.
  - intros (s & Hs & Ho). simpl in Hs. by apply lookup_replicate in Hs as [-> _].
  - intros (q & s & Hq & _). congruence.
Qed.

Lemma destroy_queue_ok w a : world_ok w -> map_Forall (fun _ token => tk_owner token <> Some a) (wd_tokens w) ->
  world_ok (mkWorld (delete a (wd_queues w)) (wd_tokens w)).
Proof.
  intros O Hf.
  assert (Hown : forall p b i, holds w p b i -> b <> a).
  { intros p b i H ->. by apply (map_Forall_lookup_1 _ _ _ _ Hf) in H. }
  assert (Ht : forall b i, b <> a -> taken (mkWorld (delete a (wd_queues w)) (wd_tokens w)) b i <-> taken w b i).
  { intros b i Hne. unfold taken. simpl. by rewrite lookup_delete_ne. }
  split.
  - intros p b i H. apply Ht; [by apply (Hown p b i)|]. by apply (wo_taken w O p).
  - apply (wo_once w O).
  - intros b i H. destruct (decide (b = a)) as [->|Hne].
    + destruct H as (q & s & H & _). simpl in H. by rewrite lookup_delete_eq in H.
    + apply Ht in H; [|done]. by apply (wo_held w O).
  - intros b q H. simpl in H. apply lookup_delete_Some in H as [_ H]. by apply (wo_retired w O b).
Qed.

(** Close the case of a statement that ran and only touched variables. *)
Ltac ran_on_variables B :=
  eexists _, _; split; [done|]; eapply variable_ok; [done|exact B|]; intros [] ?; by rewrite ?lookup_insert_ne, ?lookup_delete_ne.

Lemma token_exec_ok w op : program_inv w -> token_op_ok w op = true ->
  exists r w', token_exec w op = Ret (r, w') /\ program_inv w'.
Proof.
  intros I Hok. pose proof I as (O & HT & HL).
  assert (Hqueues : forall w', world_ok w' -> wd_tokens w' = wd_tokens w -> program_inv w').
  { intros w' O' Ht. apply (program_inv_sub w); [done|done|]. intros p _. left. by rewrite Ht. }
  destruct op as [a n stub|a|a q|x|x a|x other|x other|x|t a|t]; simpl in Hok |- *.
  - eexists _, _. split; [done|]. apply Hqueues; [by apply new_queue_ok|done].
  - apply andb_true_iff in Hok as [_ Hf]. apply bool_decide_eq_true in Hf.
    eexists _, _. split; [done|]. apply Hqueues; [by apply destroy_queue_ok|done].
  - destruct (wd_queues w !! a) as [q0|] eqn:Hq; [|done]. apply bool_decide_eq_true in Hok as [Hm Hr].
    eexists _, _. split; [done|]. apply Hqueues; [|done]. apply queue_ok; [done|done|].
    intros i. rewrite (occupied_same _ _ i Hm). unfold taken. rewrite Hq. naive_solver.
  - apply absent_token in Hok. assert (B : becomes w (Token_default w (Named x)) (<[Named x := mkToken None 0]> (wd_tokens w))).
    { apply default_ok; [done|]. intros a i H. unfold holds in H. congruence. }
    ran_on_variables B.
  - apply andb_true_iff in Hok as [Hx%absent_token Ha].
    destruct (make_ok w (Named x) a O Ha) as [[what ->]|(w' & i & -> & B)]; [|by exists (Some what), w|ran_on_variables B].
    intros b j H. unfold holds in H. congruence.
  - apply andb_true_iff in Hok as [Hx%absent_token Ho]. apply bool_decide_eq_true in Ho as [token Ho].
    destruct (move_ok w (Named x) (Named other) token O Hx Ho) as (w' & -> & B). ran_on_variables B.
  - apply andb_true_iff in Hok as [Hx Ho]. apply bool_decide_eq_true in Hx as [t1 Hx]. apply bool_decide_eq_true in Ho as [t2 Ho].
    destruct (decide (Named x = Named other)) as [Heq|Hne].
    + exists None, w. unfold Token_move_assign. by rewrite decide_True.
    + destruct (assign_ok w (Named x) (Named other) t1 t2 O Hne Hx Ho) as (w' & -> & B). ran_on_variables B.
  - apply bool_decide_eq_true in Hok as [token Hx]. destruct (destroy_ok w (Named x) token O Hx) as (w' & -> & B).
    ran_on_variables B.
  - destruct (local_token_ok w t a I Hok) as (r & w' & Hl & I' & _). by exists r, w'.
  - destruct (destroy_tokens_ok (local_places w t) w I (local_places_nodup w t)) as (w' & -> & I' & _); [|by exists None, w'].
    apply Forall_forall. intros p Hp. by apply local_places_spec in Hp as [_ Hp].
Qed.

Lemma token_run_ok ops : forall w, program_inv w -> token_program_ok w ops = true ->
  exists rs w', token_run w ops = Ret (rs, w') /\ program_inv w'.
Proof.
  induction ops as [|op ops IH]; intros w I Hok; simpl in *; [by exists [], w|].
  apply andb_true_iff in Hok as [Hop Hok]. destruct (token_exec_ok w op I Hop) as (r & w1 & He & I1). rewrite He in Hok |- *. simpl.
  destruct (IH w1 I1 Hok) as (rs & w' & -> & I'). by exists (r :: rs), w'.
Qed.

Lemma empty_world_ok : program_inv (mkWorld ∅ ∅).
Proof.
  split; [split|split]; try done.
  intros a i (q & s & H & _). done.
Qed.
End Tokens.
Arguments TokenWorld : clear implicits.
Arguments token_op : clear implicits.

(** ** Properties *)

(** C30. Tokens own slots: in every program that constructs, moves, assigns and destroys
    tokens, registers threads, ends them and creates and destroys queues, in which no
    queue is destroyed before the tokens that refer to it, no statement has undefined
    behaviour, and at every point the slots that are occupied and the tokens with an
    owner correspond one to one: a token names an occupied slot of a queue that
    exists, no two tokens name the same slot, and an occupied slot has a token, so
    each slot is released exactly once and a program without tokens leaves every slot
    free. A thread that asks again gets the token it has. *)
Theorem mpmc_tokens_exclusive {T : Type} (ops : list (token_op T)) :
  token_program_ok (mkWorld ∅ ∅) ops = true ->
  exists rs w, token_run (mkWorld ∅ ∅) ops = Ret (rs, w) /\
    (forall p a i, holds w p a i -> taken w a i) /\
    (forall p1 p2 a i, holds w p1 a i -> holds w p2 a i -> p1 = p2) /\
    (forall a i, taken w a i -> exists p, holds w p a i) /\
    (forall t a, exists_queue w a = true -> exists r w', Mpmc_local_token_for w t a = Ret (r, w') /\
      (r = None -> exists i, holds w' (Local t a) a i) /\
      (forall i, holds w (Local t a) a i -> r = None /\ w' = w)).
Proof.
  intros Hok. destruct (token_run_ok ops _ empty_world_ok Hok) as (rs & w & Hr & I).
  exists rs, w. split; [done|]. pose proof I as [[O1 O2 O3 _] _]. split_and!; try done.
  intros t a Ha. destruct (local_token_ok w t a I Ha) as (r & w' & H1 & _ & H2 & H3). by exists r, w'.
Qed.

(** Two slots: a variable and a thread take them, a third registration throws; the
    variable is moved twice, one of the moves over a token that is released, and a
    registration then succeeds. *)
Definition token_program : list (token_op Z) :=
  [NewQueue 1 2 100; MakeToken 0 1; LocalToken 7 1; LocalToken 8 1; MoveToken 1 0; LocalToken 7 1;
   DefaultToken 2; MoveAssign 2 1; EndToken 2; LocalToken 8 1; EndThread 7].

Lemma mpmc_tokens_exclusive_witness :
  exists w, token_run (mkWorld ∅ ∅) token_program =
      Ret ([None; None; None; Some "MpmcLinkedQueue thread registration limit exceeded"; None; None; None; None; None; None; None], w) /\
    holds w (Local 8 1) 1 0 /\ taken w 1 0.
Proof.
  destruct (mpmc_tokens_exclusive token_program ltac:(vm_compute; reflexivity)) as (rs & w & Hr & H1 & _).
  assert (Hh : exists w0, token_run (mkWorld ∅ ∅) token_program = Ret ([None; None; None; Some "MpmcLinkedQueue thread registration limit exceeded"; None; None; None; None; None; None; None], w0)
    /\ holds w0 (Local 8 1) 1 0).
  { eexists. vm_compute. split; reflexivity. }
  destruct Hh as (w0 & Hr0 & Hh). rewrite Hr0 in Hr. injection Hr as <- <-. exists w0. split; [exact Hr0|]. split; [exact Hh|].
  exact (H1 _ _ _ Hh).
Defined.

(** ** What tokens do not promise *)

(** A thread's token outlives the queue: when another queue is built at the same
    address, the thread keeps a token of the old one, for a slot nobody registered. *)
Fact mpmc_token_survives_queue :
  exists rs w, token_run (T := Z) (mkWorld ∅ ∅) [NewQueue 1 2 100; LocalToken 7 1; DestroyQueue 1; NewQueue 1 2 100; LocalToken 7 1]
      = Ret (rs, w) /\
    holds w (Local 7 1) 1 0 /\ (exists s, (q ← wd_queues w !! 1; mq_slots q !! 0%nat) = Some s /\ sl_occupied s = false).
Proof. eexists _, _. vm_compute. split; [reflexivity|]. split; [reflexivity|]. eexists. by split. Qed.

(** And the end of a thread after the queue uses the queue that is gone. *)
Fact mpmc_token_outlives_queue :
  token_run (T := Z) (mkWorld ∅ ∅) [NewQueue 1 2 100; LocalToken 7 1; DestroyQueue 1; EndThread 7]
  = Undef "a queue that does not exist".
Proof. by vm_compute. Qed.
