(* ===== verification/MpmcStoreBuffer.v ===== *)
(** * The linked queue on a machine with store buffers

    The theorems about the queue hold for sequentially consistent interleavings. On a
    machine that delays stores past later loads, as x86-TSO does, [enter_critical]
    does not announce the thread before the operation loads [head_] or [tail_]: the
    announcement is a release store and these are acquire loads, which nothing
    orders. This file lets one store, the one of [active], wait in the buffer of its
    thread while that thread loads, and runs the queue into a freed node. *)

From S2P Require Import Prelude Mpmc MpmcProofs MpmcSteps MpmcTrace MpmcTheorems.

Local Open Scope Z_scope.

Section StoreBuffer.
Context {T : Type}.

(** [bs_waiting] lists the threads whose store of [active] is in their buffer. *)
Record buffered_state := mkBuffered { bs_state : mpmc_state T; bs_waiting : list nat }.

(** Steps that only load, or touch memory of their own, may overtake the store. *)
Definition overtakes (pc : mpmc_pc T) : bool :=
  match pc with
  | PcPush _ (PuAlloc | PuTail _ | PuNext _ _ | PuRecheck _ _ _) => true
  | PcPop (PoHead | PoTail _ | PoNext _ _ | PoRecheck _ _ _) => true
  | _ => false
  end.

Inductive buffered_move := Step (m : mpmc_move T) | Flush.

Definition with_thread (s : mpmc_state T) (t : nat) (th : MpmcThread T) : mpmc_state T :=
  mkMpmcState (ms_queue s) (<[t := th]> (ms_threads s)).

(** The store reaches memory. *)
Definition flush_step (s : mpmc_state T) (slot : nat) : outcome (mpmc_state T) :=
  q ← on_slot (ms_queue s) slot (with_active true);
  Ret (mkMpmcState q (ms_threads s)).

Definition buffered_step (b : buffered_state) (t : nat) (m : buffered_move) : option (outcome buffered_state) :=
  let s := bs_state b in
  th ← ms_threads s !! t;
  slot ← th_token th;
  match m with
  | Flush =>
    if bool_decide (t ∈ bs_waiting b)
    then Some (s ← flush_step s slot; Ret (mkBuffered s (List.filter (fun u => negb (u =? t)%nat) (bs_waiting b))))
    else None
  | Step m =>
    match th_pc th, m with
    | PcEnterActive op, Go _ _ =>
      Some (Ret (mkBuffered (with_thread s t (mkThread (Some slot) (op_begin op))) (t :: bs_waiting b)))
    | pc, _ =>
      if bool_decide (t ∈ bs_waiting b) && negb (overtakes pc) then None
      else
        r ← mpmc_step s t m;
        Some ('(_, s) ← r; Ret (mkBuffered s (bs_waiting b)))
    end
  end.

Fixpoint buffered_run (b : buffered_state) (schedule : list (nat * buffered_move)) : option (outcome buffered_state) :=
  match schedule with
  | [] => Some (Ret b)
  | (t, m) :: schedule =>
    r ← buffered_step b t m;
    match r with
    | Ret b => buffered_run b schedule
    | _ => Some r
    end
  end.
End StoreBuffer.
Arguments buffered_state : clear implicits.
Arguments buffered_move : clear implicits.

(** ** A run *)

(** Both threads are registered and at rest. *)
Definition registered : mpmc_state Z :=
  let slot := mkSlot true false 1 [] in
  mkMpmcState (mq_with_slots (Mpmc_new 2 100) [slot; slot]) [mkThread (Some 0%nat) PcIdle; mkThread (Some 1%nat) PcIdle].

Definition unbuffered (l : list (nat * mpmc_move Z)) : list (nat * buffered_move Z) :=
  map (fun '(t, m) => (t, Step m)) l.

(** The steps of thread 1, with the flush that its exchanges and its collections wait for. *)
Definition buffered_push (a : Z) (m : nat) : list (nat * buffered_move Z) :=
  unbuffered ((1%nat, Start (OpPush 0)) :: goes 3 1 0) ++ (1%nat, Flush) :: unbuffered (goes m 1 a).
Definition buffered_pop (m : nat) : list (nat * buffered_move Z) :=
  unbuffered ((1%nat, Start OpPop) :: goes 3 1 0) ++ (1%nat, Flush) :: unbuffered (goes m 1 0).

Definition buffered_churn (n : nat) : list (nat * buffered_move Z) :=
  concat (map (fun i => buffered_push (200 + Z.of_nat i) 8 ++ buffered_pop 11) (seq 0 n)).

(** Thread 0 reads [head_] while its announcement waits in its buffer. Thread 1 pops
    that node and many others; its collection reads the slot of thread 0 as inactive
    and frees the node, which thread 0 then follows. *)
Fact mpmc_store_buffer_use_after_free :
  buffered_run (mkBuffered registered [])
    (unbuffered ((0%nat, Start OpPop) :: goes 5 0 0) ++ buffered_churn 31 ++
     buffered_push 300 8 ++ buffered_pop 52 ++ buffered_push 301 8 ++ buffered_pop 19 ++ unbuffered (goes 1 0 0))
  = Some (Undef "access to a node that is not allocated").
Proof. vm_compute. reflexivity. Qed.
